(* ===== verification/_CoqProject ===== *)
-Q . S2P
Prelude.v
RustStr.v
Sample.v
Diag.v
Rv64.v
Immediate.v
Asm.v
Layout.v
LayoutFacts.v
MachineCfg.v
MachineFacts.v
ElfWriter.v
ElfChecker.v
Isa.v
Decode.v
Rv64Sem.v
ScanFacts.v
ParseFacts.v
ElfFacts.v
Admission.v
Frame.v
Trust.v
Record.v
RecordGraph.v
RecordFacts.v
ElfStructure.v
StructureFacts.v
Execution.v
ArtifactSample.v
