(* ===== verification/Prelude.v ===== *)
(** Verification of the CellScript back end and of its independent artifact checker.

    * The program

    CellScript compiles contracts to RISC-V (RV64) ELF executables.  The front end lowers a
    module to generated assembly lines; from there two programs carry the trust of the
    result, and they share no code:

    - the internal assembler (src/src/codegen/assembler.rs and
      src/src/codegen/assembler/immediate.rs) parses the lines, lays the two sections out,
      relaxes branches, encodes every instruction and writes the ELF file;
    - the artifact checker (src/crates/cellscript-artifact-checker) reads the file back,
      decodes it against an allowlist, and validates it against a lowering record: the
      blocks, calls, stack slots, return-address slots and entries the compiler claims.

    The development models both, the file format between them, and from the code generator the
    emission of stack adjustments, whose form the checker relies on.

    * Files

    Vocabulary.
    - [Prelude]: [result] with the [let?] notation for Rust's [?], checked and wrapping
      machine integers, little-endian bytes, fields of a word, shared list lemmas, the
      tactics and the databases [cell_bits] and [cell_asm].
    - [RustStr]: the parts of Rust's [str], [char] and integer parsing the sources use; a
      string is the list of its Unicode scalar values.
    - [Diag]: [CompileError] as the back end builds it.
    - [Sample], [ArtifactSample]: one small program, its artifact and its record, the
      concrete input of the witnesses.

    Assembler (assembler.rs, immediate.rs).
    - [Rv64]: [encode_r_type] .. [encode_ecall], hi/lo splitting, alignment.
    - [Immediate]: [plan], [legacy], [recursive] and the choice between them.
    - [Asm]: [Instruction], [AsmOp] and their parser.
    - [Layout], [LayoutFacts]: [ParsedAssembly], [op_size], branch relaxation,
      [encode_instruction], [encode_section]; layout and emission agree.
    - [MachineCfg], [MachineFacts]: machine blocks, edges, coverage check, layout order,
      reachability and metrics.
    - [ElfWriter], [ElfFacts]: [reject_unresolved_calls], the start trampoline, the header
      writers and [assemble_elf_internal]; the emitted file in closed form.

    Checker (elf.rs, checker.rs, checker/*.rs, schema.rs).
    - [ElfChecker]: [parse_elf].  [ScanFacts] says what the words of a text do (transfers,
      adjustments of [sp], pending return addresses) and that one scan records exactly that;
      [ParseFacts] says what acceptance of a file means.
    - [Isa]: the predicates of checker/isa.rs.
    - [Record], [RecordGraph], [RecordFacts]: the lowering record and the validators of
      checker/record_graph.rs.
    - [ElfStructure], [StructureFacts]: the passes of checker/elf_structure.rs that bind an
      artifact to its record.
    - [Execution]: runs of an accepted artifact on the RV64 semantics, against the lowering
      graph of its record.

    Code generator (frame.rs, emission.rs).
    - [Frame]: [emit_large_addi] and [emit_stack_adjustment], and what the checker reads from
      the code they emit.

    Between the two.
    - [Decode]: the checker decodes what the assembler encodes.
    - [Rv64Sem]: a reference semantics of the RV64 instructions used, and the execution of
      the emitted sequences under it.
    - [Admission], [Trust]: the checker accepts what the assembler emits.

    * Correspondence

    Rust functions keep their names.  A [Result] is [result E A]; an error is the variant or
    the message constructor with its arguments.  A w-bit integer is a [Z] with the wrap-around
    or the overflow check written out where the source has [wrapping_*], [checked_*] or [as].
    A [Vec] is a list, a byte vector a list of [Z], a [HashMap] or [BTreeMap] a [gmap] (or a
    sorted list where the source iterates in key order), a set a [gset] or a list with
    membership tests.  Slicing and indexing that can panic return [option] or a distinguished
    outcome; the theorems named [*_never_panic*] say it does not occur.  [parse_elf] is one
    long function in the source: each phase is a definition here, composed in its order.

    * What the theorems show

    - Trust chain: a program the assembler accepts and that follows the code generator's
      conventions ([checkable]: the text holds code only, [sp] moves by an [addi] or by a
      constant just loaded into a scratch register, transfers name text labels, the text does
      not end in a conditional branch) is written to a file the checker's [parse_elf] accepts,
      with every instruction at the address its layout assigns and with exactly the program's
      stack adjustments ([assembled_elf_accepted], [assembled_placement]); the generator's
      adjustments of every size read back with their amount ([stack_adjustment_recognised]);
      emitted words are on the allowlist; calls, branches and jumps decode to the targets they
      were encoded for.
    - Instruction selection: [plan] denotes the requested 64-bit value, and the emitted
      literal, address and branch sequences run to the effect of the assembly instruction
      under the reference semantics; relaxation leaves no branch out of its range.
    - Machine graph: blocks partition the text, only their last instruction transfers
      control, the edges are exactly the transfers of the code, the layout order is a
      permutation, the unreachable count is the number of unreachable blocks.
    - Reader soundness: the words of an accepted file are the file's bytes and allowed; the
      recorded transfers and stack adjustments are exactly those of the words, computed from
      their immediates; transfers land on instructions; nothing else writes [sp].
    - Record validation: [validate_call_graph] succeeds exactly when the call chains between
      different entries are within the depth limit; worklist reachability is graph
      reachability; blocks form a chain from the start of the text to its end; slots are
      disjoint; nothing panics.
    - Structure: the record's graph simulates the machine: a step of the RV64 semantics from
      inside a block stays in it or follows a declared edge, and a run from the entry point
      stays in the start-up code and in reachable blocks.  Two conditions are not consequences
      of acceptance and are stated as hypotheses or in the step relation: block ranges do not
      run backwards ([forward]), and a [ret] goes to the return address of a call of the run.
      The stack-discipline pass accepts exactly the artifacts with a consistent, in-frame,
      balanced assignment of stack-pointer deltas; the return-address-slot pass is
      characterised exactly.
    - Four theorems record where the code accepts or does more than it means to: a [.align]
      in text misplaces labels ([text_alignment_misplaces_labels]), a store can hide an
      [auipc]-defined return address from the check of [ret] ([ret_to_auipc_admitted]), an
      inverted block range passes the record checks ([inverted_range_accepted]), and so does
      an entry that calls itself ([direct_recursion_accepted]).

    * Fuel

    Every function is total.  Loops with no structural argument take fuel, and each bound is
    proved enough where a theorem depends on it: cutting a text into words takes at most its
    length in steps; each call of [recursive] in the immediate planner drops at least twelve
    bits of its value, so six calls suffice ([recursive_fuel_enough]); the worklists of reachability and
    of the stack discipline pop one item per step and every item is an entry or an edge of the
    graph, so the number of entries plus the number of edges suffices; the depth search nests at most as deep as the number of
    entries, or finds a cycle.

    * Not modelled

    - Blake2b is a library: the digest pass takes it as an argument.
    - [validate_record_schema] and canonical JSON: hashing of serde_json values.
    - The typed semantic record and its machine layers (nested_machine.rs,
      scalar_machine.rs, commitment_machine.rs, most of policy_dispatch.rs), failure.rs and
      source_map.rs of the checker.  Where a modelled pass takes a result of failure.rs
      (terminal sinks), it is an argument.
    - [machine_layout_evidence], which joins the machine plan with the IR; spans and
      rendering of diagnostics.
    - The front end (lexer, parser, types, IR, optimizer), the code generator except for its
      stack adjustments, and the tools (CLI, LSP, packages, WASM).

    * Plan

    Next: failure.rs and source_map.rs, so that terminal sinks are computed rather than
    given; acceptance of assembled start-up code by [validate_startup]; the record-schema
    checks that need no hashing; then the scalar and nested machine layers; then the lexer
    and the optimizer's rewrites with an IR semantics. *)

(** Shared vocabulary of the development: the result type with its notation,
    machine-width integers, little-endian byte strings, bit-field arithmetic and
    the automation (tactics, hint and rewrite databases) the component files use. *)

From stdpp Require Import base numbers list option tactics gmap.
From Stdlib Require Import ZArith Lia.

Open Scope Z_scope.

Declare Scope cell_scope.
Delimit Scope cell_scope with cell.
Open Scope cell_scope.

(** * Fallible computations: Rust's [Result] *)

Inductive result (E A : Type) : Type :=
| Ok (a : A)
| Err (e : E).
Arguments Ok {E A} a.
Arguments Err {E A} e.

(** The [?] operator: continue with the success value, return the error. *)
Notation "'let?' p ':=' m 'in' k" :=
  (match m with Ok p => k | Err e => Err e end)
  (at level 10, p pattern, m at level 200, k at level 200) : cell_scope.

Definition map_err {E F A} (f : E -> F) (r : result E A) : result F A :=
  match r with Ok a => Ok a | Err e => Err (f e) end.

Definition ok_or {E A} (o : option A) (e : E) : result E A :=
  match o with Some a => Ok a | None => Err e end.

Definition ok_opt {E A} (r : result E A) : option A :=
  match r with Ok a => Some a | Err _ => None end.

Definition is_ok {E A} (r : result E A) : bool :=
  match r with Ok _ => true | Err _ => false end.

(** Fold with early return, the shape of a [for] loop whose body uses [?]. *)
Fixpoint fold_result {E S A} (f : S -> A -> result E S) (s : S) (l : list A)
  : result E S :=
  match l with
  | [] => Ok s
  | x :: l' => let? s' := f s x in fold_result f s' l'
  end.

Lemma fold_result_app {E S A} (f : S -> A -> result E S) s l1 l2 :
  fold_result f s (l1 ++ l2) = (let? s' := fold_result f s l1 in fold_result f s' l2).
Proof. revert s; induction l1 as [|x l1 IH]; intros s; simpl; [done|]. destruct (f s x); [apply IH|done]. Qed.

(** [iter().enumerate()]. *)
Fixpoint enumerate_from {A} (k : nat) (l : list A) : list (nat * A) :=
  match l with
  | [] => []
  | x :: l' => (k, x) :: enumerate_from (S k) l'
  end.
Abbreviation enumerate l := (enumerate_from 0 l).

Lemma enumerate_from_app {A} k (l1 l2 : list A) :
  enumerate_from k (l1 ++ l2) = enumerate_from k l1 ++ enumerate_from (k + length l1) l2.
Proof.
  revert k; induction l1 as [|x l1 IH]; intros k; simpl; [by rewrite Nat.add_0_r|].
  rewrite IH. do 3 f_equal. lia.
Qed.

Lemma elem_of_enumerate_from {A} k (l : list A) i x :
  (i, x) ∈ enumerate_from k l <-> exists j, i = (k + j)%nat /\ l !! j = Some x.
Proof.
  revert k; induction l as [|y l IH]; intros k; simpl.
  - rewrite elem_of_nil. split; [done|]. by intros (j & _ & ?).
  - rewrite elem_of_cons, IH. split.
    + intros [[= -> ->]|(j & -> & Hj)]; [exists O|exists (S j)]; (split; [lia|done]).
    + intros ([|j] & -> & Hj); [left; simpl in Hj; injection Hj as ->; f_equal; lia|].
      right. exists j. split; [lia|done].
Qed.

(** Invariant rule for [fold_result]. *)
Lemma fold_result_inv {E S A} (P : S -> Prop) (f : S -> A -> result E S) l :
  (forall s x s', x ∈ l -> P s -> f s x = Ok s' -> P s') ->
  forall s s', P s -> fold_result f s l = Ok s' -> P s'.
Proof.
  induction l as [|x l IH]; intros Hstep s s' Hs; simpl; [by intros [= ->]|].
  destruct (f s x) as [s1|] eqn:E1; [|done]. apply IH.
  - intros ??? Hx. apply Hstep. by apply list_elem_of_further.
  - eapply Hstep, E1; [by apply list_elem_of_here|done].
Qed.

Lemma Ok_inj {E A} (a b : A) : @Ok E A a = Ok b -> a = b.
Proof. congruence. Qed.

(** [inv_ok]: open every [?] of a hypothesis that says a computation succeeded. *)
Ltac inv_ok_step :=
  match goal with
  | H : Ok _ = Ok _ |- _ => apply Ok_inj in H
  | H : (_, _) = (_, _) |- _ => apply pair_equal_spec in H as [? H]
  | H : Err _ = Ok _ |- _ => discriminate H
  | H : Ok _ = Err _ |- _ => discriminate H
  | H : match ?m with Ok _ => _ | Err _ => _ end = Ok _ |- _ =>
      let E := fresh "E" in destruct m eqn:E; [|discriminate H]
  | H : match ?p with (_, _) => _ end = Ok _ |- _ => destruct p
  | H : (if ?b then Err _ else _) = Ok _ |- _ =>
      let E := fresh "E" in destruct b eqn:E; [discriminate H|]
  | H : (if ?b then _ else Err _) = Ok _ |- _ =>
      let E := fresh "E" in destruct b eqn:E; [|discriminate H]
  end.
Ltac inv_ok := repeat inv_ok_step.

(** * Machine-width integers *)

Definition as_u (w z : Z) : Z := z mod 2 ^ w.
Definition as_s (w z : Z) : Z := (z + 2 ^ (w - 1)) mod 2 ^ w - 2 ^ (w - 1).

Abbreviation as_u8 := (as_u 8).
Abbreviation as_u16 := (as_u 16).
Abbreviation as_u32 := (as_u 32).
Abbreviation as_u64 := (as_u 64).
Abbreviation as_i32 := (as_s 32).
Abbreviation as_i64 := (as_s 64).

Definition U32_MAX : Z := 0xffffffff.
Definition U64_MAX : Z := 0xffffffffffffffff.
Definition I64_MIN : Z := - 0x8000000000000000.
Definition I64_MAX : Z := 0x7fffffffffffffff.
Definition I32_MIN : Z := - 0x80000000.
Definition I32_MAX : Z := 0x7fffffff.

Definition in_range (lo hi z : Z) : bool := (lo <=? z) && (z <=? hi).

(** [u64::saturating_add] and friends. *)
Definition sat_add_u64 (a b : Z) : Z := Z.min (a + b) U64_MAX.
Definition sat_sub_u64 (a b : Z) : Z := Z.max (a - b) 0.
Definition sat_add_i64 (a b : Z) : Z := Z.max I64_MIN (Z.min (a + b) I64_MAX).
Definition checked_add_u64 (a b : Z) : option Z :=
  if a + b <=? U64_MAX then Some (a + b) else None.
Definition checked_sub_u64 (a b : Z) : option Z :=
  if b <=? a then Some (a - b) else None.

(** [u32] left shift: bits moved past position 31 are lost. *)
Definition shl32 (a n : Z) : Z := as_u32 (Z.shiftl a n).

(** * Bit-field arithmetic *)

Create Rewrite HintDb cell_bits.
Create HintDb cell_asm.

Lemma land_ones_lit (n m x : Z) : 0 <= n -> m = Z.ones n -> Z.land x m = x mod 2 ^ n.
Proof. intros Hn ->. by apply Z.land_ones. Qed.

Lemma land_0x1 x : Z.land x 0x1 = x mod 2.
Proof. by apply (land_ones_lit 1). Qed.
Lemma land_0x7 x : Z.land x 0x7 = x mod 8.
Proof. by apply (land_ones_lit 3). Qed.
Lemma land_0xf x : Z.land x 0xf = x mod 16.
Proof. by apply (land_ones_lit 4). Qed.
Lemma land_0x1f x : Z.land x 0x1f = x mod 32.
Proof. by apply (land_ones_lit 5). Qed.
Lemma land_0x3f x : Z.land x 0x3f = x mod 64.
Proof. by apply (land_ones_lit 6). Qed.
Lemma land_0x7f x : Z.land x 0x7f = x mod 128.
Proof. by apply (land_ones_lit 7). Qed.
Lemma land_0xff x : Z.land x 0xff = x mod 256.
Proof. by apply (land_ones_lit 8). Qed.
Lemma land_0x3ff x : Z.land x 0x3ff = x mod 1024.
Proof. by apply (land_ones_lit 10). Qed.
Lemma land_0xfff x : Z.land x 0xfff = x mod 4096.
Proof. by apply (land_ones_lit 12). Qed.
Lemma land_0x1fff x : Z.land x 0x1fff = x mod 8192.
Proof. by apply (land_ones_lit 13). Qed.
Lemma land_0xfffff x : Z.land x 0xfffff = x mod 1048576.
Proof. by apply (land_ones_lit 20). Qed.
Lemma land_0x1fffff x : Z.land x 0x1fffff = x mod 2097152.
Proof. by apply (land_ones_lit 21). Qed.

(** Clearing the low [n] bits. *)
Lemma land_lnot_ones (x n : Z) : 0 <= n -> Z.land x (Z.lnot (Z.ones n)) = x / 2 ^ n * 2 ^ n.
Proof.
  intros Hn. rewrite <- Z.ldiff_land, Z.ldiff_ones_r by done.
  by rewrite Z.shiftl_mul_pow2, Z.shiftr_div_pow2.
Qed.

Lemma land_high20 x : 0 <= x < 2 ^ 32 -> Z.land x 0xfffff000 = x / 4096 * 4096.
Proof.
  intros Hx. change 0xfffff000 with (Z.land (Z.ones 32) (Z.lnot (Z.ones 12))).
  rewrite Z.land_assoc, Z.land_ones, land_lnot_ones by lia.
  by rewrite Z.mod_small.
Qed.

Lemma shl32_small a n k :
  0 <= n -> 0 <= a < 2 ^ k -> k + n <= 32 -> 0 <= k -> shl32 a n = a * 2 ^ n.
Proof.
  intros Hn Ha Hk Hk0. unfold shl32, as_u. rewrite Z.shiftl_mul_pow2 by done.
  apply Z.mod_small. split; [nia|].
  apply Z.lt_le_trans with (2 ^ k * 2 ^ n); [nia|].
  rewrite <- Z.pow_add_r by done. by apply Z.pow_le_mono_r.
Qed.

(** [|] of disjoint fields is addition. *)
Lemma lor_add_disjoint (n a b : Z) :
  0 <= n -> 0 <= b < 2 ^ n -> a mod 2 ^ n = 0 -> Z.lor a b = a + b.
Proof.
  intros Hn Hb Ha. symmetry. apply Z.add_nocarry_lor, Z.bits_inj'. intros i Hi.
  rewrite Z.land_spec, Z.bits_0.
  destruct (Z.lt_ge_cases i n) as [Hin|Hin].
  - replace (Z.testbit a i) with false; [done|].
    rewrite <- (Z.mod_pow2_bits_low a n i) by done. by rewrite Ha, Z.bits_0.
  - replace (Z.testbit b i) with false; [by rewrite andb_false_r|].
    rewrite <- (Z.mod_small b (2 ^ n)) by done.
    by rewrite Z.mod_pow2_bits_high by lia.
Qed.

Lemma as_u_range w z : 0 <= w -> 0 <= as_u w z < 2 ^ w.
Proof. intros. apply Z.mod_pos_bound. lia. Qed.

Lemma as_u_small w z : 0 <= z < 2 ^ w -> as_u w z = z.
Proof. apply Z.mod_small. Qed.

Lemma as_s_small w z : 0 < w -> - 2 ^ (w - 1) <= z < 2 ^ (w - 1) -> as_s w z = z.
Proof.
  intros Hw Hz. unfold as_s.
  assert (2 ^ w = 2 * 2 ^ (w - 1)) as E.
  { rewrite <- Z.pow_succ_r by lia. f_equal. lia. }
  rewrite Z.mod_small; lia.
Qed.

(** Power-of-two constants, evaluated so that [lia] sees literals. *)
Ltac pow2_consts :=
  repeat match goal with
  | |- context [2 ^ Zpos ?p] =>
      let v := eval vm_compute in (2 ^ Zpos p) in change (2 ^ Zpos p) with v
  | H : context [2 ^ Zpos ?p] |- _ =>
      let v := eval vm_compute in (2 ^ Zpos p) in change (2 ^ Zpos p) with v in H
  end.

#[export] Hint Rewrite land_0x1 land_0x7 land_0xf land_0x1f land_0x3f land_0x7f land_0xff
  land_0x3ff land_0xfff land_0x1fff land_0xfffff land_0x1fffff : cell_bits.
#[export] Hint Rewrite Z.shiftr_div_pow2 Z.shiftl_mul_pow2 using lia : cell_bits.

Ltac zdivmod := Z.to_euclidean_division_equations; lia.

(** * Little-endian byte strings *)

(** A byte is a [Z]; [byte_ok] is its width. *)
Definition byte_ok (b : Z) : Prop := 0 <= b < 256.
Definition bytes_ok (l : list Z) : Prop := Forall byte_ok l.

(** [uN::to_le_bytes] for an [n]-byte integer. *)
Fixpoint le_bytes (n : nat) (z : Z) : list Z :=
  match n with
  | O => []
  | S n' => z mod 256 :: le_bytes n' (z / 256)
  end.

(** [uN::from_le_bytes]. *)
Fixpoint of_le_bytes (l : list Z) : Z :=
  match l with
  | [] => 0
  | b :: l' => b + 256 * of_le_bytes l'
  end.

Lemma length_le_bytes n z : length (le_bytes n z) = n.
Proof. revert z; induction n; intros z; simpl; [done|]. by rewrite IHn. Qed.

Lemma le_bytes_ok n z : bytes_ok (le_bytes n z).
Proof.
  revert z; induction n; intros z; simpl; constructor; [|apply IHn].
  apply Z.mod_pos_bound. lia.
Qed.

Lemma of_le_bytes_le_bytes n z : of_le_bytes (le_bytes n z) = z mod 2 ^ (8 * Z.of_nat n).
Proof.
  revert z; induction n as [|n IH]; intros z.
  - simpl. by rewrite Z.mod_1_r.
  - cbn [le_bytes of_le_bytes]. rewrite IH.
    replace (8 * Z.of_nat (S n)) with (8 + 8 * Z.of_nat n) by lia.
    rewrite Z.pow_add_r by lia. change (2 ^ 8) with 256.
    rewrite Z.rem_mul_r by lia. lia.
Qed.

Lemma le_bytes_of_le_bytes l : bytes_ok l -> le_bytes (length l) (of_le_bytes l) = l.
Proof.
  induction 1 as [|b l Hb Hl IH]; simpl; [done|]. unfold byte_ok in Hb.
  replace ((b + 256 * of_le_bytes l) mod 256) with b by zdivmod.
  replace ((b + 256 * of_le_bytes l) / 256) with (of_le_bytes l) by zdivmod.
  by rewrite IH.
Qed.

(** A little-endian word read back from any place it was written. *)
Lemma of_le_bytes_small n z :
  0 <= z < 2 ^ (8 * Z.of_nat n) -> of_le_bytes (le_bytes n z) = z.
Proof. intros Hz. rewrite of_le_bytes_le_bytes. by apply Z.mod_small. Qed.

(** [bytes.get(start..start + len)]. *)
Definition get_range (l : list Z) (start len : nat) : option (list Z) :=
  if decide (start + len <= length l)%nat then Some (take len (drop start l)) else None.

Lemma get_range_app_l l1 l2 start len :
  (start + len <= length l1)%nat -> get_range (l1 ++ l2) start len = get_range l1 start len.
Proof.
  intros H. unfold get_range. rewrite length_app.
  rewrite !decide_True by lia. f_equal.
  rewrite drop_app_le by lia. by rewrite take_app_le by (rewrite length_drop; lia).
Qed.

Lemma get_range_app_r l1 l2 start len n :
  start = (length l1 + n)%nat -> get_range (l1 ++ l2) start len = get_range l2 n len.
Proof.
  intros ->. unfold get_range. rewrite length_app.
  rewrite drop_app_ge by lia. replace (length l1 + n - length l1)%nat with n by lia.
  destruct (decide (n + len <= length l2)%nat).
  - by rewrite decide_True by lia.
  - by rewrite decide_False by lia.
Qed.

Lemma get_range_here l1 l2 : get_range (l1 ++ l2) 0 (length l1) = Some l1.
Proof.
  unfold get_range. rewrite length_app, decide_True by lia. simpl. by rewrite drop_0, take_app_length.
Qed.

Lemma get_range_length l start len r : get_range l start len = Some r -> length r = len.
Proof.
  unfold get_range. case_decide; [|done]. intros [= <-].
  rewrite length_take, length_drop. lia.
Qed.
