(* ===== verification/RustStr.v ===== *)
(** The parts of Rust's [str], [char] and integer-parsing API that the assembler and
    the lexer use.  A string is the list of its Unicode scalar values, so that
    [char]-level operations ([trim], [splitn], [chars]) are exact; the UTF-8 width and
    encoding of a scalar value are functions of it. *)

From stdpp Require Import base numbers list option tactics.
From Stdlib Require Import ZArith Lia String Ascii.
From S2P Require Import Prelude.

Open Scope Z_scope.

Abbreviation str := (list Z).

(** Scalar values of a literal of the source. *)
Fixpoint chars (s : string) : str :=
  match s with
  | EmptyString => []
  | String a s' => Z.of_N (N_of_ascii a) :: chars s'
  end.
Arguments chars s%_string.

Fixpoint str_eqb (a b : str) : bool :=
  match a, b with
  | [], [] => true
  | x :: a', y :: b' => (x =? y) && str_eqb a' b'
  | _, _ => false
  end.

Lemma str_eqb_eq a b : str_eqb a b = true <-> a = b.
Proof.
  revert b; induction a as [|x a IH]; intros [|y b]; simpl; try done.
  rewrite andb_true_iff, Z.eqb_eq, IH. split; [by intros [-> ->]|by intros [= -> ->]].
Qed.

Lemma str_eqb_refl a : str_eqb a a = true.
Proof. by apply str_eqb_eq. Qed.

(** * [char] *)

(** [char::is_whitespace]: the Unicode [White_Space] property. *)
Definition is_whitespace (c : Z) : bool :=
  ((9 <=? c) && (c <=? 13)) || (c =? 0x20) || (c =? 0x85) || (c =? 0xA0) || (c =? 0x1680)
  || ((0x2000 <=? c) && (c <=? 0x200A)) || (c =? 0x2028) || (c =? 0x2029)
  || (c =? 0x202F) || (c =? 0x205F) || (c =? 0x3000).

(** [char::to_digit]. *)
Definition to_digit (radix c : Z) : option Z :=
  let d :=
    if (48 <=? c) && (c <=? 57) then Some (c - 48)
    else if (97 <=? c) && (c <=? 122) then Some (c - 87)
    else if (65 <=? c) && (c <=? 90) then Some (c - 55)
    else None in
  match d with
  | Some v => if v <? radix then Some v else None
  | None => None
  end.

(** [char::len_utf8] and [char::encode_utf8]. *)
Definition len_utf8 (c : Z) : Z :=
  if c <? 0x80 then 1 else if c <? 0x800 then 2 else if c <? 0x10000 then 3 else 4.

Definition encode_utf8 (c : Z) : list Z :=
  if c <? 0x80 then [c]
  else if c <? 0x800 then
    [Z.lor 0xC0 (Z.shiftr c 6); Z.lor 0x80 (Z.land c 0x3f)]
  else if c <? 0x10000 then
    [Z.lor 0xE0 (Z.shiftr c 12); Z.lor 0x80 (Z.land (Z.shiftr c 6) 0x3f);
     Z.lor 0x80 (Z.land c 0x3f)]
  else
    [Z.lor 0xF0 (Z.shiftr c 18); Z.lor 0x80 (Z.land (Z.shiftr c 12) 0x3f);
     Z.lor 0x80 (Z.land (Z.shiftr c 6) 0x3f); Z.lor 0x80 (Z.land c 0x3f)].

Lemma length_encode_utf8 c : Z.of_nat (List.length (encode_utf8 c)) = len_utf8 c.
Proof. unfold encode_utf8, len_utf8. by repeat case_match. Qed.

(** * [str] *)

Fixpoint drop_while (p : Z -> bool) (s : str) : str :=
  match s with
  | [] => []
  | c :: s' => if p c then drop_while p s' else s
  end.

Definition trim_start (s : str) : str := drop_while is_whitespace s.
Definition trim_end (s : str) : str := rev (drop_while is_whitespace (rev s)).
Definition trim (s : str) : str := trim_end (trim_start s).

Fixpoint strip_prefix (p s : str) : option str :=
  match p, s with
  | [], _ => Some s
  | x :: p', y :: s' => if x =? y then strip_prefix p' s' else None
  | _ :: _, [] => None
  end.

Definition strip_suffix (p s : str) : option str :=
  match strip_prefix (rev p) (rev s) with
  | Some r => Some (rev r)
  | None => None
  end.

Definition starts_with (p s : str) : bool :=
  match strip_prefix p s with Some _ => true | None => false end.

(** The text before and after the first character that satisfies [p]. *)
Fixpoint split_at_first (p : Z -> bool) (s : str) : option (str * str) :=
  match s with
  | [] => None
  | c :: s' =>
      if p c then Some ([], s')
      else match split_at_first p s' with
           | Some (a, b) => Some (c :: a, b)
           | None => None
           end
  end.

(** [s.find(c)] and [s.rfind(c)], as positions in the scalar values. *)
Fixpoint find_char (c : Z) (s : str) : option nat :=
  match s with
  | [] => None
  | x :: s' => if x =? c then Some O else option_map S (find_char c s')
  end.

Fixpoint rfind_char (c : Z) (s : str) : option nat :=
  match s with
  | [] => None
  | x :: s' =>
      match rfind_char c s' with
      | Some i => Some (S i)
      | None => if x =? c then Some O else None
      end
  end.

(** [s.splitn(2, p)]: first piece, and the rest after the separator if there is one. *)
Definition splitn2 (p : Z -> bool) (s : str) : str * option str :=
  match split_at_first p s with
  | Some (a, b) => (a, Some b)
  | None => (s, None)
  end.

(** [s.split(c)]. *)
Fixpoint split_char (c : Z) (s : str) : list str :=
  match s with
  | [] => [[]]
  | x :: s' =>
      if x =? c then [] :: split_char c s'
      else match split_char c s' with
           | [] => [[x]]
           | w :: ws => (x :: w) :: ws
           end
  end.

Lemma strip_prefix_Some p s r : strip_prefix p s = Some r <-> s = p ++ r.
Proof.
  revert s; induction p as [|x p IH]; intros s; simpl.
  - split; [by intros [= ->]|by intros ->].
  - destruct s as [|y s]; simpl; [done|].
    destruct (Z.eqb_spec x y) as [->|Hne].
    + rewrite IH. split; [by intros ->|by intros [= ->]].
    + split; [done|intros [= ??]; congruence].
Qed.

Lemma strip_suffix_Some p s r : strip_suffix p s = Some r <-> s = r ++ p.
Proof.
  unfold strip_suffix.
  destruct (strip_prefix (rev p) (rev s)) as [q|] eqn:E.
  - apply strip_prefix_Some in E.
    apply (f_equal (@rev Z)) in E. rewrite rev_involutive, rev_app_distr, rev_involutive in E.
    split.
    + by intros [= <-].
    + intros ->. by apply app_inv_tail in E as ->.
  - split; [done|]. intros ->. exfalso.
    assert (strip_prefix (rev p) (rev (r ++ p)) = Some (rev r)) as H
      by (apply strip_prefix_Some; by rewrite rev_app_distr).
    congruence.
Qed.

(** * Integer parsing: [iN::from_str_radix], [uN::from_str_radix] and [str::parse] *)

Fixpoint digits_value (radix acc : Z) (s : str) : option Z :=
  match s with
  | [] => Some acc
  | c :: s' =>
      match to_digit radix c with
      | Some d => digits_value radix (acc * radix + d) s'
      | None => None
      end
  end.

(** The sign rules: a lone sign is an error, [+] is always accepted, [-] only for a
    signed type.  The value must fit the type, bounds [lo..hi]. *)
Definition from_str_radix (signed : bool) (lo hi radix : Z) (s : str) : option Z :=
  let value :=
    match s with
    | [] => None
    | [c] => if (c =? 43) || (c =? 45) then None else digits_value radix 0 s
    | c :: s' =>
        if c =? 43 then digits_value radix 0 s'
        else if (c =? 45) && signed then
          match digits_value radix 0 s' with Some v => Some (- v) | None => None end
        else digits_value radix 0 s
    end in
  match value with
  | Some v => if in_range lo hi v then Some v else None
  | None => None
  end.

Definition I128_MIN : Z := - 2 ^ 127.
Definition I128_MAX : Z := 2 ^ 127 - 1.
Definition U128_MAX : Z := 2 ^ 128 - 1.

Definition i64_from_str_radix (radix : Z) (s : str) : option Z :=
  from_str_radix true I64_MIN I64_MAX radix s.
Definition i128_from_str_radix (radix : Z) (s : str) : option Z :=
  from_str_radix true I128_MIN I128_MAX radix s.
Definition u128_from_str_radix (radix : Z) (s : str) : option Z :=
  from_str_radix false 0 U128_MAX radix s.
Definition u8_from_str_radix (radix : Z) (s : str) : option Z :=
  from_str_radix false 0 255 radix s.

(** Decimal [Display] of an integer, what [format!("{}", n)] prints. *)
Fixpoint dec_digits (fuel : nat) (n : Z) (acc : str) : str :=
  match fuel with
  | O => acc
  | S fuel' =>
      let acc' := (48 + n mod 10) :: acc in
      if n <? 10 then acc' else dec_digits fuel' (n / 10) acc'
  end.

Definition show_nat_dec (n : Z) : str := dec_digits (S (Z.to_nat (Z.log2 n))) n [].
Definition show_dec (z : Z) : str :=
  if z <? 0 then 45 :: show_nat_dec (- z) else show_nat_dec z.

Lemma from_str_radix_range signed lo hi radix s v :
  from_str_radix signed lo hi radix s = Some v -> lo <= v <= hi.
Proof.
  unfold from_str_radix. intros H.
  destruct (match s with [] => None | [c] => _ | c :: _ => _ end) as [x|]; [|done].
  destruct (in_range lo hi x) eqn:E; [|done]. injection H as <-.
  unfold in_range in E. lia.
Qed.

Lemma to_digit_dec d : 0 <= d < 10 -> to_digit 10 (48 + d) = Some d.
Proof.
  intros Hd. unfold to_digit.
  replace ((48 <=? 48 + d) && (48 + d <=? 57)) with true by lia.
  replace (48 + d - 48) with d by lia. by replace (d <? 10) with true by lia.
Qed.

Lemma dec_digits_value fuel n acc k :
  0 <= n -> n < 2 ^ Z.of_nat fuel -> (0 < fuel)%nat ->
  digits_value 10 k (dec_digits fuel n acc)
  = digits_value 10 (k * 10 ^ Z.of_nat (List.length (dec_digits fuel n [])) + n) acc.
Proof.
  revert n acc k. induction fuel as [|fuel IH]; intros n acc k Hn Hf H0; [lia|].
  assert (forall a, dec_digits (S fuel) n a
          = if n <? 10 then (48 + n mod 10) :: a
            else dec_digits fuel (n / 10) ((48 + n mod 10) :: a)) as Eq by done.
  rewrite !Eq.
  destruct (Z.ltb_spec n 10) as [Hlt|Hge].
  - cbn [digits_value List.length]. rewrite Z.mod_small by lia.
    rewrite to_digit_dec by lia. f_equal.
  - rewrite Nat2Z.inj_succ, Z.pow_succ_r in Hf by lia.
    assert (0 < fuel)%nat by (destruct fuel; simpl in Hf; lia).
    rewrite IH by (assumption || zdivmod). cbn [digits_value].
    assert (0 <= n mod 10 < 10) by zdivmod.
    rewrite to_digit_dec by lia.
    assert (forall f m a, List.length (dec_digits f m a)
            = (List.length (dec_digits f m []) + List.length a)%nat) as Hlen.
    { clear. induction f as [|f IHf]; intros m a; [done|]. cbn [dec_digits].
      destruct (m <? 10); [done|]. rewrite (IHf _ (_ :: a)), (IHf _ [_]). simpl. lia. }
    rewrite (Hlen fuel _ [_]). cbn [List.length].
    replace (Z.of_nat (List.length (dec_digits fuel (n / 10) []) + 1))
      with (Z.succ (Z.of_nat (List.length (dec_digits fuel (n / 10) [])))) by lia.
    rewrite Z.pow_succ_r by lia. f_equal.
    pose proof (Z.div_mod n 10). nia.
Qed.

Lemma dec_digits_cons fuel n acc :
  0 <= n -> (0 < fuel)%nat -> exists d r, dec_digits fuel n acc = (48 + d) :: r /\ 0 <= d < 10.
Proof.
  revert n acc; induction fuel as [|fuel IH]; intros n acc Hn Hf; [lia|].
  cbn [dec_digits]. destruct (Z.ltb_spec n 10).
  - exists (n mod 10), acc. split; [done|zdivmod].
  - destruct fuel; [|apply IH; [zdivmod|lia]].
    exists (n mod 10), acc. split; [done|zdivmod].
Qed.

(** Printing and parsing a decimal literal of a signed type are inverse. *)
Lemma from_str_radix_show_dec lo hi z :
  lo <= z <= hi -> from_str_radix true lo hi 10 (show_dec z) = Some z.
Proof.
  intros Hz. unfold from_str_radix.
  assert (forall n, 0 <= n -> digits_value 10 0 (show_nat_dec n) = Some n) as Hd.
  { intros n Hn. unfold show_nat_dec. rewrite dec_digits_value; [by rewrite Z.mul_0_l|done| |lia].
    rewrite Nat2Z.inj_succ, Z2Nat.id by apply Z.log2_nonneg.
    destruct (Z.eq_dec n 0) as [->|]; [done|]. apply Z.log2_spec. lia. }
  assert (in_range lo hi z = true) as Hr by (unfold in_range; lia).
  unfold show_dec. destruct (Z.ltb_spec z 0) as [Hneg|Hpos].
  - destruct (dec_digits_cons (S (Z.to_nat (Z.log2 (- z)))) (- z) []) as (d & r & E & _); [lia..|].
    change (dec_digits (S (Z.to_nat (Z.log2 (- z)))) (- z) []) with (show_nat_dec (- z)) in E.
    pose proof (Hd (- z)) as Hd'. rewrite E in Hd' |- *. simpl andb. cbn iota.
    change (45 =? 43) with false. cbn iota.
    rewrite Hd' by lia. by rewrite Z.opp_involutive, Hr.
  - destruct (dec_digits_cons (S (Z.to_nat (Z.log2 z))) z []) as (d & r & E & Hd0); [lia..|].
    change (dec_digits (S (Z.to_nat (Z.log2 z))) z []) with (show_nat_dec z) in E.
    pose proof (Hd z Hpos) as Hd'. rewrite E in Hd' |- *.
    replace (48 + d =? 43) with false by lia. replace (48 + d =? 45) with false by lia.
    cbn [orb andb]. rewrite Hd'. destruct r; by rewrite Hr.
Qed.

(** * [std::str::from_utf8] *)

Definition is_continuation (b : Z) : bool := (0x80 <=? b) && (b <=? 0xbf).

(** The scalar value of a valid sequence, [None] on the first invalid byte.  Overlong forms,
    surrogates and values past U+10FFFF are excluded by the bounds on the second byte. *)
Fixpoint from_utf8 (l : list Z) : option str :=
  match l with
  | [] => Some []
  | b0 :: l1 =>
      if b0 <? 0x80 then s ← from_utf8 l1; Some (b0 :: s)
      else if (0xc2 <=? b0) && (b0 <=? 0xdf) then
        match l1 with
        | b1 :: l2 =>
            if is_continuation b1
            then s ← from_utf8 l2; Some ((b0 - 0xc0) * 64 + (b1 - 0x80) :: s) else None
        | _ => None
        end
      else if (0xe0 <=? b0) && (b0 <=? 0xef) then
        match l1 with
        | b1 :: b2 :: l3 =>
            if is_continuation b1 && is_continuation b2
               && (negb (b0 =? 0xe0) || (0xa0 <=? b1)) && (negb (b0 =? 0xed) || (b1 <=? 0x9f))
            then s ← from_utf8 l3;
                 Some ((b0 - 0xe0) * 4096 + (b1 - 0x80) * 64 + (b2 - 0x80) :: s)
            else None
        | _ => None
        end
      else if (0xf0 <=? b0) && (b0 <=? 0xf4) then
        match l1 with
        | b1 :: b2 :: b3 :: l4 =>
            if is_continuation b1 && is_continuation b2 && is_continuation b3
               && (negb (b0 =? 0xf0) || (0x90 <=? b1)) && (negb (b0 =? 0xf4) || (b1 <=? 0x8f))
            then s ← from_utf8 l4;
                 Some ((b0 - 0xf0) * 262144 + (b1 - 0x80) * 4096 + (b2 - 0x80) * 64
                       + (b3 - 0x80) :: s)
            else None
        | _ => None
        end
      else None
  end.

Lemma from_utf8_ascii l : Forall (fun b => 0 <= b < 0x80) l -> from_utf8 l = Some l.
Proof.
  induction 1 as [|b l Hb _ IH]; [done|]. cbn [from_utf8].
  destruct (Z.ltb_spec b 0x80); [|lia]. by rewrite IH.
Qed.

(** Order of [String] keys: by code point, which is the order of their UTF-8 bytes. *)
Fixpoint str_compare (a b : str) : comparison :=
  match a, b with
  | [], [] => Eq
  | [], _ => Lt
  | _, [] => Gt
  | x :: a', y :: b' => match x ?= y with Eq => str_compare a' b' | c => c end
  end.
