(* ===== verification/Sample.v ===== *)
(** A small generated program with a conditional branch, a frame, a call and two functions:
    the input on which the theorems of the assembler are instantiated. *)

From stdpp Require Import base list.
From Stdlib Require Import String.
From S2P Require Import Prelude RustStr.

Definition sample_lines : list str := chars <$>
  [".global main"; "main:"; "beqz a0, .Lend"; "addi sp, sp, -16"; "sd ra, 8(sp)"; "call helper";
   "ld ra, 8(sp)"; "addi sp, sp, 16"; ".Lend:"; "ret"; ".global helper"; "helper:"; "li a0, 7";
   "ret"]%string.

(** The target of its branch. *)
Definition sample_end : str := chars ".Lend".
