(* ===== verification/Diag.v ===== *)
(** Compiler diagnostics as the backend builds them (src/error/mod.rs and the
    provenance record of src/codegen/assembler.rs).  A message is the format string
    that produces it, as a constructor with the interpolated values as arguments; the
    "generated assembly line N" prefix that [with_generated_assembly] adds is a function
    of the provenance kept beside it. *)

From stdpp Require Import base list option.
From S2P Require Import Prelude RustStr.

Open Scope Z_scope.

Inductive SectionKind := Text | Rodata.

#[export] Instance SectionKind_eq_dec : EqDecision SectionKind.
Proof. solve_decision. Defined.

Record GeneratedAssemblyProvenance := {
  gap_line : Z;
  gap_text : str;
  gap_section : SectionKind;
  gap_op_index : nat
}.

Inductive message :=
| MUnresolvedCalls (missing : list str)
| MNoEntry
| MRodataOffsetUsize
| MTextBaseBelowSegment
| MDuplicateLabel (label : str) (first_line : Z)
| MUnknownLabel (label : str)
| MOffsetBelowBias
| MBlockRange (op_start op_end : nat)
| MBlockEmpty
| MBlockOverlap (op_index : nat)
| MBlockCoverage (covered executable : nat)
| MOrderLength (order blocks : nat)
| MOrderMissing (block : nat)
| MOrderRepeats (block : nat)
| MTargetNotBlock (target : str) (block op_index : nat)
| MUnsupportedSection (name : str)
| MWordRange (value : Z)
| MByteRange (value : Z)
| MAlignRange (value : Z)
| MUnsupportedInstruction (opcode : str)
| MNotConditional
| MShiftRange (mnemonic : str)
| MLiRange (imm : Z)
| MLiRangeText (text : str)
| MInvalidPlan
| MHeaderBuffer
| MSectionHeaderBuffer
| MProgramHeaderBuffer
| MAsciiLiteral (text : str)
| MAsciiUnterminatedEscape
| MAsciiIncompleteHex
| MAsciiInvalidHex (hex : str)
| MAsciiUnsupportedEscape (c : Z)
| MMemoryOperand (text : str)
| MUnknownRegister (name : str)
| MInvalidImmediate (text : str)
| MMalformedInstruction
| MBranchAlignment
| MJumpAlignment
| MSignedField (value bits : Z)
| MLuiAddiRange (value : Z)
| MSplitOverflow (value : Z)
| MSplitLow (lo : Z)
| MRelativeOverflow
(** Not a returned diagnostic: the Rust code panics here (slice out of order). *)
| MPanicSlice.

(** The backend's diagnostic codes. *)
Inductive DiagnosticCode := E2200 | E2201 | E2202.

Record CompileError := {
  ce_message : message;
  ce_code : option DiagnosticCode;
  ce_generated_assembly : option GeneratedAssemblyProvenance
}.

Abbreviation Result := (result CompileError).

(** [CompileError::new(message, Span::default())]; every backend error has the default span. *)
Definition new_error (m : message) : CompileError :=
  {| ce_message := m; ce_code := None; ce_generated_assembly := None |}.

Abbreviation fail m := (Err (new_error m)).

Definition with_code (c : DiagnosticCode) (e : CompileError) : CompileError :=
  {| ce_message := ce_message e; ce_code := Some c;
     ce_generated_assembly := ce_generated_assembly e |}.

(** The first provenance attached to an error wins. *)
Definition with_generated_assembly (p : GeneratedAssemblyProvenance) (e : CompileError)
  : CompileError :=
  match ce_generated_assembly e with
  | Some _ => e
  | None => {| ce_message := ce_message e; ce_code := ce_code e;
               ce_generated_assembly := Some p |}
  end.

(** [GeneratedAssemblyProvenance::attach]. *)
Definition attach (p : GeneratedAssemblyProvenance) (e : CompileError) : CompileError :=
  with_generated_assembly p e.

(** An error that already has a code keeps it. *)
Definition with_codegen_code (c : DiagnosticCode) (e : CompileError) : CompileError :=
  match ce_code e with
  | Some _ => e
  | None => with_code c e
  end.

Lemma attach_message p e : ce_message (attach p e) = ce_message e.
Proof. unfold attach, with_generated_assembly. by destruct (ce_generated_assembly e). Qed.

Lemma map_err_ok {E F A} (f : E -> F) (r : result E A) a :
  map_err f r = Ok a <-> r = Ok a.
Proof. destruct r; simpl; split; congruence. Qed.
