(* ===== verification/Rv64.v ===== *)
(** RV64 instruction words: the field encoders of src/codegen/assembler.rs
    ([encode_r_type] .. [encode_ecall]), the immediate splitting used by [la], [call] and
    [li], and alignment arithmetic.  The lemmas give each encoder as the sum of its
    disjoint fields, so that a decoder's shifts and masks read every field back. *)

From stdpp Require Import base numbers list option tactics.
From Stdlib Require Import ZArith Lia.
From S2P Require Import Prelude RustStr Diag.

Open Scope Z_scope.

(** * Signed immediate fields *)

Definition signed_bits_fit (value bits : Z) : bool :=
  let min := - Z.shiftl 1 (bits - 1) in
  let max := Z.shiftl 1 (bits - 1) - 1 in
  (min <=? value) && (value <=? max).

Definition encode_signed_bits (value bits : Z) : Result Z :=
  if negb (signed_bits_fit value bits) then fail (MSignedField value bits)
  else Ok (Z.land (as_u32 (as_i32 value)) (Z.shiftl 1 bits - 1)).

(** * Instruction formats *)

Definition encode_r_type (opcode rd funct3 rs1 rs2 funct7 : Z) : Z :=
  Z.lor (Z.lor (Z.lor (Z.lor (Z.lor (shl32 funct7 25) (shl32 rs2 20)) (shl32 rs1 15))
    (shl32 funct3 12)) (shl32 rd 7)) opcode.

Definition encode_i_type (opcode rd funct3 rs1 imm : Z) : Result Z :=
  let? imm := encode_signed_bits imm 12 in
  Ok (Z.lor (Z.lor (Z.lor (Z.lor (shl32 imm 20) (shl32 rs1 15)) (shl32 funct3 12))
    (shl32 rd 7)) opcode).

Definition encode_s_type (opcode funct3 rs1 rs2 imm : Z) : Result Z :=
  let? imm := encode_signed_bits imm 12 in
  let imm_lo := Z.land imm 0x1f in
  let imm_hi := Z.land (Z.shiftr imm 5) 0x7f in
  Ok (Z.lor (Z.lor (Z.lor (Z.lor (Z.lor (shl32 imm_hi 25) (shl32 rs2 20)) (shl32 rs1 15))
    (shl32 funct3 12)) (shl32 imm_lo 7)) opcode).

Definition encode_b_type (opcode funct3 rs1 rs2 imm : Z) : Result Z :=
  if negb (Z.rem imm 2 =? 0) then fail MBranchAlignment
  else
    let? imm := encode_signed_bits imm 13 in
    let bit12 := Z.land (Z.shiftr imm 12) 0x1 in
    let bits10_5 := Z.land (Z.shiftr imm 5) 0x3f in
    let bits4_1 := Z.land (Z.shiftr imm 1) 0xf in
    let bit11 := Z.land (Z.shiftr imm 11) 0x1 in
    Ok (Z.lor (Z.lor (Z.lor (Z.lor (Z.lor (Z.lor (Z.lor (shl32 bit12 31) (shl32 bits10_5 25))
      (shl32 rs2 20)) (shl32 rs1 15)) (shl32 funct3 12)) (shl32 bits4_1 8)) (shl32 bit11 7))
      opcode).

Definition encode_u_type (opcode rd imm : Z) : Z :=
  Z.lor (Z.lor (shl32 (Z.land (as_u32 (as_i32 imm)) 0xfffff) 12) (shl32 rd 7)) opcode.

Definition encode_j_type (opcode rd imm : Z) : Result Z :=
  if negb (Z.rem imm 2 =? 0) then fail MJumpAlignment
  else
    let? imm := encode_signed_bits imm 21 in
    let bit20 := Z.land (Z.shiftr imm 20) 0x1 in
    let bits10_1 := Z.land (Z.shiftr imm 1) 0x3ff in
    let bit11 := Z.land (Z.shiftr imm 11) 0x1 in
    let bits19_12 := Z.land (Z.shiftr imm 12) 0xff in
    Ok (Z.lor (Z.lor (Z.lor (Z.lor (Z.lor (shl32 bit20 31) (shl32 bits10_1 21))
      (shl32 bit11 20)) (shl32 bits19_12 12)) (shl32 rd 7)) opcode).

Definition encode_ecall : Z := 0x00000073.

(** * LUI/ADDI splitting *)

Definition li_fits_lui_addi_rv64 (value : Z) : bool :=
  if negb (in_range I32_MIN I32_MAX value) then false
  else
    let hi := Z.shiftr (value + 0x800) 12 in
    in_range (-0x80000) 0x7ffff hi.

Definition split_hi_lo (value : Z) : Result (Z * Z) :=
  if negb (li_fits_lui_addi_rv64 value) then fail (MLuiAddiRange value)
  else
    let adjusted := value + 0x800 in
    if negb (in_range I64_MIN I64_MAX adjusted) then fail (MSplitOverflow value)
    else
      let hi := Z.shiftr adjusted 12 in
      let lo := value - Z.shiftl hi 12 in
      if negb (in_range (-2048) 2047 lo) then fail (MSplitLow lo)
      else Ok (hi, lo).

(** [i64::try_from(target as i128 - pc as i128)]. *)
Definition relative_offset (pc target : Z) : Result Z :=
  let d := target - pc in
  if in_range I64_MIN I64_MAX d then Ok d else fail MRelativeOverflow.

(** * Alignment *)

Definition align_up (value align : Z) : Z :=
  if align <=? 1 then value
  else Z.land (value + align - 1) (Z.lnot (align - 1)).

Definition align_frame (value : Z) : Z := align_up (if value <? 16 then 16 else value) 16.

Definition padding_for (offset align : Z) : Z := align_up offset align - offset.

Definition pad_to_alignment (out : list Z) (align : Z) : list Z :=
  let pad := padding_for (Z.of_nat (length out)) align in
  out ++ replicate (Z.to_nat pad) 0.

(** * Facts *)

Definition reg_ok (r : Z) : Prop := 0 <= r < 32.
Definition word_ok (w : Z) : Prop := 0 <= w < 2 ^ 32.

Lemma signed_bits_fit_iff value bits :
  0 < bits -> signed_bits_fit value bits = true <-> - 2 ^ (bits - 1) <= value < 2 ^ (bits - 1).
Proof.
  intros Hb. unfold signed_bits_fit. rewrite !Z.shiftl_mul_pow2, Z.mul_1_l by lia. lia.
Qed.

(** A signed field holds the immediate modulo its width. *)
Lemma encode_signed_bits_ok value bits :
  0 < bits <= 32 -> - 2 ^ (bits - 1) <= value < 2 ^ (bits - 1) ->
  encode_signed_bits value bits = Ok (value mod 2 ^ bits).
Proof.
  intros Hb Hv. unfold encode_signed_bits.
  rewrite (proj2 (signed_bits_fit_iff value bits ltac:(lia)) Hv). simpl negb. cbn iota. f_equal.
  assert (2 ^ (bits - 1) <= 2 ^ 31) by (apply Z.pow_le_mono_r; lia).
  rewrite as_s_small by lia.
  rewrite Z.shiftl_mul_pow2, Z.mul_1_l, Z.sub_1_r, <- Z.ones_equiv, Z.land_ones by lia.
  unfold as_u. replace 32 with (bits + (32 - bits)) by lia.
  rewrite Z.pow_add_r by lia.
  rewrite Z.rem_mul_r by lia. rewrite Z.mul_comm, Z.mod_add by lia. by rewrite Z.mod_mod by lia.
Qed.

Lemma encode_signed_bits_inv value bits r :
  0 < bits <= 32 -> encode_signed_bits value bits = Ok r ->
  - 2 ^ (bits - 1) <= value < 2 ^ (bits - 1) /\ r = value mod 2 ^ bits.
Proof.
  intros Hb H. pose proof H as H'. unfold encode_signed_bits in H'. inv_ok.
  apply negb_false_iff, signed_bits_fit_iff in E; [|lia].
  split; [done|]. rewrite encode_signed_bits_ok in H by done. congruence.
Qed.

(** [fold_fields]: turn the [|] of shifted fields into their sum. *)
Ltac fold_fields :=
  repeat match goal with
  | |- context [shl32 ?a ?n] =>
      let k := eval vm_compute in (32 - n) in
      rewrite (shl32_small a n k) by (unfold reg_ok in *; lia || zdivmod)
  end;
  pow2_consts;
  repeat match goal with
  | |- context [Z.lor ?a ?b] =>
      lazymatch a with context [Z.lor _ _] => fail | _ => idtac end;
      first
        [ rewrite (lor_add_disjoint 7 a b) by (unfold reg_ok in *; zdivmod)
        | rewrite (lor_add_disjoint 8 a b) by (unfold reg_ok in *; zdivmod)
        | rewrite (lor_add_disjoint 12 a b) by (unfold reg_ok in *; zdivmod)
        | rewrite (lor_add_disjoint 15 a b) by (unfold reg_ok in *; zdivmod)
        | rewrite (lor_add_disjoint 20 a b) by (unfold reg_ok in *; zdivmod)
        | rewrite (lor_add_disjoint 21 a b) by (unfold reg_ok in *; zdivmod)
        | rewrite (lor_add_disjoint 25 a b) by (unfold reg_ok in *; zdivmod)
        | rewrite (lor_add_disjoint 31 a b) by (unfold reg_ok in *; zdivmod) ]
  end.

Lemma encode_r_type_sum opcode rd funct3 rs1 rs2 funct7 :
  0 <= opcode < 128 -> reg_ok rd -> 0 <= funct3 < 8 -> reg_ok rs1 -> reg_ok rs2 ->
  0 <= funct7 < 128 ->
  encode_r_type opcode rd funct3 rs1 rs2 funct7
  = funct7 * 0x2000000 + rs2 * 0x100000 + rs1 * 0x8000 + funct3 * 0x1000 + rd * 0x80 + opcode.
Proof. intros. unfold encode_r_type. fold_fields. lia. Qed.

Lemma encode_i_type_ok opcode rd funct3 rs1 imm w :
  0 <= opcode < 128 -> reg_ok rd -> 0 <= funct3 < 8 -> reg_ok rs1 ->
  encode_i_type opcode rd funct3 rs1 imm = Ok w <->
  -2048 <= imm < 2048 /\
  w = (imm mod 4096) * 0x100000 + rs1 * 0x8000 + funct3 * 0x1000 + rd * 0x80 + opcode.
Proof.
  intros Hop Hrd Hf3 Hrs1. unfold encode_i_type. split.
  - intros H. inv_ok. apply encode_signed_bits_inv in E as [Hi ->]; [|lia].
    pow2_consts. split; [done|]. subst w. fold_fields. lia.
  - intros [Hi ->]. rewrite encode_signed_bits_ok by lia. f_equal. pow2_consts. fold_fields. lia.
Qed.

Lemma encode_s_type_ok opcode funct3 rs1 rs2 imm w :
  0 <= opcode < 128 -> 0 <= funct3 < 8 -> reg_ok rs1 -> reg_ok rs2 ->
  encode_s_type opcode funct3 rs1 rs2 imm = Ok w <->
  -2048 <= imm < 2048 /\
  w = (imm mod 4096 / 32) * 0x2000000 + rs2 * 0x100000 + rs1 * 0x8000 + funct3 * 0x1000
      + (imm mod 4096 mod 32) * 0x80 + opcode.
Proof.
  intros Hop Hf3 Hrs1 Hrs2. unfold encode_s_type.
  assert (forall x, 0 <= x < 4096 -> 0 <= x / 32 < 128) as Hhi by (intros; zdivmod).
  assert (forall x, 0 <= x < 4096 -> (x / 32) mod 128 = x / 32) as Hm
    by (intros; apply Z.mod_small; auto).
  assert (0 <= imm mod 4096 < 4096) as Hr by zdivmod.
  pose proof (Hhi _ Hr). assert (0 <= imm mod 4096 mod 32 < 32) by zdivmod. split.
  - intros H1. inv_ok. apply encode_signed_bits_inv in E as [Hi ->]; [|lia].
    pow2_consts. split; [done|]. autorewrite with cell_bits in H1. pow2_consts.
    rewrite Hm in H1 by done. subst w.
    generalize dependent (imm mod 4096 / 32). generalize dependent (imm mod 4096 mod 32).
    intros. fold_fields. lia.
  - intros [Hi ->]. rewrite encode_signed_bits_ok by lia. f_equal. pow2_consts.
    autorewrite with cell_bits. pow2_consts. rewrite Hm by done.
    generalize dependent (imm mod 4096 / 32). generalize dependent (imm mod 4096 mod 32).
    intros. fold_fields. lia.
Qed.

Lemma even_rem2 x : (negb (Z.rem x 2 =? 0) = false) <-> x mod 2 = 0.
Proof. rewrite negb_false_iff, Z.eqb_eq. zdivmod. Qed.

Lemma encode_b_type_ok opcode funct3 rs1 rs2 imm w :
  0 <= opcode < 128 -> 0 <= funct3 < 8 -> reg_ok rs1 -> reg_ok rs2 ->
  encode_b_type opcode funct3 rs1 rs2 imm = Ok w <->
  -4096 <= imm < 4096 /\ imm mod 2 = 0 /\
  let m := imm mod 8192 in
  w = (m / 4096) mod 2 * 0x80000000 + (m / 32) mod 64 * 0x2000000 + rs2 * 0x100000
      + rs1 * 0x8000 + funct3 * 0x1000 + (m / 2) mod 16 * 0x100 + (m / 2048) mod 2 * 0x80
      + opcode.
Proof.
  intros Hop Hf3 Hrs1 Hrs2. unfold encode_b_type.
  assert (forall a b, 0 < b -> 0 <= a mod b < b) as Hb by (intros; zdivmod).
  set (m := imm mod 8192).
  pose proof (Hb (m / 4096) 2 ltac:(lia)). pose proof (Hb (m / 32) 64 ltac:(lia)).
  pose proof (Hb (m / 2) 16 ltac:(lia)). pose proof (Hb (m / 2048) 2 ltac:(lia)).
  split.
  - intros H3. inv_ok. apply even_rem2 in E. apply encode_signed_bits_inv in E0 as [Hi ->]; [|lia].
    autorewrite with cell_bits in H3. pow2_consts. fold m in H3. split; [lia|]. split; [done|].
    cbv zeta. subst w.
    generalize dependent ((m / 4096) mod 2). generalize dependent ((m / 32) mod 64).
    generalize dependent ((m / 2) mod 16). generalize dependent ((m / 2048) mod 2).
    intros. fold_fields. lia.
  - intros (Hi & He & ->). rewrite (proj2 (even_rem2 imm) He).
    rewrite encode_signed_bits_ok by lia. f_equal. pow2_consts. fold m.
    autorewrite with cell_bits. pow2_consts.
    generalize dependent ((m / 4096) mod 2). generalize dependent ((m / 32) mod 64).
    generalize dependent ((m / 2) mod 16). generalize dependent ((m / 2048) mod 2).
    intros. fold_fields. lia.
Qed.

Lemma encode_j_type_ok opcode rd imm w :
  0 <= opcode < 128 -> reg_ok rd ->
  encode_j_type opcode rd imm = Ok w <->
  -1048576 <= imm < 1048576 /\ imm mod 2 = 0 /\
  let m := imm mod 2097152 in
  w = (m / 1048576) mod 2 * 0x80000000 + (m / 2) mod 1024 * 0x200000
      + (m / 2048) mod 2 * 0x100000 + (m / 4096) mod 256 * 0x1000 + rd * 0x80 + opcode.
Proof.
  intros Hop Hrd. unfold encode_j_type.
  assert (forall a b, 0 < b -> 0 <= a mod b < b) as Hb by (intros; zdivmod).
  set (m := imm mod 2097152).
  pose proof (Hb (m / 1048576) 2 ltac:(lia)). pose proof (Hb (m / 2) 1024 ltac:(lia)).
  pose proof (Hb (m / 2048) 2 ltac:(lia)). pose proof (Hb (m / 4096) 256 ltac:(lia)).
  split.
  - intros H3. inv_ok. apply even_rem2 in E. apply encode_signed_bits_inv in E0 as [Hi ->]; [|lia].
    autorewrite with cell_bits in H3. pow2_consts. fold m in H3. split; [lia|]. split; [done|].
    cbv zeta. subst w.
    generalize dependent ((m / 1048576) mod 2). generalize dependent ((m / 2) mod 1024).
    generalize dependent ((m / 2048) mod 2). generalize dependent ((m / 4096) mod 256).
    intros. fold_fields. lia.
  - intros (Hi & He & ->). rewrite (proj2 (even_rem2 imm) He).
    rewrite encode_signed_bits_ok by lia. f_equal. pow2_consts. fold m.
    autorewrite with cell_bits. pow2_consts.
    generalize dependent ((m / 1048576) mod 2). generalize dependent ((m / 2) mod 1024).
    generalize dependent ((m / 2048) mod 2). generalize dependent ((m / 4096) mod 256).
    intros. fold_fields. lia.
Qed.

Lemma as_u32_as_i32 z : as_u32 (as_i32 z) = z mod 2 ^ 32.
Proof. unfold as_u, as_s. pow2_consts. zdivmod. Qed.

Lemma encode_u_type_sum opcode rd imm :
  0 <= opcode < 128 -> reg_ok rd ->
  encode_u_type opcode rd imm = (imm mod 1048576) * 0x1000 + rd * 0x80 + opcode.
Proof.
  intros Hop Hrd. unfold encode_u_type. rewrite as_u32_as_i32, land_0xfffff.
  replace (imm mod 2 ^ 32 mod 1048576) with (imm mod 1048576) by (pow2_consts; zdivmod).
  assert (0 <= imm mod 1048576 < 1048576) by zdivmod.
  generalize dependent (imm mod 1048576). intros. fold_fields. lia.
Qed.

Lemma li_fits_iff value :
  li_fits_lui_addi_rv64 value = true <-> - 0x80000000 <= value <= 0x7ffff7ff.
Proof.
  unfold li_fits_lui_addi_rv64, in_range, I32_MIN, I32_MAX.
  rewrite Z.shiftr_div_pow2 by lia. change (2 ^ 12) with 4096.
  destruct (negb _) eqn:E; zdivmod.
Qed.

(** The two halves rebuild the value and are valid LUI and ADDI operands. *)
Lemma split_hi_lo_ok value hi lo :
  split_hi_lo value = Ok (hi, lo) <->
  - 0x80000000 <= value <= 0x7ffff7ff /\ hi = (value + 2048) / 4096 /\ lo = value - hi * 4096.
Proof.
  unfold split_hi_lo. rewrite Z.shiftr_div_pow2, Z.shiftl_mul_pow2 by lia.
  change (2 ^ 12) with 4096. split.
  - intros H. inv_ok. apply negb_false_iff, li_fits_iff in E. lia.
  - intros (Hv & -> & ->). rewrite (proj2 (li_fits_iff value) Hv). simpl negb. cbn iota.
    unfold in_range, I64_MIN, I64_MAX.
    destruct (negb _) eqn:E1; [exfalso; lia|].
    destruct (negb ((-2048 <=? _) && _)) eqn:E2; [exfalso; zdivmod|done].
Qed.

Lemma split_hi_lo_bounds value hi lo :
  split_hi_lo value = Ok (hi, lo) ->
  -0x80000 <= hi <= 0x7ffff /\ -2048 <= lo <= 2047 /\ value = hi * 4096 + lo.
Proof. intros (Hv & -> & ->)%split_hi_lo_ok. zdivmod. Qed.

Lemma align_up_pow2 value k :
  0 <= k -> align_up value (2 ^ k) = (value + 2 ^ k - 1) / 2 ^ k * 2 ^ k.
Proof.
  intros Hk. unfold align_up. destruct (Z.leb_spec (2 ^ k) 1) as [H1|H1].
  - assert (2 ^ k = 1) as -> by lia. rewrite Z.div_1_r. lia.
  - rewrite Z.sub_1_r, Z.sub_1_r, <- (Z.ones_equiv k), land_lnot_ones by done. done.
Qed.

(** [align_up] is the least multiple of the alignment that is not below the value. *)
Lemma align_up_spec value k :
  0 <= k -> let a := align_up value (2 ^ k) in
  a mod 2 ^ k = 0 /\ value <= a < value + 2 ^ k.
Proof.
  intros Hk. cbv zeta. rewrite align_up_pow2 by done.
  assert (0 < 2 ^ k) as Hp by lia. rewrite Z.mod_mul by lia.
  pose proof (Z.div_mod (value + 2 ^ k - 1) (2 ^ k)).
  pose proof (Z.mod_pos_bound (value + 2 ^ k - 1) (2 ^ k)). lia.
Qed.
