(* ===== verification/Immediate.v ===== *)
(** The RV64 immediate planner, src/codegen/assembler/immediate.rs, with the [li]
    classification it uses from src/codegen/assembler.rs.  [plan] is the one place where
    layout, relaxation and emission learn how a literal is materialised. *)

From stdpp Require Import base numbers list option tactics.
From Stdlib Require Import ZArith Lia.
From S2P Require Import Prelude RustStr Diag Rv64.

Open Scope Z_scope.

Inductive Step :=
| AddFromZero (imm : Z)
| LoadUpper (imm : Z)
| ShiftLeft (shift : Z)
| Add (imm : Z)
| ShiftRight (shift : Z).

#[export] Instance Step_eq_dec : EqDecision Step.
Proof. solve_decision. Defined.

(** The derived [Ord]: constructor order, then the operand. *)
Definition step_rank (s : Step) : Z :=
  match s with
  | AddFromZero _ => 0 | LoadUpper _ => 1 | ShiftLeft _ => 2 | Add _ => 3 | ShiftRight _ => 4
  end.
Definition step_operand (s : Step) : Z :=
  match s with
  | AddFromZero i | LoadUpper i | ShiftLeft i | Add i | ShiftRight i => i
  end.
Definition step_compare (a b : Step) : comparison :=
  match step_rank a ?= step_rank b with
  | Eq => step_operand a ?= step_operand b
  | c => c
  end.

(** Lexicographic order of slices. *)
Fixpoint steps_compare (a b : list Step) : comparison :=
  match a, b with
  | [], [] => Eq
  | [], _ :: _ => Lt
  | _ :: _, [] => Gt
  | x :: a', y :: b' =>
      match step_compare x y with Eq => steps_compare a' b' | c => c end
  end.

(** [(a.len(), &a) < (b.len(), &b)] and [<=]. *)
Definition plan_compare (a b : list Step) : comparison :=
  match Nat.compare (length a) (length b) with
  | Eq => steps_compare a b
  | c => c
  end.
Definition plan_ltb (a b : list Step) : bool :=
  match plan_compare a b with Lt => true | _ => false end.
Definition plan_leb (a b : list Step) : bool :=
  match plan_compare a b with Gt => false | _ => true end.

(** * Literal classification *)

Definition li_signed_i64 (imm : Z) : option Z :=
  if in_range I64_MIN I64_MAX imm then Some imm else None.

Definition li_bits (imm : Z) : Result Z :=
  if (imm <? I64_MIN) || (U64_MAX <? imm) then fail (MLiRange imm)
  else if imm <? 0 then Ok (as_u64 (as_i64 imm))
  else Ok (as_u64 imm).

Inductive LiForm := LiAddi | LiLui | LiLuiAddi | LiLarge.

Definition li_form (imm : Z) : LiForm :=
  match li_signed_i64 imm with
  | None => LiLarge
  | Some signed =>
      if in_range (-2048) 2047 signed then LiAddi
      else if (Z.land signed 0xfff =? 0) && in_range (-0x80000) 0x7ffff (Z.shiftr signed 12)
      then LiLui
      else if li_fits_lui_addi_rv64 signed then LiLuiAddi
      else LiLarge
  end.

(** * Constructions *)

(** [u64::to_be_bytes]. *)
Definition be_bytes8 (bits : Z) : list Z := rev (le_bytes 8 bits).

Definition large_steps (bytes : list Z) : list Step :=
  match bytes with
  | [] => []
  | b0 :: rest => AddFromZero b0 :: flat_map (fun b => [ShiftLeft 8; Add b]) rest
  end.

Definition legacy (literal bits : Z) : Result (list Step) :=
  match li_form literal with
  | LiAddi => Ok [AddFromZero (as_i64 literal)]
  | LiLui => Ok [LoadUpper (Z.shiftr (as_i64 literal) 12)]
  | LiLuiAddi =>
      let? (high, low) := split_hi_lo (as_i64 literal) in
      Ok [LoadUpper high; Add low]
  | LiLarge => Ok (large_steps (be_bytes8 bits))
  end.

(** [i64::trailing_zeros]: 64 for zero. *)
Fixpoint pos_trailing_zeros (p : positive) : Z :=
  match p with
  | xO p' => 1 + pos_trailing_zeros p'
  | _ => 0
  end.
Definition trailing_zeros (z : Z) : Z :=
  match z with
  | Z0 => 64
  | Zpos p | Zneg p => pos_trailing_zeros p
  end.

(** [recursive], with fuel for its recursive call; [None] is "out of fuel". *)
Fixpoint recursive_fuel (fuel : nat) (value : Z) : option (list Step) :=
  match fuel with
  | O => None
  | S fuel' =>
      if in_range (-2048) 2047 value then Some [AddFromZero value]
      else
        let short :=
          if li_fits_lui_addi_rv64 value then
            match split_hi_lo value with
            | Ok (high, low) =>
                Some (LoadUpper high :: if negb (low =? 0) then [Add low] else [])
            | Err _ => None
            end
          else None in
        let low := Z.shiftr (as_i64 (Z.shiftl value 52)) 52 in
        let high := as_i64 (Z.shiftr (value - low) 12) in
        let extra := Z.min (trailing_zeros high) 51 in
        match recursive_fuel fuel' (Z.shiftr high extra) with
        | None => None
        | Some steps =>
            let steps :=
              steps ++ ShiftLeft (12 + extra) :: if negb (low =? 0) then [Add low] else [] in
            match short with
            | Some short => if plan_leb short steps then Some short else Some steps
            | None => Some steps
            end
        end
  end.

(** Six calls are enough for every [i64]: see [recursive_fuel_enough]. *)
Definition recursive_depth : nat := 6.
Definition recursive (value : Z) : list Step := default [] (recursive_fuel recursive_depth value).

Fixpoint evaluate_from (value : option Z) (steps : list Step) : option Z :=
  match steps with
  | [] => value
  | step :: rest =>
      let next :=
        match step with
        | AddFromZero imm => if in_range (-2048) 2047 imm then Some (as_u64 imm) else None
        | LoadUpper imm =>
            if in_range (-0x80000) 0x7ffff imm then Some (as_u64 (Z.shiftl imm 12)) else None
        | ShiftLeft shift =>
            if in_range 1 63 shift then
              match value with Some v => Some (as_u64 (Z.shiftl v shift)) | None => None end
            else None
        | Add imm =>
            if in_range (-2048) 2047 imm then
              match value with Some v => Some (as_u64 (v + imm)) | None => None end
            else None
        | ShiftRight shift =>
            if in_range 1 63 shift then
              match value with Some v => Some (Z.shiftr v shift) | None => None end
            else None
        end in
      match next with
      | Some v => evaluate_from (Some v) rest
      | None => None
      end
  end.

Definition evaluate (steps : list Step) : option Z := evaluate_from None steps.

Definition evaluates_to (steps : list Step) (bits : Z) : bool :=
  match evaluate steps with Some v => v =? bits | None => false end.

(** [u64::leading_zeros]. *)
Definition leading_zeros64 (bits : Z) : Z := if bits =? 0 then 64 else 63 - Z.log2 bits.

Definition plan (literal : Z) : Result (list Step) :=
  let? bits := li_bits literal in
  let? fallback := legacy literal bits in
  let candidate := recursive (as_i64 bits) in
  let valid := evaluates_to candidate bits in
  let? best :=
    if valid && plan_ltb candidate fallback then Ok candidate
    else if evaluates_to fallback bits then Ok fallback
    else fail MInvalidPlan in
  if negb (bits =? 0) && negb (bits =? U64_MAX) && (Z.land bits (bits + 1) =? 0) then
    let mask := [AddFromZero (-1); ShiftRight (leading_zeros64 bits)] in
    if Nat.ltb (length mask) (length best) && evaluates_to mask bits then Ok mask else Ok best
  else Ok best.

(** [li_sequence_size]: four bytes per step. *)
Definition li_sequence_size (imm : Z) : Result Z :=
  let? steps := plan imm in Ok (Z.of_nat (length steps) * 4).

Example plan_min : plan I64_MIN = Ok [AddFromZero (-1); ShiftLeft 63].
Proof. vm_compute. reflexivity. Qed.
Example plan_low_mask : plan 0x7fffffff = Ok [AddFromZero (-1); ShiftRight 33].
Proof. vm_compute. reflexivity. Qed.
Example plan_max : plan U64_MAX = Ok [AddFromZero (-1)].
Proof. vm_compute. reflexivity. Qed.

(** * Order facts *)

Lemma plan_ltb_length a b : plan_ltb a b = true -> (length a <= length b)%nat.
Proof.
  unfold plan_ltb, plan_compare. destruct (Nat.compare_spec (length a) (length b)); [|lia|done].
  lia.
Qed.

Lemma plan_ltb_false_length a b : plan_ltb a b = false -> (length b <= length a)%nat.
Proof.
  unfold plan_ltb, plan_compare. destruct (Nat.compare_spec (length a) (length b)); [lia|done|lia].
Qed.

Lemma plan_leb_false_length a b : plan_leb a b = false -> (length b <= length a)%nat.
Proof.
  unfold plan_leb, plan_compare. destruct (Nat.compare_spec (length a) (length b)); [lia|done|lia].
Qed.

(** * Evaluation *)

Lemma evaluate_from_app steps rest o v :
  evaluate_from o steps = Some v -> evaluate_from o (steps ++ rest) = evaluate_from (Some v) rest.
Proof.
  revert o. induction steps as [|s steps IH]; intros o; cbn [evaluate_from app]; [by intros ->|].
  destruct (match s with AddFromZero _ => _ | _ => _ end); [apply IH|done].
Qed.

Lemma evaluates_to_iff steps bits : evaluates_to steps bits = true <-> evaluate steps = Some bits.
Proof.
  unfold evaluates_to. destruct (evaluate steps) as [v|]; [|done].
  rewrite Z.eqb_eq. split; congruence.
Qed.

Lemma as_u64_mul_idemp a b : as_u64 (as_u64 a * b) = as_u64 (a * b).
Proof. unfold as_u. by rewrite Z.mul_mod_idemp_l by done. Qed.
Lemma as_u64_add_idemp a b : as_u64 (as_u64 a + b) = as_u64 (a + b).
Proof. unfold as_u. by rewrite Z.add_mod_idemp_l by done. Qed.

Lemma in_range_true lo hi z : lo <= z <= hi -> in_range lo hi z = true.
Proof. unfold in_range. lia. Qed.

Lemma evaluate_from_shl v s rest :
  1 <= s <= 63 ->
  evaluate_from (Some (as_u64 v)) (ShiftLeft s :: rest)
  = evaluate_from (Some (as_u64 (v * 2 ^ s))) rest.
Proof.
  intros Hs. cbn [evaluate_from]. rewrite in_range_true by done.
  by rewrite Z.shiftl_mul_pow2, as_u64_mul_idemp by lia.
Qed.

Lemma evaluate_from_add v i rest :
  -2048 <= i <= 2047 ->
  evaluate_from (Some (as_u64 v)) (Add i :: rest) = evaluate_from (Some (as_u64 (v + i))) rest.
Proof.
  intros Hi. cbn [evaluate_from]. by rewrite in_range_true, as_u64_add_idemp by done.
Qed.

Lemma evaluate_from_add_opt v i :
  -2048 <= i <= 2047 ->
  evaluate_from (Some (as_u64 v)) (if negb (i =? 0) then [Add i] else []) = Some (as_u64 (v + i)).
Proof.
  intros Hi. destruct (Z.eqb_spec i 0) as [->|]; simpl negb; cbn iota.
  - by rewrite Z.add_0_r.
  - by apply evaluate_from_add.
Qed.

Lemma evaluate_from_lui o hi rest :
  -0x80000 <= hi <= 0x7ffff ->
  evaluate_from o (LoadUpper hi :: rest) = evaluate_from (Some (as_u64 (hi * 4096))) rest.
Proof.
  intros Hh. cbn [evaluate_from]. rewrite in_range_true by done. by rewrite Z.shiftl_mul_pow2.
Qed.

Lemma evaluate_lui_addi hi lo :
  -0x80000 <= hi <= 0x7ffff -> -2048 <= lo <= 2047 ->
  evaluate (LoadUpper hi :: if negb (lo =? 0) then [Add lo] else [])
  = Some (as_u64 (hi * 4096 + lo)).
Proof.
  intros Hh Hl. unfold evaluate. rewrite evaluate_from_lui by done.
  by apply evaluate_from_add_opt.
Qed.

(** * The recursive construction *)

Lemma sign_low12 v : Z.shiftr (as_i64 (Z.shiftl v 52)) 52 = (v + 2048) mod 4096 - 2048.
Proof.
  rewrite Z.shiftl_mul_pow2, Z.shiftr_div_pow2 by lia. unfold as_s. pow2_consts. zdivmod.
Qed.

Lemma pos_trailing_zeros_spec p :
  0 <= pos_trailing_zeros p /\ exists q, Zpos p = q * 2 ^ pos_trailing_zeros p.
Proof.
  induction p as [p _|p [H0 [q Hq]]|]; cbn [pos_trailing_zeros].
  - split; [lia|]. exists (Zpos p~1). simpl. lia.
  - split; [lia|]. exists q. rewrite Z.pow_add_r by lia. rewrite Pos2Z.inj_xO, Hq. lia.
  - split; [lia|]. by exists 1.
Qed.

Lemma trailing_zeros_spec z n :
  0 <= n <= trailing_zeros z -> z = Z.shiftr z n * 2 ^ n.
Proof.
  intros Hn. rewrite Z.shiftr_div_pow2 by lia.
  assert (exists q, z = q * 2 ^ n) as [q ->]; [|by rewrite Z.div_mul by lia].
  assert (forall p, n <= pos_trailing_zeros p -> exists q, Zpos p = q * 2 ^ n) as Hp.
  { intros p Hle. destruct (pos_trailing_zeros_spec p) as [_ [q Hq]].
    exists (q * 2 ^ (pos_trailing_zeros p - n)).
    rewrite <- Z.mul_assoc, <- Z.pow_add_r by lia. rewrite Hq. do 2 f_equal. lia. }
  destruct z as [|p|p]; [by exists 0|apply Hp; simpl in Hn; lia|].
  destruct (Hp p) as [q Hq]; [simpl in Hn; lia|]. exists (- q). lia.
Qed.

Lemma trailing_zeros_nonneg z : 0 <= trailing_zeros z.
Proof. destruct z as [|p|p]; simpl; [lia|destruct (pos_trailing_zeros_spec p); lia..]. Qed.

(** One unfolding of [recursive]: the value is rebuilt from the twelve sign-extended low
    bits and a shorter high part. *)
Lemma high_part v (low := (v + 2048) mod 4096 - 2048)
    (high := as_i64 (Z.shiftr (v - low) 12)) (extra := Z.min (trailing_zeros high) 51) :
  I64_MIN <= v <= I64_MAX ->
  0 <= extra <= 51 /\ -2048 <= low <= 2047 /\
  v = Z.shiftr high extra * 2 ^ (12 + extra) + low /\
  Z.abs (Z.shiftr high extra) * 4096 <= Z.abs v + 2048.
Proof.
  unfold I64_MIN, I64_MAX. intros Hv.
  assert (-2048 <= low <= 2047 /\ v = high * 4096 + low) as [Hl Hh].
  { unfold high. rewrite Z.shiftr_div_pow2 by lia. unfold low.
    rewrite as_s_small by (pow2_consts; zdivmod). pow2_consts. zdivmod. }
  pose proof (trailing_zeros_nonneg high) as Htz.
  assert (0 <= extra <= 51) as He by lia.
  pose proof (trailing_zeros_spec high extra ltac:(lia)) as Hs.
  split; [done|]. split; [done|].
  set (h := Z.shiftr high extra) in *. split.
  - rewrite (Z.add_comm 12), Z.pow_add_r by lia. change (2 ^ 12) with 4096. lia.
  - assert (1 <= 2 ^ extra) by lia.
    assert (Z.abs h <= Z.abs high) by (rewrite Hs, Z.abs_mul; nia). lia.
Qed.

Lemma recursive_fuel_spec fuel v :
  (0 < fuel)%nat -> I64_MIN <= v <= I64_MAX -> Z.abs v <= 2 ^ (12 * Z.of_nat fuel - 9) ->
  exists steps, recursive_fuel fuel v = Some steps /\ evaluate steps = Some (as_u64 v).
Proof.
  revert v. induction fuel as [|fuel IH]; intros v Hf Hv Ha; [lia|]. cbn [recursive_fuel].
  destruct (in_range (-2048) 2047 v) eqn:E12.
  { eexists; split; [done|]. unfold evaluate. cbn [evaluate_from]. by rewrite E12. }
  rewrite sign_low12. destruct (high_part v Hv) as (He & Hl & Heq & Habs).
  set (low := (v + 2048) mod 4096 - 2048) in *.
  set (high := as_i64 (Z.shiftr (v - low) 12)) in *.
  set (extra := Z.min (trailing_zeros high) 51) in *.
  unfold in_range in E12.
  assert (0 < fuel)%nat as Hf'.
  { destruct fuel; [|lia]. change (2 ^ (12 * Z.of_nat 1 - 9)) with 8 in Ha. lia. }
  destruct (IH (Z.shiftr high extra)) as (steps & -> & Hsteps); [done| | |].
  - unfold I64_MIN, I64_MAX in *. lia.
  - replace (12 * Z.of_nat (S fuel) - 9) with (12 + (12 * Z.of_nat fuel - 9)) in Ha by lia.
    rewrite Z.pow_add_r in Ha by lia. change (2 ^ 12) with 4096 in Ha. lia.
  - set (full := steps ++ _).
    assert (evaluate full = Some (as_u64 v)) as Hfull.
    { unfold full, evaluate. rewrite (evaluate_from_app _ _ _ _ Hsteps).
      rewrite evaluate_from_shl by lia. rewrite evaluate_from_add_opt by done. by rewrite <- Heq. }
    destruct (li_fits_lui_addi_rv64 v) eqn:Efit; [|by eauto].
    destruct (split_hi_lo v) as [[hi lo]|] eqn:Es; [|by eauto].
    destruct (plan_leb _ full); [|by eauto].
    eexists; split; [done|]. apply split_hi_lo_bounds in Es as (Hhi & Hlo & ->).
    by apply evaluate_lui_addi.
Qed.

(** The recursion terminates within [recursive_depth] calls on every [i64]. *)
Lemma recursive_fuel_enough v :
  I64_MIN <= v <= I64_MAX ->
  recursive_fuel recursive_depth v = Some (recursive v)
  /\ evaluate (recursive v) = Some (as_u64 v).
Proof.
  intros Hv. destruct (recursive_fuel_spec recursive_depth v) as (steps & E & H).
  - unfold recursive_depth. lia.
  - done.
  - change (2 ^ (12 * Z.of_nat recursive_depth - 9)) with 0x8000000000000000.
    unfold I64_MIN, I64_MAX in Hv. lia.
  - unfold recursive. by rewrite E.
Qed.

Lemma recursive_fuel_length (j : nat) fuel v steps :
  (0 < j)%nat -> I64_MIN <= v <= I64_MAX -> Z.abs v <= 2 ^ (12 * Z.of_nat j + 18) ->
  recursive_fuel fuel v = Some steps -> (length steps <= 2 * j)%nat.
Proof.
  revert fuel v steps. induction j as [|j IH]; intros fuel v steps Hj Hv Ha H; [lia|].
  destruct fuel as [|fuel]; [done|]. cbn [recursive_fuel] in H.
  destruct (in_range (-2048) 2047 v) eqn:E12; [injection H as <-; simpl; lia|].
  rewrite sign_low12 in H. destruct (high_part v Hv) as (He & Hl & Heq & Habs).
  set (low := (v + 2048) mod 4096 - 2048) in *.
  set (high := as_i64 (Z.shiftr (v - low) 12)) in *.
  set (extra := Z.min (trailing_zeros high) 51) in *.
  destruct (recursive_fuel fuel _) as [rest|] eqn:Er; [|done].
  set (full := rest ++ _) in H.
  assert (length full <= length rest + 2)%nat as Hfull.
  { unfold full. rewrite length_app. destruct (negb (low =? 0)); simpl; lia. }
  assert ((0 < j)%nat -> (length full <= 2 * S j)%nat) as Hrec.
  { intros Hj'. enough (length rest <= 2 * j)%nat by lia.
    eapply IH, Er; [done| |].
    - unfold I64_MIN, I64_MAX in *. lia.
    - replace (12 * Z.of_nat (S j) + 18) with (12 + (12 * Z.of_nat j + 18)) in Ha by lia.
      rewrite Z.pow_add_r in Ha by lia. change (2 ^ 12) with 4096 in Ha.
      assert (2 ^ 18 <= 2 ^ (12 * Z.of_nat j + 18)) by (apply Z.pow_le_mono_r; lia). lia. }
  destruct (li_fits_lui_addi_rv64 v) eqn:Efit.
  - destruct (split_hi_lo v) as [[hi lo]|] eqn:Es.
    + set (short := LoadUpper hi :: _) in H.
      assert (length short <= 2)%nat by (unfold short; clear; destruct (lo =? 0); simpl; lia).
      destruct (plan_leb short full) eqn:Ele; injection H as <-; [lia|].
      apply plan_leb_false_length in Ele. lia.
    + pose proof (proj1 (li_fits_iff v) Efit) as Hr.
      rewrite (proj2 (split_hi_lo_ok v _ _) (conj Hr (conj eq_refl eq_refl))) in Es. done.
  - injection H as <-. destruct j as [|j]; [|by apply Hrec; lia]. exfalso.
    apply not_true_iff_false in Efit. rewrite li_fits_iff in Efit.
    change (2 ^ (12 * Z.of_nat 1 + 18)) with 0x40000000 in Ha. lia.
Qed.

Lemma recursive_length v : I64_MIN <= v <= I64_MAX -> (length (recursive v) <= 8)%nat.
Proof.
  intros Hv. destruct (recursive_fuel_enough v Hv) as [E _].
  apply (recursive_fuel_length 4) in E; [done|lia|done|].
  change (2 ^ (12 * Z.of_nat 4 + 18)) with 0x40000000000000000.
  unfold I64_MIN, I64_MAX in Hv. lia.
Qed.

(** * The legacy construction *)

Lemma evaluate_large_tail bytes v :
  bytes_ok bytes ->
  evaluate_from (Some (as_u64 v)) (flat_map (fun b => [ShiftLeft 8; Add b]) bytes)
  = Some (as_u64 (fold_left (fun a b => a * 256 + b) bytes v)).
Proof.
  intros Hb. revert v. induction Hb as [|b bytes Hb _ IH]; intros v; [done|].
  unfold byte_ok in Hb. cbn [flat_map app]. rewrite evaluate_from_shl by lia.
  rewrite evaluate_from_add by lia. apply IH.
Qed.

Lemma fold_be_le l : fold_left (fun a b => a * 256 + b) (rev l) 0 = of_le_bytes l.
Proof.
  rewrite <- fold_left_rev_right, rev_involutive.
  induction l as [|b l IH]; simpl; [done|]. rewrite IH. lia.
Qed.

Lemma evaluate_large bits :
  0 <= bits < 2 ^ 64 -> evaluate (large_steps (be_bytes8 bits)) = Some bits.
Proof.
  intros Hb. pose proof (fold_be_le (le_bytes 8 bits)) as Hf.
  rewrite of_le_bytes_small in Hf by done.
  assert (bytes_ok (be_bytes8 bits)) as Hok.
  { unfold be_bytes8, bytes_ok. apply Forall_rev, le_bytes_ok. }
  assert (length (be_bytes8 bits) = 8%nat) as Hl
    by (unfold be_bytes8; by rewrite length_rev, length_le_bytes).
  change (rev (le_bytes 8 bits)) with (be_bytes8 bits) in Hf.
  destruct (be_bytes8 bits) as [|b0 rest]; [done|].
  apply Forall_cons_1 in Hok as [Hb0 Hrest]. unfold byte_ok in Hb0.
  cbn [large_steps]. unfold evaluate. cbn [evaluate_from].
  rewrite in_range_true by lia. rewrite evaluate_large_tail by done.
  f_equal. cbn [fold_left] in Hf. rewrite Z.mul_0_l, Z.add_0_l in Hf. rewrite Hf.
  by apply as_u_small.
Qed.

Lemma as_u64_as_i64 z : as_u64 (as_i64 z) = as_u64 z.
Proof. unfold as_u, as_s. pow2_consts. zdivmod. Qed.

Lemma li_bits_spec imm :
  (I64_MIN <= imm <= U64_MAX -> li_bits imm = Ok (as_u64 imm)) /\
  (~ I64_MIN <= imm <= U64_MAX -> li_bits imm = fail (MLiRange imm)).
Proof.
  unfold li_bits. split; intros H.
  - destruct (_ || _) eqn:E; [lia|]. by destruct (imm <? 0); rewrite ?as_u64_as_i64.
  - destruct (_ || _) eqn:E; [done|lia].
Qed.

Lemma legacy_spec literal :
  I64_MIN <= literal <= U64_MAX ->
  exists fallback, legacy literal (as_u64 literal) = Ok fallback
    /\ evaluate fallback = Some (as_u64 literal).
Proof.
  intros Hl. unfold legacy, li_form, li_signed_i64.
  destruct (in_range I64_MIN I64_MAX literal) eqn:Er.
  2:{ eexists; split; [done|]. apply evaluate_large, as_u_range. lia. }
  unfold in_range in Er. assert (I64_MIN <= literal <= I64_MAX) as Hi by lia. clear Er Hl.
  unfold I64_MIN, I64_MAX in Hi. rewrite as_s_small by (pow2_consts; lia).
  destruct (in_range (-2048) 2047 literal) eqn:E12.
  { eexists; split; [done|]. unfold evaluate. cbn [evaluate_from]. by rewrite E12. }
  destruct (_ && _) eqn:Elui.
  { eexists; split; [done|]. apply andb_true_iff in Elui as [E1 E2].
    unfold evaluate. cbn [evaluate_from]. rewrite E2. do 2 f_equal.
    rewrite Z.eqb_eq, land_0xfff in E1. rewrite Z.shiftl_mul_pow2, Z.shiftr_div_pow2 by lia.
    pow2_consts. zdivmod. }
  destruct (li_fits_lui_addi_rv64 literal) eqn:Efit.
  2:{ eexists; split; [done|]. apply evaluate_large, as_u_range. lia. }
  pose proof (proj1 (li_fits_iff literal) Efit) as Hr.
  pose proof (proj2 (split_hi_lo_ok literal _ _) (conj Hr (conj eq_refl eq_refl))) as Es.
  rewrite Es. eexists; split; [done|].
  apply split_hi_lo_bounds in Es as (Hhi & Hlo & Heq).
  unfold evaluate. rewrite evaluate_from_lui, evaluate_from_add by done. cbn [evaluate_from].
  by rewrite <- Heq.
Qed.

(** * The planner *)

Lemma as_i64_range z : I64_MIN <= as_i64 z <= I64_MAX.
Proof. unfold I64_MIN, I64_MAX, as_s. pow2_consts. zdivmod. Qed.

(** Every literal that fits 64 bits has a plan; the plan is valid, rebuilds the literal and
    is no longer than either construction it chooses from. *)
Lemma plan_spec literal :
  I64_MIN <= literal <= U64_MAX ->
  exists steps fallback,
    plan literal = Ok steps /\ evaluate steps = Some (as_u64 literal) /\
    legacy literal (as_u64 literal) = Ok fallback /\
    (length steps <= length fallback)%nat /\
    (length steps <= length (recursive (as_i64 (as_u64 literal))))%nat.
Proof.
  intros Hl. destruct (legacy_spec literal Hl) as (fallback & Hleg & Hfb).
  unfold plan. rewrite (proj1 (li_bits_spec literal) Hl), Hleg.
  set (bits := as_u64 literal) in *. set (candidate := recursive (as_i64 bits)).
  assert (evaluate candidate = Some bits) as Hc.
  { unfold candidate. rewrite (proj2 (recursive_fuel_enough _ (as_i64_range bits))).
    rewrite as_u64_as_i64. unfold bits, as_u. by rewrite Z.mod_mod. }
  rewrite (proj2 (evaluates_to_iff candidate bits) Hc),
    (proj2 (evaluates_to_iff fallback bits) Hfb). simpl andb.
  destruct (plan_ltb candidate fallback) eqn:Elt;
    [apply plan_ltb_length in Elt|apply plan_ltb_false_length in Elt];
    (destruct (negb (bits =? 0) && _ && _);
      [destruct (Nat.ltb 2 _ && evaluates_to _ bits) eqn:Em|]).
  all: try (by eexists _, _; repeat split; eauto; lia).
  all: apply andb_true_iff in Em as [Hlt Hm%evaluates_to_iff]; apply Nat.ltb_lt in Hlt;
    eexists _, _; split_and!; eauto; simpl; lia.
Qed.

Lemma plan_inv literal steps :
  plan literal = Ok steps ->
  I64_MIN <= literal <= U64_MAX /\ evaluate steps = Some (as_u64 literal)
  /\ (length steps <= 8)%nat.
Proof.
  intros H. assert (I64_MIN <= literal <= U64_MAX) as Hl.
  { destruct (decide (I64_MIN <= literal <= U64_MAX)) as [Hl|Hl]; [done|].
    unfold plan in H. by rewrite (proj2 (li_bits_spec literal) Hl) in H. }
  destruct (plan_spec literal Hl) as (s & fb & E & Hev & _ & _ & Hlen).
  rewrite H in E. injection E as <-. split; [done|]. split; [done|].
  pose proof (recursive_length _ (as_i64_range (as_u64 literal))). lia.
Qed.

Lemma recursive_fuel_nonempty fuel v steps : recursive_fuel fuel v = Some steps -> steps <> [].
Proof.
  destruct fuel as [|fuel]; [done|]. cbn [recursive_fuel].
  destruct (in_range (-2048) 2047 v); [by intros [= <-]|].
  destruct (recursive_fuel fuel _) as [rest|]; [|done].
  match goal with |- context [rest ++ ?x :: ?l] =>
    pose proof (app_cons_not_nil rest l x) as Hne; generalize dependent (rest ++ x :: l) end.
  intros full Hne. destruct (if li_fits_lui_addi_rv64 v then _ else _) as [short|] eqn:Es.
  - destruct (li_fits_lui_addi_rv64 v); [|discriminate Es].
    destruct (split_hi_lo v) as [[hi lo]|]; [|discriminate Es]. injection Es as <-.
    destruct (plan_leb _ full); intros E; injection E as <-; [discriminate|congruence].
  - intros E; injection E as <-. congruence.
Qed.

(** A constant beyond twelve bits that [lui] and [addi] can build is planned as exactly that
    pair, [lui] alone when its low part is zero: neither the recursive construction nor the
    mask is shorter. *)
Lemma recursive_lui v hi lo :
  split_hi_lo v = Ok (hi, lo) -> ~ -2048 <= v <= 2047 ->
  recursive v = LoadUpper hi :: if negb (lo =? 0) then [Add lo] else [].
Proof.
  intros Hs H12. pose proof (proj1 (split_hi_lo_ok _ _ _) Hs) as (Hv & Hhi & Hlo).
  assert (I64_MIN <= v <= I64_MAX) as H64 by (unfold I64_MIN, I64_MAX; lia).
  destruct (recursive_fuel_enough v H64) as [E _]. unfold recursive_depth in E.
  remember 5%nat as fuel eqn:Hfuel in E. cbn [recursive_fuel] in E.
  replace (in_range (-2048) 2047 v) with false in E by (unfold in_range; lia).
  rewrite (proj2 (li_fits_iff v) Hv), Hs, sign_low12 in E.
  replace ((v + 2048) mod 4096 - 2048) with lo in E by zdivmod.
  destruct (recursive_fuel fuel _) as [rest|] eqn:Er in E; [|done].
  destruct (plan_leb _ (rest ++ _)) eqn:El in E; [by injection E|].
  apply plan_leb_false_length in El. rewrite length_app in El. exfalso.
  apply recursive_fuel_nonempty in Er. destruct rest; [done|]. destruct (negb (lo =? 0)); simpl in El; lia.
Qed.

Lemma plan_lui imm :
  -0x80000000 <= imm <= 0x7ffff7ff -> ~ -2048 <= imm <= 2047 ->
  exists hi lo, -524288 <= hi < 524288 /\ -2048 <= lo < 2048 /\ imm = hi * 4096 + lo /\
    plan imm = Ok (LoadUpper hi :: if negb (lo =? 0) then [Add lo] else []).
Proof.
  intros Hi H12. set (hi := (imm + 2048) / 4096). set (lo := imm - hi * 4096).
  assert (split_hi_lo imm = Ok (hi, lo)) as Hs by (by apply split_hi_lo_ok).
  pose proof (split_hi_lo_bounds _ _ _ Hs) as (Hhi & Hlo & Heq).
  exists hi, lo. split_and!; try lia.
  assert (I64_MIN <= imm <= I64_MAX) as H64 by (unfold I64_MIN, I64_MAX; lia).
  assert (as_i64 imm = imm) as Ha by (apply as_s_small; unfold I64_MIN, I64_MAX in H64; pow2_consts; lia).
  set (steps := LoadUpper hi :: _).
  assert (legacy imm (as_u64 imm) = Ok steps) as Hleg.
  { unfold legacy, li_form, li_signed_i64. rewrite in_range_true by done.
    replace (in_range (-2048) 2047 imm) with false by (unfold in_range; lia).
    rewrite land_0xfff, Z.shiftr_div_pow2, (proj2 (li_fits_iff imm) Hi), Ha, Hs by lia. pow2_consts.
    unfold steps. destruct (Z.eqb_spec lo 0) as [H0|H0]; simpl negb; cbn iota.
    - replace (imm mod 4096 =? 0) with true by zdivmod.
      rewrite in_range_true by zdivmod. simpl. rewrite Z.shiftr_div_pow2 by lia. pow2_consts.
      do 3 f_equal. zdivmod.
    - by replace (imm mod 4096 =? 0) with false by zdivmod. }
  unfold plan, I64_MIN, I64_MAX in *. rewrite (proj1 (li_bits_spec imm)) by (unfold I64_MIN, U64_MAX; lia).
  rewrite Hleg. replace (as_i64 (as_u64 imm)) with imm.
  2:{ rewrite <- Ha at 1. unfold as_s, as_u. pow2_consts. zdivmod. }
  rewrite (recursive_lui imm hi lo Hs H12). fold steps.
  assert (evaluates_to steps (as_u64 imm) = true) as ->.
  { apply evaluates_to_iff. unfold steps. rewrite evaluate_lui_addi by lia. by rewrite <- Heq. }
  assert (plan_ltb steps steps = false) as -> by (unfold plan_ltb, plan_compare; rewrite Nat.compare_refl;
    unfold steps; destruct (negb (lo =? 0)); cbn; by rewrite ?Z.compare_refl).
  simpl andb. cbn iota. destruct (negb _ && _ && _); [|done].
  assert ((2 <? length steps)%nat = false) as E2 by (unfold steps; by destruct (negb (lo =? 0))).
  cbn [length]. rewrite E2. done.
Qed.

(** C7.  Materialising a literal: for every [li] operand that fits in 64 bits the planner
    returns a plan, the plan's steps are all encodable and rebuild exactly the 64-bit
    pattern of the literal, the plan has at most eight steps and is never longer than the
    construction it replaces; every other operand is rejected with the range diagnostic. *)
Theorem plan_correct literal :
  (I64_MIN <= literal <= U64_MAX ->
   exists steps fallback,
     plan literal = Ok steps /\ evaluate steps = Some (as_u64 literal) /\
     (length steps <= 8)%nat /\
     legacy literal (as_u64 literal) = Ok fallback /\ (length steps <= length fallback)%nat) /\
  (~ I64_MIN <= literal <= U64_MAX -> plan literal = fail (MLiRange literal)).
Proof.
  split; intros Hl.
  - destruct (plan_spec literal Hl) as (steps & fb & E & Hev & Hleg & Hlen & _).
    destruct (plan_inv literal steps E) as (_ & _ & H8). eauto 10.
  - unfold plan. by rewrite (proj2 (li_bits_spec literal) Hl).
Qed.

Lemma plan_correct_witness :
  exists steps fallback,
    plan 0x123456789abcdef0 = Ok steps /\ evaluate steps = Some (as_u64 0x123456789abcdef0) /\
    (length steps <= 8)%nat /\
    legacy 0x123456789abcdef0 (as_u64 0x123456789abcdef0) = Ok fallback /\
    (length steps <= length fallback)%nat.
Proof. apply (proj1 (plan_correct 0x123456789abcdef0)). unfold I64_MIN, U64_MAX. lia. Defined.
