(* ===== verification/Asm.v ===== *)
(** The assembly text accepted by the internal assembler: instructions, directives and
    their parser (src/codegen/assembler.rs: [Instruction], [AsmOp], [strip_comment],
    [parse_asm_op], [parse_instruction] and the operand parsers). *)

From stdpp Require Import base numbers list option tactics sets.
From Stdlib Require Import ZArith Lia String.
From S2P Require Import Prelude RustStr Diag Rv64 Immediate.

Open Scope Z_scope.

(** * Syntax *)

Inductive Instruction :=
| Addi (rd rs1 imm : Z)
| IAdd (rd rs1 rs2 : Z)
| ISub (rd rs1 rs2 : Z)
| IAnd (rd rs1 rs2 : Z)
| Andi (rd rs1 imm : Z)
| IOr (rd rs1 rs2 : Z)
| IXor (rd rs1 rs2 : Z)
| IMul (rd rs1 rs2 : Z)
| Mulhu (rd rs1 rs2 : Z)
| IDiv (rd rs1 rs2 : Z)
| Divu (rd rs1 rs2 : Z)
| IRem (rd rs1 rs2 : Z)
| Remu (rd rs1 rs2 : Z)
| Slt (rd rs1 rs2 : Z)
| Sltu (rd rs1 rs2 : Z)
| Sgt (rd rs1 rs2 : Z)
| Xori (rd rs1 imm : Z)
| Seqz (rd rs : Z)
| Snez (rd rs : Z)
| INeg (rd rs : Z)
| Ld (rd rs1 imm : Z)
| Lbu (rd rs1 imm : Z)
| Sb (rs2 rs1 imm : Z)
| Sh (rs2 rs1 imm : Z)
| Sw (rs2 rs1 imm : Z)
| Sd (rs2 rs1 imm : Z)
| Slli (rd rs1 shamt : Z)
| Srai (rd rs1 shamt : Z)
| Srli (rd rs1 shamt : Z)
| Rori (rd rs1 shamt : Z)
| Roriw (rd rs1 shamt : Z)
| Sll (rd rs1 rs2 : Z)
| Srl (rd rs1 rs2 : Z)
| Sra (rd rs1 rs2 : Z)
| Li (rd imm : Z)
| La (rd : Z) (label : str)
| Call (label : str)
| Jump (label : str)
| Beq (rs1 rs2 : Z) (label : str)
| Bne (rs1 rs2 : Z) (label : str)
| Blt (rs1 rs2 : Z) (label : str)
| Bge (rs1 rs2 : Z) (label : str)
| Bltu (rs1 rs2 : Z) (label : str)
| Bgeu (rs1 rs2 : Z) (label : str)
| Beqz (rs : Z) (label : str)
| Bnez (rs : Z) (label : str)
| Ret
| Ecall.

Inductive AsmOp :=
| OpLabel (label : str)
| OpInstruction (inst : Instruction)
| OpWord (word : Z)
| OpByte (byte : Z)
| OpAscii (bytes : list Z)
| OpAlign (bytes : Z).

Record LocatedAsmOp := {
  la_op : AsmOp;
  la_provenance : GeneratedAssemblyProvenance
}.

(** * Operands *)

Definition register_names : list (list string * Z) :=
  [ (["zero"; "x0"], 0); (["ra"; "x1"], 1); (["sp"; "x2"], 2); (["gp"; "x3"], 3);
    (["tp"; "x4"], 4); (["t0"; "x5"], 5); (["t1"; "x6"], 6); (["t2"; "x7"], 7);
    (["s0"; "fp"; "x8"], 8); (["s1"; "x9"], 9); (["a0"; "x10"], 10); (["a1"; "x11"], 11);
    (["a2"; "x12"], 12); (["a3"; "x13"], 13); (["a4"; "x14"], 14); (["a5"; "x15"], 15);
    (["a6"; "x16"], 16); (["a7"; "x17"], 17); (["s2"; "x18"], 18); (["s3"; "x19"], 19);
    (["s4"; "x20"], 20); (["s5"; "x21"], 21); (["s6"; "x22"], 22); (["s7"; "x23"], 23);
    (["s8"; "x24"], 24); (["s9"; "x25"], 25); (["s10"; "x26"], 26); (["s11"; "x27"], 27);
    (["t3"; "x28"], 28); (["t4"; "x29"], 29); (["t5"; "x30"], 30); (["t6"; "x31"], 31) ]%string.

Fixpoint lookup_register (table : list (list string * Z)) (name : str) : option Z :=
  match table with
  | [] => None
  | (names, r) :: table' =>
      if existsb (fun n => str_eqb (chars n) name) names then Some r
      else lookup_register table' name
  end.

Definition parse_register (name : str) : Result Z :=
  match lookup_register register_names name with
  | Some r => Ok r
  | None => fail (MUnknownRegister name)
  end.

(** Negating the parsed magnitude is [i64] negation (it wraps only for "-0x-8000000000000000"
    in a build without overflow checks). *)
Definition parse_immediate (value : str) : Result Z :=
  match strip_prefix (chars "-0x") value with
  | Some hex =>
      match i64_from_str_radix 16 hex with
      | Some v => Ok (as_i64 (- v))
      | None => fail (MInvalidImmediate value)
      end
  | None =>
      match (match strip_prefix (chars "0x") value with
             | Some hex => Some hex
             | None => strip_prefix (chars "+0x") value
             end) with
      | Some hex => ok_or (i64_from_str_radix 16 hex) (new_error (MInvalidImmediate value))
      | None => ok_or (i64_from_str_radix 10 value) (new_error (MInvalidImmediate value))
      end
  end.

Definition validate_li_immediate (parsed : Z) (source : str) : Result Z :=
  if in_range I64_MIN U64_MAX parsed then Ok parsed else fail (MLiRangeText source).

Definition parse_li_immediate (value : str) : Result Z :=
  match strip_prefix (chars "-0x") value with
  | Some hex =>
      match i128_from_str_radix 16 hex with
      | Some parsed => validate_li_immediate (as_s 128 (- parsed)) value
      | None => fail (MInvalidImmediate value)
      end
  | None =>
      match (match strip_prefix (chars "0x") value with
             | Some hex => Some hex
             | None => strip_prefix (chars "+0x") value
             end) with
      | Some hex =>
          match u128_from_str_radix 16 hex with
          | Some parsed =>
              if parsed <=? U64_MAX then Ok parsed else fail (MLiRangeText value)
          | None => fail (MInvalidImmediate value)
          end
      | None =>
          if starts_with (chars "-") value then
            match i128_from_str_radix 10 value with
            | Some parsed => validate_li_immediate parsed value
            | None => fail (MInvalidImmediate value)
            end
          else
            match u128_from_str_radix 10 value with
            | Some parsed =>
                if parsed <=? U64_MAX then Ok parsed else fail (MLiRangeText value)
            | None => fail (MInvalidImmediate value)
            end
      end
  end.

Definition parse_memory_operand (value : str) : Result (Z * Z) :=
  match find_char 40 value with
  | None => fail (MMemoryOperand value)
  | Some opening =>
      match rfind_char 41 value with
      | None => fail (MMemoryOperand value)
      | Some closing =>
          let? imm := parse_immediate (trim (take opening value)) in
          if Nat.ltb closing (S opening) then fail MPanicSlice
          else
            let? rs1 := parse_register (trim (take (closing - S opening) (drop (S opening) value))) in
            Ok (imm, rs1)
      end
  end.

Definition arg (args : list str) (index : nat) : Result str :=
  ok_or (args !! index) (new_error MMalformedInstruction).

(** [parse_register(arg(&args, i)?)?] and [parse_immediate(arg(&args, i)?)?]. *)
Definition reg_arg (args : list str) (index : nat) : Result Z :=
  let? a := arg args index in parse_register a.
Definition imm_arg (args : list str) (index : nat) : Result Z :=
  let? a := arg args index in parse_immediate a.
Definition mem_arg (args : list str) (index : nat) : Result (Z * Z) :=
  let? a := arg args index in parse_memory_operand a.

(** The operand shapes of the instruction table. *)
Definition rrr (k : Z -> Z -> Z -> Instruction) (args : list str) : Result Instruction :=
  let? rd := reg_arg args 0 in let? rs1 := reg_arg args 1 in let? rs2 := reg_arg args 2 in
  Ok (k rd rs1 rs2).
Definition rri (k : Z -> Z -> Z -> Instruction) (args : list str) : Result Instruction :=
  let? rd := reg_arg args 0 in let? rs1 := reg_arg args 1 in let? imm := imm_arg args 2 in
  Ok (k rd rs1 imm).
Definition rr (k : Z -> Z -> Instruction) (args : list str) : Result Instruction :=
  let? rd := reg_arg args 0 in let? rs := reg_arg args 1 in Ok (k rd rs).
Definition rmem (k : Z -> Z -> Z -> Instruction) (args : list str) : Result Instruction :=
  let? (imm, rs1) := mem_arg args 1 in let? r := reg_arg args 0 in Ok (k r rs1 imm).
Definition rrl (k : Z -> Z -> str -> Instruction) (args : list str) : Result Instruction :=
  let? rs1 := reg_arg args 0 in let? rs2 := reg_arg args 1 in let? label := arg args 2 in
  Ok (k rs1 rs2 label).
Definition rl (k : Z -> str -> Instruction) (args : list str) : Result Instruction :=
  let? rs := reg_arg args 0 in let? label := arg args 1 in Ok (k rs label).

Definition opcode_table : list (string * (list str -> Result Instruction)) :=
  [ ("addi", rri Addi); ("add", rrr IAdd); ("sub", rrr ISub); ("and", rrr IAnd);
    ("andi", rri Andi); ("or", rrr IOr); ("xor", rrr IXor); ("mul", rrr IMul);
    ("mulhu", rrr Mulhu); ("div", rrr IDiv); ("divu", rrr Divu); ("rem", rrr IRem);
    ("remu", rrr Remu); ("slt", rrr Slt); ("sltu", rrr Sltu); ("sgt", rrr Sgt);
    ("xori", rri Xori); ("seqz", rr Seqz); ("snez", rr Snez); ("neg", rr INeg);
    ("ld", rmem Ld); ("lbu", rmem Lbu); ("sb", rmem Sb); ("sh", rmem Sh); ("sw", rmem Sw);
    ("sd", rmem Sd); ("slli", rri Slli); ("srai", rri Srai); ("srli", rri Srli);
    ("rori", rri Rori); ("roriw", rri Roriw); ("sll", rrr Sll); ("srl", rrr Srl);
    ("sra", rrr Sra);
    ("li", fun args =>
       let? rd := reg_arg args 0 in let? a := arg args 1 in
       let? imm := parse_li_immediate a in Ok (Li rd imm));
    ("mv", rr (fun rd rs1 => Addi rd rs1 0));
    ("la", rl La);
    ("call", fun args => let? label := arg args 0 in Ok (Call label));
    ("j", fun args => let? label := arg args 0 in Ok (Jump label));
    ("bgt", fun args =>
       let? rs1 := reg_arg args 1 in let? rs2 := reg_arg args 0 in
       let? label := arg args 2 in Ok (Blt rs1 rs2 label));
    ("bgez", rl (fun rs1 label => Bge rs1 0 label));
    ("beq", rrl Beq); ("bne", rrl Bne); ("blt", rrl Blt); ("bge", rrl Bge);
    ("bltu", rrl Bltu); ("bgeu", rrl Bgeu); ("beqz", rl Beqz); ("bnez", rl Bnez);
    ("ret", fun _ => Ok Ret); ("ecall", fun _ => Ok Ecall) ]%string.

Fixpoint dispatch (table : list (string * (list str -> Result Instruction)))
    (opcode : str) (args : list str) : Result Instruction :=
  match table with
  | [] => fail (MUnsupportedInstruction opcode)
  | (name, parse) :: table' =>
      if str_eqb (chars name) opcode then parse args else dispatch table' opcode args
  end.

Definition split_args (args : str) : list str :=
  match args with [] => [] | _ => map trim (split_char 44 args) end.

Definition parse_instruction (line : str) : Result Instruction :=
  let (opcode, rest) := splitn2 is_whitespace line in
  dispatch opcode_table (trim opcode) (split_args (trim (default [] rest))).

(** * Lines and directives *)

(** The scan of [strip_comment]: the text before an unquoted [#], or [None]. *)
Fixpoint comment_prefix (in_string escape : bool) (before line : str) : option str :=
  match line with
  | [] => None
  | c :: line' =>
      if (c =? 34) && negb escape then comment_prefix (negb in_string) false (c :: before) line'
      else if (c =? 35) && negb in_string then Some (rev before)
      else if (c =? 92) && in_string then comment_prefix in_string (negb escape) (c :: before) line'
      else comment_prefix in_string false (c :: before) line'
  end.

Definition strip_comment (line : str) : option str :=
  match comment_prefix false false [] line with
  | Some before => Some (trim before)
  | None => match trim line with [] => None | t => Some t end
  end.

Fixpoint parse_ascii_chars (s : str) : Result (list Z) :=
  match s with
  | [] => Ok []
  | ch :: s1 =>
      if negb (ch =? 92) then
        let? rest := parse_ascii_chars s1 in Ok (encode_utf8 ch ++ rest)
      else
        match s1 with
        | [] => fail MAsciiUnterminatedEscape
        | escaped :: s2 =>
            if escaped =? 110 then let? rest := parse_ascii_chars s2 in Ok (10 :: rest)
            else if escaped =? 114 then let? rest := parse_ascii_chars s2 in Ok (13 :: rest)
            else if escaped =? 116 then let? rest := parse_ascii_chars s2 in Ok (9 :: rest)
            else if escaped =? 92 then let? rest := parse_ascii_chars s2 in Ok (92 :: rest)
            else if escaped =? 34 then let? rest := parse_ascii_chars s2 in Ok (34 :: rest)
            else if escaped =? 120 then
              match s2 with
              | hi :: lo :: s3 =>
                  match u8_from_str_radix 16 [hi; lo] with
                  | Some byte => let? rest := parse_ascii_chars s3 in Ok (byte :: rest)
                  | None => fail (MAsciiInvalidHex [hi; lo])
                  end
              | _ => fail MAsciiIncompleteHex
              end
            else fail (MAsciiUnsupportedEscape escaped)
        end
  end.

Definition parse_ascii_literal (value : str) : Result (list Z) :=
  match strip_prefix [34] value with
  | Some rest =>
      match strip_suffix [34] rest with
      | Some inner => parse_ascii_chars inner
      | None => fail (MAsciiLiteral value)
      end
  | None => fail (MAsciiLiteral value)
  end.

Definition parse_section_directive (line : str) : Result (option SectionKind) :=
  match strip_prefix (chars ".section ") line with
  | Some section =>
      let name := trim section in
      if str_eqb name (chars ".text") then Ok (Some Text)
      else if str_eqb name (chars ".rodata") then Ok (Some Rodata)
      else fail (MUnsupportedSection name)
  | None => Ok None
  end.

Definition parse_asm_op (line : str) : Result AsmOp :=
  match strip_prefix (chars ".word ") line with
  | Some value =>
      let? v := parse_immediate (trim value) in
      if in_range 0 U32_MAX v then Ok (OpWord v) else fail (MWordRange v)
  | None =>
  match strip_prefix (chars ".byte ") line with
  | Some value =>
      let? v := parse_immediate (trim value) in
      if in_range 0 255 v then Ok (OpByte v) else fail (MByteRange v)
  | None =>
  match strip_prefix (chars ".ascii ") line with
  | Some value => let? bytes := parse_ascii_literal (trim value) in Ok (OpAscii bytes)
  | None =>
  match strip_prefix (chars ".align ") line with
  | Some value =>
      let? align_pow := parse_immediate (trim value) in
      if negb (in_range 0 16 align_pow) then fail (MAlignRange align_pow)
      else Ok (OpAlign (Z.shiftl 1 align_pow))
  | None => let? inst := parse_instruction line in Ok (OpInstruction inst)
  end end end end.

Example parse_addi : parse_asm_op (chars "addi sp, sp, -32") = Ok (OpInstruction (Addi 2 2 (-32))).
Proof. vm_compute. reflexivity. Qed.
Example parse_sd : parse_asm_op (chars "sd ra, 24(sp)") = Ok (OpInstruction (Sd 1 2 24)).
Proof. vm_compute. reflexivity. Qed.
Example parse_bgt :
  parse_asm_op (chars "bgt a0, a1, done") = Ok (OpInstruction (Blt 11 10 (chars "done"))).
Proof. vm_compute. reflexivity. Qed.
Example strip_quoted :
  strip_comment (chars "  .ascii " ++ [34] ++ chars "a#b" ++ [34] ++ chars "  # tail")
  = Some (chars ".ascii " ++ [34] ++ chars "a#b" ++ [34]).
Proof. vm_compute. reflexivity. Qed.

(** * Well-formed operands *)

Definition inst_regs (i : Instruction) : list Z :=
  match i with
  | IAdd a b c | ISub a b c | IAnd a b c | IOr a b c | IXor a b c | IMul a b c | Mulhu a b c
  | IDiv a b c | Divu a b c | IRem a b c | Remu a b c | Slt a b c | Sltu a b c | Sgt a b c
  | Sll a b c | Srl a b c | Sra a b c => [a; b; c]
  | Addi a b _ | Andi a b _ | Xori a b _ | Ld a b _ | Lbu a b _ | Sb a b _ | Sh a b _
  | Sw a b _ | Sd a b _ | Slli a b _ | Srai a b _ | Srli a b _ | Rori a b _ | Roriw a b _
  | Beq a b _ | Bne a b _ | Blt a b _ | Bge a b _ | Bltu a b _ | Bgeu a b _ => [a; b]
  | Seqz a b | Snez a b | INeg a b => [a; b]
  | Li a _ | La a _ | Beqz a _ | Bnez a _ => [a]
  | Call _ | Jump _ | Ret | Ecall => []
  end.

Definition inst_wf (i : Instruction) : Prop := Forall reg_ok (inst_regs i).

Definition op_wf (op : AsmOp) : Prop :=
  match op with
  | OpLabel _ => True
  | OpInstruction i => inst_wf i
  | OpWord w => 0 <= w < 2 ^ 32
  | OpByte b => byte_ok b
  | OpAscii bytes => bytes_ok bytes
  | OpAlign n => exists k, 0 <= k <= 16 /\ n = 2 ^ k
  end.

(** Unicode scalar values. *)
Definition scalar (c : Z) : Prop := 0 <= c < 0x110000.

Lemma lookup_register_ok table name r :
  Forall (fun e => reg_ok (snd e)) table -> lookup_register table name = Some r -> reg_ok r.
Proof.
  induction 1 as [|[names x] table Hx _ IH]; simpl; [done|].
  destruct (existsb _ names); [by intros [= <-]|done].
Qed.

Lemma parse_register_ok name r : parse_register name = Ok r -> reg_ok r.
Proof.
  unfold parse_register. destruct (lookup_register register_names name) as [x|] eqn:E; [|done].
  intros [= <-]. apply lookup_register_ok in E; [done|].
  unfold register_names, reg_ok. repeat (constructor; [simpl; lia|]). constructor.
Qed.

Lemma reg_arg_ok args i r : reg_arg args i = Ok r -> reg_ok r.
Proof. unfold reg_arg. intros H. inv_ok. by eapply parse_register_ok. Qed.

Lemma mem_arg_ok args i imm r : mem_arg args i = Ok (imm, r) -> reg_ok r.
Proof.
  unfold mem_arg, parse_memory_operand. intros H. inv_ok.
  destruct (find_char 40 _); [|done]. destruct (rfind_char 41 _); [|done]. inv_ok.
  subst. by eapply parse_register_ok.
Qed.

#[export] Hint Resolve reg_arg_ok mem_arg_ok : cell_asm.

(** Every entry of the table parses to well-formed registers. *)
Lemma opcode_table_wf :
  Forall (fun e => forall args i, snd e args = Ok i -> inst_wf i) opcode_table.
Proof.
  assert (reg_ok 0) by (unfold reg_ok; lia).
  unfold opcode_table. repeat (apply Forall_cons_2; [|]); [..|apply Forall_nil_2].
  all: intros args i H1; cbn [snd] in H1; unfold rrr, rri, rr, rmem, rrl, rl in H1;
    inv_ok; subst;
    unfold inst_wf; cbn [inst_regs];
    repeat (apply Forall_cons_2; [eauto with cell_asm|]); try apply Forall_nil_2.
Qed.

Lemma parse_instruction_wf line i : parse_instruction line = Ok i -> inst_wf i.
Proof.
  unfold parse_instruction. destruct (splitn2 is_whitespace line) as [opcode rest].
  generalize (split_args (trim (default [] rest))) as args. intros args.
  generalize (trim opcode) as op. intros op.
  pose proof opcode_table_wf as Hwf. revert Hwf.
  generalize opcode_table as table. induction 1 as [|[name parse] table Hp _ IH]; simpl; [done|].
  destruct (str_eqb (chars name) op); [apply Hp|apply IH].
Qed.

Lemma encode_utf8_ok c : scalar c -> bytes_ok (encode_utf8 c).
Proof.
  unfold scalar, bytes_ok, byte_ok. intros Hc. unfold encode_utf8.
  assert (forall x, 0 <= x < 64 -> Z.lor 0x80 x = 0x80 + x) as H80
    by (intros; apply (lor_add_disjoint 6); [done|lia|done]).
  assert (forall x, 0 <= x < 32 -> Z.lor 0xC0 x = 0xC0 + x) as HC0
    by (intros; apply (lor_add_disjoint 5); [done|lia|done]).
  assert (forall x, 0 <= x < 16 -> Z.lor 0xE0 x = 0xE0 + x) as HE0
    by (intros; apply (lor_add_disjoint 4); [done|lia|done]).
  assert (forall x, 0 <= x < 8 -> Z.lor 0xF0 x = 0xF0 + x) as HF0
    by (intros; apply (lor_add_disjoint 3); [done|lia|done]).
  destruct (c <? 0x80) eqn:E1; [repeat constructor; lia|].
  autorewrite with cell_bits. pow2_consts.
  destruct (c <? 0x800) eqn:E2; [|destruct (c <? 0x10000) eqn:E3].
  all: rewrite ?H80 by zdivmod; rewrite ?HC0, ?HE0, ?HF0 by zdivmod;
    repeat constructor; zdivmod.
Qed.

Lemma u8_from_str_radix_ok s b : u8_from_str_radix 16 s = Some b -> byte_ok b.
Proof. unfold u8_from_str_radix, byte_ok. intros H%from_str_radix_range. lia. Qed.

Lemma parse_ascii_chars_ok s bytes :
  Forall scalar s -> parse_ascii_chars s = Ok bytes -> bytes_ok bytes.
Proof.
  unfold bytes_ok. remember (List.length s) as n eqn:En. revert s bytes En.
  induction n as [n IH] using lt_wf_ind. intros s bytes -> Hs H.
  destruct s as [|c s1]; [by injection H as <-|].
  inversion Hs as [|?? Hc Hs1]; subst. cbn [parse_ascii_chars] in H.
  destruct (negb (c =? 92)).
  { inv_ok. subst. apply Forall_app. split; [by apply encode_utf8_ok|].
    eapply IH; [|done|done|done]. simpl. lia. }
  destruct s1 as [|e s2]; [done|]. inversion Hs1 as [|?? _ Hs2]; subst.
  assert (forall r, parse_ascii_chars s2 = Ok r -> Forall byte_ok r) as IH2
    by (intros r Hr; eapply IH; [|done|done|done]; simpl; lia).
  repeat (destruct (e =? _);
    [first [inv_ok; subst; constructor; [unfold byte_ok; lia|by apply IH2]|idtac]|]); [|done].
  destruct s2 as [|hi [|lo s3]]; [done..|].
  destruct (u8_from_str_radix 16 [hi; lo]) as [b|] eqn:Eb; [|done]. inv_ok. subst.
  constructor; [by eapply u8_from_str_radix_ok|].
  inversion Hs2 as [|?? _ Hs2']; subst. inversion Hs2' as [|?? _ Hs3]; subst.
  eapply IH; [|done|done|done]. simpl. lia.
Qed.

Lemma strip_prefix_scalar p s r : strip_prefix p s = Some r -> Forall scalar s -> Forall scalar r.
Proof. intros ->%strip_prefix_Some H. by apply Forall_app in H as [_ ?]. Qed.

Lemma drop_while_scalar p s : Forall scalar s -> Forall scalar (drop_while p s).
Proof. induction 1 as [|c s Hc Hs IH]; simpl; [done|]. destruct (p c); [done|by constructor]. Qed.

Lemma trim_scalar s : Forall scalar s -> Forall scalar (trim s).
Proof.
  intros H. unfold trim, trim_end, trim_start.
  by apply Forall_rev, drop_while_scalar, Forall_rev, drop_while_scalar.
Qed.

(** Every parsed operation has operands of its machine width. *)
Lemma parse_asm_op_wf line op : Forall scalar line -> parse_asm_op line = Ok op -> op_wf op.
Proof.
  intros Hs. unfold parse_asm_op, in_range, U32_MAX.
  destruct (strip_prefix (chars ".word ") line); [intros H; inv_ok; subst; simpl; lia|].
  destruct (strip_prefix (chars ".byte ") line);
    [intros H; inv_ok; subst; simpl; unfold byte_ok; lia|].
  destruct (strip_prefix (chars ".ascii ") line) as [v|] eqn:Ea.
  { intros H. inv_ok. subst. simpl. unfold parse_ascii_literal in E.
    destruct (strip_prefix [34] (trim v)) as [rest|] eqn:E1; [|done].
    destruct (strip_suffix [34] rest) as [inner|] eqn:E2; [|done].
    apply parse_ascii_chars_ok in E; [done|].
    apply strip_suffix_Some in E2 as ->. pose proof (strip_prefix_scalar _ _ _ Ea Hs) as Hv.
    pose proof (strip_prefix_scalar _ _ _ E1 (trim_scalar _ Hv)) as Hi.
    by apply Forall_app in Hi as [? _]. }
  destruct (strip_prefix (chars ".align ") line).
  { intros H. inv_ok. subst. simpl. eexists; split; cycle 1; [apply Z.shiftl_1_l|lia]. }
  intros H. inv_ok. subst. simpl. by eapply parse_instruction_wf.
Qed.

Lemma show_nat_dec_digits n c : 0 <= n -> c ∈ show_nat_dec n -> 48 <= c <= 57.
Proof.
  intros Hn. unfold show_nat_dec. generalize (S (Z.to_nat (Z.log2 n))) as fuel. intros fuel.
  assert (forall acc, (forall x, x ∈ acc -> 48 <= x <= 57) ->
            c ∈ dec_digits fuel n acc -> 48 <= c <= 57) as H; [|apply H; set_solver].
  revert n Hn. induction fuel as [|fuel IH]; intros n Hn acc Hacc; simpl; [apply Hacc|].
  assert (forall x, x ∈ (48 + n mod 10) :: acc -> 48 <= x <= 57) as Hacc'.
  { intros x [->|Hx]%elem_of_cons; [zdivmod|by apply Hacc]. }
  destruct (n <? 10); [apply Hacc'|]. apply IH; [zdivmod|done].
Qed.

(** C29.  Decimal immediates round trip: printing any [i64] and parsing the text as an operand
    gives the value back; this is the form in which the code generator writes immediates. *)
Theorem immediate_roundtrip z : I64_MIN <= z <= I64_MAX -> parse_immediate (show_dec z) = Ok z.
Proof.
  intros Hz. unfold parse_immediate.
  assert (120 ∉ show_dec z) as Hx.
  { unfold show_dec. destruct (Z.ltb_spec z 0).
    - intros [?|Hin]%elem_of_cons; [done|]. apply show_nat_dec_digits in Hin; lia.
    - intros Hin. apply show_nat_dec_digits in Hin; lia. }
  assert (forall p r, 120 ∈ p -> strip_prefix p (show_dec z) = Some r -> False) as Hno.
  { intros p r Hp E%strip_prefix_Some. apply Hx. rewrite E. by apply elem_of_app; left. }
  destruct (strip_prefix (chars "-0x") (show_dec z)) eqn:E1; [exfalso; eapply Hno, E1; set_solver|].
  destruct (strip_prefix (chars "0x") (show_dec z)) eqn:E2; [exfalso; eapply Hno, E2; set_solver|].
  destruct (strip_prefix (chars "+0x") (show_dec z)) eqn:E3; [exfalso; eapply Hno, E3; set_solver|].
  unfold i64_from_str_radix. by rewrite from_str_radix_show_dec.
Qed.

Lemma immediate_roundtrip_witness : parse_immediate (show_dec (-2147483649)) = Ok (-2147483649).
Proof. apply immediate_roundtrip. unfold I64_MIN, I64_MAX. lia. Defined.
