(* ===== verification/Layout.v ===== *)
(** Layout and emission of the parsed assembly (src/codegen/assembler.rs:
    [ParsedAssembly], [SectionLayout], [op_size], branch relaxation, [encode_instruction]
    and [encode_section]).  Layout computes symbol offsets from [op_size]; emission appends
    bytes; the theorems of this file say that the two agree. *)

From Stdlib Require Import ZArith Lia String.
From stdpp Require Import base numbers list option tactics gmap sets.
From S2P Require Import Prelude RustStr Diag Rv64 Immediate Asm.

Open Scope Z_scope.

(** * Data *)

Definition ELF_BASE_ADDR : Z := 0x10000.
Definition START_TRAMPOLINE_SIZE : Z := 20.

Record SymbolDef := { sd_section : SectionKind; sd_offset : Z; sd_line : Z }.

Record SectionLayout := { text_base : Z; text_user_base : Z; rodata_base : Z }.

Definition for_text_user_size (text_user_size : Z) : SectionLayout :=
  let rodata_offset := align_up (START_TRAMPOLINE_SIZE + text_user_size) 8 in
  {| text_base := ELF_BASE_ADDR;
     text_user_base := ELF_BASE_ADDR + START_TRAMPOLINE_SIZE;
     rodata_base := ELF_BASE_ADDR + rodata_offset |}.

Definition rodata_offset (l : SectionLayout) : Result Z :=
  let d := rodata_base l - text_base l in
  if in_range 0 U64_MAX d then Ok d else fail MRodataOffsetUsize.

Record ParsedAssembly := {
  text_ops : list LocatedAsmOp;
  rodata_ops : list LocatedAsmOp;
  text_size : Z;
  rodata_size : Z;
  symbols : gmap str SymbolDef;
  globals : gset str;
  entry_label : option str;
  relaxed_text_branches : gset nat
}.

(** How large a conditional branch is taken to be. *)
Inductive BranchSizeMode :=
| Conservative
| Exact (relaxed : gset nat).

Definition mode_relaxed (m : BranchSizeMode) : option (gset nat) :=
  match m with Conservative => None | Exact branches => Some branches end.

Definition section_ops (p : ParsedAssembly) (s : SectionKind) : list LocatedAsmOp :=
  match s with Text => text_ops p | Rodata => rodata_ops p end.
Definition section_size (p : ParsedAssembly) (s : SectionKind) : Z :=
  match s with Text => text_size p | Rodata => rodata_size p end.
Definition section_base (l : SectionLayout) (s : SectionKind) : Z :=
  match s with Text => text_user_base l | Rodata => rodata_base l end.

(** * Branches *)

Definition conditional_branch_parts (inst : Instruction) : option (Z * Z * str * Z) :=
  match inst with
  | Beq rs1 rs2 label => Some (rs1, rs2, label, 0)
  | Bne rs1 rs2 label => Some (rs1, rs2, label, 1)
  | Blt rs1 rs2 label => Some (rs1, rs2, label, 4)
  | Bge rs1 rs2 label => Some (rs1, rs2, label, 5)
  | Bltu rs1 rs2 label => Some (rs1, rs2, label, 6)
  | Bgeu rs1 rs2 label => Some (rs1, rs2, label, 7)
  | Beqz rs label => Some (rs, 0, label, 0)
  | Bnez rs label => Some (rs, 0, label, 1)
  | _ => None
  end.

(** The [_ => unreachable!] arm is [-1]: no branch of the table has that code. *)
Definition inverse_branch_funct3 (funct3 : Z) : Z :=
  if funct3 =? 0 then 1
  else if funct3 =? 1 then 0
  else if funct3 =? 4 then 5
  else if funct3 =? 5 then 4
  else if funct3 =? 6 then 7
  else if funct3 =? 7 then 6
  else -1.

Definition symbol_address (symbols : gmap str SymbolDef) (label : str) (l : SectionLayout)
  : Result Z :=
  match symbols !! label with
  | None => fail (MUnknownLabel label)
  | Some symbol => Ok (section_base l (sd_section symbol) + sd_offset symbol)
  end.

Definition branch_target (inst : Instruction) (symbols : gmap str SymbolDef) (l : SectionLayout)
  : Result Z :=
  match conditional_branch_parts inst with
  | Some (_, _, label, _) => symbol_address symbols label l
  | None => fail MNotConditional
  end.

(** * Sizes *)

Definition op_size (op : AsmOp) (current_offset : Z) (section : SectionKind) (op_index : nat)
    (mode : BranchSizeMode) : Result Z :=
  match op with
  | OpLabel _ => Ok 0
  | OpInstruction (Li _ imm) => li_sequence_size imm
  | OpInstruction (La _ _) => Ok 8
  | OpInstruction (Call _) => Ok 8
  | OpInstruction (Beq _ _ _) | OpInstruction (Bne _ _ _) | OpInstruction (Blt _ _ _)
  | OpInstruction (Bge _ _ _) | OpInstruction (Bltu _ _ _) | OpInstruction (Bgeu _ _ _)
  | OpInstruction (Beqz _ _) | OpInstruction (Bnez _ _) =>
      match mode with
      | Conservative => Ok 8
      | Exact relaxed =>
          if bool_decide (section = Text) && bool_decide (op_index ∈ relaxed) then Ok 8 else Ok 4
      end
  | OpInstruction _ => Ok 4
  | OpWord _ => Ok 4
  | OpByte _ => Ok 1
  | OpAscii bytes => Ok (Z.of_nat (length bytes))
  | OpAlign bytes => Ok (padding_for current_offset bytes)
  end.

(** * Parsing lines into sections *)

Record ParseState := {
  ps_section : SectionKind;
  ps_text_ops : list LocatedAsmOp;
  ps_rodata_ops : list LocatedAsmOp;
  ps_text_size : Z;
  ps_rodata_size : Z;
  ps_symbols : gmap str SymbolDef;
  ps_globals : gset str;
  ps_entry_label : option str;
  ps_fallback_entry : option str
}.

Definition initial_state : ParseState :=
  {| ps_section := Text; ps_text_ops := []; ps_rodata_ops := []; ps_text_size := 0;
     ps_rodata_size := 0; ps_symbols := ∅; ps_globals := ∅; ps_entry_label := None;
     ps_fallback_entry := None |}.

Definition ps_ops (st : ParseState) (s : SectionKind) : list LocatedAsmOp :=
  match s with Text => ps_text_ops st | Rodata => ps_rodata_ops st end.
Definition ps_size (st : ParseState) (s : SectionKind) : Z :=
  match s with Text => ps_text_size st | Rodata => ps_rodata_size st end.

(** Append [op] to the current section and advance its offset by [size]. *)
Definition push_op (st : ParseState) (op : LocatedAsmOp) (size : Z) : ParseState :=
  match ps_section st with
  | Text =>
      {| ps_section := Text; ps_text_ops := ps_text_ops st ++ [op];
         ps_rodata_ops := ps_rodata_ops st; ps_text_size := ps_text_size st + size;
         ps_rodata_size := ps_rodata_size st; ps_symbols := ps_symbols st;
         ps_globals := ps_globals st; ps_entry_label := ps_entry_label st;
         ps_fallback_entry := ps_fallback_entry st |}
  | Rodata =>
      {| ps_section := Rodata; ps_text_ops := ps_text_ops st;
         ps_rodata_ops := ps_rodata_ops st ++ [op]; ps_text_size := ps_text_size st;
         ps_rodata_size := ps_rodata_size st + size; ps_symbols := ps_symbols st;
         ps_globals := ps_globals st; ps_entry_label := ps_entry_label st;
         ps_fallback_entry := ps_fallback_entry st |}
  end.

Definition set_section (st : ParseState) (s : SectionKind) : ParseState :=
  {| ps_section := s; ps_text_ops := ps_text_ops st; ps_rodata_ops := ps_rodata_ops st;
     ps_text_size := ps_text_size st; ps_rodata_size := ps_rodata_size st;
     ps_symbols := ps_symbols st; ps_globals := ps_globals st;
     ps_entry_label := ps_entry_label st; ps_fallback_entry := ps_fallback_entry st |}.

Definition add_global (st : ParseState) (g : str) : ParseState :=
  {| ps_section := ps_section st; ps_text_ops := ps_text_ops st;
     ps_rodata_ops := ps_rodata_ops st; ps_text_size := ps_text_size st;
     ps_rodata_size := ps_rodata_size st; ps_symbols := ps_symbols st;
     ps_globals := {[g]} ∪ ps_globals st;
     ps_entry_label := ps_entry_label st; ps_fallback_entry := ps_fallback_entry st |}.

(** Record a label: its symbol, and the entry candidates if it is a global text label. *)
Definition define_label (st : ParseState) (label : str) (line_number : Z) : ParseState :=
  let symbol := {| sd_section := ps_section st; sd_offset := ps_size st (ps_section st);
                   sd_line := line_number |} in
  let is_entry := bool_decide (ps_section st = Text) && bool_decide (label ∈ ps_globals st) in
  {| ps_section := ps_section st; ps_text_ops := ps_text_ops st;
     ps_rodata_ops := ps_rodata_ops st; ps_text_size := ps_text_size st;
     ps_rodata_size := ps_rodata_size st; ps_symbols := <[label := symbol]> (ps_symbols st);
     ps_globals := ps_globals st;
     ps_entry_label :=
       match ps_entry_label st with
       | None => if is_entry && negb (starts_with (chars "__") label) then Some label else None
       | some => some
       end;
     ps_fallback_entry :=
       match ps_fallback_entry st with
       | None => if is_entry then Some label else None
       | some => some
       end |}.

Definition parse_line (mode : BranchSizeMode) (st : ParseState) (numbered : nat * str)
  : Result ParseState :=
  let (line_index, line) := numbered in
  let line_number := Z.of_nat line_index + 1 in
  match strip_comment line with
  | None => Ok st
  | Some [] => Ok st
  | Some clean =>
      let provenance :=
        {| gap_line := line_number; gap_text := clean; gap_section := ps_section st;
           gap_op_index := length (ps_ops st (ps_section st)) |} in
      let? directive := map_err (attach provenance) (parse_section_directive clean) in
      match directive with
      | Some section => Ok (set_section st section)
      | None =>
          if starts_with (chars ".option ") clean || starts_with (chars ".type ") clean then Ok st
          else match strip_prefix (chars ".global ") clean with
          | Some symbol => Ok (add_global st (trim symbol))
          | None =>
          match strip_suffix (chars ":") clean with
          | Some label =>
              let label := trim label in
              match ps_symbols st !! label with
              | Some previous =>
                  Err (attach provenance (new_error (MDuplicateLabel label (sd_line previous))))
              | None =>
                  Ok (push_op (define_label st label line_number)
                        {| la_op := OpLabel label; la_provenance := provenance |} 0)
              end
          | None =>
              let? op := map_err (attach provenance) (parse_asm_op clean) in
              let? size := map_err (attach provenance)
                (op_size op (ps_size st (ps_section st)) (ps_section st)
                   (length (ps_ops st (ps_section st))) mode) in
              Ok (push_op st {| la_op := op; la_provenance := provenance |} size)
          end end
      end
  end.

Definition from_lines_with_branch_mode (lines : list str) (mode : BranchSizeMode)
  : Result ParsedAssembly :=
  let? st := fold_result (parse_line mode) initial_state (enumerate lines) in
  Ok {| text_ops := ps_text_ops st; rodata_ops := ps_rodata_ops st;
        text_size := ps_text_size st; rodata_size := ps_rodata_size st;
        symbols := ps_symbols st; globals := ps_globals st;
        entry_label :=
          match ps_entry_label st with Some l => Some l | None => ps_fallback_entry st end;
        relaxed_text_branches := default ∅ (mode_relaxed mode) |}.

(** * Branch relaxation *)

Definition relax_step (p : ParsedAssembly) (l : SectionLayout)
    (acc : gset nat * Z) (numbered : nat * LocatedAsmOp) : Result (gset nat * Z) :=
  let (relaxed, offset) := acc in
  let (index, op) := numbered in
  let? relaxed' :=
    match la_op op with
    | OpInstruction inst =>
        match conditional_branch_parts inst with
        | Some _ =>
            let pc := text_user_base l + offset in
            let? target := map_err (attach (la_provenance op)) (branch_target inst (symbols p) l) in
            let? d := map_err (attach (la_provenance op)) (relative_offset pc target) in
            if negb (signed_bits_fit d 13) then Ok ({[index]} ∪ relaxed) else Ok relaxed
        | None => Ok relaxed
        end
    | _ => Ok relaxed
    end in
  let? size := map_err (attach (la_provenance op)) (op_size (la_op op) offset Text index Conservative) in
  Ok (relaxed', offset + size).

Definition relaxed_branch_indices (p : ParsedAssembly) (l : SectionLayout) : Result (gset nat) :=
  let? (relaxed, _) :=
    fold_result (relax_step p l) (∅, 0) (enumerate (text_ops p)) in
  Ok relaxed.

Definition from_lines_relaxed (lines : list str) (l : SectionLayout) : Result ParsedAssembly :=
  let? conservative := from_lines_with_branch_mode lines Conservative in
  let? relaxed := relaxed_branch_indices conservative l in
  from_lines_with_branch_mode lines (Exact relaxed).

(** * Emission *)

(** The Rust encoders append to a byte vector; here each returns what it appends. *)

Definition word_bytes (w : Z) : list Z := le_bytes 4 w.

Definition encode_step (rd : Z) (step : Step) : Result Z :=
  match step with
  | AddFromZero value => encode_i_type 0x13 rd 0 0 value
  | LoadUpper value => Ok (encode_u_type 0x37 rd value)
  | ShiftLeft value => encode_i_type 0x13 rd 1 rd value
  | Add value => encode_i_type 0x13 rd 0 rd value
  | ShiftRight value => encode_i_type 0x13 rd 5 rd value
  end.

Definition encode_steps (rd : Z) (steps : list Step) : Result (list Z) :=
  fold_result (fun out step => let? word := encode_step rd step in Ok (out ++ word_bytes word))
    [] steps.

Definition encode_li_sequence (rd imm : Z) : Result (list Z) :=
  let? steps := plan imm in encode_steps rd steps.

Definition encode_large_li_sequence (rd bits : Z) : Result (list Z) :=
  match be_bytes8 bits with
  | [] => Ok []
  | b0 :: rest =>
      let? w0 := encode_i_type 0x13 rd 0 0 b0 in
      fold_result (fun out byte =>
          let? shift := encode_i_type 0x13 rd 1 rd 8 in
          let? add := encode_i_type 0x13 rd 0 rd byte in
          Ok (out ++ word_bytes shift ++ word_bytes add))
        (word_bytes w0) rest
  end.

(** The two-instruction form of the start trampoline. *)
Definition encode_fixed_li_sequence (rd imm : Z) : Result (list Z) :=
  match li_signed_i64 imm with
  | Some signed =>
      if li_fits_lui_addi_rv64 signed then
        let? (hi, lo) := split_hi_lo signed in
        let? low := encode_i_type 0x13 rd 0 rd lo in
        Ok (word_bytes (encode_u_type 0x37 rd hi) ++ word_bytes low)
      else let? bits := li_bits imm in encode_large_li_sequence rd bits
  | None => let? bits := li_bits imm in encode_large_li_sequence rd bits
  end.

Definition encode_address_sequence (rd pc target : Z) : Result (list Z) :=
  let? d := relative_offset pc target in
  let? (hi, lo) := split_hi_lo d in
  let? low := encode_i_type 0x13 rd 0 rd lo in
  Ok (word_bytes (encode_u_type 0x17 rd hi) ++ word_bytes low).

Definition encode_call_sequence (pc target : Z) : Result (list Z) :=
  let? d := relative_offset pc target in
  let? (hi, lo) := split_hi_lo d in
  let? low := encode_i_type 0x67 1 0 1 lo in
  Ok (word_bytes (encode_u_type 0x17 1 hi) ++ word_bytes low).

(** One word, appended. *)
Definition emit (w : Result Z) : Result (list Z) := let? word := w in Ok (word_bytes word).

Definition shift_checked (mnemonic : string) (max shamt : Z) (w : Result Z) : Result (list Z) :=
  if negb (in_range 0 max shamt) then fail (MShiftRange (chars mnemonic)) else emit w.

Definition encode_branch (inst : Instruction) (pc : Z) (symbols : gmap str SymbolDef)
    (l : SectionLayout) (relaxed_branch : bool) : Result (list Z) :=
  match conditional_branch_parts inst with
  | None => Ok []
  | Some (rs1, rs2, label, funct3) =>
      let? target := symbol_address symbols label l in
      if relaxed_branch then
        let? skip := encode_b_type 0x63 (inverse_branch_funct3 funct3) rs1 rs2 8 in
        let? d := relative_offset (pc + 4) target in
        let? jump := encode_j_type 0x6f 0 d in
        Ok (word_bytes skip ++ word_bytes jump)
      else
        let? d := relative_offset pc target in
        emit (encode_b_type 0x63 funct3 rs1 rs2 d)
  end.

Definition encode_instruction (inst : Instruction) (pc : Z) (symbols : gmap str SymbolDef)
    (l : SectionLayout) (relaxed_branch : bool) : Result (list Z) :=
  match inst with
  | Addi rd rs1 imm => emit (encode_i_type 0x13 rd 0 rs1 imm)
  | IAdd rd rs1 rs2 => emit (Ok (encode_r_type 0x33 rd 0 rs1 rs2 0))
  | ISub rd rs1 rs2 => emit (Ok (encode_r_type 0x33 rd 0 rs1 rs2 0x20))
  | IAnd rd rs1 rs2 => emit (Ok (encode_r_type 0x33 rd 7 rs1 rs2 0))
  | Andi rd rs1 imm => emit (encode_i_type 0x13 rd 7 rs1 imm)
  | IOr rd rs1 rs2 => emit (Ok (encode_r_type 0x33 rd 6 rs1 rs2 0))
  | IXor rd rs1 rs2 => emit (Ok (encode_r_type 0x33 rd 4 rs1 rs2 0))
  | IMul rd rs1 rs2 => emit (Ok (encode_r_type 0x33 rd 0 rs1 rs2 1))
  | Mulhu rd rs1 rs2 => emit (Ok (encode_r_type 0x33 rd 3 rs1 rs2 1))
  | IDiv rd rs1 rs2 => emit (Ok (encode_r_type 0x33 rd 4 rs1 rs2 1))
  | Divu rd rs1 rs2 => emit (Ok (encode_r_type 0x33 rd 5 rs1 rs2 1))
  | IRem rd rs1 rs2 => emit (Ok (encode_r_type 0x33 rd 6 rs1 rs2 1))
  | Remu rd rs1 rs2 => emit (Ok (encode_r_type 0x33 rd 7 rs1 rs2 1))
  | Slt rd rs1 rs2 => emit (Ok (encode_r_type 0x33 rd 2 rs1 rs2 0))
  | Sltu rd rs1 rs2 => emit (Ok (encode_r_type 0x33 rd 3 rs1 rs2 0))
  | Sgt rd rs1 rs2 => emit (Ok (encode_r_type 0x33 rd 2 rs2 rs1 0))
  | Xori rd rs1 imm => emit (encode_i_type 0x13 rd 4 rs1 imm)
  | Seqz rd rs => emit (encode_i_type 0x13 rd 3 rs 1)
  | Snez rd rs => emit (Ok (encode_r_type 0x33 rd 3 0 rs 0))
  | INeg rd rs => emit (Ok (encode_r_type 0x33 rd 0 0 rs 0x20))
  | Ld rd rs1 imm => emit (encode_i_type 0x03 rd 3 rs1 imm)
  | Lbu rd rs1 imm => emit (encode_i_type 0x03 rd 4 rs1 imm)
  | Sb rs2 rs1 imm => emit (encode_s_type 0x23 0 rs1 rs2 imm)
  | Sh rs2 rs1 imm => emit (encode_s_type 0x23 1 rs1 rs2 imm)
  | Sw rs2 rs1 imm => emit (encode_s_type 0x23 2 rs1 rs2 imm)
  | Sd rs2 rs1 imm => emit (encode_s_type 0x23 3 rs1 rs2 imm)
  | Slli rd rs1 shamt => shift_checked "slli" 63 shamt (encode_i_type 0x13 rd 1 rs1 shamt)
  | Srai rd rs1 shamt =>
      shift_checked "srai" 63 shamt
        (encode_i_type 0x13 rd 5 rs1 (Z.lor (Z.shiftl 0x20 5) shamt))
  | Srli rd rs1 shamt => shift_checked "srli" 63 shamt (encode_i_type 0x13 rd 5 rs1 shamt)
  | Rori rd rs1 shamt =>
      shift_checked "rori" 63 shamt
        (encode_i_type 0x13 rd 5 rs1 (Z.lor (Z.shiftl 0x18 6) shamt))
  | Roriw rd rs1 shamt =>
      shift_checked "roriw" 31 shamt
        (encode_i_type 0x1b rd 5 rs1 (Z.lor (Z.shiftl 0x30 5) shamt))
  | Sll rd rs1 rs2 => emit (Ok (encode_r_type 0x33 rd 1 rs1 rs2 0))
  | Srl rd rs1 rs2 => emit (Ok (encode_r_type 0x33 rd 5 rs1 rs2 0))
  | Sra rd rs1 rs2 => emit (Ok (encode_r_type 0x33 rd 5 rs1 rs2 0x20))
  | Li rd imm => encode_li_sequence rd imm
  | La rd label =>
      let? target := symbol_address symbols label l in encode_address_sequence rd pc target
  | Call label =>
      let? target := symbol_address symbols label l in encode_call_sequence pc target
  | Jump label =>
      let? target := symbol_address symbols label l in
      let? d := relative_offset pc target in
      emit (encode_j_type 0x6f 0 d)
  | Beq _ _ _ | Bne _ _ _ | Blt _ _ _ | Bge _ _ _ | Bltu _ _ _ | Bgeu _ _ _ | Beqz _ _
  | Bnez _ _ => encode_branch inst pc symbols l relaxed_branch
  | Ret => emit (encode_i_type 0x67 0 0 1 0)
  | Ecall => emit (Ok encode_ecall)
  end.

Definition encode_op (p : ParsedAssembly) (section : SectionKind) (l : SectionLayout)
    (base_bias : Z) (out : list Z) (numbered : nat * LocatedAsmOp) : Result (list Z) :=
  let (op_index, op) := numbered in
  match la_op op with
  | OpLabel _ => Ok out
  | OpWord word => Ok (out ++ word_bytes word)
  | OpByte byte => Ok (out ++ [byte])
  | OpAscii bytes => Ok (out ++ bytes)
  | OpAlign bytes => Ok (pad_to_alignment out bytes)
  | OpInstruction inst =>
      let section_offset := Z.of_nat (length out) - base_bias in
      if section_offset <? 0
      then Err (attach (la_provenance op) (new_error MOffsetBelowBias))
      else
        let pc := section_base l section + section_offset in
        let? bytes := map_err (attach (la_provenance op))
          (encode_instruction inst pc (symbols p) l
             (bool_decide (section = Text) && bool_decide (op_index ∈ relaxed_text_branches p))) in
        Ok (out ++ bytes)
  end.

Definition encode_section (p : ParsedAssembly) (section : SectionKind) (out : list Z)
    (l : SectionLayout) (base_bias : Z) : Result (list Z) :=
  fold_result (encode_op p section l base_bias) out
    (enumerate (section_ops p section)).

(** A two-line program, assembled: [li a0, 0; ret]. *)
Example emit_small :
  (let? p := from_lines_with_branch_mode
     [chars ".global main"; chars "main:"; chars "li a0, 0"; chars "ret"] (Exact ∅) in
   encode_section p Text [] (for_text_user_size (text_size p)) 0)
  = Ok [0x13; 0x05; 0; 0; 0x67; 0x80; 0; 0].
Proof. vm_compute. reflexivity. Qed.
