(* ===== verification/LayoutFacts.v ===== *)
(** Layout and emission agree: sizes predicted by [op_size] are the sizes emitted, every
    symbol's offset is the position of its label in the emitted section, and branch
    relaxation leaves no branch out of range. *)

From Stdlib Require Import ZArith Lia.
From stdpp Require Import base numbers list option tactics gmap sets.
From S2P Require Import Prelude RustStr Sample Diag Rv64 Immediate Asm Layout.

Open Scope Z_scope.

(** * Emitted sizes *)

Lemma length_word_bytes w : length (word_bytes w) = 4%nat.
Proof. apply length_le_bytes. Qed.

Lemma emit_length w bytes : emit w = Ok bytes -> length bytes = 4%nat.
Proof. unfold emit. intros H. inv_ok. subst. apply length_word_bytes. Qed.

Lemma shift_checked_length m max shamt w bytes :
  shift_checked m max shamt w = Ok bytes -> length bytes = 4%nat.
Proof. unfold shift_checked. intros H. inv_ok. by eapply emit_length. Qed.

Lemma encode_steps_length rd steps bytes :
  encode_steps rd steps = Ok bytes -> length bytes = (4 * length steps)%nat.
Proof.
  unfold encode_steps.
  assert (forall out bytes,
    fold_result (fun out step => let? word := encode_step rd step in Ok (out ++ word_bytes word))
      out steps = Ok bytes -> length bytes = (length out + 4 * length steps)%nat) as H;
    [|by intros ?%H].
  induction steps as [|s steps IH]; intros out bs H; simpl in H; [injection H as <-; simpl; lia|].
  inv_ok. subst. apply IH in H. rewrite H, length_app, length_word_bytes. simpl. lia.
Qed.

Lemma pair_sequence_length w1 w2 : length (word_bytes w1 ++ word_bytes w2) = 8%nat.
Proof. by rewrite length_app, !length_word_bytes. Qed.

Lemma encode_branch_length inst pc syms l r bytes :
  conditional_branch_parts inst <> None -> encode_branch inst pc syms l r = Ok bytes ->
  length bytes = (if r then 8 else 4)%nat.
Proof.
  unfold encode_branch. intros Hc H.
  destruct (conditional_branch_parts inst) as [[[[rs1 rs2] lbl] f3]|]; [|done].
  destruct r; inv_ok; subst; [apply pair_sequence_length|by eapply emit_length].
Qed.

(** The size predicted for an instruction is the number of bytes emitted for it. *)
Lemma encode_instruction_length inst pc syms l sec idx relaxed off bytes :
  encode_instruction inst pc syms l (bool_decide (sec = Text) && bool_decide (idx ∈ relaxed))
  = Ok bytes ->
  op_size (OpInstruction inst) off sec idx (Exact relaxed) = Ok (Z.of_nat (length bytes)).
Proof.
  intros H. destruct inst; cbn [encode_instruction] in H; cbn [op_size];
    try (apply emit_length in H; by rewrite H);
    try (apply shift_checked_length in H; by rewrite H);
    try (apply encode_branch_length in H; [|done]; rewrite H;
         by destruct (bool_decide (sec = Text) && bool_decide (idx ∈ relaxed))).
  - unfold encode_li_sequence in H. unfold li_sequence_size. inv_ok.
    apply encode_steps_length in H. rewrite H. f_equal. lia.
  - unfold encode_address_sequence in H. inv_ok. subst. by rewrite pair_sequence_length.
  - unfold encode_call_sequence in H. inv_ok. subst. by rewrite pair_sequence_length.
  - inv_ok. apply emit_length in H. by rewrite H.
Qed.

(** * Offsets *)

(** The offset after laying out [ops] from index [idx] and offset [off]. *)
Fixpoint advance (mode : BranchSizeMode) (sec : SectionKind) (idx : nat) (off : Z)
    (ops : list LocatedAsmOp) : Result Z :=
  match ops with
  | [] => Ok off
  | op :: ops' =>
      let? s := op_size (la_op op) off sec idx mode in
      advance mode sec (S idx) (off + s) ops'
  end.

Lemma advance_app mode sec idx off ops1 ops2 :
  advance mode sec idx off (ops1 ++ ops2)
  = (let? off' := advance mode sec idx off ops1 in
     advance mode sec (idx + length ops1) off' ops2).
Proof.
  revert idx off. induction ops1 as [|op ops1 IH]; intros idx off; simpl.
  - by rewrite Nat.add_0_r.
  - destruct (op_size _ _ _ _ _); [|done]. rewrite IH.
    destruct (advance _ _ _ _ ops1); [|done]. f_equal. lia.
Qed.

Lemma advance_snoc mode sec off ops op :
  advance mode sec 0 0 ops = Ok off ->
  advance mode sec 0 0 (ops ++ [op])
  = (let? s := op_size (la_op op) off sec (length ops) mode in Ok (off + s)).
Proof.
  intros H. rewrite advance_app, H. simpl. by destruct (op_size _ _ _ _ _).
Qed.

(** * The parser's invariant *)

(** Registers fit their fields and alignments are powers of two. *)
Definition op_shape_ok (op : AsmOp) : Prop :=
  match op with
  | OpInstruction i => inst_wf i
  | OpAlign n => exists k, 0 <= k <= 16 /\ n = 2 ^ k
  | _ => True
  end.

Lemma parse_asm_op_shape line op : parse_asm_op line = Ok op -> op_shape_ok op.
Proof.
  unfold parse_asm_op, in_range.
  destruct (strip_prefix _ line); [intros H; inv_ok; by subst|].
  destruct (strip_prefix _ line); [intros H; inv_ok; by subst|].
  destruct (strip_prefix _ line); [intros H; inv_ok; by subst|].
  destruct (strip_prefix _ line).
  { intros H. inv_ok. subst. simpl. eexists; split; cycle 1; [apply Z.shiftl_1_l|lia]. }
  intros H. inv_ok. subst. simpl. by eapply parse_instruction_wf.
Qed.

Definition label_at (mode : BranchSizeMode) (ops : list LocatedAsmOp) (sec : SectionKind)
    (label : str) (off : Z) : Prop :=
  exists pre op post, ops = pre ++ op :: post /\ la_op op = OpLabel label /\
    advance mode sec 0 0 pre = Ok off.

(** Sizes are the laid-out sizes; a symbol is exactly a label of its section, at the offset
    where the label stands. *)
Record layout_inv (mode : BranchSizeMode) (ops : SectionKind -> list LocatedAsmOp)
    (size : SectionKind -> Z) (syms : gmap str SymbolDef) : Prop := {
  li_size : forall s, advance mode s 0 0 (ops s) = Ok (size s);
  li_sound : forall label sd, syms !! label = Some sd ->
    label_at mode (ops (sd_section sd)) (sd_section sd) label (sd_offset sd);
  li_complete : forall s pre op post label, ops s = pre ++ op :: post ->
    la_op op = OpLabel label ->
    exists sd, syms !! label = Some sd /\ sd_section sd = s /\
      advance mode s 0 0 pre = Ok (sd_offset sd);
  li_wf : forall s op, op ∈ ops s -> op_shape_ok (la_op op)
}.

Lemma snoc_split {A} (ops pre post : list A) x y :
  ops ++ [x] = pre ++ y :: post ->
  (post = [] /\ pre = ops /\ y = x) \/ (exists post', post = post' ++ [x] /\ ops = pre ++ y :: post').
Proof.
  intros H. destruct (decide (post = [])) as [->|Hne].
  - left. apply app_inj_2 in H as [-> [= ->]]; [done|done].
  - right. destruct (exists_last Hne) as (post' & z & ->).
    exists post'. rewrite app_comm_cons, app_assoc in H.
    apply app_inj_2 in H as [-> [= ->]]; [done|done].
Qed.

(** The three ways a line changes the state: not at all in what is laid out, a label at the
    current offset, or an operation of known size. *)
Inductive line_effect (mode : BranchSizeMode) (st : ParseState) : ParseState -> Prop :=
| effect_none st' :
    (forall s, ps_ops st' s = ps_ops st s) -> (forall s, ps_size st' s = ps_size st s) ->
    ps_symbols st' = ps_symbols st -> line_effect mode st st'
| effect_label st' label op sd :
    ps_symbols st !! label = None ->
    ps_symbols st' = <[label := sd]> (ps_symbols st) ->
    sd_section sd = ps_section st -> sd_offset sd = ps_size st (ps_section st) ->
    la_op op = OpLabel label ->
    (forall s, ps_ops st' s =
       if decide (s = ps_section st) then ps_ops st s ++ [op] else ps_ops st s) ->
    (forall s, ps_size st' s = ps_size st s) -> line_effect mode st st'
| effect_op st' op size :
    (forall label, la_op op <> OpLabel label) -> op_shape_ok (la_op op) ->
    op_size (la_op op) (ps_size st (ps_section st)) (ps_section st)
      (length (ps_ops st (ps_section st))) mode = Ok size ->
    ps_symbols st' = ps_symbols st ->
    (forall s, ps_ops st' s =
       if decide (s = ps_section st) then ps_ops st s ++ [op] else ps_ops st s) ->
    (forall s, ps_size st' s =
       if decide (s = ps_section st) then ps_size st s + size else ps_size st s) ->
    line_effect mode st st'.

Lemma push_op_ops st op size s :
  ps_ops (push_op st op size) s
  = if decide (s = ps_section st) then ps_ops st s ++ [op] else ps_ops st s.
Proof. unfold push_op. by destruct (ps_section st), s. Qed.

Lemma push_op_size st op size s :
  ps_size (push_op st op size) s
  = if decide (s = ps_section st) then ps_size st s + size else ps_size st s.
Proof. unfold push_op. by destruct (ps_section st), s. Qed.

Lemma push_op_symbols st op size : ps_symbols (push_op st op size) = ps_symbols st.
Proof. unfold push_op. by destruct (ps_section st). Qed.

Lemma parse_asm_op_not_label line op label : parse_asm_op line = Ok op -> op <> OpLabel label.
Proof.
  unfold parse_asm_op. intros H ->.
  repeat (destruct (strip_prefix _ line); [inv_ok; done|]). by inv_ok.
Qed.

Lemma parse_line_effect mode st line st' :
  parse_line mode st line = Ok st' -> line_effect mode st st'.
Proof.
  destruct line as [i line]. unfold parse_line.
  destruct (strip_comment line) as [[|c clean]|]; [by intros [= <-]; constructor| |
    by intros [= <-]; constructor].
  generalize (c :: clean) as text. intros text H. inv_ok. apply map_err_ok in E.
  destruct a as [sec|]; [inv_ok; subst; by constructor|].
  destruct (starts_with _ text || _); [inv_ok; subst; by constructor|].
  destruct (strip_prefix _ text); [inv_ok; subst; by constructor|].
  destruct (strip_suffix _ text) as [label|].
  - destruct (ps_symbols st !! trim label) eqn:El; [done|]. inv_ok. subst.
    eapply (effect_label _ _ _ (trim label)); [done| | | | |intros s; rewrite push_op_ops; by destruct s|].
    + by rewrite push_op_symbols.
    + done.
    + done.
    + done.
    + intros s. rewrite push_op_size. destruct s; simpl; destruct (decide _); by rewrite ?Z.add_0_r.
  - inv_ok. apply map_err_ok in E0, E1. subst.
    eapply effect_op; [| | | |apply push_op_ops|apply push_op_size]; cbn [la_op].
    + intros label. by apply (parse_asm_op_not_label text).
    + by apply (parse_asm_op_shape text).
    + done.
    + apply push_op_symbols.
Qed.

Lemma line_effect_inv mode st st' :
  line_effect mode st st' ->
  layout_inv mode (ps_ops st) (ps_size st) (ps_symbols st) ->
  layout_inv mode (ps_ops st') (ps_size st') (ps_symbols st').
Proof.
  intros Heff [H1 H2 H3 H4]. destruct Heff as
    [st' Hops Hsize Hsym|st' label op sd Hnew Hsym Hsec Hoff Hop Hops Hsize
    |st' op size Hnl Hshape Hsz Hsym Hops Hsize].
  - constructor; intros *; rewrite ?Hops, ?Hsize, ?Hsym; eauto.
  - constructor.
    + intros s. rewrite Hops, Hsize. destruct (decide _) as [->|]; [|done].
      rewrite (advance_snoc _ _ _ _ _ (H1 _)), Hop. simpl. by rewrite Z.add_0_r.
    + intros lbl d. rewrite Hsym, lookup_insert. destruct (decide (label = lbl)) as [<-|Hne].
      * intros [= <-]. rewrite Hops, Hsec, decide_True by done.
        exists (ps_ops st (ps_section st)), op, []. split; [done|]. split; [done|].
        by rewrite H1, Hoff.
      * intros Hd. destruct (H2 _ _ Hd) as (pre & o & post & Ho & Hl & Ha).
        rewrite Hops. destruct (decide _) as [Es|]; [|by exists pre, o, post].
        exists pre, o, (post ++ [op]). split_and!; [|done|done]. by rewrite Ho, <- app_assoc.
    + intros s pre o post lbl Ho Hl. rewrite Hops in Ho. rewrite Hsym.
      destruct (decide _) as [->|].
      * apply snoc_split in Ho as [(-> & -> & ->)|(post' & -> & Ho)].
        -- rewrite Hop in Hl. injection Hl as <-. exists sd. rewrite lookup_insert_eq.
           split; [done|]. split; [done|]. by rewrite H1, Hoff.
        -- destruct (H3 _ _ _ _ _ Ho Hl) as (d & Hd & ? & ?). exists d.
           rewrite lookup_insert_ne; [done|]. intros ->. congruence.
      * destruct (H3 _ _ _ _ _ Ho Hl) as (d & Hd & ? & ?). exists d.
        rewrite lookup_insert_ne; [done|]. intros ->. congruence.
    + intros s o. rewrite Hops. destruct (decide _); [|apply H4].
      intros [?|Hin]%elem_of_app; [by eapply H4|]. apply list_elem_of_singleton in Hin as ->.
      by rewrite Hop.
  - constructor.
    + intros s. rewrite Hops, Hsize. destruct (decide _) as [->|]; [|done].
      by rewrite (advance_snoc _ _ _ _ _ (H1 _)), Hsz.
    + intros lbl d. rewrite Hsym. intros Hd.
      destruct (H2 _ _ Hd) as (pre & o & post & Ho & Hl & Ha).
      rewrite Hops. destruct (decide _) as [Es|]; [|by exists pre, o, post].
      exists pre, o, (post ++ [op]). split_and!; [|done|done]. by rewrite Ho, <- app_assoc.
    + intros s pre o post lbl Ho Hl. rewrite Hops in Ho. rewrite Hsym.
      destruct (decide _) as [->|]; [|by eapply H3].
      apply snoc_split in Ho as [(-> & -> & ->)|(post' & -> & Ho)]; [by destruct (Hnl lbl)|].
      by eapply H3.
    + intros s o. rewrite Hops. destruct (decide _); [|apply H4].
      intros [?|Hin]%elem_of_app; [by eapply H4|]. by apply list_elem_of_singleton in Hin as ->.
Qed.

Lemma parsed_inv lines mode p :
  from_lines_with_branch_mode lines mode = Ok p ->
  layout_inv mode (section_ops p) (section_size p) (symbols p)
  /\ relaxed_text_branches p = default ∅ (mode_relaxed mode).
Proof.
  unfold from_lines_with_branch_mode. intros H. inv_ok. subst. simpl. split; [|done].
  cut (layout_inv mode (ps_ops a) (ps_size a) (ps_symbols a)).
  { intros [H1 H2 H3 H4]. constructor.
    - intros []; [apply (H1 Text)|apply (H1 Rodata)].
    - intros lbl sd Hl. specialize (H2 _ _ Hl). by destruct (sd_section sd).
    - intros [] *; [apply (H3 Text)|apply (H3 Rodata)].
    - intros []; [apply (H4 Text)|apply (H4 Rodata)]. }
  eapply (fold_result_inv
    (fun st => layout_inv mode (ps_ops st) (ps_size st) (ps_symbols st))); [| |exact E].
  - intros st x st' _ Hinv Hst. by eapply line_effect_inv, Hinv; eapply parse_line_effect.
  - constructor; simpl.
    + by intros [].
    + intros ??. by rewrite lookup_empty.
    + intros [] []; discriminate.
    + by intros [] ? ?%elem_of_nil.
Qed.

(** * Placement of the emitted bytes *)

(** Alignment directives of a section must divide the bias its output starts with. *)
Definition aligned_bias (bias : Z) (ops : list LocatedAsmOp) : Prop :=
  Forall (fun op => forall n, la_op op = OpAlign n -> bias mod n = 0) ops.

Lemma padding_for_bias k bias off :
  0 <= k -> bias mod 2 ^ k = 0 -> padding_for (bias + off) (2 ^ k) = padding_for off (2 ^ k).
Proof.
  intros Hk Hb. unfold padding_for. rewrite !align_up_pow2 by done.
  apply Z.mod_divide in Hb as [q ->]; [|lia].
  replace (q * 2 ^ k + off + 2 ^ k - 1) with (off + 2 ^ k - 1 + q * 2 ^ k) by lia.
  rewrite Z.div_add by lia. lia.
Qed.

Lemma padding_for_nonneg off k : 0 <= k -> 0 <= padding_for off (2 ^ k).
Proof. intros Hk. unfold padding_for. pose proof (align_up_spec off k Hk). simpl in *. lia. Qed.

Lemma li_sequence_size_nonneg imm s : li_sequence_size imm = Ok s -> 0 <= s.
Proof. unfold li_sequence_size. intros H. inv_ok. lia. Qed.

Lemma op_size_nonneg op off s idx mode size :
  op_shape_ok op -> op_size op off s idx mode = Ok size -> 0 <= size.
Proof.
  intros Hs H. destruct op as [| [] | | | |n]; cbn [op_size] in H;
    try (by apply li_sequence_size_nonneg in H);
    try (destruct mode; [|destruct (_ && _)]); inv_ok; subst; try lia.
  destruct Hs as (k & Hk & ->). apply padding_for_nonneg. lia.
Qed.

(** The bytes of one operation at offset [off] of its section: as many as the layout
    reserved, the encoding of an instruction at its address, and data verbatim. *)
Definition op_emits (p : ParsedAssembly) (s : SectionKind) (l : SectionLayout) (idx : nat)
    (off : Z) (op : LocatedAsmOp) (bytes : list Z) : Prop :=
  op_size (la_op op) off s idx (Exact (relaxed_text_branches p)) = Ok (Z.of_nat (length bytes)) /\
  match la_op op with
  | OpLabel _ => bytes = []
  | OpInstruction inst =>
      encode_instruction inst (section_base l s + off) (symbols p) l
        (bool_decide (s = Text) && bool_decide (idx ∈ relaxed_text_branches p)) = Ok bytes
  | OpWord w => bytes = word_bytes w
  | OpByte b => bytes = [b]
  | OpAscii data => bytes = data
  | OpAlign _ => bytes = replicate (length bytes) 0
  end.

Lemma encode_op_spec p s l bias out idx op out' off :
  op_shape_ok (la_op op) -> (forall n, la_op op = OpAlign n -> bias mod n = 0) -> 0 <= off ->
  Z.of_nat (length out) = bias + off -> encode_op p s l bias out (idx, op) = Ok out' ->
  exists bytes, out' = out ++ bytes /\ op_emits p s l idx off op bytes.
Proof.
  intros Hshape Hal Hoff Hlen H. unfold encode_op in H. unfold op_emits.
  destruct (la_op op) as [label|inst|w|b|bytes|n] eqn:Eop.
  - inv_ok. subst. exists []. by rewrite app_nil_r.
  - replace (Z.of_nat (length out) - bias) with off in H by lia. inv_ok.
    apply map_err_ok in E0. subst. exists a. split; [done|]. split; [|done].
    by eapply encode_instruction_length.
  - inv_ok. subst. eexists; split; [done|]. by rewrite length_word_bytes.
  - inv_ok. subst. by eexists.
  - inv_ok. subst. by eexists.
  - inv_ok. subst. unfold pad_to_alignment. eexists; split; [done|].
    rewrite length_replicate. split; [|done].
    destruct Hshape as (k & Hk & ->). specialize (Hal _ eq_refl).
    rewrite Hlen, padding_for_bias by (done || lia).
    pose proof (padding_for_nonneg off k ltac:(lia)). cbn [op_size]. f_equal. lia.
Qed.

(** Where the [i]-th operation of a section ends up in its code. *)
Definition placed_at (p : ParsedAssembly) (s : SectionKind) (l : SectionLayout) (code : list Z)
    (off : Z) (idx : nat) (op : LocatedAsmOp) : Prop :=
  exists before bytes after, code = before ++ bytes ++ after /\
    Z.of_nat (length before) = off /\ op_emits p s l idx off op bytes.

Lemma encode_ops_spec p s l bias ops : forall idx out out' off,
  Forall (fun op => op_shape_ok (la_op op)) ops -> aligned_bias bias ops -> 0 <= off ->
  Z.of_nat (length out) = bias + off ->
  fold_result (encode_op p s l bias) out (enumerate_from idx ops) = Ok out' ->
  exists code, out' = out ++ code /\
    advance (Exact (relaxed_text_branches p)) s idx off ops = Ok (off + Z.of_nat (length code)) /\
    (forall pre op post, ops = pre ++ op :: post -> exists o,
       advance (Exact (relaxed_text_branches p)) s idx off pre = Ok (off + o) /\
       exists before bytes after, code = before ++ bytes ++ after /\
         Z.of_nat (length before) = o /\ op_emits p s l (idx + length pre) (off + o) op bytes).
Proof.
  induction ops as [|op ops IH]; intros idx out out' off Hs Ha Hoff Hlen H; simpl in H.
  { injection H as <-. exists []. rewrite app_nil_r. simpl. rewrite Z.add_0_r.
    split_and!; [done|done|]. intros [] * ?; done. }
  apply Forall_cons_1 in Hs as [Hs1 Hs2]. apply Forall_cons_1 in Ha as [Ha1 Ha2].
  inv_ok. destruct (encode_op_spec _ _ _ _ _ _ _ _ _ Hs1 Ha1 Hoff Hlen E) as (b & -> & Hb).
  pose proof Hb as [Hsz _].
  destruct (IH (S idx) (out ++ b) out' (off + Z.of_nat (length b))) as (code & -> & Hadv & Hpl);
    [done|done|lia|rewrite length_app; lia|done|].
  exists (b ++ code). rewrite app_assoc. split; [done|]. cbn [advance]. rewrite Hsz. split.
  { rewrite Hadv, length_app. f_equal. lia. }
  intros pre o post Hsplit. destruct pre as [|x pre]; simpl in Hsplit; injection Hsplit as <- ->.
  - exists 0. simpl. split; [f_equal; lia|]. exists [], b, code.
    rewrite Z.add_0_r, Nat.add_0_r. done.
  - destruct (Hpl pre o post eq_refl) as (o' & Hadv' & be & bs & af & Hcode & Hbe & Hi').
    exists (Z.of_nat (length b) + o'). cbn [advance]. rewrite Hsz, Hadv'. split; [f_equal; lia|].
    exists (b ++ be), bs, af. rewrite Hcode, <- app_assoc, length_app. split; [done|].
    split; [lia|]. cbn [length]. rewrite Nat.add_succ_r, Z.add_assoc. done.
Qed.

Lemma section_emission lines R p s l out out' :
  from_lines_with_branch_mode lines (Exact R) = Ok p ->
  aligned_bias (Z.of_nat (length out)) (section_ops p s) ->
  encode_section p s out l (Z.of_nat (length out)) = Ok out' ->
  exists code, out' = out ++ code /\ Z.of_nat (length code) = section_size p s /\
    forall i op, section_ops p s !! i = Some op -> exists off,
      advance (Exact R) s 0 0 (take i (section_ops p s)) = Ok off /\
      placed_at p s l code off i op /\
      (forall label, la_op op = OpLabel label ->
         symbol_address (symbols p) label l = Ok (section_base l s + off)).
Proof.
  intros Hp Ha He. destruct (parsed_inv _ _ _ Hp) as [[H1 H2 H3 H4] HR]. simpl in HR.
  unfold encode_section in He.
  destruct (encode_ops_spec p s l (Z.of_nat (length out)) (section_ops p s) 0 out out' 0)
    as (code & -> & Hadv & Hpl); [|done|lia|lia|done|].
  { apply Forall_forall. intros op Hop. by apply (H4 s). }
  exists code. split; [done|]. rewrite HR, H1 in Hadv. injection Hadv as ->. split; [lia|].
  intros i op Hi. pose proof (list_elem_of_split_length _ _ _ Hi) as (pre & post & Hsplit & Hlen).
  subst i. destruct (Hpl pre op post Hsplit) as (o & Hpre & be & bs & af & Hcode & Hbe & Hin).
  rewrite !Z.add_0_l, !Nat.add_0_l in *.
  exists o. assert (take (length pre) (section_ops p s) = pre) as ->
    by (rewrite Hsplit; apply take_app_length).
  rewrite HR in Hpre. split; [done|]. split; [by exists be, bs, af|].
  intros label Hl. destruct (H3 _ _ _ _ _ Hsplit Hl) as (sd & Hsd & Hsec & Hoff).
  unfold symbol_address. rewrite Hsd, Hsec. f_equal. congruence.
Qed.

(** * Two layouts of the same lines *)

(** Layouts of the same text under two modes differ only in sizes and offsets. *)
Record same_text (a b : ParseState) : Prop := {
  st_section : ps_section a = ps_section b;
  st_ops : forall s, ps_ops a s = ps_ops b s;
  st_symbols : forall label,
    (fun sd => (sd_section sd, sd_line sd)) <$> (ps_symbols a !! label)
    = (fun sd => (sd_section sd, sd_line sd)) <$> (ps_symbols b !! label);
  st_globals : ps_globals a = ps_globals b;
  st_entry : ps_entry_label a = ps_entry_label b;
  st_fallback : ps_fallback_entry a = ps_fallback_entry b
}.

Lemma op_size_any_mode op o1 o2 s idx m1 m2 a :
  op_size op o1 s idx m1 = Ok a -> exists b, op_size op o2 s idx m2 = Ok b.
Proof.
  destruct op as [| [] | | | |]; cbn [op_size]; try (by eauto);
    intros _; destruct m2; try destruct (_ && _); eauto.
Qed.

Lemma same_text_push a b op1 op2 s1 s2 :
  same_text a b -> op1 = op2 -> same_text (push_op a op1 s1) (push_op b op2 s2).
Proof.
  intros [H1 H2 H3 H4 H5 H6] ->.
  pose proof (H2 Text) as Ht. pose proof (H2 Rodata) as Hr. simpl in Ht, Hr.
  constructor.
  - unfold push_op. rewrite H1. by destruct (ps_section b).
  - intros s. rewrite !push_op_ops, H1, (H2 s). done.
  - intros. by rewrite !push_op_symbols.
  - unfold push_op. rewrite H1. by destruct (ps_section b).
  - unfold push_op. rewrite H1. by destruct (ps_section b).
  - unfold push_op. rewrite H1. by destruct (ps_section b).
Qed.

Lemma same_text_label a b label n :
  same_text a b -> same_text (define_label a label n) (define_label b label n).
Proof.
  intros [H1 H2 H3 H4 H5 H6].
  pose proof (H2 Text) as Ht. pose proof (H2 Rodata) as Hr. simpl in Ht, Hr.
  constructor; simpl.
  - done.
  - by intros [].
  - intros lbl. rewrite !lookup_insert. case_decide; [|apply H3]. simpl. by rewrite H1.
  - done.
  - by rewrite H1, H4, H5.
  - by rewrite H1, H4, H6.
Qed.

Lemma parse_line_same m1 m2 a b line a' :
  same_text a b -> parse_line m1 a line = Ok a' ->
  exists b', parse_line m2 b line = Ok b' /\ same_text a' b'.
Proof.
  intros Hst. pose proof Hst as [H1 H2 H3 H4 H5 H6].
  pose proof (H2 Text) as Ht. pose proof (H2 Rodata) as Hr. simpl in Ht, Hr.
  destruct line as [i line]. unfold parse_line.
  destruct (strip_comment line) as [[|c clean]|];
    [by intros [= <-]; eauto| |by intros [= <-]; eauto].
  generalize (c :: clean) as text. intros text.
  rewrite <- H1, <- (H2 (ps_section a)).
  destruct (map_err _ (parse_section_directive text)) as [[sec|]|]; [|  |done].
  { intros H. inv_ok. subst. eexists; split; [done|]. by constructor. }
  destruct (starts_with _ text || _); [intros H; inv_ok; subst; eauto|].
  destruct (strip_prefix _ text).
  { intros H. inv_ok. subst. eexists; split; [done|].
    constructor; simpl; try done. by rewrite H4. }
  destruct (strip_suffix _ text) as [label|].
  - specialize (H3 (trim label)).
    destruct (ps_symbols a !! trim label); [done|].
    destruct (ps_symbols b !! trim label); [done|].
    intros H. inv_ok. subst. eexists; split; [done|]. apply same_text_push; [|done].
    by apply same_text_label.
  - destruct (map_err _ (parse_asm_op text)) as [op|]; [|done].
    intros H. inv_ok. apply map_err_ok in E. subst.
    destruct (op_size_any_mode _ _ (ps_size b (ps_section a)) _ _ _ m2 _ E) as [sz Hsz].
    rewrite Hsz. eexists; split; [done|]. by apply same_text_push.
Qed.

Lemma parse_lines_same m1 m2 lines : forall a b a',
  same_text a b -> fold_result (parse_line m1) a lines = Ok a' ->
  exists b', fold_result (parse_line m2) b lines = Ok b' /\ same_text a' b'.
Proof.
  induction lines as [|x lines IH]; intros a b a' Hst H; simpl in H; [injection H as <-; by eauto|].
  inv_ok. destruct (parse_line_same m1 m2 _ _ _ _ Hst E) as (b1 & Hb1 & Hst1).
  simpl. rewrite Hb1. by eapply IH.
Qed.

Lemma same_text_refl a : same_text a a.
Proof. by constructor. Qed.

(** Assembling the same lines under another branch-size mode succeeds as well and yields
    the same operations. *)
Lemma from_lines_same m1 m2 lines p1 :
  from_lines_with_branch_mode lines m1 = Ok p1 ->
  exists p2, from_lines_with_branch_mode lines m2 = Ok p2 /\
    (forall s, section_ops p1 s = section_ops p2 s) /\
    entry_label p1 = entry_label p2 /\ globals p1 = globals p2.
Proof.
  unfold from_lines_with_branch_mode. intros H. inv_ok. subst.
  destruct (parse_lines_same m1 m2 _ _ _ _ (same_text_refl _) E) as (b & -> & [H1 H2 H3 H4 H5 H6]).
  eexists; split; [done|]. simpl. split_and!.
  - intros []; [apply (H2 Text)|apply (H2 Rodata)].
  - by rewrite H5, H6.
  - done.
Qed.

(** * Branch relaxation *)

(** What the code generator puts in [.text]: labels and instructions. *)
Definition is_code (op : LocatedAsmOp) : Prop :=
  match la_op op with OpLabel _ | OpInstruction _ => True | _ => False end.
Definition code_only (ops : list LocatedAsmOp) : Prop := Forall is_code ops.

Lemma code_only_aligned bias ops : code_only ops -> aligned_bias bias ops.
Proof.
  intros H. eapply Forall_impl; [exact H|].
  intros op Hop n E. unfold is_code in Hop. by rewrite E in Hop.
Qed.

Lemma op_size_code op o1 o2 s idx R c e :
  is_code op -> op_size (la_op op) o1 s idx Conservative = Ok c ->
  op_size (la_op op) o2 s idx (Exact R) = Ok e -> 0 <= e <= c /\ e mod 4 = 0.
Proof.
  unfold is_code. destruct (la_op op) as [| [] | | | |]; try done; intros _; cbn [op_size];
    intros Hc He;
    try (destruct (bool_decide (s = Text) && bool_decide (idx ∈ R))); inv_ok; subst;
    try (split; [lia|done]).
  all: unfold li_sequence_size in Hc, He; inv_ok; subst; split; [lia|]; by rewrite Z.mod_mul.
Qed.

Lemma advance_code s idx R ops : forall o1 o2 c e,
  code_only ops -> advance Conservative s idx o1 ops = Ok c ->
  advance (Exact R) s idx o2 ops = Ok e ->
  0 <= e - o2 <= c - o1 /\ (e - o2) mod 4 = 0.
Proof.
  revert idx. induction ops as [|op ops IH]; intros idx o1 o2 c e Hc H1 H2; simpl in H1, H2.
  { inv_ok. subst. by rewrite !Z.sub_diag. }
  apply Forall_cons_1 in Hc as [Hop Hc]. inv_ok.
  destruct (op_size_code _ _ _ _ _ _ _ _ Hop E0 E) as [Hle Hm].
  destruct (IH _ _ _ _ _ Hc H1 H2) as [Hle' Hm']. split; [lia|].
  replace (e - o2) with (a + (e - (o2 + a))) by lia.
  by rewrite Z.add_mod, Hm, Hm' by lia.
Qed.

Lemma relax_fold p l ops : forall idx R0 off R off',
  fold_result (relax_step p l) (R0, off) (enumerate_from idx ops) = Ok (R, off') ->
  R0 ⊆ R /\
  (forall pre op post inst, ops = pre ++ op :: post -> la_op op = OpInstruction inst ->
     conditional_branch_parts inst <> None -> (idx + length pre)%nat ∉ R ->
     exists target o d, branch_target inst (symbols p) l = Ok target /\
       advance Conservative Text idx off pre = Ok o /\
       relative_offset (text_user_base l + o) target = Ok d /\ signed_bits_fit d 13 = true).
Proof.
  induction ops as [|op ops IH]; intros idx R0 off R off' H; simpl in H.
  { inv_ok. subst. split; [done|]. intros [] * ?; done. }
  inv_ok. destruct a as [R1 off1]. apply IH in H as [Hsub Hrest].
  unfold relax_step in E. inv_ok. subst. apply map_err_ok in E1.
  assert (R0 ⊆ R1) as Hsub1.
  { destruct (la_op op); try (inv_ok; by subst).
    destruct (conditional_branch_parts inst); inv_ok; subst; [|done].
    destruct (negb _); inv_ok; subst; set_solver. }
  split; [set_solver|]. intros pre o post inst Hsplit Hinst Hcond Hni.
  destruct pre as [|x pre]; simpl in Hsplit; injection Hsplit as <- ->.
  - simpl in Hni. rewrite Nat.add_0_r in Hni. rewrite Hinst in E0.
    destruct (conditional_branch_parts inst); [|done]. inv_ok.
    apply map_err_ok in E, E2. destruct (negb _) eqn:Efit.
    { inv_ok. subst. exfalso. apply Hni, Hsub. set_solver. }
    apply negb_false_iff in Efit. simpl. eauto 10.
  - destruct (Hrest pre o post inst eq_refl Hinst Hcond) as (t & o' & d & Ht & Ho' & Hd & Hf).
    { intros Hin. apply Hni. simpl. by rewrite Nat.add_succ_r. }
    exists t, o', d. split; [done|]. split; [|done]. simpl. by rewrite E1.
Qed.

(** Distances between two positions of the same code shrink from the conservative to the
    exact layout, keep their sign and stay multiples of four. *)
Lemma distance_shrinks s R ops pre1 post1 pre2 post2 c1 c2 e1 e2 :
  code_only ops -> ops = pre1 ++ post1 -> ops = pre2 ++ post2 ->
  advance Conservative s 0 0 pre1 = Ok c1 -> advance Conservative s 0 0 pre2 = Ok c2 ->
  advance (Exact R) s 0 0 pre1 = Ok e1 -> advance (Exact R) s 0 0 pre2 = Ok e2 ->
  (0 <= e2 - e1 <= c2 - c1 \/ c2 - c1 <= e2 - e1 <= 0) /\ (e2 - e1) mod 4 = 0.
Proof.
  assert (forall pre1 mid post c1 c2 e1 e2, code_only (pre1 ++ mid ++ post) ->
    advance Conservative s 0 0 pre1 = Ok c1 -> advance Conservative s 0 0 (pre1 ++ mid) = Ok c2 ->
    advance (Exact R) s 0 0 pre1 = Ok e1 -> advance (Exact R) s 0 0 (pre1 ++ mid) = Ok e2 ->
    0 <= e2 - e1 <= c2 - c1 /\ (e2 - e1) mod 4 = 0) as Hfwd.
  { intros p1 mid post d1 d2 f1 f2 [_ [Hmid _]%Forall_app]%Forall_app H1 H2 H3 H4.
    rewrite advance_app, H1 in H2. rewrite advance_app, H3 in H4. by eapply advance_code. }
  intros Hc E1 E2 H1 H2 H3 H4. rewrite E1 in E2.
  destruct (app_eq_app _ _ _ _ E2) as (mid & [[-> ->]|[-> ->]]).
  - assert (code_only (pre2 ++ mid ++ post1)) as Hc' by (by rewrite E1, <- app_assoc in Hc).
    destruct (Hfwd _ _ _ _ _ _ _ Hc' H2 H1 H4 H3) as [? Hm]. split; [lia|].
    replace (e2 - e1) with (- (e1 - e2)) by lia. by apply Z_mod_zero_opp_full.
  - assert (code_only (pre1 ++ mid ++ post2)) as Hc' by (by rewrite E1 in Hc).
    destruct (Hfwd _ _ _ _ _ _ _ Hc' H1 H2 H3 H4) as [? Hm]. split; [lia|done].
Qed.

(** The layout that [from_lines_relaxed] returns is an exact layout of the same lines. *)
Lemma from_lines_relaxed_inv lines l p :
  from_lines_relaxed lines l = Ok p ->
  exists pc, from_lines_with_branch_mode lines Conservative = Ok pc /\
    relaxed_branch_indices pc l = Ok (relaxed_text_branches p) /\
    from_lines_with_branch_mode lines (Exact (relaxed_text_branches p)) = Ok p /\
    (forall s, section_ops pc s = section_ops p s).
Proof.
  unfold from_lines_relaxed. intros H. inv_ok.
  destruct (parsed_inv _ _ _ H) as [_ HR]. simpl in HR. subst.
  exists a. split_and!; [done|done|done|].
  destruct (from_lines_same Conservative (Exact (relaxed_text_branches p)) _ _ E)
    as (p2 & Hp2 & Hops & _).
  rewrite H in Hp2. by injection Hp2 as <-.
Qed.

Lemma branch_in_range lines l0 p i op inst rs1 rs2 label f3 sd off l :
  from_lines_relaxed lines l0 = Ok p -> code_only (text_ops p) ->
  text_ops p !! i = Some op -> la_op op = OpInstruction inst ->
  conditional_branch_parts inst = Some (rs1, rs2, label, f3) ->
  i ∉ relaxed_text_branches p -> symbols p !! label = Some sd -> sd_section sd = Text ->
  advance (Exact (relaxed_text_branches p)) Text 0 0 (take i (text_ops p)) = Ok off ->
  exists d, relative_offset (text_user_base l + off) (text_user_base l + sd_offset sd) = Ok d /\
    -4096 <= d < 4096 /\ d mod 2 = 0.
Proof.
  intros Hp Hcode Hi Hop Hcond Hni Hsd Hsec Hoff.
  destruct (from_lines_relaxed_inv _ _ _ Hp) as (pc & Hpc & Hrel & Hpe & Hops).
  pose proof (Hops Text) as Ht. simpl in Ht.
  destruct (parsed_inv _ _ _ Hpc) as [[_ _ C3 _] _]. destruct (parsed_inv _ _ _ Hpe) as [[_ E2 _ _] _].
  destruct (list_elem_of_split_length _ _ _ Hi) as (pre & post & Hsplit & ->).
  rewrite Hsplit, take_app_length in Hoff.
  destruct (E2 _ _ Hsd) as (lpre & lop & lpost & Hl1 & Hl2 & Hl3). rewrite Hsec in Hl1, Hl3.
  simpl in Hl1.
  destruct (C3 Text lpre lop lpost label) as (sdc & Hsdc & Hsecc & Hoffc);
    [simpl; congruence|done|].
  unfold relaxed_branch_indices in Hrel. inv_ok. subst. rewrite Ht in E.
  apply relax_fold in E as [_ Hfit].
  destruct (Hfit pre op post inst Hsplit Hop) as (t & o & d & Htgt & Ho & Hd & Hf);
    [congruence|done|].
  unfold branch_target, symbol_address in Htgt. rewrite Hcond, Hsdc, Hsecc in Htgt.
  injection Htgt as <-. unfold relative_offset in Hd. inv_ok. simpl in Hd.
  destruct (distance_shrinks Text (relaxed_text_branches p) (text_ops p) pre (op :: post) lpre
    (lop :: lpost) o (sd_offset sdc) off (sd_offset sd)) as [Hsh Hm]; try done.
  apply signed_bits_fit_iff in Hf; [|lia]. pow2_consts.
  exists (sd_offset sd - off). unfold relative_offset, in_range, I64_MIN, I64_MAX.
  replace (text_user_base l + sd_offset sd - (text_user_base l + off))
    with (sd_offset sd - off) by lia.
  assert (-4096 <= sd_offset sd - off < 4096) as Hr by lia.
  destruct (_ && _) eqn:Eb; [|lia]. split; [done|]. split; [lia|zdivmod].
Qed.

Lemma conditional_regs inst rs1 rs2 label f3 :
  inst_wf inst -> conditional_branch_parts inst = Some (rs1, rs2, label, f3) ->
  reg_ok rs1 /\ reg_ok rs2 /\ (f3 = 0 \/ f3 = 1 \/ f3 = 4 \/ f3 = 5 \/ f3 = 6 \/ f3 = 7).
Proof.
  intros Hwf H. destruct inst; try discriminate; injection H as <- <- <- <-;
    unfold inst_wf in Hwf; cbn [inst_regs] in Hwf; repeat (apply Forall_cons_1 in Hwf as [? Hwf]);
    unfold reg_ok in *; lia.
Qed.

(** C11.  Branch relaxation is sound: in the layout the assembler chooses for a text section of
    labels and instructions, every conditional branch it leaves in the short four-byte form
    whose target is a text label is encodable (its distance in the final layout fits the
    13-bit field and is even), so emission never fails on it and emits one word. *)
Theorem relaxation_sound lines l0 p i op inst rs1 rs2 label f3 sd off l :
  from_lines_relaxed lines l0 = Ok p -> code_only (text_ops p) ->
  text_ops p !! i = Some op -> la_op op = OpInstruction inst ->
  conditional_branch_parts inst = Some (rs1, rs2, label, f3) ->
  i ∉ relaxed_text_branches p -> symbols p !! label = Some sd -> sd_section sd = Text ->
  advance (Exact (relaxed_text_branches p)) Text 0 0 (take i (text_ops p)) = Ok off ->
  exists bytes, encode_instruction inst (text_user_base l + off) (symbols p) l false = Ok bytes
    /\ length bytes = 4%nat.
Proof.
  intros Hp Hcode Hi Hop Hcond Hni Hsd Hsec Hoff.
  destruct (branch_in_range _ _ _ _ _ _ _ _ _ _ _ _ l Hp Hcode Hi Hop Hcond Hni Hsd Hsec Hoff)
    as (d & Hd & Hrange & Heven).
  destruct (from_lines_relaxed_inv _ _ _ Hp) as (pc & _ & _ & Hpe & _).
  destruct (parsed_inv _ _ _ Hpe) as [[_ _ _ Hwf] _].
  assert (inst_wf inst) as Hinst.
  { specialize (Hwf Text op). rewrite Hop in Hwf. apply Hwf, list_elem_of_lookup. eauto. }
  destruct (conditional_regs _ _ _ _ _ Hinst Hcond) as (Hr1 & Hr2 & Hf3).
  assert (exists w, encode_b_type 0x63 f3 rs1 rs2 d = Ok w) as [w Hw].
  { eexists. apply encode_b_type_ok; [lia|lia|done|done|].
    split; [lia|]. split; [done|reflexivity]. }
  exists (word_bytes w). rewrite length_word_bytes. split; [|done].
  assert (encode_branch inst (text_user_base l + off) (symbols p) l false = Ok (word_bytes w)) as He.
  { unfold encode_branch, symbol_address. rewrite Hcond, Hsd, Hsec. simpl section_base.
    by rewrite Hd, Hw. }
  destruct inst; try discriminate Hcond; exact He.
Qed.

Lemma relaxation_sound_witness :
  exists p op inst sd bytes,
    from_lines_relaxed sample_lines (for_text_user_size 40) = Ok p /\
    text_ops p !! 1%nat = Some op /\ la_op op = OpInstruction inst /\
    conditional_branch_parts inst = Some (10, 0, sample_end, 0) /\
    symbols p !! sample_end = Some sd /\
    encode_instruction inst (text_user_base (for_text_user_size 40) + 0) (symbols p)
      (for_text_user_size 40) false = Ok bytes /\ length bytes = 4%nat.
Proof.
  eexists _, _, _, _.
  pose proof (fun p op inst sd => relaxation_sound sample_lines (for_text_user_size 40) p 1 op inst
    10 0 (sample_end) 0 sd 0 (for_text_user_size 40)) as Hthm.
  edestruct Hthm as (bytes & Hb & Hl); cycle 9.
  { exists bytes. split; [vm_compute; reflexivity|]. split; [vm_compute; reflexivity|].
    split; [vm_compute; reflexivity|]. split; [vm_compute; reflexivity|].
    split; [vm_compute; reflexivity|]. split; [exact Hb|exact Hl]. }
  all: try (vm_compute; reflexivity).
  - vm_compute. repeat constructor.
  - vm_compute. intros H. inversion H.
Defined.
