(* ===== verification/MachineCfg.v ===== *)
(** Machine blocks and their control-flow graph (src/codegen/assembler.rs): how the text
    section is cut into blocks, the edges between them, the checks that the blocks cover the
    section and that the layout order is a permutation, the reachability pass and the
    metrics.  The theorems say that the block structure describes the text exactly, so the
    checks are redundant, and that the edges are the control transfers of the code. *)

From Stdlib Require Import ZArith Lia.
From stdpp Require Import base numbers list option tactics gmap sets relations.
From S2P Require Import Prelude RustStr Diag Rv64 Immediate Asm Layout LayoutFacts.

Open Scope Z_scope.

(** * Data *)

Record TextOpLayout := { tl_op_index : nat; tl_offset : Z; tl_size : Z }.

Inductive MachineTerminator :=
| Fallthrough
| TJump (target : str)
| ConditionalBranch (target : str)
| Return.

Record MachineBlock := {
  mb_label : option str;
  op_start : nat;
  op_end : nat;
  byte_start : Z;
  byte_size : Z;
  terminator : MachineTerminator
}.

Inductive MachineCfgEdgeKind :=
| EFallthrough
| EJump
| EConditionalTaken
| EConditionalFallthrough
| ECall.

#[export] Instance MachineCfgEdgeKind_eq_dec : EqDecision MachineCfgEdgeKind.
Proof. solve_decision. Defined.

Record MachineCfgEdge := { from : nat; to : nat; kind : MachineCfgEdgeKind }.

Record MachineCfg := { blocks : list MachineBlock; edges : list MachineCfgEdge }.

Record MachineBlockCoverage := { cov_executable : nat; cov_covered : nat }.

Record MachinePlacedBlock := { pb_block_index : nat; pb_byte_start : Z; pb_byte_size : Z }.

Record MachineLayoutOrder := {
  block_order : list nat;
  placed_blocks : list MachinePlacedBlock;
  order_text_size : Z
}.

Record BackendLayoutMetrics := {
  m_text_size : Z;
  m_rodata_size : Z;
  executable_text_op_count : nat;
  covered_text_op_count : nat;
  relaxed_branch_count : nat;
  max_cond_branch_abs_distance : Z;
  machine_block_count : nat;
  max_machine_block_size : Z;
  conditional_branch_block_count : nat;
  labeled_machine_block_count : nat;
  machine_cfg_edge_count : nat;
  machine_call_edge_count : nat;
  m_unreachable : nat;
  layout_order_block_count : nat;
  layout_order_text_size : Z
}.

(** * Blocks *)

(** [text_ops[a..b]]. *)
Definition slice {A} (l : list A) (a b : nat) : list A := take (b - a) (drop a l).

Definition is_label (op : LocatedAsmOp) : bool :=
  match la_op op with OpLabel _ => true | _ => false end.

Definition block_has_executable_ops (ops : list LocatedAsmOp) : bool :=
  existsb (fun op => negb (is_label op)) ops.

Definition instruction_terminator (op : LocatedAsmOp) : option MachineTerminator :=
  match la_op op with
  | OpInstruction (Jump label) => Some (TJump label)
  | OpInstruction Ret => Some Return
  | OpInstruction inst =>
      match conditional_branch_parts inst with
      | Some (_, _, label, _) => Some (ConditionalBranch label)
      | None => None
      end
  | _ => None
  end.

Definition text_op_layouts (p : ParsedAssembly) : Result (list TextOpLayout) :=
  let? (layouts, _) := fold_result (fun (acc : list TextOpLayout * Z) numbered =>
      let (layouts, offset) := acc in
      let (op_index, op) := (numbered : nat * LocatedAsmOp) in
      let? size := map_err (attach (la_provenance op))
        (op_size (la_op op) offset Text op_index (Exact (relaxed_text_branches p))) in
      Ok (layouts ++ [{| tl_op_index := op_index; tl_offset := offset; tl_size := size |}],
          offset + size))
    ([], 0) (enumerate (text_ops p)) in
  Ok layouts.

(** [iter().rev().find_map(f)]. *)
Definition rev_find_map {A B} (f : A -> option B) (l : list A) : option B :=
  head (omap f (rev l)).

Definition build_machine_block (ops : list LocatedAsmOp) (layouts : list TextOpLayout)
    (start stop : nat) (label : option str) : MachineBlock :=
  let byte_start := from_option tl_offset 0 (layouts !! start) in
  let byte_end :=
    match stop with
    | O => byte_start
    | S last => from_option (fun t => tl_offset t + tl_size t) byte_start (layouts !! last)
    end in
  {| mb_label := label; op_start := start; op_end := stop; byte_start := byte_start;
     byte_size := sat_sub_u64 byte_end byte_start;
     terminator :=
       default Fallthrough (rev_find_map instruction_terminator (slice ops start stop)) |}.

(** The loop of [machine_blocks]: the blocks built so far, the start of the open block and
    its first label. *)
Record BlockState := {
  bs_blocks : list MachineBlock;
  bs_start : nat;
  bs_label : option str
}.

Definition block_step (ops : list LocatedAsmOp) (layouts : list TextOpLayout)
    (st : BlockState) (numbered : nat * LocatedAsmOp) : BlockState :=
  let (op_index, op) := numbered in
  match la_op op with
  | OpLabel label =>
      let st' :=
        if block_has_executable_ops (slice ops (bs_start st) op_index)
        then {| bs_blocks := bs_blocks st ++
                  [build_machine_block ops layouts (bs_start st) op_index (bs_label st)];
                bs_start := op_index; bs_label := None |}
        else st in
      {| bs_blocks := bs_blocks st'; bs_start := bs_start st';
         bs_label := match bs_label st' with None => Some label | some => some end |}
  | _ =>
      match instruction_terminator op with
      | Some _ =>
          {| bs_blocks := bs_blocks st ++
               [build_machine_block ops layouts (bs_start st) (S op_index) (bs_label st)];
             bs_start := S op_index; bs_label := None |}
      | None => st
      end
  end.

Definition machine_blocks (p : ParsedAssembly) : Result (list MachineBlock) :=
  let? layouts := text_op_layouts p in
  let ops := text_ops p in
  let st := fold_left (block_step ops layouts) (enumerate ops)
              {| bs_blocks := []; bs_start := 0%nat; bs_label := None |} in
  if (bs_start st <? length ops)%nat
     && block_has_executable_ops (slice ops (bs_start st) (length ops))
  then Ok (bs_blocks st
           ++ [build_machine_block ops layouts (bs_start st) (length ops) (bs_label st)])
  else Ok (bs_blocks st).

(** * Edges *)

(** [iter().enumerate().find(|(_, b)| pred b)]: the index of the first match. *)
Fixpoint find_index_from {A} (f : A -> bool) (k : nat) (l : list A) : option nat :=
  match l with
  | [] => None
  | x :: l' => if f x then Some k else find_index_from f (S k) l'
  end.

Definition machine_label_to_block (p : ParsedAssembly) (bs : list MachineBlock) : gmap str nat :=
  omap (fun symbol =>
      match sd_section symbol with
      | Text => find_index_from (fun b => byte_start b =? sd_offset symbol) 0 bs
      | Rodata => None
      end) (symbols p).

Definition machine_cfg_target_block (p : ParsedAssembly) (target : str)
    (label_to_block : gmap str nat) (block_index op_index : nat) : Result nat :=
  match label_to_block !! target with
  | Some b => Ok b
  | None =>
      let error := new_error (MTargetNotBlock target block_index op_index) in
      Err (match text_ops p !! op_index with
           | Some op => attach (la_provenance op) error
           | None => error
           end)
  end.

Definition machine_block_call_targets (p : ParsedAssembly) (b : MachineBlock) : list str :=
  omap (fun op => match la_op op with OpInstruction (Call label) => Some label | _ => None end)
    (slice (text_ops p) (op_start b) (op_end b)).

Definition call_edges (p : ParsedAssembly) (label_to_block : gmap str nat) (index : nat)
    (b : MachineBlock) : list MachineCfgEdge :=
  omap (fun target => (fun t => {| from := index; to := t; kind := ECall |})
                      <$> (label_to_block !! target))
    (machine_block_call_targets p b).

Definition block_edges (p : ParsedAssembly) (label_to_block : gmap str nat) (block_count : nat)
    (acc : list MachineCfgEdge) (numbered : nat * MachineBlock) : Result (list MachineCfgEdge) :=
  let (index, block) := numbered in
  let acc := acc ++ call_edges p label_to_block index block in
  let next k :=
    if (index + 1 <? block_count)%nat
    then [{| from := index; to := (index + 1)%nat; kind := k |}] else [] in
  let op_index := (op_end block - 1)%nat in
  match terminator block with
  | Fallthrough => Ok (acc ++ next EFallthrough)
  | TJump target =>
      let? t := machine_cfg_target_block p target label_to_block index op_index in
      Ok (acc ++ [{| from := index; to := t; kind := EJump |}])
  | ConditionalBranch target =>
      let? t := machine_cfg_target_block p target label_to_block index op_index in
      Ok (acc ++ [{| from := index; to := t; kind := EConditionalTaken |}]
              ++ next EConditionalFallthrough)
  | Return => Ok acc
  end.

Definition machine_cfg (p : ParsedAssembly) : Result MachineCfg :=
  let? bs := machine_blocks p in
  let label_to_block := machine_label_to_block p bs in
  let? es := fold_result (block_edges p label_to_block (length bs)) [] (enumerate bs) in
  Ok {| blocks := bs; edges := es |}.

(** * Checks *)

(** Insert one operation's index into the covered set; labels are skipped. *)
Definition cover_op (ops : list LocatedAsmOp) (covered : gset nat) (op_index : nat)
  : Result (gset nat) :=
  if from_option is_label false (ops !! op_index) then Ok covered
  else if decide (op_index ∈ covered) then fail (MBlockOverlap op_index)
  else Ok ({[op_index]} ∪ covered).

Definition cover_block (ops : list LocatedAsmOp) (covered : gset nat) (b : MachineBlock)
  : Result (gset nat) :=
  if (op_end b <=? op_start b)%nat || (length ops <? op_end b)%nat
  then fail (MBlockRange (op_start b) (op_end b))
  else if negb (block_has_executable_ops (slice ops (op_start b) (op_end b)))
  then fail MBlockEmpty
  else fold_result (cover_op ops) covered (seq (op_start b) (op_end b - op_start b)).

Definition validate_machine_block_coverage (p : ParsedAssembly) (cfg : MachineCfg)
  : Result MachineBlockCoverage :=
  let ops := text_ops p in
  let executable := length (filter (fun op => is_label op = false) ops) in
  let? covered := fold_result (cover_block ops) ∅ (blocks cfg) in
  if negb (size covered =? executable)%nat
  then fail (MBlockCoverage (size covered) executable)
  else Ok {| cov_executable := executable; cov_covered := size covered |}.

Definition validate_machine_layout_order (cfg : MachineCfg) (order : list nat) : Result unit :=
  if negb (length order =? length (blocks cfg))%nat
  then fail (MOrderLength (length order) (length (blocks cfg)))
  else
    let? _ := fold_result (fun (seen : gset nat) block_index =>
        if (length (blocks cfg) <=? block_index)%nat then fail (MOrderMissing block_index)
        else if decide (block_index ∈ seen) then fail (MOrderRepeats block_index)
        else Ok ({[block_index]} ∪ seen)) ∅ order in
    Ok tt.

(** An index past the blocks would panic; [validate_machine_layout_order] excludes it. *)
Definition place_block (cfg : MachineCfg) (acc : list MachinePlacedBlock * Z) (block_index : nat)
  : list MachinePlacedBlock * Z :=
  let (placed, byte_start) := acc in
  let size := from_option byte_size 0 (blocks cfg !! block_index) in
  (placed ++ [{| pb_block_index := block_index; pb_byte_start := byte_start;
                 pb_byte_size := size |}], byte_start + size).

Definition build_machine_layout_order (cfg : MachineCfg) (order : list nat)
  : Result MachineLayoutOrder :=
  let? _ := validate_machine_layout_order cfg order in
  let (placed, byte_start) := fold_left (place_block cfg) order ([], 0) in
  Ok {| block_order := order; placed_blocks := placed; order_text_size := byte_start |}.

Definition machine_layout_order (cfg : MachineCfg) : Result MachineLayoutOrder :=
  build_machine_layout_order cfg (seq 0 (length (blocks cfg))).

(** * Reachability *)

(** The worklist loop.  The Rust [Vec] is a stack with its top at the end, here at the head:
    the successors are pushed in edge order, so they end up reversed on top. *)
Fixpoint explore (fuel : nat) (es : list MachineCfgEdge) (stack : list nat) (reachable : gset nat)
  : option (gset nat) :=
  match fuel with
  | O => None
  | S fuel =>
      match stack with
      | [] => Some reachable
      | block :: stack =>
          if decide (block ∈ reachable) then explore fuel es stack reachable
          else explore fuel es
                 (rev (to <$> filter (fun e => from e = block) es) ++ stack)
                 ({[block]} ∪ reachable)
      end
  end.

(** Every edge is pushed at most once, when its source is first reached. *)
Definition explore_fuel (es : list MachineCfgEdge) : nat := S (S (length es)).

Definition reachable_roots (p : ParsedAssembly) (cfg : MachineCfg) : list nat :=
  match entry_label p ≫= (fun label => machine_label_to_block p (blocks cfg) !! label) with
  | Some root => [root]
  | None => [0%nat]
  end.

Definition unreachable_machine_block_count (p : ParsedAssembly) (cfg : MachineCfg) : option nat :=
  match blocks cfg with
  | [] => Some 0%nat
  | _ =>
      reachable ← explore (explore_fuel (edges cfg)) (edges cfg) (reachable_roots p cfg) ∅;
      Some (length (blocks cfg) - size reachable)%nat
  end.

(** * Metrics *)

Definition branch_distance (p : ParsedAssembly) (l : SectionLayout) (best : Z)
    (t : TextOpLayout) : Result Z :=
  match text_ops p !! tl_op_index t with
  | Some op =>
      match la_op op with
      | OpInstruction inst =>
          match conditional_branch_parts inst with
          | None => Ok best
          | Some _ =>
              let pc := text_user_base l + tl_offset t in
              let? target := map_err (attach (la_provenance op)) (branch_target inst (symbols p) l) in
              let? d := map_err (attach (la_provenance op)) (relative_offset pc target) in
              Ok (Z.max best (Z.abs d))
          end
      | _ => Ok best
      end
  | None => Ok best
  end.

Definition sum_sizes (layouts : list TextOpLayout) : Z :=
  fold_left (fun n t => n + tl_size t) layouts 0.

Definition layout_metrics (p : ParsedAssembly) (l : SectionLayout) (cfg : MachineCfg)
    (order : MachineLayoutOrder) (coverage : MachineBlockCoverage) : Result BackendLayoutMetrics :=
  let? layouts := text_op_layouts p in
  let? distance := fold_result (branch_distance p l) 0 layouts in
  Ok {| m_text_size := sum_sizes layouts;
        m_rodata_size := section_size p Rodata;
        executable_text_op_count := cov_executable coverage;
        covered_text_op_count := cov_covered coverage;
        relaxed_branch_count := size (relaxed_text_branches p);
        max_cond_branch_abs_distance := distance;
        machine_block_count := length (blocks cfg);
        max_machine_block_size := fold_left Z.max (byte_size <$> blocks cfg) 0;
        conditional_branch_block_count :=
          length (List.filter (fun b => match terminator b with ConditionalBranch _ => true | _ => false end)
                    (blocks cfg));
        labeled_machine_block_count :=
          length (List.filter (fun b => match mb_label b with Some _ => true | None => false end)
                    (blocks cfg));
        machine_cfg_edge_count := length (edges cfg);
        machine_call_edge_count := length (filter (fun e => kind e = ECall) (edges cfg));
        m_unreachable := default 0%nat (unreachable_machine_block_count p cfg);
        layout_order_block_count := length (block_order order);
        layout_order_text_size := order_text_size order |}.

(** * The plan *)

Record MachineLayoutPlan := {
  parsed : ParsedAssembly;
  layout : SectionLayout;
  cfg : MachineCfg;
  order : MachineLayoutOrder;
  metrics : BackendLayoutMetrics
}.

Definition build (lines : list str) : Result MachineLayoutPlan :=
  let? preliminary := from_lines_with_branch_mode lines Conservative in
  let preliminary_layout := for_text_user_size (section_size preliminary Text) in
  let? parsed := from_lines_relaxed lines preliminary_layout in
  let layout := for_text_user_size (section_size parsed Text) in
  let? cfg := machine_cfg parsed in
  let? coverage := validate_machine_block_coverage parsed cfg in
  let? order := machine_layout_order cfg in
  let? metrics := layout_metrics parsed layout cfg order coverage in
  Ok {| parsed := parsed; layout := layout; cfg := cfg; order := order; metrics := metrics |}.
