(* ===== verification/MachineFacts.v ===== *)
(** What the machine blocks, their checks, the layout order and the control-flow graph
    guarantee. *)

From Stdlib Require Import ZArith Lia.
From stdpp Require Import base numbers list option tactics gmap sets relations.
From S2P Require Import Prelude RustStr Sample Diag Rv64 Immediate Asm Layout LayoutFacts MachineCfg.

Open Scope Z_scope.

(** * Slices *)

Lemma slice_nil {A} (l : list A) a : slice l a a = [].
Proof. unfold slice. by rewrite Nat.sub_diag. Qed.

Lemma slice_snoc {A} (l : list A) a k x :
  (a <= k)%nat -> l !! k = Some x -> slice l a (S k) = slice l a k ++ [x].
Proof.
  intros Ha Hk. unfold slice. replace (S k - a)%nat with (S (k - a)) by lia.
  apply take_S_r. rewrite lookup_drop. by replace (a + (k - a))%nat with k by lia.
Qed.

Lemma slice_to_end {A} (l : list A) a : slice l a (length l) = drop a l.
Proof. unfold slice. apply take_ge. by rewrite length_drop. Qed.

Lemma slice_lookup {A} (l : list A) a b i x :
  slice l a b !! i = Some x -> l !! (a + i)%nat = Some x /\ (a + i < b)%nat.
Proof.
  unfold slice. intros H. apply lookup_take_Some in H as [H Hi]. rewrite lookup_drop in H.
  split; [done|lia].
Qed.

(** * Shape of the blocks *)

(** An operation that neither opens nor ends a block. *)
Definition plain (op : LocatedAsmOp) : Prop :=
  is_label op = false /\ instruction_terminator op = None.

(** A finished block: labels, then straight-line operations, then one last operation. *)
Definition block_shape (ops : list LocatedAsmOp) : Prop :=
  exists labels body last, ops = labels ++ body ++ [last] /\
    Forall (fun op => is_label op = true) labels /\ Forall plain body /\ is_label last = false.

Definition open_shape (ops : list LocatedAsmOp) : Prop :=
  exists labels body, ops = labels ++ body /\
    Forall (fun op => is_label op = true) labels /\ Forall plain body.

(** Blocks that follow one another from operation [a] to operation [b]. *)
Inductive chain : nat -> nat -> list MachineBlock -> Prop :=
| chain_nil a : chain a a []
| chain_cons a c b bs : op_start b = a -> (a < op_end b)%nat -> chain (op_end b) c bs ->
    chain a c (b :: bs).

Lemma chain_snoc a m c bs b :
  chain a m bs -> op_start b = m -> (m < op_end b)%nat -> op_end b = c -> chain a c (bs ++ [b]).
Proof.
  induction 1; simpl; intros; subst; repeat constructor; auto.
Qed.

Lemma chain_le a c bs : chain a c bs -> (a <= c)%nat.
Proof. induction 1; lia. Qed.

Definition block_ok (ops : list LocatedAsmOp) (layouts : list TextOpLayout) (b : MachineBlock)
  : Prop :=
  (op_end b <= length ops)%nat /\
  b = build_machine_block ops layouts (op_start b) (op_end b) (mb_label b) /\
  block_shape (slice ops (op_start b) (op_end b)).

Lemma executable_labels ops :
  Forall (fun op => is_label op = true) ops -> block_has_executable_ops ops = false.
Proof. induction 1 as [|op ops Hop _ IH]; simpl; [done|]. by rewrite Hop. Qed.

Lemma executable_app a b :
  block_has_executable_ops (a ++ b) = block_has_executable_ops a || block_has_executable_ops b.
Proof. apply existsb_app. Qed.

(** An open range with something executable in it is a finished block. *)
Lemma open_close ops :
  open_shape ops -> block_has_executable_ops ops = true -> block_shape ops.
Proof.
  intros (labels & body & -> & Hl & Hb) H.
  rewrite executable_app, executable_labels in H by done.
  destruct body as [|last body _] using rev_ind; [done|].
  apply Forall_app in Hb as [Hb Hlast]. apply Forall_cons_1 in Hlast as [[Hlast _] _].
  by exists labels, body, last.
Qed.

Lemma open_labels ops :
  open_shape ops -> block_has_executable_ops ops = false -> Forall (fun op => is_label op = true) ops.
Proof.
  intros (labels & body & -> & Hl & Hb) H. rewrite executable_app in H.
  apply orb_false_iff in H as [_ H]. destruct Hb as [|x body [Hx _] _]; [by rewrite app_nil_r|].
  simpl in H. by rewrite Hx in H.
Qed.

Lemma block_shape_executable ops : block_shape ops -> block_has_executable_ops ops = true.
Proof.
  intros (labels & body & last & -> & _ & _ & Hlast). rewrite !executable_app. simpl.
  rewrite Hlast. simpl. by rewrite !orb_true_r.
Qed.

Record blocks_inv (ops : list LocatedAsmOp) (layouts : list TextOpLayout) (k : nat)
    (st : BlockState) : Prop := {
  bi_chain : chain 0 (bs_start st) (bs_blocks st);
  bi_start : (bs_start st <= k)%nat;
  bi_blocks : Forall (block_ok ops layouts) (bs_blocks st);
  bi_open : open_shape (slice ops (bs_start st) k)
}.

(** Closing the open range [bs_start..stop] as a block. *)
Lemma close_block ops layouts st stop :
  chain 0 (bs_start st) (bs_blocks st) -> Forall (block_ok ops layouts) (bs_blocks st) ->
  (bs_start st < stop <= length ops)%nat -> block_shape (slice ops (bs_start st) stop) ->
  let bs := bs_blocks st ++ [build_machine_block ops layouts (bs_start st) stop (bs_label st)] in
  chain 0 stop bs /\ Forall (block_ok ops layouts) bs.
Proof.
  intros Hc Hb Hs Hshape. simpl. split.
  - eapply chain_snoc; [done|done|simpl; lia|done].
  - apply Forall_app. split; [done|]. constructor; [|constructor]. by split_and!; [simpl; lia| |].
Qed.

Lemma open_snoc_plain ops op : open_shape ops -> plain op -> open_shape (ops ++ [op]).
Proof.
  intros (labels & body & -> & Hl & Hb) Hop. exists labels, (body ++ [op]).
  rewrite app_assoc. split_and!; [done|done|]. apply Forall_app. split; [done|by constructor].
Qed.

Lemma open_snoc_last ops op : open_shape ops -> is_label op = false -> block_shape (ops ++ [op]).
Proof.
  intros (labels & body & -> & Hl & Hb) Hop. exists labels, body, op. by rewrite app_assoc.
Qed.

Lemma slice_executable_lt ops a k :
  (a <= k)%nat -> block_has_executable_ops (slice ops a k) = true -> (a < k)%nat.
Proof.
  intros Ha H. destruct (decide (a = k)) as [->|]; [|lia]. by rewrite slice_nil in H.
Qed.

Lemma block_step_not_label ops layouts st k op :
  is_label op = false ->
  block_step ops layouts st (k, op)
  = match instruction_terminator op with
    | Some _ =>
        {| bs_blocks := bs_blocks st ++
             [build_machine_block ops layouts (bs_start st) (S k) (bs_label st)];
           bs_start := S k; bs_label := None |}
    | None => st
    end.
Proof. unfold block_step, is_label. by destruct (la_op op). Qed.

Lemma block_step_inv ops layouts k op st :
  ops !! k = Some op -> blocks_inv ops layouts k st ->
  blocks_inv ops layouts (S k) (block_step ops layouts st (k, op)).
Proof.
  intros Hk [Hc Hs Hb Ho]. pose proof (lookup_lt_Some _ _ _ Hk).
  pose proof (slice_snoc ops (bs_start st) k op Hs Hk) as Hsn.
  destruct (is_label op) eqn:El.
  - pose proof El as El2. unfold block_step. unfold is_label in El2.
    destruct (la_op op) as [label|inst| | | |]; try done.
    destruct (block_has_executable_ops _) eqn:Ex.
    + pose proof (slice_executable_lt _ _ _ Hs Ex).
      destruct (close_block ops layouts st k Hc Hb) as [Hc' Hb'];
        [lia|by apply open_close|]. constructor; simpl; [done|lia|done|].
      rewrite (slice_snoc ops k k op), slice_nil by done. exists [op], []. simpl.
      split_and!; [done|by constructor|constructor].
    + constructor; simpl; [done|lia|done|]. rewrite Hsn.
      exists (slice ops (bs_start st) k ++ [op]), [].
      rewrite app_nil_r. split_and!; [done| |constructor]. apply Forall_app.
      split; [by apply open_labels|by constructor].
  - rewrite block_step_not_label by done. destruct (instruction_terminator op) eqn:Et.
    + destruct (close_block ops layouts st (S k) Hc Hb) as [Hc' Hb'];
        [lia|rewrite Hsn; by apply open_snoc_last|]. constructor; simpl; [done|lia|done|].
      rewrite slice_nil. by exists [], [].
    + constructor; [done|lia|done|]. rewrite Hsn. by apply open_snoc_plain.
Qed.

Lemma blocks_fold_inv ops layouts : forall rest k st,
  drop k ops = rest -> blocks_inv ops layouts k st ->
  blocks_inv ops layouts (k + length rest)
    (fold_left (block_step ops layouts) (enumerate_from k rest) st).
Proof.
  induction rest as [|op rest IH]; intros k st Hd Hinv; simpl; [by rewrite Nat.add_0_r|].
  assert (ops !! k = Some op) as Hk.
  { rewrite <- (Nat.add_0_r k), <- lookup_drop, Hd. done. }
  rewrite Nat.add_succ_r. apply (IH (S k)); [|by apply block_step_inv].
  rewrite <- Nat.add_1_r, <- drop_drop, Hd. done.
Qed.

(** [machine_blocks] cuts the text into consecutive blocks; only labels can follow the last. *)
Lemma machine_blocks_spec p bs :
  machine_blocks p = Ok bs ->
  exists layouts e, text_op_layouts p = Ok layouts /\ chain 0 e bs /\ (e <= length (text_ops p))%nat /\
    Forall (fun op => is_label op = true) (drop e (text_ops p)) /\
    Forall (block_ok (text_ops p) layouts) bs.
Proof.
  unfold machine_blocks. intros H. inv_ok. exists a.
  set (ops := text_ops p) in *.
  set (st := fold_left _ _ _) in H.
  assert (blocks_inv ops a (length ops) st) as [Hc Hs Hb Ho].
  { apply (blocks_fold_inv ops a ops 0); [done|]. constructor; simpl; [constructor|done|constructor|].
    rewrite slice_nil. by exists [], []. }
  destruct (_ && _) eqn:Eend; inv_ok; subst bs.
  - apply andb_true_iff in Eend as [Hlt%Nat.ltb_lt Hex].
    destruct (close_block ops a st (length ops) Hc Hb) as [Hc' Hb']; [lia|by apply open_close|].
    exists (length ops). split_and!; [done|done|done| |done]. rewrite drop_all. constructor.
  - exists (bs_start st). split_and!; [done|done|done| |done]. rewrite <- slice_to_end.
    apply andb_false_iff in Eend as [Hge%Nat.ltb_ge|Hex]; [|by apply open_labels].
    replace (bs_start st) with (length ops) by lia. rewrite slice_nil. constructor.
Qed.

(** * Coverage *)

(** The executable operations before index [a]. *)
Definition executable_below (ops : list LocatedAsmOp) (a : nat) : gset nat :=
  list_to_set (filter (fun i => from_option is_label false (ops !! i) = false) (seq 0 a)).

Lemma executable_below_S ops a :
  executable_below ops (S a)
  = if from_option is_label false (ops !! a) then executable_below ops a
    else {[a]} ∪ executable_below ops a.
Proof.
  unfold executable_below. rewrite seq_S, filter_app. simpl.
  destruct (from_option is_label false (ops !! a)) eqn:E.
  - rewrite filter_cons_False by congruence. by rewrite app_nil_r.
  - rewrite filter_cons_True by done. rewrite list_to_set_app_L. simpl. set_solver.
Qed.

Lemma executable_below_lt ops a i : i ∈ executable_below ops a -> (i < a)%nat.
Proof.
  unfold executable_below. rewrite elem_of_list_to_set, list_elem_of_filter, elem_of_seq. lia.
Qed.

Lemma cover_ops_spec ops n : forall a,
  fold_result (cover_op ops) (executable_below ops a) (seq a n) = Ok (executable_below ops (a + n)).
Proof.
  induction n as [|n IH]; intros a; simpl; [by rewrite Nat.add_0_r|].
  replace (cover_op ops (executable_below ops a) a) with (@Ok CompileError _ (executable_below ops (S a))).
  { rewrite IH. by rewrite Nat.add_succ_r. }
  unfold cover_op. rewrite executable_below_S.
  destruct (from_option _ _ _); [done|]. rewrite decide_False; [done|].
  intros ?%executable_below_lt. lia.
Qed.

Lemma cover_blocks_spec ops layouts a e bs :
  chain a e bs -> Forall (block_ok ops layouts) bs ->
  fold_result (cover_block ops) (executable_below ops a) bs = Ok (executable_below ops e).
Proof.
  induction 1 as [|a c b bs Hs He Hc IH]; simpl; [done|].
  intros [(Hend & _ & Hshape) Hbs]%Forall_cons_1. unfold cover_block at 1.
  rewrite Hs in Hshape |- *. rewrite (block_shape_executable _ Hshape). simpl.
  replace ((op_end b <=? a)%nat) with false by (symmetry; apply Nat.leb_gt; lia).
  replace ((length ops <? op_end b)%nat) with false by (symmetry; apply Nat.ltb_ge; lia). simpl.
  rewrite cover_ops_spec. replace (a + (op_end b - a))%nat with (op_end b) by lia. by apply IH.
Qed.

Lemma executable_below_labels ops e :
  Forall (fun op => is_label op = true) (drop e ops) ->
  forall n, executable_below ops (e + n) = executable_below ops e \/ (length ops < e + n)%nat.
Proof.
  intros Hl n. induction n as [|n IH]; [left; by rewrite Nat.add_0_r|].
  destruct IH as [IH|]; [|right; lia]. rewrite Nat.add_succ_r, executable_below_S, IH.
  destruct (ops !! (e + n)%nat) as [op|] eqn:Eop; simpl.
  - left. rewrite Forall_forall in Hl. rewrite Hl; [done|]. apply list_elem_of_lookup.
    exists n. by rewrite lookup_drop.
  - right. apply lookup_ge_None in Eop. lia.
Qed.

Lemma executable_size_take ops n :
  (n <= length ops)%nat ->
  size (executable_below ops n) = length (filter (fun op => is_label op = false) (take n ops)).
Proof.
  induction n as [|n IH]; intros Hn; [done|].
  destruct (lookup_lt_is_Some_2 ops n) as [op Hop]; [lia|].
  rewrite executable_below_S, Hop, (take_S_r _ _ _ Hop), filter_app. simpl.
  rewrite length_app, <- IH by lia. destruct (is_label op) eqn:E.
  - rewrite filter_cons_False by congruence. simpl. lia.
  - rewrite filter_cons_True by done. rewrite size_union, size_singleton; [simpl; lia|].
    intros i ->%elem_of_singleton Hi%executable_below_lt. lia.
Qed.

Lemma executable_size ops :
  size (executable_below ops (length ops)) = length (filter (fun op => is_label op = false) ops).
Proof. rewrite executable_size_take by done. by rewrite firstn_all. Qed.

(** C18.  The machine blocks of a control-flow graph cover every executable operation of the
    text exactly once: the coverage check that runs on them never reports an error, and both
    of its counts are the number of operations that are not labels. *)
Theorem machine_blocks_cover p cfg :
  machine_cfg p = Ok cfg ->
  let n := length (filter (fun op => is_label op = false) (text_ops p)) in
  validate_machine_block_coverage p cfg = Ok {| cov_executable := n; cov_covered := n |}.
Proof.
  intros H. unfold machine_cfg in H. inv_ok. subst. simpl.
  destruct (machine_blocks_spec _ _ E) as (layouts & e & _ & Hc & He & Hl & Hb).
  unfold validate_machine_block_coverage. cbn [blocks].
  change (@empty (gset nat) _) with (executable_below (text_ops p) 0).
  rewrite (cover_blocks_spec _ _ _ _ _ Hc Hb).
  destruct (executable_below_labels _ _ Hl (length (text_ops p) - e)) as [Heq|]; [|lia].
  rewrite <- Heq. replace (e + (length (text_ops p) - e))%nat with (length (text_ops p)) by lia.
  rewrite executable_size, Nat.eqb_refl. done.
Qed.

(** C19.  Cutting the text into blocks respects control flow: a block is a run of labels
    followed by operations of which only the last can transfer control, its recorded
    terminator is the one of that last operation, and the blocks follow one another from the
    first operation of the text with nothing but labels after the last one. *)
Theorem machine_blocks_straight_line p bs :
  machine_blocks p = Ok bs ->
  exists e, chain 0 e bs /\ Forall (fun op => is_label op = true) (drop e (text_ops p)) /\
  forall b, b ∈ bs -> exists labels body last,
    slice (text_ops p) (op_start b) (op_end b) = labels ++ body ++ [last] /\
    Forall (fun op => is_label op = true) labels /\ Forall plain body /\ is_label last = false /\
    terminator b = default Fallthrough (instruction_terminator last).
Proof.
  intros H. destruct (machine_blocks_spec _ _ H) as (layouts & e & _ & Hc & He & Hl & Hb).
  exists e. split; [done|]. split; [done|]. intros b Hin. rewrite Forall_forall in Hb.
  destruct (Hb b Hin) as (_ & Hbuild & labels & body & last & Hs & Hlab & Hbody & Hlast).
  exists labels, body, last. split_and!; try done. rewrite Hbuild. cbn [terminator build_machine_block].
  unfold build_machine_block; cbn [terminator]. rewrite Hs. unfold rev_find_map.
  rewrite !rev_app_distr. simpl.
  destruct (instruction_terminator last) as [t|]; [done|]. simpl. rewrite omap_app.
  replace (omap instruction_terminator (rev body)) with (@nil MachineTerminator); simpl.
  - replace (omap instruction_terminator (rev labels)) with (@nil MachineTerminator); [done|].
    symmetry. clear Hs. induction labels as [|x labels IH]; [done|]. simpl.
    apply Forall_cons_1 in Hlab as [Hx Hlab]. rewrite omap_app, IH by done. simpl.
    unfold is_label in Hx. unfold instruction_terminator. by destruct (la_op x).
  - symmetry. clear Hs. induction Hbody as [|x body [_ Hx] _ IH]; [done|]. simpl.
    rewrite omap_app, IH. simpl. by rewrite Hx.
Qed.

(** * Byte positions of the blocks *)

(** Offset of operation [i] in the final layout. *)
Abbreviation offset_at p i :=
  (advance (Exact (relaxed_text_branches p)) Text 0 0 (take i (text_ops p))).

Lemma text_op_layouts_fold p ops : forall idx acc off layouts off',
  fold_result (fun (acc : list TextOpLayout * Z) numbered =>
      let (layouts, offset) := acc in
      let (op_index, op) := (numbered : nat * LocatedAsmOp) in
      let? size := map_err (attach (la_provenance op))
        (op_size (la_op op) offset Text op_index (Exact (relaxed_text_branches p))) in
      Ok (layouts ++ [{| tl_op_index := op_index; tl_offset := offset; tl_size := size |}],
          offset + size))
    (acc, off) (enumerate_from idx ops) = Ok (layouts, off') ->
  exists new, layouts = acc ++ new /\ length new = length ops /\
    forall i t, new !! i = Some t ->
      tl_op_index t = (idx + i)%nat /\
      advance (Exact (relaxed_text_branches p)) Text idx off (take i ops) = Ok (tl_offset t) /\
      advance (Exact (relaxed_text_branches p)) Text idx off (take (S i) ops)
      = Ok (tl_offset t + tl_size t).
Proof.
  induction ops as [|op ops IH]; intros idx acc off layouts off' H; simpl in H.
  { inv_ok. subst. exists []. by rewrite app_nil_r. }
  inv_ok. destruct a as [acc1 off1]. apply IH in H as (new & -> & Hlen & Hnew).
  inv_ok. apply map_err_ok in E0. subst.
  eexists (_ :: new). rewrite <- app_assoc. split; [done|]. simpl. split; [by rewrite Hlen|].
  intros [|i] t Hi; simpl in Hi.
  - injection Hi as <-. simpl. rewrite E0. split; [lia|]. by rewrite ?take_0.
  - destruct (Hnew _ _ Hi) as (H1 & H2 & H3). split; [lia|]. cbn [take advance]. by rewrite E0.
Qed.

Lemma text_op_layouts_spec p layouts :
  text_op_layouts p = Ok layouts ->
  length layouts = length (text_ops p) /\
  forall i t, layouts !! i = Some t ->
    tl_op_index t = i /\ offset_at p i = Ok (tl_offset t) /\
    offset_at p (S i) = Ok (tl_offset t + tl_size t).
Proof.
  unfold text_op_layouts. intros H. inv_ok. subst.
  apply text_op_layouts_fold in E as (new & -> & Hlen & Hnew). simpl. by split.
Qed.

Lemma advance_mono mode sec ops : forall idx off off',
  Forall (fun op => op_shape_ok (la_op op)) ops ->
  advance mode sec idx off ops = Ok off' -> off <= off'.
Proof.
  induction ops as [|op ops IH]; intros idx off off' Hwf H; simpl in H; [inv_ok; lia|].
  apply Forall_cons_1 in Hwf as [Hop Hwf]. inv_ok.
  apply IH in H; [|done]. apply op_size_nonneg in E; [lia|done].
Qed.

Lemma advance_take_mono mode sec ops i j o1 o2 :
  Forall (fun op => op_shape_ok (la_op op)) ops -> (i <= j)%nat ->
  advance mode sec 0 0 (take i ops) = Ok o1 -> advance mode sec 0 0 (take j ops) = Ok o2 ->
  o1 <= o2.
Proof.
  intros Hwf Hij H1 H2. replace j with (i + (j - i))%nat in H2 by lia.
  rewrite <- take_take_drop, advance_app, H1 in H2. eapply advance_mono, H2.
  by apply Forall_take, Forall_drop.
Qed.

(** The byte range of a block is the range of its operations. *)
Lemma block_bytes p layouts b :
  text_op_layouts p = Ok layouts -> Forall (fun op => op_shape_ok (la_op op)) (text_ops p) ->
  block_ok (text_ops p) layouts b -> (op_start b < op_end b)%nat ->
  offset_at p (op_start b) = Ok (byte_start b) /\
  offset_at p (op_end b) = Ok (byte_start b + byte_size b) /\ 0 <= byte_size b.
Proof.
  intros Hl Hwf (Hend & Hbuild & _) Hlt.
  destruct (text_op_layouts_spec _ _ Hl) as [Hlen Hspec].
  destruct (lookup_lt_is_Some_2 layouts (op_start b)) as [t1 Ht1]; [lia|].
  destruct (op_end b) as [|last] eqn:Ee; [lia|].
  destruct (lookup_lt_is_Some_2 layouts last) as [t2 Ht2]; [lia|].
  destruct (Hspec _ _ Ht1) as (_ & H1 & _). destruct (Hspec _ _ Ht2) as (_ & _ & H2).
  rewrite Hbuild. unfold build_machine_block. rewrite Ht1, Ht2. cbn [byte_start byte_size].
  assert (tl_offset t1 <= tl_offset t2 + tl_size t2) as Hle.
  { eapply advance_take_mono; [exact Hwf| |exact H1|exact H2]. lia. }
  simpl. unfold sat_sub_u64. rewrite Z.max_l by lia. split_and!; [done| |lia].
  rewrite H2. f_equal. lia.
Qed.

(** * The layout order *)

Lemma order_seen cfg n : forall k (seen : gset nat),
  (k + n <= length (blocks cfg))%nat -> (forall i, i ∈ seen -> (i < k)%nat) ->
  is_ok (fold_result (fun (seen : gset nat) block_index =>
        if (length (blocks cfg) <=? block_index)%nat then fail (MOrderMissing block_index)
        else if decide (block_index ∈ seen) then fail (MOrderRepeats block_index)
        else Ok ({[block_index]} ∪ seen)) seen (seq k n)) = true.
Proof.
  induction n as [|n IH]; intros k seen Hk Hseen; [done|]. simpl.
  replace ((length (blocks cfg) <=? k)%nat) with false by (symmetry; apply Nat.leb_gt; lia).
  rewrite decide_False by (intros ?%Hseen; lia). apply IH; [lia|].
  intros i [->%elem_of_singleton|Hi%Hseen]%elem_of_union; lia.
Qed.

Lemma identity_order_valid cfg :
  validate_machine_layout_order cfg (seq 0 (length (blocks cfg))) = Ok tt.
Proof.
  unfold validate_machine_layout_order. rewrite length_seq, Nat.eqb_refl. simpl.
  pose proof (order_seen cfg (length (blocks cfg)) 0 ∅ (le_n _)) as H.
  destruct (fold_result _ _ _); [done|]. simpl in H. discriminate H. intros i. set_solver.
Qed.

(** Every block is placed where the text has it, one after the other. *)
Lemma place_blocks cfg p layouts : forall bs a e placed start,
  text_op_layouts p = Ok layouts -> Forall (fun op => op_shape_ok (la_op op)) (text_ops p) ->
  chain a e bs -> Forall (block_ok (text_ops p) layouts) bs ->
  (exists pre, blocks cfg = pre ++ bs /\ length placed = length pre) ->
  offset_at p a = Ok start ->
  exists new stop, fold_left (place_block cfg) (seq (length placed) (length bs)) (placed, start)
    = (placed ++ new, stop) /\ offset_at p e = Ok stop /\
    new = zip_with (fun i b => {| pb_block_index := i; pb_byte_start := byte_start b;
                                  pb_byte_size := byte_size b |})
            (seq (length placed) (length bs)) bs.
Proof.
  induction bs as [|b bs IH]; intros a e placed start Hl Hwf Hc Hb (pre & Hpre & Hlen) Ha.
  { inversion Hc; subst. exists [], start. simpl. by rewrite app_nil_r. }
  inversion Hc as [|? ? ? ? Hs He Hc']; subst. apply Forall_cons_1 in Hb as [Hb1 Hb2].
  destruct (block_bytes p layouts b Hl Hwf Hb1 He) as (H1 & H2 & _).
  rewrite Ha in H1. injection H1 as ->. cbn [length seq fold_left]. unfold place_block at 2.
  assert (blocks cfg !! length placed = Some b) as Hlk.
  { rewrite Hpre, lookup_app_r by lia. by rewrite Hlen, Nat.sub_diag. }
  rewrite Hlk. simpl.
  destruct (IH (op_end b) e (placed ++ [{| pb_block_index := length placed;
      pb_byte_start := byte_start b; pb_byte_size := byte_size b |}])
      (byte_start b + byte_size b)) as (new & stop & Hf & Hstop & Hnew); try done.
  { exists (pre ++ [b]). rewrite <- app_assoc, !length_app. split; [done|]. simpl. lia. }
  rewrite length_app, Nat.add_1_r in Hf, Hnew. rewrite Hf.
  eexists (_ :: new), stop. rewrite <- app_assoc. split; [done|]. split; [done|]. by rewrite Hnew.
Qed.

Lemma advance_labels mode sec ops : forall idx off,
  Forall (fun op => is_label op = true) ops -> advance mode sec idx off ops = Ok off.
Proof.
  induction ops as [|op ops IH]; intros idx off H; [done|].
  apply Forall_cons_1 in H as [Hop H]. simpl. unfold is_label in Hop.
  destruct (la_op op); try done. simpl. rewrite Z.add_0_r. by apply IH.
Qed.

Lemma offset_labels p e o :
  Forall (fun op => is_label op = true) (drop e (text_ops p)) -> offset_at p e = Ok o ->
  advance (Exact (relaxed_text_branches p)) Text 0 0 (text_ops p) = Ok o.
Proof.
  intros Hl Ho. rewrite <- (take_drop e (text_ops p)) at 1. rewrite advance_app, Ho.
  by apply advance_labels.
Qed.

(** C20.  Laying the blocks of a parsed program out in their own order always succeeds; it
    places every block at the byte offset the text has it at, with its size, and the placed
    blocks add up to exactly the size of the text. *)
Theorem machine_layout_order_exact lines R p cfg :
  from_lines_with_branch_mode lines (Exact R) = Ok p -> machine_cfg p = Ok cfg ->
  machine_layout_order cfg = Ok
    {| block_order := seq 0 (length (blocks cfg));
       placed_blocks := zip_with (fun i b => {| pb_block_index := i; pb_byte_start := byte_start b;
                                                pb_byte_size := byte_size b |})
                          (seq 0 (length (blocks cfg))) (blocks cfg);
       order_text_size := text_size p |}.
Proof.
  intros Hp Hcfg. unfold machine_cfg in Hcfg. inv_ok. subst cfg. cbn [blocks].
  destruct (parsed_inv _ _ _ Hp) as [[Hsize _ _ Hwf] HR]. simpl in HR. subst R.
  destruct (machine_blocks_spec _ _ E) as (layouts & e & Hl & Hc & He & Hlab & Hb).
  unfold machine_layout_order, build_machine_layout_order. rewrite identity_order_valid.
  cbn [blocks].
  destruct (place_blocks {| blocks := a; edges := a0 |} p layouts a 0 e [] 0)
    as (new & stop & Hf & Hstop & Hnew); try done.
  { apply Forall_forall. intros op Hop. by apply (Hwf Text). }
  { by exists []. }
  simpl in Hf. rewrite Hf. pose proof (Hsize Text) as Ht. simpl in Ht.
  rewrite (offset_labels _ _ _ Hlab Hstop) in Ht. injection Ht as ->. by rewrite Hnew.
Qed.

(** * Labels and blocks *)

Lemma find_index_from_Some {A} (f : A -> bool) l : forall k j,
  find_index_from f k l = Some j <->
  (k <= j)%nat /\ exists x, l !! (j - k)%nat = Some x /\ f x = true /\
    forall i y, (i < j - k)%nat -> l !! i = Some y -> f y = false.
Proof.
  induction l as [|a l IH]; intros k j; simpl.
  { split; [done|]. intros (_ & x & Hx & _). done. }
  destruct (f a) eqn:Ef.
  - split.
    + intros [= <-]. split; [done|]. rewrite Nat.sub_diag. exists a. split_and!; [done|done|lia].
    + intros (Hk & x & Hx & Hfx & Hmin). destruct (decide (j = k)) as [->|Hne]; [done|].
      specialize (Hmin 0%nat a ltac:(lia) eq_refl). congruence.
  - rewrite IH. split; intros (Hk & x & Hx & Hfx & Hmin).
    + split; [lia|]. exists x. replace (j - k)%nat with (S (j - S k)) by lia.
      split_and!; [done|done|]. intros [|i] y Hi Hy; simpl in Hy; [congruence|].
      apply (Hmin i y); [lia|done].
    + destruct (decide (j = k)) as [->|Hne].
      { rewrite Nat.sub_diag in Hx. simpl in Hx. congruence. }
      split; [lia|]. exists x. replace (j - k)%nat with (S (j - S k)) in Hx by lia.
      split_and!; [done|done|]. intros i y Hi Hy. apply (Hmin (S i) y); [lia|done].
Qed.

Lemma chain_lookup a e bs i :
  chain a e bs -> (a <= i < e)%nat ->
  exists j b, bs !! j = Some b /\ (op_start b <= i < op_end b)%nat.
Proof.
  induction 1 as [|a c b bs Hs He Hc IH]; intros Hi; [lia|].
  destruct (decide (i < op_end b)%nat).
  - exists 0%nat, b. split; [done|lia].
  - destruct IH as (j & b' & Hj & Hr); [lia|]. by exists (S j), b'.
Qed.

Lemma chain_bounds a e bs j b :
  chain a e bs -> bs !! j = Some b -> (a <= op_start b < op_end b)%nat /\ (op_end b <= e)%nat.
Proof.
  intros Hc. revert j. induction Hc as [|a c b' bs Hs He Hc IH]; intros j Hj; [done|].
  pose proof (chain_le _ _ _ Hc).
  destruct j as [|j]; simpl in Hj; [injection Hj as <-; lia|]. apply IH in Hj. lia.
Qed.

Lemma chain_increasing a e bs j k b c :
  chain a e bs -> bs !! j = Some b -> bs !! k = Some c -> (j < k)%nat -> (op_end b <= op_start c)%nat.
Proof.
  intros Hc. revert j k. induction Hc as [|a e b' bs Hs He Hc IH]; intros j k Hj Hk Hlt; [done|].
  destruct k as [|k]; [lia|]. simpl in Hk. destruct j as [|j]; simpl in Hj.
  - injection Hj as <-. apply (chain_bounds _ _ _ _ _ Hc) in Hk. lia.
  - eapply IH; eauto. lia.
Qed.

Lemma instruction_size_pos i off s idx mode size :
  op_size (OpInstruction i) off s idx mode = Ok size -> 4 <= size.
Proof.
  destruct i; cbn [op_size]; try (intros H; inv_ok; lia);
    try (destruct mode; [|destruct (_ && _)]; intros H; inv_ok; lia).
  unfold li_sequence_size. intros H. inv_ok. apply plan_inv in E.
  destruct a; [|simpl in H; lia]. exfalso. naive_solver.
Qed.

(** The label [label] stands in block [j]. *)
Definition labels_block (p : ParsedAssembly) (bs : list MachineBlock) (label : str) (j : nat)
  : Prop :=
  exists k op b, text_ops p !! k = Some op /\ la_op op = OpLabel label /\ bs !! j = Some b /\
    (op_start b <= k < op_end b)%nat.

(** The control transfers of the code, block to block. *)
Inductive transfer (p : ParsedAssembly) (bs : list MachineBlock) : MachineCfgEdge -> Prop :=
| transfer_fallthrough i b : bs !! i = Some b -> terminator b = Fallthrough ->
    (i + 1 < length bs)%nat -> transfer p bs {| from := i; to := i + 1; kind := EFallthrough |}
| transfer_jump i b label j : bs !! i = Some b -> terminator b = TJump label ->
    labels_block p bs label j -> transfer p bs {| from := i; to := j; kind := EJump |}
| transfer_taken i b label j : bs !! i = Some b -> terminator b = ConditionalBranch label ->
    labels_block p bs label j -> transfer p bs {| from := i; to := j; kind := EConditionalTaken |}
| transfer_not_taken i b label : bs !! i = Some b -> terminator b = ConditionalBranch label ->
    (i + 1 < length bs)%nat ->
    transfer p bs {| from := i; to := i + 1; kind := EConditionalFallthrough |}
| transfer_call i b k op label j : bs !! i = Some b -> (op_start b <= k < op_end b)%nat ->
    text_ops p !! k = Some op -> la_op op = OpInstruction (Call label) ->
    labels_block p bs label j -> transfer p bs {| from := i; to := j; kind := ECall |}.

Section Graph.
Context (lines : list str) (R : gset nat) (p : ParsedAssembly) (bs : list MachineBlock).
Hypothesis Hparsed : from_lines_with_branch_mode lines (Exact R) = Ok p.
Hypothesis Hcode : code_only (text_ops p).
Hypothesis Hbs : machine_blocks p = Ok bs.

Local Lemma graph_wf : Forall (fun op => op_shape_ok (la_op op)) (text_ops p).
Proof.
  destruct (parsed_inv _ _ _ Hparsed) as [[_ _ _ Hwf] _].
  apply Forall_forall. intros op Hop. by apply (Hwf Text).
Qed.

Local Lemma graph_R : R = relaxed_text_branches p.
Proof. by destruct (parsed_inv _ _ _ Hparsed) as [_ ->]. Qed.

Local Lemma block_facts j b :
  bs !! j = Some b ->
  (op_start b < op_end b <= length (text_ops p))%nat /\
  offset_at p (op_start b) = Ok (byte_start b) /\
  offset_at p (op_end b) = Ok (byte_start b + byte_size b) /\ 4 <= byte_size b /\
  block_shape (slice (text_ops p) (op_start b) (op_end b)).
Proof.
  intros Hj. destruct (machine_blocks_spec _ _ Hbs) as (layouts & e & Hl & Hc & He & _ & Hb).
  rewrite Forall_forall in Hb. assert (b ∈ bs) as Hin by (apply list_elem_of_lookup; eauto).
  destruct (chain_bounds _ _ _ _ _ Hc Hj) as [Hlt Hle].
  pose proof (Hb b Hin) as Hok. destruct (block_bytes p layouts b Hl graph_wf Hok) as (H1 & H2 & _); [lia|].
  destruct Hok as (_ & _ & Hshape). split; [lia|]. split_and!; [done|done| |done].
  destruct Hshape as (labels & body & last & Hs & _ & _ & Hlast).
  assert (text_ops p !! (op_end b - 1)%nat = Some last) as Hlk.
  { assert (length (slice (text_ops p) (op_start b) (op_end b)) = (op_end b - op_start b)%nat) as Hlen.
    { unfold slice. rewrite length_take, length_drop. lia. }
    assert (slice (text_ops p) (op_start b) (op_end b) !! (op_end b - op_start b - 1)%nat = Some last)
      as Hlk.
    { rewrite Hs, app_assoc in Hlen |- *. rewrite length_app in Hlen. simpl in Hlen.
      apply list_lookup_middle. lia. }
    apply slice_lookup in Hlk as [Hlk _]. rewrite <- Hlk. f_equal. lia. }
  replace (op_end b) with (S (op_end b - 1)) in H2 by lia.
  rewrite (take_S_r _ _ _ Hlk), advance_app in H2. inv_ok.
  assert (byte_start b <= a) as Hge.
  { eapply advance_take_mono; [exact graph_wf| |exact H1|exact E]. lia. }
  simpl in H2. inv_ok.
  assert (is_code last) as Hcl.
  { apply (proj1 (Forall_forall _ _) Hcode), list_elem_of_lookup; eauto. }
  unfold is_code in Hcl. unfold is_label in Hlast. destruct (la_op last); try done.
  apply instruction_size_pos in E0. lia.
Qed.

(** A label opens its block: nothing but labels stands before it there. *)
Local Lemma label_at_start k op j b :
  text_ops p !! k = Some op -> is_label op = true -> bs !! j = Some b ->
  (op_start b <= k < op_end b)%nat -> offset_at p k = Ok (byte_start b).
Proof.
  intros Hk Hl Hj Hr. destruct (block_facts j b Hj) as (Hlt & H1 & _ & _ & Hshape).
  destruct Hshape as (labels & body & last & Hs & Hlab & Hbody & Hlast).
  assert (slice (text_ops p) (op_start b) (op_end b) !! (k - op_start b)%nat = Some op) as Hsk.
  { unfold slice. rewrite lookup_take_lt by lia. rewrite lookup_drop. rewrite <- Hk. f_equal. lia. }
  assert (k - op_start b < length labels)%nat as Hin.
  { destruct (decide (k - op_start b < length labels)%nat) as [|Hge]; [done|]. exfalso.
    rewrite Hs, lookup_app_r in Hsk by lia. apply lookup_app_Some in Hsk as [Hsk|[_ Hsk]].
    - rewrite Forall_forall in Hbody. assert (op ∈ body) as Hb by (apply list_elem_of_lookup; eauto).
      destruct (Hbody _ Hb) as [Hx _]. congruence.
    - apply list_lookup_singleton_Some in Hsk as [_ <-]. congruence. }
  replace k with (op_start b + (k - op_start b))%nat by lia.
  rewrite <- take_take_drop, advance_app, H1. apply advance_labels.
  assert (take (k - op_start b) (drop (op_start b) (text_ops p)) = take (k - op_start b) labels) as ->.
  { assert (take (k - op_start b) (slice (text_ops p) (op_start b) (op_end b))
            = take (k - op_start b) (drop (op_start b) (text_ops p))) as <-.
    { unfold slice. rewrite take_take. f_equal. lia. }
    by rewrite Hs, take_app_le by lia. }
  by apply Forall_take.
Qed.

Local Lemma byte_start_inj i j b c :
  bs !! i = Some b -> bs !! j = Some c -> byte_start b = byte_start c -> i = j.
Proof.
  destruct (machine_blocks_spec _ _ Hbs) as (_ & e & _ & Hc & _).
  assert (forall i j b c, (i < j)%nat -> bs !! i = Some b -> bs !! j = Some c ->
    byte_start b < byte_start c) as Hmono.
  { intros i' j' b' c' Hlt Hi Hj. pose proof (chain_increasing _ _ _ _ _ _ _ Hc Hi Hj Hlt).
    destruct (block_facts _ _ Hi) as (_ & _ & H2 & H4 & _).
    destruct (block_facts _ _ Hj) as (_ & H1 & _).
    assert (byte_start b' + byte_size b' <= byte_start c'); [|lia].
    eapply advance_take_mono; [exact graph_wf| |exact H2|exact H1]. lia. }
  intros Hi Hj Heq. destruct (Nat.lt_trichotomy i j) as [Hlt|[Heq'|Hlt]]; [|done|].
  - pose proof (Hmono _ _ _ _ Hlt Hi Hj). lia.
  - pose proof (Hmono _ _ _ _ Hlt Hj Hi). lia.
Qed.

(** The label table maps a text label to the block it stands in. *)
Lemma label_to_block_spec label j :
  machine_label_to_block p bs !! label = Some j <-> labels_block p bs label j.
Proof.
  destruct (parsed_inv _ _ _ Hparsed) as [[_ Hsound Hcomplete _] _]. rewrite graph_R in *.
  unfold machine_label_to_block. rewrite lookup_omap. split.
  - intros H. destruct (symbols p !! label) as [sd|] eqn:Esd; [|done]. simpl in H.
    destruct (sd_section sd) eqn:Esec; [|done].
    apply find_index_from_Some in H as (_ & b & Hb & Heq%Z.eqb_eq & _). rewrite Nat.sub_0_r in Hb.
    destruct (Hsound _ _ Esd) as (pre & op & post & Hops & Hop & Hoff). rewrite Esec in Hops, Hoff.
    simpl in Hops. assert (text_ops p !! length pre = Some op) as Hk.
    { rewrite Hops. by apply list_lookup_middle. }
    assert (offset_at p (length pre) = Ok (byte_start b)) as Hpre.
    { rewrite Hops, take_app_length. congruence. }
    destruct (machine_blocks_spec _ _ Hbs) as (_ & e & _ & Hc & He & Hlab & _).
    destruct (block_facts _ _ Hb) as (Hr & _ & H2 & H4 & _).
    destruct (chain_bounds _ _ _ _ _ Hc Hb) as [_ Hle].
    destruct (decide (length pre < e)%nat) as [Hlt|Hge].
    + destruct (chain_lookup _ _ _ (length pre) Hc) as (j' & b' & Hj' & Hr'); [lia|].
      assert (is_label op = true) as Hl by (unfold is_label; by rewrite Hop).
      pose proof (label_at_start _ _ _ _ Hk Hl Hj' Hr') as Hs'. rewrite Hpre in Hs'.
      injection Hs' as Hs'. rewrite (byte_start_inj _ _ _ _ Hb Hj' Hs') in *.
      by exists (length pre), op, b'.
    + exfalso. assert (byte_start b + byte_size b <= byte_start b); [|lia].
      eapply advance_take_mono; [exact graph_wf| |exact H2|exact Hpre]. lia.
  - intros (k & op & b & Hk & Hop & Hj & Hr).
    destruct (list_elem_of_split_length _ _ _ Hk) as (pre & post & Hsplit & ->).
    destruct (Hcomplete Text pre op post label Hsplit Hop) as (sd & Hsd & Hsec & Hoff).
    rewrite Hsd. simpl. rewrite Hsec.
    assert (is_label op = true) as Hl by (unfold is_label; by rewrite Hop).
    pose proof (label_at_start _ _ _ _ Hk Hl Hj Hr) as Hst.
    rewrite Hsplit, take_app_length, Hoff in Hst. injection Hst as Hst.
    apply find_index_from_Some. split; [lia|]. exists b. rewrite Nat.sub_0_r.
    split_and!; [done|by apply Z.eqb_eq|]. intros i c Hi Hc'. apply Z.eqb_neq. intros Heq.
    assert (i = j); [|lia]. eapply byte_start_inj; [done|done|lia].
Qed.
End Graph.

(** * The edges *)

(** The edges leaving block [b] at index [i], for a label table and a number of blocks. *)
Definition leaving (p : ParsedAssembly) (table : gmap str nat) (n i : nat) (b : MachineBlock)
    (e : MachineCfgEdge) : Prop :=
  (exists label j, label ∈ machine_block_call_targets p b /\ table !! label = Some j /\
     e = {| from := i; to := j; kind := ECall |}) \/
  match terminator b with
  | Fallthrough => (i + 1 < n)%nat /\ e = {| from := i; to := i + 1; kind := EFallthrough |}
  | TJump label => exists j, table !! label = Some j /\ e = {| from := i; to := j; kind := EJump |}
  | ConditionalBranch label =>
      (exists j, table !! label = Some j /\ e = {| from := i; to := j; kind := EConditionalTaken |}) \/
      ((i + 1 < n)%nat /\ e = {| from := i; to := i + 1; kind := EConditionalFallthrough |})
  | Return => False
  end.

Lemma call_edges_spec p table i b e :
  e ∈ call_edges p table i b <->
  exists label j, label ∈ machine_block_call_targets p b /\ table !! label = Some j /\
    e = {| from := i; to := j; kind := ECall |}.
Proof.
  unfold call_edges. rewrite list_elem_of_omap. split.
  - intros (label & Hl & He). destruct (table !! label) as [j|] eqn:Ej; [|done].
    injection He as <-. eauto.
  - intros (label & j & Hl & Hj & ->). exists label. by rewrite Hj.
Qed.

Lemma target_block_ok p target table i o j :
  machine_cfg_target_block p target table i o = Ok j <-> table !! target = Some j.
Proof. unfold machine_cfg_target_block. destruct (table !! target); split; congruence. Qed.

Lemma elem_of_next (n i : nat) k (e : MachineCfgEdge) :
  e ∈ (if (i + 1 <? n)%nat then [{| from := i; to := (i + 1)%nat; kind := k |}] else []) <->
  (i + 1 < n)%nat /\ e = {| from := i; to := (i + 1)%nat; kind := k |}.
Proof.
  destruct (Nat.ltb_spec (i + 1) n).
  - rewrite list_elem_of_singleton. naive_solver.
  - rewrite elem_of_nil. split; [done|lia].
Qed.

Lemma block_edges_spec p table n acc i b es :
  block_edges p table n acc (i, b) = Ok es ->
  forall e, e ∈ es <-> e ∈ acc \/ leaving p table n i b e.
Proof.
  unfold block_edges, leaving. intros H e.
  destruct (terminator b); inv_ok; subst; try apply target_block_ok in E;
    repeat rewrite ?elem_of_app, ?call_edges_spec, ?elem_of_next, ?list_elem_of_singleton.
  - tauto.
  - split; [|naive_solver]. intros [[]|]; [tauto|tauto|]. right; right. eauto.
  - split; [|naive_solver]. intros [[]|[|]]; [tauto|tauto|right; right; left; eauto|tauto].
  - tauto.
Qed.

Lemma edges_fold p table n bs : forall k acc es,
  fold_result (block_edges p table n) acc (enumerate_from k bs) = Ok es ->
  forall e, e ∈ es <-> e ∈ acc \/ exists i b, bs !! i = Some b /\ leaving p table n (k + i) b e.
Proof.
  induction bs as [|b bs IH]; intros k acc es H e; simpl in H.
  { inv_ok. subst. split; [by left|]. intros [|(i & b & Hb & _)]; done. }
  inv_ok. rewrite (IH _ _ _ H), (block_edges_spec _ _ _ _ _ _ _ E). split.
  - intros [[|]|(i & c & Hc & Hl)]; [by left| |].
    + right. exists 0%nat, b. by rewrite Nat.add_0_r.
    + right. exists (S i), c. by rewrite Nat.add_succ_r.
  - intros [|([|i] & c & Hc & Hl)]; [tauto| |].
    + simpl in Hc. injection Hc as <-. rewrite Nat.add_0_r in Hl. tauto.
    + right. exists i, c. by rewrite Nat.add_succ_r in Hl.
Qed.

Lemma call_targets_spec p b label :
  (op_end b <= length (text_ops p))%nat ->
  label ∈ machine_block_call_targets p b <->
  exists k op, (op_start b <= k < op_end b)%nat /\ text_ops p !! k = Some op /\
    la_op op = OpInstruction (Call label).
Proof.
  intros Hend. unfold machine_block_call_targets. rewrite list_elem_of_omap. split.
  - intros (op & Hop & Hl). apply list_elem_of_lookup in Hop as [i Hi].
    apply slice_lookup in Hi as [Hi Hr]. exists (op_start b + i)%nat, op. split; [lia|].
    split; [done|]. destruct (la_op op) as [| [] | | | |]; congruence.
  - intros (k & op & Hr & Hk & Hop). exists op. rewrite Hop. split; [|done].
    apply list_elem_of_lookup. exists (k - op_start b)%nat. unfold slice.
    rewrite lookup_take_lt by lia. rewrite lookup_drop, <- Hk. f_equal. lia.
Qed.

(** C17.  The control-flow graph is exact: for a text of labels and instructions, the edges of
    the graph are precisely the control transfers of the code, from block to block: fall
    through to the next block, a jump or a taken branch to the block its label opens, and one
    edge for every call of a text label. *)
Theorem machine_cfg_exact lines R p cfg :
  from_lines_with_branch_mode lines (Exact R) = Ok p -> code_only (text_ops p) ->
  machine_cfg p = Ok cfg ->
  forall e, e ∈ edges cfg <-> transfer p (blocks cfg) e.
Proof.
  intros Hp Hcode H e. unfold machine_cfg in H. inv_ok. subst cfg. cbn [blocks edges].
  rename a into bs. rewrite (edges_fold _ _ _ _ _ _ _ E0). rewrite elem_of_nil.
  assert (forall i b, bs !! i = Some b -> (op_end b <= length (text_ops p))%nat) as Hend.
  { intros i b Hi. by destruct (block_facts lines R p bs Hp Hcode E i b Hi) as [[_ ?] _]. }
  pose proof (label_to_block_spec lines R p bs Hp Hcode E) as Htab. split.
  - intros [[]|(i & b & Hi & [(label & j & Hl & Hj%Htab & ->)|Hterm])].
    { apply call_targets_spec in Hl as (k & op & Hr & Hk & Hop); [|eauto]. by eapply transfer_call. }
    simpl in Hterm. destruct (terminator b) as [|label|label|] eqn:Et.
    + destruct Hterm as [? ->]. by eapply transfer_fallthrough.
    + destruct Hterm as (j & Hj%Htab & ->). by eapply transfer_jump.
    + destruct Hterm as [(j & Hj%Htab & ->)|[? ->]]; [by eapply transfer_taken|].
      by eapply transfer_not_taken.
    + done.
  - intros Ht. right. unfold leaving. destruct Ht as [i b Hi Et|i b label j Hi Et Hj|
      i b label j Hi Et Hj|i b label Hi Et|i b k op label j Hi Hr Hk Hop Hj];
      exists i, b; (split; [done|]); simpl; try rewrite Et; try apply Htab in Hj;
      eauto 10.
    left. exists label, j. split; [|done]. apply call_targets_spec; eauto.
Qed.

(** * Reachability *)

(** One step along an edge. *)
Definition edge_step (es : list MachineCfgEdge) (a b : nat) : Prop :=
  exists e, e ∈ es /\ from e = a /\ to e = b.

Lemma filter_remaining es (r : gset nat) block :
  block ∉ r ->
  (length (filter (fun e => from e ∉ {[block]} ∪ r) es)
   + length (filter (fun e => from e = block) es)
   = length (filter (fun e => from e ∉ r) es))%nat.
Proof.
  intros Hb. induction es as [|e es IH]; [done|]. rewrite !filter_cons.
  repeat case_decide; simpl; first [lia|exfalso; set_solver].
Qed.

Lemma elem_of_rev {A} (x : A) l : x ∈ l <-> x ∈ rev l.
Proof. rewrite !list_elem_of_In. apply in_rev. Qed.

(** Enough fuel: one unit for every entry of the stack and every edge not yet followed. *)
Lemma explore_spec es (P : nat -> Prop) fuel : forall stack reachable,
  (length stack + length (filter (fun e => from e ∉ reachable) es) < fuel)%nat ->
  (forall a b, a ∈ reachable -> edge_step es a b -> b ∈ reachable \/ b ∈ stack) ->
  (forall b, b ∈ reachable \/ b ∈ stack -> P b) ->
  (forall a b, P a -> edge_step es a b -> P b) ->
  exists r, explore fuel es stack reachable = Some r /\ reachable ⊆ r /\
    (forall b, b ∈ stack -> b ∈ r) /\ (forall a b, a ∈ r -> edge_step es a b -> b ∈ r) /\
    (forall b, b ∈ r -> P b).
Proof.
  induction fuel as [|fuel IH]; intros stack reachable Hf Hcl HP Hstep; [lia|]. simpl.
  destruct stack as [|block stack].
  { exists reachable. split_and!; [done|done|set_solver| |by eauto].
    intros a b Ha Hab. destruct (Hcl a b Ha Hab); [done|set_solver]. }
  case_decide as Hin.
  - destruct (IH stack reachable) as (r & Hr & H1 & H2 & H3 & H4); [simpl in Hf; lia| | |done|].
    + intros a b Ha Hab. destruct (Hcl a b Ha Hab) as [|[->|]%elem_of_cons]; auto.
    + intros b [|]; apply HP; [by left|right; by constructor].
    + exists r. split_and!; try done. intros b [->|]%elem_of_cons; auto.
  - assert (forall b, b ∈ rev (to <$> filter (fun e => from e = block) es) <-> edge_step es block b)
      as Hsucc.
    { intros b. rewrite <- elem_of_rev, list_elem_of_fmap.
      unfold edge_step. setoid_rewrite list_elem_of_filter. naive_solver. }
    destruct (IH (rev (to <$> filter (fun e => from e = block) es) ++ stack) ({[block]} ∪ reachable))
      as (r & Hr & H1 & H2 & H3 & H4); [| | |done|].
    + rewrite length_app, length_rev, length_fmap. pose proof (filter_remaining es reachable block Hin).
      simpl in Hf. lia.
    + intros a b Ha Hab. rewrite elem_of_app, Hsucc.
      apply elem_of_union in Ha as [->%elem_of_singleton|Ha]; [by auto|].
      destruct (Hcl a b Ha Hab) as [|[->|]%elem_of_cons]; set_solver.
    + intros b. rewrite elem_of_app, Hsucc, elem_of_union, elem_of_singleton.
      intros [[->|?]|[?|?]]; [apply HP; right; by constructor|apply HP; by left| |].
      * eapply Hstep; [|done]. apply HP. right. by constructor.
      * apply HP. right. by constructor.
    + exists r. split_and!; [done|set_solver| |done|done]. intros b [->|Hb]%elem_of_cons; [set_solver|].
      apply H2, elem_of_app. by right.
Qed.

Lemma explore_rtc es root :
  exists r, explore (explore_fuel es) es [root] ∅ = Some r /\
    forall b, b ∈ r <-> rtc (edge_step es) root b.
Proof.
  destruct (explore_spec es (rtc (edge_step es) root) (explore_fuel es) [root] ∅)
    as (r & Hr & _ & H2 & H3 & H4).
  - unfold explore_fuel. cbn [length]. apply -> Nat.succ_lt_mono. simpl.
    apply Nat.lt_succ_r, length_filter.
  - set_solver.
  - intros b [?| ->%list_elem_of_singleton]; [set_solver|apply rtc_refl].
  - intros a b Ha Hab. by eapply rtc_r.
  - exists r. split; [done|]. intros b. split; [apply H4|]. intros Hb.
    assert (root ∈ r) as Hroot by (apply H2; by constructor).
    clear -Hb Hroot H3. induction Hb as [|a b c Hab _ IH]; [done|]. apply IH. by eapply H3.
Qed.

Lemma label_table_bound p bs label j :
  machine_label_to_block p bs !! label = Some j -> (j < length bs)%nat.
Proof.
  unfold machine_label_to_block. rewrite lookup_omap. intros H.
  destruct (symbols p !! label) as [sd|]; [|done]. simpl in H. destruct (sd_section sd); [|done].
  apply find_index_from_Some in H as (_ & b & Hb & _). apply lookup_lt_Some in Hb. lia.
Qed.

(** Every edge joins two blocks of the graph. *)
Lemma edges_in_range p cfg e :
  machine_cfg p = Ok cfg -> e ∈ edges cfg ->
  (from e < length (blocks cfg) /\ to e < length (blocks cfg))%nat.
Proof.
  unfold machine_cfg. intros H He. inv_ok. subst cfg. simpl in *.
  apply (edges_fold _ _ _ _ _ _ _ E0) in He as [He|(i & b & Hi & Hl)]; [by apply elem_of_nil in He|].
  apply lookup_lt_Some in Hi. unfold leaving in Hl. simpl in Hl.
  destruct Hl as [(l & j & _ & Hj%label_table_bound & ->)|Hl]; [simpl; lia|].
  destruct (terminator b); [destruct Hl as [? ->]|destruct Hl as (j & Hj%label_table_bound & ->)|
    destruct Hl as [(j & Hj%label_table_bound & ->)|[? ->]]|done]; simpl; lia.
Qed.

(** C21.  The reachability pass terminates and is exact: it counts precisely the blocks that no
    path of edges leads to from the root, which is the block the entry label opens, or the
    first block when the program has no such entry. *)
Theorem unreachable_count_exact p cfg :
  machine_cfg p = Ok cfg ->
  exists root (unreachable : gset nat), reachable_roots p cfg = [root] /\
    (forall b, b ∈ unreachable <->
       (b < length (blocks cfg))%nat /\ ~ rtc (edge_step (edges cfg)) root b) /\
    unreachable_machine_block_count p cfg = Some (size unreachable).
Proof.
  intros Hcfg.
  assert (exists root, reachable_roots p cfg = [root] /\
    (0 < length (blocks cfg) -> root < length (blocks cfg))%nat) as (root & Hroot & Hlt).
  { unfold reachable_roots. destruct (entry_label p) as [l|]; simpl; [|eauto].
    destruct (_ !! l) as [r|] eqn:El; [|eauto]. apply label_table_bound in El. eauto. }
  destruct (explore_rtc (edges cfg) root) as (r & Hr & Hspec).
  exists root, (set_seq 0 (length (blocks cfg)) ∖ r). split; [done|]. split.
  { intros b. rewrite elem_of_difference, elem_of_set_seq, Hspec. split; intros [? ?]; (split; [lia|done]). }
  unfold unreachable_machine_block_count. rewrite Hroot, Hr. simpl.
  destruct (blocks cfg) as [|b0 bs] eqn:Eb; [simpl; f_equal|].
  { symmetry. apply size_empty_iff. set_solver. }
  rewrite <- Eb in *. f_equal. assert (r ⊆ set_seq 0 (length (blocks cfg))) as Hsub.
  { intros b Hb%Hspec. apply elem_of_set_seq. split; [lia|]. rewrite Nat.add_0_l.
    apply rtc_inv_r in Hb as [<-|(a & _ & e & He & _ & <-)].
    - apply Hlt. rewrite Eb. simpl. lia.
    - by apply (edges_in_range _ _ _ Hcfg He). }
  rewrite size_difference by done. by rewrite size_set_seq.
Qed.

(** * The theorems at the sample program *)

Lemma machine_blocks_cover_witness :
  exists p cfg, from_lines_with_branch_mode sample_lines (Exact ∅) = Ok p /\ machine_cfg p = Ok cfg /\
    validate_machine_block_coverage p cfg
    = Ok {| cov_executable := length (filter (fun op => is_label op = false) (text_ops p));
            cov_covered := length (filter (fun op => is_label op = false) (text_ops p)) |}.
Proof.
  eexists _, _. split; [vm_compute; reflexivity|]. split; [vm_compute; reflexivity|].
  apply machine_blocks_cover. vm_compute. reflexivity.
Defined.

Lemma machine_blocks_straight_line_witness :
  exists p bs e, from_lines_with_branch_mode sample_lines (Exact ∅) = Ok p /\
    machine_blocks p = Ok bs /\ length bs = 4%nat /\ chain 0 e bs.
Proof.
  assert (exists p bs, from_lines_with_branch_mode sample_lines (Exact ∅) = Ok p /\
            machine_blocks p = Ok bs /\ length bs = 4%nat) as (p & bs & Hp & Hbs & Hl).
  { eexists _, _. split; [vm_compute; reflexivity|]. split; [vm_compute; reflexivity|reflexivity]. }
  destruct (machine_blocks_straight_line p bs Hbs) as (e & Hc & _). exists p, bs, e.
  split; [exact Hp|]. split; [exact Hbs|]. split; [exact Hl|exact Hc].
Defined.

(** The parsed sample and its control-flow graph. *)
Lemma sample_cfg :
  exists p cfg, from_lines_with_branch_mode sample_lines (Exact ∅) = Ok p /\
    code_only (text_ops p) /\ machine_cfg p = Ok cfg /\
    edges cfg = [{| from := 0; to := 2; kind := EConditionalTaken |};
                 {| from := 0; to := 1; kind := EConditionalFallthrough |};
                 {| from := 1; to := 3; kind := ECall |};
                 {| from := 1; to := 2; kind := EFallthrough |}].
Proof.
  eexists _, _. split; [vm_compute; reflexivity|]. split; [repeat constructor|].
  split; [vm_compute; reflexivity|]. reflexivity.
Qed.

Lemma machine_layout_order_exact_witness :
  exists p cfg order, from_lines_with_branch_mode sample_lines (Exact ∅) = Ok p /\
    machine_cfg p = Ok cfg /\ machine_layout_order cfg = Ok order /\
    order_text_size order = text_size p.
Proof.
  destruct sample_cfg as (p & cfg & Hp & _ & Hcfg & _).
  pose proof (machine_layout_order_exact sample_lines ∅ p cfg Hp Hcfg) as Ho.
  exists p, cfg. eexists. split; [exact Hp|]. split; [exact Hcfg|]. split; [exact Ho|reflexivity].
Defined.

Lemma machine_cfg_exact_witness :
  exists p cfg, from_lines_with_branch_mode sample_lines (Exact ∅) = Ok p /\ machine_cfg p = Ok cfg /\
    transfer p (blocks cfg) {| from := 0; to := 2; kind := EConditionalTaken |} /\
    transfer p (blocks cfg) {| from := 1; to := 3; kind := ECall |}.
Proof.
  destruct sample_cfg as (p & cfg & Hp & Hcode & Hcfg & He). exists p, cfg.
  pose proof (machine_cfg_exact sample_lines ∅ p cfg Hp Hcode Hcfg) as Hex.
  split; [exact Hp|]. split; [exact Hcfg|].
  split; apply Hex; rewrite He; repeat (apply elem_of_cons; (left; reflexivity) || right).
Defined.

Lemma unreachable_count_exact_witness :
  exists p cfg root, from_lines_with_branch_mode sample_lines (Exact ∅) = Ok p /\
    machine_cfg p = Ok cfg /\ reachable_roots p cfg = [root].
Proof.
  destruct sample_cfg as (p & cfg & Hp & _ & Hcfg & _).
  destruct (unreachable_count_exact p cfg Hcfg) as (root & _ & Hr & _).
  exists p, cfg, root. split; [exact Hp|]. split; [exact Hcfg|exact Hr].
Defined.
