(* ===== verification/ElfWriter.v ===== *)
(** Emission of the executable (src/codegen/assembler.rs: [reject_unresolved_calls],
    [entry_requires_explicit_parameter_abi], the start trampoline, the three header writers
    and [assemble_elf_internal]).  The output vector is a list of bytes; every mutable
    sub-slice the code takes is [with_slice], which fails where Rust would panic. *)

From Stdlib Require Import ZArith Lia String.
From stdpp Require Import base numbers list option tactics gmap sets.
From S2P Require Import Prelude RustStr Diag Rv64 Immediate Asm Layout MachineCfg.

Open Scope Z_scope.

Definition ELF_HEADER_SIZE : Z := 64.
Definition ELF_PROGRAM_HEADER_SIZE : Z := 56.
Definition ELF_SECTION_HEADER_SIZE : Z := 64.
Definition ELF_SEGMENT_ALIGN : Z := 0x80.
Definition ELF_PF_X : Z := 1.
Definition ELF_PF_R : Z := 4.
Definition EXIT_SYSCALL_NUMBER : Z := 93.

(** The section name table: NUL, .text, NUL, .rodata, NUL, .shstrtab, NUL. *)
Definition ELF_SECTION_NAMES : list Z :=
  [0] ++ chars ".text" ++ [0] ++ chars ".rodata" ++ [0] ++ chars ".shstrtab" ++ [0].

(** * Unresolved calls *)

(** [BTreeMap::entry(k).or_insert_with(v)] on the map as its sorted association list. *)
Fixpoint or_insert {A} (k : str) (v : A) (m : list (str * A)) : list (str * A) :=
  match m with
  | [] => [(k, v)]
  | (k', v') :: m' =>
      match str_compare k k' with
      | Lt => (k, v) :: m
      | Eq => m
      | Gt => (k', v') :: or_insert k v m'
      end
  end.

Definition scan_call (acc : gset str * list (str * GeneratedAssemblyProvenance))
    (numbered : nat * str) : gset str * list (str * GeneratedAssemblyProvenance) :=
  let (labels, calls) := acc in
  let (line_index, line) := numbered in
  match strip_comment line with
  | None => acc
  | Some clean =>
      match strip_suffix (chars ":") clean with
      | Some label => ({[trim label]} ∪ labels, calls)
      | None =>
          match strip_prefix (chars "call ") clean with
          | Some target =>
              match trim target with
              | [] => acc
              | target' =>
                  (labels, or_insert target'
                     {| gap_line := Z.of_nat line_index + 1; gap_text := clean;
                        gap_section := Text; gap_op_index := line_index |} calls)
              end
          | None => acc
          end
      end
  end.

Definition reject_unresolved_calls (lines : list str) : Result unit :=
  let (labels, calls) := fold_left scan_call (enumerate lines) (∅, []) in
  let missing := filter (fun call => call.1 ∉ labels) calls in
  match missing with
  | [] => Ok tt
  | (_, provenance) :: _ =>
      Err (attach provenance (new_error (MUnresolvedCalls (fst <$> missing))))
  end.

Definition entry_requires_explicit_parameter_abi (lines : list str) (entry_label : str) : bool :=
  let marker := chars "# cellscript entry abi: " ++ entry_label
                ++ chars " requires-explicit-parameter-abi" in
  existsb (fun line => str_eqb (trim line) marker) lines.

(** * Buffers *)

(** [f(&mut buf[start..stop])]. *)
Definition with_slice (buf : list Z) (start stop : Z) (f : list Z -> Result (list Z))
  : Result (list Z) :=
  if (0 <=? start) && (start <=? stop) && (stop <=? Z.of_nat (length buf)) then
    let a := Z.to_nat start in
    let b := Z.to_nat stop in
    let? new := f (slice buf a b) in
    Ok (take a buf ++ new ++ drop b buf)
  else fail MPanicSlice.

(** [dst.copy_from_slice(src)]. *)
Definition copy_from_slice (src dst : list Z) : Result (list Z) :=
  if (length dst =? length src)%nat then Ok src else fail MPanicSlice.

(** Consecutive [out[a..b].copy_from_slice(bytes)] statements. *)
Definition put_fields (buf : list Z) (fields : list (Z * list Z)) : Result (list Z) :=
  fold_result (fun buf field =>
      with_slice buf field.1 (field.1 + Z.of_nat (length field.2)) (copy_from_slice field.2))
    buf fields.

(** * Headers *)

Definition write_elf_header (out : list Z) (entry program_header_count section_header_offset
    section_header_count section_name_index : Z) : Result (list Z) :=
  if negb (Z.of_nat (length out) =? ELF_HEADER_SIZE) then fail MHeaderBuffer
  else put_fields (replicate (length out) 0)
    [(0, 0x7f :: chars "ELF"); (4, [2]); (5, [1]); (6, [1]);
     (16, le_bytes 2 2); (18, le_bytes 2 243); (20, le_bytes 4 1); (24, le_bytes 8 entry);
     (32, le_bytes 8 ELF_HEADER_SIZE); (40, le_bytes 8 section_header_offset);
     (48, le_bytes 4 0); (52, le_bytes 2 ELF_HEADER_SIZE);
     (54, le_bytes 2 ELF_PROGRAM_HEADER_SIZE); (56, le_bytes 2 program_header_count);
     (58, le_bytes 2 ELF_SECTION_HEADER_SIZE); (60, le_bytes 2 section_header_count);
     (62, le_bytes 2 section_name_index)].

Definition write_section_header (name_offset section_type flags address offset size alignment : Z)
    (out : list Z) : Result (list Z) :=
  if negb (Z.of_nat (length out) =? ELF_SECTION_HEADER_SIZE) then fail MSectionHeaderBuffer
  else put_fields (replicate (length out) 0)
    [(0, le_bytes 4 name_offset); (4, le_bytes 4 section_type); (8, le_bytes 8 flags);
     (16, le_bytes 8 address); (24, le_bytes 8 offset); (32, le_bytes 8 size);
     (48, le_bytes 8 alignment)].

Definition write_program_header (flags offset vaddr file_size memory_size : Z) (out : list Z)
  : Result (list Z) :=
  if negb (Z.of_nat (length out) =? ELF_PROGRAM_HEADER_SIZE) then fail MProgramHeaderBuffer
  else put_fields (replicate (length out) 0)
    [(0, le_bytes 4 1); (4, le_bytes 4 flags); (8, le_bytes 8 offset); (16, le_bytes 8 vaddr);
     (24, le_bytes 8 vaddr); (32, le_bytes 8 file_size); (40, le_bytes 8 memory_size);
     (48, le_bytes 8 ELF_SEGMENT_ALIGN)].

(** * The executable *)

(** The code at the base address: call the entry (or report exit code 25 when the entry needs
    parameters), then exit with what it returned. *)
Definition start_trampoline (lines : list str) (p : ParsedAssembly) (l : SectionLayout)
    (entry : str) : Result (list Z) :=
  let? first :=
    if entry_requires_explicit_parameter_abi lines entry
    then encode_fixed_li_sequence 10 25
    else
      let? entry_addr := symbol_address (symbols p) entry l in
      encode_call_sequence (text_base l) entry_addr in
  let? exit_number := encode_fixed_li_sequence 17 EXIT_SYSCALL_NUMBER in
  Ok (first ++ exit_number ++ word_bytes encode_ecall).

(** The file around the two emitted sections. *)
Definition write_elf (l : SectionLayout) (rodata_offset : Z) (text_bytes rodata_bytes : list Z)
  : Result (list Z) :=
  let text_len := Z.of_nat (length text_bytes) in
  let rodata_len := Z.of_nat (length rodata_bytes) in
  let names_len := Z.of_nat (length ELF_SECTION_NAMES) in
  let segment_file_payload_size := rodata_offset + rodata_len in
  let segment_file_offset := align_up (ELF_HEADER_SIZE + ELF_PROGRAM_HEADER_SIZE) ELF_SEGMENT_ALIGN in
  let? load_segment_vaddr :=
    ok_or (checked_sub_u64 (text_base l) segment_file_offset) (new_error MTextBaseBelowSegment) in
  let load_segment_file_size := segment_file_offset + segment_file_payload_size in
  let section_names_offset := align_up load_segment_file_size 8 in
  let section_header_offset := align_up (section_names_offset + names_len) 8 in
  let elf_size := section_header_offset + 4 * ELF_SECTION_HEADER_SIZE in
  let elf := replicate (Z.to_nat elf_size) 0 in
  let? elf := with_slice elf 0 ELF_HEADER_SIZE
    (fun out => write_elf_header out (text_base l) 1 section_header_offset 4 3) in
  let? elf := with_slice elf ELF_HEADER_SIZE (ELF_HEADER_SIZE + ELF_PROGRAM_HEADER_SIZE)
    (write_program_header (Z.lor ELF_PF_R ELF_PF_X) 0 load_segment_vaddr load_segment_file_size
       load_segment_file_size) in
  let? elf := with_slice elf segment_file_offset (segment_file_offset + segment_file_payload_size)
    (fun segment =>
       let? segment := with_slice segment 0 text_len (copy_from_slice text_bytes) in
       with_slice segment rodata_offset (rodata_offset + rodata_len) (copy_from_slice rodata_bytes)) in
  let? elf := with_slice elf section_names_offset (section_names_offset + names_len)
    (copy_from_slice ELF_SECTION_NAMES) in
  with_slice elf section_header_offset (section_header_offset + 4 * ELF_SECTION_HEADER_SIZE)
    (fun headers =>
       let? headers := with_slice headers ELF_SECTION_HEADER_SIZE (2 * ELF_SECTION_HEADER_SIZE)
         (write_section_header 1 1 (Z.lor 0x2 0x4) (text_base l) segment_file_offset text_len 4) in
       let? headers := with_slice headers (2 * ELF_SECTION_HEADER_SIZE) (3 * ELF_SECTION_HEADER_SIZE)
         (write_section_header 7 1 0x2 (rodata_base l) (segment_file_offset + rodata_offset)
            rodata_len 8) in
       with_slice headers (3 * ELF_SECTION_HEADER_SIZE) (4 * ELF_SECTION_HEADER_SIZE)
         (write_section_header 15 3 0 0 section_names_offset names_len 1)).

Definition assemble_elf_internal (lines : list str) : Result (list Z) :=
  let? plan := map_err (with_codegen_code E2201) (build lines) in
  let p := parsed plan in
  let l := layout plan in
  let? entry := ok_or (entry_label p) (new_error MNoEntry) in
  let? rodata_offset := rodata_offset l in
  let? trampoline := start_trampoline lines p l entry in
  let? text_bytes :=
    map_err (with_codegen_code E2202) (encode_section p Text trampoline l START_TRAMPOLINE_SIZE) in
  let? rodata_bytes := map_err (with_codegen_code E2202) (encode_section p Rodata [] l 0) in
  write_elf l rodata_offset text_bytes rodata_bytes.

Definition assemble_generated_elf (lines : list str) : Result (list Z) :=
  let? _ := map_err (with_codegen_code E2200) (reject_unresolved_calls lines) in
  assemble_elf_internal lines.

(** The smallest program: the file is 448 bytes long and starts with the ELF magic. *)
Example assemble_small :
  (let? elf := assemble_generated_elf
     [chars ".global main"; chars "main:"; chars "li a0, 0"; chars "ret"] in
   Ok (length elf, take 4 elf, take 28 (drop 128 elf)))
  = Ok (448%nat, [0x7f; 0x45; 0x4c; 0x46],
        [0x97; 0; 0; 0; 0xe7; 0x80; 0x40; 0x01; 0xb7; 0x08; 0; 0; 0x93; 0x88; 0xd8; 0x05;
         0x73; 0; 0; 0; 0x13; 0x05; 0; 0; 0x67; 0x80; 0; 0]).
Proof. vm_compute. reflexivity. Qed.

(** * Unresolved calls: what the scan decides *)

(** The line defines a label, or is a call of a target. *)
Definition line_label (line : str) : option str :=
  clean ← strip_comment line; trim <$> strip_suffix (chars ":") clean.

Definition line_call (line : str) : option str :=
  clean ← strip_comment line;
  match strip_suffix (chars ":") clean with
  | Some _ => None
  | None =>
      rest ← strip_prefix (chars "call ") clean;
      match trim rest with [] => None | target => Some target end
  end.

Lemma or_insert_keys {A} k (v : A) m x : x ∈ (or_insert k v m).*1 <-> x = k \/ x ∈ m.*1.
Proof.
  induction m as [|[k' v'] m IH]; simpl; [set_solver|].
  destruct (str_compare k k') eqn:E; rewrite ?fmap_cons, ?elem_of_cons; simpl.
  - assert (k = k') as ->; [|set_solver].
    clear -E. revert k' E. induction k as [|a k IH]; intros [|b k']; simpl; try done.
    destruct (Z.compare_spec a b) as [->|?|?]; try done. intros ->%IH. done.
  - set_solver.
  - rewrite IH. set_solver.
Qed.

Lemma scan_call_step i line labels calls labels' calls' :
  scan_call (labels, calls) (i, line) = (labels', calls') ->
  (forall x, x ∈ labels' <-> x ∈ labels \/ line_label line = Some x) /\
  (forall x, x ∈ calls'.*1 <-> x ∈ calls.*1 \/ line_call line = Some x).
Proof.
  unfold scan_call, line_label, line_call.
  destruct (strip_comment line) as [clean|]; cbn [mbind option_bind fmap option_fmap option_map]; [|intros [<- <-]%pair_equal_spec; naive_solver].
  destruct (strip_suffix (chars ":") clean) as [label|]; cbn [mbind option_bind fmap option_fmap option_map].
  { intros [<- <-]%pair_equal_spec. split; [set_solver|naive_solver]. }
  destruct (strip_prefix (chars "call ") clean) as [rest|]; cbn [mbind option_bind fmap option_fmap option_map]; [|intros [<- <-]%pair_equal_spec; naive_solver].
  destruct (trim rest) as [|c target]; intros [<- <-]%pair_equal_spec; [naive_solver|].
  split; [naive_solver|]. intros x. rewrite or_insert_keys. naive_solver.
Qed.

Lemma scan_calls lines : forall i labels calls labels' calls',
  fold_left scan_call (enumerate_from i lines) (labels, calls) = (labels', calls') ->
  (forall x, x ∈ labels' <-> x ∈ labels \/ exists line, line ∈ lines /\ line_label line = Some x) /\
  (forall x, x ∈ calls'.*1 <-> x ∈ calls.*1 \/ exists line, line ∈ lines /\ line_call line = Some x).
Proof.
  induction lines as [|line lines IH]; intros i labels calls labels' calls' H;
    cbn [enumerate_from fold_left] in H.
  { injection H as <- <-. set_solver. }
  destruct (scan_call (labels, calls) (i, line)) as [l1 c1] eqn:Es.
  apply scan_call_step in Es as [Hl Hc]. apply IH in H as [H1 H2].
  setoid_rewrite elem_of_cons. split; intros x.
  - rewrite H1, Hl. naive_solver.
  - rewrite H2, Hc. naive_solver.
Qed.

(** C26.  Unresolved calls are rejected exactly: assembly goes on precisely when every target of a
    [call] line is defined by some label line, and the diagnostic otherwise names exactly the
    targets that no line defines. *)
Theorem unresolved_calls_exact lines :
  let called t := exists line, line ∈ lines /\ line_call line = Some t in
  let defined t := exists line, line ∈ lines /\ line_label line = Some t in
  match reject_unresolved_calls lines with
  | Ok _ => forall t, called t -> defined t
  | Err e => exists ts, ce_message e = MUnresolvedCalls ts /\ ts <> [] /\
               forall t, t ∈ ts <-> called t /\ ~ defined t
  end.
Proof.
  simpl. unfold reject_unresolved_calls.
  destruct (fold_left scan_call (enumerate lines) (∅, [])) as [labels calls] eqn:E.
  apply scan_calls in E as [Hl Hc]. setoid_rewrite elem_of_empty in Hl. setoid_rewrite elem_of_nil in Hc.
  assert (forall t, t ∈ (filter (fun call => call.1 ∉ labels) calls).*1 <->
    (exists line, line ∈ lines /\ line_call line = Some t) /\
    ~ (exists line, line ∈ lines /\ line_label line = Some t)) as Hm.
  { intros t. rewrite list_elem_of_fmap. setoid_rewrite list_elem_of_filter. split.
    - intros ([k v] & -> & Hn & Hin). simpl in *. split.
      + destruct (proj1 (Hc k)) as [[]|?]; [|done]. apply list_elem_of_fmap. by exists (k, v).
      + intros Hd. apply Hn, Hl. by right.
    - intros [Hcall Hd]. pose proof (proj2 (Hc t) (or_intror Hcall)) as Hk.
      apply list_elem_of_fmap in Hk as ([k v] & -> & Hin).
      exists (k, v). split_and!; [done| |done]. simpl. intros [[]|?]%Hl. done. }
  destruct (filter (fun call => call.1 ∉ labels) calls) as [|[k v] missing].
  - intros t Hcall. destruct (decide (t ∈ labels)) as [Ht|Ht]; [by apply Hl in Ht as [[]|?]|].
    exfalso. apply (elem_of_nil t), Hm. split; [done|]. intros Hd. apply Ht, Hl. by right.
  - eexists. rewrite attach_message. split; [reflexivity|]. split; [done|exact Hm].
Qed.
