(* ===== verification/ElfChecker.v ===== *)
(** The independent checker's ELF reader (crates/cellscript-artifact-checker/src/elf.rs, and
    [MachineRange] of schema.rs): field access, the header, the program and section tables,
    the instruction allowlist and control-flow decoding.  [parse_elf] is one function in the
    source; here each of its phases is a definition, composed in the source's order. *)

From Stdlib Require Import ZArith Lia String.
From stdpp Require Import base numbers list option tactics.
From S2P Require Import Prelude RustStr.

Open Scope Z_scope.

Definition EM_RISCV : Z := 243.
Definition ET_EXEC : Z := 2.
Definition PT_LOAD : Z := 1.
Definition PF_X : Z := 1.
Definition PF_R : Z := 4.
Definition SHF_ALLOC : Z := 0x2.
Definition SHF_EXECINSTR : Z := 0x4.
Definition SHT_PROGBITS : Z := 1.
Definition SHT_STRTAB : Z := 3.
Definition SHT_RELA : Z := 4.
Definition SHT_DYNAMIC : Z := 6.
Definition SHT_REL : Z := 9.
Definition SHT_DYNSYM : Z := 11.
Definition ELF64_HEADER_SIZE : Z := 64.
Definition ELF64_PROGRAM_HEADER_SIZE : Z := 56.
Definition ELF64_SECTION_HEADER_SIZE : Z := 64.

(** * Errors *)

Inductive ElfErrorKind :=
| Truncated
| InvalidHeader
| UnsupportedClass
| UnsupportedEndian
| UnsupportedType
| UnsupportedMachine
| InvalidTable
| InvalidSection
| ProhibitedLinkState
| MissingText
| InvalidInstruction
| InvalidBranchTarget
| BudgetExceeded.

(** A constant message, or a format string with its arguments. *)
Inductive ElfMessage :=
| Msg (text : string)
| MsgLabel (label : str) (text : string)
| MsgAt (address : Z) (text : string)
| MsgWordAt (word address : Z) (text : string)
| MsgRange (start stop : Z) (text : string)
(** Not a returned error: the Rust code panics here (index out of bounds). *)
| MsgPanic.

Record ElfParseError := { ee_kind : ElfErrorKind; ee_message : ElfMessage }.

Abbreviation ElfResult := (result ElfParseError).
Abbreviation elf_err k m := (Err {| ee_kind := k; ee_message := m |}).

(** * Data *)

Record MachineRange := { r_start : Z; r_end : Z }.

Definition range_len (r : MachineRange) : Z := sat_sub_u64 (r_end r) (r_start r).
Definition range_is_empty (r : MachineRange) : bool := r_start r =? r_end r.
Definition range_contains (r : MachineRange) (address : Z) : bool :=
  (r_start r <=? address) && (address <? r_end r).
Definition contains_range (r other : MachineRange) : bool :=
  (r_start r <=? r_start other) && (r_end other <=? r_end r).

Record ElfSection := {
  s_name : str;
  section_type : Z;
  s_flags : Z;
  s_address : Z;
  s_offset : Z;
  s_size : Z
}.

Definition section_range (s : ElfSection) : MachineRange :=
  {| r_start := s_address s; r_end := sat_add_u64 (s_address s) (s_size s) |}.

Record ElfSegment := {
  seg_flags : Z;
  seg_offset : Z;
  virtual_address : Z;
  file_size : Z;
  memory_size : Z
}.

Inductive DecodedControlFlowKind := FlowConditional | FlowDirect.

Record DecodedControlFlow := {
  cf_address : Z;
  cf_target : Z;
  cf_kind : DecodedControlFlowKind
}.

Record DecodedInstruction := { di_address : Z; di_word : Z }.
Record StackAdjustment := { sa_address : Z; sa_delta : Z }.

Record DecodedText := {
  instructions : list DecodedInstruction;
  stack_adjustments : list StackAdjustment;
  syscall_addresses : list Z;
  control_flow : list DecodedControlFlow
}.

Record ParsedElf := {
  pe_entry : Z;
  pe_sections : list ElfSection;
  pe_segments : list ElfSegment;
  pe_text : ElfSection;
  pe_rodata : ElfSection;
  instruction_count : Z;
  pe_decoded : DecodedText
}.

(** * Reading fields *)

(** [bytes.get(start..end)] for offsets that may exceed the buffer. *)
Definition get_slice (bytes : list Z) (start len : Z) : option (list Z) :=
  if (0 <=? start) && (start + len <=? Z.of_nat (length bytes))
  then Some (take (Z.to_nat len) (drop (Z.to_nat start) bytes)) else None.

Definition read_u16 (bytes : list Z) (offset : Z) : ElfResult Z :=
  match get_slice bytes offset 2 with
  | Some s => Ok (of_le_bytes s)
  | None => elf_err Truncated (Msg "ELF u16 field is truncated")
  end.

Definition read_u32 (bytes : list Z) (offset : Z) : ElfResult Z :=
  match get_slice bytes offset 4 with
  | Some s => Ok (of_le_bytes s)
  | None => elf_err Truncated (Msg "ELF u32 field is truncated")
  end.

Definition read_u64 (bytes : list Z) (offset : Z) : ElfResult Z :=
  match get_slice bytes offset 8 with
  | Some s => Ok (of_le_bytes s)
  | None => elf_err Truncated (Msg "ELF u64 field is truncated")
  end.

(** [usize] is 64 bits wide, so the three conversions cannot fail and the addition can. *)
Definition checked_file_range (bytes : list Z) (offset size : Z) (label : str)
  : ElfResult (list Z) :=
  match checked_add_u64 offset size with
  | None => elf_err InvalidTable (MsgLabel label "range overflows usize")
  | Some _ =>
      match get_slice bytes offset size with
      | Some s => Ok s
      | None => elf_err Truncated (MsgLabel label "exceeds artifact bytes")
      end
  end.

Definition checked_table (bytes : list Z) (offset entry_size count : Z) (label : str)
  : ElfResult (list Z) :=
  if U64_MAX <? entry_size * count then elf_err InvalidTable (MsgLabel label "table size overflows")
  else checked_file_range bytes offset (entry_size * count) label.

(** [chunks_exact(n)]: a shorter remainder is dropped. *)
Fixpoint chunks_fuel (fuel n : nat) (l : list Z) : list (list Z) :=
  match fuel with
  | O => []
  | S fuel =>
      if (n <=? length l)%nat then take n l :: chunks_fuel fuel n (drop n l) else []
  end.
Definition chunks_exact (n : nat) (l : list Z) : list (list Z) := chunks_fuel (length l) n l.

(** [iter().position(|b| *b == 0)] and the text before it. *)
Fixpoint before_nul (l : list Z) : option (list Z) :=
  match l with
  | [] => None
  | b :: l' => if b =? 0 then Some [] else (b ::.) <$> before_nul l'
  end.

(** [bytes.get(offset..)]. *)
Definition get_from (bytes : list Z) (offset : Z) : option (list Z) :=
  if offset <=? Z.of_nat (length bytes) then Some (drop (Z.to_nat offset) bytes) else None.

Definition read_c_string (bytes : list Z) (offset : Z) : ElfResult str :=
  let? rest := ok_or (get_from bytes offset)
    {| ee_kind := InvalidSection; ee_message := Msg "section name offset exceeds .shstrtab" |} in
  let? raw := ok_or (before_nul rest)
    {| ee_kind := InvalidSection; ee_message := Msg "section name is not NUL terminated" |} in
  ok_or (from_utf8 raw)
    {| ee_kind := InvalidSection; ee_message := Msg "section name is not UTF-8" |}.

(** * Decoding words *)

(** [((value as i64) << (64 - bits)) >> (64 - bits)]. *)
Definition sign_extend (value bits : Z) : Z :=
  Z.shiftr (as_i64 (Z.shiftl value (64 - bits))) (64 - bits).

Definition add_signed (base offset : Z) : Z :=
  if 0 <=? offset then sat_add_u64 base offset else sat_sub_u64 base (- offset).

Definition bits (word shift mask : Z) : Z := Z.land (Z.shiftr word shift) mask.

Definition opcode_writes_rd (opcode : Z) : bool :=
  bool_decide (opcode ∈ [0x03; 0x13; 0x17; 0x1b; 0x33; 0x37; 0x3b; 0x67; 0x6f]).

Definition one_of (z : Z) (l : list Z) : bool := existsb (Z.eqb z) l.

Definition instruction_is_allowed (word : Z) : bool :=
  let opcode := Z.land word 0x7f in
  let rd := bits word 7 0x1f in
  let funct3 := bits word 12 0x7 in
  let funct7 := bits word 25 0x7f in
  let funct6 := bits word 26 0x3f in
  if opcode =? 0x03 then one_of funct3 [3; 4]
  else if opcode =? 0x13 then
    if one_of funct3 [0; 4; 6; 7] then true
    else if funct3 =? 1 then funct6 =? 0
    else if funct3 =? 3 then Z.shiftr word 20 =? 1
    else if funct3 =? 5 then one_of funct6 [0; 0x10; 0x18]
    else false
  else if one_of opcode [0x17; 0x37] then true
  else if opcode =? 0x6f then one_of rd [0; 1]
  else if opcode =? 0x1b then
    if funct3 =? 0 then true
    else if funct3 =? 1 then funct7 =? 0
    else if funct3 =? 5 then one_of funct7 [0; 0x20; 0x30]
    else false
  else if opcode =? 0x23 then one_of funct3 [0; 1; 2; 3]
  else if opcode =? 0x33 then
    if one_of funct7 [0; 1] then true
    else if funct7 =? 0x20 then one_of funct3 [0; 5]
    else false
  else if opcode =? 0x3b then
    if funct7 =? 0 then one_of funct3 [0; 1; 5]
    else if funct7 =? 1 then one_of funct3 [0; 4; 5; 6; 7]
    else if funct7 =? 0x20 then one_of funct3 [0; 5]
    else false
  else if opcode =? 0x63 then negb (one_of funct3 [2; 3])
  else if opcode =? 0x67 then funct3 =? 0
  else if opcode =? 0x73 then word =? 0x00000073
  else false.

Definition branch_target (address word : Z) : Z :=
  let immediate :=
    Z.lor (Z.lor (Z.lor (Z.shiftl (bits word 31 0x1) 12) (Z.shiftl (bits word 7 0x1) 11))
                 (Z.shiftl (bits word 25 0x3f) 5))
          (Z.shiftl (bits word 8 0xf) 1) in
  add_signed address (sign_extend immediate 13).

Definition jal_target (address word : Z) : Z :=
  let immediate :=
    Z.lor (Z.lor (Z.lor (Z.shiftl (bits word 31 0x1) 20) (Z.shiftl (bits word 12 0xff) 12))
                 (Z.shiftl (bits word 20 0x1) 11))
          (Z.shiftl (bits word 21 0x3ff) 1) in
  add_signed address (sign_extend immediate 21).

Definition instruction_word (bytes : list Z) (index : nat) : ElfResult Z :=
  read_u32 bytes (Z.of_nat index * 4).

Definition decode_call_target (bytes : list Z) (index : nat) (word address : Z) : ElfResult Z :=
  let rd := bits word 7 0x1f in
  let funct3 := bits word 12 0x7 in
  let rs1 := bits word 15 0x1f in
  if negb (rd =? 1) || negb (rs1 =? 1) || negb (funct3 =? 0) || (index =? 0)%nat
  then elf_err InvalidInstruction (MsgAt address "jalr is neither ret nor a canonical auipc/jalr call")
  else
    let? previous := instruction_word bytes (index - 1) in
    if negb (Z.land previous 0x7f =? 0x17) || negb (bits previous 7 0x1f =? 1)
    then elf_err InvalidInstruction (MsgAt address "jalr call is not immediately preceded by auipc ra")
    else
      let high := sign_extend (Z.land previous 0xfffff000) 32 in
      let low := sign_extend (Z.shiftr word 20) 12 in
      Ok (Z.land (add_signed (address - 4) (sat_add_i64 high low)) (Z.lnot 1)).

Definition preceding_frame_constant (bytes : list Z) (index : nat) (register : Z) : option Z :=
  if (index =? 0)%nat || one_of register [0; 2] then None
  else
    addi ← ok_opt (instruction_word bytes (index - 1));
    if (Z.land addi 0x7f =? 0x37) && (bits addi 7 0x1f =? register)
    then Some (sign_extend (Z.land addi 0xfffff000) 32)
    else if (index <? 2)%nat then None
    else
      lui ← ok_opt (instruction_word bytes (index - 2));
      if negb (Z.land addi 0x7f =? 0x13) || negb (bits addi 12 0x7 =? 0)
         || negb (bits addi 7 0x1f =? register) || negb (bits addi 15 0x1f =? register)
         || negb (Z.land lui 0x7f =? 0x37) || negb (bits lui 7 0x1f =? register)
      then None
      else Some (sat_add_i64 (sign_extend (Z.land lui 0xfffff000) 32)
                             (sign_extend (Z.shiftr addi 20) 12)).

Definition validate_stack_pointer_write (bytes : list Z) (index : nat) (word address : Z)
    (adjustments : list StackAdjustment) : ElfResult (list StackAdjustment) :=
  let opcode := Z.land word 0x7f in
  let rd := bits word 7 0x1f in
  if negb (rd =? 2) || negb (opcode_writes_rd opcode) then Ok adjustments
  else
    let rs1 := bits word 15 0x1f in
    let funct3 := bits word 12 0x7 in
    if (opcode =? 0x13) && (funct3 =? 0) && (rs1 =? 2) then
      Ok (adjustments ++ [{| sa_address := address; sa_delta := sign_extend (Z.shiftr word 20) 12 |}])
    else
      let rs2 := bits word 20 0x1f in
      if (opcode =? 0x33) && (funct3 =? 0) && (bits word 25 0x7f =? 0) && (rs1 =? 2) then
        let? delta := ok_or (preceding_frame_constant bytes index rs2)
          {| ee_kind := InvalidInstruction;
             ee_message := MsgAt address
               "stack adjustment does not use an immediately materialised bounded constant" |} in
        Ok (adjustments ++ [{| sa_address := address; sa_delta := delta |}])
      else elf_err InvalidInstruction
             (MsgAt address "instruction writes sp outside the canonical frame-adjustment forms").

(** * The instruction stream *)

Record ScanState := { sc_decoded : DecodedText; unconsumed_auipc_ra : bool }.

Definition scan_start : ScanState :=
  {| sc_decoded := {| instructions := []; stack_adjustments := []; syscall_addresses := [];
                      control_flow := [] |};
     unconsumed_auipc_ra := false |}.

(** The marker of a return address that a PC-relative [auipc ra] defined. *)
Definition next_marker (word : Z) (marker : bool) : bool :=
  let opcode := Z.land word 0x7f in
  let rd := bits word 7 0x1f in
  let rs1 := bits word 15 0x1f in
  if (opcode =? 0x17) && (rd =? 1) then true
  else if ((opcode =? 0x67) && (rs1 =? 1)) || (rd =? 1) then false
  else marker.

(** The control-flow target an instruction names, if it names one. *)
Definition flow_target (bytes : list Z) (index : nat) (word address : Z)
  : ElfResult (option (Z * DecodedControlFlowKind)) :=
  let opcode := Z.land word 0x7f in
  if opcode =? 0x63 then Ok (Some (branch_target address word, FlowConditional))
  else if opcode =? 0x6f then Ok (Some (jal_target address word, FlowDirect))
  else if (opcode =? 0x67) && negb (word =? 0x00008067) then
    let? target := decode_call_target bytes index word address in
    Ok (Some (target, FlowDirect))
  else Ok None.

Definition scan_instruction (bytes : list Z) (base : Z) (text_range : MachineRange)
    (st : ScanState) (numbered : nat * list Z) : ElfResult ScanState :=
  let (index, chunk) := numbered in
  let d := sc_decoded st in
  let word := of_le_bytes chunk in
  let address := base + Z.of_nat index * 4 in
  if negb (instruction_is_allowed word) then
    elf_err InvalidInstruction (MsgWordAt word address "instruction is outside the CellScript RV64 allowlist")
  else
    let? adjustments := validate_stack_pointer_write bytes index word address (stack_adjustments d) in
    if (word =? 0x00008067) && unconsumed_auipc_ra st then
      elf_err InvalidInstruction (MsgAt address "ret returns to an unpaired auipc-defined ra")
    else
      let instructions' := instructions d ++ [{| di_address := address; di_word := word |}] in
      let syscalls :=
        if word =? 0x00000073 then syscall_addresses d ++ [address] else syscall_addresses d in
      let? target := flow_target bytes index word address in
      let? flow :=
        match target with
        | Some (target, kind) =>
            if negb (target mod 4 =? 0) || negb (range_contains text_range target) then
              elf_err InvalidBranchTarget
                (MsgWordAt target address "control-flow target is outside aligned .text")
            else Ok (control_flow d ++
                       [{| cf_address := address; cf_target := target; cf_kind := kind |}])
        | None => Ok (control_flow d)
        end in
      Ok {| sc_decoded := {| instructions := instructions'; stack_adjustments := adjustments;
                             syscall_addresses := syscalls; control_flow := flow |};
            unconsumed_auipc_ra := next_marker word (unconsumed_auipc_ra st) |}.

Definition validate_instructions (bytes : list Z) (base : Z) (text_range : MachineRange)
  : ElfResult DecodedText :=
  let? st := fold_result (scan_instruction bytes base text_range) scan_start
    (enumerate (chunks_exact 4 bytes)) in
  Ok (sc_decoded st).

(** * The phases of [parse_elf] *)

Record ElfHeader := {
  h_entry : Z;
  program_offset : Z;
  section_offset : Z;
  program_entry_size : Z;
  program_count : Z;
  section_entry_size : Z;
  section_count : Z;
  shstr_index : Z
}.

Definition check_identity (bytes : list Z) : ElfResult unit :=
  if Z.of_nat (length bytes) <? ELF64_HEADER_SIZE
  then elf_err Truncated (Msg "ELF header is truncated")
  else if negb (bool_decide (get_slice bytes 0 4 = Some (0x7f :: chars "ELF")))
  then elf_err InvalidHeader (Msg "artifact is not ELF")
  else if negb (default 0 (bytes !! 4%nat) =? 2)
  then elf_err UnsupportedClass (Msg "checker requires ELF64")
  else if negb (default 0 (bytes !! 5%nat) =? 1)
  then elf_err UnsupportedEndian (Msg "checker requires little-endian ELF")
  else Ok tt.

(** The disjunction of the source stops at the first true operand. *)
Definition check_version (bytes : list Z) : ElfResult unit :=
  let bad := elf_err InvalidHeader (Msg "ELF version is not 1") in
  if negb (default 0 (bytes !! 6%nat) =? 1) then bad
  else if existsb (fun b => negb (b =? 0)) (take 9 (drop 7 bytes)) then bad
  else
    let? version := read_u32 bytes 20 in
    if negb (version =? 1) then bad
    else
      let? flags := read_u32 bytes 48 in
      if negb (flags =? 0) then bad else Ok tt.

Definition parse_header (bytes : list Z) : ElfResult ElfHeader :=
  let? _ := check_identity bytes in
  let? _ := check_version bytes in
  let? e_type := read_u16 bytes 16 in
  if negb (e_type =? ET_EXEC) then elf_err UnsupportedType (Msg "checker requires ET_EXEC") else
  let? e_machine := read_u16 bytes 18 in
  if negb (e_machine =? EM_RISCV) then elf_err UnsupportedMachine (Msg "checker requires EM_RISCV") else
  let? e_ehsize := read_u16 bytes 52 in
  if negb (e_ehsize =? ELF64_HEADER_SIZE)
  then elf_err InvalidHeader (Msg "unexpected ELF64 header size") else
  let? entry := read_u64 bytes 24 in
  let? program_offset := read_u64 bytes 32 in
  let? section_offset := read_u64 bytes 40 in
  let? program_entry_size := read_u16 bytes 54 in
  let? program_count := read_u16 bytes 56 in
  let? section_entry_size := read_u16 bytes 58 in
  let? section_count := read_u16 bytes 60 in
  let? shstr_index := read_u16 bytes 62 in
  if (program_count =? 0) || negb (program_entry_size =? ELF64_PROGRAM_HEADER_SIZE)
  then elf_err InvalidTable (Msg "ELF must have standard ELF64 program headers")
  else if (section_count <? 4) || negb (section_entry_size =? ELF64_SECTION_HEADER_SIZE)
          || (section_count <=? shstr_index)
  then elf_err InvalidTable
         (Msg "ELF must contain null, .text, .rodata, and .shstrtab section headers")
  else Ok {| h_entry := entry; program_offset := program_offset; section_offset := section_offset;
             program_entry_size := program_entry_size; program_count := program_count;
             section_entry_size := section_entry_size; section_count := section_count;
             shstr_index := shstr_index |}.

Definition segment_contains (s : ElfSegment) (address : Z) : bool :=
  (virtual_address s <=? address)
  && (address <? sat_add_u64 (virtual_address s) (memory_size s)).

Definition segment_contains_range (s : ElfSegment) (address size : Z) : bool :=
  (virtual_address s <=? address)
  && (sat_add_u64 address size <=? sat_add_u64 (virtual_address s) (memory_size s)).

Definition parse_segment (bytes : list Z) (segments : list ElfSegment) (header : list Z)
  : ElfResult (list ElfSegment) :=
  let? p_type := read_u32 header 0 in
  if negb (p_type =? PT_LOAD)
  then elf_err ProhibitedLinkState (Msg "checker permits only PT_LOAD program headers") else
  let? flags := read_u32 header 4 in
  let? offset := read_u64 header 8 in
  let? vaddr := read_u64 header 16 in
  let? fsize := read_u64 header 32 in
  let? msize := read_u64 header 40 in
  let? _ := checked_file_range bytes offset fsize (chars "PT_LOAD") in
  if msize <? fsize
  then elf_err InvalidTable (Msg "PT_LOAD memory size is smaller than file size") else
  match checked_add_u64 vaddr msize with
  | None => elf_err InvalidTable (Msg "PT_LOAD virtual range overflows")
  | Some _ =>
      if negb (flags =? Z.lor PF_R PF_X)
      then elf_err ProhibitedLinkState
             (Msg "CellScript ELF PT_LOAD segments must be read/execute and never writable")
      else Ok (segments ++ [{| seg_flags := flags; seg_offset := offset; virtual_address := vaddr;
                               file_size := fsize; memory_size := msize |}])
  end.

Definition parse_segments (bytes : list Z) (h : ElfHeader) : ElfResult (list ElfSegment) :=
  let? table := checked_table bytes (program_offset h) (program_entry_size h) (program_count h)
    (chars "program header") in
  let? segments := fold_result (parse_segment bytes) []
    (chunks_exact (Z.to_nat (program_entry_size h)) table) in
  if negb (length segments =? 1)%nat
  then elf_err InvalidTable (Msg "checker requires one PT_LOAD image")
  else if negb (existsb (fun s => negb (Z.land (seg_flags s) PF_X =? 0)
                                  && segment_contains s (h_entry h)) segments)
  then elf_err InvalidTable
         (Msg "ELF entry is not contained in an executable PT_LOAD segment")
  else Ok segments.

Definition admitted_names : list (list Z) :=
  [chars ".text" ++ [0]; chars ".rodata" ++ [0]; chars ".shstrtab" ++ [0]].

Definition prohibited_names : list str :=
  chars <$> [".dynamic"; ".dynsym"; ".dynstr"; ".interp"; ".plt"; ".got"; ".got.plt"]%string.

Definition parse_section (bytes strings : list Z) (sections : list ElfSection)
    (numbered : nat * list Z) : ElfResult (list ElfSection) :=
  let (index, header) := numbered in
  if (index =? 0)%nat then
    if existsb (fun b => negb (b =? 0)) header
    then elf_err InvalidSection (Msg "ELF null section header is not zero") else Ok sections
  else
    let? name_offset := read_u32 header 0 in
    if negb (existsb (fun prefix =>
          match get_from strings name_offset with
          | Some rest => starts_with prefix rest
          | None => false
          end) admitted_names)
    then elf_err InvalidSection
           (Msg "section name is outside the admitted .text/.rodata/.shstrtab set") else
    let? name := read_c_string strings name_offset in
    let? stype := read_u32 header 4 in
    let? flags := read_u64 header 8 in
    let? address := read_u64 header 16 in
    let? offset := read_u64 header 24 in
    let? size := read_u64 header 32 in
    match checked_add_u64 address size with
    | None => elf_err InvalidSection (Msg "section virtual range overflows")
    | Some _ =>
        let? _ := checked_file_range bytes offset size name in
        if one_of stype [SHT_RELA; SHT_DYNAMIC; SHT_REL; SHT_DYNSYM]
           || existsb (str_eqb name) prohibited_names
        then elf_err ProhibitedLinkState (MsgLabel name "prohibited dynamic or relocation section")
        else Ok (sections ++ [{| s_name := name; section_type := stype; s_flags := flags;
                                 s_address := address; s_offset := offset; s_size := size |}])
    end.

(** [sections.sort_by(|a, b| a.name.cmp(&b.name))]: a stable sort. *)
Fixpoint insert_section (x : ElfSection) (l : list ElfSection) : list ElfSection :=
  match l with
  | [] => [x]
  | y :: l' =>
      match str_compare (s_name x) (s_name y) with
      | Gt => y :: insert_section x l'
      | _ => x :: l
      end
  end.
Definition sort_sections (l : list ElfSection) : list ElfSection := foldr insert_section [] l.

Fixpoint adjacent_names (l : list ElfSection) : bool :=
  match l with
  | x :: (y :: _) as l' => str_eqb (s_name x) (s_name y) || adjacent_names l'
  | _ => false
  end.

Definition parse_sections (bytes : list Z) (h : ElfHeader) : ElfResult (list ElfSection) :=
  let? table := checked_table bytes (section_offset h) (section_entry_size h) (section_count h)
    (chars "section header") in
  let? string_header := ok_or (get_slice table (shstr_index h * section_entry_size h)
      (section_entry_size h))
    {| ee_kind := InvalidTable; ee_message := Msg "section string table header is missing" |} in
  let bad := elf_err InvalidSection
    (Msg "section-name table has an invalid type, flags, or address") in
  let? stype := read_u32 string_header 4 in
  if negb (stype =? SHT_STRTAB) then bad else
  let? sflags := read_u64 string_header 8 in
  if negb (sflags =? 0) then bad else
  let? saddress := read_u64 string_header 16 in
  if negb (saddress =? 0) then bad else
  let? string_offset := read_u64 string_header 24 in
  let? string_size := read_u64 string_header 32 in
  let? strings := checked_file_range bytes string_offset string_size (chars ".shstrtab") in
  let? sections := fold_result (parse_section bytes strings) []
    (enumerate (chunks_exact (Z.to_nat (section_entry_size h)) table)) in
  let sections := sort_sections sections in
  if adjacent_names sections
  then elf_err InvalidSection (Msg "ELF contains duplicate section names")
  else if negb (length sections =? 3)%nat
          || negb (bool_decide (s_name <$> sections
                                = [chars ".rodata"; chars ".shstrtab"; chars ".text"]))
  then elf_err InvalidSection (Msg "checker permits exactly .text, .rodata, and .shstrtab sections")
  else Ok sections.

Definition find_section (name : string) (l : list ElfSection) : option ElfSection :=
  List.find (fun s => str_eqb (s_name s) (chars name)) l.

(** A section must be the file-backed part of the segment it is mapped by. *)
Definition mapping_ok (segment : ElfSegment) (s : ElfSection) : bool :=
  let relative := checked_sub_u64 (s_address s) (virtual_address segment) in
  segment_contains_range segment (s_address s) (s_size s)
  && match relative ≫= (fun v => checked_add_u64 v (s_size s)) with
     | Some stop => stop <=? file_size segment
     | None => false
     end
  && bool_decide (relative ≫= (fun v => checked_add_u64 (seg_offset segment) v) = Some (s_offset s)).

Definition check_text (entry : Z) (text rodata : ElfSection) : ElfResult unit :=
  if negb (section_type text =? SHT_PROGBITS)
     || negb (s_flags text =? Z.lor SHF_ALLOC SHF_EXECINSTR)
     || (s_size text =? 0) || negb (s_size text mod 4 =? 0) || negb (s_address text mod 4 =? 0)
     || negb (entry mod 4 =? 0)
  then elf_err InvalidSection (Msg ".text must be non-empty, executable, and four-byte aligned")
  else if negb (section_type rodata =? SHT_PROGBITS) || negb (s_flags rodata =? SHF_ALLOC)
  then elf_err InvalidSection (Msg ".rodata must not be executable")
  else if negb (range_contains (section_range text) entry)
  then elf_err InvalidSection (Msg "ELF entry is outside .text")
  else Ok tt.

Definition check_mapping (segment : ElfSegment) (text rodata : ElfSection) : ElfResult unit :=
  let? _ := fold_result (fun _ s =>
      if negb (mapping_ok segment s)
      then elf_err InvalidSection (MsgLabel (s_name s) "differs from its file-backed PT_LOAD mapping")
      else Ok tt) tt [text; rodata] in
  if negb (s_size rodata =? 0)
     && (r_start (section_range text) <? r_end (section_range rodata))
     && (r_start (section_range rodata) <? r_end (section_range text))
  then elf_err InvalidSection (Msg "allocated sections overlap")
  else Ok tt.

(** No transfer may enter the [jalr] half of a call pair. *)
Definition check_flow (text_address : Z) (decoded : DecodedText) : ElfResult unit :=
  fold_result (fun _ flow =>
      match instructions decoded !! Z.to_nat ((cf_target flow - text_address) / 4) with
      | None => elf_err InvalidBranchTarget MsgPanic
      | Some target =>
          if (Z.land (di_word target) 0x7f =? 0x67) && negb (di_word target =? 0x00008067)
          then elf_err InvalidBranchTarget
                 (Msg "control flow enters the second instruction of a PC-relative call")
          else Ok tt
      end) tt (control_flow decoded).

Definition decode_text (bytes : list Z) (text : ElfSection) (max_instructions : Z)
  : ElfResult DecodedText :=
  let count := s_size text / 4 in
  if max_instructions <? count
  then elf_err BudgetExceeded (MsgRange count max_instructions "ELF instruction count exceeds budget")
  else
    let? text_bytes := checked_file_range bytes (s_offset text) (s_size text) (chars ".text") in
    let? decoded := validate_instructions text_bytes (s_address text) (section_range text) in
    let? _ := check_flow (s_address text) decoded in
    Ok decoded.

Definition parse_elf (bytes : list Z) (max_instructions : Z) : ElfResult ParsedElf :=
  let? h := parse_header bytes in
  let? segments := parse_segments bytes h in
  let? sections := parse_sections bytes h in
  let? text := ok_or (find_section ".text" sections)
    {| ee_kind := MissingText; ee_message := Msg "ELF has no .text section" |} in
  let? rodata := ok_or (find_section ".rodata" sections)
    {| ee_kind := InvalidSection; ee_message := Msg "ELF has no .rodata section" |} in
  let? _ := check_text (h_entry h) text rodata in
  match segments with
  | [] => elf_err InvalidTable MsgPanic
  | segment :: _ =>
      let? _ := check_mapping segment text rodata in
      let? decoded := decode_text bytes text max_instructions in
      Ok {| pe_entry := h_entry h; pe_sections := sections; pe_segments := segments;
            pe_text := text; pe_rodata := rodata; instruction_count := s_size text / 4;
            pe_decoded := decoded |}
  end.

(** * Queries on a parsed file *)

Definition bytes_for_range (elf : ParsedElf) (artifact : list Z) (range : MachineRange)
  : ElfResult (list Z) :=
  let? section := ok_or
    (List.find (fun s => negb (Z.land (s_flags s) SHF_ALLOC =? 0)
                         && contains_range (section_range s) range) (pe_sections elf))
    {| ee_kind := InvalidSection;
       ee_message := MsgRange (r_start range) (r_end range) "machine range is outside all ELF sections" |} in
  let? relative := ok_or (checked_sub_u64 (r_start range) (s_address section))
    {| ee_kind := InvalidSection; ee_message := Msg "machine range begins before its ELF section" |} in
  let? start := ok_or (checked_add_u64 (s_offset section) relative)
    {| ee_kind := InvalidSection; ee_message := Msg "machine range file offset overflows usize" |} in
  let? _ := ok_or (checked_add_u64 start (range_len range))
    {| ee_kind := InvalidSection; ee_message := Msg "machine range end overflows usize" |} in
  ok_or (get_slice artifact start (range_len range))
    {| ee_kind := Truncated; ee_message := Msg "machine range exceeds artifact bytes" |}.

Record ElfSummary := {
  su_entry : Z;
  text_range : MachineRange;
  text_size_bytes : Z;
  rodata_range : MachineRange;
  rodata_size_bytes : Z;
  su_instruction_count : Z;
  syscall_count : nat;
  su_section_count : nat;
  load_segment_count : nat
}.

Definition summary (elf : ParsedElf) : ElfSummary :=
  {| su_entry := pe_entry elf; text_range := section_range (pe_text elf);
     text_size_bytes := s_size (pe_text elf); rodata_range := section_range (pe_rodata elf);
     rodata_size_bytes := s_size (pe_rodata elf); su_instruction_count := instruction_count elf;
     syscall_count := length (syscall_addresses (pe_decoded elf));
     su_section_count := length (pe_sections elf);
     load_segment_count := length (pe_segments elf) |}.
