(* ===== verification/Isa.v ===== *)
(** The checker's word predicates (crates/cellscript-artifact-checker/src/checker/isa.rs) and
    the field view of an instruction word that the decoding proofs share. *)

From Stdlib Require Import ZArith Lia.
From stdpp Require Import base numbers list option tactics.
From S2P Require Import Prelude RustStr Diag Rv64 ElfChecker.

Open Scope Z_scope.

(** * Predicates *)

(** [(word as i32) >> 20]. *)
Definition i_immediate (word : Z) : Z := Z.shiftr (as_i32 word) 20.

(** [((decoded as i32) << 20) >> 20] of the two halves of a store offset. *)
Definition s_immediate (word : Z) : Z :=
  let decoded := Z.lor (Z.shiftl (bits word 25 0x7f) 5) (bits word 7 0x1f) in
  Z.shiftr (as_i32 (Z.shiftl decoded 20)) 20.

Definition is_addi (word rd rs1 immediate : Z) : bool :=
  (Z.land word 0x7f =? 0x13) && (bits word 12 0x7 =? 0) && (bits word 7 0x1f =? rd)
  && (bits word 15 0x1f =? rs1) && (i_immediate word =? immediate).

Definition is_lui (word rd immediate : Z) : bool :=
  (Z.land word 0x7f =? 0x37) && (bits word 7 0x1f =? rd) && (Z.land word 0xfffff000 =? immediate).

Definition is_ld (word rd rs1 immediate : Z) : bool :=
  (Z.land word 0x7f =? 0x03) && (bits word 12 0x7 =? 0x3) && (bits word 7 0x1f =? rd)
  && (bits word 15 0x1f =? rs1) && (i_immediate word =? immediate).

Definition is_sd (word rs2 rs1 immediate : Z) : bool :=
  (Z.land word 0x7f =? 0x23) && (bits word 12 0x7 =? 0x3) && (bits word 20 0x1f =? rs2)
  && (bits word 15 0x1f =? rs1) && (s_immediate word =? immediate).

Definition is_sub (word rd rs1 rs2 : Z) : bool :=
  (Z.land word 0x7f =? 0x33) && (bits word 25 0x7f =? 0x20) && (bits word 12 0x7 =? 0)
  && (bits word 7 0x1f =? rd) && (bits word 15 0x1f =? rs1) && (bits word 20 0x1f =? rs2).

Definition is_add (word rd rs1 rs2 : Z) : bool :=
  (Z.land word 0x7f =? 0x33) && (bits word 25 0x7f =? 0) && (bits word 12 0x7 =? 0)
  && (bits word 7 0x1f =? rd) && (bits word 15 0x1f =? rs1) && (bits word 20 0x1f =? rs2).

Definition is_mul (word rd rs1 rs2 : Z) : bool :=
  (Z.land word 0x7f =? 0x33) && (bits word 25 0x7f =? 0x01) && (bits word 12 0x7 =? 0)
  && (bits word 7 0x1f =? rd) && (bits word 15 0x1f =? rs1) && (bits word 20 0x1f =? rs2).

Definition is_or (word rd rs1 rs2 : Z) : bool :=
  (Z.land word 0x7f =? 0x33) && (bits word 25 0x7f =? 0) && (bits word 12 0x7 =? 6)
  && (bits word 7 0x1f =? rd) && (bits word 15 0x1f =? rs1) && (bits word 20 0x1f =? rs2).

Definition is_and (word rd rs1 rs2 : Z) : bool :=
  (Z.land word 0x7f =? 0x33) && (bits word 25 0x7f =? 0) && (bits word 12 0x7 =? 7)
  && (bits word 7 0x1f =? rd) && (bits word 15 0x1f =? rs1) && (bits word 20 0x1f =? rs2).

Definition is_sltu (word rd rs1 rs2 : Z) : bool :=
  (Z.land word 0x7f =? 0x33) && (bits word 25 0x7f =? 0) && (bits word 12 0x7 =? 3)
  && (bits word 7 0x1f =? rd) && (bits word 15 0x1f =? rs1) && (bits word 20 0x1f =? rs2).

Definition is_lbu (word rd rs1 immediate : Z) : bool :=
  (Z.land word 0x7f =? 0x03) && (bits word 12 0x7 =? 4) && (bits word 7 0x1f =? rd)
  && (bits word 15 0x1f =? rs1) && (i_immediate word =? immediate).

Definition is_store (word function rs2 rs1 immediate : Z) : bool :=
  (Z.land word 0x7f =? 0x23) && (bits word 12 0x7 =? function) && (bits word 20 0x1f =? rs2)
  && (bits word 15 0x1f =? rs1) && (s_immediate word =? immediate).

Definition is_sb (word rs2 rs1 immediate : Z) : bool := is_store word 0 rs2 rs1 immediate.
Definition is_sw (word rs2 rs1 immediate : Z) : bool := is_store word 2 rs2 rs1 immediate.

Definition is_srli (word rd rs1 shift : Z) : bool :=
  (Z.land word 0x7f =? 0x13) && (bits word 12 0x7 =? 5) && (bits word 26 0x3f =? 0)
  && (bits word 7 0x1f =? rd) && (bits word 15 0x1f =? rs1) && (bits word 20 0x3f =? shift).

Definition is_slli (word rd rs1 shift : Z) : bool :=
  (Z.land word 0x7f =? 0x13) && (bits word 12 0x7 =? 1) && (bits word 26 0x3f =? 0)
  && (bits word 7 0x1f =? rd) && (bits word 15 0x1f =? rs1) && (bits word 20 0x3f =? shift).

Definition is_auipc (word rd : Z) : bool := (Z.land word 0x7f =? 0x17) && (bits word 7 0x1f =? rd).

Definition is_jalr_call (word : Z) : bool :=
  (Z.land word 0x7f =? 0x67) && (bits word 7 0x1f =? 1) && (bits word 12 0x7 =? 0)
  && (bits word 15 0x1f =? 1).

Definition is_branch (word function rs1 rs2 : Z) : bool :=
  (Z.land word 0x7f =? 0x63) && (bits word 12 0x7 =? function) && (bits word 15 0x1f =? rs1)
  && (bits word 20 0x1f =? rs2).
Definition is_beq (word rs1 rs2 : Z) : bool := is_branch word 0 rs1 rs2.
Definition is_bne (word rs1 rs2 : Z) : bool := is_branch word 1 rs1 rs2.
Definition is_bltu (word rs1 rs2 : Z) : bool := is_branch word 6 rs1 rs2.
Definition is_bgeu (word rs1 rs2 : Z) : bool := is_branch word 7 rs1 rs2.

Definition is_jal_zero (word : Z) : bool := (Z.land word 0x7f =? 0x6f) && (bits word 7 0x1f =? 0).

(** * Fields of a word *)

(** Every format has an opcode, two five-bit fields around a three-bit one, and twelve bits
    on top. *)
Record fields (w op rd f3 rs1 top : Z) : Prop := {
  fd_op : Z.land w 0x7f = op;
  fd_rd : bits w 7 0x1f = rd;
  fd_f3 : bits w 12 0x7 = f3;
  fd_rs1 : bits w 15 0x1f = rs1;
  fd_top : Z.shiftr w 20 = top;
  fd_word : w = top * 0x100000 + rs1 * 0x8000 + f3 * 0x1000 + rd * 0x80 + op;
  fd_op_range : 0 <= op < 128;
  fd_rd_range : 0 <= rd < 32;
  fd_f3_range : 0 <= f3 < 8;
  fd_rs1_range : 0 <= rs1 < 32;
  fd_top_range : 0 <= top < 4096
}.

Lemma bits_div w s m n : 0 <= s -> (forall x, Z.land x m = x mod n) -> bits w s m = (w / 2 ^ s) mod n.
Proof. intros Hs Hm. unfold bits. by rewrite Hm, Z.shiftr_div_pow2. Qed.

Lemma word_fields op rd f3 rs1 top :
  0 <= op < 128 -> 0 <= rd < 32 -> 0 <= f3 < 8 -> 0 <= rs1 < 32 -> 0 <= top < 4096 ->
  fields (top * 0x100000 + rs1 * 0x8000 + f3 * 0x1000 + rd * 0x80 + op) op rd f3 rs1 top.
Proof.
  intros. constructor; try done.
  - rewrite land_0x7f. zdivmod.
  - rewrite (bits_div _ 7 _ _ ltac:(lia) land_0x1f). pow2_consts. zdivmod.
  - rewrite (bits_div _ 12 _ _ ltac:(lia) land_0x7). pow2_consts. zdivmod.
  - rewrite (bits_div _ 15 _ _ ltac:(lia) land_0x1f). pow2_consts. zdivmod.
  - rewrite Z.shiftr_div_pow2 by lia. pow2_consts. zdivmod.
Qed.

(** The remaining slices of the top twelve bits. *)
Section Top.
Context (w op rd f3 rs1 top : Z) (F : fields w op rd f3 rs1 top).

Lemma top_range : 0 <= top < 4096.
Proof. by apply F. Qed.
Lemma bits_top k m n : (forall x, Z.land x m = x mod n) -> 0 <= k ->
  bits w (20 + k) m = (top / 2 ^ k) mod n.
Proof.
  intros Hm Hk. unfold bits. rewrite Hm. f_equal.
  rewrite <- Z.shiftr_shiftr, (fd_top _ _ _ _ _ _ F) by lia. by apply Z.shiftr_div_pow2.
Qed.
Lemma fd_rs2 : bits w 20 0x1f = top mod 32.
Proof.
  change (bits w (20 + 0) 0x1f = top mod 32). rewrite (bits_top 0 _ _ land_0x1f) by lia.
  by rewrite Z.div_1_r.
Qed.
Lemma fd_shamt : bits w 20 0x3f = top mod 64.
Proof.
  change (bits w (20 + 0) 0x3f = top mod 64). rewrite (bits_top 0 _ _ land_0x3f) by lia.
  by rewrite Z.div_1_r.
Qed.
Lemma fd_f7 : bits w 25 0x7f = top / 32.
Proof.
  change (bits w (20 + 5) 0x7f = top / 32). rewrite (bits_top 5 _ _ land_0x7f) by lia.
  pow2_consts. pose proof top_range. zdivmod.
Qed.
Lemma fd_f6 : bits w 26 0x3f = top / 64.
Proof.
  change (bits w (20 + 6) 0x3f = top / 64). rewrite (bits_top 6 _ _ land_0x3f) by lia.
  pow2_consts. pose proof top_range. zdivmod.
Qed.
End Top.

(** * Fields of the encodings *)

Section Encodings.
Context (op rd f3 rs1 rs2 : Z).
Hypotheses (Hop : 0 <= op < 128) (Hrd : reg_ok rd) (Hf3 : 0 <= f3 < 8) (Hrs1 : reg_ok rs1)
  (Hrs2 : reg_ok rs2).

Lemma r_fields f7 : 0 <= f7 < 128 ->
  fields (encode_r_type op rd f3 rs1 rs2 f7) op rd f3 rs1 (f7 * 32 + rs2).
Proof.
  unfold reg_ok in *. intros. rewrite encode_r_type_sum by (unfold reg_ok; lia).
  replace (f7 * 0x2000000 + rs2 * 0x100000 + rs1 * 0x8000 + f3 * 0x1000 + rd * 0x80 + op)
    with ((f7 * 32 + rs2) * 0x100000 + rs1 * 0x8000 + f3 * 0x1000 + rd * 0x80 + op) by lia.
  apply word_fields; lia.
Qed.

Lemma i_fields imm w : encode_i_type op rd f3 rs1 imm = Ok w ->
  fields w op rd f3 rs1 (imm mod 4096) /\ -2048 <= imm < 2048.
Proof using Hop Hrd Hf3 Hrs1.
  clear Hrs2 rs2.
  intros H. apply encode_i_type_ok in H as [Hr ->]; try done. split; [|lia].
  unfold reg_ok in *. apply word_fields; try lia. all: zdivmod.
Qed.

Lemma s_fields imm w : encode_s_type op f3 rs1 rs2 imm = Ok w ->
  fields w op (imm mod 32) f3 rs1 ((imm mod 4096) / 32 * 32 + rs2) /\ -2048 <= imm < 2048.
Proof using Hop Hf3 Hrs1 Hrs2.
  clear Hrd rd.
  intros H. apply encode_s_type_ok in H as [Hr ->]; try done. split; [|lia].
  unfold reg_ok in *.
  assert (0 <= imm mod 4096 / 32 < 128) by zdivmod.
  assert (0 <= imm mod 32 < 32) by zdivmod.
  match goal with |- fields ?w _ _ _ _ _ => replace w with
    ((imm mod 4096 / 32 * 32 + rs2) * 0x100000 + rs1 * 0x8000 + f3 * 0x1000 + (imm mod 32) * 0x80 + op)
  end.
  - apply word_fields; lia.
  - zdivmod.
Qed.
End Encodings.

(** * Immediates reassembled *)

Lemma sign_extend_mod v b :
  0 < b <= 63 -> 0 <= v < 2 ^ b -> sign_extend v b = (v + 2 ^ (b - 1)) mod 2 ^ b - 2 ^ (b - 1).
Proof.
  intros Hb Hv. unfold sign_extend, as_s. rewrite Z.shiftr_div_pow2, Z.shiftl_mul_pow2 by lia.
  assert (2 ^ 64 = 2 ^ b * 2 ^ (64 - b)) as E1 by (rewrite <- Z.pow_add_r by lia; f_equal; lia).
  assert (2 ^ (64 - 1) = 2 ^ (b - 1) * 2 ^ (64 - b)) as E2
    by (rewrite <- Z.pow_add_r by lia; f_equal; lia).
  rewrite E1, E2, <- Z.mul_add_distr_r, Z.mul_mod_distr_r, <- Z.mul_sub_distr_r by lia.
  apply Z.div_mul. lia.
Qed.

(** A signed value survives its two's-complement field. *)
Lemma sign_extend_field d b :
  0 < b <= 63 -> - 2 ^ (b - 1) <= d < 2 ^ (b - 1) -> sign_extend (d mod 2 ^ b) b = d.
Proof.
  intros Hb Hd. assert (2 ^ b = 2 * 2 ^ (b - 1)) as E
    by (rewrite <- Z.pow_succ_r by lia; f_equal; lia).
  rewrite sign_extend_mod by (try apply Z.mod_pos_bound; lia).
  rewrite Z.add_mod_idemp_l by lia. rewrite Z.mod_small; lia.
Qed.

Lemma sign_extend_12 imm : -2048 <= imm < 2048 -> sign_extend (imm mod 4096) 12 = imm.
Proof. intros. apply (sign_extend_field imm 12); [lia|done]. Qed.

Lemma lor4 n a b c d x y z :
  0 <= d < 2 ^ z -> 0 <= c < 2 ^ (y - z) -> 0 <= b < 2 ^ (x - y) -> 0 <= n < z -> z <= y <= x ->
  0 <= a -> d mod 2 ^ n = 0 ->
  Z.lor (Z.lor (Z.lor (Z.shiftl a x) (Z.shiftl b y)) (Z.shiftl c z)) d
  = a * 2 ^ x + b * 2 ^ y + c * 2 ^ z + d.
Proof.
  intros Hd Hc Hb Hn Hxy Ha _. rewrite !Z.shiftl_mul_pow2 by lia.
  assert (2 ^ x = 2 ^ (x - y) * 2 ^ y) as Ex by (rewrite <- Z.pow_add_r by lia; f_equal; lia).
  assert (2 ^ y = 2 ^ (y - z) * 2 ^ z) as Ey by (rewrite <- Z.pow_add_r by lia; f_equal; lia).
  rewrite (lor_add_disjoint x (a * 2 ^ x) (b * 2 ^ y)); [|lia|nia|by rewrite Z.mod_mul by lia].
  rewrite (lor_add_disjoint y _ (c * 2 ^ z)); [|lia|nia|].
  2:{ rewrite Ex, Z.mul_assoc, <- Z.mul_add_distr_r. apply Z.mod_mul. lia. }
  rewrite (lor_add_disjoint z _ d); [done|lia|done|].
  rewrite Ex, Ey, !Z.mul_assoc, <- !Z.mul_add_distr_r. apply Z.mod_mul. lia.
Qed.

Lemma bits_range w s m n : 0 < n -> (forall x, Z.land x m = x mod n) -> 0 <= bits w s m < n.
Proof. intros Hn Hm. unfold bits. rewrite Hm. apply Z.mod_pos_bound. lia. Qed.

Lemma branch_immediate w :
  Z.lor (Z.lor (Z.lor (Z.shiftl (bits w 31 0x1) 12) (Z.shiftl (bits w 7 0x1) 11))
               (Z.shiftl (bits w 25 0x3f) 5)) (Z.shiftl (bits w 8 0xf) 1)
  = bits w 31 0x1 * 4096 + bits w 7 0x1 * 2048 + bits w 25 0x3f * 32 + bits w 8 0xf * 2.
Proof.
  pose proof (bits_range w 31 _ 2 ltac:(lia) land_0x1).
  pose proof (bits_range w 7 _ 2 ltac:(lia) land_0x1).
  pose proof (bits_range w 25 _ 64 ltac:(lia) land_0x3f).
  pose proof (bits_range w 8 _ 16 ltac:(lia) land_0xf).
  rewrite (Z.shiftl_mul_pow2 (bits w 8 0xf)) by lia. change (2 ^ 1) with 2.
  rewrite (lor4 0) by (pow2_consts; simpl; try lia; try apply Z.mod_1_r). pow2_consts. done.
Qed.

Lemma jal_immediate w :
  Z.lor (Z.lor (Z.lor (Z.shiftl (bits w 31 0x1) 20) (Z.shiftl (bits w 12 0xff) 12))
               (Z.shiftl (bits w 20 0x1) 11)) (Z.shiftl (bits w 21 0x3ff) 1)
  = bits w 31 0x1 * 1048576 + bits w 12 0xff * 4096 + bits w 20 0x1 * 2048 + bits w 21 0x3ff * 2.
Proof.
  pose proof (bits_range w 31 _ 2 ltac:(lia) land_0x1).
  pose proof (bits_range w 12 _ 256 ltac:(lia) land_0xff).
  pose proof (bits_range w 20 _ 2 ltac:(lia) land_0x1).
  pose proof (bits_range w 21 _ 1024 ltac:(lia) land_0x3ff).
  rewrite (Z.shiftl_mul_pow2 (bits w 21 0x3ff)) by lia. change (2 ^ 1) with 2.
  rewrite (lor4 0) by (pow2_consts; simpl; try lia; try apply Z.mod_1_r). pow2_consts. done.
Qed.

(** Read one field of a word given as a sum. *)
Ltac bits_field s H w :=
  rewrite (bits_div _ s _ _ ltac:(lia) H); subst w; pow2_consts; zdivmod.

(** * Fields of the jump encodings *)

Lemma b_fields op f3 rs1 rs2 imm w :
  0 <= op < 128 -> 0 <= f3 < 8 -> reg_ok rs1 -> reg_ok rs2 ->
  encode_b_type op f3 rs1 rs2 imm = Ok w ->
  -4096 <= imm < 4096 /\ imm mod 2 = 0 /\
  (exists rd hi, fields w op rd f3 rs1 (hi * 32 + rs2)) /\
  bits w 31 0x1 * 4096 + bits w 7 0x1 * 2048 + bits w 25 0x3f * 32 + bits w 8 0xf * 2
  = imm mod 8192.
Proof.
  intros Hop Hf3 H1 H2 H. apply encode_b_type_ok in H as (Hr & He & Hw); try done. simpl in Hw.
  unfold reg_ok in *. split; [done|]. split; [done|].
  set (m := imm mod 8192) in *. assert (0 <= m < 8192 /\ m mod 2 = 0) as [Hm Hm2] by (unfold m; zdivmod).
  clearbody m. assert (m = m / 4096 * 4096 + (m / 2048) mod 2 * 2048 + (m / 32) mod 64 * 32
    + (m / 2) mod 16 * 2) as Hsum by zdivmod.
  replace ((m / 4096) mod 2) with (m / 4096) in Hw by zdivmod.
  assert (0 <= m / 4096 < 2) by zdivmod. assert (0 <= (m / 2048) mod 2 < 2) by zdivmod.
  assert (0 <= (m / 32) mod 64 < 64) by zdivmod. assert (0 <= (m / 2) mod 16 < 16) by zdivmod.
  revert Hw Hsum. generalize dependent (m / 4096). generalize dependent ((m / 2048) mod 2).
  generalize dependent ((m / 32) mod 64). generalize dependent ((m / 2) mod 16).
  intros d Hd c Hc b Hb a Ha -> Hsum. split.
  - exists (d * 2 + b), (a * 64 + c).
    replace (a * 0x80000000 + c * 0x2000000 + rs2 * 0x100000 + rs1 * 0x8000 + f3 * 0x1000
      + d * 0x100 + b * 0x80 + op)
      with (((a * 64 + c) * 32 + rs2) * 0x100000 + rs1 * 0x8000 + f3 * 0x1000
            + (d * 2 + b) * 0x80 + op) by lia.
    apply word_fields; lia.
  - set (w := _ + op).
    assert (bits w 31 0x1 = a) as -> by (bits_field 31 land_0x1 w).
    assert (bits w 7 0x1 = b) as -> by (bits_field 7 land_0x1 w).
    assert (bits w 25 0x3f = c) as -> by (bits_field 25 land_0x3f w).
    assert (bits w 8 0xf = d) as -> by (bits_field 8 land_0xf w). lia.
Qed.

Lemma j_fields op rd imm w :
  0 <= op < 128 -> reg_ok rd -> encode_j_type op rd imm = Ok w ->
  -1048576 <= imm < 1048576 /\ imm mod 2 = 0 /\
  (exists f3 rs1 top, fields w op rd f3 rs1 top) /\
  bits w 31 0x1 * 1048576 + bits w 12 0xff * 4096 + bits w 20 0x1 * 2048 + bits w 21 0x3ff * 2
  = imm mod 2097152.
Proof.
  intros Hop Hrd H. apply encode_j_type_ok in H as (Hr & He & Hw); try done. simpl in Hw.
  unfold reg_ok in *. split; [done|]. split; [done|].
  set (m := imm mod 2097152) in *.
  assert (0 <= m < 2097152 /\ m mod 2 = 0) as [Hm Hm2] by (unfold m; zdivmod).
  clearbody m. assert (m = m / 1048576 * 1048576 + (m / 4096) mod 256 * 4096
    + (m / 2048) mod 2 * 2048 + (m / 2) mod 1024 * 2) as Hsum by zdivmod.
  replace ((m / 1048576) mod 2) with (m / 1048576) in Hw by zdivmod.
  assert (0 <= m / 1048576 < 2) by zdivmod. assert (0 <= (m / 2048) mod 2 < 2) by zdivmod.
  assert (0 <= (m / 4096) mod 256 < 256) by zdivmod. assert (0 <= (m / 2) mod 1024 < 1024) by zdivmod.
  revert Hw Hsum. generalize dependent (m / 1048576). generalize dependent ((m / 2048) mod 2).
  generalize dependent ((m / 4096) mod 256). generalize dependent ((m / 2) mod 1024).
  intros d Hd c Hc b Hb a Ha -> Hsum. split.
  - exists (c mod 8), (c / 8), (a * 2048 + d * 2 + b).
    replace (a * 0x80000000 + d * 0x200000 + b * 0x100000 + c * 0x1000 + rd * 0x80 + op)
      with ((a * 2048 + d * 2 + b) * 0x100000 + c / 8 * 0x8000 + c mod 8 * 0x1000 + rd * 0x80 + op)
      by zdivmod.
    apply word_fields; try lia; zdivmod.
  - set (w := _ + op).
    assert (bits w 31 0x1 = a) as -> by (bits_field 31 land_0x1 w).
    assert (bits w 12 0xff = c) as -> by (bits_field 12 land_0xff w).
    assert (bits w 20 0x1 = b) as -> by (bits_field 20 land_0x1 w).
    assert (bits w 21 0x3ff = d) as -> by (bits_field 21 land_0x3ff w). lia.
Qed.

Lemma u_fields op rd imm :
  0 <= op < 128 -> reg_ok rd ->
  (exists f3 rs1 top, fields (encode_u_type op rd imm) op rd f3 rs1 top) /\
  Z.land (encode_u_type op rd imm) 0xfffff000 = (imm mod 1048576) * 4096.
Proof.
  intros Hop Hrd. rewrite encode_u_type_sum by done. unfold reg_ok in *.
  assert (0 <= imm mod 1048576 < 1048576) as Hm by zdivmod.
  generalize dependent (imm mod 1048576). intros m Hm. split.
  - exists (m mod 8), (m / 8 mod 32), (m / 256).
    replace (m * 0x1000 + rd * 0x80 + op)
      with (m / 256 * 0x100000 + m / 8 mod 32 * 0x8000 + m mod 8 * 0x1000 + rd * 0x80 + op)
      by zdivmod.
    apply word_fields; try lia; zdivmod.
  - rewrite land_high20 by (pow2_consts; lia). zdivmod.
Qed.
