(* ===== verification/Decode.v ===== *)
(** The checker decodes what the assembler encodes: branch, jump and call targets survive the
    round trip through the instruction word, every emitted word is on the checker's
    allowlist, and a text of emitted words is read back word by word. *)

From Stdlib Require Import ZArith Lia.
From stdpp Require Import base numbers list option tactics gmap.
From S2P Require Import Prelude RustStr Diag Rv64 Immediate Asm Layout LayoutFacts ElfChecker Isa.

Open Scope Z_scope.

(** * Words of a text *)

Definition code_bytes (ws : list Z) : list Z := concat (word_bytes <$> ws).

Lemma code_bytes_app a b : code_bytes (a ++ b) = code_bytes a ++ code_bytes b.
Proof. unfold code_bytes. by rewrite fmap_app, concat_app. Qed.

Lemma code_bytes_cons w ws : code_bytes (w :: ws) = word_bytes w ++ code_bytes ws.
Proof. done. Qed.

Lemma code_bytes_one a : code_bytes [a] = word_bytes a.
Proof. rewrite code_bytes_cons. apply app_nil_r. Qed.

Lemma code_bytes_pair a b : code_bytes [a; b] = word_bytes a ++ word_bytes b.
Proof. by rewrite code_bytes_cons, code_bytes_one. Qed.

Lemma length_code_bytes ws : length (code_bytes ws) = (4 * length ws)%nat.
Proof.
  induction ws as [|w ws IH]; [done|]. rewrite code_bytes_cons, length_app, IH, length_word_bytes.
  simpl. lia.
Qed.

Lemma word_bytes_value w : word_ok w -> of_le_bytes (word_bytes w) = w.
Proof. intros Hw. apply of_le_bytes_small. exact Hw. Qed.

Lemma chunks_code_fuel ws : forall fuel, (length ws <= fuel)%nat ->
  chunks_fuel fuel 4 (code_bytes ws) = word_bytes <$> ws.
Proof.
  induction ws as [|w ws IH]; intros fuel Hf; [by destruct fuel|].
  destruct fuel as [|fuel]; [simpl in Hf; lia|]. rewrite code_bytes_cons. cbn [chunks_fuel].
  rewrite length_app, length_word_bytes. cbn [Nat.leb Nat.add].
  pose proof (length_word_bytes w) as Hlen.
  rewrite <- Hlen at 1. rewrite take_app_length. rewrite <- Hlen at 2. rewrite drop_app_length.
  rewrite IH by (simpl in Hf; lia). done.
Qed.

Lemma chunks_code ws : chunks_exact 4 (code_bytes ws) = word_bytes <$> ws.
Proof. apply chunks_code_fuel. rewrite length_code_bytes. lia. Qed.

Lemma get_slice_app a b c : get_slice (a ++ b ++ c) (Z.of_nat (length a)) (Z.of_nat (length b)) = Some b.
Proof.
  unfold get_slice. rewrite !length_app.
  rewrite (proj2 (Z.leb_le 0 _)), (proj2 (Z.leb_le (_ + _) _)) by lia. simpl.
  by rewrite !Nat2Z.id, drop_app_length, take_app_length.
Qed.

Lemma instruction_word_code ws i w :
  ws !! i = Some w -> word_ok w -> instruction_word (code_bytes ws) i = Ok w.
Proof.
  intros Hi Hw. destruct (list_elem_of_split_length _ _ _ Hi) as (pre & post & -> & ->).
  unfold instruction_word, read_u32. rewrite code_bytes_app, code_bytes_cons.
  pose proof (get_slice_app (code_bytes pre) (word_bytes w) (code_bytes post)) as H.
  rewrite length_code_bytes, length_word_bytes in H.
  replace (Z.of_nat (length pre) * 4) with (Z.of_nat (4 * length pre)) by lia.
  change (Z.of_nat 4) with 4 in H. rewrite H. by rewrite word_bytes_value.
Qed.

Lemma fields_word_ok w op rd f3 rs1 top : fields w op rd f3 rs1 top -> word_ok w.
Proof. intros []. unfold word_ok. pow2_consts. lia. Qed.

(** * Targets *)

Lemma add_signed_exact base d : 0 <= base -> 0 <= base + d <= U64_MAX -> add_signed base d = base + d.
Proof.
  intros Hb Hd. unfold add_signed, sat_add_u64, sat_sub_u64. destruct (Z.leb_spec 0 d); lia.
Qed.

Lemma branch_target_encoded f3 rs1 rs2 d w pc :
  0 <= f3 < 8 -> reg_ok rs1 -> reg_ok rs2 -> encode_b_type 0x63 f3 rs1 rs2 d = Ok w ->
  0 <= pc -> 0 <= pc + d <= U64_MAX -> branch_target pc w = pc + d.
Proof.
  intros Hf H1 H2 H Hpc Hd. apply b_fields in H as (Hr & He & _ & Himm); try done.
  unfold branch_target. rewrite branch_immediate, Himm.
  change (d mod 8192) with (d mod 2 ^ 13). rewrite sign_extend_field by (pow2_consts; lia). by apply add_signed_exact.
Qed.

Lemma jal_target_encoded rd d w pc :
  reg_ok rd -> encode_j_type 0x6f rd d = Ok w ->
  0 <= pc -> 0 <= pc + d <= U64_MAX -> jal_target pc w = pc + d.
Proof.
  intros Hrd H Hpc Hd. apply j_fields in H as (Hr & He & _ & Himm); try done.
  unfold jal_target. rewrite jal_immediate, Himm.
  change (d mod 2097152) with (d mod 2 ^ 21). rewrite sign_extend_field by (pow2_consts; lia). by apply add_signed_exact.
Qed.

(** The upper immediate, read back as the signed value it adds. *)
Lemma upper_immediate op rd hi :
  0 <= op < 128 -> reg_ok rd -> -524288 <= hi < 524288 ->
  sign_extend (Z.land (encode_u_type op rd hi) 0xfffff000) 32 = hi * 4096.
Proof.
  intros Hop Hrd Hhi. destruct (u_fields op rd hi) as [_ Hu]; [done|done|]. rewrite Hu.
  replace (hi mod 1048576 * 4096) with ((hi * 4096) mod 2 ^ 32) by (pow2_consts; zdivmod).
  apply sign_extend_field; [lia|]. pow2_consts. lia.
Qed.

(** What a call pair is: [auipc ra, hi; jalr ra, lo(ra)] with [hi * 4096 + lo] the distance. *)
Lemma call_sequence_words pc target bytes :
  encode_call_sequence pc target = Ok bytes ->
  exists hi lo w, bytes = code_bytes [encode_u_type 0x17 1 hi; w] /\
    hi * 4096 + lo = target - pc /\ -524288 <= hi < 524288 /\ -2048 <= lo < 2048 /\
    encode_i_type 0x67 1 0 1 lo = Ok w /\ fields w 0x67 1 0 1 (lo mod 4096).
Proof.
  unfold encode_call_sequence. intros H. inv_ok. subst.
  unfold relative_offset in E. inv_ok. subst.
  pose proof (split_hi_lo_bounds _ _ _ E0) as Hb. pose proof (proj1 (split_hi_lo_ok _ _ _) E0) as Hok.
  assert (reg_ok 1) as Hr1 by (unfold reg_ok; lia).
  destruct (i_fields 0x67 1 0 1 ltac:(lia) Hr1 ltac:(lia) Hr1 _ _ E1) as [Hf Hlo].
  exists z, z0, a0. rewrite code_bytes_pair. split; [reflexivity|].
  split_and!; try done; lia.
Qed.

(** The checker reads a call pair back as a call of its target. *)
Lemma decode_call_pair ws i hi lo w address :
  ws !! i = Some (encode_u_type 0x17 1 hi) -> ws !! S i = Some w ->
  fields w 0x67 1 0 1 (lo mod 4096) -> -524288 <= hi < 524288 -> -2048 <= lo < 2048 ->
  4 <= address -> 0 <= address - 4 + (hi * 4096 + lo) <= U64_MAX ->
  decode_call_target (code_bytes ws) (S i) w address
  = Ok (Z.land (address - 4 + (hi * 4096 + lo)) (Z.lnot 1)).
Proof.
  intros Hi HSi Hf Hhi Hlo Ha Ht. unfold decode_call_target.
  assert (reg_ok 1) as Hr1 by (unfold reg_ok; lia).
  destruct (u_fields 0x17 1 hi ltac:(lia) Hr1) as [(f3 & rs1 & top & Hu) _].
  destruct Hf as [_ Hrd Hf3 Hrs1 Htop _ _ _ _ _ _].
  rewrite Hrd, Hrs1, Hf3. cbn -[instruction_word Z.land bits Z.lnot Z.shiftr].
  rewrite Nat.sub_0_r, (instruction_word_code _ _ _ Hi) by (by eapply fields_word_ok).
  rewrite (fd_op _ _ _ _ _ _ Hu), (fd_rd _ _ _ _ _ _ Hu). simpl negb. cbn [orb].
  rewrite upper_immediate by (done || lia). rewrite Htop, sign_extend_12 by done.
  unfold sat_add_i64, I64_MIN, I64_MAX.
  rewrite Z.min_l, Z.max_r by lia. by rewrite add_signed_exact by lia.
Qed.

(** * The allowlist *)

Lemma allowed_fields w op rd f3 rs1 top :
  fields w op rd f3 rs1 top ->
  instruction_is_allowed w
  = if op =? 0x03 then one_of f3 [3; 4]
    else if op =? 0x13 then
      if one_of f3 [0; 4; 6; 7] then true
      else if f3 =? 1 then top / 64 =? 0
      else if f3 =? 3 then top =? 1
      else if f3 =? 5 then one_of (top / 64) [0; 0x10; 0x18]
      else false
    else if one_of op [0x17; 0x37] then true
    else if op =? 0x6f then one_of rd [0; 1]
    else if op =? 0x1b then
      if f3 =? 0 then true
      else if f3 =? 1 then top / 32 =? 0
      else if f3 =? 5 then one_of (top / 32) [0; 0x20; 0x30]
      else false
    else if op =? 0x23 then one_of f3 [0; 1; 2; 3]
    else if op =? 0x33 then
      if one_of (top / 32) [0; 1] then true
      else if top / 32 =? 0x20 then one_of f3 [0; 5]
      else false
    else if op =? 0x3b then
      if top / 32 =? 0 then one_of f3 [0; 1; 5]
      else if top / 32 =? 1 then one_of f3 [0; 4; 5; 6; 7]
      else if top / 32 =? 0x20 then one_of f3 [0; 5]
      else false
    else if op =? 0x63 then negb (one_of f3 [2; 3])
    else if op =? 0x67 then f3 =? 0
    else if op =? 0x73 then w =? 0x00000073
    else false.
Proof.
  intros F. unfold instruction_is_allowed.
  by rewrite (fd_op _ _ _ _ _ _ F), (fd_rd _ _ _ _ _ _ F), (fd_f3 _ _ _ _ _ _ F),
    (fd_top _ _ _ _ _ _ F), (fd_f7 _ _ _ _ _ _ F), (fd_f6 _ _ _ _ _ _ F).
Qed.

(** One emitted word that the checker admits. *)
Definition admitted (w : Z) : Prop := word_ok w /\ instruction_is_allowed w = true.

Lemma r_admitted rd f3 rs1 rs2 f7 :
  reg_ok rd -> 0 <= f3 < 8 -> reg_ok rs1 -> reg_ok rs2 -> f7 = 0 \/ f7 = 1 \/ f7 = 0x20 /\ (f3 = 0 \/ f3 = 5) ->
  admitted (encode_r_type 0x33 rd f3 rs1 rs2 f7).
Proof.
  intros Hrd Hf3 H1 H2 H7.
  assert (fields (encode_r_type 0x33 rd f3 rs1 rs2 f7) 0x33 rd f3 rs1 (f7 * 32 + rs2)) as F.
  { apply r_fields; (done || lia). }
  split; [by eapply fields_word_ok|]. rewrite (allowed_fields _ _ _ _ _ _ F). simpl.
  replace ((f7 * 32 + rs2) / 32) with f7 by (unfold reg_ok in H2; zdivmod).
  destruct H7 as [->|[->|[-> [->| ->]]]]; done.
Qed.

Lemma i_admitted op rd f3 rs1 imm w :
  reg_ok rd -> 0 <= f3 < 8 -> reg_ok rs1 -> encode_i_type op rd f3 rs1 imm = Ok w ->
  (op = 0x03 /\ (f3 = 3 \/ f3 = 4)) \/
  (op = 0x13 /\ ((f3 = 0 \/ f3 = 4 \/ f3 = 6 \/ f3 = 7) \/ (f3 = 1 /\ 0 <= imm < 64)
     \/ (f3 = 3 /\ imm = 1)
     \/ (f3 = 5 /\ (0 <= imm < 64 \/ 1024 <= imm < 1088 \/ 1536 <= imm < 1600)))) \/
  (op = 0x1b /\ f3 = 5 /\ 1536 <= imm < 1568) \/
  (op = 0x67 /\ f3 = 0) ->
  admitted w.
Proof.
  intros Hrd Hf3 H1 H Hop.
  assert (0 <= op < 128) as Hopr by lia.
  destruct (i_fields op rd f3 rs1 Hopr Hrd Hf3 H1 imm w H) as [F Hr].
  split; [by eapply fields_word_ok|]. rewrite (allowed_fields _ _ _ _ _ _ F).
  assert (0 <= imm -> imm mod 4096 = imm) as Hm by (intros; apply Z.mod_small; lia).
  destruct Hop as [[-> [->| ->]]|[[-> Hop]|[(-> & -> & Hi)|[-> ->]]]]; try done.
  - destruct Hop as [Hop|[[-> Hi]|[[-> ->]|[-> Hi]]]]; [|rewrite Hm by lia|done|rewrite Hm by lia].
    + destruct Hop as [->|[->|[->| ->]]]; done.
    + replace (imm / 64) with 0 by zdivmod. done.
    + destruct Hi as [Hi|[Hi|Hi]]; [replace (imm / 64) with 0 by zdivmod
        |replace (imm / 64) with 0x10 by zdivmod|replace (imm / 64) with 0x18 by zdivmod]; done.
  - rewrite Hm by lia. replace (imm / 32) with 0x30 by zdivmod. done.
Qed.

Lemma s_admitted f3 rs1 rs2 imm w :
  0 <= f3 < 4 -> reg_ok rs1 -> reg_ok rs2 -> encode_s_type 0x23 f3 rs1 rs2 imm = Ok w -> admitted w.
Proof.
  intros Hf3 H1 H2 H.
  destruct (s_fields 0x23 f3 rs1 rs2 ltac:(lia) ltac:(lia) H1 H2 imm w H) as [F _].
  split; [by eapply fields_word_ok|]. rewrite (allowed_fields _ _ _ _ _ _ F).
  assert (f3 = 0 \/ f3 = 1 \/ f3 = 2 \/ f3 = 3) as [->|[->|[->| ->]]] by lia; done.
Qed.

Lemma b_admitted f3 rs1 rs2 imm w :
  f3 = 0 \/ f3 = 1 \/ f3 = 4 \/ f3 = 5 \/ f3 = 6 \/ f3 = 7 -> reg_ok rs1 -> reg_ok rs2 ->
  encode_b_type 0x63 f3 rs1 rs2 imm = Ok w -> admitted w.
Proof.
  intros Hf3 H1 H2 H. apply b_fields in H as (_ & _ & (rd & hi & F) & _); try (done || lia).
  split; [by eapply fields_word_ok|]. rewrite (allowed_fields _ _ _ _ _ _ F).
  destruct Hf3 as [->|[->|[->|[->|[->| ->]]]]]; done.
Qed.

Lemma u_admitted op rd imm :
  op = 0x17 \/ op = 0x37 -> reg_ok rd -> admitted (encode_u_type op rd imm).
Proof.
  intros Hop Hrd. destruct (u_fields op rd imm) as [(f3 & rs1 & top & F) _]; [lia|done|].
  split; [by eapply fields_word_ok|]. rewrite (allowed_fields _ _ _ _ _ _ F).
  destruct Hop as [->| ->]; done.
Qed.

Lemma j_admitted rd imm w :
  rd = 0 \/ rd = 1 -> encode_j_type 0x6f rd imm = Ok w -> admitted w.
Proof.
  intros Hrd H. apply j_fields in H as (_ & _ & (f3 & rs1 & top & F) & _);
    [|lia|unfold reg_ok; lia].
  split; [by eapply fields_word_ok|]. rewrite (allowed_fields _ _ _ _ _ _ F).
  destruct Hrd as [->| ->]; done.
Qed.

(** * Round trips *)

(** C28.  Branches and jumps decode to what was encoded: the assembler encodes a conditional
    branch for exactly the even distances within 4 KiB and a jump for exactly those within
    1 MiB, and the checker's decoder, at any address from which the target is representable,
    computes exactly the target of each. *)
Theorem branch_jump_roundtrip f3 rs1 rs2 rd pc :
  0 <= f3 < 8 -> reg_ok rs1 -> reg_ok rs2 -> reg_ok rd -> 0 <= pc ->
  (forall d, -4096 <= d < 4096 /\ d mod 2 = 0 <-> is_ok (encode_b_type 0x63 f3 rs1 rs2 d) = true) /\
  (forall d w, encode_b_type 0x63 f3 rs1 rs2 d = Ok w -> 0 <= pc + d <= U64_MAX ->
     branch_target pc w = pc + d) /\
  (forall d, -1048576 <= d < 1048576 /\ d mod 2 = 0 <-> is_ok (encode_j_type 0x6f rd d) = true) /\
  (forall d w, encode_j_type 0x6f rd d = Ok w -> 0 <= pc + d <= U64_MAX -> jal_target pc w = pc + d).
Proof.
  intros Hf H1 H2 Hrd Hpc. split_and!.
  - intros d. split.
    + intros [Hr He]. erewrite (proj2 (encode_b_type_ok 0x63 f3 rs1 rs2 d _ ltac:(lia) Hf H1 H2)); [done|].
      split; [exact Hr|]. split; [exact He|reflexivity].
    + destruct (encode_b_type 0x63 f3 rs1 rs2 d) as [w|] eqn:E; [|done]. intros _.
      apply b_fields in E as (Hr & He & _); (done || lia).
  - intros d w Hb Ht. exact (branch_target_encoded _ _ _ _ _ _ Hf H1 H2 Hb Hpc Ht).
  - intros d. split.
    + intros [Hr He]. erewrite (proj2 (encode_j_type_ok 0x6f rd d _ ltac:(lia) Hrd)); [done|].
      split; [exact Hr|]. split; [exact He|reflexivity].
    + destruct (encode_j_type 0x6f rd d) as [w|] eqn:E; [|done]. intros _.
      apply j_fields in E as (Hr & He & _); (done || lia).
  - intros d w Hj Ht. exact (jal_target_encoded _ _ _ _ Hrd Hj Hpc Ht).
Qed.

(** A branch back by 16 bytes and a jump ahead by 1 MiB less two bytes. *)
Lemma branch_jump_roundtrip_witness :
  branch_target 0x10014 0xfe0508e3 = 0x10014 + -16 /\ jal_target 0x10014 0x7ffff06f = 0x10014 + 1048574.
Proof.
  destruct (branch_jump_roundtrip 0 10 0 0 0x10014) as (_ & Hb & _ & Hj); unfold reg_ok; try lia.
  split.
  - apply Hb; [vm_compute; reflexivity|unfold U64_MAX; lia].
  - apply Hj; [vm_compute; reflexivity|unfold U64_MAX; lia].
Defined.

(** C27.  A call decodes to its target: the [auipc]/[jalr] pair the assembler emits for a call at
    [pc] of an even address is recognised by the checker as a canonical call, and decodes to
    that address. *)
Theorem call_sequence_roundtrip pc target bytes :
  encode_call_sequence pc target = Ok bytes -> 0 <= pc -> 0 <= target <= U64_MAX ->
  target mod 2 = 0 ->
  exists w, instruction_word bytes 1 = Ok w /\ decode_call_target bytes 1 w (pc + 4) = Ok target.
Proof.
  intros H Hpc Ht Heven.
  destruct (call_sequence_words _ _ _ H) as (hi & lo & w & -> & Hsum & Hhi & Hlo & _ & Hf).
  exists w. split; [by apply instruction_word_code; [|eapply fields_word_ok]|].
  rewrite (decode_call_pair _ 0 hi lo) by (done || lia). f_equal.
  replace (pc + 4 - 4 + (hi * 4096 + lo)) with target by lia.
  change (Z.lnot 1) with (Z.lnot (Z.ones 1)). rewrite land_lnot_ones by lia. zdivmod.
Qed.

Lemma call_sequence_roundtrip_witness :
  exists bytes w, encode_call_sequence 0x10000 0x20000 = Ok bytes /\
    instruction_word bytes 1 = Ok w /\ decode_call_target bytes 1 w (0x10000 + 4) = Ok 0x20000.
Proof.
  assert (exists bytes, encode_call_sequence 0x10000 0x20000 = Ok bytes) as [bytes Hb]
    by (eexists; vm_compute; reflexivity).
  destruct (call_sequence_roundtrip 0x10000 0x20000 bytes Hb) as (w & Hw & Hd);
    [discriminate|split; discriminate|reflexivity|].
  exists bytes, w. split; [exact Hb|]. split; [exact Hw|exact Hd].
Defined.
