(* ===== verification/Rv64Sem.v ===== *)
(** What the emitted words do when they run: a reference semantics of the RV64 instructions
    that literals, addresses, calls and branches lower to, and the theorems that the emitted
    sequences have the effect of the assembly instruction they stand for.  The semantics is
    the specification side; it is written from the ISA's description of each instruction,
    over the fields of the word, with 64-bit registers as unsigned values. *)

From Stdlib Require Import ZArith Lia.
From stdpp Require Import base numbers list option tactics gmap.
From S2P Require Import Prelude RustStr Diag Rv64 Immediate Asm Layout LayoutFacts ElfChecker Isa Decode.

Open Scope Z_scope.

Record machine := { pc : Z; regs : Z -> Z }.

(** Register [x0] reads as zero and ignores writes. *)
Definition rget (r : Z -> Z) (x : Z) : Z := if x =? 0 then 0 else r x.
Definition rset (r : Z -> Z) (x v : Z) : Z -> Z :=
  fun y => if (y =? x) && negb (x =? 0) then v else r y.

(** The condition of a conditional branch, by its function code. *)
Definition branch_condition (f3 a b : Z) : option bool :=
  if f3 =? 0 then Some (a =? b)
  else if f3 =? 1 then Some (negb (a =? b))
  else if f3 =? 4 then Some (as_i64 a <? as_i64 b)
  else if f3 =? 5 then Some (as_i64 b <=? as_i64 a)
  else if f3 =? 6 then Some (a <? b)
  else if f3 =? 7 then Some (b <=? a)
  else None.

(** The signed displacements of branches and jumps. *)
Definition branch_offset (w : Z) : Z :=
  sign_extend (bits w 31 0x1 * 4096 + bits w 7 0x1 * 2048 + bits w 25 0x3f * 32 + bits w 8 0xf * 2) 13.
Definition jump_offset (w : Z) : Z :=
  sign_extend (bits w 31 0x1 * 1048576 + bits w 12 0xff * 4096 + bits w 20 0x1 * 2048
               + bits w 21 0x3ff * 2) 21.

Definition rv_step (w : Z) (m : machine) : option machine :=
  let op := Z.land w 0x7f in
  let rd := bits w 7 0x1f in
  let f3 := bits w 12 0x7 in
  let rs1 := rget (regs m) (bits w 15 0x1f) in
  let rs2 := rget (regs m) (bits w 20 0x1f) in
  let imm := sign_extend (Z.shiftr w 20) 12 in
  let upper := sign_extend (Z.land w 0xfffff000) 32 in
  let write v := Some {| pc := pc m + 4; regs := rset (regs m) rd v |} in
  if op =? 0x37 then write (as_u64 upper)
  else if op =? 0x17 then write (as_u64 (pc m + upper))
  else if (op =? 0x13) && (f3 =? 0) then write (as_u64 (rs1 + imm))
  else if (op =? 0x13) && (f3 =? 1) && (bits w 26 0x3f =? 0)
  then write (as_u64 (Z.shiftl rs1 (bits w 20 0x3f)))
  else if (op =? 0x13) && (f3 =? 5) && (bits w 26 0x3f =? 0)
  then write (Z.shiftr rs1 (bits w 20 0x3f))
  else if op =? 0x6f then
    Some {| pc := as_u64 (pc m + jump_offset w); regs := rset (regs m) rd (pc m + 4) |}
  else if (op =? 0x67) && (f3 =? 0) then
    Some {| pc := Z.land (as_u64 (rs1 + imm)) (Z.lnot 1); regs := rset (regs m) rd (pc m + 4) |}
  else if op =? 0x63 then
    taken ← branch_condition f3 rs1 rs2;
    Some {| pc := if (taken : bool) then as_u64 (pc m + branch_offset w) else pc m + 4;
            regs := regs m |}
  else None.

(** The word at the program counter, among the words placed at [base]. *)
Definition fetch (base : Z) (ws : list Z) (m : machine) : option Z :=
  if (base <=? pc m) && ((pc m - base) mod 4 =? 0) then ws !! Z.to_nat ((pc m - base) / 4) else None.

(** [n] steps of the words placed at [base]. *)
Fixpoint run_steps (n : nat) (base : Z) (ws : list Z) (m : machine) : option machine :=
  match n with
  | O => Some m
  | S n =>
      w ← fetch base ws m;
      m' ← rv_step w m;
      run_steps n base ws m'
  end.

Lemma fetch_at base ws m i w :
  pc m = base + 4 * Z.of_nat i -> ws !! i = Some w -> fetch base ws m = Some w.
Proof.
  intros Hpc Hi. unfold fetch. rewrite Hpc.
  rewrite (proj2 (Z.leb_le _ _)) by lia.
  replace (base + 4 * Z.of_nat i - base) with (Z.of_nat i * 4) by lia.
  rewrite Z.mod_mul, Z.div_mul, Nat2Z.id by lia. done.
Qed.

(** * Single steps *)

Lemma lui_step rd hi m :
  reg_ok rd -> -524288 <= hi < 524288 ->
  rv_step (encode_u_type 0x37 rd hi) m
  = Some {| pc := pc m + 4; regs := rset (regs m) rd (as_u64 (hi * 4096)) |}.
Proof.
  intros Hrd Hhi. destruct (u_fields 0x37 rd hi ltac:(lia) Hrd) as [(f3 & rs1 & top & F) _].
  unfold rv_step. rewrite (fd_op _ _ _ _ _ _ F), (fd_rd _ _ _ _ _ _ F).
  by rewrite upper_immediate by (done || lia).
Qed.

Lemma auipc_step rd hi m :
  reg_ok rd -> -524288 <= hi < 524288 ->
  rv_step (encode_u_type 0x17 rd hi) m
  = Some {| pc := pc m + 4; regs := rset (regs m) rd (as_u64 (pc m + hi * 4096)) |}.
Proof.
  intros Hrd Hhi. destruct (u_fields 0x17 rd hi ltac:(lia) Hrd) as [(f3 & rs1 & top & F) _].
  unfold rv_step. rewrite (fd_op _ _ _ _ _ _ F), (fd_rd _ _ _ _ _ _ F).
  by rewrite upper_immediate by (done || lia).
Qed.

Lemma addi_step rd rs1 imm w m :
  reg_ok rd -> reg_ok rs1 -> encode_i_type 0x13 rd 0 rs1 imm = Ok w ->
  rv_step w m
  = Some {| pc := pc m + 4; regs := rset (regs m) rd (as_u64 (rget (regs m) rs1 + imm)) |}.
Proof.
  intros Hrd H1 H. destruct (i_fields 0x13 rd 0 rs1 ltac:(lia) Hrd ltac:(lia) H1 _ _ H) as [F Hr].
  unfold rv_step. rewrite (fd_op _ _ _ _ _ _ F), (fd_rd _ _ _ _ _ _ F), (fd_f3 _ _ _ _ _ _ F),
    (fd_rs1 _ _ _ _ _ _ F), (fd_top _ _ _ _ _ _ F), sign_extend_12 by done. done.
Qed.

Lemma shift_step left rd rs1 shamt w m :
  reg_ok rd -> reg_ok rs1 -> 0 <= shamt < 64 ->
  encode_i_type 0x13 rd (if left : bool then 1 else 5) rs1 shamt = Ok w ->
  rv_step w m
  = Some {| pc := pc m + 4;
            regs := rset (regs m) rd
              (if left then as_u64 (Z.shiftl (rget (regs m) rs1) shamt)
               else Z.shiftr (rget (regs m) rs1) shamt) |}.
Proof.
  intros Hrd H1 Hs H.
  destruct (i_fields 0x13 rd (if left then 1 else 5) rs1 ltac:(lia) Hrd ltac:(by destruct left) H1 _ _ H)
    as [F Hr].
  unfold rv_step. rewrite (fd_op _ _ _ _ _ _ F), (fd_rd _ _ _ _ _ _ F), (fd_f3 _ _ _ _ _ _ F),
    (fd_rs1 _ _ _ _ _ _ F), (fd_f6 _ _ _ _ _ _ F), (fd_shamt _ _ _ _ _ _ F).
  replace (shamt mod 4096) with shamt by (symmetry; apply Z.mod_small; lia).
  replace (shamt / 64) with 0 by zdivmod. replace (shamt mod 64) with shamt by zdivmod.
  by destruct left.
Qed.

Lemma branch_step f3 rs1 rs2 d w m taken :
  0 <= f3 < 8 -> reg_ok rs1 -> reg_ok rs2 -> encode_b_type 0x63 f3 rs1 rs2 d = Ok w ->
  branch_condition f3 (rget (regs m) rs1) (rget (regs m) rs2) = Some taken ->
  0 <= pc m -> 0 <= pc m + d <= U64_MAX ->
  rv_step w m = Some {| pc := if taken : bool then pc m + d else pc m + 4; regs := regs m |}.
Proof.
  intros Hf H1 H2 H Hc Hpc Hd. apply b_fields in H as (Hr & _ & (rd & hi & F) & Himm); try (done || lia).
  assert (branch_offset w = d) as Ht.
  { unfold branch_offset. rewrite Himm. apply (sign_extend_field d 13); [lia|]. pow2_consts. lia. }
  unfold rv_step. rewrite (fd_op _ _ _ _ _ _ F), (fd_f3 _ _ _ _ _ _ F), (fd_rs1 _ _ _ _ _ _ F),
    (fd_rs2 _ _ _ _ _ _ F).
  replace ((hi * 32 + rs2) mod 32) with rs2 by (unfold reg_ok in H2; zdivmod).
  simpl. rewrite Hc. simpl. rewrite Ht. unfold U64_MAX in Hd.
  rewrite as_u_small by (pow2_consts; lia). done.
Qed.

Lemma jal_step d w m :
  encode_j_type 0x6f 0 d = Ok w -> 0 <= pc m -> 0 <= pc m + d <= U64_MAX ->
  rv_step w m = Some {| pc := pc m + d; regs := rset (regs m) 0 (pc m + 4) |}.
Proof.
  intros H Hpc Hd. assert (reg_ok 0) as H0 by (unfold reg_ok; lia).
  apply j_fields in H as (Hr & _ & (f3 & rs1 & top & F) & Himm); try (done || lia).
  assert (jump_offset w = d) as Ht.
  { unfold jump_offset. rewrite Himm. apply (sign_extend_field d 21); [lia|]. pow2_consts. lia. }
  unfold rv_step. rewrite (fd_op _ _ _ _ _ _ F), (fd_rd _ _ _ _ _ _ F). simpl. rewrite Ht.
  unfold U64_MAX in Hd. rewrite as_u_small by (pow2_consts; lia). done.
Qed.

(** * Straight-line code *)

Fixpoint run_straight (ws : list Z) (m : machine) : option machine :=
  match ws with
  | [] => Some m
  | w :: ws' => m' ← rv_step w m; if pc m' =? pc m + 4 then run_straight ws' m' else None
  end.

(** Running straight-line words from their base address is running them one by one. *)
Lemma run_steps_straight ws : forall pre m m' base,
  pc m = base + 4 * Z.of_nat (length pre) -> run_straight ws m = Some m' ->
  run_steps (length ws) base (pre ++ ws) m = Some m'.
Proof.
  induction ws as [|w ws IH]; intros pre m m' base Hpc Hrun; [done|]. cbn [run_steps length].
  rewrite (fetch_at base (pre ++ w :: ws) m (length pre) w Hpc) by (by apply list_lookup_middle).
  simpl in Hrun |- *. destruct (rv_step w m) as [m1|]; [|done]. simpl in Hrun |- *.
  destruct (Z.eqb_spec (pc m1) (pc m + 4)) as [Hpc1|]; [|done].
  replace (pre ++ w :: ws) with ((pre ++ [w]) ++ ws) by (by rewrite <- app_assoc).
  apply IH; [|done]. rewrite length_app, Hpc1, Hpc. simpl. lia.
Qed.

Lemma rset_rset r x v v' y : rset (rset r x v) x v' y = rset r x v' y.
Proof. unfold rset. destruct (_ && _); done. Qed.

Lemma rget_rset r x v : x <> 0 -> rget (rset r x v) x = v.
Proof.
  intros Hx. unfold rget, rset. rewrite (proj2 (Z.eqb_neq _ _) Hx), Z.eqb_refl. done.
Qed.

(** Two register files that agree everywhere. *)
Definition same_regs (r r' : Z -> Z) : Prop := forall y, r y = r' y.

(** * Literals *)

(** The words of a plan, step by step. *)
Lemma encode_steps_words rd steps bytes :
  encode_steps rd steps = Ok bytes ->
  exists ws, bytes = code_bytes ws /\ Forall2 (fun s w => encode_step rd s = Ok w) steps ws.
Proof.
  unfold encode_steps.
  assert (forall out bytes,
    fold_result (fun out step => let? word := encode_step rd step in Ok (out ++ word_bytes word))
      out steps = Ok bytes ->
    exists ws, bytes = out ++ code_bytes ws /\ Forall2 (fun s w => encode_step rd s = Ok w) steps ws)
    as H; [|by intros (ws & Hb & Hws)%H; exists ws].
  induction steps as [|s steps IH]; intros out bs H; simpl in H.
  { inv_ok. subst. exists []. by rewrite app_nil_r. }
  inv_ok. subst. apply IH in H as (ws & -> & Hws). exists (a0 :: ws).
  rewrite code_bytes_cons, app_assoc. split; [done|]. by constructor.
Qed.

(** One step of the plan and one step of the machine agree on the destination register. *)
Lemma plan_step_runs rd step w m value next :
  reg_ok rd -> rd <> 0 -> encode_step rd step = Ok w ->
  (forall v, value = Some v -> rget (regs m) rd = v) ->
  evaluate_from value [step] = Some next ->
  exists m', rv_step w m = Some m' /\ pc m' = pc m + 4 /\ same_regs (regs m') (rset (regs m) rd next).
Proof.
  intros Hrd H0 Hw Hv He. assert (reg_ok 0) as Hr0 by (unfold reg_ok; lia).
  destruct step as [imm|imm|shift|imm|shift]; simpl in Hw, He;
    (destruct (in_range _ _ _) eqn:Er in He; [|done]); unfold in_range in Er;
    try (destruct value as [v|]; [|done]); simpl in He; injection He as <-.
  - rewrite (addi_step _ _ _ _ m Hrd Hr0 Hw). eexists; split; [done|]. split; [done|]. done.
  - injection Hw as <-. rewrite lui_step by (done || lia). eexists; split; [done|]. split; [done|].
    rewrite Z.shiftl_mul_pow2 by lia. done.
  - rewrite (shift_step true rd rd shift w m Hrd Hrd ltac:(lia) Hw), (Hv v eq_refl).
    eexists; split; [done|]. by split.
  - rewrite (addi_step _ _ _ _ m Hrd Hrd Hw), (Hv v eq_refl). eexists; split; [done|]. by split.
  - rewrite (shift_step false rd rd shift w m Hrd Hrd ltac:(lia) Hw), (Hv v eq_refl).
    eexists; split; [done|]. by split.
Qed.

Lemma evaluate_from_cons value s steps v :
  evaluate_from value (s :: steps) = Some v ->
  exists next, evaluate_from value [s] = Some next /\ evaluate_from (Some next) steps = Some v.
Proof.
  cbn [evaluate_from]. destruct (match s with AddFromZero _ => _ | _ => _ end) as [n|]; [|done]. eauto.
Qed.

Lemma plan_runs rd steps : forall ws m value v,
  reg_ok rd -> rd <> 0 -> Forall2 (fun s w => encode_step rd s = Ok w) steps ws ->
  (forall x, value = Some x -> rget (regs m) rd = x) -> evaluate_from value steps = Some v ->
  exists m', run_straight ws m = Some m' /\ pc m' = pc m + 4 * Z.of_nat (length ws) /\
    rget (regs m') rd = v /\ (forall y, y <> rd -> regs m' y = regs m y).
Proof.
  induction steps as [|s steps IH]; intros ws m value v Hrd H0 Hws Hv He.
  - inversion Hws; subst. exists m. simpl in He. split_and!; [done|simpl; lia|by apply Hv|done].
  - inversion Hws as [|? w ? ws' Hw Hws']; subst.
    apply evaluate_from_cons in He as (next & Hn & He).
    destruct (plan_step_runs rd s w m value next Hrd H0 Hw Hv Hn) as (m1 & Hm1 & Hpc1 & Hr1).
    destruct (IH ws' m1 (Some next) v Hrd H0 Hws') as (m' & Hrun & Hpc & Hval & Hother); [|done|].
    { intros x [= <-]. unfold rget. rewrite Hr1. fold (rget (rset (regs m) rd next) rd).
      by apply rget_rset. }
    exists m'. cbn [run_straight]. rewrite Hm1. simpl. rewrite Hpc1, Z.eqb_refl.
    split_and!; [done|simpl length; lia|done|]. intros y Hy. rewrite Hother, Hr1 by done.
    unfold rset. by rewrite (proj2 (Z.eqb_neq _ _) Hy).
Qed.

(** C8.  The [li] pseudo-instruction does what it says: the words emitted for it, run on a
    machine, leave the destination register holding the 64-bit pattern of the literal, change
    no other register, and fall through to the next instruction. *)
Theorem li_sequence_executes rd imm bytes m :
  reg_ok rd -> rd <> 0 -> encode_li_sequence rd imm = Ok bytes ->
  exists ws m', bytes = code_bytes ws /\ run_steps (length ws) (pc m) ws m = Some m' /\
    pc m' = pc m + Z.of_nat (length bytes) /\ rget (regs m') rd = as_u64 imm /\
    (forall y, y <> rd -> regs m' y = regs m y).
Proof.
  intros Hrd H0 H. unfold encode_li_sequence in H. inv_ok. apply plan_inv in E as (_ & He & _).
  apply encode_steps_words in H as (ws & -> & Hws).
  destruct (plan_runs rd a ws m None (as_u64 imm) Hrd H0 Hws) as (m' & Hrun & Hpc & Hv & Hy);
    [done|done|].
  exists ws, m'. split; [done|]. rewrite length_code_bytes. split_and!; [|lia|done|done].
  apply (run_steps_straight ws [] m m'); [simpl; lia|done].
Qed.

Lemma li_sequence_executes_witness :
  exists ws m', (let bytes := code_bytes ws in
    encode_li_sequence 10 0x123456789abcdef0 = Ok bytes /\
    run_steps (length ws) 0x10014 ws {| pc := 0x10014; regs := fun _ => 7 |} = Some m') /\
    rget (regs m') 10 = 0x123456789abcdef0 /\ regs m' 11 = 7.
Proof.
  destruct (encode_li_sequence 10 0x123456789abcdef0) as [bytes|] eqn:E;
    [|exfalso; vm_compute in E; discriminate E].
  destruct (li_sequence_executes 10 0x123456789abcdef0 bytes {| pc := 0x10014; regs := fun _ => 7 |}
    ltac:(unfold reg_ok; lia) ltac:(lia) E) as (ws & m' & -> & Hrun & _ & Hv & Hy).
  exists ws, m'. split; [by split|]. split; [exact Hv|by rewrite Hy].
Defined.

(** * Branches *)

Definition branch_code (f3 : Z) : Prop :=
  f3 = 0 \/ f3 = 1 \/ f3 = 4 \/ f3 = 5 \/ f3 = 6 \/ f3 = 7.

Lemma inverse_condition f3 a b c :
  branch_code f3 -> branch_condition f3 a b = Some c ->
  branch_condition (inverse_branch_funct3 f3) a b = Some (negb c).
Proof.
  intros [->|[->|[->|[->|[->| ->]]]]] [= <-]; cbn -[as_s]; f_equal;
    rewrite ?Z.leb_antisym, ?negb_involutive; done.
Qed.

Lemma condition_defined f3 a b : branch_code f3 -> exists c, branch_condition f3 a b = Some c.
Proof. intros [->|[->|[->|[->|[->| ->]]]]]; eexists; reflexivity. Qed.

(** C9.  Branch relaxation preserves the meaning of a branch: in either form, the short one
    and the inverted branch over a jump, the emitted words run in at most two steps to the
    target if the condition of the assembly instruction holds and to the instruction after
    the sequence otherwise, leaving every register alone. *)
Theorem branch_forms_execute inst rs1 rs2 label f3 syms l relaxed m target bytes :
  inst_wf inst -> conditional_branch_parts inst = Some (rs1, rs2, label, f3) ->
  symbol_address syms label l = Ok target -> 0 <= target <= U64_MAX ->
  0 <= pc m <= U64_MAX - 8 ->
  encode_instruction inst (pc m) syms l relaxed = Ok bytes ->
  exists ws n m' taken, bytes = code_bytes ws /\ (1 <= n <= 2)%nat /\
    run_steps n (pc m) ws m = Some m' /\
    branch_condition f3 (rget (regs m) rs1) (rget (regs m) rs2) = Some taken /\
    pc m' = (if taken : bool then target else pc m + Z.of_nat (length bytes)) /\
    same_regs (regs m') (regs m).
Proof.
  intros Hwf Hparts Hsym Ht Hpc H. destruct (conditional_regs _ _ _ _ _ Hwf Hparts) as (H1 & H2 & Hf3).
  assert (encode_branch inst (pc m) syms l relaxed = Ok bytes) as He.
  { destruct inst; try discriminate Hparts; exact H. }
  clear H. unfold encode_branch in He. rewrite Hparts, Hsym in He.
  destruct (condition_defined f3 (rget (regs m) rs1) (rget (regs m) rs2) Hf3) as [taken Hc].
  destruct relaxed.
  - inv_ok. subst bytes. unfold relative_offset in E0. inv_ok. subst a0.
    exists [a; a1], (if taken then 2%nat else 1%nat).
    rewrite code_bytes_pair.
    assert (0 <= inverse_branch_funct3 f3 < 8) as Hinv.
    { destruct Hf3 as [->|[->|[->|[->|[->| ->]]]]]; done. }
    pose proof (branch_step _ _ _ _ _ m (negb taken) Hinv H1 H2 E (inverse_condition _ _ _ _ Hf3 Hc)
      ltac:(lia) ltac:(lia)) as Hskip.
    destruct taken; simpl in Hskip; cbn [run_steps];
      rewrite (fetch_at (pc m) [a; a1] m 0 a) by (done || lia); simpl; rewrite Hskip; simpl.
    + rewrite (fetch_at (pc m) [a; a1] _ 1 a1) by (simpl; done || lia). simpl.
      rewrite (jal_step _ _ _ E1) by (simpl; lia). simpl. eexists _, true.
      split_and!; [done|lia|lia|done|done|simpl; lia|]. intros y. simpl. unfold rset.
      by rewrite andb_false_r.
    + eexists _, false. split_and!; [done|lia|lia|done|done| |done]. simpl.
      lia.
  - inv_ok. unfold relative_offset in E. inv_ok. subst a. unfold emit in He. inv_ok. subst bytes.
    exists [a], 1%nat. rewrite code_bytes_one, length_word_bytes. cbn [run_steps].
    rewrite (fetch_at (pc m) [a] m 0 a) by (done || lia). simpl.
    rewrite (branch_step f3 rs1 rs2 (target - pc m) a m taken ltac:(lia) H1 H2 E Hc ltac:(lia) ltac:(lia)). simpl.
    eexists _, taken. split_and!; [done|lia|lia|done|done| |done]. simpl. destruct taken; lia.
Qed.

(** A loop back edge, in both forms. *)
Definition loop_symbols : gmap str SymbolDef :=
  {[ [108] := {| sd_section := Text; sd_offset := 0; sd_line := 1 |} ]}.

Lemma branch_forms_execute_witness :
  exists ws n m', (1 <= n <= 2)%nat /\
    encode_instruction (Bltu 10 11 [108]) 0x10020 loop_symbols (for_text_user_size 64) true
    = Ok (code_bytes ws) /\
    run_steps n 0x10020 ws {| pc := 0x10020; regs := fun r => r |} = Some m' /\ pc m' = 0x10014.
Proof.
  destruct (encode_instruction (Bltu 10 11 [108]) 0x10020 loop_symbols (for_text_user_size 64) true)
    as [bytes|] eqn:E; [|exfalso; vm_compute in E; discriminate E].
  destruct (branch_forms_execute (Bltu 10 11 [108]) 10 11 [108] 6 loop_symbols (for_text_user_size 64)
    true {| pc := 0x10020; regs := fun r => r |} 0x10014 bytes)
    as (ws & n & m' & taken & -> & Hn & Hrun & Hc & Hpc & _); try done.
  { repeat constructor; unfold reg_ok; lia. }
  exists ws, n, m'. split; [done|]. split; [done|]. split; [done|].
  assert (taken = true) as -> by (vm_compute in Hc; congruence). done.
Defined.

(** * Addresses and calls *)

(** C10.  Addresses and calls reach their symbol: the pair emitted for [la] leaves the address
    of the label in the destination register, and the pair emitted for [call] continues at
    the label's address with the address of the next instruction in [ra]. *)
Theorem address_sequences_execute syms l label target m :
  symbol_address syms label l = Ok target -> 0 <= target <= U64_MAX -> target mod 2 = 0 ->
  0 <= pc m <= U64_MAX - 8 ->
  (forall rd bytes, reg_ok rd -> rd <> 0 ->
     encode_instruction (La rd label) (pc m) syms l false = Ok bytes ->
     exists ws m', bytes = code_bytes ws /\ run_steps 2 (pc m) ws m = Some m' /\
       pc m' = pc m + 8 /\ rget (regs m') rd = target /\
       forall y, y <> rd -> regs m' y = regs m y) /\
  (forall bytes, encode_instruction (Call label) (pc m) syms l false = Ok bytes ->
     exists ws m', bytes = code_bytes ws /\ run_steps 2 (pc m) ws m = Some m' /\
       pc m' = target /\ rget (regs m') 1 = pc m + 8 /\
       forall y, y <> 1 -> regs m' y = regs m y).
Proof.
  intros Hsym Ht He Hpc. split.
  - intros rd bytes Hrd H0 H. cbn [encode_instruction] in H. rewrite Hsym in H.
    unfold encode_address_sequence in H. inv_ok. subst. unfold relative_offset in E. inv_ok. subst.
    apply split_hi_lo_bounds in E0 as (Hhi & Hlo & Hsum).
    eexists [_; _]. rewrite code_bytes_pair. cbn [run_steps].
    rewrite (fetch_at (pc m) _ m 0 (encode_u_type 0x17 rd z)) by (done || lia). cbn [mbind option_bind].
    rewrite auipc_step by (done || lia). cbn [mbind option_bind].
    rewrite (fetch_at (pc m) _ _ 1 a0) by (simpl; done || lia). cbn [mbind option_bind].
    rewrite (addi_step _ _ _ _ _ Hrd Hrd E1). cbn [mbind option_bind regs pc].
    eexists. split; [done|]. split; [done|]. cbn [regs pc]. rewrite !rget_rset by done.
    split; [lia|]. split.
    + rewrite as_u64_add_idemp. unfold U64_MAX in *. rewrite as_u_small by (pow2_consts; lia). lia.
    + intros y Hy. unfold rset. by rewrite (proj2 (Z.eqb_neq _ _) Hy).
  - intros bytes H. cbn [encode_instruction] in H. rewrite Hsym in H.
    apply call_sequence_words in H as (hi & lo & w & -> & Hsum & Hhi & Hlo & Hw & F).
    assert (reg_ok 1) as Hr1 by (unfold reg_ok; lia).
    eexists [_; _]. cbn [run_steps].
    rewrite (fetch_at (pc m) _ m 0 (encode_u_type 0x17 1 hi)) by (done || lia). cbn [mbind option_bind].
    rewrite auipc_step by (done || lia). cbn [mbind option_bind].
    rewrite (fetch_at (pc m) _ _ 1 w) by (simpl; done || lia). cbn [mbind option_bind].
    unfold rv_step. rewrite (fd_op _ _ _ _ _ _ F), (fd_rd _ _ _ _ _ _ F), (fd_f3 _ _ _ _ _ _ F),
      (fd_rs1 _ _ _ _ _ _ F), (fd_top _ _ _ _ _ _ F), sign_extend_12 by done.
    cbn -[as_u rset rget Z.land Z.lnot Z.add]. eexists. split; [done|]. split; [done|]. cbn [regs pc].
    rewrite !rget_rset by done. split; [|split; [lia|]].
    + rewrite as_u64_add_idemp. unfold U64_MAX in *. rewrite as_u_small by (pow2_consts; lia).
      change (Z.lnot 1) with (Z.lnot (Z.ones 1)). rewrite land_lnot_ones by lia. pow2_consts. zdivmod.
    + intros y Hy. unfold rset. by rewrite (proj2 (Z.eqb_neq _ _) Hy).
Qed.

Lemma address_sequences_execute_witness :
  exists ws m', encode_instruction (Call [108]) 0x10020 loop_symbols (for_text_user_size 64) false
    = Ok (code_bytes ws) /\
    run_steps 2 0x10020 ws {| pc := 0x10020; regs := fun r => r |} = Some m' /\ pc m' = 0x10014 /\
    rget (regs m') 1 = 0x10028.
Proof.
  destruct (encode_instruction (Call [108]) 0x10020 loop_symbols (for_text_user_size 64) false)
    as [bytes|] eqn:E; [|exfalso; vm_compute in E; discriminate E].
  destruct (address_sequences_execute loop_symbols (for_text_user_size 64) [108] 0x10014
    {| pc := 0x10020; regs := fun r => r |}) as [_ Hcall]; try done.
  destruct (Hcall bytes E) as (ws & m' & -> & Hrun & Hpc & Hra & _).
  exists ws, m'. by split_and!.
Defined.
