(* ===== verification/ScanFacts.v ===== *)
(** The instruction scan of the checker against a specification of the text it reads: which
    words transfer control and where to, which move [sp] and by how much, which returns may
    follow an [auipc ra].  The specification reads the displacements by the fields of the ISA's
    formats ([branch_offset] and [jump_offset] of Rv64Sem). *)

From Stdlib Require Import ZArith Lia String.
From stdpp Require Import base numbers list option tactics gmap.
From S2P Require Import Prelude RustStr ElfChecker Isa Rv64Sem.

Open Scope Z_scope.

(** * Chunks *)

Lemma chunks_fuel_lookup fuel : forall (l : list Z) k c,
  chunks_fuel fuel 4 l !! k = Some c ->
  c = take 4 (drop (4 * k) l) /\ (4 * k + 4 <= length l)%nat.
Proof.
  induction fuel as [|fuel IH]; intros l k c; cbn [chunks_fuel]; [done|].
  destruct (Nat.leb_spec 4 (length l)) as [Hl|Hl]; [|done]. destruct k as [|k]; simpl lookup.
  - intros [= <-]. split; [by rewrite drop_0|lia].
  - intros [-> Hk]%IH. rewrite drop_drop, length_drop in *. split; [do 2 f_equal; lia|lia].
Qed.

Lemma chunks_fuel_length fuel : forall l : list Z,
  (length l <= fuel)%nat -> length (chunks_fuel fuel 4 l) = (length l / 4)%nat.
Proof.
  induction fuel as [|fuel IH]; intros l Hl; cbn [chunks_fuel]; [destruct l; [done|simpl in Hl; lia]|].
  destruct (Nat.leb_spec 4 (length l)) as [H4|H4].
  - cbn [length]. rewrite IH by (rewrite length_drop; lia). rewrite length_drop.
    replace (length l) with (length l - 4 + 1 * 4)%nat at 2 by lia.
    rewrite Nat.div_add by lia. lia.
  - by rewrite Nat.div_small.
Qed.

Lemma get_slice_some bytes start len r :
  get_slice bytes start len = Some r ->
  0 <= start /\ start + len <= Z.of_nat (length bytes) /\
  r = take (Z.to_nat len) (drop (Z.to_nat start) bytes).
Proof.
  unfold get_slice. destruct (_ && _) eqn:E; [|done]. intros [= <-].
  apply andb_true_iff in E as [?%Z.leb_le ?%Z.leb_le]. done.
Qed.

(** The words of a byte string. *)
Definition words_of (bytes : list Z) : list Z := of_le_bytes <$> chunks_exact 4 bytes.

Lemma words_of_lookup bytes k w :
  words_of bytes !! k = Some w <-> exists c, chunks_exact 4 bytes !! k = Some c /\ w = of_le_bytes c.
Proof. unfold words_of. rewrite list_lookup_fmap_Some. naive_solver. Qed.

Lemma instruction_word_at bytes k w : words_of bytes !! k = Some w -> instruction_word bytes k = Ok w.
Proof.
  intros (c & [-> Hk]%chunks_fuel_lookup & ->)%words_of_lookup.
  unfold instruction_word, read_u32, get_slice.
  rewrite (proj2 (Z.leb_le _ _)), (proj2 (Z.leb_le _ _)) by lia. simpl andb. cbn iota.
  do 4 f_equal. lia.
Qed.

(** * Specification *)

Definition opcode (w : Z) : Z := Z.land w 0x7f.

(** The displacements that [lui] and [auipc], and the I format, add. *)
Definition upper_imm (w : Z) : Z := sign_extend (Z.land w 0xfffff000) 32.
Definition low_imm (w : Z) : Z := sign_extend (Z.shiftr w 20) 12.

(** Saturating address arithmetic. *)
Definition clamp (z : Z) : Z := Z.max 0 (Z.min U64_MAX z).

(** The word opens a call: [auipc ra]. *)
Definition auipc_ra (w : Z) : Prop := opcode w = 0x17 /\ bits w 7 0x1f = 1.

(** The word is [jalr ra, imm(ra)]. *)
Definition jalr_ra (w : Z) : Prop :=
  opcode w = 0x67 /\ w <> 0x00008067 /\ bits w 7 0x1f = 1 /\ bits w 12 0x7 = 0 /\ bits w 15 0x1f = 1.

Definition writes_sp (w : Z) : Prop := bits w 7 0x1f = 2 /\ opcode_writes_rd (opcode w) = true.

Section Spec.
Context (base : Z) (ws : list Z) (k : nat).

Definition address_of : Z := base + Z.of_nat k * 4.

(** The transfers that the [k]-th word makes: every branch, every [jal] and every call pair. *)
Inductive transfer : DecodedControlFlow -> Prop :=
| transfer_branch w :
    ws !! k = Some w -> opcode w = 0x63 ->
    transfer {| cf_address := address_of; cf_target := clamp (address_of + branch_offset w);
                cf_kind := FlowConditional |}
| transfer_jump w :
    ws !! k = Some w -> opcode w = 0x6f ->
    transfer {| cf_address := address_of; cf_target := clamp (address_of + jump_offset w);
                cf_kind := FlowDirect |}
| transfer_call j w prev :
    ws !! k = Some w -> jalr_ra w -> k = S j -> ws !! j = Some prev -> auipc_ra prev ->
    transfer {| cf_address := address_of;
                cf_target := Z.land (clamp (address_of - 4 + (upper_imm prev + low_imm w)))
                               (Z.lnot 1);
                cf_kind := FlowDirect |}.

(** The stack adjustments that the [k]-th word makes: [addi sp, sp, imm], or [add sp, sp, t]
    right after [lui t] or [lui t; addi t, t, imm]. *)
Inductive adjustment : StackAdjustment -> Prop :=
| adjust_imm w :
    ws !! k = Some w -> opcode w = 0x13 -> bits w 7 0x1f = 2 -> bits w 12 0x7 = 0 -> bits w 15 0x1f = 2 ->
    adjustment {| sa_address := address_of; sa_delta := low_imm w |}
| adjust_lui j t w lui :
    ws !! k = Some w -> is_add w 2 2 t = true -> t <> 0 -> t <> 2 ->
    k = S j -> ws !! j = Some lui -> opcode lui = 0x37 -> bits lui 7 0x1f = t ->
    adjustment {| sa_address := address_of; sa_delta := upper_imm lui |}
| adjust_lui_addi j t w addi lui :
    ws !! k = Some w -> is_add w 2 2 t = true -> t <> 0 -> t <> 2 ->
    k = S (S j) -> ws !! S j = Some addi -> opcode addi = 0x13 -> bits addi 12 0x7 = 0 ->
    bits addi 7 0x1f = t -> bits addi 15 0x1f = t ->
    ws !! j = Some lui -> opcode lui = 0x37 -> bits lui 7 0x1f = t ->
    adjustment {| sa_address := address_of; sa_delta := upper_imm lui + low_imm addi |}.

(** A word that ends the effect of [auipc ra]: a jump through [ra], or bits 11 to 7 equal 1. *)
Definition resets_ra (w : Z) : Prop := (opcode w = 0x67 /\ bits w 15 0x1f = 1) \/ bits w 7 0x1f = 1.

(** An [auipc ra] before the [k]-th word that no word in between has reset. *)
Definition ra_pending : Prop :=
  exists j w, (j < k)%nat /\ ws !! j = Some w /\ auipc_ra w /\
    forall i x, (j < i < k)%nat -> ws !! i = Some x -> ~ resets_ra x.
End Spec.

(** * Arithmetic of the targets *)

Lemma add_signed_clamp address offset :
  0 <= address <= U64_MAX -> add_signed address offset = clamp (address + offset).
Proof.
  intros Ha. unfold add_signed, clamp, sat_add_u64, sat_sub_u64. destruct (Z.leb_spec 0 offset); lia.
Qed.

Lemma sign_extend_bound v b :
  0 < b <= 63 -> - 2 ^ (b - 1) <= sign_extend v b < 2 ^ (b - 1).
Proof.
  intros Hb. unfold sign_extend. rewrite Z.shiftr_div_pow2 by lia.
  assert (- 2 ^ 63 <= as_i64 (Z.shiftl v (64 - b)) < 2 ^ 63) as Hr by (unfold as_s; pow2_consts; zdivmod).
  assert (2 ^ 63 = 2 ^ (b - 1) * 2 ^ (64 - b)) as E by (rewrite <- Z.pow_add_r by lia; f_equal; lia).
  rewrite E in Hr. split.
  - apply Z.div_le_lower_bound; [apply Z.pow_pos_nonneg; lia|]. lia.
  - apply Z.div_lt_upper_bound; [apply Z.pow_pos_nonneg; lia|]. lia.
Qed.

Lemma branch_target_spec address w :
  0 <= address <= U64_MAX -> branch_target address w = clamp (address + branch_offset w).
Proof.
  intros Ha. unfold branch_target, branch_offset. rewrite branch_immediate. by apply add_signed_clamp.
Qed.

Lemma jal_target_spec address w :
  0 <= address <= U64_MAX -> jal_target address w = clamp (address + jump_offset w).
Proof.
  intros Ha. unfold jal_target, jump_offset. rewrite jal_immediate. by apply add_signed_clamp.
Qed.

Lemma sat_add_immediates p w :
  sat_add_i64 (upper_imm p) (low_imm w) = upper_imm p + low_imm w.
Proof.
  pose proof (sign_extend_bound (Z.land p 0xfffff000) 32 ltac:(lia)) as H1.
  pose proof (sign_extend_bound (Z.shiftr w 20) 12 ltac:(lia)) as H2. pow2_consts.
  unfold upper_imm, low_imm, sat_add_i64, I64_MIN, I64_MAX. lia.
Qed.

(** * One word *)

Section Word.
Context (bytes : list Z) (base : Z).
Local Abbreviation ws := (words_of bytes).
Hypotheses (Hbase : 0 <= base) (Hend : base + Z.of_nat (length (words_of bytes)) * 4 <= U64_MAX).

Definition flow_list (address : Z) (target : option (Z * DecodedControlFlowKind)) : list DecodedControlFlow :=
  match target with
  | Some (t, kind) => [{| cf_address := address; cf_target := t; cf_kind := kind |}]
  | None => []
  end.

Lemma address_range k w : ws !! k = Some w -> 0 <= address_of base k <= U64_MAX.
Proof using Hbase Hend. intros Hk%lookup_lt_Some. unfold address_of. lia. Qed.

Lemma decode_call_inv k w t :
  ws !! k = Some w -> opcode w = 0x67 -> w <> 0x00008067 ->
  decode_call_target bytes k w (address_of base k) = Ok t ->
  exists j prev, jalr_ra w /\ k = S j /\ ws !! j = Some prev /\ auipc_ra prev /\
    t = Z.land (clamp (address_of base k - 4 + (upper_imm prev + low_imm w))) (Z.lnot 1).
Proof using Hbase Hend.
  intros Hk Hop Hret H. unfold decode_call_target in H.
  destruct (_ || (k =? 0)%nat) eqn:E in H; [done|].
  rewrite !orb_false_iff, !negb_false_iff, !Z.eqb_eq, Nat.eqb_neq in E.
  destruct E as [[[Hrd Hrs] Hf3] Hk0]. destruct k as [|j]; [done|].
  destruct (lookup_lt_is_Some_2 ws j) as [prev Hj]; [apply lookup_lt_Some in Hk; lia|].
  cbn [Nat.sub] in H. rewrite Nat.sub_0_r, (instruction_word_at _ _ _ Hj) in H.
  destruct (_ || _) eqn:E in H; [done|]. rewrite orb_false_iff, !negb_false_iff, !Z.eqb_eq in E.
  destruct E as [Hp1 Hp2]. injection H as <-. exists j, prev. split_and!; try done.
  fold (upper_imm prev). fold (low_imm w). rewrite sat_add_immediates, add_signed_clamp; [done|].
  pose proof (address_range _ _ Hk). unfold address_of in *. lia.
Qed.

Lemma flow_target_spec k w target :
  ws !! k = Some w -> flow_target bytes k w (address_of base k) = Ok target ->
  (forall f, f ∈ flow_list (address_of base k) target <-> transfer base ws k f) /\
  (opcode w = 0x67 -> w = 0x00008067 \/
     exists j prev, jalr_ra w /\ k = S j /\ ws !! j = Some prev /\ auipc_ra prev).
Proof using Hbase Hend.
  intros Hk H. pose proof (address_range _ _ Hk) as Ha. unfold flow_target in H. fold (opcode w) in H.
  assert (forall f, transfer base ws k f -> opcode w = 0x63 \/ opcode w = 0x6f \/
            (opcode w = 0x67 /\ w <> 0x00008067)) as Hop.
  { intros f Hf. unfold jalr_ra in *. destruct Hf as [x Hx ?|x Hx ?|j x prev Hx (? & ? & _)];
      rewrite Hk in Hx; injection Hx as <-; auto. }
  destruct (Z.eqb_spec (opcode w) 0x63) as [E63|E63].
  { injection H as <-. split; [|lia]. intros f. simpl. rewrite list_elem_of_singleton.
    rewrite branch_target_spec by done. split; [intros ->; by apply transfer_branch|].
    intros Hf. destruct Hf as [x Hx Hox|x Hx Hox|j x prev Hx [Hox _]];
      rewrite Hk in Hx; injection Hx as <-; [done|lia|lia]. }
  destruct (Z.eqb_spec (opcode w) 0x6f) as [E6f|E6f].
  { injection H as <-. split; [|lia]. intros f. simpl. rewrite list_elem_of_singleton.
    rewrite jal_target_spec by done. split; [intros ->; by apply transfer_jump|].
    intros Hf. destruct Hf as [x Hx Hox|x Hx Hox|j x prev Hx [Hox _]];
      rewrite Hk in Hx; injection Hx as <-; [lia|done|lia]. }
  destruct (Z.eqb_spec (opcode w) 0x67) as [E67|E67].
  2:{ injection H as <-. split; [|lia]. intros f. simpl. split; [by intros ?%elem_of_nil|].
      intros Hf%Hop. lia. }
  destruct (Z.eqb_spec w 0x00008067) as [Er|Er].
  { injection H as <-. split; [|by left]. intros f. simpl. split; [by intros ?%elem_of_nil|].
    intros Hf%Hop. lia. }
  simpl in H. inv_ok. subst target. apply decode_call_inv in E as (j & prev & Hc & -> & Hj & Hp & ->); [|done..].
  split; [|intros _; right; by exists j, prev]. intros f. simpl. rewrite list_elem_of_singleton.
  split; [intros ->; by eapply transfer_call|].
  intros Hf. destruct Hf as [x Hx Hox|x Hx Hox|j' x prev' Hx _ Hjj Hj' _];
    rewrite Hk in Hx; injection Hx as <-; [lia|lia|].
  injection Hjj as <-. rewrite Hj in Hj'. by injection Hj' as <-.
Qed.

Lemma frame_constant_spec k w t delta :
  ws !! k = Some w -> is_add w 2 2 t = true ->
  preceding_frame_constant bytes k t = Some delta ->
  adjustment base ws k {| sa_address := address_of base k; sa_delta := delta |}.
Proof using.
  clear Hbase Hend. intros Hk Hadd H. unfold preceding_frame_constant, one_of in H. cbn [existsb] in H.
  destruct k as [|j]; [done|]. cbn [Nat.eqb orb Nat.sub] in H. rewrite Nat.sub_0_r in H.
  destruct (Z.eqb_spec t 0) as [|H0]; [done|]. destruct (Z.eqb_spec t 2) as [|H2]; [done|].
  cbn [orb] in H.
  destruct (lookup_lt_is_Some_2 ws j) as [p Hj]; [apply lookup_lt_Some in Hk; lia|].
  rewrite (instruction_word_at _ _ _ Hj) in H. cbn [ok_opt mbind option_bind] in H.
  destruct ((Z.land p 0x7f =? 0x37) && (bits p 7 0x1f =? t)) eqn:E1.
  { injection H as <-. rewrite andb_true_iff, !Z.eqb_eq in E1. destruct E1. by eapply (adjust_lui base ws (S j) j t w p). }
  destruct j as [|j]; [done|]. cbn [Nat.ltb Nat.leb Nat.sub] in H. rewrite Nat.sub_0_r in H.
  destruct (lookup_lt_is_Some_2 ws j) as [q Hq]; [apply lookup_lt_Some in Hk; lia|].
  rewrite (instruction_word_at _ _ _ Hq) in H. cbn [ok_opt mbind option_bind] in H.
  destruct (_ || _) eqn:E2 in H; [done|]. injection H as <-.
  rewrite !orb_false_iff, !negb_false_iff, !Z.eqb_eq in E2. destruct_and!.
  fold (upper_imm q). fold (low_imm p). rewrite sat_add_immediates.
  by eapply (adjust_lui_addi base ws (S (S j)) j t w p q).
Qed.

(** The constant is unique: at most one of the two forms precedes an adjustment. *)
Lemma adjustment_unique k a b : adjustment base ws k a -> adjustment base ws k b -> a = b.
Proof using.
  clear. intros Ha Hb.
  assert (forall w t t', is_add w 2 2 t = true -> is_add w 2 2 t' = true -> t = t') as Ht.
  { intros w t t'. unfold is_add. rewrite !andb_true_iff, !Z.eqb_eq. intros [_ <-] [_ <-]. done. }
  assert (forall w t, is_add w 2 2 t = true -> opcode w <> 0x13) as Hop.
  { intros w t. unfold is_add, opcode. rewrite !andb_true_iff, !Z.eqb_eq. lia. }
  destruct Ha, Hb; simplify_eq; try done;
    try (exfalso; by eapply Hop); try (match goal with
      H1 : is_add ?w 2 2 _ = true, H2 : is_add ?w 2 2 _ = true |- _ => pose proof (Ht _ _ _ H1 H2) end);
    simplify_eq; congruence.
Qed.

Lemma stack_write_spec k w adj adj' :
  ws !! k = Some w -> validate_stack_pointer_write bytes k w (address_of base k) adj = Ok adj' ->
  exists moves, adj' = adj ++ moves /\ (forall a, a ∈ moves <-> adjustment base ws k a) /\
    (writes_sp w -> exists a, adjustment base ws k a).
Proof using.
  clear Hbase Hend. intros Hk H. unfold validate_stack_pointer_write in H.
  assert (forall a, adjustment base ws k a -> writes_sp w) as Hw.
  { intros a Ha. unfold writes_sp, opcode in *.
    destruct Ha as [x Hx Hox Hrd|j t x p Hx Hadd|j t x p q Hx Hadd]; rewrite Hk in Hx; injection Hx as <-.
    - unfold opcode in Hox. by rewrite Hrd, Hox.
    - unfold is_add in Hadd. rewrite !andb_true_iff, !Z.eqb_eq in Hadd. destruct Hadd as [[[[[-> _] _] ->] _] _]. done.
    - unfold is_add in Hadd. rewrite !andb_true_iff, !Z.eqb_eq in Hadd. destruct Hadd as [[[[[-> _] _] ->] _] _]. done. }
  destruct (negb (bits w 7 0x1f =? 2) || negb (opcode_writes_rd (Z.land w 0x7f))) eqn:E1.
  { injection H as <-. exists []. rewrite app_nil_r. split; [done|].
    assert (~ writes_sp w) as Hn.
    { intros [H1 H2]. unfold opcode in H2. by rewrite H1, H2 in E1. }
    split; [|done]. intros a. split; [by intros ?%elem_of_nil|]. intros Ha%Hw. done. }
  rewrite orb_false_iff, !negb_false_iff, Z.eqb_eq in E1. destruct E1 as [Hrd Hwr].
  assert (forall a, adjustment base ws k a -> exists moves, adj ++ [a] = adj ++ moves /\
    (forall x, x ∈ moves <-> adjustment base ws k x) /\ (writes_sp w -> exists a, adjustment base ws k a)) as Hone.
  { intros a Ha. exists [a]. split_and!; [done| |eauto]. intros x. rewrite list_elem_of_singleton.
    split; [by intros ->|]. intros Hx. by eapply adjustment_unique. }
  destruct ((Z.land w 0x7f =? 0x13) && _ && _) eqn:E2 in H.
  { injection H as <-. rewrite !andb_true_iff, !Z.eqb_eq in E2. destruct_and!.
    apply Hone. by apply adjust_imm. }
  destruct ((Z.land w 0x7f =? 0x33) && _ && _ && _) eqn:E3 in H; [|done].
  rewrite !andb_true_iff, !Z.eqb_eq in E3. destruct_and!. inv_ok. subst adj'.
  destruct (preceding_frame_constant bytes k (bits w 20 0x1f)) as [d|] eqn:Ec; [|done].
  match goal with H : ok_or _ _ = Ok _ |- _ => injection H as <- end.
  apply Hone. eapply frame_constant_spec; [exact Hk| |exact Ec].
  unfold is_add. rewrite !andb_true_iff, !Z.eqb_eq. done.
Qed.
End Word.

(** * The scan *)

Lemma ra_pending_S ws k w :
  ws !! k = Some w -> ra_pending ws (S k) <-> auipc_ra w \/ (~ resets_ra w /\ ra_pending ws k).
Proof.
  intros Hk. unfold ra_pending. split.
  - intros (j & x & Hj & Hx & Ha & Hall). destruct (decide (j = k)) as [-> |Hne].
    + left. rewrite Hk in Hx. by injection Hx as <-.
    + right. split; [apply (Hall k); [lia|done]|]. exists j, x. split_and!; [lia|done..|].
      intros i y Hi. apply Hall. lia.
  - intros [Ha|(Hn & j & x & Hj & Hx & Ha & Hall)].
    + exists k, w. split_and!; [lia|done..|]. intros i x Hi. lia.
    + exists j, x. split_and!; [lia|done..|]. intros i y Hi Hy.
      destruct (decide (i = k)) as [-> |]; [|apply (Hall i); [lia|done]].
      rewrite Hk in Hy. by injection Hy as <-.
Qed.

Lemma next_marker_spec w marker P :
  (marker = true <-> P) ->
  (next_marker w marker = true <-> auipc_ra w \/ (~ resets_ra w /\ P)).
Proof.
  intros <-. unfold next_marker, auipc_ra, resets_ra, opcode.
  destruct (Z.eqb_spec (Z.land w 0x7f) 0x17), (Z.eqb_spec (bits w 7 0x1f) 1),
    (Z.eqb_spec (Z.land w 0x7f) 0x67), (Z.eqb_spec (bits w 15 0x1f) 1); simpl; naive_solver lia.
Qed.

Definition decoded_at (base : Z) (k : nat) (c : list Z) : DecodedInstruction :=
  {| di_address := base + Z.of_nat k * 4; di_word := of_le_bytes c |}.

Section Scan.
Context (bytes : list Z) (base : Z) (range : MachineRange).
Local Abbreviation ws := (words_of bytes).
Hypotheses (Hbase : 0 <= base) (Hend : base + Z.of_nat (length (words_of bytes)) * 4 <= U64_MAX).

(** After the first [n] words. *)
Record scan_ok (n : nat) (st : ScanState) : Prop := {
  sk_instructions : instructions (sc_decoded st) = imap (decoded_at base) (take n (chunks_exact 4 bytes));
  sk_allowed : forall k w, (k < n)%nat -> ws !! k = Some w -> instruction_is_allowed w = true;
  sk_flow : forall f, f ∈ control_flow (sc_decoded st) <-> exists k, (k < n)%nat /\ transfer base ws k f;
  sk_target : forall f, f ∈ control_flow (sc_decoded st) ->
    cf_target f mod 4 = 0 /\ range_contains range (cf_target f) = true;
  sk_jalr : forall k w, (k < n)%nat -> ws !! k = Some w -> opcode w = 0x67 -> w = 0x00008067 \/
    exists j prev, jalr_ra w /\ k = S j /\ ws !! j = Some prev /\ auipc_ra prev;
  sk_stack : forall a, a ∈ stack_adjustments (sc_decoded st) <->
    exists k, (k < n)%nat /\ adjustment base ws k a;
  sk_sp : forall k w, (k < n)%nat -> ws !! k = Some w -> writes_sp w -> exists a, adjustment base ws k a;
  sk_marker : unconsumed_auipc_ra st = true <-> ra_pending ws n;
  sk_ret : forall k, (k < n)%nat -> ws !! k = Some 0x00008067 -> ~ ra_pending ws k;
  sk_ecalls : forall a, a ∈ syscall_addresses (sc_decoded st) <->
    {| di_address := a; di_word := 0x00000073 |} ∈ instructions (sc_decoded st)
}.

(** Extending a statement about the first [n] words by the next one. *)
Lemma exists_S (P : nat -> Prop) n : (exists k, (k < S n)%nat /\ P k) <-> (exists k, (k < n)%nat /\ P k) \/ P n.
Proof.
  split; [|intros [(k & ? & ?)|?]; [exists k|exists n]; (split; [lia|done])].
  intros (k & Hk & HP). destruct (decide (k = n)) as [-> |]; [by right|]. left. exists k. split; [lia|done].
Qed.

Lemma scan_step n c st st' :
  chunks_exact 4 bytes !! n = Some c -> scan_ok n st ->
  scan_instruction bytes base range st (n, c) = Ok st' -> scan_ok (S n) st'.
Proof using Hbase Hend.
  intros Hc [Hi Ha Hf Ht Hj Hs Hsp Hm Hr He] H.
  assert (ws !! n = Some (of_le_bytes c)) as Hw by (apply words_of_lookup; eauto).
  set (w := of_le_bytes c) in *. unfold scan_instruction in H. fold w in H.
  change (base + Z.of_nat n * 4) with (address_of base n) in H.
  destruct (negb (instruction_is_allowed w)) eqn:Eall in H; [done|]. apply negb_false_iff in Eall.
  destruct (validate_stack_pointer_write _ _ _ _ _) as [adj|] eqn:Esp in H; [|done].
  destruct ((w =? 0x00008067) && unconsumed_auipc_ra st) eqn:Eret in H; [done|].
  destruct (flow_target _ _ _ _) as [target|] eqn:Eflow in H; [|done].
  destruct (stack_write_spec bytes base n w _ _ Hw Esp) as (moves & -> & Hmoves & Hwsp).
  destruct (flow_target_spec bytes base Hbase Hend n w target Hw Eflow) as [Hfl Hjalr].
  assert (exists flow, st' = {| sc_decoded := {|
      instructions := instructions (sc_decoded st) ++ [{| di_address := address_of base n; di_word := w |}];
      stack_adjustments := stack_adjustments (sc_decoded st) ++ moves;
      syscall_addresses := if w =? 0x00000073 then syscall_addresses (sc_decoded st) ++ [address_of base n]
        else syscall_addresses (sc_decoded st);
      control_flow := control_flow (sc_decoded st) ++ flow |};
      unconsumed_auipc_ra := next_marker w (unconsumed_auipc_ra st) |} /\
    flow = flow_list (address_of base n) target /\
    forall f, f ∈ flow -> cf_target f mod 4 = 0 /\ range_contains range (cf_target f) = true)
    as (flow & -> & -> & Htgt).
  { destruct target as [[t kind]|].
    - destruct (negb (t mod 4 =? 0) || negb (range_contains range t)) eqn:Et in H; [done|].
      injection H as <-. eexists. split; [done|]. split; [done|]. intros f ->%list_elem_of_singleton.
      by rewrite orb_false_iff, !negb_false_iff, Z.eqb_eq in Et.
    - injection H as <-. exists []. rewrite app_nil_r. split; [done|]. split; [done|]. by intros f ?%elem_of_nil. }
  clear H. constructor; cbn [sc_decoded instructions control_flow syscall_addresses stack_adjustments unconsumed_auipc_ra].
  - rewrite (take_S_r _ _ _ Hc), imap_app, Hi. simpl. rewrite length_take_le, Nat.add_0_r; [done|].
    apply lookup_lt_Some in Hc. lia.
  - intros k x Hk Hx. destruct (decide (k = n)) as [-> |]; [|apply (Ha k x); [lia|done]].
    rewrite Hw in Hx. by injection Hx as <-.
  - intros f. rewrite elem_of_app, Hf, Hfl, exists_S. done.
  - intros f [?|?]%elem_of_app; auto.
  - intros k x Hk Hx. destruct (decide (k = n)) as [-> |]; [|apply (Hj k x); [lia|done]].
    rewrite Hw in Hx. by injection Hx as <-.
  - intros a. rewrite elem_of_app, Hs, Hmoves, exists_S. done.
  - intros k x Hk Hx. destruct (decide (k = n)) as [-> |]; [|apply (Hsp k x); [lia|done]].
    rewrite Hw in Hx. by injection Hx as <-.
  - rewrite (ra_pending_S _ _ _ Hw). by apply next_marker_spec.
  - intros k Hk E. destruct (decide (k = n)) as [-> |]; [|apply Hr; [lia|done]].
    rewrite Hw in E. injection E as E. rewrite E in Eret. rewrite <- Hm. simpl in Eret. by rewrite Eret.
  - intros a. rewrite elem_of_app, list_elem_of_singleton, <- He.
    destruct (Z.eqb_spec w 0x00000073) as [Hw73|Hw73].
    + rewrite elem_of_app, list_elem_of_singleton, Hw73. split; intros [?|E]; auto; right; congruence.
    + split; [auto|]. intros [?|E]; [done|]. congruence.
Qed.

Lemma scan_all rest : forall n st st',
  drop n (chunks_exact 4 bytes) = rest -> scan_ok n st ->
  fold_result (scan_instruction bytes base range) st (enumerate_from n rest) = Ok st' ->
  scan_ok (length (chunks_exact 4 bytes)) st'.
Proof using Hbase Hend.
  induction rest as [|c rest IH]; intros n st st' Hd Hok H; cbn [enumerate_from fold_result] in H.
  - injection H as <-. assert (length (chunks_exact 4 bytes) <= n)%nat as Hn.
    { apply (f_equal length) in Hd. rewrite length_drop in Hd. simpl in Hd. lia. }
    destruct Hok as [Hi Ha Hf Ht Hj Hs Hsp Hm Hr He].
    assert (forall k w, ws !! k = Some w -> (k < length (chunks_exact 4 bytes))%nat) as Hlt.
    { intros k w Hk%lookup_lt_Some. unfold words_of in Hk. by rewrite length_fmap in Hk. }
    assert (forall k f, transfer base ws k f -> exists w, ws !! k = Some w) as Hft
      by (intros k f []; eauto).
    assert (forall k a, adjustment base ws k a -> exists w, ws !! k = Some w) as Hat
      by (intros k a []; eauto).
    constructor; try done.
    + by rewrite Hi, firstn_all, take_ge.
    + intros k w Hk. apply Ha. lia.
    + intros f. rewrite Hf. split; intros (k & Hk & Htr); exists k; (split; [|done]); [|lia].
      destruct (Hft _ _ Htr) as [w Hw]. eauto.
    + intros k w Hk. apply Hj. lia.
    + intros a. rewrite Hs. split; intros (k & Hk & Htr); exists k; (split; [|done]); [|lia].
      destruct (Hat _ _ Htr) as [w Hw]. eauto.
    + intros k w Hk. apply Hsp. lia.
    + rewrite Hm. unfold ra_pending. split; intros (j & w & Hjn & Hw & Hau & Hall); exists j, w;
        split_and!; try done; try (by eauto); try lia; intros i x Hi' Hx; apply (Hall i x); eauto; try lia.
      pose proof (Hlt _ _ Hx). lia.
    + intros k Hk. apply Hr. lia.
  - destruct (scan_instruction bytes base range st (n, c)) as [st1|] eqn:E; [|done].
    assert (chunks_exact 4 bytes !! n = Some c) as Hc.
    { rewrite <- (Nat.add_0_r n), <- lookup_drop, Hd. done. }
    eapply (IH (S n)); [|by eapply scan_step|exact H].
    rewrite <- Nat.add_1_r, <- drop_drop, Hd. simpl. by rewrite drop_0.
Qed.

Lemma scan_start_ok : scan_ok 0 scan_start.
Proof using.
  clear. constructor; simpl; try done; try lia.
  - intros f. split; [by intros ?%elem_of_nil|]. intros (k & ? & _). lia.
  - by intros f ?%elem_of_nil.
  - intros a. split; [by intros ?%elem_of_nil|]. intros (k & ? & _). lia.
  - split; [done|]. intros (j & w & ? & _). lia.
  - intros a. by rewrite !elem_of_nil.
Qed.

Lemma validate_instructions_inv d :
  validate_instructions bytes base range = Ok d ->
  exists st, d = sc_decoded st /\ scan_ok (length (chunks_exact 4 bytes)) st.
Proof using Hbase Hend.
  unfold validate_instructions. intros H. inv_ok. exists a. split; [done|].
  eapply (scan_all (chunks_exact 4 bytes) 0 scan_start); [done|apply scan_start_ok|done].
Qed.
End Scan.
