(* ===== verification/ParseFacts.v ===== *)
(** What acceptance by [parse_elf] means for the file: how the sections are mapped, and that
    the decoded text is what ScanFacts specifies of its words. *)

From Stdlib Require Import ZArith Lia String.
From stdpp Require Import base numbers list option tactics gmap.
From S2P Require Import Prelude RustStr Rv64 Asm Layout ElfChecker Isa Decode Rv64Sem ScanFacts.

Open Scope Z_scope.

(** * Acceptance *)

(** A decoded text, read from [bytes] at file offset [offset] and mapped at [base]. *)
Record text_ok (bytes : list Z) (offset base size : Z) (d : DecodedText) : Prop := {
  to_count : Z.of_nat (length (instructions d)) = size / 4;
  (** the instructions are the consecutive words of the file, each on the allowlist *)
  to_word : forall k i, instructions d !! k = Some i ->
    di_address i = base + Z.of_nat k * 4 /\ instruction_is_allowed (di_word i) = true /\
    get_slice bytes (offset + Z.of_nat k * 4) 4 = Some (le_bytes 4 (di_word i));
  (** the recorded transfers are exactly those of the words *)
  to_flow : forall f, f ∈ control_flow d <-> exists k, transfer base (di_word <$> instructions d) k f;
  (** a transfer lands on an instruction that is not the second half of a call *)
  to_target : forall f, f ∈ control_flow d ->
    exists j, j ∈ instructions d /\ di_address j = cf_target f /\
      ~ (opcode (di_word j) = 0x67 /\ di_word j <> 0x00008067);
  (** [jalr] is a return or closes a call pair *)
  to_jalr : forall k w, (di_word <$> instructions d) !! k = Some w -> opcode w = 0x67 ->
    w = 0x00008067 \/
    exists j prev, jalr_ra w /\ k = S j /\ (di_word <$> instructions d) !! j = Some prev /\ auipc_ra prev;
  (** the recorded stack adjustments are exactly those of the words, and [sp] is written by
      them only *)
  to_stack : forall a, a ∈ stack_adjustments d <->
    exists k, adjustment base (di_word <$> instructions d) k a;
  to_sp : forall k w, (di_word <$> instructions d) !! k = Some w -> writes_sp w ->
    exists a, adjustment base (di_word <$> instructions d) k a;
  (** no return follows an [auipc ra] that nothing has reset *)
  to_ret : forall k, (di_word <$> instructions d) !! k = Some 0x00008067 ->
    ~ ra_pending (di_word <$> instructions d) k;
  to_ecall : forall a, a ∈ syscall_addresses d <->
    {| di_address := a; di_word := 0x00000073 |} ∈ instructions d
}.

Lemma check_flow_inv base d :
  check_flow base d = Ok tt ->
  forall f, f ∈ control_flow d -> exists j,
    instructions d !! Z.to_nat ((cf_target f - base) / 4) = Some j /\
    ~ (Z.land (di_word j) 0x7f = 0x67 /\ di_word j <> 0x00008067).
Proof.
  unfold check_flow. induction (control_flow d) as [|g fs IH]; intros H f Hf;
    [by apply elem_of_nil in Hf|]. cbn [fold_result] in H.
  destruct (instructions d !! Z.to_nat ((cf_target g - base) / 4)) as [j|] eqn:E; [|done].
  inv_ok. repeat match goal with u : unit |- _ => destruct u end.
  apply elem_of_cons in Hf as [-> |Hf]; [|by apply IH]. exists j. split; [done|].
  intros [H1 H2]. match goal with H3 : _ && _ = false |- _ => apply andb_false_iff in H3 as [H3|H3] end; lia.
Qed.

Lemma text_chunk bytes offset size tb k c :
  get_slice bytes offset size = Some tb -> bytes_ok bytes -> 0 <= size ->
  chunks_exact 4 tb !! k = Some c ->
  get_slice bytes (offset + Z.of_nat k * 4) 4 = Some (le_bytes 4 (of_le_bytes c)).
Proof.
  intros (Ho & Hend & ->)%get_slice_some Hb Hsz [-> Hk]%chunks_fuel_lookup.
  rewrite length_take, length_drop in Hk. unfold get_slice.
  rewrite (proj2 (Z.leb_le _ _)), (proj2 (Z.leb_le _ _)) by lia. simpl andb. cbn iota. f_equal.
  rewrite !skipn_firstn_comm, firstn_firstn, drop_drop.
  replace (Nat.min 4 (Z.to_nat size - 4 * k)) with 4%nat by lia.
  replace (Z.to_nat (offset + Z.of_nat k * 4)) with (Z.to_nat offset + 4 * k)%nat by lia.
  set (c := take 4 _).
  assert (length c = 4%nat) as Hc by (unfold c; rewrite length_take, length_drop; lia).
  rewrite <- Hc at 2. rewrite le_bytes_of_le_bytes; [done|].
  apply Forall_take, Forall_drop, Hb.
Qed.

Lemma decode_text_ok bytes text max d :
  bytes_ok bytes -> 0 <= s_address text -> 0 <= s_size text -> s_size text mod 4 = 0 ->
  s_address text mod 4 = 0 -> s_address text + s_size text <= U64_MAX ->
  decode_text bytes text max = Ok d ->
  s_size text / 4 <= max /\ text_ok bytes (s_offset text) (s_address text) (s_size text) d.
Proof.
  intros Hb Ha0 Hsz H4 Ha4 Hmax H. unfold decode_text, checked_file_range in H. inv_ok.
  destruct (checked_add_u64 _ _); [|done].
  destruct (get_slice bytes (s_offset text) (s_size text)) as [tb|] eqn:Es; [|done]. inv_ok. subst.
  apply Z.ltb_ge in E. split; [done|]. destruct a1.
  pose proof Es as (Ho & Hend & Htb)%get_slice_some.
  assert (Z.of_nat (length a) = s_size text) as Hlen by (subst; rewrite length_take, length_drop; lia).
  assert (length (chunks_exact 4 a) = (length a / 4)%nat) as Hcl by (by apply chunks_fuel_length).
  assert (Z.of_nat (length (chunks_exact 4 a)) = s_size text / 4) as Hcount
    by (by rewrite Hcl, Nat2Z.inj_div, Hlen).
  assert (length (words_of a) = length (chunks_exact 4 a)) as Hwl by apply length_fmap.
  apply validate_instructions_inv in E1 as (st & -> & [Hi Ha Hf Ht Hj Hs Hsp _ Hr He]);
    [|done|rewrite Hwl, Hcount; zdivmod].
  rewrite take_ge in Hi by done.
  assert (forall k i, instructions (sc_decoded st) !! k = Some i -> exists c,
            chunks_exact 4 a !! k = Some c /\ i = decoded_at (s_address text) k c) as Hlook.
  { intros k i. rewrite Hi, list_lookup_imap. intros (c & Hc & ->)%fmap_Some. eauto. }
  assert (di_word <$> instructions (sc_decoded st) = words_of a) as Hws.
  { apply list_eq. intros k. unfold words_of. rewrite Hi, !list_lookup_fmap, list_lookup_imap.
    by destruct (chunks_exact 4 a !! k). }
  assert (forall k w, words_of a !! k = Some w -> (k < length (chunks_exact 4 a))%nat) as Hlt.
  { intros k w Hk%lookup_lt_Some. by rewrite Hwl in Hk. }
  constructor; rewrite ?Hws.
  - by rewrite Hi, length_imap.
  - intros k i Hk. destruct (Hlook k i Hk) as (c & Hc & ->). split_and!; [done| |].
    + apply (Ha k); [by eapply lookup_lt_Some|]. apply words_of_lookup. eauto.
    + by eapply text_chunk.
  - intros f. rewrite Hf. split; [intros (k & _ & ?); eauto|]. intros (k & Htr). exists k. split; [|done].
    destruct Htr; eauto.
  - intros f Hin. destruct (check_flow_inv _ _ E2 f Hin) as (j & Hjj & Hnot).
    destruct (Ht f Hin) as (Ht4 & Hrg). exists j. split_and!; [by eapply list_elem_of_lookup_2| |done].
    destruct (Hlook _ _ Hjj) as (c & _ & ->). cbn [di_address decoded_at].
    unfold range_contains, section_range in Hrg. cbn [r_start r_end] in Hrg.
    rewrite Z2Nat.id by zdivmod. zdivmod.
  - intros k w Hk. apply Hj; eauto.
  - intros x. rewrite Hs. split; [intros (k & _ & ?); eauto|]. intros (k & Htr). exists k. split; [|done].
    destruct Htr; eauto.
  - intros k w Hk. apply Hsp; eauto.
  - intros k Hk. apply Hr; eauto.
  - done.
Qed.

Lemma check_text_inv entry text rodata :
  check_text entry text rodata = Ok tt ->
  s_size text <> 0 /\ s_size text mod 4 = 0 /\ s_address text mod 4 = 0 /\ entry mod 4 = 0 /\
  range_contains (section_range text) entry = true /\
  s_flags text = Z.lor SHF_ALLOC SHF_EXECINSTR /\ s_flags rodata = SHF_ALLOC.
Proof.
  unfold check_text. intros H. inv_ok. rewrite ?orb_false_iff, ?negb_false_iff in *.
  destruct_and!. repeat match goal with
  | H : (_ =? _) = true |- _ => apply Z.eqb_eq in H
  | H : (_ =? _) = false |- _ => apply Z.eqb_neq in H end. done.
Qed.

(** * Sections of an accepted file *)

Lemma of_le_bytes_nonneg l : bytes_ok l -> 0 <= of_le_bytes l.
Proof. induction 1 as [|b l Hb _ IH]; simpl; [done|]. unfold byte_ok in Hb. lia. Qed.

Lemma get_slice_bytes bytes start len r : bytes_ok bytes -> get_slice bytes start len = Some r -> bytes_ok r.
Proof. intros Hb (_ & _ & ->)%get_slice_some. apply Forall_take, Forall_drop, Hb. Qed.

Lemma read_u64_nonneg bytes offset v : bytes_ok bytes -> read_u64 bytes offset = Ok v -> 0 <= v.
Proof.
  unfold read_u64. intros Hb H. destruct (get_slice bytes offset 8) as [r|] eqn:E; [|done].
  inv_ok. subst. eapply of_le_bytes_nonneg, get_slice_bytes; eauto.
Qed.

Lemma checked_file_range_bytes bytes offset size label r :
  bytes_ok bytes -> checked_file_range bytes offset size label = Ok r -> bytes_ok r.
Proof.
  unfold checked_file_range. intros Hb H. destruct (checked_add_u64 _ _); [|done].
  destruct (get_slice _ _ _) as [s|] eqn:E; [|done]. inv_ok. subst. by eapply get_slice_bytes.
Qed.

Lemma chunks_bytes n fuel : forall l c, bytes_ok l -> c ∈ chunks_fuel fuel n l -> bytes_ok c.
Proof.
  induction fuel as [|fuel IH]; intros l c Hl; cbn [chunks_fuel]; [by intros ?%elem_of_nil|].
  destruct (_ <=? _)%nat; [|by intros ?%elem_of_nil].
  intros [-> |Hc]%elem_of_cons; [by apply Forall_take|]. eapply IH; [|exact Hc]. by apply Forall_drop.
Qed.

(** The virtual range of a section does not wrap. *)
Definition section_ok (s : ElfSection) : Prop :=
  0 <= s_address s /\ 0 <= s_size s /\ s_address s + s_size s <= U64_MAX.

Lemma parse_section_ok bytes strings sections index header sections' :
  bytes_ok header -> Forall section_ok sections ->
  parse_section bytes strings sections (index, header) = Ok sections' -> Forall section_ok sections'.
Proof.
  intros Hh Hs H. unfold parse_section in H. destruct (index =? 0)%nat; [inv_ok; by subst|]. inv_ok.
  destruct (checked_add_u64 _ _) as [v|] eqn:Ec; [|done]. inv_ok. subst.
  apply Forall_app. split; [done|]. constructor; [|done]. unfold section_ok. cbn [s_address s_size].
  unfold checked_add_u64 in Ec. destruct (Z.leb_spec (a3 + a5) U64_MAX); [|done].
  split_and!; [by eapply read_u64_nonneg..|done].
Qed.

Lemma sort_sections_elem s l : s ∈ sort_sections l -> s ∈ l.
Proof.
  assert (forall x l, s ∈ insert_section x l -> s = x \/ s ∈ l) as Hi.
  { intros x l'. induction l' as [|y l' IH]; cbn [insert_section]; [set_solver|].
    destruct (str_compare _ _); set_solver. }
  unfold sort_sections. induction l as [|x l IH]; simpl; [done|].
  intros [-> |?]%Hi; set_solver.
Qed.

Lemma parse_sections_ok bytes h sections :
  bytes_ok bytes -> parse_sections bytes h = Ok sections -> Forall section_ok sections.
Proof.
  intros Hb H. unfold parse_sections in H. inv_ok. subst sections.
  match goal with Ht : checked_table _ _ _ _ _ = Ok ?t |- _ =>
    assert (bytes_ok t) as Htb by (unfold checked_table in Ht; inv_ok; by eapply checked_file_range_bytes) end.
  match goal with Hf : fold_result (parse_section bytes _) [] _ = Ok ?l |- _ =>
    assert (Forall section_ok l) as Hl end.
  { eapply (fold_result_inv (Forall section_ok)); [|constructor|eassumption].
    intros s [i c] s' Hin Hs Hp. eapply parse_section_ok; [|exact Hs|exact Hp].
    apply elem_of_enumerate_from in Hin as (j & _ & Hj).
    eapply chunks_bytes; [exact Htb|]. by eapply list_elem_of_lookup_2. }
  rewrite Forall_forall in Hl |- *. intros s Hs%sort_sections_elem. auto.
Qed.

Lemma mapping_ok_inv segment s :
  mapping_ok segment s = true ->
  exists v, s_address s = virtual_address segment + v /\ 0 <= v /\
    v + s_size s <= file_size segment /\ s_offset s = seg_offset segment + v.
Proof.
  unfold mapping_ok, checked_sub_u64, checked_add_u64. intros H.
  apply andb_true_iff in H as [[_ H1]%andb_true_iff H2%bool_decide_eq_true].
  destruct (Z.leb_spec (virtual_address segment) (s_address s)) as [Hv|]; [|done]. simpl in H1, H2.
  exists (s_address s - virtual_address segment).
  destruct (_ <=? U64_MAX) in H1; [|done]. apply Z.leb_le in H1.
  destruct (_ <=? U64_MAX) in H2; [|done]. injection H2 as H2. lia.
Qed.

Lemma parse_segments_inv bytes h segments :
  parse_segments bytes h = Ok segments ->
  exists segment, segments = [segment] /\ seg_flags segment = Z.lor PF_R PF_X.
Proof.
  unfold parse_segments. intros H. inv_ok. subst.
  match goal with Hf : fold_result (parse_segment bytes) [] _ = Ok ?l |- _ =>
    assert (Forall (fun s => seg_flags s = Z.lor PF_R PF_X) l) as Hl end.
  { eapply (fold_result_inv (Forall (fun s => seg_flags s = Z.lor PF_R PF_X))); [|constructor|eassumption].
    intros s c s' _ Hs Hp. unfold parse_segment in Hp. inv_ok.
    destruct (checked_add_u64 _ _); [|done]. inv_ok. subst. apply Forall_app. split; [done|].
    constructor; [|done]. cbn [seg_flags].
    match goal with H : negb (_ =? _) = false |- context [Z.lor PF_R PF_X] =>
      by apply negb_false_iff, Z.eqb_eq in H end. }
  match goal with H : negb (length ?l =? 1)%nat = false |- _ =>
    destruct l as [|segment [|]]; try done end.
  exists segment. split; [done|]. by inversion Hl.
Qed.

(** A section is the file-backed part of the image it is mapped by. *)
Definition mapped (segment : ElfSegment) (s : ElfSection) : Prop :=
  exists v, s_address s = virtual_address segment + v /\ 0 <= v /\
    v + s_size s <= file_size segment /\ s_offset s = seg_offset segment + v.

(** The image, the placement of text and read-only data, and the decoded text of an accepted
    file. *)
Definition accepted_image (bytes : list Z) (max : Z) (elf : ParsedElf) : Prop :=
  let text := pe_text elf in
  let rodata := pe_rodata elf in
  (exists segment, pe_segments elf = [segment] /\ seg_flags segment = Z.lor PF_R PF_X /\
     mapped segment text /\ mapped segment rodata) /\
  s_flags text = Z.lor SHF_ALLOC SHF_EXECINSTR /\ s_flags rodata = SHF_ALLOC /\
  (s_size rodata = 0 \/ s_address rodata + s_size rodata <= s_address text \/
     s_address text + s_size text <= s_address rodata) /\
  0 < s_size text /\ s_size text / 4 <= max /\ s_address text mod 4 = 0 /\ 0 <= s_address text /\
  s_address text + s_size text <= U64_MAX /\ s_size text mod 4 = 0 /\
  pe_entry elf mod 4 = 0 /\ s_address text <= pe_entry elf < s_address text + s_size text /\
  text_ok bytes (s_offset text) (s_address text) (s_size text) (pe_decoded elf).

Lemma find_section_ok {E} name sections (e : E) s :
  Forall section_ok sections -> ok_or (find_section name sections) e = Ok s -> section_ok s.
Proof.
  intros Hs H. unfold find_section in H. destruct (List.find _ sections) as [x|] eqn:Ef; [|done].
  injection H as ->. apply List.find_some in Ef as [Hin%list_elem_of_In _].
  rewrite Forall_forall in Hs. auto.
Qed.

Lemma section_range_exact s :
  section_ok s -> section_range s = {| r_start := s_address s; r_end := s_address s + s_size s |}.
Proof.
  intros (H1 & H2 & H3). unfold section_range, sat_add_u64. f_equal. lia.
Qed.

Lemma check_mapping_inv segment text rodata :
  section_ok text -> section_ok rodata -> check_mapping segment text rodata = Ok tt ->
  mapped segment text /\ mapped segment rodata /\
  (s_size rodata = 0 \/ s_address rodata + s_size rodata <= s_address text \/
     s_address text + s_size text <= s_address rodata).
Proof.
  intros Ht Hr H. unfold check_mapping in H. cbn [fold_result] in H.
  rewrite (section_range_exact _ Ht), (section_range_exact _ Hr) in H. cbn [r_start r_end] in H.
  destruct (mapping_ok segment text) eqn:E1; [|done].
  destruct (mapping_ok segment rodata) eqn:E2; [|done]. cbn [negb] in H.
  split; [by apply mapping_ok_inv|]. split; [by apply mapping_ok_inv|].
  destruct (Z.eqb_spec (s_size rodata) 0) as [|Hne]; [by left|]. right. simpl in H.
  destruct (Z.ltb_spec (s_address text) (s_address rodata + s_size rodata)); [|by left].
  destruct (Z.ltb_spec (s_address rodata) (s_address text + s_size text)); [done|by right].
Qed.

Lemma parse_elf_inv bytes max elf :
  bytes_ok bytes -> parse_elf bytes max = Ok elf -> accepted_image bytes max elf.
Proof.
  intros Hb H. unfold parse_elf in H.
  destruct (parse_header bytes) as [h|]; [|done].
  destruct (parse_segments bytes h) as [segments|] eqn:Eseg; [|done].
  apply parse_segments_inv in Eseg as (segment & -> & Hflags).
  destruct (parse_sections bytes h) as [sections|] eqn:Es; [|done]. apply parse_sections_ok in Es; [|done].
  destruct (ok_or (find_section ".text" sections) _) as [text|] eqn:Et; [|done].
  destruct (ok_or (find_section ".rodata" sections) _) as [rodata|] eqn:Er; [|done].
  apply find_section_ok in Et as Ht; [|done]. apply find_section_ok in Er as Hr; [|done].
  destruct (check_text (h_entry h) text rodata) as [[]|] eqn:Ec; [|done].
  apply check_text_inv in Ec as (Hne & H4 & Ha4 & He4 & Hin & Hft & Hfr).
  destruct (check_mapping segment text rodata) as [[]|] eqn:Em; [|done].
  apply check_mapping_inv in Em as (Hmt & Hmr & Hdis); [|done..].
  destruct (decode_text bytes text max) as [d|] eqn:Ed; [|done]. injection H as <-.
  destruct Ht as (Ht1 & Ht2 & Ht3).
  rewrite section_range_exact in Hin by done. unfold range_contains in Hin. cbn [r_start r_end] in Hin.
  apply decode_text_ok in Ed as [Hmax Hok]; [|done..].
  unfold accepted_image. cbn [pe_text pe_rodata pe_segments pe_entry pe_decoded].
  split_and!; try done; [by exists segment|lia..].
Qed.

(** C5.  Acceptance is sound.  From any byte string that [parse_elf] accepts: the image is one
    read/execute segment; text and read-only data are the file-backed parts of it, the text
    executable, the read-only data not, and they do not overlap; the text is non-empty,
    aligned, within the instruction budget, and contains the aligned entry point.  The decoded
    instructions are exactly the consecutive little-endian words of the text, all on the
    allowlist.  The recorded control flow is exactly what the words do: an entry for every
    branch, every [jal] and every call pair, with the target that the displacement of the word
    (of both words of the pair) gives in saturating arithmetic, each on an instruction that is
    not the second half of a call; any other [jalr] is [ret].  The recorded stack adjustments
    are exactly those of the words, and no other word writes [sp].  No [ret] follows an
    [auipc ra] that no later word has reset.  The recorded syscalls are exactly the [ecall]
    words. *)
Theorem parse_elf_sound bytes max elf :
  bytes_ok bytes -> parse_elf bytes max = Ok elf ->
  let text := pe_text elf in
  let rodata := pe_rodata elf in
  (exists segment, pe_segments elf = [segment] /\ seg_flags segment = Z.lor PF_R PF_X /\
     mapped segment text /\ mapped segment rodata) /\
  s_flags text = Z.lor SHF_ALLOC SHF_EXECINSTR /\ s_flags rodata = SHF_ALLOC /\
  (s_size rodata = 0 \/ s_address rodata + s_size rodata <= s_address text \/
     s_address text + s_size text <= s_address rodata) /\
  0 < s_size text /\ s_size text / 4 <= max /\ s_address text mod 4 = 0 /\ 0 <= s_address text /\
  s_address text + s_size text <= U64_MAX /\ s_size text mod 4 = 0 /\
  pe_entry elf mod 4 = 0 /\ s_address text <= pe_entry elf < s_address text + s_size text /\
  text_ok bytes (s_offset text) (s_address text) (s_size text) (pe_decoded elf).
Proof. apply parse_elf_inv. Qed.

(** Decoded instructions have consecutive aligned addresses. *)
Lemma accepted_addresses bytes max elf :
  accepted_image bytes max elf ->
  forall i j, i ∈ instructions (pe_decoded elf) -> j ∈ instructions (pe_decoded elf) ->
    di_address i mod 4 = 0 /\ (di_address i = di_address j -> i = j).
Proof.
  intros (_ & _ & _ & _ & _ & _ & Ha & _ & _ & _ & _ & _ & Hok)
    i j [k Hk]%list_elem_of_lookup [m Hm]%list_elem_of_lookup.
  destruct (to_word _ _ _ _ _ Hok _ _ Hk) as [Ek _], (to_word _ _ _ _ _ Hok _ _ Hm) as [Em _].
  split; [rewrite Ek; zdivmod|]. intros E. assert (k = m) as -> by lia. congruence.
Qed.

(** * The return-address marker *)

Lemma scan_admitted bytes base range st i w moves target :
  word_ok w -> instruction_is_allowed w = true ->
  validate_stack_pointer_write bytes i w (base + Z.of_nat i * 4) (stack_adjustments (sc_decoded st)) = Ok moves ->
  flow_target bytes i w (base + Z.of_nat i * 4) = Ok target -> target = None ->
  is_ok (scan_instruction bytes base range st (i, word_bytes w))
  = negb ((w =? 0x00008067) && unconsumed_auipc_ra st) /\
  (forall st', scan_instruction bytes base range st (i, word_bytes w) = Ok st' ->
     unconsumed_auipc_ra st' = next_marker w (unconsumed_auipc_ra st)).
Proof.
  intros Hw Ha Hsp Hf ->. unfold scan_instruction. rewrite (word_bytes_value _ Hw), Ha, Hsp, Hf. cbn [negb].
  destruct (_ && _); [done|]. split; [done|]. by intros st' [= <-].
Qed.

Definition ret : Z := 0x00008067.

(** C30.  The marker that a PC-relative [auipc ra] leaves for the next [ret] is cleared by a
    word whose bits 11 to 7 are 1 also when the word is a store or a branch, which has no
    destination register there.  So of all the stores that can stand between an [auipc ra] and
    a [ret], the checker admits exactly those whose offset has the low five bits 1, although
    the return then goes to the address that the [auipc] computed. *)
Theorem ret_to_auipc_admitted a w base range :
  word_ok a -> auipc_ra a -> word_ok w -> opcode w = 0x23 -> bits w 12 0x7 <= 3 ->
  is_ok (validate_instructions (code_bytes [a; w; ret]) base range) = (bits w 7 0x1f =? 1) /\
  (forall b, opcode b = 0x63 -> bits b 7 0x1f = 1 -> next_marker b true = false) /\
  (forall m m1 m2, rv_step a m = Some m1 -> regs m2 = regs m1 ->
     exists m3, rv_step ret m2 = Some m3 /\
       pc m3 = Z.land (as_u64 (pc m + upper_imm a)) (Z.lnot 1)).
Proof.
  intros Ha [Hao Hard] Hw Hwo Hf3. unfold opcode in Hao, Hwo. split_and!.
  - unfold validate_instructions. rewrite chunks_code. cbn [fmap list_fmap enumerate enumerate_from fold_result].
    set (bytes := code_bytes _). assert (word_ok ret) as Hr by (unfold word_ok, ret; pow2_consts; lia).
    assert (instruction_is_allowed a = true) as Haa by (unfold instruction_is_allowed; by rewrite Hao).
    assert (instruction_is_allowed w = true) as Haw.
    { unfold instruction_is_allowed. rewrite Hwo. assert (0 <= bits w 12 0x7) by (apply (bits_range w 12 _ 8); [lia|apply land_0x7]).
      unfold one_of. cbn. lia. }
    destruct (scan_admitted bytes base range scan_start 0 a [] None Ha Haa) as [H1 H1'].
    { unfold validate_stack_pointer_write. by rewrite Hard. }
    { unfold flow_target. by rewrite Hao. }
    { done. }
    rewrite andb_false_r in H1. destruct (scan_instruction bytes base range scan_start _) as [st1|] eqn:E1; [|done].
    specialize (H1' st1 eq_refl). unfold next_marker in H1'. rewrite Hao, Hard in H1'. simpl in H1'.
    destruct (scan_admitted bytes base range st1 1 w (stack_adjustments (sc_decoded st1)) None Hw Haw) as [H2 H2'].
    { unfold validate_stack_pointer_write. by rewrite Hwo, orb_true_r. }
    { unfold flow_target. by rewrite Hwo. }
    { done. }
    assert ((w =? ret) = false) as Hne.
    { apply Z.eqb_neq. intros ->. discriminate Hwo. }
    unfold ret in Hne. rewrite Hne in H2. destruct (scan_instruction bytes base range st1 _) as [st2|] eqn:E2; [|done].
    specialize (H2' st2 eq_refl). unfold next_marker in H2'. rewrite Hwo, H1' in H2'. simpl in H2'.
    destruct (scan_admitted bytes base range st2 2 ret (stack_adjustments (sc_decoded st2)) None Hr eq_refl)
      as [H3 _]; [done..|].
    rewrite Z.eqb_refl in H3. destruct (bits w 7 0x1f =? 1); rewrite H2' in H3;
      by destruct (scan_instruction bytes base range st2 _).
  - intros b Hb Hbd. unfold opcode in Hb. unfold next_marker. by rewrite Hb, Hbd.
  - intros m m1 m2 Hs Hregs. unfold rv_step in Hs. rewrite Hao, Hard in Hs. simpl in Hs. injection Hs as <-.
    eexists. split; [reflexivity|]. rewrite Hregs. cbn. f_equal.
    rewrite Z.add_0_r. apply as_u_small. unfold as_u. pow2_consts. zdivmod.
Qed.

(** [auipc ra, 0; sb zero, 1(sp); ret], and the same with a store at offset 2. *)
Lemma ret_to_auipc_admitted_witness :
  is_ok (validate_instructions (code_bytes [0x00000097; 0x000100a3; ret]) 0x10000
           {| r_start := 0x10000; r_end := 0x1000c |}) = true /\
  is_ok (validate_instructions (code_bytes [0x00000097; 0x00010123; ret]) 0x10000
           {| r_start := 0x10000; r_end := 0x1000c |}) = false.
Proof.
  assert (word_ok 0x00000097 /\ word_ok 0x000100a3 /\ word_ok 0x00010123) as (H1 & H2 & H3)
    by (unfold word_ok; pow2_consts; lia).
  split.
  - destruct (ret_to_auipc_admitted 0x00000097 0x000100a3 0x10000 {| r_start := 0x10000; r_end := 0x1000c |})
      as [H _]; [exact H1|split; reflexivity|exact H2|reflexivity|vm_compute; discriminate|exact H].
  - destruct (ret_to_auipc_admitted 0x00000097 0x00010123 0x10000 {| r_start := 0x10000; r_end := 0x1000c |})
      as [H _]; [exact H1|split; reflexivity|exact H3|reflexivity|vm_compute; discriminate|exact H].
Defined.
