(* ===== verification/ElfFacts.v ===== *)
(** The emitted file in closed form, and what the checker's reader finds in it.  The writer
    fills slices of a zeroed buffer; [write_elf_image] says which bytes end up where, and
    the phases of [parse_elf] are evaluated on that image. *)

From Stdlib Require Import ZArith Lia String.
From stdpp Require Import base numbers list option tactics gmap sets.
From S2P Require Import Prelude RustStr Diag Rv64 Immediate Asm Layout LayoutFacts MachineCfg.
From S2P Require Import ElfWriter ElfChecker Isa Decode.

Open Scope Z_scope.

(** * Slices of a buffer *)

Lemma with_slice_app a b c start stop f :
  start = Z.of_nat (length a) -> stop = Z.of_nat (length a) + Z.of_nat (length b) ->
  with_slice (a ++ b ++ c) start stop f = (let? b' := f b in Ok (a ++ b' ++ c)).
Proof.
  intros -> ->. unfold with_slice, slice. rewrite !length_app.
  rewrite (proj2 (Z.leb_le 0 _)), (proj2 (Z.leb_le (Z.of_nat (length a)) _)),
    (proj2 (Z.leb_le (_ + _) _)) by lia. cbn [andb].
  replace (Z.to_nat (Z.of_nat (length a) + Z.of_nat (length b))) with (length a + length b)%nat by lia.
  rewrite Nat2Z.id. replace (length a + length b - length a)%nat with (length b) by lia.
  rewrite take_app_length, drop_app_length, take_app_length.
  rewrite <- drop_drop, drop_app_length, drop_app_length. done.
Qed.

Lemma with_slice_start b c stop f :
  stop = Z.of_nat (length b) -> with_slice (b ++ c) 0 stop f = (let? b' := f b in Ok (b' ++ c)).
Proof. intros ->. by rewrite (with_slice_app [] b c). Qed.

Lemma copy_from_slice_ok src dst : length dst = length src -> copy_from_slice src dst = Ok src.
Proof. intros H. unfold copy_from_slice. by rewrite H, Nat.eqb_refl. Qed.

(** Zeroes with fields written into them, in increasing order of position. *)
Fixpoint render (pos stop : Z) (fs : list (Z * list Z)) : list Z :=
  match fs with
  | [] => replicate (Z.to_nat (stop - pos)) 0
  | (o, b) :: fs' => replicate (Z.to_nat (o - pos)) 0 ++ b ++ render (o + Z.of_nat (length b)) stop fs'
  end.

Fixpoint fields_fit (pos stop : Z) (fs : list (Z * list Z)) : bool :=
  match fs with
  | [] => pos <=? stop
  | (o, b) :: fs' => (pos <=? o) && fields_fit (o + Z.of_nat (length b)) stop fs'
  end.

Lemma fields_fit_le fs : forall pos stop, fields_fit pos stop fs = true -> pos <= stop.
Proof.
  induction fs as [|[o b] fs IH]; intros pos stop H; simpl in H; [lia|].
  apply andb_true_iff in H as [H1 H2]. apply IH in H2. lia.
Qed.

Lemma length_render fs : forall pos stop,
  fields_fit pos stop fs = true -> Z.of_nat (length (render pos stop fs)) = stop - pos.
Proof.
  induction fs as [|[o b] fs IH]; intros pos stop H; simpl in H |- *.
  - rewrite length_replicate. lia.
  - apply andb_true_iff in H as [H1 H2]. rewrite !length_app, length_replicate.
    pose proof (IH _ _ H2). lia.
Qed.

Lemma put_fields_render fs : forall prefix stop,
  fields_fit (Z.of_nat (length prefix)) stop fs = true ->
  put_fields (prefix ++ replicate (Z.to_nat (stop - Z.of_nat (length prefix))) 0) fs
  = Ok (prefix ++ render (Z.of_nat (length prefix)) stop fs).
Proof.
  induction fs as [|[o b] fs IH]; intros prefix stop H; [done|].
  simpl in H. apply andb_true_iff in H as [H1 H2]. pose proof (fields_fit_le _ _ _ H2).
  unfold put_fields. cbn [fold_result fst snd]. set (p := Z.of_nat (length prefix)) in *.
  replace (Z.to_nat (stop - p)) with (Z.to_nat (o - p) + (length b
    + Z.to_nat (stop - (o + Z.of_nat (length b)))))%nat by lia.
  rewrite !replicate_add. rewrite app_assoc.
  rewrite with_slice_app by (rewrite length_app, !length_replicate; lia).
  rewrite copy_from_slice_ok by (by rewrite length_replicate).
  rewrite app_assoc.
  assert (Z.of_nat (length ((prefix ++ replicate (Z.to_nat (o - p)) 0) ++ b)) = o + Z.of_nat (length b))
    as Hlen by (rewrite !length_app, length_replicate; lia).
  specialize (IH ((prefix ++ replicate (Z.to_nat (o - p)) 0) ++ b) stop). rewrite Hlen in IH.
  unfold put_fields in IH. rewrite (IH H2). f_equal. simpl. by rewrite <- !app_assoc.
Qed.

Lemma put_fields_zero n fs :
  fields_fit 0 (Z.of_nat n) fs = true ->
  put_fields (replicate n 0) fs = Ok (render 0 (Z.of_nat n) fs).
Proof.
  intros H. pose proof (put_fields_render fs [] (Z.of_nat n) H) as E. simpl in E.
  by rewrite Z.sub_0_r, Nat2Z.id in E.
Qed.

(** * The headers *)

Definition elf_header (entry section_header_offset : Z) : list Z :=
  render 0 64
    [(0, 0x7f :: chars "ELF"); (4, [2]); (5, [1]); (6, [1]);
     (16, le_bytes 2 2); (18, le_bytes 2 243); (20, le_bytes 4 1); (24, le_bytes 8 entry);
     (32, le_bytes 8 64); (40, le_bytes 8 section_header_offset);
     (48, le_bytes 4 0); (52, le_bytes 2 64); (54, le_bytes 2 56); (56, le_bytes 2 1);
     (58, le_bytes 2 64); (60, le_bytes 2 4); (62, le_bytes 2 3)].

Definition section_header (name_offset stype flags address offset size alignment : Z) : list Z :=
  render 0 64
    [(0, le_bytes 4 name_offset); (4, le_bytes 4 stype); (8, le_bytes 8 flags);
     (16, le_bytes 8 address); (24, le_bytes 8 offset); (32, le_bytes 8 size);
     (48, le_bytes 8 alignment)].

Definition program_header (flags offset vaddr file_size memory_size : Z) : list Z :=
  render 0 56
    [(0, le_bytes 4 1); (4, le_bytes 4 flags); (8, le_bytes 8 offset); (16, le_bytes 8 vaddr);
     (24, le_bytes 8 vaddr); (32, le_bytes 8 file_size); (40, le_bytes 8 memory_size);
     (48, le_bytes 8 128)].

Lemma write_elf_header_ok out entry sho :
  length out = 64%nat -> write_elf_header out entry 1 sho 4 3 = Ok (elf_header entry sho).
Proof.
  intros H. unfold write_elf_header. rewrite H. simpl negb. cbn iota.
  apply (put_fields_zero 64). reflexivity.
Qed.

Lemma write_section_header_ok out n t f a o s al :
  length out = 64%nat -> write_section_header n t f a o s al out = Ok (section_header n t f a o s al).
Proof.
  intros H. unfold write_section_header. rewrite H. simpl negb. cbn iota.
  apply (put_fields_zero 64). reflexivity.
Qed.

Lemma write_program_header_ok out f o v fs ms :
  length out = 56%nat -> write_program_header f o v fs ms out = Ok (program_header f o v fs ms).
Proof.
  intros H. unfold write_program_header. rewrite H. simpl negb. cbn iota.
  apply (put_fields_zero 56). reflexivity.
Qed.

Lemma length_elf_header e s : length (elf_header e s) = 64%nat.
Proof. apply Nat2Z.inj. by apply length_render. Qed.
Lemma length_section_header n t f a o s al : length (section_header n t f a o s al) = 64%nat.
Proof. apply Nat2Z.inj. by apply length_render. Qed.
Lemma length_program_header f o v fs ms : length (program_header f o v fs ms) = 56%nat.
Proof. apply Nat2Z.inj. by apply length_render. Qed.

(** * The image *)

Record placement := {
  pl_rodata_offset : Z;      (** of rodata in the segment payload *)
  pl_segment_end : Z;        (** file offset where the load segment ends *)
  pl_names : Z;              (** file offset of the section names *)
  pl_headers : Z             (** file offset of the section headers *)
}.

Definition place (ro : Z) (rodata : list Z) : placement :=
  let segment_end := 128 + (ro + Z.of_nat (length rodata)) in
  let names := align_up segment_end 8 in
  {| pl_rodata_offset := ro; pl_segment_end := segment_end; pl_names := names;
     pl_headers := align_up (names + 25) 8 |}.

Definition section_headers (l : SectionLayout) (ro : Z) (text rodata : list Z) : list Z :=
  replicate 64 0
  ++ section_header 1 1 6 (text_base l) 128 (Z.of_nat (length text)) 4
  ++ section_header 7 1 2 (rodata_base l) (128 + ro) (Z.of_nat (length rodata)) 8
  ++ section_header 15 3 0 0 (pl_names (place ro rodata)) 25 1.

Definition segment_payload (ro : Z) (text rodata : list Z) : list Z :=
  text ++ replicate (Z.to_nat ro - length text) 0 ++ rodata.

Definition elf_image (l : SectionLayout) (ro : Z) (text rodata : list Z) : list Z :=
  let pl := place ro rodata in
  elf_header (text_base l) (pl_headers pl)
  ++ program_header 5 0 (text_base l - 128) (pl_segment_end pl) (pl_segment_end pl)
  ++ replicate 8 0
  ++ segment_payload ro text rodata
  ++ replicate (Z.to_nat (pl_names pl - pl_segment_end pl)) 0
  ++ ELF_SECTION_NAMES
  ++ replicate (Z.to_nat (pl_headers pl - pl_names pl - 25)) 0
  ++ section_headers l ro text rodata.

Lemma align8 x : x <= align_up x 8 < x + 8 /\ align_up x 8 mod 8 = 0.
Proof.
  pose proof (align_up_spec x 3 ltac:(lia)) as H. simpl in H. change (2 ^ 3) with 8 in H. lia.
Qed.

Lemma length_segment_payload ro text rodata :
  Z.of_nat (length text) <= ro ->
  Z.of_nat (length (segment_payload ro text rodata)) = ro + Z.of_nat (length rodata).
Proof. intros H. unfold segment_payload. rewrite !length_app, length_replicate. lia. Qed.

(** Filling the segment: the text at its start, rodata at its offset. *)
Lemma fill_segment ro text rodata :
  Z.of_nat (length text) <= ro ->
  (let? segment := with_slice (replicate (Z.to_nat (ro + Z.of_nat (length rodata))) 0) 0
     (Z.of_nat (length text)) (copy_from_slice text) in
   with_slice segment ro (ro + Z.of_nat (length rodata)) (copy_from_slice rodata))
  = Ok (segment_payload ro text rodata).
Proof.
  intros Hle.
  replace (Z.to_nat (ro + Z.of_nat (length rodata)))
    with (length text + (Z.to_nat ro - length text + length rodata))%nat by lia.
  rewrite !replicate_add.
  rewrite with_slice_start by (by rewrite length_replicate).
  rewrite copy_from_slice_ok by (by rewrite length_replicate).
  rewrite <- (app_nil_r (replicate (length rodata) 0)), (app_assoc text).
  rewrite with_slice_app by (rewrite length_app, !length_replicate; lia).
  rewrite copy_from_slice_ok by (by rewrite length_replicate).
  unfold segment_payload. by rewrite <- app_assoc, app_nil_r.
Qed.

Lemma fill_section_headers l ro text rodata :
  (let? headers := with_slice (replicate 256 0) 64 128
     (write_section_header 1 1 (Z.lor 0x2 0x4) (text_base l) 128 (Z.of_nat (length text)) 4) in
   let? headers := with_slice headers 128 192
     (write_section_header 7 1 0x2 (rodata_base l) (128 + ro) (Z.of_nat (length rodata)) 8) in
   with_slice headers 192 256
     (write_section_header 15 3 0 0 (pl_names (place ro rodata)) 25 1))
  = Ok (section_headers l ro text rodata).
Proof.
  change (replicate 256 0) with (replicate (64 + (64 + (64 + 64))) 0). rewrite !replicate_add.
  rewrite with_slice_app, write_section_header_ok by done.
  rewrite app_assoc, with_slice_app, write_section_header_ok
    by (rewrite ?length_app, ?length_section_header; done).
  rewrite <- (app_nil_r (replicate 64 0)) at 2.
  rewrite app_assoc, with_slice_app, write_section_header_ok
    by (rewrite ?length_app, ?length_section_header; done).
  unfold section_headers. by rewrite <- !app_assoc, app_nil_r.
Qed.

Lemma write_elf_image l ro text rodata :
  text_base l = ELF_BASE_ADDR -> Z.of_nat (length text) <= ro ->
  write_elf l ro text rodata = Ok (elf_image l ro text rodata).
Proof.
  intros Hb Hle. unfold write_elf. rewrite Hb.
  change (align_up (ELF_HEADER_SIZE + ELF_PROGRAM_HEADER_SIZE) ELF_SEGMENT_ALIGN) with 128.
  change (Z.of_nat (length ELF_SECTION_NAMES)) with 25.
  change (ok_or (checked_sub_u64 ELF_BASE_ADDR 128) (new_error MTextBaseBelowSegment))
    with (@Ok CompileError Z (ELF_BASE_ADDR - 128)). cbn iota beta zeta.
  set (pl := place ro rodata).
  change (align_up (128 + (ro + Z.of_nat (length rodata))) 8) with (pl_names pl).
  change (align_up (pl_names pl + 25) 8) with (pl_headers pl).
  pose proof (align8 (pl_segment_end pl)) as [Hn _]. pose proof (align8 (pl_names pl + 25)) as [Hh _].
  change (align_up (pl_segment_end pl) 8) with (pl_names pl) in Hn.
  change (align_up (pl_names pl + 25) 8) with (pl_headers pl) in Hh.
  assert (pl_segment_end pl = 128 + (ro + Z.of_nat (length rodata))) as Hse by done.
  replace (Z.to_nat (pl_headers pl + 4 * ELF_SECTION_HEADER_SIZE)) with
    (64 + (56 + (8 + (Z.to_nat (ro + Z.of_nat (length rodata)) +
      (Z.to_nat (pl_names pl - pl_segment_end pl) + (25 +
        (Z.to_nat (pl_headers pl - pl_names pl - 25) + 256)))))))%nat
    by (unfold ELF_SECTION_HEADER_SIZE; lia).
  rewrite !replicate_add.
  rewrite with_slice_start by done. rewrite write_elf_header_ok by done.
  rewrite (with_slice_app (elf_header _ _) (replicate 56 0)) by (rewrite length_elf_header; done).
  rewrite write_program_header_ok by done.
  rewrite (app_assoc (program_header _ _ _ _ _)), (app_assoc (elf_header _ _)).
  rewrite with_slice_app
    by (rewrite !length_app, length_elf_header, length_program_header, ?length_replicate; simpl; lia).
  rewrite fill_segment by done.
  remember (elf_header _ _ ++ _) as pre eqn:Epre.
  assert (Z.of_nat (length pre) = 128) as Hpre.
  { rewrite Epre. by rewrite !length_app, length_elf_header, length_program_header. }
  rewrite (app_assoc (segment_payload _ _ _)), (app_assoc pre).
  pose proof (length_segment_payload ro text rodata Hle) as Hpay.
  rewrite with_slice_app by (rewrite ?length_app, ?length_replicate, ?Nat2Z.inj_add; lia).
  rewrite copy_from_slice_ok by done.
  rewrite <- !app_assoc, (app_assoc ELF_SECTION_NAMES), (app_assoc (replicate _ _) (ELF_SECTION_NAMES ++ _)),
    (app_assoc (segment_payload _ _ _)), (app_assoc pre), <- (app_nil_r (replicate 256 0)).
  rewrite with_slice_app by (rewrite ?length_app, !length_replicate;
    change (length ELF_SECTION_NAMES) with 25%nat; unfold ELF_SECTION_HEADER_SIZE; lia).
  change (2 * ELF_SECTION_HEADER_SIZE) with 128. change (3 * ELF_SECTION_HEADER_SIZE) with 192.
  change (4 * ELF_SECTION_HEADER_SIZE) with 256. change ELF_SECTION_HEADER_SIZE with 64.
  pose proof (fill_section_headers l ro text rodata) as Hfill. fold pl in Hfill.
  rewrite Hb in Hfill. cbv beta. rewrite Hfill. unfold elf_image. fold pl.
  rewrite Hb, Epre. by rewrite app_nil_r, <- !app_assoc.
Qed.

(** * Reading the image back *)

Lemma get_slice_length bytes start len r :
  0 <= len -> get_slice bytes start len = Some r -> Z.of_nat (length r) = len.
Proof.
  unfold get_slice. intros Hl H. destruct (_ && _) eqn:E; [|done].
  apply andb_true_iff in E as [E1%Z.leb_le E2%Z.leb_le]. injection H as <-.
  rewrite length_take, length_drop. lia.
Qed.

Lemma get_slice_in a b c start len :
  start = Z.of_nat (length a) -> len = Z.of_nat (length b) -> get_slice (a ++ b ++ c) start len = Some b.
Proof. intros -> ->. apply get_slice_app. Qed.

Lemma get_slice_mid a b c start len r :
  get_slice b start len = Some r -> 0 <= len ->
  get_slice (a ++ b ++ c) (Z.of_nat (length a) + start) len = Some r.
Proof.
  unfold get_slice. intros H Hl. destruct (_ && _) eqn:E in H; [|done].
  apply andb_true_iff in E as [E1%Z.leb_le E2%Z.leb_le]. injection H as <-.
  rewrite !length_app. rewrite (proj2 (Z.leb_le 0 _)), (proj2 (Z.leb_le (_ + _) _)) by lia.
  cbn [andb]. f_equal.
  replace (Z.to_nat (Z.of_nat (length a) + start)) with (length a + Z.to_nat start)%nat by lia.
  rewrite <- drop_drop, drop_app_length, drop_app_le by lia.
  rewrite take_app_le by (rewrite length_drop; lia). done.
Qed.

(** A field written into zeroes is read back from its position. *)
Lemma get_slice_render fs : forall pos stop o b,
  fields_fit pos stop fs = true -> (o, b) ∈ fs ->
  get_slice (render pos stop fs) (o - pos) (Z.of_nat (length b)) = Some b.
Proof.
  induction fs as [|[o' b'] fs IH]; intros pos stop o b Hf Hin; [by apply elem_of_nil in Hin|].
  simpl in Hf. apply andb_true_iff in Hf as [H1%Z.leb_le H2]. cbn [render].
  apply elem_of_cons in Hin as [[= -> ->]|Hin].
  - apply get_slice_in; [|done]. rewrite length_replicate. lia.
  - specialize (IH _ _ _ _ H2 Hin).
    pose proof (get_slice_mid (replicate (Z.to_nat (o' - pos)) 0 ++ b') _ [] _ _ _ IH ltac:(lia)) as H.
    rewrite app_nil_r, length_app, length_replicate, <- app_assoc in H. rewrite <- H. f_equal. lia.
Qed.

Lemma get_slice_prefix a b start len r :
  get_slice a start len = Some r -> 0 <= len -> get_slice (a ++ b) start len = Some r.
Proof. intros H Hl. exact (get_slice_mid [] a b start len r H Hl). Qed.

(** Reading a little-endian field of a rendered header. *)
Lemma read_render_u16 stop fs o v rest :
  fields_fit 0 stop fs = true -> (o, le_bytes 2 v) ∈ fs -> 0 <= v < 2 ^ 16 ->
  read_u16 (render 0 stop fs ++ rest) o = Ok v.
Proof.
  intros Hf Hin Hv. pose proof (get_slice_render _ _ _ _ _ Hf Hin) as H.
  rewrite length_le_bytes, Z.sub_0_r in H. unfold read_u16.
  change 2 with (Z.of_nat 2). rewrite (get_slice_prefix _ rest _ _ _ H) by lia.
  by rewrite of_le_bytes_small.
Qed.

Lemma read_render_u32 stop fs o v rest :
  fields_fit 0 stop fs = true -> (o, le_bytes 4 v) ∈ fs -> 0 <= v < 2 ^ 32 ->
  read_u32 (render 0 stop fs ++ rest) o = Ok v.
Proof.
  intros Hf Hin Hv. pose proof (get_slice_render _ _ _ _ _ Hf Hin) as H.
  rewrite length_le_bytes, Z.sub_0_r in H. unfold read_u32.
  change 4 with (Z.of_nat 4). rewrite (get_slice_prefix _ rest _ _ _ H) by lia.
  by rewrite of_le_bytes_small.
Qed.

Lemma read_render_u64 stop fs o v rest :
  fields_fit 0 stop fs = true -> (o, le_bytes 8 v) ∈ fs -> 0 <= v < 2 ^ 64 ->
  read_u64 (render 0 stop fs ++ rest) o = Ok v.
Proof.
  intros Hf Hin Hv. pose proof (get_slice_render _ _ _ _ _ Hf Hin) as H.
  rewrite length_le_bytes, Z.sub_0_r in H. unfold read_u64.
  change 8 with (Z.of_nat 8). rewrite (get_slice_prefix _ rest _ _ _ H) by lia.
  by rewrite of_le_bytes_small.
Qed.

(** Find a field in the list of a header. *)
Ltac in_fields := repeat (apply list_elem_of_here || apply list_elem_of_further).

Definition image_header (entry sho : Z) : ElfHeader :=
  {| h_entry := entry; program_offset := 64; section_offset := sho; program_entry_size := 56;
     program_count := 1; section_entry_size := 64; section_count := 4; shstr_index := 3 |}.

Lemma parse_header_image entry sho rest :
  0 <= entry < 2 ^ 64 -> 0 <= sho < 2 ^ 64 ->
  parse_header (elf_header entry sho ++ rest) = Ok (image_header entry sho).
Proof.
  intros He Hs. unfold parse_header.
  assert (check_identity (elf_header entry sho ++ rest) = Ok tt) as ->.
  { unfold check_identity. rewrite length_app, length_elf_header.
    rewrite (proj2 (Z.ltb_ge _ _)) by (unfold ELF64_HEADER_SIZE; lia).
    rewrite (get_slice_prefix _ rest 0 4 (0x7f :: chars "ELF")); [|reflexivity|lia]. reflexivity. }
  unfold elf_header.
  assert (check_version (elf_header entry sho ++ rest) = Ok tt) as Hv.
  { unfold check_version. unfold elf_header at 1 2. cbn [render].
    cbn -[read_u32 elf_header le_bytes]. unfold elf_header.
    by rewrite !(read_render_u32 64 _ _ _ rest) by (reflexivity || in_fields || done). }
  unfold elf_header in Hv. rewrite Hv.
  rewrite (read_render_u16 64 _ 16 2), (read_render_u16 64 _ 18 243), (read_render_u16 64 _ 52 64),
    (read_render_u64 64 _ 24 entry), (read_render_u64 64 _ 32 64), (read_render_u64 64 _ 40 sho),
    (read_render_u16 64 _ 54 56), (read_render_u16 64 _ 56 1), (read_render_u16 64 _ 58 64),
    (read_render_u16 64 _ 60 4), (read_render_u16 64 _ 62 3) by (reflexivity || in_fields || done).
  reflexivity.
Qed.

Lemma checked_file_range_ok bytes offset size label r :
  0 <= offset -> offset + size <= U64_MAX -> get_slice bytes offset size = Some r ->
  checked_file_range bytes offset size label = Ok r.
Proof.
  intros Ho Hs H. unfold checked_file_range, checked_add_u64.
  by rewrite (proj2 (Z.leb_le _ _)), H by done.
Qed.

(** The single segment of an emitted file. *)
Definition image_segment (base segment_end : Z) : ElfSegment :=
  {| seg_flags := 5; seg_offset := 0; virtual_address := base - 128; file_size := segment_end;
     memory_size := segment_end |}.

Lemma parse_segment_image bytes base segment_end r :
  0 <= base - 128 -> base - 128 + segment_end <= U64_MAX -> 0 <= segment_end ->
  get_slice bytes 0 segment_end = Some r ->
  parse_segment bytes [] (program_header 5 0 (base - 128) segment_end segment_end)
  = Ok [image_segment base segment_end].
Proof.
  intros Hb Hov Hse Hr. unfold parse_segment, program_header, U64_MAX in *.
  rewrite <- (app_nil_r (render _ _ _)).
  rewrite (read_render_u32 56 _ 0 1), (read_render_u32 56 _ 4 5), (read_render_u64 56 _ 8 0),
    (read_render_u64 56 _ 16 (base - 128)), (read_render_u64 56 _ 32 segment_end),
    (read_render_u64 56 _ 40 segment_end) by (reflexivity || in_fields || (pow2_consts; lia)).
  cbn -[checked_file_range checked_add_u64 image_segment].
  rewrite (checked_file_range_ok _ _ _ _ r) by (unfold U64_MAX; done || lia).
  rewrite Z.ltb_irrefl. unfold checked_add_u64, U64_MAX.
  by rewrite (proj2 (Z.leb_le _ _)) by lia.
Qed.

Section Image.
Context (l : SectionLayout) (ro : Z) (text rodata : list Z).
Hypotheses (Hbase : text_base l = ELF_BASE_ADDR) (Hrodata : rodata_base l = text_base l + ro)
  (Hro : Z.of_nat (length text) <= ro) (Hne : 0 < Z.of_nat (length text))
  (Hmod : Z.of_nat (length text) mod 4 = 0)
  (Hsize : Z.of_nat (length (elf_image l ro text rodata)) <= I64_MAX).

Local Abbreviation pl := (place ro rodata).
Local Abbreviation image := (elf_image l ro text rodata).

Lemma length_elf_image : Z.of_nat (length image) = pl_headers pl + 256.
Proof using Hro.
  unfold elf_image, section_headers. rewrite !length_app, length_elf_header, length_program_header,
    !length_replicate, !length_section_header. change (length ELF_SECTION_NAMES) with 25%nat.
  pose proof (length_segment_payload ro text rodata Hro) as Hpay.
  pose proof (align8 (pl_segment_end pl)) as [Hn _]. pose proof (align8 (pl_names pl + 25)) as [Hh _].
  change (align_up (pl_segment_end pl) 8) with (pl_names pl) in Hn.
  change (align_up (pl_names pl + 25) 8) with (pl_headers pl) in Hh.
  assert (pl_segment_end pl = 128 + (ro + Z.of_nat (length rodata))) as Hse by done. lia.
Qed.

(** The order of the parts in the file. *)
Lemma placement_order :
  128 < pl_segment_end pl <= pl_names pl /\ pl_names pl + 25 <= pl_headers pl /\
  pl_headers pl + 256 <= I64_MAX.
Proof using Hro Hne Hsize.
  rewrite length_elf_image in Hsize.
  pose proof (align8 (pl_segment_end pl)) as [Hn _]. pose proof (align8 (pl_names pl + 25)) as [Hh _].
  change (align_up (pl_segment_end pl) 8) with (pl_names pl) in Hn.
  change (align_up (pl_names pl + 25) 8) with (pl_headers pl) in Hh.
  assert (pl_segment_end pl = 128 + (ro + Z.of_nat (length rodata))) as Hse by done. lia.
Qed.

Lemma parse_segments_image :
  parse_segments image (image_header (text_base l) (pl_headers pl))
  = Ok [image_segment (text_base l) (pl_segment_end pl)].
Proof using Hbase Hro Hne Hsize.
  destruct placement_order as (H1 & H2 & H3). unfold I64_MAX in H3.
  unfold parse_segments, checked_table. cbn [program_offset program_entry_size program_count image_header].
  change (56 * 1) with 56. change (U64_MAX <? 56) with false. cbn iota.
  assert (get_slice image 64 56
          = Some (program_header 5 0 (text_base l - 128) (pl_segment_end pl) (pl_segment_end pl))) as Hph.
  { unfold elf_image. apply get_slice_in; [by rewrite length_elf_header|by rewrite length_program_header]. }
  rewrite (checked_file_range_ok image 64 56 _ _ ltac:(lia) ltac:(unfold U64_MAX; lia) Hph).
  assert (exists r, get_slice image 0 (pl_segment_end pl) = Some r) as [r Hr].
  { unfold get_slice. rewrite length_elf_image.
    rewrite (proj2 (Z.leb_le 0 0)), (proj2 (Z.leb_le (0 + _) _)) by lia. by eexists. }
  change (Z.to_nat 56) with 56%nat. unfold chunks_exact. rewrite length_program_header.
  cbn [chunks_fuel]. rewrite length_program_header. cbn [Nat.leb].
  rewrite <- (length_program_header 5 0 (text_base l - 128) (pl_segment_end pl) (pl_segment_end pl)) at 1.
  rewrite firstn_all, drop_ge by (by rewrite length_program_header). cbn [length Nat.leb].
  unfold ELF_BASE_ADDR in Hbase. cbn [fold_result].
  rewrite (parse_segment_image image (text_base l) (pl_segment_end pl) r ltac:(lia)
    ltac:(unfold U64_MAX; lia) ltac:(lia) Hr).
  cbn [length Nat.eqb negb existsb image_segment seg_flags h_entry image_header].
  assert (segment_contains (image_segment (text_base l) (pl_segment_end pl)) (text_base l) = true) as Hc.
  { unfold segment_contains. cbn [virtual_address memory_size image_segment].
    unfold sat_add_u64, U64_MAX. rewrite (proj2 (Z.leb_le _ _)) by lia.
    rewrite (proj2 (Z.ltb_lt _ _)) by lia. done. }
  rewrite Hc. done.
Qed.

Lemma get_headers : get_slice image (pl_headers pl) 256 = Some (section_headers l ro text rodata).
Proof using Hro.
  pose proof length_elf_image as Hlen.
  assert (length (section_headers l ro text rodata) = 256%nat) as Hsh.
  { unfold section_headers. by rewrite !length_app, !length_section_header. }
  assert (exists front, image = front ++ section_headers l ro text rodata ++ []) as [front Hf].
  { eexists. unfold elf_image. rewrite app_nil_r, !app_assoc. reflexivity. }
  rewrite Hf in Hlen |- *. rewrite app_nil_r, length_app, Hsh in Hlen.
  apply get_slice_in; [lia|by rewrite Hsh].
Qed.

Lemma get_names : get_slice image (pl_names pl) 25 = Some ELF_SECTION_NAMES.
Proof using Hro Hne Hsize.
  destruct placement_order as (H1 & H2 & H3).
  unfold elf_image. rewrite (app_assoc (segment_payload _ _ _)), (app_assoc (replicate 8 0)),
    (app_assoc (program_header _ _ _ _ _)), (app_assoc (elf_header _ _)).
  apply get_slice_in; [|done].
  rewrite !length_app, length_elf_header, length_program_header, !length_replicate.
  pose proof (length_segment_payload ro text rodata Hro) as Hpay.
  assert (pl_segment_end pl = 128 + (ro + Z.of_nat (length rodata))) as Hse by done. lia.
Qed.

Lemma get_text : get_slice image 128 (Z.of_nat (length text)) = Some text.
Proof using.
  unfold elf_image, segment_payload. rewrite (app_assoc (program_header _ _ _ _ _)), (app_assoc (elf_header _ _)).
  rewrite <- (app_assoc text). apply get_slice_in; [|done].
  by rewrite !length_app, length_elf_header, length_program_header.
Qed.

Lemma get_rodata : get_slice image (128 + ro) (Z.of_nat (length rodata)) = Some rodata.
Proof using Hro Hne.
  unfold elf_image, segment_payload. rewrite <- !(app_assoc text), <- !(app_assoc (replicate (Z.to_nat ro - _) 0)).
  rewrite (app_assoc text), (app_assoc (replicate 8 0)), (app_assoc (program_header _ _ _ _ _)),
    (app_assoc (elf_header _ _)).
  apply get_slice_in; [|done].
  rewrite !length_app, length_elf_header, length_program_header, !length_replicate. lia.
Qed.

Definition image_text : ElfSection :=
  {| s_name := chars ".text"; section_type := 1; s_flags := 6; s_address := text_base l;
     s_offset := 128; s_size := Z.of_nat (length text) |}.
Definition image_rodata : ElfSection :=
  {| s_name := chars ".rodata"; section_type := 1; s_flags := 2; s_address := rodata_base l;
     s_offset := 128 + ro; s_size := Z.of_nat (length rodata) |}.
Definition image_shstrtab : ElfSection :=
  {| s_name := chars ".shstrtab"; section_type := 3; s_flags := 0; s_address := 0;
     s_offset := pl_names pl; s_size := 25 |}.

(** One section header of the table, given that its name and its range are in the file. *)
Lemma parse_section_image index n t f a o sz al name r acc :
  (index =? 0)%nat = false -> 0 <= n < 2 ^ 32 -> 0 <= t < 2 ^ 32 -> 0 <= f < 2 ^ 64 ->
  0 <= a -> 0 <= sz -> a + sz <= U64_MAX -> 0 <= o -> o + sz <= U64_MAX ->
  existsb (fun prefix => match get_from ELF_SECTION_NAMES n with
                         | Some rest => starts_with prefix rest | None => false end) admitted_names
  = true ->
  read_c_string ELF_SECTION_NAMES n = Ok name ->
  get_slice image o sz = Some r ->
  one_of t [SHT_RELA; SHT_DYNAMIC; SHT_REL; SHT_DYNSYM] || existsb (str_eqb name) prohibited_names
  = false ->
  parse_section image ELF_SECTION_NAMES acc (index, section_header n t f a o sz al)
  = Ok (acc ++ [{| s_name := name; section_type := t; s_flags := f; s_address := a; s_offset := o;
                   s_size := sz |}]).
Proof using.
  intros Hi Hn Ht Hf Ha Hsz Has Ho Hos Hadm Hname Hr Hok. unfold U64_MAX in *.
  unfold parse_section, section_header. rewrite Hi. rewrite <- (app_nil_r (render _ _ _)).
  rewrite (read_render_u32 64 _ 0 n) by (reflexivity || in_fields || done).
  rewrite Hadm, Hname. cbn [negb].
  rewrite (read_render_u32 64 _ 4 t), (read_render_u64 64 _ 8 f), (read_render_u64 64 _ 16 a),
    (read_render_u64 64 _ 24 o), (read_render_u64 64 _ 32 sz)
    by (reflexivity || in_fields || (pow2_consts; lia) || done).
  unfold checked_add_u64, U64_MAX. rewrite (proj2 (Z.leb_le (a + sz) _)) by lia.
  rewrite (checked_file_range_ok _ _ _ _ r) by (unfold U64_MAX; lia || done).
  by rewrite Hok.
Qed.

Lemma chunks_headers :
  chunks_exact 64 (section_headers l ro text rodata)
  = [replicate 64 0;
     section_header 1 1 6 (text_base l) 128 (Z.of_nat (length text)) 4;
     section_header 7 1 2 (rodata_base l) (128 + ro) (Z.of_nat (length rodata)) 8;
     section_header 15 3 0 0 (pl_names pl) 25 1].
Proof using.
  assert (forall fuel a rest, length a = 64%nat ->
    chunks_fuel (S fuel) 64 (a ++ rest) = a :: chunks_fuel fuel 64 rest) as Hstep.
  { intros fuel a rest Ha. cbn [chunks_fuel]. rewrite length_app, Ha.
    rewrite (proj2 (Nat.leb_le _ _)) by lia. rewrite <- Ha.
    by rewrite take_app_length, drop_app_length. }
  unfold chunks_exact.
  assert (length (section_headers l ro text rodata) = 256%nat) as ->.
  { unfold section_headers. by rewrite !length_app, !length_section_header. }
  unfold section_headers. change 256%nat with (S (S (S (S 252)))).
  rewrite !Hstep by (rewrite ?length_section_header; done).
  rewrite <- (app_nil_r (section_header 15 _ _ _ _ _ _)).
  rewrite Hstep by apply length_section_header. rewrite app_nil_r. done.
Qed.

Lemma parse_sections_image :
  parse_sections image (image_header (text_base l) (pl_headers pl))
  = Ok [image_rodata; image_shstrtab; image_text].
Proof using Hbase Hrodata Hro Hne Hsize.
  destruct placement_order as (H1 & H2 & H3). unfold I64_MAX in H3.
  assert (pl_segment_end pl = 128 + (ro + Z.of_nat (length rodata))) as Hse by done.
  unfold ELF_BASE_ADDR in Hbase.
  unfold parse_sections, checked_table.
  cbn [section_offset section_entry_size section_count shstr_index image_header].
  change (64 * 4) with 256. change (U64_MAX <? 256) with false. cbn iota.
  rewrite (checked_file_range_ok image (pl_headers pl) 256 _ _ ltac:(lia) ltac:(unfold U64_MAX; lia)
    get_headers).
  assert (get_slice (section_headers l ro text rodata) (3 * 64) 64
          = Some (section_header 15 3 0 0 (pl_names pl) 25 1)) as Hsh.
  { unfold section_headers. rewrite (app_assoc (section_header _ _ _ _ _ _ _)),
      (app_assoc (replicate 64 0)), <- (app_nil_r (section_header 15 _ _ _ _ _ _)) at 1.
    apply get_slice_in; [|by rewrite length_section_header].
    by rewrite !length_app, !length_section_header. }
  rewrite Hsh. cbn [ok_or].
  assert (read_u32 (section_header 15 3 0 0 (pl_names pl) 25 1) 4 = Ok 3) as ->.
  { unfold section_header. rewrite <- (app_nil_r (render _ _ _)).
    by rewrite (read_render_u32 64 _ 4 3) by (reflexivity || in_fields || done). }
  assert (forall o v, 0 <= v < 2 ^ 64 ->
    (o, le_bytes 8 v) ∈ [(8, le_bytes 8 0); (16, le_bytes 8 0); (24, le_bytes 8 (pl_names pl)); (32, le_bytes 8 25)] ->
    read_u64 (section_header 15 3 0 0 (pl_names pl) 25 1) o = Ok v) as Hrd.
  { intros o v Hv Hin. unfold section_header. rewrite <- (app_nil_r (render _ _ _)).
    apply (read_render_u64 64); [reflexivity| |done].
    do 2 apply list_elem_of_further. apply (elem_of_app [_; _; _; _] [_]). by left. }
  rewrite (Hrd 8 0), (Hrd 16 0), (Hrd 24 (pl_names pl)), (Hrd 32 25)
    by (in_fields || (pow2_consts; lia)).
  cbn [Z.eqb Pos.eqb negb SHT_STRTAB].
  rewrite (checked_file_range_ok image (pl_names pl) 25 _ _ ltac:(lia) ltac:(unfold U64_MAX; lia) get_names).
  change (Z.to_nat 64) with 64%nat. rewrite chunks_headers. cbn [enumerate_from fold_result].
  change (parse_section image ELF_SECTION_NAMES [] (0%nat, replicate 64 0))
    with (@Ok ElfParseError _ (@nil ElfSection)). cbn iota.
  rewrite (parse_section_image 1 1 1 6 (text_base l) 128 (Z.of_nat (length text)) 4 (chars ".text") text)
    by (done || (pow2_consts; lia) || (unfold U64_MAX; lia) || apply get_text).
  rewrite (parse_section_image 2 7 1 2 (rodata_base l) (128 + ro) (Z.of_nat (length rodata)) 8
      (chars ".rodata") rodata)
    by (done || (pow2_consts; lia) || (unfold U64_MAX; lia) || apply get_rodata).
  rewrite (parse_section_image 3 15 3 0 0 (pl_names pl) 25 1 (chars ".shstrtab") ELF_SECTION_NAMES)
    by (done || (pow2_consts; lia) || (unfold U64_MAX; lia) || apply get_names).
  reflexivity.
Qed.

Lemma check_text_image : check_text (text_base l) image_text image_rodata = Ok tt.
Proof using Hbase Hro Hne Hmod Hsize.
  destruct placement_order as (H1 & H2 & H3). unfold I64_MAX in H3. unfold ELF_BASE_ADDR in Hbase.
  assert (pl_segment_end pl = 128 + (ro + Z.of_nat (length rodata))) as Hse by done.
  unfold check_text.
  cbn [section_type s_flags s_size s_address image_text image_rodata].
  rewrite Hmod, Hbase. rewrite (proj2 (Z.eqb_neq (Z.of_nat (length text)) 0)) by lia.
  cbn -[range_contains section_range image_text].
  assert (range_contains (section_range image_text) 65536 = true) as ->; [|done].
  unfold range_contains, section_range. cbn [r_start r_end s_address s_size image_text].
  rewrite Hbase. unfold sat_add_u64, U64_MAX. rewrite (proj2 (Z.ltb_lt _ _)) by lia. done.
Qed.

Lemma mapping_ok_image s :
  text_base l <= s_address s -> 0 <= s_size s ->
  s_address s - text_base l + 128 + s_size s <= pl_segment_end pl ->
  s_offset s = s_address s - text_base l + 128 ->
  mapping_ok (image_segment (text_base l) (pl_segment_end pl)) s = true.
Proof using Hbase Hro Hne Hsize.
  intros Ha Hs Hend Hoff.
  destruct placement_order as (H1 & H2 & H3). unfold I64_MAX in H3. unfold ELF_BASE_ADDR in Hbase.
  unfold mapping_ok, segment_contains_range, checked_sub_u64, checked_add_u64, sat_add_u64, U64_MAX.
  cbn [virtual_address memory_size file_size seg_offset image_segment].
  rewrite (proj2 (Z.leb_le (text_base l - 128) _)) by lia. cbn [mbind option_bind].
  rewrite (proj2 (Z.leb_le (s_address s - (text_base l - 128) + s_size s) _)) by lia.
  rewrite (proj2 (Z.leb_le (0 + (s_address s - (text_base l - 128))) _)) by lia.
  rewrite !(proj2 (Z.leb_le _ _)) by lia. cbn [andb]. apply bool_decide_eq_true. f_equal. lia.
Qed.

Lemma check_mapping_image :
  check_mapping (image_segment (text_base l) (pl_segment_end pl)) image_text image_rodata = Ok tt.
Proof using Hbase Hrodata Hro Hne Hsize.
  destruct placement_order as (H1 & H2 & H3). unfold I64_MAX in H3.
  assert (pl_segment_end pl = 128 + (ro + Z.of_nat (length rodata))) as Hse by done.
  unfold ELF_BASE_ADDR in Hbase. unfold check_mapping. cbn [fold_result].
  rewrite !mapping_ok_image by (cbn; done || lia). cbn [negb].
  unfold section_range. cbn [r_start r_end s_address s_size image_text image_rodata].
  unfold sat_add_u64, U64_MAX. rewrite (proj2 (Z.ltb_ge (rodata_base l) _)) by lia.
  by rewrite andb_false_r.
Qed.

(** The container of an emitted file always passes; what is left is its instructions. *)
Lemma parse_elf_image max :
  parse_elf image max
  = if max <? Z.of_nat (length text) / 4
    then elf_err BudgetExceeded (MsgRange (Z.of_nat (length text) / 4) max "ELF instruction count exceeds budget")
    else
      let? decoded := validate_instructions text (text_base l) (section_range image_text) in
      let? _ := check_flow (text_base l) decoded in
      Ok {| pe_entry := text_base l; pe_sections := [image_rodata; image_shstrtab; image_text];
            pe_segments := [image_segment (text_base l) (pl_segment_end pl)];
            pe_text := image_text; pe_rodata := image_rodata;
            instruction_count := Z.of_nat (length text) / 4; pe_decoded := decoded |}.
Proof using Hbase Hrodata Hro Hne Hmod Hsize.
  destruct placement_order as (H1 & H2 & H3). unfold I64_MAX in H3.
  assert (pl_segment_end pl = 128 + (ro + Z.of_nat (length rodata))) as Hse by done.
  unfold parse_elf.
  assert (parse_header image = Ok (image_header (text_base l) (pl_headers pl))) as ->.
  { unfold elf_image. apply parse_header_image; [rewrite Hbase; unfold ELF_BASE_ADDR|]; pow2_consts; lia. }
  rewrite parse_segments_image, parse_sections_image.
  assert (find_section ".text" [image_rodata; image_shstrtab; image_text] = Some image_text) as -> by done.
  assert (find_section ".rodata" [image_rodata; image_shstrtab; image_text] = Some image_rodata) as -> by done.
  cbn [ok_or h_entry image_header]. rewrite check_text_image, check_mapping_image.
  unfold decode_text. cbn [s_size s_offset s_address image_text].
  destruct (max <? _); [done|].
  rewrite (checked_file_range_ok image 128 (Z.of_nat (length text)) _ _ ltac:(lia)
    ltac:(unfold U64_MAX; lia) get_text).
  destruct (validate_instructions _ _ _); [|done]. by destruct (check_flow _ _).
Qed.
End Image.
