(* ===== verification/Admission.v ===== *)
(** Scanning emitted code: every word the assembler emits passes the checker's allowlist, and
    the words of one assembly instruction pass the checker's scan (stack-pointer writes,
    return-address marker, control-flow targets) whatever text they stand in. *)

From Stdlib Require Import ZArith Lia.
From stdpp Require Import base numbers list option tactics gmap sets.
From S2P Require Import Prelude RustStr Diag Rv64 Immediate Asm Layout LayoutFacts ElfChecker Isa.
From S2P Require Import Decode Rv64Sem.

Open Scope Z_scope.

(** * Words that only compute *)

(** No control transfer and no [auipc ra]; under the strict discipline no write of [sp]. *)
Definition plain_word (strict : bool) (w : Z) : Prop :=
  instruction_is_allowed w = true /\
  exists op rd f3 rs1 top, fields w op rd f3 rs1 top /\ op <> 0x63 /\ op <> 0x6f /\ op <> 0x67 /\
    ~ (op = 0x17 /\ rd = 1) /\ (strict = true -> rd <> 2 \/ opcode_writes_rd op = false).

Lemma plain_r strict rd f3 rs1 rs2 f7 :
  reg_ok rd -> 0 <= f3 < 8 -> reg_ok rs1 -> reg_ok rs2 ->
  f7 = 0 \/ f7 = 1 \/ f7 = 0x20 /\ (f3 = 0 \/ f3 = 5) -> (strict = true -> rd <> 2) ->
  plain_word strict (encode_r_type 0x33 rd f3 rs1 rs2 f7).
Proof.
  intros Hrd Hf3 H1 H2 H7 Hsp. split; [by apply r_admitted|].
  eexists _, _, _, _, _. split; [apply r_fields; (done || lia)|].
  split_and!; try lia. auto.
Qed.

Lemma plain_i strict op rd f3 rs1 imm w :
  encode_i_type op rd f3 rs1 imm = Ok w -> reg_ok rd -> 0 <= f3 < 8 -> reg_ok rs1 ->
  op = 0x03 \/ op = 0x13 \/ op = 0x1b -> admitted w -> (strict = true -> rd <> 2) -> plain_word strict w.
Proof.
  intros H Hrd Hf3 H1 Hop [_ Hadm] Hsp. split; [done|].
  destruct (i_fields op rd f3 rs1 ltac:(lia) Hrd Hf3 H1 imm w H) as [F _].
  eexists _, _, _, _, _. split; [exact F|]. split_and!; try lia. auto.
Qed.

Lemma plain_s strict f3 rs1 rs2 imm w :
  encode_s_type 0x23 f3 rs1 rs2 imm = Ok w -> 0 <= f3 < 4 -> reg_ok rs1 -> reg_ok rs2 -> plain_word strict w.
Proof.
  intros H Hf3 H1 H2. split; [apply (s_admitted _ _ _ _ _ Hf3 H1 H2 H)|].
  destruct (s_fields 0x23 f3 rs1 rs2 ltac:(lia) ltac:(lia) H1 H2 imm w H) as [F _].
  eexists _, _, _, _, _. split; [exact F|]. split_and!; try lia. by right.
Qed.

Lemma plain_u strict op rd imm :
  op = 0x37 \/ op = 0x17 /\ rd <> 1 -> reg_ok rd -> (strict = true -> rd <> 2) -> plain_word strict (encode_u_type op rd imm).
Proof.
  intros Hop Hrd Hsp. split; [apply u_admitted; (done || lia)|].
  destruct (u_fields op rd imm ltac:(lia) Hrd) as [(f3 & rs1 & top & F) _].
  eexists _, _, _, _, _. split; [exact F|]. split_and!; try lia. auto.
Qed.

Lemma plain_ecall strict : plain_word strict encode_ecall.
Proof.
  split; [done|]. exists 0x73, 0, 0, 0, 0. split; [apply (word_fields 0x73 0 0 0 0); lia|]. lia.
Qed.

Lemma plain_admitted strict w : plain_word strict w -> admitted w.
Proof. intros [Ha (op & rd & f3 & rs1 & top & F & _)]. split; [by eapply fields_word_ok|done]. Qed.

(** * The words of one instruction *)

(** The register an instruction writes. *)
Definition inst_dest (i : Instruction) : option Z :=
  match i with
  | Addi rd _ _ | Andi rd _ _ | Xori rd _ _ | Ld rd _ _ | Lbu rd _ _
  | IAdd rd _ _ | ISub rd _ _ | IAnd rd _ _ | IOr rd _ _ | IXor rd _ _ | IMul rd _ _
  | Mulhu rd _ _ | IDiv rd _ _ | Divu rd _ _ | IRem rd _ _ | Remu rd _ _ | Slt rd _ _
  | Sltu rd _ _ | Sgt rd _ _ | Seqz rd _ | Snez rd _ | INeg rd _
  | Slli rd _ _ | Srai rd _ _ | Srli rd _ _ | Rori rd _ _ | Roriw rd _ _
  | Sll rd _ _ | Srl rd _ _ | Sra rd _ _ | Li rd _ | La rd _ => Some rd
  | _ => None
  end.

(** [sp] moves by an immediate or by a register, and in no other way. *)
Definition frame_form (i : Instruction) : Prop :=
  inst_dest i = Some 2 -> (exists imm, i = Addi 2 2 imm) \/ (exists t, i = IAdd 2 2 t).

(** The shape of the code emitted for an instruction. *)
Inductive code_shape (strict : bool) (i : Instruction) (pc : Z) (syms : gmap str SymbolDef) (l : SectionLayout)
  : list Z -> Prop :=
| shape_plain ws : ws <> [] -> Forall (plain_word strict) ws ->
    (strict = true -> inst_dest i <> Some 2) -> code_shape strict i pc syms l ws
| shape_addi_sp imm w : i = Addi 2 2 imm -> encode_i_type 0x13 2 0 2 imm = Ok w ->
    code_shape strict i pc syms l [w]
| shape_add_sp t : i = IAdd 2 2 t -> reg_ok t ->
    code_shape strict i pc syms l [encode_r_type 0x33 2 0 2 t 0]
| shape_ret : i = Ret -> code_shape strict i pc syms l [0x00008067]
| shape_la_ra hi lo w label : i = La 1 label -> encode_i_type 0x13 1 0 1 lo = Ok w ->
    code_shape strict i pc syms l [encode_u_type 0x17 1 hi; w]
| shape_call hi lo w label target : i = Call label -> symbol_address syms label l = Ok target ->
    hi * 4096 + lo = target - pc -> -524288 <= hi < 524288 -> -2048 <= lo < 2048 ->
    fields w 0x67 1 0 1 (lo mod 4096) -> encode_i_type 0x67 1 0 1 lo = Ok w ->
    code_shape strict i pc syms l [encode_u_type 0x17 1 hi; w]
| shape_jump w label target : i = Jump label -> symbol_address syms label l = Ok target ->
    encode_j_type 0x6f 0 (target - pc) = Ok w -> code_shape strict i pc syms l [w]
| shape_branch w rs1 rs2 f3 label target :
    conditional_branch_parts i = Some (rs1, rs2, label, f3) -> branch_code f3 ->
    reg_ok rs1 -> reg_ok rs2 -> symbol_address syms label l = Ok target ->
    encode_b_type 0x63 f3 rs1 rs2 (target - pc) = Ok w -> code_shape strict i pc syms l [w]
| shape_relaxed w1 w2 rs1 rs2 f3 label target :
    conditional_branch_parts i = Some (rs1, rs2, label, f3) -> branch_code f3 ->
    reg_ok rs1 -> reg_ok rs2 -> symbol_address syms label l = Ok target ->
    encode_b_type 0x63 (inverse_branch_funct3 f3) rs1 rs2 8 = Ok w1 -> encode_j_type 0x6f 0 (target - (pc + 4)) = Ok w2 ->
    code_shape strict i pc syms l [w1; w2].

Lemma emit_plain strict w bytes i pc syms l :
  emit w = Ok bytes -> (forall x, w = Ok x -> plain_word strict x) ->
  (strict = true -> inst_dest i <> Some 2) ->
  exists ws, bytes = code_bytes ws /\ code_shape strict i pc syms l ws.
Proof.
  unfold emit. intros H Hp Hd. inv_ok. subst. exists [a]. rewrite code_bytes_one. split; [done|].
  apply shape_plain; [done| |done]. constructor; [by apply Hp|constructor].
Qed.

Lemma shift_plain strict m max shamt w bytes i pc syms l :
  shift_checked m max shamt w = Ok bytes -> (0 <= shamt <= max -> forall x, w = Ok x -> plain_word strict x) ->
  (strict = true -> inst_dest i <> Some 2) ->
  exists ws, bytes = code_bytes ws /\ code_shape strict i pc syms l ws.
Proof.
  unfold shift_checked, in_range. intros H Hp Hd. inv_ok. eapply emit_plain; [exact H| |done].
  apply Hp. lia.
Qed.

(** [0x20 << 5 | shamt] and the like are sums. *)
Lemma lor_shamt k n shamt : 0 <= n -> 0 <= shamt < 2 ^ n -> Z.lor (Z.shiftl k n) shamt = k * 2 ^ n + shamt.
Proof.
  intros Hn Hs. rewrite Z.shiftl_mul_pow2 by done. apply (lor_add_disjoint n); [done|done|].
  apply Z.mod_mul. lia.
Qed.

Lemma steps_plain strict rd steps ws value v :
  reg_ok rd -> (strict = true -> rd <> 2) -> Forall2 (fun s w => encode_step rd s = Ok w) steps ws ->
  evaluate_from value steps = Some v -> Forall (plain_word strict) ws.
Proof.
  intros Hrd Hsp Hws. revert value. induction Hws as [|s w steps ws Hw Hws IH]; intros value He; [constructor|].
  apply evaluate_from_cons in He as (next & Hn & He). constructor; [|by eapply IH].
  assert (reg_ok 0) as H0 by (unfold reg_ok; lia).
  destruct s as [imm|imm|sh|imm|sh]; simpl in Hw, Hn; (destruct (in_range _ _ _) eqn:Er in Hn; [|done]);
    unfold in_range in Er.
  - eapply plain_i; [exact Hw|done|lia|done|lia| |auto]. eapply i_admitted; [| | |exact Hw|]; (done || lia).
  - injection Hw as <-. apply plain_u; (done || lia).
  - eapply plain_i; [exact Hw|done|lia|done|lia| |auto]. eapply i_admitted; [| | |exact Hw|]; (done || lia).
  - eapply plain_i; [exact Hw|done|lia|done|lia| |auto]. eapply i_admitted; [| | |exact Hw|]; (done || lia).
  - eapply plain_i; [exact Hw|done|lia|done|lia| |auto]. eapply i_admitted; [| | |exact Hw|]; (done || lia).
Qed.

(** [rd] is not [sp]. *)
Ltac not_sp Hsp := let Hs := fresh in intros Hs ->; by apply (Hsp Hs).

Lemma inverse_branch_code f3 : branch_code f3 -> branch_code (inverse_branch_funct3 f3).
Proof. unfold branch_code. intros [->|[->|[->|[->|[->| ->]]]]]; cbn; lia. Qed.

Section Shapes.
Context (pc : Z) (syms : gmap str SymbolDef) (l : SectionLayout) (relaxed strict : bool).

(** Every instruction but those that transfer control is a run of plain words. *)
Lemma plain_instruction i bytes :
  inst_wf i -> (strict = true -> inst_dest i <> Some 2) ->
  encode_instruction i pc syms l relaxed = Ok bytes ->
  match i with
  | Li _ _ | La _ _ | Call _ | Jump _ | Beq _ _ _ | Bne _ _ _ | Blt _ _ _ | Bge _ _ _
  | Bltu _ _ _ | Bgeu _ _ _ | Beqz _ _ | Bnez _ _ | Ret => False
  | _ => True
  end ->
  exists ws, bytes = code_bytes ws /\ code_shape strict i pc syms l ws.
Proof.
  intros Hwf Hsp H Hi. unfold inst_wf in Hwf.
  assert (reg_ok 0) as H0 by (unfold reg_ok; lia).
  pose proof Hsp as Hd.
  destruct i; try done; cbn [inst_regs] in *; cbn [inst_dest] in Hsp; clear Hi;
    repeat (apply Forall_cons_1 in Hwf as [? Hwf]); cbn [encode_instruction] in H;
    first
      [ (* shifts *)
        eapply shift_plain; [exact H| |exact Hd]; intros Hsh x Hx;
        try change (Z.shiftl 0x20 5) with (Z.shiftl 0x10 6) in Hx;
        rewrite ?lor_shamt in Hx by (pow2_consts; lia)
      | eapply emit_plain; [exact H| |exact Hd]; intros x Hx ].
  all: try match type of Hx with Ok _ = Ok _ => injection Hx as <- end.
  all: try apply plain_ecall.
  all: try (eapply plain_s; [exact Hx|lia|done|done]).
  all: try (apply plain_r; try done; try lia; not_sp Hsp).
  all: eapply plain_i; [exact Hx|done|lia|done|lia
    |eapply i_admitted; [| | |exact Hx|]; (done || lia)|not_sp Hsp].
Qed.

(** The two instructions that move [sp]. *)
Lemma frame_shape i bytes :
  inst_wf i -> inst_dest i = Some 2 -> frame_form i -> encode_instruction i pc syms l relaxed = Ok bytes ->
  exists ws, bytes = code_bytes ws /\ code_shape strict i pc syms l ws.
Proof.
  intros Hwf Hd Hf H. destruct (Hf Hd) as [[imm ->]|[t ->]]; cbn [encode_instruction] in H;
    unfold emit in H; inv_ok; subst; eexists [_]; rewrite code_bytes_one; (split; [done|]).
  - by eapply shape_addi_sp.
  - apply shape_add_sp; [done|]. unfold inst_wf in Hwf. cbn [inst_regs] in Hwf.
    by do 2 apply Forall_cons_1 in Hwf as [_ Hwf]; apply Forall_cons_1 in Hwf as [? _].
Qed.

Lemma instruction_shape i bytes :
  inst_wf i -> (strict = true -> frame_form i) -> encode_instruction i pc syms l relaxed = Ok bytes ->
  exists ws, bytes = code_bytes ws /\ code_shape strict i pc syms l ws.
Proof.
  intros Hwf Hform H.
  destruct (decide (strict = true /\ inst_dest i = Some 2)) as [[Hs Hd]|Hnd].
  { apply frame_shape; auto. }
  assert (strict = true -> inst_dest i <> Some 2) as Hsp by naive_solver. clear Hform Hnd.
  pose proof Hsp as Hdest.
  destruct (conditional_branch_parts i) as [[[[rs1 rs2] label] f3]|] eqn:Hparts.
  { destruct (conditional_regs _ _ _ _ _ Hwf Hparts) as (H1 & H2 & Hf3).
    assert (encode_branch i pc syms l relaxed = Ok bytes) as He.
    { destruct i; try discriminate Hparts; exact H. }
    unfold encode_branch in He. rewrite Hparts in He. inv_ok. destruct relaxed.
    - inv_ok. subst bytes. unfold relative_offset in E1. inv_ok. subst.
      eexists [_; _]. rewrite code_bytes_pair. split; [done|].
      by eapply shape_relaxed.
    - inv_ok. unfold relative_offset in E0. unfold emit in He. inv_ok. subst.
      eexists [_]. rewrite code_bytes_one. split; [done|]. by eapply shape_branch. }
  destruct i; try discriminate Hparts; try (by eapply plain_instruction);
    cbn [encode_instruction] in H; unfold inst_wf in Hwf; cbn [inst_regs] in Hwf.
  - apply Forall_cons_1 in Hwf as [Hrd _]. unfold encode_li_sequence in H. inv_ok.
    apply plan_inv in E as (_ & He & _). apply encode_steps_words in H as (ws & -> & Hws).
    exists ws. split; [done|]. apply shape_plain.
    + intros ->. inversion Hws. subst. done.
    + eapply steps_plain; [exact Hrd| |exact Hws|exact He]. not_sp Hsp.
    + exact Hdest.
  - apply Forall_cons_1 in Hwf as [Hrd _]. inv_ok. unfold encode_address_sequence in H. inv_ok. subst.
    eexists [_; _]. rewrite code_bytes_pair. split; [done|].
    destruct (decide (rd = 1)) as [->|Hne]; [by eapply shape_la_ra|].
    assert (strict = true -> rd <> 2) as Hn2 by not_sp Hsp. apply shape_plain; [done| |exact Hdest].
    constructor; [apply plain_u; (done || lia)|]. constructor; [|constructor].
    eapply plain_i; [exact E2|done|lia|done|lia|eapply i_admitted; [| | |exact E2|]; (done || lia)|auto].
  - inv_ok. apply call_sequence_words in H as (hi & lo & w & -> & Hsum & Hhi & Hlo & Hw & F).
    eexists. split; [done|]. by eapply shape_call.
  - inv_ok. unfold relative_offset in E0. unfold emit in H. inv_ok. subst.
    eexists [_]. rewrite code_bytes_one. split; [done|]. by eapply shape_jump.
  - injection H as <-. exists [0x00008067]. split; [done|]. by apply shape_ret.
Qed.
End Shapes.

Lemma shape_admitted strict i pc syms l ws :
  code_shape strict i pc syms l ws -> ws <> [] /\ Forall admitted ws.
Proof.
  intros Hs. assert (reg_ok 1) as H1 by (unfold reg_ok; lia). assert (reg_ok 2) as H2 by (unfold reg_ok; lia).
  destruct Hs as [ws Hne Hp Hd|imm w Hi Hw|t Hi Ht|Hret|hi lo w label Hi Hw|hi lo w label target Hi Hsym Hsum Hhi Hlo F Hw
    |w label target Hi Hsym Hw|w rs1 rs2 f3 label target Hc Hf Hr1 Hr2 Hsym Hw
    |w1 w2 rs1 rs2 f3 label target Hc Hf Hr1 Hr2 Hsym Hw1 Hw2]; (split; [done|]).
  - eapply Forall_impl; [exact Hp|]. intros w. apply plain_admitted.
  - constructor; [|constructor]. eapply i_admitted; [| | |exact Hw|]; (done || lia).
  - constructor; [|constructor]. apply r_admitted; (done || lia).
  - constructor; [done|constructor].
  - constructor; [by apply u_admitted; [lia|]|]. constructor; [|constructor].
    eapply i_admitted; [| | |exact Hw|]; (done || lia).
  - constructor; [by apply u_admitted; [lia|]|]. constructor; [|constructor].
    eapply i_admitted; [| | |exact Hw|]; (done || lia).
  - constructor; [|constructor]. eapply j_admitted; [|exact Hw]. lia.
  - constructor; [|constructor]. by eapply b_admitted; [| | |exact Hw].
  - constructor; [eapply b_admitted; [|exact Hr1|exact Hr2|exact Hw1]; by apply inverse_branch_code|].
    constructor; [|constructor]. eapply j_admitted; [|exact Hw2]. lia.
Qed.

(** C22.  The assembler never leaves the checker's machine surface: every word emitted for an
    instruction whose registers exist is on the allowlist. *)
Theorem emitted_words_allowed i pc syms l relaxed bytes :
  inst_wf i -> encode_instruction i pc syms l relaxed = Ok bytes ->
  exists ws, bytes = code_bytes ws /\ ws <> [] /\
    Forall (fun w => word_ok w /\ instruction_is_allowed w = true) ws.
Proof.
  intros Hwf H.
  destruct (instruction_shape pc syms l relaxed false i bytes Hwf ltac:(done) H) as (ws & -> & Hs).
  exists ws. split; [done|]. by eapply shape_admitted.
Qed.

Lemma emitted_words_allowed_witness :
  exists ws, encode_instruction (Roriw 10 11 7) 0x10014 ∅ (for_text_user_size 4) false
    = Ok (code_bytes ws) /\ Forall (fun w => word_ok w /\ instruction_is_allowed w = true) ws.
Proof.
  destruct (encode_instruction (Roriw 10 11 7) 0x10014 ∅ (for_text_user_size 4) false)
    as [bytes|] eqn:E; [|exfalso; vm_compute in E; discriminate E].
  destruct (emitted_words_allowed (Roriw 10 11 7) 0x10014 ∅ (for_text_user_size 4) false bytes)
    as (ws & -> & _ & Hws); [|exact E|].
  - repeat constructor; lia.
  - by exists ws.
Defined.

(** * Scanning *)

(** Not the second half of a call pair. *)
Definition not_call_half (w : Z) : Prop := (Z.land w 0x7f =? 0x67) && negb (w =? 0x00008067) = false.

(** The stack adjustments the checker records for a word at an index of a text. *)
Definition sp_moves (bytes : list Z) (i : nat) (w address : Z) (moves : list StackAdjustment) : Prop :=
  forall adj, validate_stack_pointer_write bytes i w address adj = Ok (adj ++ moves).

Lemma no_sp_write bytes i w address :
  bits w 7 0x1f <> 2 \/ opcode_writes_rd (Z.land w 0x7f) = false -> sp_moves bytes i w address [].
Proof.
  intros H adj. unfold validate_stack_pointer_write. rewrite app_nil_r.
  destruct H as [H|H]; [by rewrite (proj2 (Z.eqb_neq _ _) H)|by rewrite H, orb_true_r].
Qed.

Definition moves_at (address : Z) (delta : option Z) : list StackAdjustment :=
  match delta with Some d => [{| sa_address := address; sa_delta := d |}] | None => [] end.

Lemma addi_sp_moves bytes i w address imm :
  encode_i_type 0x13 2 0 2 imm = Ok w -> sp_moves bytes i w address (moves_at address (Some imm)).
Proof.
  intros H adj. assert (reg_ok 2) as H2 by (unfold reg_ok; lia).
  destruct (i_fields 0x13 2 0 2 ltac:(lia) H2 ltac:(lia) H2 _ _ H) as [F Hr].
  unfold validate_stack_pointer_write. rewrite (fd_op _ _ _ _ _ _ F), (fd_rd _ _ _ _ _ _ F),
    (fd_f3 _ _ _ _ _ _ F), (fd_rs1 _ _ _ _ _ _ F), (fd_top _ _ _ _ _ _ F), sign_extend_12 by done. done.
Qed.

Lemma add_sp_moves bytes i t address delta :
  reg_ok t -> preceding_frame_constant bytes i t = Some delta ->
  sp_moves bytes i (encode_r_type 0x33 2 0 2 t 0) address (moves_at address (Some delta)).
Proof.
  intros Ht Hc adj. assert (reg_ok 2) as H2 by (unfold reg_ok; lia).
  pose proof (r_fields 0x33 2 0 2 t ltac:(lia) H2 ltac:(lia) H2 Ht 0 ltac:(lia)) as F.
  unfold validate_stack_pointer_write.
  rewrite (fd_op _ _ _ _ _ _ F), (fd_rd _ _ _ _ _ _ F), (fd_f3 _ _ _ _ _ _ F), (fd_rs1 _ _ _ _ _ _ F),
    (fd_rs2 _ _ _ _ _ _ F), (fd_f7 _ _ _ _ _ _ F).
  unfold reg_ok in Ht. replace ((0 * 32 + t) mod 32) with t by zdivmod.
  replace ((0 * 32 + t) / 32) with 0 by zdivmod. cbn. by rewrite Hc.
Qed.

(** The constant that [lui t], or [lui t; addi t, t], leaves for the stack adjustment that
    follows. *)
Lemma preceding_lui ws i t hi :
  reg_ok t -> t <> 0 -> t <> 2 -> -524288 <= hi < 524288 ->
  ws !! i = Some (encode_u_type 0x37 t hi) ->
  preceding_frame_constant (code_bytes ws) (S i) t = Some (hi * 4096).
Proof.
  intros Ht H0 H2 Hhi Hi. destruct (u_fields 0x37 t hi ltac:(lia) Ht) as [(f3 & rs1 & top & F) _].
  unfold preceding_frame_constant. cbn [Nat.eqb orb one_of existsb].
  rewrite (proj2 (Z.eqb_neq _ _) H0), (proj2 (Z.eqb_neq _ _) H2). cbn [orb Nat.sub].
  rewrite Nat.sub_0_r, (instruction_word_code _ _ _ Hi) by (by eapply fields_word_ok).
  cbn [ok_opt mbind option_bind].
  rewrite (fd_op _ _ _ _ _ _ F), (fd_rd _ _ _ _ _ _ F), !Z.eqb_refl. cbn [andb orb negb Z.eqb Pos.eqb Nat.ltb Nat.leb].
  by rewrite upper_immediate by (done || lia).
Qed.

Lemma preceding_lui_addi ws i t hi lo w :
  reg_ok t -> t <> 0 -> t <> 2 -> -524288 <= hi < 524288 ->
  ws !! i = Some (encode_u_type 0x37 t hi) -> ws !! S i = Some w ->
  encode_i_type 0x13 t 0 t lo = Ok w ->
  preceding_frame_constant (code_bytes ws) (S (S i)) t = Some (hi * 4096 + lo).
Proof.
  intros Ht H0 H2 Hhi Hi HSi Hw. destruct (u_fields 0x37 t hi ltac:(lia) Ht) as [(f3 & rs1 & top & F) _].
  destruct (i_fields 0x13 t 0 t ltac:(lia) Ht ltac:(lia) Ht _ _ Hw) as [G Hr].
  unfold preceding_frame_constant. cbn [Nat.eqb orb one_of existsb].
  rewrite (proj2 (Z.eqb_neq _ _) H0), (proj2 (Z.eqb_neq _ _) H2). cbn [orb Nat.sub].
  rewrite (instruction_word_code _ _ _ HSi) by (by eapply fields_word_ok).
  cbn [ok_opt mbind option_bind].
  rewrite Nat.sub_0_r, (instruction_word_code _ _ _ Hi) by (by eapply fields_word_ok).
  cbn [ok_opt mbind option_bind].
  rewrite (fd_op _ _ _ _ _ _ F), (fd_rd _ _ _ _ _ _ F), (fd_op _ _ _ _ _ _ G), (fd_rd _ _ _ _ _ _ G),
    (fd_f3 _ _ _ _ _ _ G), (fd_rs1 _ _ _ _ _ _ G), (fd_top _ _ _ _ _ _ G), !Z.eqb_refl. cbn [andb orb negb Z.eqb Pos.eqb Nat.ltb Nat.leb].
  rewrite upper_immediate, sign_extend_12 by (done || lia).
  unfold sat_add_i64, I64_MIN, I64_MAX. f_equal. lia.
Qed.

Section Scan.
Context (ws : list Z) (base : Z).
Hypotheses (Hbase : 0 <= base) (Hmod : base mod 4 = 0)
  (Hend : base + 4 * Z.of_nat (length ws) + 8 <= U64_MAX).

Definition text_range_of : MachineRange := {| r_start := base; r_end := base + 4 * Z.of_nat (length ws) |}.

(** An address a transfer may name: a word of the text that is not half a call. *)
Definition good_target (t : Z) : Prop :=
  exists n w, t = base + 4 * Z.of_nat n /\ ws !! n = Some w /\ not_call_half w.

Lemma good_target_in_range t :
  good_target t -> t mod 4 = 0 /\ range_contains text_range_of t = true /\ 0 <= t <= U64_MAX.
Proof.
  intros (n & w & -> & Hn & _). apply lookup_lt_Some in Hn.
  split; [zdivmod|]. unfold range_contains, text_range_of. cbn [r_start r_end].
  rewrite (proj2 (Z.leb_le _ _)), (proj2 (Z.ltb_lt _ _)) by lia. split; [done|lia].
Qed.

Definition flow_entries (address : Z) (target : option (Z * DecodedControlFlowKind))
  : list DecodedControlFlow :=
  match target with
  | Some (t, k) => [{| cf_address := address; cf_target := t; cf_kind := k |}]
  | None => []
  end.

Abbreviation scan := (scan_instruction (code_bytes ws) base text_range_of).
Abbreviation address_of i := (base + Z.of_nat i * 4).

Lemma scan_word i w st target moves :
  admitted w -> sp_moves (code_bytes ws) i w (address_of i) moves -> (w = 0x00008067 -> unconsumed_auipc_ra st = false) ->
  flow_target (code_bytes ws) i w (address_of i) = Ok target ->
  (forall t k, target = Some (t, k) -> good_target t) ->
  exists st', scan st (i, word_bytes w) = Ok st' /\
    unconsumed_auipc_ra st' = next_marker w (unconsumed_auipc_ra st) /\
    control_flow (sc_decoded st') = control_flow (sc_decoded st) ++ flow_entries (address_of i) target /\
    stack_adjustments (sc_decoded st') = stack_adjustments (sc_decoded st) ++ moves.
Proof.
  intros [Hw Ha] Hsp Hret Hflow Hgood. unfold scan_instruction.
  rewrite (word_bytes_value _ Hw), Ha. cbn [negb].
  rewrite (Hsp (stack_adjustments (sc_decoded st))).
  assert ((w =? 0x00008067) && unconsumed_auipc_ra st = false) as ->.
  { destruct (Z.eqb_spec w 0x00008067) as [E|]; [by rewrite Hret|done]. }
  rewrite Hflow. destruct target as [[t k]|].
  - destruct (good_target_in_range t (Hgood t k eq_refl)) as (Hm & Hr & _).
    rewrite Hm, Hr. simpl. by eexists.
  - eexists. split; [done|]. split; [done|]. split; [by rewrite app_nil_r|done].
Qed.

(** A group of words passes the scan from a clean return-address marker to a clean one, and
    adds [moves] to the stack adjustments. *)
Definition scans (i : nat) (g : list Z) (moves : list StackAdjustment) : Prop :=
  forall st, unconsumed_auipc_ra st = false ->
  exists st' flows, fold_result scan st (enumerate_from i (word_bytes <$> g)) = Ok st' /\
    unconsumed_auipc_ra st' = false /\
    control_flow (sc_decoded st') = control_flow (sc_decoded st) ++ flows /\
    stack_adjustments (sc_decoded st') = stack_adjustments (sc_decoded st) ++ moves /\
    Forall (fun f => good_target (cf_target f)) flows.

Lemma scans_nil i : scans i [] [].
Proof. intros st H. exists st, []. by rewrite !app_nil_r. Qed.

Lemma scans_app i g1 g2 m1 m2 :
  scans i g1 m1 -> scans (i + length g1) g2 m2 -> scans i (g1 ++ g2) (m1 ++ m2).
Proof.
  intros H1 H2 st Hst. rewrite fmap_app, enumerate_from_app, fold_result_app, length_fmap.
  destruct (H1 st Hst) as (st1 & f1 & -> & Hm1 & Hf1 & Ha1 & Hg1).
  destruct (H2 st1 Hm1) as (st2 & f2 & -> & Hm2 & Hf2 & Ha2 & Hg2).
  exists st2, (f1 ++ f2). split; [done|]. split; [done|]. rewrite Hf2, Hf1, Ha2, Ha1, !app_assoc.
  split; [done|]. split; [done|]. by apply Forall_app.
Qed.

(** One word that leaves the marker clean. *)
Lemma scans_word i w target moves :
  admitted w -> sp_moves (code_bytes ws) i w (address_of i) moves -> next_marker w false = false ->
  flow_target (code_bytes ws) i w (address_of i) = Ok target ->
  (forall t k, target = Some (t, k) -> good_target t) -> scans i [w] moves.
Proof.
  intros Ha Hsp Hm Hflow Hgood st Hst.
  destruct (scan_word i w st target moves Ha Hsp (fun _ => Hst) Hflow Hgood) as (st' & Hs & Hmk & Hcf & Hadj).
  exists st', (flow_entries (address_of i) target). cbn [fmap list_fmap enumerate_from fold_result].
  rewrite Hs. split; [done|]. rewrite Hmk, Hst, Hm. split; [done|]. split; [done|]. split; [done|].
  destruct target as [[t k]|]; [|constructor]. constructor; [|constructor]. by eapply Hgood.
Qed.

Lemma no_flow i w address :
  Z.land w 0x7f <> 0x63 -> Z.land w 0x7f <> 0x6f -> Z.land w 0x7f <> 0x67 \/ w = 0x00008067 ->
  flow_target (code_bytes ws) i w address = Ok None.
Proof.
  intros H1 H2 H3. unfold flow_target.
  rewrite (proj2 (Z.eqb_neq _ _) H1), (proj2 (Z.eqb_neq _ _) H2).
  destruct H3 as [H3| ->]; [by rewrite (proj2 (Z.eqb_neq _ _) H3)|done].
Qed.

Lemma scans_plain_word i w : plain_word true w -> scans i [w] [].
Proof.
  intros Hp. pose proof (plain_admitted _ _ Hp) as Ha.
  destruct Hp as [_ (op & rd & f3 & rs1 & top & F & H63 & H6f & H67 & Hra & Hsp)].
  apply (scans_word i w None); [done| | | |done].
  - apply no_sp_write. rewrite (fd_op _ _ _ _ _ _ F), (fd_rd _ _ _ _ _ _ F). auto.
  - unfold next_marker. rewrite (fd_op _ _ _ _ _ _ F), (fd_rd _ _ _ _ _ _ F).
    destruct (Z.eqb_spec op 0x17), (Z.eqb_spec rd 1); simpl; try done; try (by rewrite orb_true_r);
      try (by destruct (_ || _)). naive_solver.
  - apply no_flow; rewrite (fd_op _ _ _ _ _ _ F); [done|done|by left].
Qed.

Lemma scans_plain g : forall i, Forall (plain_word true) g -> scans i g [].
Proof.
  induction g as [|w g IH]; intros i H; [apply scans_nil|].
  apply Forall_cons_1 in H as [Hw Hg]. apply (scans_app i [w] g [] []); [by apply scans_plain_word|].
  by apply IH.
Qed.

(** [auipc ra] and the word that consumes it. *)
Lemma scans_ra_pair i hi w target :
  admitted w -> bits w 7 0x1f <> 2 -> next_marker w true = false -> w <> 0x00008067 ->
  flow_target (code_bytes ws) (S i) w (address_of (S i)) = Ok target ->
  (forall t k, target = Some (t, k) -> good_target t) ->
  scans i [encode_u_type 0x17 1 hi; w] [].
Proof.
  intros Ha Hsp Hm Hne Hflow Hgood st Hst.
  assert (reg_ok 1) as Hr1 by (unfold reg_ok; lia).
  destruct (u_fields 0x17 1 hi ltac:(lia) Hr1) as [(f3 & rs1 & top & F) _].
  destruct (scan_word i (encode_u_type 0x17 1 hi) st None []) as (st1 & Hs1 & Hm1 & Hf1 & Ha1); try done.
  { apply u_admitted; [lia|done]. }
  { apply no_sp_write. left. by rewrite (fd_rd _ _ _ _ _ _ F). }
  { apply no_flow; rewrite (fd_op _ _ _ _ _ _ F); [done|done|by left]. }
  destruct (scan_word (S i) w st1 target [] Ha (no_sp_write _ _ _ _ (or_introl Hsp)) ltac:(done) Hflow Hgood)
    as (st2 & Hs2 & Hm2 & Hf2 & Ha2).
  exists st2, (flow_entries (address_of (S i)) target).
  cbn [fmap list_fmap enumerate_from fold_result]. rewrite Hs1, Hs2. split; [done|].
  assert (unconsumed_auipc_ra st1 = true) as Ht.
  { rewrite Hm1. unfold next_marker. by rewrite (fd_op _ _ _ _ _ _ F), (fd_rd _ _ _ _ _ _ F). }
  rewrite Hm2, Ht, Hm. split; [done|]. rewrite Hf2, Hf1, Ha2, Ha1. simpl. rewrite !app_nil_r.
  split; [done|]. split; [done|].
  destruct target as [[t k]|]; [|constructor]. constructor; [|constructor]. by eapply Hgood.
Qed.

Lemma scans_branch i f3 rs1 rs2 d w :
  branch_code f3 -> reg_ok rs1 -> reg_ok rs2 -> encode_b_type 0x63 f3 rs1 rs2 d = Ok w ->
  good_target (address_of i + d) -> scans i [w] [].
Proof.
  intros Hf H1 H2 Hw Hg. destruct (good_target_in_range _ Hg) as (_ & _ & Hr).
  assert (0 <= f3 < 8) as Hf8 by (unfold branch_code in Hf; lia).
  pose proof (branch_target_encoded _ _ _ _ _ (address_of i) Hf8 H1 H2 Hw ltac:(lia) Hr) as Ht.
  pose proof (b_admitted _ _ _ _ _ Hf H1 H2 Hw) as Ha.
  apply b_fields in Hw as (_ & _ & (rd & hi & F) & _); try (done || lia).
  apply (scans_word i w (Some (address_of i + d, FlowConditional))); [done| | | |].
  - apply no_sp_write. right. by rewrite (fd_op _ _ _ _ _ _ F).
  - unfold next_marker. rewrite (fd_op _ _ _ _ _ _ F). simpl. by destruct (_ =? 1).
  - unfold flow_target. rewrite (fd_op _ _ _ _ _ _ F). simpl. by rewrite Ht.
  - by intros t k [= <- <-].
Qed.

Lemma scans_jump i d w :
  encode_j_type 0x6f 0 d = Ok w -> good_target (address_of i + d) -> scans i [w] [].
Proof.
  intros Hw Hg. destruct (good_target_in_range _ Hg) as (_ & _ & Hr).
  assert (reg_ok 0) as H0 by (unfold reg_ok; lia).
  pose proof (jal_target_encoded _ _ _ (address_of i) H0 Hw ltac:(lia) Hr) as Ht.
  pose proof (j_admitted 0 d w ltac:(lia) Hw) as Ha.
  apply j_fields in Hw as (_ & _ & (f3 & rs1 & top & F) & _); try (done || lia).
  apply (scans_word i w (Some (address_of i + d, FlowDirect))); [done| | | |].
  - apply no_sp_write. left. by rewrite (fd_rd _ _ _ _ _ _ F).
  - unfold next_marker. by rewrite (fd_op _ _ _ _ _ _ F), (fd_rd _ _ _ _ _ _ F).
  - unfold flow_target. rewrite (fd_op _ _ _ _ _ _ F). simpl. by rewrite Ht.
  - by intros t k [= <- <-].
Qed.

Lemma scans_call i hi lo w :
  ws !! i = Some (encode_u_type 0x17 1 hi) -> ws !! S i = Some w ->
  encode_i_type 0x67 1 0 1 lo = Ok w -> -524288 <= hi < 524288 ->
  good_target (address_of i + (hi * 4096 + lo)) -> scans i [encode_u_type 0x17 1 hi; w] [].
Proof.
  intros Hi HSi Hw Hhi Hg. destruct (good_target_in_range _ Hg) as (Hm4 & _ & Hr).
  assert (reg_ok 1) as Hr1 by (unfold reg_ok; lia).
  pose proof (i_fields 0x67 1 0 1 ltac:(lia) Hr1 ltac:(lia) Hr1 _ _ Hw) as [F Hlo].
  assert (w <> 0x00008067) as Hne.
  { intros E. pose proof (fd_rd _ _ _ _ _ _ F) as Hrd. rewrite E in Hrd. discriminate Hrd. }
  apply (scans_ra_pair i hi w (Some (address_of i + (hi * 4096 + lo), FlowDirect))).
  - eapply i_admitted; [| | |exact Hw|]; (done || lia).
  - by rewrite (fd_rd _ _ _ _ _ _ F).
  - unfold next_marker. by rewrite (fd_op _ _ _ _ _ _ F), (fd_rd _ _ _ _ _ _ F), (fd_rs1 _ _ _ _ _ _ F).
  - done.
  - unfold flow_target. rewrite (fd_op _ _ _ _ _ _ F), (proj2 (Z.eqb_neq _ _) Hne). cbn [Z.eqb Pos.eqb andb negb].
    rewrite (decode_call_pair ws i hi lo w (address_of (S i)) Hi HSi F Hhi Hlo); [|lia|].
    + replace (address_of (S i) - 4) with (address_of i) by lia. do 3 f_equal.
      change (Z.lnot 1) with (Z.lnot (Z.ones 1)). rewrite land_lnot_ones by lia. pow2_consts. zdivmod.
    + replace (address_of (S i) - 4) with (address_of i) by lia. done.
  - by intros t k [= <- <-].
Qed.

(** A word that moves [sp], and does nothing else the scan looks at. *)
Lemma scans_sp_word i w moves :
  admitted w -> (Z.land w 0x7f = 0x13 \/ Z.land w 0x7f = 0x33) -> bits w 7 0x1f = 2 ->
  sp_moves (code_bytes ws) i w (address_of i) moves -> scans i [w] moves.
Proof.
  intros Ha Hop Hrd Hsp. apply (scans_word i w None); [done|done| | |done].
  - unfold next_marker. rewrite Hrd. by destruct Hop as [-> | ->].
  - apply no_flow; destruct Hop as [-> | ->]; auto.
Qed.

Lemma scans_ret i : scans i [0x00008067] [].
Proof.
  apply (scans_word i _ None); [done|by apply no_sp_write; left|done|by apply no_flow; [..|right]|done].
Qed.

(** The label a control transfer names. *)
Definition control_target (i : Instruction) : option str :=
  match i with
  | Call label | Jump label => Some label
  | _ => match conditional_branch_parts i with Some (_, _, label, _) => Some label | None => None end
  end.

Lemma conditional_control inst rs1 rs2 label f3 :
  conditional_branch_parts inst = Some (rs1, rs2, label, f3) -> control_target inst = Some label.
Proof.
  unfold control_target. intros H. rewrite H. by destruct inst; try discriminate H.
Qed.

(** The adjustment the checker must find for an instruction: that of [addi], or the constant
    materialised before [add]. *)
Record delta_of (i : nat) (inst : Instruction) (delta : option Z) : Prop := {
  do_addi : forall imm, inst = Addi 2 2 imm -> delta = Some imm;
  do_add : forall t, inst = IAdd 2 2 t ->
    exists d, delta = Some d /\ preceding_frame_constant (code_bytes ws) i t = Some d;
  do_none : inst_dest inst <> Some 2 -> delta = None
}.

Lemma shape_scans inst syms l i g delta :
  code_shape true inst (address_of i) syms l g -> delta_of i inst delta ->
  (forall j w, g !! j = Some w -> ws !! (i + j)%nat = Some w) ->
  (forall label target, control_target inst = Some label ->
     symbol_address syms label l = Ok target -> good_target target) ->
  (conditional_branch_parts inst <> None -> good_target (address_of (i + length g))) ->
  scans i g (moves_at (address_of i) delta).
Proof.
  intros Hs [Haddi Hadd Hnone] Hws Hgood Hnext. assert (reg_ok 1) as Hr1 by (unfold reg_ok; lia).
  assert (reg_ok 2) as Hr2 by (unfold reg_ok; lia).
  assert (conditional_branch_parts inst <> None -> delta = None) as Hcond.
  { intros Hc. apply Hnone. by destruct inst. }
  destruct Hs as [g Hne Hp Hd|imm w Hi Hw|t Hi Ht|Hret|hi lo w label Hi Hw|hi lo w label target Hi Hsym Hsum Hhi Hlo F Hw
    |w label target Hi Hsym Hw|w rs1 rs2 f3 label target Hc Hf H1 H2 Hsym Hw
    |w1 w2 rs1 rs2 f3 label target Hc Hf H1 H2 Hsym Hw1 Hw2].
  - rewrite Hnone by auto. by apply scans_plain.
  - rewrite (Haddi imm Hi). destruct (i_fields 0x13 2 0 2 ltac:(lia) Hr2 ltac:(lia) Hr2 _ _ Hw) as [F _].
    apply scans_sp_word; [eapply i_admitted; [| | |exact Hw|]; (done || lia)|left; apply F|apply F|].
    by apply addi_sp_moves.
  - destruct (Hadd t Hi) as (d & -> & Hc).
    pose proof (r_fields 0x33 2 0 2 t ltac:(lia) Hr2 ltac:(lia) Hr2 Ht 0 ltac:(lia)) as F.
    apply scans_sp_word; [apply r_admitted; (done || lia)|right; apply F|apply F|].
    by apply add_sp_moves.
  - rewrite Hnone by (by rewrite Hret). apply scans_ret.
  - rewrite Hnone by (by rewrite Hi). pose proof (i_fields 0x13 1 0 1 ltac:(lia) Hr1 ltac:(lia) Hr1 _ _ Hw) as [F Hlo].
    apply (scans_ra_pair i hi w None).
    + eapply i_admitted; [| | |exact Hw|]; (done || lia).
    + by rewrite (fd_rd _ _ _ _ _ _ F).
    + unfold next_marker. by rewrite (fd_op _ _ _ _ _ _ F), (fd_rd _ _ _ _ _ _ F).
    + intros ->. pose proof (fd_op _ _ _ _ _ _ F) as Hop. discriminate Hop.
    + apply no_flow; rewrite (fd_op _ _ _ _ _ _ F); [done|done|by left].
    + done.
  - rewrite Hnone by (by rewrite Hi). eapply scans_call; [|pose proof (Hws 1%nat _ eq_refl) as H1; by rewrite Nat.add_1_r in H1|exact Hw|done|].
    + pose proof (Hws 0%nat _ eq_refl) as H0. by rewrite Nat.add_0_r in H0.
    + replace (address_of i + (hi * 4096 + lo)) with target by lia. eapply Hgood; [|exact Hsym].
      by rewrite Hi.
  - rewrite Hnone by (by rewrite Hi). eapply scans_jump; [exact Hw|]. replace (address_of i + (target - address_of i)) with target by lia.
    eapply Hgood; [|exact Hsym]. by rewrite Hi.
  - rewrite Hcond by (by rewrite Hc). eapply scans_branch; [exact Hf|exact H1|exact H2|exact Hw|].
    replace (address_of i + (target - address_of i)) with target by lia.
    eapply Hgood; [|exact Hsym]. by eapply conditional_control.
  - rewrite Hcond by (by rewrite Hc). apply (scans_app i [w1] [w2] [] []).
    + eapply scans_branch; [by apply inverse_branch_code|exact H1|exact H2|exact Hw1|].
      replace (address_of i + 8) with (address_of (i + 2)) by lia. apply Hnext. by rewrite Hc.
    + simpl. eapply scans_jump; [exact Hw2|].
      replace (address_of (i + 1) + (target - (address_of i + 4))) with target by lia.
      eapply Hgood; [|exact Hsym]. by eapply conditional_control.
Qed.
End Scan.

(** The first word of an instruction is never the second half of a call. *)
Lemma shape_head strict inst pc syms l w g :
  code_shape strict inst pc syms l (w :: g) -> not_call_half w.
Proof.
  intros Hs. assert (reg_ok 1) as Hr1 by (unfold reg_ok; lia).
  assert (reg_ok 2) as Hr2 by (unfold reg_ok; lia). unfold not_call_half.
  assert (forall hi, Z.land (encode_u_type 0x17 1 hi) 0x7f = 0x17) as Hu.
  { intros hi. destruct (u_fields 0x17 1 hi ltac:(lia) Hr1) as [(f3 & rs1 & top & F) _]. apply F. }
  inversion Hs as [? Hne Hp Hd|imm w' Hi Hw|t Hi Ht|Hret|hi lo w' label Hi Hw|hi lo w' label target Hi Hsym Hsum Hhi Hlo F Hw
    |w' label target Hi Hsym Hw|w' rs1 rs2 f3 label target Hc Hf H1 H2 Hsym Hw
    |w1 w2 rs1 rs2 f3 label target Hc Hf H1 H2 Hsym Hw1 Hw2]; subst; try (by rewrite Hu); try done.
  - apply Forall_cons_1 in Hp as [[_ (op & rd & f3 & rs1 & top & F & _ & _ & H67 & _)] _].
    rewrite (fd_op _ _ _ _ _ _ F). by rewrite (proj2 (Z.eqb_neq _ _) H67).
  - destruct (i_fields 0x13 2 0 2 ltac:(lia) Hr2 ltac:(lia) Hr2 _ _ Hw) as [F _].
    by rewrite (fd_op _ _ _ _ _ _ F).
  - pose proof (r_fields 0x33 2 0 2 t ltac:(lia) Hr2 ltac:(lia) Hr2 Ht 0 ltac:(lia)) as F.
    by rewrite (fd_op _ _ _ _ _ _ F).
  - apply j_fields in Hw as (_ & _ & (f3 & rs1 & top & F) & _); [|lia|unfold reg_ok; lia].
    by rewrite (fd_op _ _ _ _ _ _ F).
  - apply b_fields in Hw as (_ & _ & (rd & hi & F) & _); try (done || lia).
    + by rewrite (fd_op _ _ _ _ _ _ F).
    + unfold branch_code in Hf. lia.
  - apply b_fields in Hw1 as (_ & _ & (rd & hi & F) & _); try (done || lia).
    + by rewrite (fd_op _ _ _ _ _ _ F).
    + apply inverse_branch_code in Hf. unfold branch_code in Hf. lia.
Qed.
