(* ===== verification/Frame.v ===== *)
(** Stack adjustments of the code generator (src/codegen/frame.rs, src/codegen/emission.rs):
    the instructions that move a register by a constant, and the theorem that the independent
    checker reads every adjustment of [sp] back with its amount.  Registers are given by
    number and lines by the instruction they assemble to. *)

From Stdlib Require Import ZArith Lia.
From stdpp Require Import base numbers list option tactics gmap.
From S2P Require Import Prelude RustStr Diag Rv64 Immediate Asm Layout LayoutFacts ElfChecker Isa.
From S2P Require Import Decode Rv64Sem Admission.

Open Scope Z_scope.

(** * Emission *)

(** What a call of an emitter does: push instructions, set [emission_error] and push nothing,
    or fail an assertion. *)
Inductive emission :=
| Emits (code : list Instruction)
| Refuses
| Asserts.

(** [["t6", "t5", "t3", "t2", "t1", "t0"]]. *)
Definition scratch_candidates : list Z := [31; 30; 28; 7; 6; 5].

Definition scratch_register_avoiding (registers : list Z) : option Z :=
  List.find (fun candidate => negb (one_of candidate registers)) scratch_candidates.

Definition small_signed_immediate (value : Z) : bool := in_range (-2048) 2047 value.

Definition emit_add_immediate (dst base value : Z) : emission :=
  if small_signed_immediate value then Emits [Addi dst base value]
  else if negb (dst =? base) && negb (one_of dst [0; 2])
  then Emits [Li dst value; IAdd dst base dst]
  else Refuses.

Definition emit_large_addi_with_avoid (rd rs1 imm : Z) (avoid : list Z) : emission :=
  if (rd =? 2) && (negb (rs1 =? 2) || negb (Z.rem imm 16 =? 0)) then Asserts
  else if in_range (-2048) 2047 imm then emit_add_immediate rd rs1 imm
  else if negb (rd =? rs1) && negb (one_of rd [0; 2]) then Emits [Li rd imm; IAdd rd rs1 rd]
  else
    match scratch_register_avoiding (rs1 :: avoid) with
    | Some scratch => Emits [Li scratch imm; IAdd rd rs1 scratch]
    | None => Refuses
    end.

Definition emit_large_addi (rd rs1 imm : Z) : emission := emit_large_addi_with_avoid rd rs1 imm [].

Definition emit_stack_adjustment (delta : Z) : emission := emit_large_addi 2 2 delta.

(** The entry frame of 5376 bytes. *)
Example emit_entry_frame : emit_stack_adjustment (-5376) = Emits [Li 31 (-5376); IAdd 2 2 31].
Proof. reflexivity. Qed.

(** * Reading a frame constant back *)

Lemma code_bytes_inj a b : Forall word_ok a -> Forall word_ok b -> code_bytes a = code_bytes b -> a = b.
Proof.
  assert (forall ws, Forall word_ok ws -> of_le_bytes <$> (word_bytes <$> ws) = ws) as Hr.
  { induction 1 as [|w ws Hw _ IH]; [done|]. rewrite !fmap_cons. f_equal; [by apply word_bytes_value|done]. }
  intros Ha Hb H. apply (f_equal (chunks_exact 4)) in H. rewrite !chunks_code in H.
  by rewrite <- (Hr a Ha), <- (Hr b Hb), H.
Qed.

Lemma i_encodable op rd f3 rs1 imm e :
  -2048 <= imm < 2048 -> encode_i_type op rd f3 rs1 imm = Err e -> False.
Proof.
  intros Hi. unfold encode_i_type. rewrite (encode_signed_bits_ok imm 12) by (pow2_consts; lia). done.
Qed.

(** [li t, imm] for a constant beyond twelve bits. *)
Lemma li_words t imm :
  reg_ok t -> -0x80000000 <= imm <= 0x7ffff7ff -> ~ -2048 <= imm <= 2047 ->
  exists hi lo g, imm = hi * 4096 + lo /\ -524288 <= hi < 524288 /\
    encode_li_sequence t imm = Ok (code_bytes g) /\ Forall admitted g /\
    (lo = 0 /\ g = [encode_u_type 0x37 t hi] \/
     exists w, encode_i_type 0x13 t 0 t lo = Ok w /\ g = [encode_u_type 0x37 t hi; w]).
Proof.
  intros Ht Hi H12. destruct (plan_lui imm Hi H12) as (hi & lo & Hhi & Hlo & Heq & Hplan).
  assert (admitted (encode_u_type 0x37 t hi)) as Hu by (apply u_admitted; (done || lia)).
  unfold encode_li_sequence. rewrite Hplan. unfold encode_steps.
  destruct (Z.eqb_spec lo 0) as [H0|H0]; simpl negb; cbn iota; cbn [fold_result encode_step].
  - exists hi, lo, [encode_u_type 0x37 t hi]. rewrite code_bytes_one. split_and!; try done; [lia|lia| |by left].
    by constructor.
  - destruct (encode_i_type 0x13 t 0 t lo) as [w|e] eqn:Ew.
    + exists hi, lo, [encode_u_type 0x37 t hi; w]. rewrite code_bytes_pair.
      split_and!; try done; [lia|lia| |by right; eauto].
      constructor; [done|]. constructor; [|constructor]. eapply i_admitted; [| | |exact Ew|]; (done || lia).
    + exfalso. eapply i_encodable; [exact Hlo|exact Ew].
Qed.

Section Constant.
Context (t imm : Z) (ws : list Z) (i : nat).
Hypotheses (Ht : reg_ok t) (H0 : t <> 0) (H2 : t <> 2) (Hi : -0x80000000 <= imm <= 0x7ffff7ff)
  (H12 : ~ -2048 <= imm <= 2047).

(** The words of [li t, imm] are the words the checker reads the constant from. *)
Lemma li_constant g :
  encode_li_sequence t imm = Ok (code_bytes g) -> Forall word_ok g ->
  (forall j w, g !! j = Some w -> ws !! (i + j)%nat = Some w) ->
  preceding_frame_constant (code_bytes ws) (i + length g) t = Some imm.
Proof using Ht H0 H2 Hi H12.
  intros Henc Hok Hws. destruct (li_words t imm Ht Hi H12) as (hi & lo & g' & Heq & Hhi & Henc' & Hadm & Hg).
  assert (g = g') as ->.
  { apply code_bytes_inj; [done|eapply Forall_impl; [exact Hadm|by intros w []]|congruence]. }
  assert (ws !! i = Some (encode_u_type 0x37 t hi)) as Hl.
  { rewrite <- (Nat.add_0_r i). apply Hws. by destruct Hg as [[_ ->]|(w & _ & ->)]. }
  destruct Hg as [[-> ->]|(w & Hw & ->)]; simpl length; rewrite Heq.
  - rewrite Nat.add_1_r, Z.add_0_r. by apply preceding_lui.
  - replace (i + 2)%nat with (S (S i)) by lia. eapply preceding_lui_addi; try done.
    rewrite <- Nat.add_1_r. by apply Hws.
Qed.
End Constant.

(** The words of a list of instructions that name no label. *)
Definition encodes (i : Instruction) (g : list Z) : Prop :=
  forall pc syms l relaxed, encode_instruction i pc syms l relaxed = Ok (code_bytes g).

(** What the checker must read from the words of an adjustment, wherever they stand: the last
    one moves [sp] by [delta], the others leave it alone. *)
Definition reads_adjustment (code : list Z) (delta : Z) : Prop :=
  exists pre w, code = pre ++ [w] /\ Forall (fun x => bits x 7 0x1f <> 2) pre /\
    forall before after address adj,
      validate_stack_pointer_write (code_bytes (before ++ code ++ after))
        (length before + length pre) w address adj
      = Ok (adj ++ [{| sa_address := address; sa_delta := delta |}]).

(** C14.  The generator's stack adjustments are the checker's: for every 16-byte aligned amount
    that [lui] and [addi] can build, [emit_stack_adjustment] emits code, its instructions
    encode, only its last word writes [sp], and wherever that code stands the checker reads
    back exactly the amount; an amount that is not 16-byte aligned fails the assertion. *)
Theorem stack_adjustment_recognised delta :
  (Z.rem delta 16 = 0 -> -0x80000000 <= delta <= 0x7ffff7ff ->
   exists code gs, emit_stack_adjustment delta = Emits code /\ Forall2 encodes code gs /\
     reads_adjustment (concat gs) delta) /\
  (Z.rem delta 16 <> 0 -> emit_stack_adjustment delta = Asserts).
Proof.
  unfold emit_stack_adjustment, emit_large_addi, emit_large_addi_with_avoid, emit_add_immediate, small_signed_immediate.
  assert (reg_ok 2) as H2 by (unfold reg_ok; lia). assert (reg_ok 31) as H31 by (unfold reg_ok; lia).
  split; intros H16; cbn [Z.eqb Pos.eqb negb orb andb]; [|by rewrite (proj2 (Z.eqb_neq _ _) H16)].
  intros Hr. rewrite H16. cbn [Z.eqb negb]. destruct (in_range (-2048) 2047 delta) eqn:E12; unfold in_range in E12.
  - destruct (encode_i_type 0x13 2 0 2 delta) as [w|e] eqn:Ew.
    2:{ exfalso. eapply i_encodable; [|exact Ew]. lia. }
    exists [Addi 2 2 delta], [[w]]. split_and!; [done| |].
    + constructor; [|constructor]. intros pc syms l relaxed. cbn [encode_instruction]. unfold emit.
      by rewrite Ew, code_bytes_one.
    + exists [], w. split_and!; [done|constructor|]. intros before after address adj. by apply addi_sp_moves.
  - destruct (li_words 31 delta H31 Hr ltac:(lia)) as (hi & lo & g & Heq & Hhi & Henc & Hadm & Hg).
    set (w := encode_r_type 0x33 2 0 2 31 0).
    exists [Li 31 delta; IAdd 2 2 31], [g; [w]]. split_and!; [done| |].
    + constructor; [|constructor; [|constructor]]; intros pc syms l relaxed; cbn [encode_instruction]; [done|].
      unfold emit, w. by rewrite code_bytes_one.
    + exists g, w. simpl. split_and!; [done| |].
      * destruct (u_fields 0x37 31 hi ltac:(lia) H31) as [(f3 & rs1 & top & F) _].
        assert (bits (encode_u_type 0x37 31 hi) 7 0x1f <> 2) as Hu by (by rewrite (fd_rd _ _ _ _ _ _ F)).
        destruct Hg as [[_ ->]|(x & Hx & ->)]; constructor; try done.
        destruct (i_fields 0x13 31 0 31 ltac:(lia) H31 ltac:(lia) H31 _ _ Hx) as [G _].
        constructor; [by rewrite (fd_rd _ _ _ _ _ _ G)|constructor].
      * intros before after address adj. apply add_sp_moves; [done|].
        eapply li_constant; try done; [lia|eapply Forall_impl; [exact Hadm|by intros x []]|].
        intros j x Hj. rewrite lookup_app_r by lia. replace (length before + j - length before)%nat with j by lia.
        rewrite <- app_assoc. by apply lookup_app_l_Some.
Qed.

Lemma stack_adjustment_recognised_witness :
  Z.rem (-5376) 16 = 0 /\
  exists code gs, emit_stack_adjustment (-5376) = Emits code /\ Forall2 encodes code gs /\
    reads_adjustment (concat gs) (-5376).
Proof.
  split; [reflexivity|]. apply (proj1 (stack_adjustment_recognised (-5376))); [reflexivity|lia].
Defined.
