(* ===== verification/Trust.v ===== *)
(** The trust chain from assembly to checker: a program the assembler accepts is emitted as a
    file whose every instruction stands at the address the layout gave it, and the independent
    checker accepts that file.  The hypotheses on the text are the code generator's
    conventions, collected in [checkable]. *)

From Stdlib Require Import ZArith Lia String.
From stdpp Require Import base numbers list option tactics gmap sets.
From S2P Require Import Prelude RustStr Sample Diag Rv64 Immediate Asm Layout LayoutFacts MachineCfg.
From S2P Require Import MachineFacts ElfWriter ElfChecker Isa Decode Rv64Sem ElfFacts Admission Frame.

Open Scope Z_scope.

(** * Conventions of generated code *)

(** The operation before the one at an index. *)
Definition prev_op (ops : list LocatedAsmOp) (j : nat) : option AsmOp :=
  match j with O => None | S k => la_op <$> ops !! k end.

(** The two ways the generator moves [sp] ([emit_large_addi_with_avoid]): by an immediate, or,
    beyond twelve bits, by a scratch register that the operation before loads with a constant
    of [lui] and [addi]. *)
Definition frame_move (prev : option AsmOp) (i : Instruction) : Prop :=
  inst_dest i = Some 2 ->
  (exists imm, i = Addi 2 2 imm) \/
  (exists t imm, i = IAdd 2 2 t /\ t <> 0 /\ t <> 2 /\ prev = Some (OpInstruction (Li t imm)) /\
     -0x80000000 <= imm <= 0x7ffff7ff /\ ~ -2048 <= imm <= 2047).

(** By how much an instruction moves [sp]. *)
Definition sp_delta (prev : option AsmOp) (i : Instruction) : option Z :=
  if bool_decide (inst_dest i = Some 2) then
    match i, prev with
    | Addi _ _ imm, _ => Some imm
    | IAdd _ _ _, Some (OpInstruction (Li _ imm)) => Some imm
    | _, _ => None
    end
  else None.

(** The stack adjustments of a program, with their addresses. *)
Definition op_moves (p : ParsedAssembly) (l : SectionLayout) (j : nat) (op : LocatedAsmOp)
  : list StackAdjustment :=
  match la_op op, offset_at p j with
  | OpInstruction i, Ok off => moves_at (text_user_base l + off) (sp_delta (prev_op (text_ops p) j) i)
  | _, _ => []
  end.
Definition frame_adjustments (p : ParsedAssembly) (l : SectionLayout) : list StackAdjustment :=
  concat (imap (op_moves p l) (text_ops p)).

Record checkable (p : ParsedAssembly) : Prop := {
  (** the text holds labels and instructions only *)
  ck_code : code_only (text_ops p);
  (** [sp] moves as the generator moves it *)
  ck_frame : forall j op inst, text_ops p !! j = Some op -> la_op op = OpInstruction inst ->
    frame_move (prev_op (text_ops p) j) inst;
  (** calls, jumps and branches name text labels *)
  ck_targets : forall op inst label sd, op ∈ text_ops p -> la_op op = OpInstruction inst ->
    control_target inst = Some label -> symbols p !! label = Some sd -> sd_section sd = Text;
  (** the text ends in an instruction that is not a conditional branch *)
  ck_end : exists pre op inst, text_ops p = pre ++ [op] /\ la_op op = OpInstruction inst /\
    conditional_branch_parts inst = None
}.

(** * The emitted text as groups of words *)

(** The words of one operation, emitted at offset [off] of the text. *)
Definition op_group (p : ParsedAssembly) (l : SectionLayout) (idx : nat) (off : Z)
    (op : LocatedAsmOp) (g : list Z) : Prop :=
  match la_op op with
  | OpLabel _ => g = []
  | OpInstruction inst =>
      encode_instruction inst (text_user_base l + off) (symbols p) l
        (bool_decide (idx ∈ relaxed_text_branches p)) = Ok (code_bytes g) /\
      code_shape true inst (text_user_base l + off) (symbols p) l g
  | _ => False
  end.

Lemma emission_groups p l bias ops : forall idx out out' off,
  Forall (fun op => op_shape_ok (la_op op)) ops -> code_only ops ->
  (forall op inst, op ∈ ops -> la_op op = OpInstruction inst -> frame_form inst) ->
  0 <= off -> Z.of_nat (length out) = bias + off ->
  fold_result (encode_op p Text l bias) out (enumerate_from idx ops) = Ok out' ->
  exists gs, length gs = length ops /\ out' = out ++ code_bytes (concat gs) /\
    forall j op g, ops !! j = Some op -> gs !! j = Some g ->
      let o := off + 4 * Z.of_nat (length (concat (take j gs))) in
      advance (Exact (relaxed_text_branches p)) Text idx off (take j ops) = Ok o /\
      op_group p l (idx + j) o op g.
Proof.
  induction ops as [|op ops IH]; intros idx out out' off Hs Hc Hf Hoff Hlen H;
    cbn [fold_result enumerate_from] in H.
  { inv_ok. subst. exists []. simpl. by rewrite app_nil_r. }
  apply Forall_cons_1 in Hs as [Hs1 Hs2]. apply Forall_cons_1 in Hc as [Hc1 Hc2]. inv_ok.
  assert (forall n, la_op op = OpAlign n -> bias mod n = 0) as Hal.
  { intros n En. unfold is_code in Hc1. by rewrite En in Hc1. }
  destruct (encode_op_spec _ _ _ _ _ _ _ _ _ Hs1 Hal Hoff Hlen E) as (b & -> & Hsz & Hi).
  assert (exists g, b = code_bytes g /\ op_group p l idx off op g) as (g & -> & Hg).
  { unfold op_group. unfold is_code in Hc1. destruct (la_op op) as [label|inst| | | |] eqn:Eop; try done.
    - injection Hsz as Hsz. exists []. split; [|done]. destruct b; [done|simpl in Hsz; lia].
    - rewrite bool_decide_eq_true_2 in Hi by done. simpl in Hi.
      destruct (instruction_shape (text_user_base l + off) (symbols p) l
        (bool_decide (idx ∈ relaxed_text_branches p)) true inst b Hs1) as (g & -> & Hg); [|done|].
      { intros _. apply (Hf op); [apply list_elem_of_here|done]. }
      by exists g. }
  rewrite length_code_bytes in Hsz.
  destruct (IH (S idx) (out ++ code_bytes g) out' (off + 4 * Z.of_nat (length g)))
    as (gs & Hgs & -> & Hall); [done|done| |lia| |done|].
  { intros op' inst' Hin. apply Hf. by apply list_elem_of_further. }
  { rewrite length_app, length_code_bytes. lia. }
  exists (g :: gs). simpl. split; [by rewrite Hgs|]. split.
  { by rewrite code_bytes_app, app_assoc. }
  intros [|j] op' g' Hop Hg'; simpl in Hop, Hg'.
  - injection Hop as <-. injection Hg' as <-. simpl. rewrite Z.add_0_r, Nat.add_0_r. done.
  - destruct (Hall j op' g' Hop Hg') as [Hadv Hgrp]. cbn [take concat advance]. rewrite Hsz.
    rewrite length_app.
    replace (off + 4 * Z.of_nat (length g + length (concat (take j gs))))
      with (off + 4 * Z.of_nat (length g) + 4 * Z.of_nat (length (concat (take j gs)))) by lia.
    rewrite Nat.add_succ_r. split; [|done]. rewrite <- Hadv. f_equal. lia.
Qed.

Lemma concat_head {A} (gs : list (list A)) w r :
  concat gs = w :: r -> exists g, w :: g ∈ gs.
Proof.
  induction gs as [|[|x g] gs IH]; simpl; [done| |].
  - intros (g & Hg)%IH. exists g. by apply list_elem_of_further.
  - intros [= -> _]. exists g. apply list_elem_of_here.
Qed.

(** Every boundary between operations, but the end, is a word that opens an instruction. *)
Lemma boundary_word gs j :
  (forall w g, w :: g ∈ gs -> not_call_half w) -> (exists g, g ∈ drop j gs /\ g <> []) ->
  exists w, concat gs !! length (concat (take j gs)) = Some w /\ not_call_half w.
Proof.
  intros Hh (g & Hg & Hne).
  assert (concat gs = concat (take j gs) ++ concat (drop j gs)) as Hsplit.
  { by rewrite <- concat_app, take_drop. }
  destruct (concat (drop j gs)) as [|w r] eqn:E.
  - exfalso. apply Hne. apply list_elem_of_lookup in Hg as [i Hi].
    destruct (list_elem_of_split_length _ _ _ Hi) as (a & b & Hab & _). rewrite Hab, concat_app in E.
    simpl in E. apply app_nil in E as [_ E]. by apply app_nil in E as [-> _].
  - exists w. split; [by rewrite Hsplit, lookup_app_r, Nat.sub_diag by lia|].
    destruct (concat_head _ _ _ E) as [g' Hg']. eapply Hh.
    apply list_elem_of_lookup in Hg' as [i Hi]. rewrite lookup_drop in Hi.
    apply list_elem_of_lookup. eauto.
Qed.

(** Where the words of an operation stand behind the trampoline. *)
Lemma group_word (tw : list Z) gs j g i w :
  length tw = 5%nat -> gs !! j = Some g -> g !! i = Some w ->
  (tw ++ concat gs) !! (5 + length (concat (take j gs)) + i)%nat = Some w.
Proof.
  intros Htw Hg Hw. rewrite lookup_app_r by lia. rewrite Htw.
  set (n := length (concat (take j gs))).
  rewrite <- (take_drop_middle _ _ _ Hg), concat_app. simpl.
  rewrite lookup_app_r by (fold n; lia). fold n.
  rewrite lookup_app_l; [rewrite <- Hw; f_equal; lia|]. pose proof (lookup_lt_Some _ _ _ Hw). lia.
Qed.

(** * The decoded list *)

Fixpoint decoded_from (base : Z) (i : nat) (g : list Z) : list DecodedInstruction :=
  match g with
  | [] => []
  | w :: g' => {| di_address := base + Z.of_nat i * 4; di_word := w |} :: decoded_from base (S i) g'
  end.

Lemma decoded_from_lookup base g : forall i n w,
  g !! n = Some w ->
  decoded_from base i g !! n = Some {| di_address := base + Z.of_nat (i + n) * 4; di_word := w |}.
Proof.
  induction g as [|x g IH]; intros i n w H; [done|]. destruct n as [|n]; simpl in H |- *.
  - injection H as <-. by rewrite Nat.add_0_r.
  - rewrite (IH _ _ _ H). do 3 f_equal. lia.
Qed.

Lemma scan_instructions bytes base range g : forall i st st',
  Forall word_ok g ->
  fold_result (scan_instruction bytes base range) st (enumerate_from i (word_bytes <$> g)) = Ok st' ->
  instructions (sc_decoded st') = instructions (sc_decoded st) ++ decoded_from base i g.
Proof.
  induction g as [|w g IH]; intros i st st' Hw H;
    cbn [fold_result enumerate_from fmap list_fmap] in H; [inv_ok; subst; by rewrite app_nil_r|].
  apply Forall_cons_1 in Hw as [Hw1 Hw2]. inv_ok. apply IH in H; [|done]. rewrite H. simpl.
  unfold scan_instruction in E. rewrite (word_bytes_value _ Hw1) in E. inv_ok. subst. simpl. by rewrite <- app_assoc.
Qed.

(** * The entry *)

(** Entry candidates are labels of the text. *)
Definition entry_inv (st : ParseState) : Prop :=
  forall e, ps_entry_label st = Some e \/ ps_fallback_entry st = Some e ->
  exists sd, ps_symbols st !! e = Some sd /\ sd_section sd = Text.

Lemma define_label_entry st label n :
  entry_inv st -> ps_symbols st !! label = None -> entry_inv (define_label st label n).
Proof.
  intros Hinv Hnew e He. unfold define_label in *. cbn in He |- *.
  destruct (decide (label = e)) as [<-|Hne].
  - rewrite lookup_insert_eq. eexists; split; [done|]. cbn [sd_section].
    assert (ps_entry_label st <> Some label /\ ps_fallback_entry st <> Some label) as [H1 H2].
    { split; intros E; destruct (Hinv label) as (sd & Hsd & _); auto; congruence. }
    destruct He as [He|He].
    + destruct (ps_entry_label st); [congruence|].
      destruct (bool_decide (ps_section st = Text)) eqn:Es; [by apply bool_decide_eq_true in Es|done].
    + destruct (ps_fallback_entry st); [congruence|].
      destruct (bool_decide (ps_section st = Text)) eqn:Es; [by apply bool_decide_eq_true in Es|done].
  - rewrite lookup_insert_ne by done. apply Hinv. destruct He as [He|He].
    + left. destruct (ps_entry_label st); [done|]. destruct (_ && _) in He; congruence.
    + right. destruct (ps_fallback_entry st); [done|]. destruct (_ && _) in He; congruence.
Qed.

Lemma parse_line_entry mode st line st' :
  entry_inv st -> parse_line mode st line = Ok st' -> entry_inv st'.
Proof.
  intros Hinv. destruct line as [i line]. unfold parse_line.
  destruct (strip_comment line) as [[|c clean]|]; [by intros [= <-]| |by intros [= <-]].
  generalize (c :: clean) as text. intros text H. inv_ok.
  assert (forall s o z, entry_inv s -> entry_inv (push_op s o z)) as Hpush.
  { intros s o z Hs. unfold push_op. by destruct (ps_section s). }
  destruct a as [sec|]; [inv_ok; by subst|].
  destruct (starts_with _ text || _); [inv_ok; by subst|].
  destruct (strip_prefix _ text); [inv_ok; by subst|].
  destruct (strip_suffix _ text) as [label|].
  - destruct (ps_symbols st !! trim label) eqn:El; [done|]. inv_ok. subst. apply Hpush.
    by apply define_label_entry.
  - inv_ok. subst. by apply Hpush.
Qed.

Lemma entry_is_text lines mode p e :
  from_lines_with_branch_mode lines mode = Ok p -> entry_label p = Some e ->
  exists sd, symbols p !! e = Some sd /\ sd_section sd = Text.
Proof.
  unfold from_lines_with_branch_mode. intros H He. inv_ok. subst p. cbn in He |- *.
  assert (entry_inv a) as Hinv.
  { eapply (fold_result_inv entry_inv); [| |exact E].
    - intros st x st' _. apply parse_line_entry.
    - intros x [?|?]; done. }
  apply Hinv. destruct (ps_entry_label a); auto.
Qed.

(** * The trampoline *)

Lemma fixed_li_exit : encode_fixed_li_sequence 17 EXIT_SYSCALL_NUMBER = Ok (code_bytes [0x000008b7; 0x05d88893]).
Proof. reflexivity. Qed.

Lemma fixed_li_rejection : encode_fixed_li_sequence 10 25 = Ok (code_bytes [0x00000537; 0x01950513]).
Proof. reflexivity. Qed.

Lemma lui_addi_plain rd imm w :
  reg_ok rd -> rd <> 2 -> encode_i_type 0x13 rd 0 rd imm = Ok w ->
  Forall (plain_word true) [encode_u_type 0x37 rd 0; w].
Proof.
  intros Hrd Hsp Hw. constructor; [apply plain_u; (done || lia)|]. constructor; [|constructor].
  eapply plain_i; [exact Hw|done|lia|done|lia|eapply i_admitted; [| | |exact Hw|]; (done || lia)|auto].
Qed.

Lemma exit_plain : Forall (plain_word true) [0x000008b7; 0x05d88893; 0x00000073].
Proof.
  assert (Forall (plain_word true) [0x000008b7; 0x05d88893]) as H.
  { apply (lui_addi_plain 17 93); [unfold reg_ok; lia|lia|reflexivity]. }
  apply Forall_cons_1 in H as [H1 H]. apply Forall_cons_1 in H as [H2 _].
  constructor; [done|]. constructor; [done|]. constructor; [apply plain_ecall|constructor].
Qed.

(** The two forms of the start code: reject with code 25, or call the entry; then exit. *)
Definition startup_words (lines : list str) (p : ParsedAssembly) (l : SectionLayout) (entry : str)
    (a b : Z) : Prop :=
  (entry_requires_explicit_parameter_abi lines entry = true /\ a = 0x00000537 /\ b = 0x01950513) \/
  (entry_requires_explicit_parameter_abi lines entry = false /\
   exists hi lo target, symbol_address (symbols p) entry l = Ok target /\
     a = encode_u_type 0x17 1 hi /\ encode_i_type 0x67 1 0 1 lo = Ok b /\
     hi * 4096 + lo = target - text_base l /\ -524288 <= hi < 524288).

Lemma trampoline_words lines p l entry t :
  start_trampoline lines p l entry = Ok t ->
  exists a b, t = code_bytes ([a; b] ++ [0x000008b7; 0x05d88893; 0x00000073]) /\
    startup_words lines p l entry a b.
Proof.
  unfold start_trampoline. rewrite fixed_li_exit, fixed_li_rejection. intros H.
  destruct (entry_requires_explicit_parameter_abi lines entry) eqn:Eabi.
  - inv_ok. subst t. exists 0x00000537, 0x01950513. split; [reflexivity|]. by left.
  - inv_ok. subst t. apply call_sequence_words in E as (hi & lo & w & -> & Hsum & Hhi & _ & Hw & _).
    exists (encode_u_type 0x17 1 hi), w. split.
    + by rewrite code_bytes_app.
    + right. split; [done|]. exists hi, lo. eauto 10.
Qed.

(** * Acceptance *)

Section Accepted.
Context (lines : list str) (R : gset nat) (p : ParsedAssembly) (l : SectionLayout) (entry : str)
  (t text : list Z).
Hypotheses (Hparsed : from_lines_with_branch_mode lines (Exact R) = Ok p)
  (Hlayout : l = for_text_user_size (text_size p)) (Hck : checkable p)
  (Hentry : entry_label p = Some entry)
  (Htramp : start_trampoline lines p l entry = Ok t)
  (Htext : encode_section p Text t l START_TRAMPOLINE_SIZE = Ok text)
  (Hfit : ELF_BASE_ADDR + Z.of_nat (length text) + 8 <= U64_MAX).

Abbreviation base := ELF_BASE_ADDR.

(** The words of the text, and the position of every operation among them. *)
Lemma text_groups :
  exists a b gs, startup_words lines p l entry a b /\
    text = code_bytes (([a; b] ++ [0x000008b7; 0x05d88893; 0x00000073]) ++ concat gs) /\
    length gs = length (text_ops p) /\
    forall j op g, text_ops p !! j = Some op -> gs !! j = Some g ->
      let o := 4 * Z.of_nat (length (concat (take j gs))) in
      offset_at p j = Ok o /\ op_group p l j o op g.
Proof using Hparsed Hck Htramp Htext.
  clear Hfit. destruct (trampoline_words _ _ _ _ _ Htramp) as (a & b & Ht & Hst).
  destruct (parsed_inv _ _ _ Hparsed) as [[_ _ _ Hwf] _].
  destruct (emission_groups p l START_TRAMPOLINE_SIZE (text_ops p) 0 t text 0)
    as (gs & Hlen & -> & Hall); [| | |lia| |exact Htext|].
  - apply Forall_forall. intros op Hop. by apply (Hwf Text).
  - apply Hck.
  - intros op inst [j Hj]%list_elem_of_lookup Hi Hd.
    destruct (ck_frame _ Hck j op inst Hj Hi Hd) as [?|(t' & imm & -> & _)]; eauto.
  - rewrite Ht, length_code_bytes. done.
  - exists a, b, gs. split; [done|]. rewrite code_bytes_app, <- Ht.
    split; [done|]. split; [done|]. intros j op g Hop Hg. apply (Hall j op g Hop Hg).
Qed.

(** Operations follow [j]: the last one is an instruction, so words follow too. *)
Lemma words_follow tw gs j op :
  length gs = length (text_ops p) ->
  (forall j op g, text_ops p !! j = Some op -> gs !! j = Some g ->
     let o := 4 * Z.of_nat (length (concat (take j gs))) in
     offset_at p j = Ok o /\ op_group p l j o op g) ->
  text_ops p !! j = Some op -> length tw = 5%nat ->
  (forall inst, la_op op = OpInstruction inst -> conditional_branch_parts inst <> None) ->
  good_target (tw ++ concat gs) base
    (text_user_base l + 4 * Z.of_nat (length (concat (take (if is_label op then j else S j) gs)))).
Proof using Hlayout Hck.
  clear - Hlayout Hck. intros Hlen Hall Hj Htw Hcond. destruct (ck_end _ Hck) as (pre & last & inst & Hops & Hlast & Hnc).
  set (k := if is_label op then j else S j).
  assert (text_ops p !! length pre = Some last) as Hlk by (rewrite Hops; by apply list_lookup_middle).
  assert (j < length pre)%nat as Hlt.
  { pose proof (lookup_lt_Some _ _ _ Hj) as Hjl. rewrite Hops, length_app in Hjl. simpl in Hjl.
    destruct (decide (j = length pre)) as [->|]; [|lia]. exfalso. rewrite Hlk in Hj. injection Hj as <-.
    by apply (Hcond inst). }
  destruct (lookup_lt_is_Some_2 gs (length pre)) as [glast Hgl].
  { rewrite Hlen, Hops, length_app. simpl. lia. }
  destruct (boundary_word gs k) as (w & Hw & Hnw).
  - intros w g Hin. apply list_elem_of_lookup in Hin as [i Hi].
    destruct (lookup_lt_is_Some_2 (text_ops p) i) as [op' Hop'].
    { rewrite <- Hlen. by eapply lookup_lt_Some. }
    destruct (Hall i op' _ Hop' Hi) as [_ Hg]. unfold op_group in Hg.
    destruct (la_op op') as [|inst'| | | |]; try done. destruct Hg as [_ Hg]. by eapply shape_head.
  - exists glast. destruct (Hall _ _ _ Hlk Hgl) as [_ Hg]. unfold op_group in Hg. rewrite Hlast in Hg.
    destruct Hg as [_ Hg]. split; [|by inversion Hg].
    apply list_elem_of_lookup. exists (length pre - k)%nat. rewrite lookup_drop, <- Hgl. f_equal.
    unfold k. destruct (is_label op); lia.
  - exists (5 + length (concat (take k gs)))%nat, w. split.
    + rewrite Hlayout. cbn [text_user_base for_text_user_size]. unfold START_TRAMPOLINE_SIZE, base. lia.
    + rewrite lookup_app_r by lia. rewrite Htw.
      replace (5 + length (concat (take k gs)) - 5)%nat with (length (concat (take k gs))) by lia. done.
Qed.

(** The address of a text label is a good target. *)
Lemma label_good tw gs label target :
  length gs = length (text_ops p) ->
  (forall j op g, text_ops p !! j = Some op -> gs !! j = Some g ->
     let o := 4 * Z.of_nat (length (concat (take j gs))) in
     offset_at p j = Ok o /\ op_group p l j o op g) ->
  length tw = 5%nat -> symbol_address (symbols p) label l = Ok target ->
  (forall sd, symbols p !! label = Some sd -> sd_section sd = Text) ->
  good_target (tw ++ concat gs) base target.
Proof using Hparsed Hlayout Hck.
  clear - Hparsed Hlayout Hck. intros Hlen Hall Htw Hsym Hsec.
  destruct (parsed_inv _ _ _ Hparsed) as [[_ Hsound _ _] HR]. simpl in HR. subst R.
  unfold symbol_address in Hsym. destruct (symbols p !! label) as [sd|] eqn:Esd; [|done].
  rewrite (Hsec sd eq_refl) in Hsym. injection Hsym as <-.
  destruct (Hsound _ _ Esd) as (pre & op & post & Hops & Hop & Hoff).
  rewrite (Hsec sd eq_refl) in Hops, Hoff. simpl in Hops.
  assert (text_ops p !! length pre = Some op) as Hj by (rewrite Hops; by apply list_lookup_middle).
  destruct (lookup_lt_is_Some_2 gs (length pre)) as [g Hg].
  { rewrite Hlen. by eapply lookup_lt_Some. }
  destruct (Hall _ _ _ Hj Hg) as [Hoff' _]. rewrite Hops, take_app_length, Hoff in Hoff'.
  injection Hoff' as ->.
  assert (is_label op = true) as Hl by (unfold is_label; by rewrite Hop).
  pose proof (words_follow tw gs (length pre) op Hlen Hall Hj Htw) as H.
  rewrite Hl in H. apply H. intros inst Hi. congruence.
Qed.

(** The constant an [add sp, sp, t] needs stands right before it. *)
Lemma delta_found tw gs j op inst :
  length gs = length (text_ops p) ->
  (forall j op g, text_ops p !! j = Some op -> gs !! j = Some g ->
     let o := 4 * Z.of_nat (length (concat (take j gs))) in
     offset_at p j = Ok o /\ op_group p l j o op g) ->
  length tw = 5%nat -> text_ops p !! j = Some op -> la_op op = OpInstruction inst ->
  delta_of (tw ++ concat gs) (5 + length (concat (take j gs))) inst
    (sp_delta (prev_op (text_ops p) j) inst).
Proof using Hparsed Hck.
  clear - Hparsed Hck. intros Hlen Hall Htw Hop Hinst. unfold sp_delta. constructor.
  - intros imm ->. done.
  - intros t ->. destruct (ck_frame _ Hck j op _ Hop Hinst eq_refl)
      as [[? ?]|(t' & imm & [= <-] & H0 & H2 & Hprev & Hi & H12)]; [done|].
    rewrite Hprev. exists imm. split; [done|].
    destruct j as [|k]; [done|]. cbn [prev_op] in Hprev. apply fmap_Some in Hprev as (op' & Hop' & Hli).
    destruct (lookup_lt_is_Some_2 gs k) as [g Hg]; [rewrite Hlen; by eapply lookup_lt_Some|].
    destruct (Hall _ _ _ Hop' Hg) as [_ Hgrp]. unfold op_group in Hgrp. rewrite <- Hli in Hgrp.
    destruct Hgrp as [Henc Hshape]. apply shape_admitted in Hshape as [_ Hadm].
    destruct (parsed_inv _ _ _ Hparsed) as [[_ _ _ Hwf] _].
    specialize (Hwf Text op' (list_elem_of_lookup_2 _ _ _ Hop')). rewrite <- Hli in Hwf.
    apply Forall_cons_1 in Hwf as [Ht _]. cbn [encode_instruction] in Henc.
    rewrite (take_S_r _ _ _ Hg), concat_app, length_app. simpl. rewrite app_nil_r.
    apply (li_constant t imm (tw ++ concat gs)
      (5 + length (concat (take k gs))) Ht H0 H2 Hi H12 g) in Henc; [|eapply Forall_impl; [exact Hadm|by intros w []]|].
    { exact Henc. }
    intros i w Hw. by eapply group_word.
  - intros Hd. by rewrite bool_decide_eq_false_2.
Qed.

Lemma user_code_scans tw gs :
  length gs = length (text_ops p) ->
  (forall j op g, text_ops p !! j = Some op -> gs !! j = Some g ->
     let o := 4 * Z.of_nat (length (concat (take j gs))) in
     offset_at p j = Ok o /\ op_group p l j o op g) ->
  length tw = 5%nat -> base + 4 * Z.of_nat (length (tw ++ concat gs)) + 8 <= U64_MAX ->
  scans (tw ++ concat gs) base 5 (concat gs) (frame_adjustments p l).
Proof using Hparsed Hlayout Hck.
  clear - Hparsed Hlayout Hck. intros Hlen Hall Htw Hfit.
  assert (forall j, (j <= length gs)%nat -> scans (tw ++ concat gs) base 5 (concat (take j gs))
    (concat (imap (op_moves p l) (take j (text_ops p))))) as H.
  2:{ specialize (H (length gs) (le_n _)). rewrite firstn_all, Hlen, firstn_all in H. exact H. }
  induction j as [|j IH]; intros Hj; [apply scans_nil|].
  destruct (lookup_lt_is_Some_2 gs j) as [g Hg]; [lia|].
  destruct (lookup_lt_is_Some_2 (text_ops p) j) as [op Hop]; [lia|].
  rewrite (take_S_r _ _ _ Hg), (take_S_r _ _ _ Hop), imap_app, !concat_app. simpl. rewrite !app_nil_r.
  apply scans_app; [apply IH; lia|]. destruct (Hall _ _ _ Hop Hg) as [Hoff Hgrp].
  rewrite length_take_le, Nat.add_0_r by lia.
  unfold op_moves. unfold op_group in Hgrp. destruct (la_op op) as [lab|inst| | | |] eqn:Eop; try done.
  { subst g. apply scans_nil. }
  rewrite Hoff.
  destruct Hgrp as [_ Hshape]. set (n := length (concat (take j gs))) in *.
  assert (text_user_base l + 4 * Z.of_nat n = base + Z.of_nat (5 + n) * 4) as Haddr.
  { rewrite Hlayout. cbn [text_user_base for_text_user_size]. unfold START_TRAMPOLINE_SIZE, base. lia. }
  rewrite Haddr in Hshape |- *.
  assert (op ∈ text_ops p) as Hin by (apply list_elem_of_lookup; eauto).
  eapply shape_scans; [unfold base; lia|reflexivity|exact Hfit|exact Hshape| | | |].
  - by eapply delta_found.
  - intros i w Hw. by eapply group_word.
  - intros label target Hct Hsym. eapply label_good; try done.
    intros sd Hsd. by eapply (ck_targets _ Hck).
  - intros Hcond.
    pose proof (words_follow tw gs j op Hlen Hall Hop Htw) as Hnext.
    assert (is_label op = false) as Hnl by (unfold is_label; by rewrite Eop).
    rewrite Hnl in Hnext. rewrite (take_S_r _ _ _ Hg), concat_app, length_app in Hnext.
    fold n in Hnext. simpl in Hnext. rewrite app_nil_r in Hnext.
    replace (base + Z.of_nat (5 + n + length g) * 4)
      with (text_user_base l + 4 * Z.of_nat (n + length g)) by lia.
    apply Hnext. intros inst' Hi. congruence.
Qed.

Lemma trampoline_scans a b gs :
  let tw := [a; b] ++ [0x000008b7; 0x05d88893; 0x00000073] in
  length gs = length (text_ops p) ->
  (forall j op g, text_ops p !! j = Some op -> gs !! j = Some g ->
     let o := 4 * Z.of_nat (length (concat (take j gs))) in
     offset_at p j = Ok o /\ op_group p l j o op g) ->
  startup_words lines p l entry a b ->
  base + 4 * Z.of_nat (length (tw ++ concat gs)) + 8 <= U64_MAX ->
  scans (tw ++ concat gs) base 0 tw [].
Proof using Hparsed Hlayout Hck Hentry.
  clear - Hparsed Hlayout Hck Hentry. intros tw Hlen Hall Hst Hfit.
  apply (scans_app _ _ _ _ _ [] []); [|apply scans_plain; [unfold base; lia|reflexivity|exact Hfit|apply exit_plain]].
  destruct Hst as [(_ & -> & ->)|(_ & hi & lo & target & Hsym & -> & Hb & Hsum & Hhi)].
  - apply scans_plain; [unfold base; lia|reflexivity|exact Hfit|].
    apply (lui_addi_plain 10 25); [unfold reg_ok; lia|lia|reflexivity].
  - eapply scans_call; [unfold base; lia|reflexivity|exact Hfit|reflexivity|reflexivity|exact Hb|done|].
    replace (base + Z.of_nat 0 * 4 + (hi * 4096 + lo)) with target
      by (rewrite Hsum, Hlayout; cbn [text_base for_text_user_size]; unfold base; lia).
    eapply label_good; try done. intros sd Hsd.
    destruct (entry_is_text _ _ _ _ Hparsed Hentry) as (sd' & Hsd' & Hsec). congruence.
Qed.

(** The words of the text are words. *)
Lemma text_words_ok a b gs :
  (forall j op g, text_ops p !! j = Some op -> gs !! j = Some g ->
     let o := 4 * Z.of_nat (length (concat (take j gs))) in
     offset_at p j = Ok o /\ op_group p l j o op g) ->
  length gs = length (text_ops p) -> startup_words lines p l entry a b ->
  Forall word_ok (([a; b] ++ [0x000008b7; 0x05d88893; 0x00000073]) ++ concat gs).
Proof using.
  clear. intros Hall Hlen Hst. assert (reg_ok 1) as Hr1 by (unfold reg_ok; lia).
  apply Forall_app. split.
  - assert (word_ok a /\ word_ok b) as [Ha Hb].
    { destruct Hst as [(_ & -> & ->)|(_ & hi & lo & target & _ & -> & Hb & _)].
      - unfold word_ok. pow2_consts. lia.
      - split; [by apply u_admitted; [lia|]|].
        destruct (i_fields 0x67 1 0 1 ltac:(lia) Hr1 ltac:(lia) Hr1 _ _ Hb) as [F _].
        by eapply fields_word_ok. }
    repeat (constructor; [first [done|unfold word_ok; pow2_consts; lia]|]). constructor.
  - apply Forall_concat, Forall_forall. intros g Hg. apply list_elem_of_lookup in Hg as [j Hj].
    destruct (lookup_lt_is_Some_2 (text_ops p) j) as [op Hop].
    { rewrite <- Hlen. by eapply lookup_lt_Some. }
    destruct (Hall _ _ _ Hop Hj) as [_ Hg]. unfold op_group in Hg.
    destruct (la_op op) as [|inst| | | |]; try done; [by subst|]. destruct Hg as [_ Hshape].
    apply shape_admitted in Hshape as [_ Hadm]. eapply Forall_impl; [exact Hadm|]. by intros w [].
Qed.

Lemma check_flow_good ws decoded :
  instructions decoded = decoded_from base 0 ws ->
  Forall (fun f => good_target ws base (cf_target f)) (control_flow decoded) ->
  check_flow base decoded = Ok tt.
Proof using.
  clear. intros Hi Hf. unfold check_flow. rewrite Hi. induction Hf as [|f flows Hgood _ IH]; [done|].
  cbn [fold_result]. destruct Hgood as (n & w & -> & Hn & Hw).
  replace (Z.to_nat ((base + 4 * Z.of_nat n - base) / 4)) with n.
  2:{ replace (base + 4 * Z.of_nat n - base) with (Z.of_nat n * 4) by lia.
      by rewrite Z.div_mul, Nat2Z.id by lia. }
  rewrite (decoded_from_lookup _ _ _ _ _ Hn). cbn [di_word]. unfold not_call_half in Hw.
  rewrite Hw. exact IH.
Qed.

(** The checker accepts the instruction stream. *)
Lemma text_accepted :
  exists ws decoded, text = code_bytes ws /\
    validate_instructions text base {| r_start := base; r_end := base + Z.of_nat (length text) |}
    = Ok decoded /\ check_flow base decoded = Ok tt /\ instructions decoded = decoded_from base 0 ws /\
    stack_adjustments decoded = frame_adjustments p l.
Proof using Hparsed Hlayout Hck Hentry Htramp Htext Hfit.
  destruct text_groups as (a & b & gs & Hst & Htx & Hlen & Hall).
  set (tw := [a; b] ++ [0x000008b7; 0x05d88893; 0x00000073]) in *.
  assert (Z.of_nat (length text) = 4 * Z.of_nat (length (tw ++ concat gs))) as Hn.
  { rewrite Htx, length_code_bytes. lia. }
  rewrite Hn in Hfit |- *.
  assert (scans (tw ++ concat gs) base 0 (tw ++ concat gs) ([] ++ frame_adjustments p l)) as Hscan.
  { apply scans_app; [by apply trampoline_scans|]. by apply user_code_scans. }
  destruct (Hscan scan_start eq_refl) as (st' & flows & Hf & _ & Hcf & Hadj & Hgood).
  exists (tw ++ concat gs), (sc_decoded st'). split; [done|].
  assert (instructions (sc_decoded st') = decoded_from base 0 (tw ++ concat gs)) as Hin.
  { eapply (scan_instructions _ _ _ _ 0 scan_start); [|exact Hf]. by apply text_words_ok. }
  split_and!; [|eapply check_flow_good; [exact Hin|by rewrite Hcf]|done|done].
  unfold validate_instructions. rewrite Htx, chunks_code. unfold text_range_of in Hf. by rewrite Hf.
Qed.
End Accepted.

(** What a plan consists of. *)
Lemma build_inv lines plan :
  build lines = Ok plan ->
  exists R, from_lines_with_branch_mode lines (Exact R) = Ok (parsed plan) /\
    layout plan = for_text_user_size (text_size (parsed plan)) /\
    machine_cfg (parsed plan) = Ok (cfg plan).
Proof.
  unfold build. intros H. inv_ok. subst plan. cbn [parsed layout cfg].
  apply from_lines_relaxed_inv in E0 as (pc & _ & _ & Hp & _). eauto.
Qed.

(** The steps of a successful assembly. *)
Record assembly (lines : list str) (plan : MachineLayoutPlan) (elf : list Z) (R : gset nat)
    (entry : str) (t text rodata : list Z) : Prop := {
  as_parsed : from_lines_with_branch_mode lines (Exact R) = Ok (parsed plan);
  as_layout : layout plan = for_text_user_size (text_size (parsed plan));
  as_entry : entry_label (parsed plan) = Some entry;
  as_trampoline : start_trampoline lines (parsed plan) (layout plan) entry = Ok t;
  as_text : encode_section (parsed plan) Text t (layout plan) START_TRAMPOLINE_SIZE = Ok text;
  as_rodata : encode_section (parsed plan) Rodata [] (layout plan) 0 = Ok rodata;
  as_write : write_elf (layout plan) (rodata_base (layout plan) - text_base (layout plan)) text rodata = Ok elf
}.

Lemma assemble_inv lines plan elf :
  build lines = Ok plan -> assemble_generated_elf lines = Ok elf ->
  exists R entry t text rodata, assembly lines plan elf R entry t text rodata.
Proof.
  intros Hplan Helf. destruct (build_inv _ _ Hplan) as (R & Hp & Hl & _).
  unfold assemble_generated_elf, assemble_elf_internal in Helf. rewrite Hplan in Helf.
  cbn [map_err] in Helf. inv_ok. apply map_err_ok in E3, E4.
  destruct (entry_label (parsed plan)) as [entry|] eqn:Hentry; [|discriminate E0]. injection E0 as ->.
  unfold rodata_offset in E1. inv_ok. subst. by eexists R, _, _, _, _.
Qed.

(** The emitted text has the size the layout gave it, and the trampoline the size it reserved. *)
Lemma assembled_text lines plan elf R entry t text rodata :
  assembly lines plan elf R entry t text rodata ->
  aligned_bias START_TRAMPOLINE_SIZE (text_ops (parsed plan)) ->
  length t = 20%nat /\ Z.of_nat (length text) = 20 + text_size (parsed plan) /\
  Z.of_nat (length text) <= rodata_base (layout plan) - text_base (layout plan) /\
  elf = elf_image (layout plan) (rodata_base (layout plan) - text_base (layout plan)) text rodata.
Proof.
  intros [Hp Hl He Ht Htx Hrd Hw] Ha.
  destruct (trampoline_words _ _ _ _ _ Ht) as (a & b & Htw & _).
  assert (length t = 20%nat) as Ht20 by (rewrite Htw; apply length_code_bytes).
  destruct (section_emission lines R (parsed plan) Text (layout plan) t text) as (code & -> & Hlen & _);
    [done|by rewrite Ht20|by rewrite Ht20|]. simpl in Hlen.
  assert (Z.of_nat (length (t ++ code)) = 20 + text_size (parsed plan)) as Hlt
    by (rewrite length_app; lia).
  split; [done|]. split; [done|].
  assert (Z.of_nat (length (t ++ code)) <= rodata_base (layout plan) - text_base (layout plan)) as Hle.
  { rewrite Hlt, Hl. cbn [rodata_base text_base for_text_user_size].
    pose proof (align8 (START_TRAMPOLINE_SIZE + text_size (parsed plan))) as [H8 _].
    unfold START_TRAMPOLINE_SIZE in *. lia. }
  split; [done|]. rewrite write_elf_image in Hw; [by injection Hw|by rewrite Hl|done].
Qed.

Lemma get_slice_trans bytes start len r from n q :
  get_slice bytes start len = Some r -> get_slice r from n = Some q -> 0 <= len ->
  0 <= n -> get_slice bytes (start + from) n = Some q.
Proof.
  unfold get_slice. intros H1 H2 Hl Hn. destruct (_ && _) eqn:E1 in H1; [|done].
  destruct (_ && _) eqn:E2 in H2; [|done]. injection H1 as <-. injection H2 as <-.
  rewrite andb_true_iff, !Z.leb_le in E1, E2. rewrite length_take, length_drop in E2.
  rewrite (proj2 (Z.leb_le 0 _)), (proj2 (Z.leb_le (_ + _) _)) by lia. cbn [andb]. f_equal.
  rewrite skipn_firstn_comm, firstn_firstn, drop_drop.
  replace (Nat.min (Z.to_nat n) (Z.to_nat len - Z.to_nat from)) with (Z.to_nat n) by lia.
  replace (Z.to_nat (start + from)) with (Z.to_nat start + Z.to_nat from)%nat by lia. done.
Qed.

(** C2.  The layout and the emitted file agree.  For a program whose alignments are those of the
    trampoline's size, each operation of the text and of the read-only data stands in the
    assembled file at the file offset of the address the layout assigns to it: instructions as
    their encoding at that address, data verbatim; and a label resolves to the address of the
    operation that follows it. *)
Theorem assembled_placement lines plan elf s i op :
  build lines = Ok plan -> assemble_generated_elf lines = Ok elf ->
  aligned_bias START_TRAMPOLINE_SIZE (text_ops (parsed plan)) ->
  section_ops (parsed plan) s !! i = Some op ->
  exists off bytes,
    advance (Exact (relaxed_text_branches (parsed plan))) s 0 0
      (take i (section_ops (parsed plan) s)) = Ok off /\
    op_emits (parsed plan) s (layout plan) i off op bytes /\
    get_slice elf (section_base (layout plan) s + off - ELF_BASE_ADDR + 128)
      (Z.of_nat (length bytes)) = Some bytes /\
    (forall label, la_op op = OpLabel label ->
       symbol_address (symbols (parsed plan)) label (layout plan)
       = Ok (section_base (layout plan) s + off)).
Proof.
  intros Hplan Helf Hal Hop.
  destruct (assemble_inv _ _ _ Hplan Helf) as (R & entry & t & text & rodata & Has).
  destruct (assembled_text _ _ _ _ _ _ _ _ Has Hal) as (Ht20 & Hlen & Hro & ->).
  destruct Has as [Hp Hl He Ht Htx Hrd _].
  assert (relaxed_text_branches (parsed plan) = R) as HR by (by destruct (parsed_inv _ _ _ Hp)).
  rewrite HR. set (ro := rodata_base (layout plan) - text_base (layout plan)) in *.
  assert (text_base (layout plan) = ELF_BASE_ADDR) as Hb by (by rewrite Hl).
  destruct s.
  - destruct (section_emission lines R (parsed plan) Text (layout plan) t text)
      as (code & -> & _ & Hall); [done|by rewrite Ht20|by rewrite Ht20|].
    destruct (Hall i op Hop) as (off & Hadv & (be & bytes & af & -> & Hbe & Hem) & Hlab).
    exists off, bytes. split_and!; [done..| |done].
    replace (section_base (layout plan) Text + off - ELF_BASE_ADDR + 128)
      with (128 + (20 + off)) by (simpl; rewrite Hl; unfold for_text_user_size, START_TRAMPOLINE_SIZE; simpl; lia).
    eapply get_slice_trans; [apply get_text| |lia..]. rewrite app_assoc.
    replace (20 + off) with (Z.of_nat (length (t ++ be))) by (rewrite length_app; lia).
    apply get_slice_app.
  - destruct (section_emission lines R (parsed plan) Rodata (layout plan) [] rodata)
      as (code & -> & _ & Hall); [done|apply Forall_forall; intros ? _ n _; apply Zmod_0_l|done|].
    destruct (Hall i op Hop) as (off & Hadv & (be & bytes & af & -> & Hbe & Hem) & Hlab).
    exists off, bytes. split_and!; [done..| |done].
    replace (section_base (layout plan) Rodata + off - ELF_BASE_ADDR + 128)
      with (128 + ro + off) by (unfold ro; rewrite Hb; simpl; lia).
    assert (0 < Z.of_nat (length text)) as Hpos.
    { destruct (section_emission lines R (parsed plan) Text (layout plan) t text)
        as (user & -> & _); [done|by rewrite Ht20|by rewrite Ht20|]. rewrite length_app. lia. }
    eapply get_slice_trans; [apply get_rodata; lia| |lia..].
    simpl. rewrite <- Hbe. apply get_slice_app.
Qed.

(** C1.  End to end, the independent checker accepts what the assembler emits: if a program
    keeps the conventions of generated code ([checkable]) and assembles, its executable, of a
    length that fits i64, parses with any instruction budget that covers it, enters at the base address, holds exactly the text the
    layout sized, every decoded instruction is the word emitted at that place, and the stack
    adjustments the checker records are, with their addresses and amounts, exactly those of
    the program: small frames by [addi], large ones by a constant in a scratch register. *)
Theorem assembled_elf_accepted lines plan elf max :
  build lines = Ok plan -> checkable (parsed plan) -> assemble_generated_elf lines = Ok elf ->
  Z.of_nat (length elf) <= I64_MAX -> (20 + text_size (parsed plan)) / 4 <= max ->
  exists e ws, parse_elf elf max = Ok e /\ pe_entry e = ELF_BASE_ADDR /\
    s_address (pe_text e) = ELF_BASE_ADDR /\ s_size (pe_text e) = 20 + text_size (parsed plan) /\
    get_slice elf (s_offset (pe_text e)) (s_size (pe_text e)) = Some (code_bytes ws) /\
    instructions (pe_decoded e) = decoded_from ELF_BASE_ADDR 0 ws /\
    stack_adjustments (pe_decoded e) = frame_adjustments (parsed plan) (layout plan).
Proof.
  intros Hplan Hck Helf Hsize Hmax.
  destruct (assemble_inv _ _ _ Hplan Helf) as (R & entry & t & text & rodata & Has).
  destruct (assembled_text _ _ _ _ _ _ _ _ Has) as (_ & Hlen & Hro & ->).
  { apply code_only_aligned, Hck. }
  destruct Has as [Hp Hl He Ht Htx _ _].
  set (l := layout plan) in *. set (ro := rodata_base l - text_base l) in *.
  assert (text_base l = ELF_BASE_ADDR) as Hb by (by rewrite Hl).
  assert (Z.of_nat (length text) + 400 <= I64_MAX) as Hbound.
  { rewrite length_elf_image in Hsize by done.
    assert (128 + (ro + Z.of_nat (length rodata)) <= pl_names (place ro rodata)) by apply align8.
    assert (pl_names (place ro rodata) + 25 <= pl_headers (place ro rodata)) by apply align8. lia. }
  destruct (text_accepted lines R (parsed plan) l entry t text Hp Hl Hck He Ht Htx)
    as (ws & decoded & Hws & Hval & Hflow & Hdec & Hadj).
  { unfold ELF_BASE_ADDR, I64_MAX, U64_MAX in *. lia. }
  pose proof (length_code_bytes ws) as Hlw. rewrite <- Hws in Hlw.
  assert (0 < length text)%nat as Hpos.
  { destruct (trampoline_words _ _ _ _ _ Ht) as (a & b & Htw & _).
    destruct (section_emission lines R (parsed plan) Text l t text) as (code & -> & _);
      [done|rewrite Htw, length_code_bytes; apply code_only_aligned, Hck
      |by rewrite Htw, length_code_bytes in *|]. rewrite length_app, Htw, length_code_bytes. simpl. lia. }
  pose proof (parse_elf_image l ro text rodata Hb ltac:(lia) Hro ltac:(lia)) as Hparse.
  rewrite Hparse; [|rewrite Hlw; zdivmod|done].
  rewrite (proj2 (Z.ltb_ge _ _)) by (rewrite Hlen; lia).
  assert (section_range (image_text l text)
    = {| r_start := ELF_BASE_ADDR; r_end := ELF_BASE_ADDR + Z.of_nat (length text) |}) as ->.
  { unfold section_range. cbn [s_address s_size image_text]. rewrite Hb. f_equal.
    unfold sat_add_u64, U64_MAX, ELF_BASE_ADDR, I64_MAX in *. lia. }
  rewrite Hb, Hval, Hflow. eexists _, ws. split; [done|].
  cbn [pe_entry pe_text pe_decoded s_address s_size s_offset image_text].
  split_and!; [done|done|done| |done|done]. rewrite <- Hws. apply get_text.
Qed.

(** * Deciding the conventions *)

Definition frame_moveb (prev : option AsmOp) (i : Instruction) : bool :=
  if bool_decide (inst_dest i = Some 2) then
    match i, prev with
    | Addi r s _, _ => s =? 2
    | IAdd r s t, Some (OpInstruction (Li t' imm)) =>
        (s =? 2) && (t =? t') && negb (one_of t [0; 2]) && in_range (-0x80000000) 0x7ffff7ff imm
        && negb (in_range (-2048) 2047 imm)
    | _, _ => false
    end
  else true.

Definition op_checkable (p : ParsedAssembly) (j : nat) (op : LocatedAsmOp) : bool :=
  match la_op op with
  | OpLabel _ => true
  | OpInstruction i =>
      frame_moveb (prev_op (text_ops p) j) i &&
      match control_target i ≫= (fun label => symbols p !! label) with
      | Some sd => bool_decide (sd_section sd = Text)
      | None => true
      end
  | _ => false
  end.

Definition ends_checkable (ops : list LocatedAsmOp) : bool :=
  match last ops with
  | Some op =>
      match la_op op with
      | OpInstruction i => match conditional_branch_parts i with None => true | _ => false end
      | _ => false
      end
  | None => false
  end.

Definition checkableb (p : ParsedAssembly) : bool :=
  forallb id (imap (op_checkable p) (text_ops p)) && ends_checkable (text_ops p).

Lemma frame_moveb_ok prev i : frame_moveb prev i = true -> frame_move prev i.
Proof.
  unfold frame_moveb, frame_move, in_range, one_of. intros H Hd. rewrite bool_decide_eq_true_2 in H by done.
  destruct i; try discriminate H; cbn [inst_dest] in Hd; injection Hd as ->.
  - apply Z.eqb_eq in H as ->. eauto.
  - destruct prev as [[|[]| | | |]|]; try discriminate H. simpl in H. right.
    rewrite !andb_true_iff, !negb_true_iff, !orb_false_iff, !Z.eqb_eq, !Z.eqb_neq in H.
    destruct_and!. subst. do 2 eexists. split_and!; [done..|lia|lia|lia].
Qed.

Lemma checkableb_ok p : checkableb p = true -> checkable p.
Proof.
  unfold checkableb. intros [Hall Hend]%andb_true_iff. rewrite forallb_forall in Hall.
  assert (forall j op, text_ops p !! j = Some op -> op_checkable p j op = true) as Hj.
  { intros j op Hop. apply Hall. apply list_elem_of_In, (list_elem_of_lookup_2 _ j).
    by rewrite list_lookup_imap, Hop. }
  assert (forall op, op ∈ text_ops p -> exists j, op_checkable p j op = true) as Hop
    by (intros op [j Hop]%list_elem_of_lookup; eauto).
  clear Hall. unfold op_checkable in Hop, Hj. constructor.
  - apply Forall_forall. intros op [j H]%Hop. unfold is_code. by destruct (la_op op).
  - intros j op inst H%Hj E. rewrite E in H. apply andb_true_iff in H as [H _].
    by apply frame_moveb_ok.
  - intros op inst label sd [j H]%Hop E Ht Hs. rewrite E, Ht in H. simpl in H. rewrite Hs in H.
    apply andb_true_iff in H as [_ H]. by apply bool_decide_eq_true in H.
  - unfold ends_checkable in Hend. destruct (last (text_ops p)) as [op|] eqn:El; [|done].
    apply last_Some in El as [pre Hpre]. destruct (la_op op) as [|inst| | | |] eqn:Eo; try done.
    exists pre, op, inst. split_and!; [done..|]. by destruct (conditional_branch_parts inst).
Qed.

(** A program with the 5376-byte frame of an entry. *)
Definition large_frame_lines : list str := chars <$>
  [".global main"; "main:"; "li t6, -5376"; "add sp, sp, t6"; "sd ra, 8(sp)"; "call helper";
   "ld ra, 8(sp)"; "li t6, 5376"; "add sp, sp, t6"; "ret"; ".global helper"; "helper:";
   "addi sp, sp, -16"; "li a0, 7"; "addi sp, sp, 16"; "ret"]%string.

Lemma assembled_elf_accepted_witness :
  exists plan elf e, build large_frame_lines = Ok plan /\
    assemble_generated_elf large_frame_lines = Ok elf /\
    parse_elf elf 100 = Ok e /\ pe_entry e = ELF_BASE_ADDR /\ s_size (pe_text e) = 80 /\
    (sa_delta <$> stack_adjustments (pe_decoded e)) = [-5376; 5376; -16; 16].
Proof.
  assert (exists plan elf, build large_frame_lines = Ok plan /\ checkableb (parsed plan) = true /\
            assemble_generated_elf large_frame_lines = Ok elf /\ Z.of_nat (length elf) <= I64_MAX /\
            text_size (parsed plan) = 60 /\
            (sa_delta <$> frame_adjustments (parsed plan) (layout plan)) = [-5376; 5376; -16; 16])
    as (plan & elf & Hplan & Hck & Helf & Hlen & Hsize & Hadj).
  { eexists _, _. split; [vm_compute; reflexivity|]. split; [vm_compute; reflexivity|].
    split; [vm_compute; reflexivity|]. split; [vm_compute; discriminate|].
    split; [reflexivity|]. vm_compute. reflexivity. }
  destruct (assembled_elf_accepted large_frame_lines plan elf 100 Hplan (checkableb_ok _ Hck) Helf Hlen)
    as (e & ws & Hp & Hentry & _ & Hsz & _ & _ & Hm); [rewrite Hsize; vm_compute; discriminate|].
  exists plan, elf, e. split; [exact Hplan|]. split; [exact Helf|]. split; [exact Hp|].
  split; [exact Hentry|]. split; [rewrite Hsz, Hsize; reflexivity|]. rewrite Hm. exact Hadj.
Defined.

(** * Alignment inside the text *)

Definition align_lines : list str := chars <$>
  [".global main"; "main:"; "j end"; ".align 3"; "end:"; "ret"]%string.

(** C32.  The condition on alignments is needed: the layout pads relative to the user text, the
    emitter relative to the text with its 20-byte trampoline.  With [.align 3] after one
    instruction the label [end] is laid out eight bytes into the user text, while the
    instruction it names is emitted four bytes into it, and the checker rejects the file,
    because the jump leaves the text. *)
Theorem text_alignment_misplaces_labels :
  exists plan elf, build align_lines = Ok plan /\ assemble_generated_elf align_lines = Ok elf /\
    symbol_address (symbols (parsed plan)) (chars "end") (layout plan)
    = Ok (ELF_BASE_ADDR + START_TRAMPOLINE_SIZE + 8) /\
    get_slice elf (128 + 20 + 4) 4 = Some (word_bytes 0x00008067) /\
    get_slice elf (128 + 20 + 8) 4 <> Some (word_bytes 0x00008067) /\
    ok_opt (parse_elf elf 100) = None.
Proof.
  eexists _, _. split; [vm_compute; reflexivity|]. split; [vm_compute; reflexivity|].
  split; [vm_compute; reflexivity|]. split; [vm_compute; reflexivity|].
  split; [vm_compute; discriminate|vm_compute; reflexivity].
Qed.

Lemma assembled_placement_witness :
  exists plan elf off bytes, build sample_lines = Ok plan /\
    assemble_generated_elf sample_lines = Ok elf /\
    get_slice elf (section_base (layout plan) Text + off - ELF_BASE_ADDR + 128)
      (Z.of_nat (length bytes)) = Some bytes.
Proof.
  assert (exists plan elf op, build sample_lines = Ok plan /\ checkableb (parsed plan) = true /\
            assemble_generated_elf sample_lines = Ok elf /\
            section_ops (parsed plan) Text !! 1%nat = Some op)
    as (plan & elf & op & Hplan & Hck & Helf & Hop).
  { eexists _, _, _. split; [vm_compute; reflexivity|]. split; [vm_compute; reflexivity|].
    split; [vm_compute; reflexivity|]. vm_compute. reflexivity. }
  destruct (assembled_placement sample_lines plan elf Text 1 op Hplan Helf
    (code_only_aligned _ _ (ck_code _ (checkableb_ok _ Hck))) Hop) as (off & bytes & _ & _ & Hs & _).
  exists plan, elf, off, bytes. split; [exact Hplan|]. split; [exact Helf|exact Hs].
Defined.
