(* ===== verification/Record.v ===== *)
(** The lowering record the checker validates an artifact against
  (crates/cellscript-artifact-checker/src/schema.rs) and the checker's errors (checker.rs).
  A struct here has the fields of the source that the modelled validators read; fields
  that only serialisation or the typed machine layers use are left out. *)

From Stdlib Require Import ZArith String.
From stdpp Require Import base numbers list option tactics gmap sorting.
From S2P Require Import Prelude RustStr ElfChecker.

Open Scope Z_scope.

(** * Errors *)

Inductive CheckerRejectionCode :=
| V2400BudgetExceeded
| V2401MalformedJson
| V2402NonCanonicalJson
| V2403UnsupportedSchema
| V2404CanonicalOrder
| V2405ReferentialIntegrity
| V2406CfgInvalid
| V2407AbiOrStackInvalid
| V2408ProofCoverageInvalid
| V2409ArtifactIdentityMismatch
| V2410MetadataBindingMismatch
| V2411ElfFormatInvalid
| V2412ElfSectionInvalid
| V2413InstructionInvalid
| V2414ControlFlowInvalid
| V2415BlockDigestMismatch
| V2416SourceMapInvalid
| V2417SyscallContractInvalid
| V2418RecursionPolicyInvalid
| V2419TypedSemanticsInvalid
| V2420TypedMachineBindingInvalid.

(** A format string with the identifiers and integers it interpolates. *)
Inductive CheckerMessage :=
| CMsg (text : string) (names : list str) (values : list Z)
| CElf (m : ElfMessage)
(** Not a returned error: the Rust code panics here (a missing map key). *)
| CPanic.

Record CheckerError := { ck_kind : CheckerRejectionCode; ck_message : CheckerMessage }.

Abbreviation CheckResult := (result CheckerError).
Abbreviation reject c t ns vs := (Err {| ck_kind := c; ck_message := CMsg t ns vs |}).
Abbreviation panic := (Err {| ck_kind := V2405ReferentialIntegrity; ck_message := CPanic |}).

Definition panics {A} (r : CheckResult A) : bool :=
  match r with Err {| ck_message := CPanic |} => true | _ => false end.

Definition map_elf_error (e : ElfParseError) : CheckerError :=
  {| ck_kind :=
     match ee_kind e with
     | BudgetExceeded => V2400BudgetExceeded
     | InvalidSection | ProhibitedLinkState | MissingText => V2412ElfSectionInvalid
     | InvalidInstruction => V2413InstructionInvalid
     | InvalidBranchTarget => V2414ControlFlowInvalid
     | _ => V2411ElfFormatInvalid
     end;
   ck_message := CElf (ee_message e) |}.

(** * Schema *)

Inductive EntryKind := Action | Lock | Helper | Runtime | Wrapper.
Inductive StorageClass := Scalar | FixedBytes | SchemaPointer | Reference | Aggregate.
Inductive MachineTerminator := Fallthrough | Jump | ConditionalBranch | Return.
Inductive EdgeKind :=
  KFallthrough | KJump | KConditionalTaken | KConditionalFallthrough | KCall.

#[export] Instance EntryKind_eq_dec : EqDecision EntryKind.
Proof. solve_decision. Defined.
#[export] Instance MachineTerminator_eq_dec : EqDecision MachineTerminator.
Proof. solve_decision. Defined.
#[export] Instance EdgeKind_eq_dec : EqDecision EdgeKind.
Proof. solve_decision. Defined.

Record TypedParameter := {
  p_index : Z;
  p_name : str;
  p_ty : str;
  p_storage : StorageClass;
  p_width_bytes : Z;
  p_alignment_bytes : Z
}.

Record LoweringEntry := {
  e_id : str;
  e_kind : EntryKind;
  e_name : str;
  entry_block : str;
  params : list TypedParameter;
  return_type : str;
  e_capabilities : list str;
  e_proof_ids : list str;
  e_frame_size_bytes : Z;
  e_outgoing_argument_bytes : Z
}.

Record StackSlot := {
  sl_name : str;
  sl_offset : Z;
  sl_width_bytes : Z;
  sl_alignment_bytes : Z;
  sl_kind : StorageClass
}.

Record LoweringBlock := {
  b_id : str;
  owner_entry : str;
  reachable : bool;
  lowering_block_id : option Z;
  typed_block_hash : option str;
  machine_label : option str;
  nested_read_labels : list str;
  nested_cell_labels : list str;
  nested_output_labels : list str;
  exact_role_labels : list str;
  allocated_init_labels : list str;
  allocated_allocation_labels : list str;
  allocated_lifecycle_labels : list str;
  cell_view_value_labels : list str;
  terminator : MachineTerminator;
  b_range : MachineRange;
  byte_digest : str;
  b_frame_size_bytes : Z;
  b_outgoing_argument_bytes : Z;
  stack_slots : list StackSlot;
  scratch_register_avoid : list str;
  b_capabilities : list str;
  b_proof_ids : list str
}.

Record LoweringEdge := { ed_from : str; ed_to : str; ed_kind : EdgeKind }.

Record ProofRecord := {
  pr_id : str;
  pr_entry_id : str;
  obligation : str;
  evidence_tier : str
}.

Record SyscallSite := {
  sy_block_id : str;
  sy_address : Z;
  syscall_number : option Z;
  contract : str;
  source_domain : str;
  index_domain : str;
  return_code_checked : bool;
  buffer_limit_bytes : Z
}.

Record RuntimeErrorExit := {
  x_block_id : str;
  x_address : Z;
  x_code : Z;
  x_name : str
}.

(** [exact_entry] is [typed_semantics.foundation.entry_contract.exact_entry]. *)
Record VerifiedLoweringRecord := {
  artifact_size_bytes : Z;
  exact_entry : str;
  vr_text_range : MachineRange;
  entries : list LoweringEntry;
  blocks : list LoweringBlock;
  edges : list LoweringEdge;
  proof_records : list ProofRecord;
  syscall_sites : list SyscallSite;
  runtime_error_exits : list RuntimeErrorExit;
  verifier_failure_exits : list RuntimeErrorExit
}.

(** [DeclaredLimits] has the same twelve limits as the checker's policy. *)
Record DeclaredLimits := {
  l_artifact_bytes : Z;
  l_record_bytes : Z;
  l_source_map_bytes : Z;
  l_entries : Z;
  l_blocks : Z;
  l_edges : Z;
  l_instructions : Z;
  l_call_depth : Z;
  l_stack_frame_bytes : Z;
  l_proof_records : Z;
  l_source_map_intervals : Z;
  l_diagnostic_bytes : Z
}.

Record CheckerBudgets := { policy_schema : str; budget : DeclaredLimits }.

(** * Ordered maps and sets keyed by strings *)

(** [a < b] on strings. *)
Definition str_ltb (a b : str) : bool :=
  match str_compare a b with Lt => true | _ => false end.

Definition str_le (a b : str) : Prop := str_compare b a <> Lt.
#[export] Instance str_le_dec : RelDecision str_le.
Proof. intros a b. unfold str_le. solve_decision. Defined.

(** The order in which a [BTreeMap] or [BTreeSet] yields its keys. *)
Definition btree_order (keys : list str) : list str := merge_sort str_le keys.

(** [iter().map(|x| (key(x), x)).collect::<BTreeMap<_, _>>()]: a later pair replaces an
  earlier one. *)
Definition collect_by {A} (key : A -> str) (l : list A) : gmap str A :=
  foldl (fun m x => <[key x := x]> m) ∅ l.

(** [map.entry(key(x)).or_default().push(x)] over a list. *)
Definition group_by {A} (key : A -> str) (l : list A) : gmap str (list A) :=
  foldl (fun m x => <[key x := default [] (m !! key x) ++ [x]]> m) ∅ l.

(** [windows(2).all(|pair| lt(pair[0], pair[1]))]. *)
Fixpoint windows_all {A} (lt : A -> A -> bool) (l : list A) : bool :=
  match l with
  | x :: (y :: _) as l' => lt x y && windows_all lt l'
  | _ => true
  end.

Definition strictly_sorted (l : list str) : bool := windows_all str_ltb l.

(** * Lemmas on ordered collections *)

Lemma str_compare_refl a : str_compare a a = Eq.
Proof. induction a as [|x a IH]; simpl; [done|]. by rewrite Z.compare_refl. Qed.

Lemma str_compare_eq a b : str_compare a b = Eq <-> a = b.
Proof.
  revert b; induction a as [|x a IH]; intros [|y b]; simpl; try done.
  destruct (Z.compare_spec x y) as [->|Hlt|Hlt].
  - rewrite IH. split; [by intros ->|by intros [= ->]].
  - split; [done|]. intros [= -> _]. lia.
  - split; [done|]. intros [= -> _]. lia.
Qed.

Lemma str_ltb_trans a b c : str_ltb a b = true -> str_ltb b c = true -> str_ltb a c = true.
Proof.
  unfold str_ltb. revert b c; induction a as [|x a IH]; intros [|y b] [|z c]; simpl; try done.
  destruct (Z.compare_spec x y) as [->|H1|H1]; [|intros _|done].
  - destruct (Z.compare_spec y z) as [->|H2|H2]; [|done|done]. apply IH.
  - destruct (Z.compare_spec y z) as [->|H2|H2]; [|intros _|done].
  + by rewrite (proj2 (Z.compare_lt_iff x z)).
  + by rewrite (proj2 (Z.compare_lt_iff x z)) by lia.
Qed.

Lemma str_ltb_irrefl a : str_ltb a a = false.
Proof. unfold str_ltb. by rewrite str_compare_refl. Qed.

(** A list whose neighbours increase has increasing pairs everywhere. *)
Lemma windows_all_head {A} (lt : A -> A -> bool) x l :
  (forall a b c, lt a b = true -> lt b c = true -> lt a c = true) ->
  windows_all lt (x :: l) = true -> Forall (fun y => lt x y = true) l.
Proof.
  intros Htr. revert x; induction l as [|y l IH]; intros x; [constructor|].
  cbn [windows_all]. intros [H1 H2]%andb_true_iff. constructor; [done|].
  eapply Forall_impl; [by apply IH|]. intros z Hz. by apply (Htr x y z).
Qed.

Lemma windows_all_tail {A} (lt : A -> A -> bool) x l :
  windows_all lt (x :: l) = true -> windows_all lt l = true.
Proof. destruct l; [done|]. cbn [windows_all]. by intros [_ ?]%andb_true_iff. Qed.

Lemma sorted_keys_nodup {A} (key : A -> str) l :
  windows_all (fun a b => str_ltb (key a) (key b)) l = true -> NoDup (key <$> l).
Proof.
  induction l as [|x l IH]; intros Hs; [constructor|]. rewrite fmap_cons. constructor.
  - intros (y & Hk & Hy)%list_elem_of_fmap.
  apply windows_all_head in Hs; [|intros a b c; apply str_ltb_trans].
  rewrite Forall_forall in Hs. specialize (Hs y Hy). simpl in Hs.
  rewrite <- Hk, str_ltb_irrefl in Hs. done.
  - apply IH. by eapply windows_all_tail.
Qed.

Lemma elem_of_btree_order k l : k ∈ btree_order l <-> k ∈ l.
Proof. unfold btree_order. by rewrite merge_sort_Permutation. Qed.

Section Collect.
  Context {A : Type} (key : A -> str).

Lemma collect_by_snoc l x : collect_by key (l ++ [x]) = <[key x := x]> (collect_by key l).
Proof. unfold collect_by. by rewrite foldl_app. Qed.

  (** The map holds exactly the keys of the list, each with an element of the list. *)
Lemma collect_by_Some l k x :
  collect_by key l !! k = Some x -> x ∈ l /\ key x = k.
Proof.
  induction l as [|y l IH] using rev_ind; [done|]. rewrite collect_by_snoc.
  destruct (decide (key y = k)) as [<-|Hne].
  - rewrite lookup_insert_eq. intros [= <-]. split; [set_solver|done].
  - rewrite lookup_insert_ne by done. intros [??]%IH. split; [set_solver|done].
Qed.

Lemma collect_by_is_Some l k : is_Some (collect_by key l !! k) <-> k ∈ key <$> l.
Proof.
  split.
  - intros [x [Hx <-]%collect_by_Some]. by apply list_elem_of_fmap_2.
  - induction l as [|y l IH] using rev_ind; [by intros ?%elem_of_nil|]. rewrite collect_by_snoc.
    rewrite fmap_app, elem_of_app. destruct (decide (key y = k)) as [<-|Hne].
    + intros _. by rewrite lookup_insert_eq.
    + rewrite lookup_insert_ne by done. intros [?|?%list_elem_of_singleton]; [by apply IH|congruence].
Qed.

  (** With distinct keys every element is found under its key. *)
Lemma collect_by_elem l x : NoDup (key <$> l) -> x ∈ l -> collect_by key l !! key x = Some x.
Proof.
  induction l as [|y l IH] using rev_ind; [by intros _ ?%elem_of_nil|].
  rewrite fmap_app, NoDup_app, collect_by_snoc. intros (Hl & Hd & _) Hx.
  apply elem_of_app in Hx as [Hx| ->%list_elem_of_singleton]; [|apply lookup_insert_eq].
  rewrite lookup_insert_ne; [by apply IH|].
  intros E. apply (Hd (key x)); [by apply list_elem_of_fmap_2|]. rewrite <- E. set_solver.
Qed.

Lemma group_by_lookup l k :
  default [] (group_by key l !! k) = filter (fun x => key x = k) l.
Proof.
  unfold group_by. induction l as [|y l IH] using rev_ind; [done|].
  rewrite foldl_app, filter_app. simpl.
  destruct (decide (key y = k)) as [<-|Hne].
  - rewrite lookup_insert_eq. simpl. rewrite IH, filter_cons_True by done. by rewrite filter_nil.
  - rewrite lookup_insert_ne, IH by done. rewrite filter_cons_False by done.
    by rewrite filter_nil, app_nil_r.
Qed.
End Collect.

Lemma find_elem {A} (f : A -> bool) l x : List.find f l = Some x -> x ∈ l /\ f x = true.
Proof. intros [H1 H2]%List.find_some. split; [by apply list_elem_of_In|done]. Qed.
