(* ===== verification/RecordGraph.v ===== *)
(** Validation of the lowering record on its own
    (crates/cellscript-artifact-checker/src/checker/record_graph.rs, with the helpers of
    checker.rs it calls): declared limits, canonical order, referential integrity, entry and
    block ABI, contiguous text coverage, terminator edges, reachability and the call graph.
    [validate_record_schema] compares canonical hashes and is not modelled. *)

From Stdlib Require Import ZArith String.
From stdpp Require Import base numbers list option tactics gmap sorting.
From S2P Require Import Prelude RustStr ElfChecker Record.

Open Scope Z_scope.

(** * Helpers of checker.rs *)

Definition ensure_count (label : string) (actual : nat) (limit : Z) : CheckResult unit :=
  if limit <? Z.of_nat actual
  then reject V2400BudgetExceeded label [] [Z.of_nat actual; limit] else Ok tt.

Definition ensure_sorted_unique {A} (key : A -> str) (values : list A) (label : string)
  : CheckResult unit :=
  if windows_all (fun a b => str_ltb (key a) (key b)) values then Ok tt
  else reject V2404CanonicalOrder label [] [].

Definition is_power_of_two (v : Z) : bool := (0 <? v) && (Z.land v (v - 1) =? 0).
Definition valid_alignment (value : Z) : bool := is_power_of_two value && (value <=? 16).
Definition artifact_declared_too_large (actual limit : Z) : bool := limit <? actual.

Definition sat_add_u32 (a b : Z) : Z := Z.min (a + b) U32_MAX.

(** [String::len]: bytes of the UTF-8 encoding. *)
Definition utf8_len (s : str) : Z := foldr (fun c n => len_utf8 c + n) 0 s.

Definition is_empty {A} (l : list A) : bool := match l with [] => true | _ => false end.

(** * Limits and counts *)

(** [CheckerBudgets::default()]. *)
Definition default_budgets : CheckerBudgets :=
  {| policy_schema := chars "cellscript-artifact-checker-policy-v1";
     budget :=
       {| l_artifact_bytes := 4 * 1024 * 1024; l_record_bytes := 4 * 1024 * 1024;
          l_source_map_bytes := 4 * 1024 * 1024; l_entries := 2048; l_blocks := 65536;
          l_edges := 262144; l_instructions := 1048576; l_call_depth := 256;
          l_stack_frame_bytes := 1024 * 1024; l_proof_records := 65536;
          l_source_map_intervals := 65536; l_diagnostic_bytes := 16 * 1024 |} |}.

Definition validate_declared_limits (declared : DeclaredLimits) (budgets : CheckerBudgets)
  : CheckResult unit :=
  let b := budget budgets in
  fold_result (fun _ check =>
      let '(name, value, limit) := check in
      if limit <? value then reject V2400BudgetExceeded name [] [value; limit] else Ok tt) tt
    [("artifact_bytes"%string, l_artifact_bytes declared, l_artifact_bytes b);
     ("record_bytes"%string, l_record_bytes declared, l_record_bytes b);
     ("source_map_bytes"%string, l_source_map_bytes declared, l_source_map_bytes b);
     ("entries"%string, l_entries declared, l_entries b);
     ("blocks"%string, l_blocks declared, l_blocks b);
     ("edges"%string, l_edges declared, l_edges b);
     ("instructions"%string, l_instructions declared, l_instructions b);
     ("call_depth"%string, l_call_depth declared, l_call_depth b);
     ("stack_frame_bytes"%string, l_stack_frame_bytes declared, l_stack_frame_bytes b);
     ("proof_records"%string, l_proof_records declared, l_proof_records b);
     ("source_map_intervals"%string, l_source_map_intervals declared, l_source_map_intervals b);
     ("diagnostic_bytes"%string, l_diagnostic_bytes declared, l_diagnostic_bytes b)].

(** [interval_count] is [source_map.intervals.len()]. *)
Definition validate_counts (record : VerifiedLoweringRecord) (interval_count : nat)
    (budgets : CheckerBudgets) : CheckResult unit :=
  let b := budget budgets in
  let? _ := ensure_count "entries" (length (entries record)) (l_entries b) in
  let? _ := ensure_count "blocks" (length (blocks record)) (l_blocks b) in
  let? _ := ensure_count "edges" (length (edges record)) (l_edges b) in
  let? _ := ensure_count "proof records" (length (proof_records record)) (l_proof_records b) in
  let? _ := ensure_count "verifier failure exits" (length (verifier_failure_exits record))
              (l_blocks b) in
  let? _ := ensure_count "source-map intervals" interval_count (l_source_map_intervals b) in
  if artifact_declared_too_large (artifact_size_bytes record) (l_artifact_bytes b)
  then reject V2400BudgetExceeded "record-declared artifact size exceeds checker policy" [] []
  else Ok tt.

(** * Entry and block ABI *)

Definition validate_param (e : LoweringEntry) (expected_index : Z) (p : TypedParameter)
  : CheckResult Z :=
  if negb (p_index p =? expected_index) || is_empty (p_name p) || is_empty (p_ty p)
     || (p_width_bytes p =? 0) || negb (valid_alignment (p_alignment_bytes p))
  then reject V2407AbiOrStackInvalid "entry has an invalid typed parameter" [e_id e] [p_index p]
  else Ok (sat_add_u32 expected_index 1).

Definition validate_entry_abi (e : LoweringEntry) (budgets : CheckerBudgets) : CheckResult unit :=
  if is_empty (e_name e) || is_empty (return_type e)
     || (l_stack_frame_bytes (budget budgets) <? e_frame_size_bytes e)
     || (e_frame_size_bytes e <? e_outgoing_argument_bytes e)
  then reject V2407AbiOrStackInvalid
         "entry has an invalid name/frame/outgoing-argument area" [e_id e] []
  else
    let? _ := fold_result (validate_param e) 0 (params e) in
    Ok tt.

(** The shape shared by the label inventories of a block. *)
Definition labels_ok (prefixes : list string) (labels : list str) : bool :=
  (length labels <=? 16)%nat && strictly_sorted labels
  && forallb (fun label => (utf8_len label <=? 128)
                           && existsb (fun p => starts_with (chars p) label) prefixes) labels.

Definition lifecycle_prefixes : list string :=
  [".Lallocated_resize_"; ".Lallocated_release_"; ".Lallocated_reserve_"; ".Lallocated_drop_";
   ".Lallocated_push_"; ".Lallocated_insert_"; ".Lallocated_set_"; ".Lallocated_remove_";
   ".Lallocated_find_"; ".Lallocated_put_"; ".Lallocated_erase_"; ".Lallocated_read_";
   ".Lallocated_lookup_"; ".Lallocated_take_"; ".Lallocated_pop_"; ".Lallocated_required_";
   ".Lallocated_sorted_"; ".Lallocated_len_"; ".Lallocated_capacity_"; ".Lallocated_empty_";
   ".Lallocated_borrowed_"; ".Lallocated_args_"; ".Lallocated_scalar_"; ".Lallocated_branch_";
   ".Lallocated_return_"; ".Lallocated_call_"; ".Lallocated_index_"; ".Lallocated_result_"]%string.

Definition valid_registers : list string :=
  ["zero"; "ra"; "sp"; "gp"; "tp"; "t0"; "t1"; "t2"; "s0"; "s1"; "a0"; "a1"; "a2"; "a3"; "a4";
   "a5"; "a6"; "a7"; "s2"; "s3"; "s4"; "s5"; "s6"; "s7"; "s8"; "s9"; "s10"; "s11"; "t3"; "t4";
   "t5"; "t6"]%string.

(** [a % b] of unsigned integers: a zero divisor panics. *)
Definition rem_u32 (a b : Z) : CheckResult Z := if b =? 0 then panic else Ok (a mod b).

(** The disjunction of the source stops at the first true operand, so the remainder is taken
    of an alignment that has passed [valid_alignment]. *)
Definition validate_slot (b : LoweringBlock) (last_end : Z) (s : StackSlot) : CheckResult Z :=
  let slot_end := sat_add_u32 (sl_offset s) (sl_width_bytes s) in
  let bad := reject V2407AbiOrStackInvalid
    "block has overlapping, misaligned, or out-of-frame stack slot" [b_id b; sl_name s] [] in
  if is_empty (sl_name s) || (sl_width_bytes s =? 0)
     || negb (valid_alignment (sl_alignment_bytes s))
  then bad
  else
    let? misaligned := rem_u32 (sl_offset s) (sl_alignment_bytes s) in
    if negb (misaligned =? 0) || (sl_offset s <? last_end) || (b_frame_size_bytes b <? slot_end)
    then bad
    else Ok slot_end.

Definition check_labels (labels : list str) (prefixes : list string) (message : string)
  : CheckResult unit :=
  if labels_ok prefixes labels then Ok tt
  else reject V2420TypedMachineBindingInvalid message [] [].

Definition validate_block_abi (b : LoweringBlock) (e : LoweringEntry)
    (proofs : gmap str ProofRecord) (budgets : CheckerBudgets) : CheckResult unit :=
  let? _ := check_labels (allocated_init_labels b) [".Lallocated_init_"%string]
    "invalid or excessive allocated initialization labels" in
  let? _ := check_labels (allocated_allocation_labels b) [".Lallocated_allocation_"%string]
    "invalid or excessive allocated allocation labels" in
  let? _ := check_labels (allocated_lifecycle_labels b) lifecycle_prefixes
    "invalid or excessive allocated lifecycle labels" in
  let? _ := check_labels (cell_view_value_labels b) [".Lcell_view_value_"%string]
    "invalid or excessive Cell view value labels" in
  let? _ := check_labels (exact_role_labels b)
    [".Lexact_role_check_"; ".Lexact_role_use_"; ".Lexact_role_data_"]%string
    "invalid or excessive exact-role verification labels" in
  if negb (b_frame_size_bytes b =? e_frame_size_bytes e)
     || negb (b_outgoing_argument_bytes b =? e_outgoing_argument_bytes e)
     || negb (bool_decide (b_capabilities b = e_capabilities e))
     || (l_stack_frame_bytes (budget budgets) <? b_frame_size_bytes b)
     || (b_frame_size_bytes b <? b_outgoing_argument_bytes b)
  then reject V2407AbiOrStackInvalid "block frame contract disagrees with owner entry" [b_id b] []
  else
  let? _ := check_labels (nested_read_labels b) [".Lnested_use_"%string]
    "invalid or excessive nested read boundary labels" in
  let? _ := check_labels (nested_cell_labels b) [".Lnested_cell_codec_"%string]
    "invalid or excessive nested Cell decoder labels" in
  let? _ := check_labels (nested_output_labels b) [".Lnested_output_check_"%string]
    "invalid or excessive nested output comparison labels" in
  if negb (strictly_sorted (scratch_register_avoid b))
     || existsb (fun r => negb (existsb (fun v => str_eqb (chars v) r) valid_registers))
          (scratch_register_avoid b)
  then reject V2407AbiOrStackInvalid "block has invalid scratch-register declarations" [b_id b] []
  else
  let? _ := fold_result (validate_slot b) (b_outgoing_argument_bytes b) (stack_slots b) in
  if negb (strictly_sorted (b_proof_ids b))
     || existsb (fun id => match proofs !! id with
                           | None => true
                           | Some p => negb (str_eqb (pr_entry_id p) (owner_entry b))
                           end) (b_proof_ids b)
  then reject V2408ProofCoverageInvalid "block has invalid ProofPlan links" [b_id b] []
  else Ok tt.

(** * Control-flow graph *)

Definition validate_terminator_edges (b : LoweringBlock) (out : list LoweringEdge)
  : CheckResult unit :=
  let non_call := ed_kind <$> filter (fun ed => ed_kind ed <> KCall) out in
  let valid :=
    match terminator b with
    | Fallthrough => bool_decide (non_call = [KFallthrough])
    | Jump => bool_decide (non_call = [KJump])
    | ConditionalBranch =>
        bool_decide (non_call = [KConditionalTaken; KConditionalFallthrough])
        || bool_decide (non_call = [KConditionalFallthrough; KConditionalTaken])
    | Return => is_empty non_call
    end in
  if valid then Ok tt
  else reject V2406CfgInvalid "block terminator does not match its CFG edges" [b_id b] [].

Abbreviation edge_map := (gmap str (list LoweringEdge)).

(** The worklist loop: [pending] has the top of the stack first.  Every round either drops
    a block already reached or enters a new one, pushing its edges; [None] when the fuel
    runs out. *)
Fixpoint reach_loop (fuel : nat) (outgoing : edge_map) (seen : gset str) (pending : list str)
  : option (gset str) :=
  match fuel, pending with
  | _, [] => Some seen
  | O, _ => None
  | S fuel, id :: pending =>
      if decide (id ∈ seen) then reach_loop fuel outgoing seen pending
      else reach_loop fuel outgoing ({[id]} ∪ seen)
             (rev (ed_to <$> default [] (outgoing !! id)) ++ pending)
  end.

Definition reach_fuel (record : VerifiedLoweringRecord) : nat :=
  length (entries record) + length (edges record).

Definition validate_reachability (record : VerifiedLoweringRecord) (outgoing : edge_map)
  : CheckResult unit :=
  match reach_loop (reach_fuel record) outgoing ∅ (rev (entry_block <$> entries record)) with
  | None => panic
  | Some seen =>
      match List.find (fun b => negb (eqb (reachable b) (bool_decide (b_id b ∈ seen))))
              (blocks record) with
      | Some b =>
          reject V2406CfgInvalid "block declared reachability differs from CFG reachability"
            [b_id b] [Z.b2z (reachable b); Z.b2z (bool_decide (b_id b ∈ seen))]
      | None => Ok tt
      end
  end.

(** * Call graph *)

Abbreviation call_map := (gmap str (gset str)).

Definition call_step (blocks_by_id : gmap str LoweringBlock) (graph : call_map)
    (ed : LoweringEdge) : CheckResult call_map :=
  match blocks_by_id !! ed_from ed, blocks_by_id !! ed_to ed with
  | Some bf, Some bt =>
      let from := owner_entry bf in
      let to := owner_entry bt in
      if decide (from = to) then Ok graph
      else Ok (<[from := {[to]} ∪ default ∅ (graph !! from)]> graph)
  | _, _ => panic
  end.

Record CallState := { active : gset str; depth_memo : gmap str Z }.

(** The recursion enters a node only when it is not active, so it is no deeper than the
    number of entries; the fuel stands for the call stack. *)
Fixpoint deepest_call_depth (fuel : nat) (graph : call_map) (current : str) (st : CallState)
  : CheckResult (Z * CallState) :=
  match depth_memo st !! current with
  | Some depth => Ok (depth, st)
  | None =>
      if decide (current ∈ active st)
      then reject V2418RecursionPolicyInvalid "recursive call cycle reaches entry" [current] []
      else
        match fuel with
        | O => panic
        | S fuel =>
            let st1 := {| active := {[current]} ∪ active st; depth_memo := depth_memo st |} in
            let? (deepest, st2) :=
              fold_result (fun (acc : Z * CallState) (child : str) =>
                  let (deepest, st) := acc in
                  let? (child_depth, st') := deepest_call_depth fuel graph child st in
                  Ok (Z.max deepest (sat_add_u32 child_depth 1), st'))
                (0, st1) (btree_order (elements (default ∅ (graph !! current)))) in
            Ok (deepest, {| active := active st2 ∖ {[current]};
                            depth_memo := <[current := deepest]> (depth_memo st2) |})
        end
  end.

Definition check_root (fuel : nat) (graph : call_map) (max_depth : Z) (memo : gmap str Z)
    (root : str) : CheckResult (gmap str Z) :=
  let? (depth, st) := deepest_call_depth fuel graph root {| active := ∅; depth_memo := memo |} in
  if max_depth <? sat_add_u32 depth 1
  then reject V2400BudgetExceeded "static call depth exceeds checker budget" [] [max_depth]
  else Ok (depth_memo st).

(** [entry_keys] is [entries.keys()], in key order. *)
Definition validate_call_graph (record : VerifiedLoweringRecord) (entry_keys : list str)
    (blocks_by_id : gmap str LoweringBlock) (max_depth : Z) : CheckResult unit :=
  let? graph := fold_result (call_step blocks_by_id) (∅ : call_map)
    (filter (fun ed => ed_kind ed = KCall) (edges record)) in
  let? _ := fold_result (check_root (length entry_keys) graph max_depth) ∅ entry_keys in
  Ok tt.

(** * The record graph *)

Definition evidence_tiers : list string :=
  ["checked-static"; "checked-runtime"; "trusted-external"; "runtime-helper-required";
   "builder-evidence-required"; "metadata-only"; "chain-evidence-required"]%string.

Definition edge_kind_rank (k : EdgeKind) : Z :=
  match k with
  | KFallthrough => 0 | KJump => 1 | KConditionalTaken => 2 | KConditionalFallthrough => 3
  | KCall => 4
  end.

(** [(&a.from, &a.kind, &a.to) < (&b.from, &b.kind, &b.to)]. *)
Definition edge_lt (a b : LoweringEdge) : bool :=
  match str_compare (ed_from a) (ed_from b) with
  | Lt => true
  | Gt => false
  | Eq =>
      match edge_kind_rank (ed_kind a) ?= edge_kind_rank (ed_kind b) with
      | Lt => true
      | Gt => false
      | Eq => str_ltb (ed_to a) (ed_to b)
      end
  end.

Definition exit_lt (a b : RuntimeErrorExit) : bool :=
  match str_compare (x_block_id a) (x_block_id b) with
  | Lt => true
  | Gt => false
  | Eq => (x_code a <? x_code b) || ((x_code a =? x_code b) && (x_address a <? x_address b))
  end.

Definition check_entry (blocks_by_id : gmap str LoweringBlock) (proofs : gmap str ProofRecord)
    (budgets : CheckerBudgets) (e : LoweringEntry) : CheckResult unit :=
  match blocks_by_id !! entry_block e with
  | None => reject V2405ReferentialIntegrity "entry references missing block"
              [e_id e; entry_block e] []
  | Some b =>
      if negb (str_eqb (owner_entry b) (e_id e))
      then reject V2405ReferentialIntegrity "entry begins in block owned by another"
             [e_id e; owner_entry b] []
      else
        let? _ := validate_entry_abi e budgets in
        if negb (strictly_sorted (e_capabilities e)) || existsb is_empty (e_capabilities e)
           || negb (strictly_sorted (e_proof_ids e))
        then reject V2404CanonicalOrder
               "entry has non-canonical capabilities or ProofPlan links" [e_id e] []
        else
          fold_result (fun _ id =>
              match proofs !! id with
              | None => reject V2408ProofCoverageInvalid "entry references missing proof"
                          [e_id e; id] []
              | Some p =>
                  if negb (str_eqb (pr_entry_id p) (e_id e))
                  then reject V2408ProofCoverageInvalid "proof is not owned by entry"
                         [id; e_id e] []
                  else Ok tt
              end) tt (e_proof_ids e)
  end.

Definition check_proof (entries_by_id : gmap str LoweringEntry) (p : ProofRecord)
  : CheckResult unit :=
  if negb (bool_decide (is_Some (entries_by_id !! pr_entry_id p))) || is_empty (obligation p)
     || negb (existsb (fun t => str_eqb (chars t) (evidence_tier p)) evidence_tiers)
  then reject V2408ProofCoverageInvalid
         "proof has an invalid owner or empty enforcement fields" [pr_id p] []
  else Ok tt.

Definition check_exit (blocks_by_id : gmap str LoweringBlock) (x : RuntimeErrorExit)
  : CheckResult unit :=
  if (x_code x <=? 0) || (255 <? x_code x) || is_empty (x_name x)
     || match blocks_by_id !! x_block_id x with
        | None => true
        | Some b => negb (range_contains (b_range b) (x_address x))
        end
  then reject V2406CfgInvalid "runtime-error exit is outside its declared block"
         [x_name x] [x_code x]
  else Ok tt.

(** One round of the coverage loop; the state is [expected_start]. *)
Definition check_block (entries_by_id : gmap str LoweringEntry) (proofs : gmap str ProofRecord)
    (budgets : CheckerBudgets) (expected_start : Z) (b : LoweringBlock) : CheckResult Z :=
  match entries_by_id !! owner_entry b with
  | None => reject V2405ReferentialIntegrity "block has missing owner" [b_id b; owner_entry b] []
  | Some e =>
      if negb (r_start (b_range b) =? expected_start) || range_is_empty (b_range b)
         || negb (r_start (b_range b) mod 4 =? 0) || negb (r_end (b_range b) mod 4 =? 0)
      then reject V2406CfgInvalid "block does not form aligned contiguous text coverage"
             [b_id b] []
      else
        let? _ := validate_block_abi b e proofs budgets in
        Ok (r_end (b_range b))
  end.

Definition check_edge (blocks_by_id : gmap str LoweringBlock) (ed : LoweringEdge)
  : CheckResult unit :=
  if negb (bool_decide (is_Some (blocks_by_id !! ed_from ed)))
     || negb (bool_decide (is_Some (blocks_by_id !! ed_to ed)))
  then reject V2405ReferentialIntegrity "edge references a missing block"
         [ed_from ed; ed_to ed] []
  else Ok tt.

Definition validate_record_graph (record : VerifiedLoweringRecord) (budgets : CheckerBudgets)
  : CheckResult unit :=
  if is_empty (entries record) || is_empty (blocks record)
     || range_is_empty (vr_text_range record)
  then reject V2405ReferentialIntegrity
         "lowering record requires at least one entry, one block, and a non-empty text range" [] []
  else
  let? _ := ensure_sorted_unique e_id (entries record) "entry" in
  let? _ := ensure_sorted_unique b_id (blocks record) "block" in
  let? _ := ensure_sorted_unique pr_id (proof_records record) "proof" in
  if negb (windows_all edge_lt (edges record))
  then reject V2404CanonicalOrder "lowering edges are not strictly sorted and unique" [] []
  else
  let entries_by_id := collect_by e_id (entries record) in
  let blocks_by_id := collect_by b_id (blocks record) in
  let proofs := collect_by pr_id (proof_records record) in
  let? _ := fold_result (fun _ e => check_entry blocks_by_id proofs budgets e) tt
    (entries record) in
  let? _ := fold_result (fun _ p => check_proof entries_by_id p) tt (proof_records record) in
  if negb (windows_all exit_lt (runtime_error_exits record))
  then reject V2404CanonicalOrder "runtime-error exits are not strictly sorted and unique" [] []
  else
  let? _ := fold_result (fun _ x => check_exit blocks_by_id x) tt (runtime_error_exits record) in
  let? expected_start := fold_result (check_block entries_by_id proofs budgets)
    (r_start (vr_text_range record)) (blocks record) in
  if negb (expected_start =? r_end (vr_text_range record))
  then reject V2406CfgInvalid "lowering blocks do not cover the declared text range exactly" [] []
  else
  let? _ := fold_result (fun _ ed => check_edge blocks_by_id ed) tt (edges record) in
  let outgoing := group_by ed_from (edges record) in
  let? _ := fold_result
    (fun _ b => validate_terminator_edges b (default [] (outgoing !! b_id b))) tt
    (blocks record) in
  let? _ := validate_reachability record outgoing in
  validate_call_graph record (btree_order (elements (dom entries_by_id))) blocks_by_id
    (l_call_depth (budget budgets)).
