(* ===== verification/RecordFacts.v ===== *)
(** What an accepted lowering record guarantees: the worklist of [validate_reachability]
    computes graph reachability, [validate_call_graph] bounds every chain of calls between
    different entries, the blocks cover the text, stack slots are disjoint, and no step of the validation panics. *)

From Stdlib Require Import ZArith Lia String.
From stdpp Require Import base numbers list option tactics gmap sorting relations.
From S2P Require Import Prelude RustStr ElfChecker Record RecordGraph.

Open Scope Z_scope.

(** * Loops over checks *)

(** A [for] loop of checks succeeds when every check does. *)
Lemma fold_unit_ok {E A} (f : A -> result E unit) l :
  fold_result (fun _ x => f x) tt l = Ok tt <-> Forall (fun x => f x = Ok tt) l.
Proof.
  induction l as [|x l IH]; simpl; [by split|]. destruct (f x) as [[]|e] eqn:Ex.
  - rewrite IH. split; [by constructor|by inversion 1].
  - split; [done|]. inversion 1. congruence.
Qed.

Lemma fold_result_panics {S A} (f : S -> A -> CheckResult S) (P : S -> Prop) l s :
  (forall s x, x ∈ l -> P s -> panics (f s x) = false) ->
  (forall s x s', x ∈ l -> P s -> f s x = Ok s' -> P s') ->
  P s -> panics (fold_result f s l) = false.
Proof.
  revert s; induction l as [|x l IH]; intros s Hn Hp Hs; simpl; [done|].
  destruct (f s x) as [s'|e] eqn:Ex.
  - apply IH; [..|by eapply Hp; [apply list_elem_of_here| |]];
      intros; [eapply Hn|eapply Hp]; eauto; by apply list_elem_of_further.
  - rewrite <- (Hn s x); [by rewrite Ex|by apply list_elem_of_here|done].
Qed.

Lemma fold_unit_panics {A} (f : A -> CheckResult unit) l :
  (forall x, x ∈ l -> panics (f x) = false) -> panics (fold_result (fun _ x => f x) tt l) = false.
Proof. intros Hf. apply (fold_result_panics _ (fun _ => True)); auto. Qed.

(** * Edges of a record *)

Section Edges.
Context (es : list LoweringEdge).

Definition edge (x y : str) : Prop := exists ed, ed ∈ es /\ ed_from ed = x /\ ed_to ed = y.

Lemma edge_outgoing x y :
  edge x y <-> y ∈ ed_to <$> default [] (group_by ed_from es !! x).
Proof.
  rewrite group_by_lookup, list_elem_of_fmap. split.
  - intros (ed & Hin & Hx & Hy). exists ed. rewrite list_elem_of_filter. done.
  - intros (ed & Hy & [Hx Hin]%list_elem_of_filter). by exists ed.
Qed.

(** Edges that leave a block not yet entered: what the worklist can still push. *)
Definition open_edges (seen : gset str) : nat :=
  length (filter (fun ed => ed_from ed ∉ seen) es).

Lemma open_edges_enter seen x :
  x ∉ seen ->
  open_edges seen = (length (default [] (group_by ed_from es !! x)) + open_edges ({[x]} ∪ seen))%nat.
Proof.
  intros Hx. rewrite group_by_lookup. unfold open_edges.
  induction es as [|ed l IH]; [done|]. rewrite !filter_cons.
  destruct (decide (ed_from ed = x)) as [E|E].
  - rewrite decide_True by congruence. rewrite decide_False by set_solver. simpl. lia.
  - destruct (decide (ed_from ed ∈ seen)).
    + rewrite decide_False by tauto. rewrite decide_False by set_solver. lia.
    + rewrite decide_True by done. rewrite decide_True by set_solver. simpl. lia.
Qed.

Lemma open_edges_le seen : (open_edges seen <= length es)%nat.
Proof. apply length_filter. Qed.
End Edges.

(** * Reachability *)

Section Reach.
Context (es : list LoweringEdge) (roots : list str).
Local Abbreviation outgoing := (group_by ed_from es).

Definition from_root (y : str) : Prop := exists r, r ∈ roots /\ rtc (edge es) r y.

(** Everything listed is reachable, the roots are listed, and what leaves an entered block
    is listed. *)
Definition reach_inv (seen : gset str) (pending : list str) : Prop :=
  (forall x, x ∈ seen \/ x ∈ pending -> from_root x) /\
  (forall r, r ∈ roots -> r ∈ seen \/ r ∈ pending) /\
  (forall x y, x ∈ seen -> edge es x y -> y ∈ seen \/ y ∈ pending).

Lemma reach_inv_skip seen x pending :
  x ∈ seen -> reach_inv seen (x :: pending) -> reach_inv seen pending.
Proof.
  intros Hx (H1 & H2 & H3). split_and!.
  - set_solver.
  - intros r Hr. destruct (H2 r Hr) as [?|[-> |?]%elem_of_cons]; auto.
  - intros y z Hy Hz. destruct (H3 y z Hy Hz) as [?|[-> |?]%elem_of_cons]; auto.
Qed.

Lemma reach_inv_enter seen x pending :
  reach_inv seen (x :: pending) ->
  reach_inv ({[x]} ∪ seen) (rev (ed_to <$> default [] (outgoing !! x)) ++ pending).
Proof.
  intros (H1 & H2 & H3).
  assert (forall y, y ∈ rev (ed_to <$> default [] (outgoing !! x)) <-> edge es x y) as Ho.
  { intros y. rewrite edge_outgoing, !list_elem_of_In. symmetry. apply in_rev. }
  split_and!.
  - intros y. rewrite elem_of_union, elem_of_singleton, elem_of_app, Ho.
    intros [[-> |Hy]|[Hy|Hy]]; [set_solver..| |set_solver].
    destruct (H1 x) as (r & Hr & Hrx); [set_solver|]. exists r. split; [done|].
    by eapply rtc_r.
  - intros r Hr. rewrite elem_of_union, elem_of_singleton, elem_of_app.
    destruct (H2 r Hr) as [?|[-> |?]%elem_of_cons]; auto.
  - intros y z. rewrite !elem_of_union, !elem_of_singleton, elem_of_app, Ho.
    intros [-> |Hy] Hz; [auto|]. destruct (H3 y z Hy Hz) as [?|[-> |?]%elem_of_cons]; auto.
Qed.

Lemma reach_inv_done seen : reach_inv seen [] -> forall y, y ∈ seen <-> from_root y.
Proof.
  intros (H1 & H2 & H3) y. split; [auto|]. intros (r & Hr & Hy).
  assert (r ∈ seen) as Hs by (destruct (H2 r Hr) as [?|?%elem_of_nil]; done).
  clear Hr. induction Hy as [|x z y Hxz _ IH]; [done|]. apply IH.
  destruct (H3 x z Hs Hxz) as [?|?%elem_of_nil]; done.
Qed.

Lemma reach_loop_spec fuel seen pending :
  reach_inv seen pending -> (length pending + open_edges es seen <= fuel)%nat ->
  exists seen', reach_loop fuel outgoing seen pending = Some seen' /\
    forall y, y ∈ seen' <-> from_root y.
Proof.
  revert seen pending. induction fuel as [|fuel IH]; intros seen [|x pending] Hinv Hf;
    [by exists seen; split; [|apply reach_inv_done]|simpl in Hf; lia
    |by exists seen; split; [|apply reach_inv_done]|].
  cbn [reach_loop]. cbn [length] in Hf. case_decide as Hx.
  - apply IH; [by apply reach_inv_skip in Hinv|lia].
  - apply IH; [by apply reach_inv_enter|].
    rewrite length_app, length_rev, length_fmap. pose proof (open_edges_enter es seen x Hx). lia.
Qed.

Lemma reach_inv_start : reach_inv ∅ (rev roots).
Proof.
  assert (forall x, x ∈ rev roots <-> x ∈ roots) as Hr
    by (intros x; rewrite !list_elem_of_In; symmetry; apply in_rev).
  split_and!.
  - intros x [?%elem_of_empty|Hx%Hr]; [done|]. by exists x.
  - intros r Hx%Hr. by right.
  - by intros x y ?%elem_of_empty.
Qed.
End Reach.

Abbreviation entry_blocks record := (entry_block <$> entries record).

(** The loop ends within its fuel and collects the blocks reachable from the entries. *)
Lemma reach_loop_record record :
  exists seen, reach_loop (reach_fuel record) (group_by ed_from (edges record)) ∅
                 (rev (entry_blocks record)) = Some seen /\
    forall y, y ∈ seen <-> from_root (edges record) (entry_blocks record) y.
Proof.
  apply reach_loop_spec; [apply reach_inv_start|].
  rewrite length_rev, length_fmap. unfold reach_fuel.
  pose proof (open_edges_le (edges record) ∅). lia.
Qed.

Lemma validate_reachability_ok record :
  validate_reachability record (group_by ed_from (edges record)) = Ok tt <->
  forall b, b ∈ blocks record ->
    (reachable b = true <-> from_root (edges record) (entry_blocks record) (b_id b)).
Proof.
  unfold validate_reachability. destruct (reach_loop_record record) as (seen & -> & Hseen).
  assert (forall b, negb (eqb (reachable b) (bool_decide (b_id b ∈ seen))) = false <->
            (reachable b = true <-> from_root (edges record) (entry_blocks record) (b_id b))) as Hb.
  { intros b. rewrite <- Hseen, negb_false_iff, eqb_true_iff.
    case_bool_decide; destruct (reachable b); naive_solver. }
  destruct (List.find _ _) as [b|] eqn:E.
  - apply find_elem in E as [Hin Hf]. split; [done|]. intros Ha. apply Ha, Hb in Hin. congruence.
  - split; [|done]. intros _ b Hin. apply Hb. apply list_elem_of_In in Hin.
    exact (List.find_none _ _ E b Hin).
Qed.

Lemma validate_reachability_panics record :
  panics (validate_reachability record (group_by ed_from (edges record))) = false.
Proof.
  unfold validate_reachability. destruct (reach_loop_record record) as (seen & -> & _).
  by destruct (List.find _ _).
Qed.

(** * Call graph *)

Definition capped (n : nat) : Z := Z.min (Z.of_nat n) U32_MAX.

Lemma capped_S n : sat_add_u32 (capped n) 1 = capped (S n).
Proof. unfold sat_add_u32, capped, U32_MAX. lia. Qed.

Lemma capped_lt max n : max < U32_MAX -> (max <? capped n) = (max <? Z.of_nat n).
Proof. unfold capped, U32_MAX. lia. Qed.

Section CallDepth.
Context (graph : call_map) (K : gset str).

Definition callee (x y : str) : Prop := y ∈ default (∅ : gset str) (graph !! x).

Hypothesis callees_known : forall x y, callee x y -> y ∈ K.

(** The longest chain of calls from an entry. *)
Definition height (x : str) (d : nat) : Prop :=
  (forall n y, nsteps callee n x y -> (n <= d)%nat) /\ exists y, nsteps callee d x y.

Definition memo_ok (memo : gmap str Z) : Prop :=
  forall x v, memo !! x = Some v -> exists d, height x d /\ v = capped d.

Definition cyclic_below (x : str) : Prop := exists z, rtc callee x z /\ tc callee z z.

Definition depth_post (current : str) (st : CallState) (r : CheckResult (Z * CallState)) : Prop :=
  match r with
  | Ok (v, st') => active st' = active st /\ memo_ok (depth_memo st') /\
                   exists d, height current d /\ v = capped d
  | Err e => ck_message e <> CPanic /\ cyclic_below current
  end.

(** What the loop over the callees has established after the ones in [done]. *)
Definition children_inv (act : gset str) (done : list str) (acc : Z * CallState) : Prop :=
  active (snd acc) = act /\ memo_ok (depth_memo (snd acc)) /\
  exists D, fst acc = capped D /\
    (forall c, c ∈ done -> exists h, height c h /\ (S h <= D)%nat) /\
    (D = O \/ exists c h, c ∈ done /\ height c h /\ D = S h).

Lemma height_step current D (children : list str) :
  (forall c, c ∈ children <-> callee current c) ->
  (forall c, c ∈ children -> exists h, height c h /\ (S h <= D)%nat) ->
  (D = O \/ exists c h, c ∈ children /\ height c h /\ D = S h) ->
  height current D.
Proof.
  intros Hc Hle Hmax. split.
  - intros n y Hn. inversion Hn as [|n' ? c ? Hcc Hn']; subst; [lia|].
    destruct (Hle c) as (h & [Hh _] & Hd); [by apply Hc|]. specialize (Hh _ _ Hn'). lia.
  - destruct Hmax as [-> |(c & h & Hin & [_ [y Hy]] & ->)]; [exists current; constructor|].
    exists y. econstructor; [by apply Hc|done].
Qed.

Lemma children_step act done child v D st' h acc :
  children_inv act done acc -> D = fst acc ->
  active st' = act -> memo_ok (depth_memo st') -> height child h -> v = capped h ->
  children_inv act (done ++ [child]) (Z.max D (sat_add_u32 v 1), st').
Proof.
  intros (_ & _ & D' & Hd & Hle & Hmax) -> Ha Hm Hh ->. split_and!; [done..|].
  exists (Nat.max D' (S h)). rewrite Hd, capped_S. split_and!.
  - simpl. unfold capped. lia.
  - intros c [Hc| ->%list_elem_of_singleton]%elem_of_app; [|exists h; split; [done|lia]].
    destruct (Hle c Hc) as (h' & ? & ?). exists h'. split; [done|lia].
  - right. destruct (Nat.max_spec D' (S h)) as [[Hlt ->]|[Hge ->]].
    + exists child, h. set_solver.
    + destruct Hmax as [-> |(c & h' & Hin & Hh' & ->)]; [lia|]. exists c, h'. set_solver.
Qed.

Lemma children_loop fuel act done children acc current :
  (forall c, c ∈ children -> callee current c) ->
  (forall c st, c ∈ children -> active st = act -> memo_ok (depth_memo st) ->
     depth_post c st (deepest_call_depth fuel graph c st)) ->
  children_inv act done acc ->
  match fold_result (fun (acc : Z * CallState) (child : str) =>
            let (deepest, st) := acc in
            let? (child_depth, st') := deepest_call_depth fuel graph child st in
            Ok (Z.max deepest (sat_add_u32 child_depth 1), st')) acc children with
  | Ok acc' => children_inv act (done ++ children) acc'
  | Err e => ck_message e <> CPanic /\ cyclic_below current
  end.
Proof.
  revert done acc. induction children as [|c children IH]; intros done [D st] Hc Hpost Hinv.
  { simpl. by rewrite app_nil_r. }
  pose proof Hinv as (Ha & Hm & _). cbn [fold_result].
  specialize (Hpost c st (list_elem_of_here _ _) Ha Hm) as Hp. unfold depth_post in Hp.
  destruct (deepest_call_depth fuel graph c st) as [[v st']|e].
  - destruct Hp as (Ha' & Hm' & h & Hh & Hv).
    specialize (IH (done ++ [c]) (Z.max D (sat_add_u32 v 1), st')).
    rewrite <- (assoc_L (++)) in IH. apply IH.
    + intros c' ?. apply Hc. by apply list_elem_of_further.
    + intros c' st'' ?. apply Hpost. by apply list_elem_of_further.
    + eapply children_step; [exact Hinv|done|by rewrite Ha'|done..].
  - destruct Hp as (Hp & z & Hz & Hcyc). split; [done|]. exists z. split; [|done].
    eapply rtc_l; [apply Hc; by apply list_elem_of_here|done].
Qed.

Lemma deepest_call_depth_spec fuel : forall current st,
  memo_ok (depth_memo st) -> (forall a, a ∈ active st -> tc callee a current) ->
  active st ⊆ K -> current ∈ K -> (size K <= fuel + size (active st))%nat ->
  depth_post current st (deepest_call_depth fuel graph current st).
Proof using callees_known.
  induction fuel as [|fuel IH]; intros current st Hmemo Hact Hsub Hcur Hfuel;
    cbn [deepest_call_depth]; destruct (depth_memo st !! current) as [v|] eqn:Em;
    try (by destruct (Hmemo _ _ Em) as (d & ? & ?); split_and!; eauto);
    case_decide as Hin;
    try (by split; [done|exists current; split; [constructor|by apply Hact]]).
  - exfalso. apply Hin. rewrite (set_subseteq_size_eq (active st) K) by (done || lia). done.
  - set (st1 := {| active := {[current]} ∪ active st; depth_memo := depth_memo st |}).
    set (children := btree_order _).
    assert (forall c, c ∈ children <-> callee current c) as Hc.
    { intros c. unfold children. by rewrite elem_of_btree_order, elem_of_elements. }
    opose proof (children_loop fuel (active st1) [] children (0, st1) current _ _ _) as Hloop.
    { intros c. apply Hc. }
    { intros c st' Hin' Ha' Hm'. apply Hc in Hin'.
      apply IH; [done|..|by eapply callees_known|]; rewrite Ha'.
      - intros a [->%elem_of_singleton|?]%elem_of_union; [by apply tc_once|].
        eapply tc_r; [by apply Hact|done].
      - set_solver.
      - simpl. rewrite size_union, size_singleton by set_solver. lia. }
    { split_and!; [done..|]. exists O. split_and!; [done|by intros c ?%elem_of_nil|by left]. }
    destruct (fold_result _ _ _) as [[D st2]|e]; [|exact Hloop].
    destruct Hloop as (Ha & Hm & D' & Hd & Hle & Hmax). simpl in *.
    assert (height current D') by (by eapply height_step).
    split_and!; [rewrite Ha; set_solver| |by eauto].
    intros x v [[<- <-]|[Hne Hx]]%lookup_insert_Some; [eauto|by apply Hm].
Qed.
End CallDepth.

(** One entry calls another, or itself, when a call edge joins their blocks. *)
Definition call_of (bm : gmap str LoweringBlock) (ed : LoweringEdge) (x y : str) : Prop :=
  exists bf bt, bm !! ed_from ed = Some bf /\ bm !! ed_to ed = Some bt /\
    owner_entry bf = x /\ owner_entry bt = y.

Definition calls (record : VerifiedLoweringRecord) (x y : str) : Prop :=
  exists ed, ed ∈ edges record /\ ed_kind ed = KCall /\
    call_of (collect_by b_id (blocks record)) ed x y.

(** A call from one entry to another. *)
Definition cross_calls (record : VerifiedLoweringRecord) (x y : str) : Prop :=
  calls record x y /\ x <> y.

Lemma call_step_callee bm g ed g' :
  call_step bm g ed = Ok g' ->
  forall x y, callee g' x y <-> callee g x y \/ (call_of bm ed x y /\ x <> y).
Proof.
  unfold call_step, callee, call_of. intros H x y.
  destruct (bm !! ed_from ed) as [bf|]; [|done]. destruct (bm !! ed_to ed) as [bt|]; [|done].
  case_decide as Ho; apply Ok_inj in H as <-.
  - split; [by left|]. intros [?|((? & ? & [= <-] & [= <-] & ? & ?) & ?)]; [done|naive_solver].
  - destruct (decide (owner_entry bf = x)) as [<-|Hne].
    + rewrite lookup_insert_eq. simpl. rewrite elem_of_union, elem_of_singleton. naive_solver.
    + rewrite lookup_insert_ne by done. naive_solver.
Qed.

Lemma call_fold_callee bm l : forall g g',
  fold_result (call_step bm) g l = Ok g' ->
  forall x y, callee g' x y <-> callee g x y \/ exists ed, ed ∈ l /\ call_of bm ed x y /\ x <> y.
Proof.
  induction l as [|ed l IH]; intros g g'; simpl.
  - intros [= ->] x y. set_solver.
  - destruct (call_step bm g ed) as [g1|] eqn:E; [|done]. intros H x y.
    rewrite (IH _ _ H), (call_step_callee _ _ _ _ E). set_solver.
Qed.

Lemma cyclic_unbounded g x n : cyclic_below g x -> exists y, nsteps (callee g) n x y.
Proof.
  intros (z & Hxz & Hz).
  assert (forall m, exists y, nsteps (callee g) m z y) as Hm.
  { induction m as [|m [y Hy]]; [exists z; constructor|].
    apply tc_nsteps in Hz as (k & Hk & Hz).
    assert (nsteps (callee g) (k + m) z y) as Hkm by (by eapply nsteps_trans).
    replace (k + m)%nat with (S m + (k - 1))%nat in Hkm by lia.
    apply nsteps_add_inv in Hkm as (w & Hw & _). by exists w. }
  clear Hz. revert n. induction Hxz as [|x w z Hxw _ IH]; [done|]. intros [|n]; [exists x; constructor|].
  destruct (IH Hm n) as [y Hy]. exists y. by econstructor.
Qed.

(** The verdict on chains of calls, for a depth limit below [u32::MAX]; a failure is never a
    panic. *)
Definition chains_post {A} (R : str -> str -> Prop) (max : Z) (roots : list str)
    (r : CheckResult A) : Prop :=
  match r with
  | Ok _ => max < U32_MAX ->
            forall r n y, r ∈ roots -> nsteps R n r y -> Z.of_nat n + 1 <= max
  | Err e => ck_message e <> CPanic /\
             (max < U32_MAX ->
              exists r n y, r ∈ roots /\ nsteps R n r y /\ max < Z.of_nat n + 1)
  end.

Section Roots.
Context (g : call_map) (K : gset str) (fuel : nat) (max : Z).
Hypothesis callees_known : forall x y, callee g x y -> y ∈ K.
Hypothesis fuel_enough : (size K <= fuel)%nat.

Lemma check_root_spec memo root :
  root ∈ K -> memo_ok g memo ->
  chains_post (callee g) max [root] (check_root fuel g max memo root) /\
  (forall memo', check_root fuel g max memo root = Ok memo' -> memo_ok g memo').
Proof using callees_known fuel_enough.
  intros Hr Hm. unfold check_root.
  opose proof (deepest_call_depth_spec g K callees_known fuel root
    {| active := ∅; depth_memo := memo |} Hm _ _ Hr _) as Hp;
    [set_solver..|cbn [active]; pose proof fuel_enough; lia|].
  destruct (deepest_call_depth _ _ _ _) as [[v st]|e].
  - destruct Hp as (_ & Hm' & d & [Hle [y Hy]] & ->). rewrite capped_S.
    destruct (max <? capped (S d)) eqn:E; (split; [|by intros ? [= <-]]).
    + split; [done|]. intros Hmax. rewrite capped_lt, Z.ltb_lt in E by done. exists root, d, y.
      split_and!; [set_solver|done|lia].
    + intros Hmax r n z ->%list_elem_of_singleton Hn. rewrite capped_lt, Z.ltb_ge in E by done.
      specialize (Hle _ _ Hn). lia.
  - destruct Hp as [Hp Hc]. split; [|done]. split; [done|]. intros _.
    destruct (cyclic_unbounded g root (Z.to_nat (Z.abs max)) Hc) as [y Hy].
    exists root, (Z.to_nat (Z.abs max)), y. split_and!; [set_solver|done|lia].
Qed.

Lemma check_roots_spec roots : forall memo,
  (forall r, r ∈ roots -> r ∈ K) -> memo_ok g memo ->
  chains_post (callee g) max roots (fold_result (check_root fuel g max) memo roots).
Proof using callees_known fuel_enough.
  induction roots as [|r roots IH]; intros memo Hr Hm; [by intros _ ??? ?%elem_of_nil|].
  cbn [fold_result].
  destruct (check_root_spec memo r) as [Hroot Hm']; [apply Hr; by apply list_elem_of_here|done|].
  assert (forall r', r' ∈ roots -> r' ∈ K) as Hr' by (intros; apply Hr; by apply list_elem_of_further).
  destruct (check_root fuel g max memo r) as [memo'|e]; unfold chains_post in *.
  - specialize (IH memo' Hr' (Hm' _ eq_refl)). destruct (fold_result _ _ _).
    + intros Hmax r' n y [-> |Hin]%elem_of_cons; [apply Hroot; [done|set_solver]|by apply IH].
    + destruct IH as [Hp Hex]. split; [done|]. intros Hmax. destruct (Hex Hmax) as (r' & n & y & ?).
      exists r', n, y. set_solver.
  - destruct Hroot as [Hp Hex]. split; [done|]. intros Hmax. destruct (Hex Hmax) as (r' & n & y & ?).
    exists r', n, y. set_solver.
Qed.
End Roots.

(** The blocks a call edge names exist and belong to entries. *)
Definition owned_edges (record : VerifiedLoweringRecord) (keys : list str) : Prop :=
  forall ed x, ed ∈ edges record -> x ∈ [ed_from ed; ed_to ed] ->
    exists b, collect_by b_id (blocks record) !! x = Some b /\ owner_entry b ∈ keys.

Lemma call_fold_ok record keys l g :
  owned_edges record keys -> l ⊆ edges record ->
  exists g', fold_result (call_step (collect_by b_id (blocks record))) g l = Ok g'.
Proof.
  intros Ho. revert g; induction l as [|ed l IH]; intros g Hl; simpl; [by exists g|].
  unfold call_step at 1.
  destruct (Ho ed (ed_from ed)) as (bf & -> & _); [set_solver..|].
  destruct (Ho ed (ed_to ed)) as (bt & -> & _); [set_solver..|].
  case_decide; apply IH; set_solver.
Qed.

Lemma size_list_to_set_le (l : list str) : (size (list_to_set l : gset str) <= length l)%nat.
Proof.
  induction l as [|x l IH]; [by rewrite list_to_set_nil, size_empty|].
  rewrite list_to_set_cons, size_union_alt, size_singleton. cbn [length].
  assert (size ((list_to_set l : gset str) ∖ {[x]}) <= size (list_to_set l : gset str))%nat
    by (apply subseteq_size; set_solver). lia.
Qed.

Lemma call_graph_spec record keys max :
  owned_edges record keys ->
  chains_post (cross_calls record) max keys
    (validate_call_graph record keys (collect_by b_id (blocks record)) max).
Proof.
  intros Ho. unfold validate_call_graph.
  destruct (call_fold_ok record keys (filter (fun ed => ed_kind ed = KCall) (edges record)) ∅)
    as [g Hg]; [done|by intros x [_ ?]%list_elem_of_filter|]. rewrite Hg.
  assert (forall x y, callee g x y <-> cross_calls record x y) as Hcalls.
  { intros x y. rewrite (call_fold_callee _ _ _ _ Hg). unfold callee, cross_calls, calls.
    rewrite lookup_empty. setoid_rewrite list_elem_of_filter. simpl. set_solver. }
  assert (forall n x y, nsteps (callee g) n x y <-> nsteps (cross_calls record) n x y) as Hn.
  { intros n x y. split; apply nsteps_congruence with (f := id); intros ??; apply Hcalls. }
  opose proof (check_roots_spec g (list_to_set keys) (length keys) max _ _ keys ∅ _ _) as Hspec.
  { intros x z ((ed & Hed & _ & bf & bt & _ & Hbt & _ & <-) & _)%Hcalls.
    destruct (Ho ed (ed_to ed)) as (b & Hb & Hin); [set_solver..|]. set_solver. }
  { apply size_list_to_set_le. }
  { set_solver. }
  { by intros ??. }
  destruct (fold_result _ _ keys) as [m|e]; unfold chains_post in *.
  - intros Hmax r n y. rewrite <- Hn. by apply Hspec.
  - setoid_rewrite <- Hn. exact Hspec.
Qed.

(** * Panics *)

Lemma bind_panics {A B} (r : CheckResult A) (k : A -> CheckResult B) :
  panics r = false -> (forall a, r = Ok a -> panics (k a) = false) ->
  panics (match r with Ok a => k a | Err e => Err e end) = false.
Proof. destruct r as [a|[? []]]; simpl; auto. Qed.

(** [no_panic]: walk through a check whose every exit is [Ok] or a rejection. *)
Ltac no_panic :=
  repeat first
    [ done
    | match goal with
      | |- panics (match ?r with Ok _ => _ | Err e => Err e end) = false =>
          apply bind_panics; [|intros ? ?]
      | |- panics (fold_result _ tt _) = false => apply fold_unit_panics; intros ? ?
      | |- panics (if ?b then _ else _) = false => destruct b
      | |- panics (match ?x with _ => _ end) = false => destruct x
      end ].

Lemma check_entry_panics bm pm budgets e : panics (check_entry bm pm budgets e) = false.
Proof.
  unfold check_entry, validate_entry_abi. no_panic.
  apply (fold_result_panics _ (fun _ => True)); [|done..]. intros s p _ _.
  unfold validate_param. no_panic.
Qed.

Lemma valid_alignment_pos v : valid_alignment v = true -> 0 < v.
Proof. unfold valid_alignment, is_power_of_two. intros [[?%Z.ltb_lt _]%andb_true_iff _]%andb_true_iff. done. Qed.

Lemma check_block_panics em pm budgets start b :
  panics (check_block em pm budgets start b) = false.
Proof.
  unfold check_block, validate_block_abi, check_labels. no_panic.
  apply (fold_result_panics _ (fun _ => True)); [|done..]. intros s p _ _.
  unfold validate_slot. cbn zeta.
  destruct (_ || negb (valid_alignment _)) eqn:E; [done|].
  apply orb_false_iff in E as [_ E%negb_false_iff%valid_alignment_pos].
  unfold rem_u32. rewrite (proj2 (Z.eqb_neq _ _)) by lia. no_panic.
Qed.

(** * The record graph *)

(** What the loops of [validate_record_graph] establish. *)
Record record_ok (record : VerifiedLoweringRecord) (budgets : CheckerBudgets) : Prop := {
  ok_entry_ids : NoDup (e_id <$> entries record);
  ok_block_ids : NoDup (b_id <$> blocks record);
  ok_entry_blocks : forall e, e ∈ entries record ->
    exists b, b ∈ blocks record /\ b_id b = entry_block e /\ owner_entry b = e_id e;
  ok_coverage : fold_result
    (check_block (collect_by e_id (entries record)) (collect_by pr_id (proof_records record))
       budgets) (r_start (vr_text_range record)) (blocks record)
    = Ok (r_end (vr_text_range record));
  ok_edge_blocks : forall ed x, ed ∈ edges record -> x ∈ [ed_from ed; ed_to ed] ->
    exists b, b ∈ blocks record /\ b_id b = x;
  ok_terminators : forall b, b ∈ blocks record ->
    validate_terminator_edges b (filter (fun ed => ed_from ed = b_id b) (edges record)) = Ok tt;
  ok_reachability : validate_reachability record (group_by ed_from (edges record)) = Ok tt;
  ok_call_graph : validate_call_graph record
    (btree_order (elements (dom (collect_by e_id (entries record)))))
    (collect_by b_id (blocks record)) (l_call_depth (budget budgets)) = Ok tt
}.

Lemma block_lookup record id :
  NoDup (b_id <$> blocks record) ->
  forall b, collect_by b_id (blocks record) !! id = Some b <-> b ∈ blocks record /\ b_id b = id.
Proof.
  intros Hnd b. split; [apply collect_by_Some|]. intros [Hin <-]. by apply collect_by_elem.
Qed.

Lemma fold_coverage_owner em pm budgets l : forall start stop,
  fold_result (check_block em pm budgets) start l = Ok stop ->
  forall b, b ∈ l -> is_Some (em !! owner_entry b).
Proof.
  induction l as [|b l IH]; intros start stop H b'; [by intros ?%elem_of_nil|]. simpl in H.
  destruct (check_block em pm budgets start b) as [s|] eqn:E; [|done].
  intros [-> |Hin]%elem_of_cons; [|by eapply IH]. unfold check_block in E.
  by destruct (em !! owner_entry b).
Qed.

Lemma entry_keys_elem record k :
  k ∈ btree_order (elements (dom (collect_by e_id (entries record)))) <-> k ∈ e_id <$> entries record.
Proof. by rewrite elem_of_btree_order, elem_of_elements, elem_of_dom, collect_by_is_Some. Qed.

Lemma owned_edges_intro record em pm budgets stop :
  em = collect_by e_id (entries record) ->
  fold_result (check_block em pm budgets) (r_start (vr_text_range record)) (blocks record) = Ok stop ->
  Forall (fun ed => check_edge (collect_by b_id (blocks record)) ed = Ok tt) (edges record) ->
  owned_edges record (btree_order (elements (dom em))).
Proof.
  intros -> Hcov Hedges ed x Hed Hx. rewrite Forall_forall in Hedges. specialize (Hedges ed Hed).
  unfold check_edge in Hedges.
  destruct (bool_decide (is_Some (collect_by b_id (blocks record) !! ed_from ed))) eqn:E1; [|done].
  destruct (bool_decide (is_Some (collect_by b_id (blocks record) !! ed_to ed))) eqn:E2; [|done].
  apply bool_decide_eq_true_1 in E1 as [b1 E1], E2 as [b2 E2].
  assert (forall b, b ∈ blocks record ->
            owner_entry b ∈ btree_order (elements (dom (collect_by e_id (entries record))))) as Ho.
  { intros b Hb. apply entry_keys_elem, collect_by_is_Some. by eapply fold_coverage_owner. }
  apply elem_of_cons in Hx as [-> | ->%list_elem_of_singleton]; [exists b1|exists b2];
    (split; [done|apply Ho; by eapply collect_by_Some]).
Qed.

Lemma check_entry_inv bm pm budgets e :
  check_entry bm pm budgets e = Ok tt ->
  exists b, bm !! entry_block e = Some b /\ owner_entry b = e_id e.
Proof.
  unfold check_entry. destruct (bm !! entry_block e) as [b|]; [|done]. intros H. exists b.
  split; [done|]. apply str_eqb_eq. by destruct (str_eqb _ _).
Qed.

Lemma validate_record_graph_inv record budgets :
  validate_record_graph record budgets = Ok tt -> record_ok record budgets.
Proof.
  unfold validate_record_graph, ensure_sorted_unique. intros H. inv_ok.
  repeat match goal with u : unit |- _ => destruct u end.
  match goal with
  | He : windows_all _ (entries record) = true, Hb : windows_all _ (blocks record) = true,
    Hent : fold_result _ tt (entries record) = Ok tt,
    Hcov : fold_result _ (r_start _) (blocks record) = Ok ?stop,
    Hstop : negb (?stop =? _) = false,
    Hedge : fold_result _ tt (edges record) = Ok tt,
    Hterm : fold_result _ tt (blocks record) = Ok tt |- _ =>
      apply sorted_keys_nodup in He; apply sorted_keys_nodup in Hb;
      apply fold_unit_ok in Hent; apply fold_unit_ok in Hedge; apply fold_unit_ok in Hterm;
      apply negb_false_iff, Z.eqb_eq in Hstop; subst stop;
      pose proof (owned_edges_intro _ _ _ _ _ eq_refl Hcov Hedge) as Hown;
      rewrite Forall_forall in Hent; rewrite Forall_forall in Hterm; constructor; try done
  end.
  - intros e He. edestruct check_entry_inv as (b & Hb & Ho); [by eauto|].
    exists b. apply collect_by_Some in Hb. naive_solver.
  - intros ed x Hed Hx. destruct (Hown ed x Hed Hx) as (b & Hb & _).
    exists b. by apply collect_by_Some in Hb.
  - intros b Hb. rewrite <- group_by_lookup. auto.
Qed.

Lemma record_owned_edges record budgets :
  record_ok record budgets ->
  owned_edges record (btree_order (elements (dom (collect_by e_id (entries record))))).
Proof.
  intros Hok ed x Hed Hx. destruct (ok_edge_blocks _ _ Hok ed x Hed Hx) as (b & Hb & Hid).
  exists b. rewrite block_lookup by apply Hok. split; [done|].
  apply entry_keys_elem, collect_by_is_Some. eapply fold_coverage_owner; [apply Hok|done].
Qed.

(** C23.  Validation of a lowering record is total: on every record, well formed or not, and
    every budget, [validate_record_graph] returns a verdict.  No map index is missing, no slot
    offset is divided by a zero alignment, and the recursion over the call graph stays within
    the number of entries. *)
Theorem record_graph_never_panics record budgets :
  panics (validate_record_graph record budgets) = false.
Proof.
  unfold validate_record_graph, ensure_sorted_unique. no_panic.
  - apply check_entry_panics.
  - unfold check_proof. no_panic.
  - unfold check_exit. no_panic.
  - apply (fold_result_panics _ (fun _ => True)); [|done..]. intros. apply check_block_panics.
  - unfold check_edge. no_panic.
  - unfold validate_terminator_edges. no_panic.
  - apply validate_reachability_panics.
  - match goal with
    | Hcov : fold_result _ (r_start _) _ = Ok _, Hedge : fold_result _ tt (edges record) = Ok ?u |- _ =>
        destruct u; apply fold_unit_ok in Hedge;
        pose proof (owned_edges_intro _ _ _ _ _ eq_refl Hcov Hedge) as Hown
    end.
    pose proof (call_graph_spec record _ (l_call_depth (budget budgets)) Hown) as Hspec.
    destruct (validate_call_graph _ _ _ _) as [|[k m]]; [done|]. destruct Hspec as [Hm _].
    by destruct m; try done; destruct Hm.
Qed.

(** * Text coverage *)

Lemma check_block_inv em pm budgets start b stop :
  check_block em pm budgets start b = Ok stop ->
  r_start (b_range b) = start /\ r_end (b_range b) = stop /\ start <> stop /\
  start mod 4 = 0 /\ stop mod 4 = 0 /\
  exists e, em !! owner_entry b = Some e /\ validate_block_abi b e pm budgets = Ok tt.
Proof.
  unfold check_block. destruct (em !! owner_entry b) as [e|]; [|done]. intros H. inv_ok.
  destruct a. unfold range_is_empty in *. rewrite !orb_false_iff, !negb_false_iff in *.
  destruct_and!. repeat match goal with H : (_ =? _) = _ |- _ => apply Z.eqb_eq in H || apply Z.eqb_neq in H end.
  subst. split_and!; eauto.
Qed.

Section Coverage.
Context (em : gmap str LoweringEntry) (pm : gmap str ProofRecord) (budgets : CheckerBudgets).

Lemma coverage_complete l : forall start stop a,
  fold_result (check_block em pm budgets) start l = Ok stop -> start <= a < stop ->
  exists b, b ∈ l /\ range_contains (b_range b) a = true.
Proof.
  induction l as [|b l IH]; intros start stop a H Ha; simpl in H; [inv_ok; lia|].
  destruct (check_block em pm budgets start b) as [s|] eqn:E; [|done].
  apply check_block_inv in E as (Hs & He & _). unfold range_contains in *.
  destruct (Z.lt_ge_cases a s) as [Hlt|Hge].
  - exists b. split; [apply list_elem_of_here|lia].
  - destruct (IH s stop a) as (b' & ? & ?); [done|lia|]. exists b'. set_solver.
Qed.

(** Ranges that run forwards. *)
Definition forward (b : LoweringBlock) : Prop := r_start (b_range b) <= r_end (b_range b).

Lemma coverage_lower l : forall start stop b,
  fold_result (check_block em pm budgets) start l = Ok stop -> Forall forward l ->
  b ∈ l -> start <= r_start (b_range b).
Proof.
  induction l as [|b l IH]; intros start stop b' H Hf Hin; [by apply elem_of_nil in Hin|].
  simpl in H. destruct (check_block em pm budgets start b) as [s|] eqn:E; [|done].
  apply check_block_inv in E as (Hs & He & _). apply Forall_cons_1 in Hf as [Hb Hf].
  unfold forward in Hb. apply elem_of_cons in Hin as [-> |Hin]; [lia|].
  specialize (IH s stop b' H Hf Hin). lia.
Qed.

(** Contiguous ranges, from an address to an address. *)
Fixpoint chained (start : Z) (ranges : list MachineRange) (stop : Z) : Prop :=
  match ranges with
  | [] => start = stop
  | r :: ranges => r_start r = start /\ chained (r_end r) ranges stop
  end.

Lemma coverage_chained l : forall start stop,
  fold_result (check_block em pm budgets) start l = Ok stop -> chained start (b_range <$> l) stop.
Proof.
  induction l as [|b l IH]; intros start stop H; simpl in H |- *; [by injection H|].
  destruct (check_block em pm budgets start b) as [s|] eqn:E; [|done].
  apply check_block_inv in E as (Hs & He & _). split; [done|]. rewrite He. by apply IH.
Qed.

Lemma coverage_inside l : forall start stop b,
  fold_result (check_block em pm budgets) start l = Ok stop -> Forall forward l ->
  b ∈ l -> start <= r_start (b_range b) /\ r_end (b_range b) <= stop.
Proof.
  intros start stop b H Hf Hin. split; [by eapply coverage_lower|].
  revert start H b Hin. induction l as [|x l IH]; intros start H b Hin; [by apply elem_of_nil in Hin|].
  simpl in H. destruct (check_block em pm budgets start x) as [s|] eqn:E; [|done].
  apply check_block_inv in E as (Hs & He & _). apply Forall_cons_1 in Hf as [Hx Hf].
  apply elem_of_cons in Hin as [-> |Hin]; [|by eapply IH].
  clear IH Hx Hs. rewrite He. clear He. revert s H. induction l as [|y l IH]; intros s H; simpl in H; [injection H as ->; lia|].
  destruct (check_block em pm budgets s y) as [s'|] eqn:E; [|done].
  apply check_block_inv in E as (Hs & He & _). apply Forall_cons_1 in Hf as [Hy Hf]. unfold forward in Hy.
  specialize (IH Hf s' H). lia.
Qed.

Lemma coverage_unique l : forall start stop a b1 b2,
  fold_result (check_block em pm budgets) start l = Ok stop -> Forall forward l ->
  b1 ∈ l -> b2 ∈ l -> range_contains (b_range b1) a = true ->
  range_contains (b_range b2) a = true -> b1 = b2.
Proof.
  induction l as [|b l IH]; intros start stop a b1 b2 H Hf H1 H2; [by apply elem_of_nil in H1|].
  simpl in H. destruct (check_block em pm budgets start b) as [s|] eqn:E; [|done].
  apply check_block_inv in E as (Hs & He & _). apply Forall_cons_1 in Hf as [Hb Hf].
  pose proof (fun b' => coverage_lower l s stop b' H Hf) as Hlow. unfold range_contains.
  apply elem_of_cons in H1 as [-> |H1], H2 as [-> |H2]; intros; [done|..].
  - specialize (Hlow _ H2). lia.
  - specialize (Hlow _ H1). lia.
  - by eapply IH.
Qed.

Lemma coverage_aligned l : forall start stop b,
  fold_result (check_block em pm budgets) start l = Ok stop -> b ∈ l ->
  r_start (b_range b) mod 4 = 0 /\ r_end (b_range b) mod 4 = 0 /\
  r_start (b_range b) <> r_end (b_range b) /\
  exists e, em !! owner_entry b = Some e /\ validate_block_abi b e pm budgets = Ok tt.
Proof.
  induction l as [|b l IH]; intros start stop b' H Hin; [by apply elem_of_nil in Hin|].
  simpl in H. destruct (check_block em pm budgets start b) as [s|] eqn:E; [|done].
  apply elem_of_cons in Hin as [-> |Hin]; [|by eapply IH].
  apply check_block_inv in E as (-> & -> & ? & ? & ? & ?). done.
Qed.
End Coverage.

(** C16.  The blocks of an accepted record cover its text: the first starts where the declared
    text range starts, each other one where its predecessor ends, and the last ends exactly
    where the range ends; so every address of the range lies in a block.  Every block has
    aligned, distinct bounds.  When no range runs backwards (acceptance alone does not exclude
    it, see C31), every block lies inside the text and no address is in two blocks: the blocks
    partition the text. *)
Theorem accepted_blocks_cover record budgets :
  validate_record_graph record budgets = Ok tt ->
  chained (r_start (vr_text_range record)) (b_range <$> blocks record) (r_end (vr_text_range record)) /\
  (forall a, range_contains (vr_text_range record) a = true ->
     exists b, b ∈ blocks record /\ range_contains (b_range b) a = true) /\
  (forall b, b ∈ blocks record -> r_start (b_range b) mod 4 = 0 /\ r_end (b_range b) mod 4 = 0 /\
     r_start (b_range b) <> r_end (b_range b)) /\
  (Forall forward (blocks record) ->
   (forall b, b ∈ blocks record ->
      r_start (vr_text_range record) <= r_start (b_range b) < r_end (b_range b) /\
      r_end (b_range b) <= r_end (vr_text_range record)) /\
   forall a b1 b2, b1 ∈ blocks record -> b2 ∈ blocks record ->
     range_contains (b_range b1) a = true -> range_contains (b_range b2) a = true -> b1 = b2).
Proof.
  intros Hok%validate_record_graph_inv. pose proof (ok_coverage _ _ Hok) as Hcov. split_and!.
  - by eapply coverage_chained.
  - intros a Ha. eapply coverage_complete; [exact Hcov|]. unfold range_contains in Ha. lia.
  - intros b Hb. edestruct coverage_aligned as (? & ? & ? & _); eauto.
  - intros Hf. split; [|intros a b1 b2; by eapply coverage_unique].
    intros b Hb. destruct (coverage_inside _ _ _ _ _ _ _ Hcov Hf Hb) as [H1 H2].
    edestruct coverage_aligned as (_ & _ & Hne & _); [exact Hcov|exact Hb|].
    rewrite Forall_forall in Hf. specialize (Hf b Hb). unfold forward in Hf. lia.
Qed.

(** C15.  Reachability flags are exact: in an accepted record a block is marked reachable
    precisely when a path of declared edges leads to it from the block of some entry. *)
Theorem accepted_reachability record budgets b :
  validate_record_graph record budgets = Ok tt -> b ∈ blocks record ->
  (reachable b = true <->
   exists e, e ∈ entries record /\ rtc (edge (edges record)) (entry_block e) (b_id b)).
Proof.
  intros Hok%validate_record_graph_inv Hb.
  rewrite (proj1 (validate_reachability_ok record) (ok_reachability _ _ Hok) b Hb).
  unfold from_root. split.
  - intros (r & (e & -> & He)%list_elem_of_fmap & Hr). by exists e.
  - intros (e & He & Hr). exists (entry_block e). split; [by apply list_elem_of_fmap_2|done].
Qed.

(** C13.  The call-depth policy is exact on calls between different entries.  For a record whose
    call edges join blocks of entries, the call graph is accepted precisely when every chain of
    calls from an entry to another one visits at most [max] entries; in particular a cycle
    through two or more entries, whose chains are unbounded, is always rejected.  Calls of an
    entry to itself are not part of the graph: see C33. *)
Theorem call_graph_exact record keys max :
  owned_edges record keys -> max < U32_MAX ->
  (validate_call_graph record keys (collect_by b_id (blocks record)) max = Ok tt <->
   forall r n y, r ∈ keys -> nsteps (cross_calls record) n r y -> Z.of_nat n + 1 <= max).
Proof.
  intros Ho Hmax. pose proof (call_graph_spec record keys max Ho) as Hspec.
  destruct (validate_call_graph _ _ _ _) as [[]|e]; simpl in Hspec.
  - split; [|done]. intros _. by apply Hspec.
  - split; [done|]. intros Hall. destruct Hspec as [_ Hex].
    destruct (Hex Hmax) as (r & n & y & Hr & Hn & Hlt). specialize (Hall r n y Hr Hn). lia.
Qed.

(** A call edge within one entry leaves the call graph as it is. *)
Definition with_edges (record : VerifiedLoweringRecord) (es : list LoweringEdge) : VerifiedLoweringRecord :=
  {| artifact_size_bytes := artifact_size_bytes record; exact_entry := exact_entry record;
     vr_text_range := vr_text_range record; entries := entries record; blocks := blocks record;
     edges := es; proof_records := proof_records record; syscall_sites := syscall_sites record;
     runtime_error_exits := runtime_error_exits record;
     verifier_failure_exits := verifier_failure_exits record |}.

Lemma call_fold_self bm l1 ed l2 x g :
  call_of bm ed x x ->
  fold_result (call_step bm) g (l1 ++ ed :: l2) = fold_result (call_step bm) g (l1 ++ l2).
Proof.
  intros (bf & bt & Hf & Ht & Hx & Hy). rewrite !fold_result_app.
  destruct (fold_result (call_step bm) g l1) as [g'|]; [|done]. cbn [fold_result].
  unfold call_step at 1. rewrite Hf, Ht, decide_True by congruence. done.
Qed.

Lemma self_call_ignored record keys max l1 ed l2 x :
  edges record = l1 ++ ed :: l2 -> call_of (collect_by b_id (blocks record)) ed x x ->
  validate_call_graph record keys (collect_by b_id (blocks record)) max
  = validate_call_graph (with_edges record (l1 ++ l2)) keys (collect_by b_id (blocks record)) max.
Proof.
  intros He Hc. unfold validate_call_graph. cbn [edges with_edges]. rewrite He, !filter_app, filter_cons.
  case_decide; [|done]. by rewrite (call_fold_self _ _ _ _ x).
Qed.

(** * Stack slots *)

(** The fields of a slot are [u32]. *)
Definition slot_fields (s : StackSlot) : Prop :=
  0 <= sl_offset s <= U32_MAX /\ 0 <= sl_width_bytes s <= U32_MAX.

Definition slot_placed (b : LoweringBlock) (low : Z) (s : StackSlot) : Prop :=
  low <= sl_offset s /\ 0 < sl_width_bytes s /\
  sl_offset s + sl_width_bytes s <= b_frame_size_bytes b /\
  sl_offset s mod sl_alignment_bytes s = 0.

Lemma validate_slot_inv b low s stop :
  slot_fields s -> b_frame_size_bytes b < U32_MAX -> validate_slot b low s = Ok stop ->
  slot_placed b low s /\ stop = sl_offset s + sl_width_bytes s.
Proof.
  unfold validate_slot, slot_fields, slot_placed, sat_add_u32. intros Hs Hb H.
  destruct (_ || negb (valid_alignment _)) eqn:E1; [done|].
  unfold rem_u32 in H. destruct (sl_alignment_bytes s =? 0); [done|]. cbn iota in H.
  destruct (_ || _ || _) eqn:E2 in H; [done|]. injection H as <-.
  rewrite !orb_false_iff, !negb_false_iff in *. destruct_and!. lia.
Qed.

Lemma slots_placed b l : forall low stop,
  Forall slot_fields l -> b_frame_size_bytes b < U32_MAX ->
  fold_result (validate_slot b) low l = Ok stop ->
  Forall (slot_placed b low) l /\
  forall i j s t, l !! i = Some s -> l !! j = Some t -> (i < j)%nat ->
    sl_offset s + sl_width_bytes s <= sl_offset t.
Proof.
  induction l as [|s l IH]; intros low stop Hf Hb H; [by split; [|intros ????]|].
  simpl in H. destruct (validate_slot b low s) as [mid|] eqn:E; [|done].
  apply Forall_cons_1 in Hf as [Hs Hf].
  apply validate_slot_inv in E as [Hp ->]; [|done..]. destruct (IH _ _ Hf Hb H) as [Hall Hord].
  split.
  - constructor; [done|]. eapply Forall_impl; [exact Hall|].
    unfold slot_placed in *. intros t Ht. lia.
  - intros [|i] [|j] s' t Hi Hj Hij; simpl in *; [lia| |lia|by apply (Hord i j); [..|lia]].
    injection Hi as <-. apply (list_elem_of_lookup_2 l j) in Hj.
    rewrite Forall_forall in Hall. specialize (Hall t Hj). unfold slot_placed in Hall. lia.
Qed.

(** C25.  Stack slots of an accepted block lie in its frame above the outgoing-argument area,
    are aligned, and follow each other without overlap in declaration order. *)
Theorem accepted_slots_disjoint record budgets b :
  validate_record_graph record budgets = Ok tt -> b ∈ blocks record ->
  Forall slot_fields (stack_slots b) -> b_frame_size_bytes b < U32_MAX ->
  Forall (slot_placed b (b_outgoing_argument_bytes b)) (stack_slots b) /\
  forall i j s t, stack_slots b !! i = Some s -> stack_slots b !! j = Some t -> (i < j)%nat ->
    sl_offset s + sl_width_bytes s <= sl_offset t.
Proof.
  intros Hok%validate_record_graph_inv Hb Hf Hframe.
  edestruct coverage_aligned as (_ & _ & _ & e & _ & Habi); [apply Hok|done|].
  unfold validate_block_abi in Habi. inv_ok. by eapply slots_placed.
Qed.

(** * A sample record *)

(** The lowering record of the sample program: two functions in four blocks. *)
Definition sample_block (id owner : string) (reach : bool) (t : MachineTerminator)
    (start stop frame : Z) (slots : list StackSlot) : LoweringBlock :=
  {| b_id := chars id; owner_entry := chars owner; reachable := reach; lowering_block_id := None;
     typed_block_hash := None; machine_label := None; nested_read_labels := [];
     nested_cell_labels := []; nested_output_labels := []; exact_role_labels := [];
     allocated_init_labels := []; allocated_allocation_labels := [];
     allocated_lifecycle_labels := []; cell_view_value_labels := []; terminator := t;
     b_range := {| r_start := start; r_end := stop |}; byte_digest := [];
     b_frame_size_bytes := frame; b_outgoing_argument_bytes := 0; stack_slots := slots;
     scratch_register_avoid := []; b_capabilities := []; b_proof_ids := [] |}.

Definition sample_entry (id name block : string) (kind : EntryKind) (frame : Z) : LoweringEntry :=
  {| e_id := chars id; e_kind := kind; e_name := chars name; entry_block := chars block;
     params := []; return_type := chars "u64"; e_capabilities := []; e_proof_ids := [];
     e_frame_size_bytes := frame; e_outgoing_argument_bytes := 0 |}.

Definition sample_edge (from to : string) (k : EdgeKind) : LoweringEdge :=
  {| ed_from := chars from; ed_to := chars to; ed_kind := k |}.

Definition sample_slot (name : string) (offset : Z) : StackSlot :=
  {| sl_name := chars name; sl_offset := offset; sl_width_bytes := 8; sl_alignment_bytes := 8;
     sl_kind := Scalar |}.

Definition sample_record : VerifiedLoweringRecord :=
  {| artifact_size_bytes := 480; exact_entry := chars "action:main";
     vr_text_range := {| r_start := 65556; r_end := 65596 |};
     entries := [sample_entry "action:main" "main" "b0" Action 16;
                 sample_entry "helper:helper" "helper" "b3" Helper 0];
     blocks :=
       [sample_block "b0" "action:main" true ConditionalBranch 65556 65560 16
          [sample_slot "local" 0; sample_slot "ra" 8];
        sample_block "b1" "action:main" true Fallthrough 65560 65584 16 [];
        sample_block "b2" "action:main" true Return 65584 65588 16 [];
        sample_block "b3" "helper:helper" true Return 65588 65596 0 []];
     edges := [sample_edge "b0" "b2" KConditionalTaken;
               sample_edge "b0" "b1" KConditionalFallthrough;
               sample_edge "b1" "b2" KFallthrough; sample_edge "b1" "b3" KCall];
     proof_records := []; syscall_sites := []; runtime_error_exits := [];
     verifier_failure_exits := [] |}.

Lemma sample_accepted : validate_record_graph sample_record default_budgets = Ok tt.
Proof. vm_compute. reflexivity. Qed.

Lemma accepted_blocks_cover_witness :
  chained 65556 (b_range <$> blocks sample_record) 65596 /\
  (forall b, b ∈ blocks sample_record -> 65556 <= r_start (b_range b) < r_end (b_range b) /\
     r_end (b_range b) <= 65596).
Proof.
  destruct (accepted_blocks_cover sample_record default_budgets sample_accepted) as (Hc & _ & _ & Hf).
  split; [exact Hc|]. apply Hf. repeat constructor; vm_compute; discriminate.
Defined.

Lemma accepted_reachability_witness :
  exists b e, b ∈ blocks sample_record /\ b_id b = chars "b1" /\
    rtc (edge (edges sample_record)) (entry_block e) (b_id b).
Proof.
  assert (sample_block "b1" "action:main" true Fallthrough 65560 65584 16 [] ∈ blocks sample_record)
    as Hb by (apply list_elem_of_further, list_elem_of_here).
  destruct (proj1 (accepted_reachability sample_record default_budgets _ sample_accepted Hb) eq_refl)
    as (e & _ & He).
  eexists _, e. split; [exact Hb|]. split; [reflexivity|exact He].
Defined.

Lemma call_graph_exact_witness :
  validate_call_graph sample_record
    (btree_order (elements (dom (collect_by e_id (entries sample_record)))))
    (collect_by b_id (blocks sample_record)) 2 = Ok tt /\
  (forall r n y, r ∈ btree_order (elements (dom (collect_by e_id (entries sample_record)))) ->
    nsteps (cross_calls sample_record) n r y -> Z.of_nat n + 1 <= 2).
Proof.
  assert (validate_call_graph sample_record
    (btree_order (elements (dom (collect_by e_id (entries sample_record)))))
    (collect_by b_id (blocks sample_record)) 2 = Ok tt) as E by (vm_compute; reflexivity).
  split; [exact E|].
  apply (call_graph_exact sample_record
    (btree_order (elements (dom (collect_by e_id (entries sample_record))))) 2).
  - apply (record_owned_edges sample_record default_budgets).
    apply validate_record_graph_inv, sample_accepted.
  - reflexivity.
  - exact E.
Defined.

Lemma accepted_slots_disjoint_witness :
  sl_offset (sample_slot "local" 0) + sl_width_bytes (sample_slot "local" 0)
  <= sl_offset (sample_slot "ra" 8).
Proof.
  destruct (accepted_slots_disjoint sample_record default_budgets
    (sample_block "b0" "action:main" true ConditionalBranch 65556 65560 16
       [sample_slot "local" 0; sample_slot "ra" 8]) sample_accepted) as [_ Hd].
  - apply list_elem_of_here.
  - repeat constructor; vm_compute; discriminate.
  - reflexivity.
  - apply (Hd 0%nat 1%nat); [reflexivity|reflexivity|lia].
Defined.

(** * Inverted ranges *)

(** Three returning blocks; the range of the second runs backwards. *)
Definition inverted_record : VerifiedLoweringRecord :=
  {| artifact_size_bytes := 480; exact_entry := chars "action:main";
     vr_text_range := {| r_start := 65556; r_end := 65596 |};
     entries := [sample_entry "action:main" "main" "b0" Action 0];
     blocks := [sample_block "b0" "action:main" true Return 65556 65580 0 [];
                sample_block "b1" "action:main" false Return 65580 65560 0 [];
                sample_block "b2" "action:main" false Return 65560 65596 0 []];
     edges := []; proof_records := []; syscall_sites := []; runtime_error_exits := [];
     verifier_failure_exits := [] |}.

(** C31.  Coverage alone does not make the blocks disjoint: an empty range is one whose bounds
    are equal, so a block that runs backwards passes as contiguous, and the record above is
    accepted although two of its blocks contain the same address. *)
Theorem inverted_range_accepted :
  validate_record_graph inverted_record default_budgets = Ok tt /\
  exists b1 b2, b1 ∈ blocks inverted_record /\ b2 ∈ blocks inverted_record /\ b_id b1 <> b_id b2 /\
    range_contains (b_range b1) 65564 = true /\ range_contains (b_range b2) 65564 = true.
Proof.
  split; [vm_compute; reflexivity|].
  exists (sample_block "b0" "action:main" true Return 65556 65580 0 []),
    (sample_block "b2" "action:main" false Return 65560 65596 0 []).
  split; [apply list_elem_of_here|]. split; [do 2 apply list_elem_of_further; apply list_elem_of_here|].
  split; [discriminate|]. split; reflexivity.
Qed.

(** * Direct recursion *)

(** One entry of one block that returns and calls itself. *)
Definition recursive_record : VerifiedLoweringRecord :=
  {| artifact_size_bytes := 480; exact_entry := chars "action:main";
     vr_text_range := {| r_start := 65556; r_end := 65596 |};
     entries := [sample_entry "action:main" "main" "b0" Action 0];
     blocks := [sample_block "b0" "action:main" true Return 65556 65596 0 []];
     edges := [sample_edge "b0" "b0" KCall]; proof_records := []; syscall_sites := [];
     runtime_error_exits := []; verifier_failure_exits := [] |}.

(** C33.  Direct recursion is not rejected: a call edge between two blocks of one entry never
    changes the verdict of the call-graph check, and the whole record validation accepts a
    record whose entry calls itself, so that its call chains are unbounded. *)
Theorem direct_recursion_accepted :
  (forall record keys max l1 ed l2 x,
     edges record = l1 ++ ed :: l2 -> call_of (collect_by b_id (blocks record)) ed x x ->
     validate_call_graph record keys (collect_by b_id (blocks record)) max
     = validate_call_graph (with_edges record (l1 ++ l2)) keys (collect_by b_id (blocks record)) max) /\
  validate_record_graph recursive_record default_budgets = Ok tt /\
  forall n, nsteps (calls recursive_record) n (chars "action:main") (chars "action:main").
Proof.
  split; [exact self_call_ignored|]. split; [vm_compute; reflexivity|].
  assert (calls recursive_record (chars "action:main") (chars "action:main")) as Hc.
  { exists (sample_edge "b0" "b0" KCall). split; [apply list_elem_of_here|]. split; [done|].
    do 2 eexists. split; [vm_compute; reflexivity|]. split; [vm_compute; reflexivity|]. done. }
  induction n as [|n IH]; [constructor|]. by econstructor.
Qed.
