(* ===== verification/ElfStructure.v ===== *)
(** The structural passes that bind a parsed artifact to its lowering record
    (crates/cellscript-artifact-checker/src/checker/elf_structure.rs): start-up code, block
    digests, return-address slots, control flow, terminators, stack discipline and syscall
    sites.  Blake2b is a library and a parameter of the digest pass. *)

From Stdlib Require Import ZArith String.
From stdpp Require Import base numbers list option tactics gmap sorting.
From S2P Require Import Prelude RustStr ElfChecker Isa Record RecordGraph.

Open Scope Z_scope.

Abbreviation elf_instructions elf := (instructions (pe_decoded elf)).
Abbreviation elf_flow elf := (control_flow (pe_decoded elf)).

Definition same (a : str) (b : string) : bool := str_eqb a (chars b).

(** * Lookups *)

Definition flow_targets (elf : ParsedElf) (address target : Z) : bool :=
  existsb (fun f => (cf_address f =? address) && (cf_target f =? target)) (elf_flow elf).

Definition find_instruction (elf : ParsedElf) (address : Z) : option DecodedInstruction :=
  List.find (fun i => di_address i =? address) (elf_instructions elf).

Definition find_entry_id (record : VerifiedLoweringRecord) (id : str) : option LoweringEntry :=
  List.find (fun e => str_eqb (e_id e) id) (entries record).

Definition find_block_id (record : VerifiedLoweringRecord) (id : str) : option LoweringBlock :=
  List.find (fun b => str_eqb (b_id b) id) (blocks record).

(** [record.blocks.iter().find(|block| block.range.contains(address))]. *)
Definition find_block (record : VerifiedLoweringRecord) (address : Z) : option LoweringBlock :=
  List.find (fun b => range_contains (b_range b) address) (blocks record).

(** [policy_machine_error] is the V2420 rejection. *)
Definition entry_start (record : VerifiedLoweringRecord) (id : str) : CheckResult Z :=
  match find_entry_id record id with
  | None => reject V2420TypedMachineBindingInvalid "missing lowering entry" [id] []
  | Some e =>
      match find_block_id record (entry_block e) with
      | None => reject V2420TypedMachineBindingInvalid "missing entry block" [id] []
      | Some b => Ok (r_start (b_range b))
      end
  end.

(** * Binding and start-up *)

Definition startup_message : string :=
  "ELF startup does not enter the checked entry and exit profile".

(** [a.or_else(|| b)]. *)
Definition or_else {A} (a b : option A) : option A :=
  match a with Some x => Some x | None => b end.

Definition selected_entry (record : VerifiedLoweringRecord) : option LoweringEntry :=
  or_else (List.find (fun e => same (e_name e) "_cellscript_entry") (entries record))
          (find_entry_id record (exact_entry record)).

Definition validate_startup (record : VerifiedLoweringRecord) (elf : ParsedElf)
  : CheckResult unit :=
  let invalid := reject V2414ControlFlowInvalid startup_message [] [] in
  if negb (pe_entry elf =? s_address (pe_text elf)) then invalid else
  match checked_add_u64 (pe_entry elf) 20 with
  | None => invalid
  | Some body =>
  if negb (r_start (vr_text_range record) =? body)
     || negb (r_end (vr_text_range record) =? r_end (section_range (pe_text elf)))
  then invalid else
  match elf_instructions elf with
  | w0 :: w1 :: w2 :: w3 :: w4 :: _ =>
      if negb (di_word w2 =? 0x000008b7) || negb (di_word w3 =? 0x05d88893)
         || negb (di_word w4 =? 0x00000073)
      then invalid
      else if (di_word w0 =? 0x00000537) && (di_word w1 =? 0x01950513) then Ok tt
      else if negb (is_auipc (di_word w0) 1) || negb (is_jalr_call (di_word w1)) then invalid
      else
        match selected_entry record with
        | Some e =>
            let? target := entry_start record (e_id e) in
            if negb (flow_targets elf (pe_entry elf + 4) target) then invalid else Ok tt
        | None =>
            if negb (same (exact_entry record) "none") then invalid
            else
              match List.find (fun f => cf_address f =? pe_entry elf + 4) (elf_flow elf) with
              | None => invalid
              | Some flow =>
                  if negb (existsb (fun b => r_start (b_range b) =? cf_target flow)
                             (blocks record))
                  then invalid else Ok tt
              end
        end
  | _ => invalid
  end
  end.

Definition validate_elf_binding (artifact : list Z) (record : VerifiedLoweringRecord)
    (elf : ParsedElf) : CheckResult unit :=
  if negb (contains_range (section_range (pe_text elf)) (vr_text_range record))
  then reject V2412ElfSectionInvalid "record text range is outside ELF .text" [] []
  else if negb (artifact_size_bytes record =? Z.of_nat (length artifact))
          || (r_start (vr_text_range record) <? pe_entry elf)
  then reject V2409ArtifactIdentityMismatch
         "record artifact size/text identity disagrees with ELF" [] []
  else validate_startup record elf.

(** * Block digests *)

Definition hex_digit (d : Z) : Z := if d <? 10 then 48 + d else 87 + d.
Definition hex_encode (bytes : list Z) : str :=
  concat (map (fun b => [hex_digit (Z.shiftr b 4); hex_digit (Z.land b 0xf)]) bytes).

Section Digests.
  (** [ckb_blake2b256], a call of the blake2b_simd library. *)
  Variable ckb_blake2b256 : list Z -> list Z.

Definition domain_hash_bytes (domain : str) (bytes : list Z) : str :=
  hex_encode (ckb_blake2b256 (concat (map encode_utf8 domain) ++ [0] ++ bytes)).

Definition check_block_digest (artifact : list Z) (elf : ParsedElf) (b : LoweringBlock)
  : CheckResult unit :=
  let? bytes := map_err map_elf_error (bytes_for_range elf artifact (b_range b)) in
  if negb (str_eqb (domain_hash_bytes (chars "cellscript-machine-block-v1") bytes)
             (byte_digest b))
  then reject V2415BlockDigestMismatch "machine bytes for block do not match its digest"
         [b_id b] []
  else Ok tt.

Definition validate_block_digests (artifact : list Z) (record : VerifiedLoweringRecord)
    (elf : ParsedElf) : CheckResult unit :=
  fold_result (fun _ b => check_block_digest artifact elf b) tt (blocks record).
End Digests.

(** * Return-address slots *)

(** [(i64::from(value) << 52) >> 52]. *)
Definition sign_extend_12 (value : Z) : Z := Z.shiftr (as_i64 (Z.shiftl value 52)) 52.

(** [true] for a slot whose last writer saved the return address. *)
Abbreviation slot_map := (gmap Z bool).

Definition record_ra_frame_store (slots : slot_map) (offset width : Z) (stores_ra : bool)
  : slot_map :=
  let slots' := map_imap (fun saved valid =>
      Some (if (offset - 7 <=? saved) && (saved <? offset + width) then false else valid)) slots in
  if (width =? 8) && stores_ra then <[offset := true]> slots' else slots'.

(** Slots per base register, [sp] or [fp]. *)
Abbreviation frame_slots := (gmap Z slot_map).

Definition store_offset (word : Z) : Z :=
  sign_extend_12 (Z.lor (Z.shiftl (bits word 25 0x7f) 5) (bits word 7 0x1f)).

Definition slot_step (entry : str) (address word : Z) (slots : frame_slots)
  : CheckResult frame_slots :=
  let opcode := Z.land word 0x7f in
  let funct3 := bits word 12 0x7 in
  let rs1 := bits word 15 0x1f in
  let rs2 := bits word 20 0x1f in
  let rd := bits word 7 0x1f in
  let slots :=
    if (opcode =? 0x23) && (funct3 <=? 3) && one_of rs1 [2; 8] then
      <[rs1 := record_ra_frame_store (default ∅ (slots !! rs1)) (store_offset word)
                 (Z.shiftl 1 funct3) (rs2 =? 1)]> slots
    else slots in
  if (opcode =? 0x03) && (funct3 =? 3) && one_of rs1 [2; 8] && (rd =? 1) then
    let offset := sign_extend_12 (Z.shiftr word 20) in
    match default ∅ (slots !! rs1) !! offset with
    | Some true => Ok slots
    | Some false =>
        reject V2414ControlFlowInvalid
          "ld ra restores frame slot overwritten without a full return-address save"
          [entry] [address; offset]
    | None =>
        reject V2414ControlFlowInvalid "ld ra restores frame slot that the function never saved"
          [entry] [address; offset]
    end
  else Ok slots.

(** The words of a block, from [address] up to its end or the first address that holds no
    instruction; [binary_search_by_key] finds an address of the address-ordered list. *)
Fixpoint block_words (fuel : nat) (elf : ParsedElf) (address stop : Z) : list (Z * Z) :=
  match fuel with
  | O => []
  | S fuel =>
      if address <? stop then
        match find_instruction elf address with
        | None => []
        | Some i => (address, di_word i) :: block_words fuel elf (address + 4) stop
        end
      else []
  end.

(** Every round uses up one decoded instruction. *)
Definition words_of_block (elf : ParsedElf) (b : LoweringBlock) : list (Z * Z) :=
  block_words (length (elf_instructions elf)) elf (r_start (b_range b)) (r_end (b_range b)).

Definition check_entry_slots (elf : ParsedElf) (entry : str) (bs : list LoweringBlock)
  : CheckResult frame_slots :=
  fold_result (fun slots b =>
      fold_result (fun slots aw => slot_step entry (fst aw) (snd aw) slots) slots
        (words_of_block elf b)) ∅ bs.

Definition validate_ra_frame_slots (record : VerifiedLoweringRecord) (elf : ParsedElf)
  : CheckResult unit :=
  let by_entry := group_by owner_entry (blocks record) in
  fold_result (fun _ entry =>
      let? _ := check_entry_slots elf entry (default [] (by_entry !! entry)) in Ok tt) tt
    (btree_order (elements (dom by_entry))).

(** * Control flow *)

Definition check_fallthrough (blocks_by_id : gmap str LoweringBlock) (ed : LoweringEdge)
  : CheckResult unit :=
  match blocks_by_id !! ed_from ed, blocks_by_id !! ed_to ed with
  | Some bf, Some bt =>
      if negb (r_end (b_range bf) =? r_start (b_range bt))
      then reject V2414ControlFlowInvalid
             "declared fallthrough differs from physical instruction order"
             [ed_from ed; ed_to ed] []
      else Ok tt
  | _, _ => panic
  end.

Definition is_fallthrough_kind (k : EdgeKind) : bool :=
  match k with KFallthrough | KConditionalFallthrough => true | _ => false end.

Definition allowed_kinds (k : DecodedControlFlowKind) : list EdgeKind :=
  match k with
  | FlowConditional => [KConditionalTaken; KConditionalFallthrough; KFallthrough]
  | FlowDirect => [KJump; KCall; KConditionalTaken]
  end.

Definition check_flow_edge (record : VerifiedLoweringRecord)
    (blocks_by_id : gmap str LoweringBlock) (flow : DecodedControlFlow) : CheckResult unit :=
  match find_block record (cf_address flow) with
  | None => reject V2414ControlFlowInvalid "instruction is not covered by a lowering block" []
              [cf_address flow]
  | Some from =>
      match find_block record (cf_target flow) with
      | None => reject V2414ControlFlowInvalid "target is outside lowering blocks" []
                  [cf_target flow]
      | Some to =>
          let edge_exists := str_eqb (b_id from) (b_id to)
            || existsb (fun ed => str_eqb (ed_from ed) (b_id from)
                                  && str_eqb (ed_to ed) (b_id to)
                                  && bool_decide (ed_kind ed ∈ allowed_kinds (cf_kind flow)))
                 (edges record) in
          if negb edge_exists || negb (bool_decide (is_Some (blocks_by_id !! b_id to)))
          then reject V2414ControlFlowInvalid "decoded flow is absent from the lowering CFG"
                 [b_id from; b_id to] []
          else Ok tt
      end
  end.

Definition validate_control_flow (record : VerifiedLoweringRecord) (elf : ParsedElf)
  : CheckResult unit :=
  let blocks_by_id := collect_by b_id (blocks record) in
  let? _ := fold_result (fun _ ed => check_fallthrough blocks_by_id ed) tt
    (List.filter (fun ed => is_fallthrough_kind (ed_kind ed)) (edges record)) in
  fold_result (fun _ flow => check_flow_edge record blocks_by_id flow) tt
    (List.filter (fun f => range_contains (vr_text_range record) (cf_address f)) (elf_flow elf)).

Definition words_by_address (elf : ParsedElf) : gmap Z Z :=
  foldl (fun m i => <[di_address i := di_word i]> m) ∅ (elf_instructions elf).

Definition terminator_matches (t : MachineTerminator) (word : Z) : bool :=
  let opcode := Z.land word 0x7f in
  let rd := bits word 7 0x1f in
  match t with
  | Return => word =? 0x00008067
  | Jump => (opcode =? 0x6f) && (rd =? 0)
  | ConditionalBranch => (opcode =? 0x63) || ((opcode =? 0x6f) && (rd =? 0))
  | Fallthrough => negb (word =? 0x00008067) && negb (one_of opcode [0x63; 0x6f])
  end.

Definition check_terminator (words : gmap Z Z) (b : LoweringBlock) : CheckResult unit :=
  match checked_sub_u64 (r_end (b_range b)) 4 with
  | None => reject V2414ControlFlowInvalid "block is too short for a terminator" [b_id b] []
  | Some address =>
      match words !! address with
      | None => reject V2414ControlFlowInvalid
                  "block end does not address a decoded instruction" [b_id b] []
      | Some word =>
          if negb (terminator_matches (terminator b) word)
          then reject V2414ControlFlowInvalid
                 "decoded final instruction of block disagrees with its terminator" [b_id b] []
          else Ok tt
      end
  end.

Definition validate_machine_terminators (record : VerifiedLoweringRecord) (elf : ParsedElf)
  : CheckResult unit :=
  fold_result (fun _ b => check_terminator (words_by_address elf) b) tt (blocks record).

(** * Stack discipline *)

Definition adjust_step (b : LoweringBlock) (delta : Z) (a : StackAdjustment) : CheckResult Z :=
  if negb (Z.rem (sa_delta a) 16 =? 0)
  then reject V2407AbiOrStackInvalid "stack adjustment violates 16-byte alignment" []
         [sa_delta a; sa_address a]
  else
    let delta := delta + sa_delta a in
    if negb (in_range I64_MIN I64_MAX delta)
    then reject V2407AbiOrStackInvalid "stack-pointer delta overflows in block" [b_id b] []
    else if (0 <? delta) || (b_frame_size_bytes b <? Z.abs delta)
    then reject V2407AbiOrStackInvalid "stack-pointer delta exceeds declared frame" [b_id b]
           [delta; b_frame_size_bytes b]
    else Ok delta.

Definition block_adjustments (elf : ParsedElf) (b : LoweringBlock) : list StackAdjustment :=
  List.filter (fun a => range_contains (b_range b) (sa_address a))
    (stack_adjustments (pe_decoded elf)).

Definition edge_delta (delta : Z) (ed : LoweringEdge) : str * Z :=
  (ed_to ed, if decide (ed_kind ed = KCall) then 0 else delta).

(** The body of the loop for a block entered for the first time: the stack-pointer delta at
    its end. *)
Definition enter_block (elf : ParsedElf) (b : LoweringBlock) (incoming : Z) : CheckResult Z :=
  let? delta := fold_result (adjust_step b) incoming (block_adjustments elf b) in
  if bool_decide (terminator b = Return) && negb (delta =? 0)
  then reject V2407AbiOrStackInvalid "return block leaves stack-pointer delta" [b_id b] [delta]
  else Ok delta.

(** The worklist, top of the stack first; the result is the map of incoming deltas. *)
Fixpoint stack_loop (fuel : nat) (elf : ParsedElf) (terminal_sink : option str)
    (blocks_by_id : gmap str LoweringBlock) (outgoing : edge_map)
    (entry_delta : gmap str Z) (pending : list (str * Z)) : CheckResult (gmap str Z) :=
  match fuel, pending with
  | _, [] => Ok entry_delta
  | O, _ => panic
  | S fuel, (id, incoming) :: pending =>
      if bool_decide (terminal_sink = Some id)
      then stack_loop fuel elf terminal_sink blocks_by_id outgoing entry_delta pending
      else
        match entry_delta !! id with
        | Some previous =>
            if negb (previous =? incoming)
            then reject V2407AbiOrStackInvalid "block has inconsistent incoming deltas" [id]
                   [previous; incoming]
            else stack_loop fuel elf terminal_sink blocks_by_id outgoing
                   (<[id := incoming]> entry_delta) pending
        | None =>
            match blocks_by_id !! id with
            | None => panic
            | Some b =>
                let? delta := enter_block elf b incoming in
                stack_loop fuel elf terminal_sink blocks_by_id outgoing
                  (<[id := incoming]> entry_delta)
                  (rev (edge_delta delta <$> default [] (outgoing !! id)) ++ pending)
            end
        end
  end.

Definition validate_stack_discipline (record : VerifiedLoweringRecord) (elf : ParsedElf)
    (terminal_sink : option str) : CheckResult unit :=
  let? _ := stack_loop (reach_fuel record) elf terminal_sink
    (collect_by b_id (blocks record)) (group_by ed_from (edges record)) ∅
    (rev ((fun e => (entry_block e, 0)) <$> entries record)) in
  Ok tt.

(** * Syscall sites *)

Record HeaderDepSyscallContract := {
  hc_name : string;
  hc_syscall_number : Z;
  hc_field_id : option Z;
  hc_buffer_bytes : Z;
  hc_result_stack_offset : option Z
}.

Definition header_dep_contracts : list (string * HeaderDepSyscallContract) :=
  [("runtime:__ckb_header_dep_epoch_number"%string,
    {| hc_name := "ckb-header-dep-epoch-number-v1"; hc_syscall_number := 2082;
       hc_field_id := Some 0; hc_buffer_bytes := 8; hc_result_stack_offset := None |});
   ("runtime:__ckb_header_dep_epoch_start_block_number"%string,
    {| hc_name := "ckb-header-dep-epoch-start-block-number-v1"; hc_syscall_number := 2082;
       hc_field_id := Some 1; hc_buffer_bytes := 8; hc_result_stack_offset := None |});
   ("runtime:__ckb_header_dep_epoch_length"%string,
    {| hc_name := "ckb-header-dep-epoch-length-v1"; hc_syscall_number := 2082;
       hc_field_id := Some 2; hc_buffer_bytes := 8; hc_result_stack_offset := None |});
   ("runtime:__ckb_header_dep_block_number"%string,
    {| hc_name := "ckb-header-dep-block-number-v1"; hc_syscall_number := 2072;
       hc_field_id := None; hc_buffer_bytes := 208; hc_result_stack_offset := Some 32 |});
   ("runtime:__ckb_header_dep_timestamp_millis"%string,
    {| hc_name := "ckb-header-dep-timestamp-millis-v1"; hc_syscall_number := 2072;
       hc_field_id := None; hc_buffer_bytes := 208; hc_result_stack_offset := Some 24 |})].

Definition header_dep_syscall_contract (owner : str) : option HeaderDepSyscallContract :=
  snd <$> List.find (fun c => same owner (fst c)) header_dep_contracts.

Definition machine_error_jumps_to_abort (record : VerifiedLoweringRecord) (elf : ParsedElf)
    (address code : Z) : bool :=
  match find_instruction elf address, find_instruction elf (address + 4),
        find_entry_id record (chars "runtime:__cellscript_abort") with
  | Some first, Some second, Some abort_entry =>
      match find_block_id record (entry_block abort_entry) with
      | None => false
      | Some abort_block =>
          is_addi (di_word first) 10 0 code && is_jal_zero (di_word second)
          && flow_targets elf (di_address second) (r_start (b_range abort_block))
      end
  | _, _, _ => false
  end.

Definition owner_has_abort_error (record : VerifiedLoweringRecord) (elf : ParsedElf)
    (owner : str) (code : Z) : bool :=
  existsb (fun b => str_eqb (owner_entry b) owner
                    && existsb (fun i => range_contains (b_range b) (di_address i)
                         && machine_error_jumps_to_abort record elf (di_address i) code)
                         (elf_instructions elf))
    (blocks record).

Definition header_dep_machine_error (site : SyscallSite) (message : string) : CheckerError :=
  {| ck_kind := V2417SyscallContractInvalid; ck_message := CMsg message [] [sy_address site] |}.

(** The [word] closure: the instruction [delta] bytes from the syscall. *)
Definition site_word (elf : ParsedElf) (site : SyscallSite) (delta : Z) : CheckResult Z :=
  let address := sy_address site + delta in
  if negb (in_range 0 U64_MAX address)
  then Err (header_dep_machine_error site "instruction address overflow")
  else
    match find_instruction elf address with
    | Some i => Ok (di_word i)
    | None => Err (header_dep_machine_error site "missing instruction")
    end.

(** A disjunction of negated word tests, left to right: the first missing word or failing
    test decides. *)
Definition require_words (elf : ParsedElf) (site : SyscallSite)
    (tests : list (Z * (Z -> bool))) (message : string) : CheckResult unit :=
  fold_result (fun _ test =>
      let? w := site_word elf site (fst test) in
      if negb (snd test w) then Err (header_dep_machine_error site message) else Ok tt) tt tests.

Definition require (site : SyscallSite) (b : bool) (message : string) : CheckResult unit :=
  if b then Ok tt else Err (header_dep_machine_error site message).

Definition number_message : string :=
  "the machine code does not materialize the declared HeaderDep syscall number".
Definition status_message : string :=
  "the HeaderDep syscall status does not terminate with error 45".
Definition selector_message : string :=
  "the HeaderDep field selector, source, index, or 8-byte buffer contract changed".
Definition width_message : string :=
  "the HeaderDep scalar exact-width check does not terminate with error 4".
Definition full_message : string :=
  "the full HeaderDep source, index, or 208-byte buffer contract changed".
Definition offset_message : string :=
  "the full HeaderDep exact-width or RawHeader field-offset contract changed".

Definition check_field_read (record : VerifiedLoweringRecord) (elf : ParsedElf)
    (site : SyscallSite) (field_id : Z) : CheckResult unit :=
  let? _ := require_words elf site
    [(-48, fun w => is_addi w 5 0 4); (-44, fun w => is_bne w 7 5);
     (-40, fun w => is_addi w 5 0 8); (-36, fun w => is_sd w 5 2 8);
     (-20, fun w => is_addi w 13 6 0); (-16, fun w => is_addi w 14 7 0);
     (-12, fun w => is_addi w 15 0 field_id)] selector_message in
  let? _ := require_words elf site
    [(16, fun w => is_ld w 10 2 8); (20, fun w => is_addi w 11 0 8);
     (24, fun w => is_sub w 10 10 11); (28, fun w => is_beq w 10 0)] width_message in
  require site (machine_error_jumps_to_abort record elf (sy_address site + 32) 4) width_message.

Definition check_full_read (record : VerifiedLoweringRecord) (elf : ParsedElf)
    (site : SyscallSite) (result_stack_offset : option Z) : CheckResult unit :=
  let? _ := require_words elf site
    [(-44, fun w => is_addi w 5 0 4); (-40, fun w => is_bne w 7 5);
     (-36, fun w => is_addi w 5 0 208); (-32, fun w => is_sd w 5 2 0);
     (-16, fun w => is_addi w 13 6 0); (-12, fun w => is_addi w 14 7 0)] full_message in
  match result_stack_offset with
  | None => panic
  | Some offset =>
      let? _ := require_words elf site
        [(16, fun w => is_ld w 5 2 0); (20, fun w => is_addi w 6 0 208);
         (24, fun w => is_bne w 5 6); (28, fun w => is_ld w 10 2 offset)] offset_message in
      require site (machine_error_jumps_to_abort record elf (sy_address site + 40) 4)
        offset_message
  end.

Definition validate_header_dep_syscall_site (record : VerifiedLoweringRecord)
    (elf : ParsedElf) (site : SyscallSite) (b : LoweringBlock) : CheckResult unit :=
  match header_dep_syscall_contract (owner_entry b) with
  | None =>
      if starts_with (chars "ckb-header-dep-") (contract site)
      then Err (header_dep_machine_error site
                  "a HeaderDep syscall contract is attached to the wrong runtime helper")
      else Ok tt
  | Some expected =>
      if negb (bool_decide (syscall_number site = Some (hc_syscall_number expected)))
         || negb (same (contract site) (hc_name expected))
         || negb (same (source_domain site) "HeaderDepView/source=HeaderDep")
         || negb (same (index_domain site) "u32-source-view")
         || negb (return_code_checked site)
         || negb (buffer_limit_bytes site =? hc_buffer_bytes expected)
      then Err (header_dep_machine_error site
                  "the declared HeaderDep syscall contract differs from its helper")
      else
        let syscall_lower := hc_syscall_number expected - 4096 in
        let? _ := require_words elf site
          [(0, fun w => w =? 0x00000073); (-8, fun w => is_lui w 17 0x1000);
           (-4, fun w => is_addi w 17 17 syscall_lower)] number_message in
        let? _ := require_words elf site
          [(4, fun w => is_beq w 10 0); (8, fun w => is_addi w 10 0 45)] status_message in
        let? _ := require site
          (machine_error_jumps_to_abort record elf (sy_address site + 8) 45) status_message in
        let? _ :=
          match hc_field_id expected with
          | Some field_id => check_field_read record elf site field_id
          | None => check_full_read record elf site (hc_result_stack_offset expected)
          end in
        require site (owner_has_abort_error record elf (owner_entry b) 44)
          "an invalid HeaderDep source does not terminate with error 44"
  end.

Definition check_site (record : VerifiedLoweringRecord) (elf : ParsedElf) (site : SyscallSite)
  : CheckResult unit :=
  let bad := reject V2417SyscallContractInvalid "syscall site has an invalid bounded contract"
               [] [sy_address site] in
  if is_empty (contract site) || is_empty (source_domain site) || is_empty (index_domain site)
     || (buffer_limit_bytes site =? 0) || negb (return_code_checked site)
  then bad
  else
    match collect_by b_id (blocks record) !! sy_block_id site with
    | None => bad
    | Some b =>
        if negb (range_contains (b_range b) (sy_address site)) then bad
        else validate_header_dep_syscall_site record elf site b
    end.

Definition validate_syscalls (record : VerifiedLoweringRecord) (elf : ParsedElf)
  : CheckResult unit :=
  let actual := List.filter (range_contains (vr_text_range record))
                  (syscall_addresses (pe_decoded elf)) in
  if negb (bool_decide (actual = sy_address <$> syscall_sites record))
  then reject V2417SyscallContractInvalid
         "declared syscall sites do not exactly match decoded ecall instructions" [] []
  else fold_result (fun _ site => check_site record elf site) tt (syscall_sites record).
