(* ===== verification/StructureFacts.v ===== *)
(** What the structural passes establish about an artifact: the stack discipline is exactly
    a consistent, in-frame, balanced assignment of stack-pointer deltas to blocks; restored
    return addresses were saved; the lowering graph has an edge for every decoded transfer and
    every fallthrough; and the passes do not panic on a validated record. *)

From Stdlib Require Import ZArith Lia String.
From stdpp Require Import base numbers list option tactics gmap sorting relations.
From S2P Require Import Prelude RustStr Sample ElfChecker ScanFacts ParseFacts Isa Record RecordGraph RecordFacts.
From S2P Require Import ElfStructure.

Open Scope Z_scope.

(** * Stack discipline *)

Definition total (l : list StackAdjustment) : Z := foldr (fun a n => sa_delta a + n) 0 l.

Lemma total_app l1 l2 : total (l1 ++ l2) = total l1 + total l2.
Proof. induction l1 as [|a l1 IH]; simpl; lia. Qed.

(** Inside a block entered with [d]: every adjustment is a multiple of 16, the stack pointer
    stays within the declared frame after each one, and a return leaves it where the entry
    found it. *)
Definition block_fine (elf : ParsedElf) (b : LoweringBlock) (d : Z) : Prop :=
  Forall (fun a => (16 | sa_delta a)) (block_adjustments elf b) /\
  (forall l1 l2, block_adjustments elf b = l1 ++ l2 -> l1 <> [] ->
     - b_frame_size_bytes b <= d + total l1 <= 0) /\
  (terminator b = Return -> d + total (block_adjustments elf b) = 0).

Definition frame_u32 (b : LoweringBlock) : Prop := 0 <= b_frame_size_bytes b <= U32_MAX.

Lemma adjust_step_ok b d a d' :
  frame_u32 b ->
  adjust_step b d a = Ok d' <->
  (16 | sa_delta a) /\ d' = d + sa_delta a /\ - b_frame_size_bytes b <= d' <= 0.
Proof.
  unfold frame_u32, adjust_step, in_range, U32_MAX, I64_MIN, I64_MAX. intros Hf.
  rewrite <- Z.rem_divide by done.
  destruct (Z.eqb_spec (Z.rem (sa_delta a) 16) 0) as [E|E]; simpl negb; cbn iota; [|naive_solver].
  destruct ((_ <=? d + sa_delta a) && _) eqn:E1; simpl negb; cbn iota.
  - destruct ((0 <? _) || _) eqn:E2; [split; [done|lia]|]. split; [intros [= <-]; lia|].
    intros (_ & -> & _). done.
  - split; [done|lia].
Qed.

Lemma adjustments_ok b l : forall d d',
  frame_u32 b ->
  fold_result (adjust_step b) d l = Ok d' <->
  Forall (fun a => (16 | sa_delta a)) l /\ d' = d + total l /\
  forall l1 l2, l = l1 ++ l2 -> l1 <> [] -> - b_frame_size_bytes b <= d + total l1 <= 0.
Proof.
  induction l as [|a l IH]; intros d d' Hf; simpl.
  - rewrite Z.add_0_r. split; [intros [= <-]; split_and!; [done..|]|naive_solver].
    intros l1 l2 [-> ->]%(eq_sym (x:=_))%app_nil; done.
  - destruct (adjust_step b d a) as [d1|e] eqn:E.
    + apply adjust_step_ok in E as (H16 & -> & Hr); [|done]. rewrite IH by done.
      rewrite Forall_cons, Z.add_assoc. split.
      * intros (Hall & -> & Hp). split_and!; [done..|].
        intros [|a1 l1] l2 Hl Hne; [done|]. injection Hl as <- Hl. simpl.
        destruct l1 as [|a2 l1]; [simpl; lia|]. rewrite Z.add_assoc. by eapply Hp.
      * intros ([_ Hall] & -> & Hp). split_and!; [done..|]. intros l1 l2 Hl Hne.
        rewrite <- Z.add_assoc. apply (Hp (a :: l1) l2); [by rewrite Hl|done].
    + split; [done|]. intros (Hall & _ & Hp). apply Forall_cons in Hall as [H16 _].
      specialize (Hp [a] l eq_refl). simpl in Hp. rewrite Z.add_0_r in Hp.
      assert (adjust_step b d a = Ok (d + sa_delta a)) by (apply adjust_step_ok; auto). congruence.
Qed.

Lemma enter_block_ok elf b d out :
  frame_u32 b ->
  enter_block elf b d = Ok out <->
  block_fine elf b d /\ out = d + total (block_adjustments elf b).
Proof.
  intros Hf. unfold enter_block, block_fine.
  destruct (fold_result (adjust_step b) d (block_adjustments elf b)) as [d'|e] eqn:E.
  - apply adjustments_ok in E as (H1 & -> & H2); [|done].
    destruct (decide (terminator b = Return)) as [Ht|Ht].
    + rewrite bool_decide_eq_true_2 by done. simpl.
      destruct (Z.eqb_spec (d + total (block_adjustments elf b)) 0) as [H0|H0]; simpl.
      * split; [intros [= <-]; naive_solver|naive_solver].
      * split; [done|naive_solver].
    + rewrite bool_decide_eq_false_2 by done. simpl. split; [intros [= <-]; naive_solver|naive_solver].
  - split; [done|]. intros ((H1 & H2 & _) & _).
    assert (fold_result (adjust_step b) d (block_adjustments elf b)
            = Ok (d + total (block_adjustments elf b))) by (by apply adjustments_ok). congruence.
Qed.

Section Stack.
Context (record : VerifiedLoweringRecord) (elf : ParsedElf) (sink : option str).
Local Abbreviation bm := (collect_by b_id (blocks record)).
Local Abbreviation outgoing := (group_by ed_from (edges record)).

(** A block is entered with a delta: an entry starts at 0, an edge carries the delta of the
    end of its block, a call starts its callee at 0; nothing leaves the terminal sink. *)
Inductive stack_at : str -> Z -> Prop :=
| stack_at_entry e : e ∈ entries record -> stack_at (entry_block e) 0
| stack_at_edge b d ed :
    stack_at (b_id b) d -> sink <> Some (b_id b) -> b ∈ blocks record ->
    ed ∈ edges record -> ed_from ed = b_id b ->
    stack_at (ed_to ed)
      (if decide (ed_kind ed = KCall) then 0 else d + total (block_adjustments elf b)).

Definition stack_sound : Prop :=
  (forall id d1 d2, sink <> Some id -> stack_at id d1 -> stack_at id d2 -> d1 = d2) /\
  (forall b d, b ∈ blocks record -> sink <> Some (b_id b) -> stack_at (b_id b) d ->
     block_fine elf b d).

Hypothesis ids : NoDup (b_id <$> blocks record).
Hypothesis entry_known : forall e, e ∈ entries record -> entry_block e ∈ b_id <$> blocks record.
Hypothesis edge_known : forall ed, ed ∈ edges record -> ed_to ed ∈ b_id <$> blocks record.
Hypothesis frames : Forall frame_u32 (blocks record).

Definition covered (m : gmap str Z) (pending : list (str * Z)) (p : str * Z) : Prop :=
  sink = Some (fst p) \/ m !! fst p = Some (snd p) \/ p ∈ pending.

Definition stack_inv (m : gmap str Z) (pending : list (str * Z)) : Prop :=
  (forall id d, m !! id = Some d -> stack_at id d /\ sink <> Some id) /\
  (forall id d, (id, d) ∈ pending -> stack_at id d) /\
  (forall e, e ∈ entries record -> covered m pending (entry_block e, 0)) /\
  (forall b d ed, b ∈ blocks record -> m !! b_id b = Some d -> ed ∈ edges record ->
     ed_from ed = b_id b ->
     covered m pending (edge_delta (d + total (block_adjustments elf b)) ed)) /\
  (forall b d, b ∈ blocks record -> m !! b_id b = Some d ->
     enter_block elf b d = Ok (d + total (block_adjustments elf b))).

Lemma stack_at_known id d : stack_at id d -> id ∈ b_id <$> blocks record.
Proof using entry_known edge_known. destruct 1; auto. Qed.

(** Popping an item that is already accounted for keeps the invariant. *)
Lemma stack_inv_skip m id d pending :
  (sink = Some id \/ m !! id = Some d) ->
  stack_inv m ((id, d) :: pending) -> stack_inv m pending.
Proof using Type.
  intros Hd (H1 & H2 & H3 & H4 & H5).
  assert (forall p, covered m ((id, d) :: pending) p -> covered m pending p) as Hc.
  { intros p [?|[?|[-> |?]%elem_of_cons]]; unfold covered; simpl; naive_solver. }
  split_and!; [done| |auto..]. intros id' d' ?. apply H2. by apply list_elem_of_further.
Qed.

Lemma stack_inv_enter m b d pending :
  b ∈ blocks record -> sink <> Some (b_id b) -> m !! b_id b = None ->
  enter_block elf b d = Ok (d + total (block_adjustments elf b)) ->
  stack_inv m ((b_id b, d) :: pending) ->
  stack_inv (<[b_id b := d]> m)
    (rev (edge_delta (d + total (block_adjustments elf b)) <$> default [] (outgoing !! b_id b))
     ++ pending).
Proof using ids.
  intros Hb Hs Hm He (H1 & H2 & H3 & H4 & H5).
  set (out := d + total (block_adjustments elf b)) in *.
  set (new := rev _).
  assert (forall p, p ∈ new <-> exists ed, ed ∈ edges record /\ ed_from ed = b_id b /\
            p = edge_delta out ed) as Hnew.
  { intros p. unfold new. rewrite list_elem_of_In, <- in_rev, <- list_elem_of_In.
    rewrite group_by_lookup, list_elem_of_fmap. setoid_rewrite list_elem_of_filter. naive_solver. }
  assert (stack_at (b_id b) d) as Hat by (apply H2; by apply list_elem_of_here).
  assert (forall p, covered m ((b_id b, d) :: pending) p ->
            covered (<[b_id b := d]> m) (new ++ pending) p) as Hc.
  { intros [id' d']. unfold covered. simpl. rewrite elem_of_cons, elem_of_app.
    intros [?|[Hl|[[= -> ->]|?]]]; [by left| |by rewrite lookup_insert_eq; auto|by auto].
    right. left. rewrite lookup_insert_ne; [done|congruence]. }
  assert (forall b' d', b' ∈ blocks record -> <[b_id b := d]> m !! b_id b' = Some d' ->
            (b' = b /\ d' = d) \/ m !! b_id b' = Some d') as Hl.
  { intros b' d' Hb' [[Hid <-]|[_ ?]]%lookup_insert_Some; [left|by right]. split; [|done].
    assert (bm !! b_id b' = Some b') as E1 by (by apply collect_by_elem).
    assert (bm !! b_id b = Some b) as E2 by (by apply collect_by_elem). congruence. }
  split_and!.
  - intros id' d' [[<- <-]|[_ ?]]%lookup_insert_Some; auto.
  - intros id' d' [(ed & Hed & Hf & [= -> ->])%Hnew|?]%elem_of_app.
    + by apply (stack_at_edge b d ed).
    + apply H2. by apply list_elem_of_further.
  - auto.
  - intros b' d' ed Hb' Hl' Hed Hf. destruct (Hl _ _ Hb' Hl') as [[-> ->]|Hm']; [|by eauto].
    right. right. apply elem_of_app. left. apply Hnew. eauto.
  - intros b' d' Hb' Hl'. destruct (Hl _ _ Hb' Hl') as [[-> ->]|Hm']; auto.
Qed.

Lemma stack_inv_done m : stack_inv m [] -> stack_sound.
Proof using ids frames.
  intros (H1 & H2 & H3 & H4 & H5).
  assert (forall p, covered m [] p -> sink = Some (fst p) \/ m !! fst p = Some (snd p)) as Hc.
  { intros p [?|[?|?%elem_of_nil]]; auto. done. }
  assert (forall id d, stack_at id d -> sink = Some id \/ m !! id = Some d) as Hat.
  { intros id d. induction 1 as [e He|b d ed Hat IH Hs Hb Hed Hf].
    - apply (Hc (entry_block e, 0)). auto.
    - destruct IH as [?|IH]; [done|].
      apply (Hc (edge_delta (d + total (block_adjustments elf b)) ed)). eauto. }
  split.
  - intros id d1 d2 Hs Ha1%Hat Ha2%Hat. naive_solver.
  - intros b d Hb Hs Ha%Hat. destruct Ha as [?|Ha]; [done|].
    apply H5, enter_block_ok in Ha as [? _]; [done| |done].
    rewrite Forall_forall in frames. auto.
Qed.

Lemma stack_loop_spec fuel : forall m pending,
  stack_inv m pending ->
  (length pending + open_edges (edges record) (dom m) <= fuel)%nat ->
  match stack_loop fuel elf sink bm outgoing m pending with
  | Ok m' => stack_inv m' []
  | Err e => ck_message e <> CPanic /\ ~ stack_sound
  end.
Proof using ids entry_known edge_known frames.
  induction fuel as [|fuel IH]; intros m [|[id d] pending] Hinv Hf;
    [done|simpl in Hf; lia|done|]. cbn [stack_loop]. cbn [length] in Hf.
  pose proof Hinv as (H1 & H2 & _).
  assert (stack_at id d) as Hat by (apply H2; by apply list_elem_of_here).
  case_bool_decide as Hs; [apply IH; [by eapply stack_inv_skip; [left|]|lia]|].
  destruct (m !! id) as [prev|] eqn:Em.
  { destruct (Z.eqb_spec prev d) as [-> |Hne]; simpl.
    - rewrite insert_id by done. apply IH; [by eapply stack_inv_skip; [right|]|lia].
    - split; [done|]. intros [Hu _]. apply Hne. apply (Hu id); [done|by apply H1|done]. }
  pose proof (stack_at_known _ _ Hat) as (b & -> & Hb)%list_elem_of_fmap.
  rewrite (collect_by_elem b_id _ b) by done.
  assert (frame_u32 b) as Hfr by (rewrite Forall_forall in frames; auto).
  destruct (enter_block elf b d) as [out|e] eqn:E.
  - pose proof E as [_ ->]%enter_block_ok; [|done]. apply IH; [by apply stack_inv_enter|].
    rewrite length_app, length_rev, length_fmap, dom_insert_L.
    pose proof (open_edges_enter (edges record) (dom m) (b_id b)) as Hopen.
    rewrite Hopen in Hf by (by apply not_elem_of_dom). lia.
  - split.
    + unfold enter_block in E. destruct (fold_result _ _ _) as [x|e'] eqn:E'.
      * destruct (_ && _); [|done]. by injection E as <-.
      * injection E as <-. assert (panics (fold_result (adjust_step b) d (block_adjustments elf b)) = false) as Hp.
        { apply (fold_result_panics _ (fun _ => True)); [|done..]. intros. unfold adjust_step. no_panic. }
        rewrite E' in Hp. destruct e' as [k []]; done.
    + intros [_ Hfine]. specialize (Hfine b d Hb Hs Hat).
      assert (enter_block elf b d = Ok (d + total (block_adjustments elf b)))
        by (by apply enter_block_ok). congruence.
Qed.

Lemma stack_inv_start : stack_inv ∅ (rev ((fun e => (entry_block e, 0)) <$> entries record)).
Proof using Type.
  assert (forall p, p ∈ rev ((fun e => (entry_block e, 0)) <$> entries record) <->
            exists e, e ∈ entries record /\ p = (entry_block e, 0)) as Hp.
  { intros p. rewrite list_elem_of_In, <- in_rev, <- list_elem_of_In, list_elem_of_fmap. naive_solver. }
  split_and!.
  - intros id d. by rewrite lookup_empty.
  - intros id d (e & He & [= -> ->])%Hp. by apply stack_at_entry.
  - intros e He. right. right. apply Hp. eauto.
  - intros b d ed _. by rewrite lookup_empty.
  - intros b d _. by rewrite lookup_empty.
Qed.

Lemma stack_discipline_spec :
  match validate_stack_discipline record elf sink with
  | Ok _ => stack_sound
  | Err e => ck_message e <> CPanic /\ ~ stack_sound
  end.
Proof using ids entry_known edge_known frames.
  unfold validate_stack_discipline.
  opose proof (stack_loop_spec (reach_fuel record) ∅ _ stack_inv_start _) as Hspec.
  { rewrite length_rev, length_fmap, dom_empty_L. unfold reach_fuel.
    pose proof (open_edges_le (edges record) ∅). lia. }
  destruct (stack_loop _ _ _ _ _ _ _); [by eapply stack_inv_done|done].
Qed.
End Stack.

(** C4.  The stack discipline is exact.  On a validated record the worklist terminates without
    panicking, and accepts precisely when stack-pointer deltas can be assigned consistently:
    no block (the terminal sink aside) is entered with two different deltas along any paths
    from the entries, calls starting their callee at zero; inside every such block each
    adjustment is 16-byte aligned and keeps the delta within the declared frame; and every
    return leaves the stack pointer where the entry found it. *)
Theorem stack_discipline_exact record budgets elf sink :
  validate_record_graph record budgets = Ok tt -> Forall frame_u32 (blocks record) ->
  (validate_stack_discipline record elf sink = Ok tt <-> stack_sound record elf sink) /\
  panics (validate_stack_discipline record elf sink) = false.
Proof.
  intros Hok%validate_record_graph_inv Hf.
  opose proof (stack_discipline_spec record elf sink (ok_block_ids _ _ Hok) _ _ Hf) as Hspec.
  { intros e He. destruct (ok_entry_blocks _ _ Hok e He) as (b & Hb & <- & _).
    by apply list_elem_of_fmap_2. }
  { intros ed Hed. destruct (ok_edge_blocks _ _ Hok ed (ed_to ed) Hed) as (b & Hb & <-);
      [set_solver|]. by apply list_elem_of_fmap_2. }
  destruct (validate_stack_discipline record elf sink) as [[]|[k m]]; [done|].
  destruct Hspec as [Hm Hno]. split; [naive_solver|]. by destruct m; try done; destruct Hm.
Qed.

(** * Return-address slots *)

(** A store through [sp] or [fp]: base register, offset, width, and whether [ra] is stored. *)
Definition frame_store (word : Z) : option (Z * Z * Z * bool) :=
  let rs1 := bits word 15 0x1f in
  if (Z.land word 0x7f =? 0x23) && (bits word 12 0x7 <=? 3) && one_of rs1 [2; 8]
  then Some (rs1, store_offset word, Z.shiftl 1 (bits word 12 0x7), bits word 20 0x1f =? 1)
  else None.

(** [ld ra, offset(base)]. *)
Definition restores (word base offset : Z) : Prop :=
  Z.land word 0x7f = 0x03 /\ bits word 12 0x7 = 3 /\ base ∈ [2; 8] /\ bits word 15 0x1f = base /\
  bits word 7 0x1f = 1 /\ sign_extend_12 (Z.shiftr word 20) = offset.

(** [sd ra, slot(base)]. *)
Definition saves (word base slot : Z) : Prop := frame_store word = Some (base, slot, 8, true).

(** The word writes a byte of the eight-byte slot through the same base. *)
Definition clobbers (word base slot : Z) : Prop :=
  exists offset width ra byte, frame_store word = Some (base, offset, width, ra) /\
    offset <= byte < offset + width /\ slot <= byte < slot + 8.

(** The last write to the slot saved the return address in full. *)
Definition saved (words : list Z) (base slot : Z) : Prop :=
  exists l1 w l2, words = l1 ++ w :: l2 /\ saves w base slot /\
    Forall (fun w' => ~ clobbers w' base slot) l2.

Lemma saved_snoc words w base slot :
  saved (words ++ [w]) base slot <->
  saves w base slot \/ (saved words base slot /\ ~ clobbers w base slot).
Proof.
  split.
  - intros (l1 & w' & l2 & E & Hs & Hc). destruct l2 as [|x l2 _] using rev_ind.
    + apply app_inj_tail in E as [_ ->]. by left.
    + rewrite app_comm_cons, app_assoc in E. apply app_inj_tail in E as [-> ->].
      apply Forall_app in Hc as [Hc Hx]. right. split; [by exists l1, w', l2|by inversion Hx].
  - intros [Hs|[(l1 & w' & l2 & -> & Hs & Hc) Hn]].
    + exists words, w, []. done.
    + exists l1, w', (l2 ++ [w]). split_and!; [by rewrite <- app_assoc|done|].
      apply Forall_app. auto.
Qed.

Lemma record_ra_frame_store_true slots offset width ra slot :
  0 < width ->
  record_ra_frame_store slots offset width ra !! slot = Some true <->
  (slot = offset /\ width = 8 /\ ra = true) \/
  (slots !! slot = Some true /\ ~ (exists byte, offset <= byte < offset + width /\ slot <= byte < slot + 8)).
Proof.
  intros Hw. unfold record_ra_frame_store. set (slots' := map_imap _ _).
  assert (slots' !! slot = Some true <-> slots !! slot = Some true /\
          ~ (exists byte, offset <= byte < offset + width /\ slot <= byte < slot + 8)) as Hs.
  { unfold slots'. rewrite map_lookup_imap. destruct (slots !! slot) as [v|]; simpl; [|naive_solver].
    destruct ((offset - 7 <=? slot) && (slot <? offset + width)) eqn:E.
    - split; [done|]. intros [_ Hn]. destruct Hn. exists (Z.max offset slot). lia.
    - split; [intros [= ->]; split; [done|]; intros (byte & ? & ?); lia|naive_solver]. }
  destruct ((width =? 8) && ra) eqn:E.
  - apply andb_true_iff in E as [E%Z.eqb_eq Era]. destruct (decide (slot = offset)) as [-> |Hne].
    + rewrite lookup_insert_eq. split; [|done]. by left.
    + rewrite lookup_insert_ne by done. rewrite Hs. naive_solver.
  - rewrite Hs. split; [by right|]. intros [(-> & -> & ->)|?]; done.
Qed.

Lemma frame_store_width w base offset width ra :
  frame_store w = Some (base, offset, width, ra) -> 0 < width.
Proof.
  unfold frame_store. destruct (_ && _); [|done]. intros [= _ _ <- _].
  assert (0 <= bits w 12 0x7) by (unfold bits; rewrite land_0x7; zdivmod).
  rewrite Z.shiftl_mul_pow2, Z.mul_1_l by done. apply Z.pow_pos_nonneg; lia.
Qed.

(** The slots after a word, whether or not it stores. *)
Definition after_word (slots : frame_slots) (w : Z) : frame_slots :=
  match frame_store w with
  | Some (base, offset, width, ra) =>
      <[base := record_ra_frame_store (default ∅ (slots !! base)) offset width ra]> slots
  | None => slots
  end.

Definition slots_track (slots : frame_slots) (words : list Z) : Prop :=
  forall base slot, default ∅ (slots !! base) !! slot = Some true <-> saved words base slot.

Lemma after_word_track slots words w :
  slots_track slots words -> slots_track (after_word slots w) (words ++ [w]).
Proof.
  intros Ht base slot. specialize (Ht base slot). rewrite saved_snoc, <- Ht. unfold after_word, saves, clobbers.
  destruct (frame_store w) as [[[[base' offset] width] ra]|] eqn:E.
  - apply frame_store_width in E as Hw. destruct (decide (base' = base)) as [-> |Hne].
    + rewrite lookup_insert_eq. simpl. rewrite record_ra_frame_store_true by done. split.
      * intros [(-> & -> & ->)|[Hs Hn]]; [by left|]. right. split; [done|].
        intros (o & wd & r & byte & [= -> -> ->] & ?). naive_solver.
      * intros [[= -> -> ->]|[Hs Hn]]; [by left|]. right. split; [done|].
        intros (byte & ? & ?). apply Hn. by exists offset, width, ra, byte.
    + rewrite lookup_insert_ne by done. split; [|naive_solver]. intros Hs. right. split; [done|].
      intros (o & wd & r & byte & [= ? ? ?] & ?). done.
  - split; [|naive_solver]. intros Hs. right. split; [done|]. by intros (? & ? & ? & ? & ? & ?).
Qed.

Lemma one_of_elem z l : one_of z l = true <-> z ∈ l.
Proof.
  unfold one_of. rewrite existsb_exists, list_elem_of_In.
  split; [intros (x & Hx & ->%Z.eqb_eq); done|]. intros Hz. exists z. split; [done|apply Z.eqb_refl].
Qed.

Lemma slot_step_spec entry address w slots :
  match slot_step entry address w slots with
  | Ok slots' => slots' = after_word slots w /\
      forall base slot, restores w base slot -> default ∅ (slots' !! base) !! slot = Some true
  | Err e => ck_message e <> CPanic /\
      exists base slot, restores w base slot /\
        default ∅ (after_word slots w !! base) !! slot <> Some true
  end.
Proof.
  unfold slot_step. set (slots' := if _ && one_of _ _ then _ else slots).
  assert (slots' = after_word slots w) as -> by (unfold slots', after_word, frame_store; by destruct (_ && _)).
  destruct ((Z.land w 0x7f =? 0x03) && (bits w 12 0x7 =? 3) && one_of (bits w 15 0x1f) [2; 8]
            && (bits w 7 0x1f =? 1)) eqn:E.
  - rewrite !andb_true_iff, !Z.eqb_eq, one_of_elem in E. destruct_and!.
    assert (restores w (bits w 15 0x1f) (sign_extend_12 (Z.shiftr w 20))) as Hr by done.
    destruct (default ∅ (after_word slots w !! bits w 15 0x1f) !! _) as [[]|] eqn:El.
    + split; [done|]. intros base slot (_ & _ & _ & <- & _ & <-). done.
    + split; [done|]. do 2 eexists. split; [exact Hr|]. by rewrite El.
    + split; [done|]. do 2 eexists. split; [exact Hr|]. by rewrite El.
  - split; [done|]. intros base slot (H1 & H2 & H3 & H4 & H5 & _). exfalso.
    rewrite H1, H2, H4, H5 in E. apply one_of_elem in H3. by rewrite H3 in E.
Qed.

(** Every restore in [ws], run after [before], finds its slot saved. *)
Definition restores_saved (before ws : list Z) : Prop :=
  forall l1 w l2 base slot, ws = l1 ++ w :: l2 -> restores w base slot ->
    saved (before ++ l1 ++ [w]) base slot.

Lemma restores_saved_cons before w ws :
  restores_saved before (w :: ws) <->
  (forall base slot, restores w base slot -> saved (before ++ [w]) base slot) /\
  restores_saved (before ++ [w]) ws.
Proof.
  split.
  - intros H. split.
    + intros base slot Hr. by apply (H [] w ws).
    + intros l1 w' l2 base slot -> Hr. rewrite <- app_assoc. by apply (H (w :: l1) w' l2).
  - intros [H1 H2] [|x l1] w' l2 base slot E Hr; injection E as <- E.
    + simpl. auto.
    + specialize (H2 l1 w' l2 base slot E Hr). by rewrite <- app_assoc in H2.
Qed.

Lemma slot_fold_spec entry ws : forall slots before,
  slots_track slots before ->
  match fold_result (fun slots aw => slot_step entry (fst aw) (snd aw) slots) slots ws with
  | Ok _ => restores_saved before (snd <$> ws)
  | Err e => ck_message e <> CPanic /\ ~ restores_saved before (snd <$> ws)
  end.
Proof.
  induction ws as [|[a w] ws IH]; intros slots before Ht; simpl.
  { intros l1 w l2 base slot E. by destruct l1. }
  pose proof (slot_step_spec entry a w slots) as Hs.
  pose proof (after_word_track _ _ w Ht) as Ht'.
  destruct (slot_step entry a w slots) as [slots'|e].
  - destruct Hs as [-> Hr]. specialize (IH _ _ Ht').
    destruct (fold_result _ _ _); rewrite restores_saved_cons.
    + split; [|done]. intros base slot Hb. apply Ht'. auto.
    + destruct IH as [? ?]. split; [done|]. naive_solver.
  - destruct Hs as (? & base & slot & Hr & Hn). split; [done|]. rewrite restores_saved_cons. intros [Hall _].
    apply Hn, Ht'. auto.
Qed.

(** The instruction words of the blocks an entry owns, in record order. *)
Definition entry_words (record : VerifiedLoweringRecord) (elf : ParsedElf) (entry : str) : list Z :=
  snd <$> concat (words_of_block elf <$> filter (fun b => owner_entry b = entry) (blocks record)).

Lemma fold_result_concat {E S A} (f : S -> A -> result E S) ls : forall s,
  fold_result (fun s l => fold_result f s l) s ls = fold_result f s (concat ls).
Proof.
  induction ls as [|l ls IH]; intros s; simpl; [done|]. rewrite fold_result_app.
  by destruct (fold_result f s l).
Qed.

Lemma fold_result_fmap {E S A B} (f : S -> B -> result E S) (g : A -> B) l : forall s,
  fold_result (fun s x => f s (g x)) s l = fold_result f s (g <$> l).
Proof. induction l as [|x l IH]; intros s; simpl; [done|]. by destruct (f s (g x)). Qed.

Lemma check_entry_slots_spec record elf entry :
  match check_entry_slots elf entry (default [] (group_by owner_entry (blocks record) !! entry)) with
  | Ok _ => restores_saved [] (entry_words record elf entry)
  | Err e => ck_message e <> CPanic /\ ~ restores_saved [] (entry_words record elf entry)
  end.
Proof.
  unfold check_entry_slots, entry_words. rewrite group_by_lookup.
  rewrite (fold_result_fmap (fun s l => fold_result _ s l) (words_of_block elf)), fold_result_concat.
  apply slot_fold_spec. intros base slot. rewrite lookup_empty. simpl. rewrite lookup_empty.
  split; [done|]. intros (l1 & w & l2 & E & _). by destruct l1.
Qed.

Lemma group_by_dom {A} (key : A -> str) l k : k ∈ dom (group_by key l) -> k ∈ key <$> l.
Proof.
  unfold group_by. induction l as [|x l IH] using rev_ind; [set_solver|].
  rewrite foldl_app, fmap_app, elem_of_app. simpl. rewrite dom_insert. set_solver.
Qed.

Lemma dom_group_by {A} (key : A -> str) l k : k ∈ key <$> l -> k ∈ dom (group_by key l).
Proof.
  intros (x & -> & Hx)%list_elem_of_fmap. pose proof (group_by_lookup key l (key x)) as E.
  apply elem_of_dom. destruct (group_by key l !! key x); [done|]. simpl in E.
  assert (x ∈ filter (fun y => key y = key x) l) as Hf by (by apply list_elem_of_filter).
  rewrite <- E in Hf. by apply elem_of_nil in Hf.
Qed.

(** C6.  Return-address pairing is exact.  The pass accepts precisely when, in the words of the
    blocks each entry owns, every [ld ra, off(base)] is preceded by an [sd ra, off(base)]
    through the same base register after which no store through that base writes any byte of
    the eight-byte slot, whatever its width and starting offset. *)
Theorem ra_slots_exact record elf :
  validate_ra_frame_slots record elf = Ok tt <->
  forall b l1 w l2 base slot, b ∈ blocks record ->
    entry_words record elf (owner_entry b) = l1 ++ w :: l2 -> restores w base slot ->
    saved (l1 ++ [w]) base slot.
Proof.
  unfold validate_ra_frame_slots. rewrite fold_unit_ok, Forall_forall. split.
  - intros H b l1 w l2 base slot Hb E Hr. specialize (H (owner_entry b)).
    assert (owner_entry b ∈ btree_order (elements (dom (group_by owner_entry (blocks record))))) as Hin.
    { rewrite elem_of_btree_order, elem_of_elements. apply dom_group_by. by apply list_elem_of_fmap_2. }
    specialize (H Hin). pose proof (check_entry_slots_spec record elf (owner_entry b)) as Hs.
    destruct (check_entry_slots _ _ _); [|done]. by apply (Hs l1 w l2).
  - intros H entry Hin. rewrite elem_of_btree_order, elem_of_elements in Hin.
    apply group_by_dom, list_elem_of_fmap in Hin as (b & -> & Hb).
    pose proof (check_entry_slots_spec record elf (owner_entry b)) as Hs.
    destruct (check_entry_slots _ _ _); [done|]. destruct Hs as [_ []].
    intros l1 w l2 base slot E Hr. by eapply H.
Qed.

(** * Control flow *)

Definition in_block (b : LoweringBlock) (pc : Z) : Prop := range_contains (b_range b) pc = true.

Lemma words_by_address_lookup elf a w :
  words_by_address elf !! a = Some w ->
  exists i, i ∈ elf_instructions elf /\ di_address i = a /\ di_word i = w.
Proof.
  unfold words_by_address. induction (elf_instructions elf) as [|i l IH] using rev_ind; [done|].
  rewrite foldl_app. cbn [foldl]. intros [[<- <-]|[_ (j & Hj & ?)%IH]]%lookup_insert_Some.
  - exists i. set_solver.
  - exists j. set_solver.
Qed.

Lemma find_block_in record pc b :
  find_block record pc = Some b -> b ∈ blocks record /\ in_block b pc.
Proof. apply find_elem. Qed.

Section ControlFlow.
Context (record : VerifiedLoweringRecord) (budgets : CheckerBudgets) (elf : ParsedElf).
Context (bytes : list Z) (max : Z).
Hypothesis Hrec : record_ok record budgets.
Hypothesis Hfwd : Forall forward (blocks record).
Hypothesis Helf : accepted_image bytes max elf.
Hypothesis Hflow : validate_control_flow record elf = Ok tt.
Hypothesis Hterm : validate_machine_terminators record elf = Ok tt.

Lemma block_of_pc b1 b2 pc :
  b1 ∈ blocks record -> b2 ∈ blocks record -> in_block b1 pc -> in_block b2 pc -> b1 = b2.
Proof using Hrec Hfwd. intros. eapply coverage_unique; [apply Hrec|done..]. Qed.

Lemma block_bounds b :
  b ∈ blocks record -> r_start (b_range b) < r_end (b_range b) /\
    r_start (b_range b) mod 4 = 0 /\ r_end (b_range b) mod 4 = 0.
Proof using Hrec Hfwd.
  intros Hb. edestruct coverage_aligned as (? & ? & ? & _); [apply Hrec|done|].
  pose proof Hfwd as Hf. rewrite Forall_forall in Hf. specialize (Hf b Hb). unfold forward in Hf. lia.
Qed.

(** A declared fallthrough edge leads to the block that starts where its source ends. *)
Lemma fallthrough_adjacent ed b :
  ed ∈ edges record -> is_fallthrough_kind (ed_kind ed) = true -> b ∈ blocks record ->
  ed_from ed = b_id b ->
  exists b', b' ∈ blocks record /\ b_id b' = ed_to ed /\ in_block b' (r_end (b_range b)).
Proof using Hrec Hfwd Hflow.
  intros Hed Hk Hb Hfrom. pose proof Hflow as Hv. unfold validate_control_flow in Hv.
  destruct (fold_result _ _ (List.filter _ (edges record))) as [[]|] eqn:E; [|done].
  apply fold_unit_ok in E. rewrite Forall_forall in E. specialize (E ed).
  rewrite list_elem_of_In, filter_In, <- list_elem_of_In in E. specialize (E (conj Hed Hk)).
  unfold check_fallthrough in E. rewrite Hfrom, (collect_by_elem b_id _ b) in E by (apply Hrec || done).
  destruct (collect_by b_id (blocks record) !! ed_to ed) as [bt|] eqn:Et; [|done].
  apply collect_by_Some in Et as [Hbt Hid].
  destruct (Z.eqb_spec (r_end (b_range b)) (r_start (b_range bt))) as [Heq|]; [|done].
  exists bt. split_and!; [done..|]. unfold in_block, range_contains. rewrite Heq.
  pose proof (block_bounds bt Hbt). lia.
Qed.

(** A block whose last word falls through has a fallthrough edge. *)
Lemma fallthrough_edge b w :
  b ∈ blocks record -> terminator_matches (terminator b) w = true ->
  w <> 0x00008067 -> is_jal_zero w = false ->
  exists ed, ed ∈ edges record /\ ed_from ed = b_id b /\ is_fallthrough_kind (ed_kind ed) = true.
Proof using Hrec.
  clear Hterm Hflow Helf Hfwd. intros Hb Hm Hret Hj. pose proof (ok_terminators _ _ Hrec b Hb) as Hv.
  unfold validate_terminator_edges in Hv. unfold is_jal_zero in Hj.
  set (non_call := ed_kind <$> _) in Hv.
  assert (forall k, k ∈ non_call -> is_fallthrough_kind k = true -> exists ed,
    ed ∈ edges record /\ ed_from ed = b_id b /\ is_fallthrough_kind (ed_kind ed) = true) as Hex.
  { intros k (ed & -> & [_ [Hf Hed]%list_elem_of_filter]%list_elem_of_filter)%list_elem_of_fmap Hk.
    by exists ed. }
  destruct (terminator b); simpl in Hm.
  - case_bool_decide as E; [|done]. apply (Hex KFallthrough); [rewrite E; set_solver|done].
  - congruence.
  - apply (Hex KConditionalFallthrough); [|done].
    case_bool_decide as E1; [rewrite E1; set_solver|].
    case_bool_decide as E2; [rewrite E2; set_solver|done].
  - apply Z.eqb_eq in Hm. done.
Qed.

Lemma sequence_simulated b i :
  b ∈ blocks record -> in_block b (di_address i) -> i ∈ elf_instructions elf ->
  di_word i <> 0x00008067 -> is_jal_zero (di_word i) = false ->
  exists b', b' ∈ blocks record /\ in_block b' (di_address i + 4) /\
    (b' = b \/ edge (edges record) (b_id b) (b_id b')).
Proof using Hrec Hfwd Helf Hflow Hterm.
  intros Hb Hin Hi Hret Hj. destruct (block_bounds b Hb) as (Hne & Hs4 & He4).
  destruct (accepted_addresses _ _ _ Helf i i Hi Hi) as [Ha4 _].
  unfold in_block, range_contains in Hin |- *.
  destruct (Z.lt_ge_cases (di_address i + 4) (r_end (b_range b))) as [Hlt|Hge].
  { exists b. split_and!; [done|lia|by left]. }
  assert (di_address i + 4 = r_end (b_range b)) as Hend by zdivmod.
  pose proof Hterm as Ht. unfold validate_machine_terminators in Ht.
  rewrite fold_unit_ok, Forall_forall in Ht. specialize (Ht b Hb). unfold check_terminator in Ht.
  destruct (checked_sub_u64 (r_end (b_range b)) 4) as [a|] eqn:Ea; [|done].
  assert (a = di_address i) as ->.
  { unfold checked_sub_u64 in Ea. destruct (4 <=? r_end (b_range b)); [|done].
    injection Ea as <-. lia. }
  destruct (words_by_address elf !! di_address i) as [w|] eqn:Ew; [|done].
  apply words_by_address_lookup in Ew as (j & Hj' & Hja & <-).
  assert (j = i) as -> by (by apply (accepted_addresses _ _ _ Helf j i)).
  destruct (terminator_matches _ _) eqn:Em; [|done].
  destruct (fallthrough_edge b (di_word i) Hb Em Hret Hj) as (ed & Hed & Hf & Hk).
  destruct (fallthrough_adjacent ed b Hed Hk Hb Hf) as (b' & Hb' & Hid & Hin').
  exists b'. rewrite Hend. split_and!; [done..|]. right. exists ed. by rewrite Hid.
Qed.

Lemma transfer_simulated b f :
  b ∈ blocks record -> in_block b (cf_address f) ->
  range_contains (vr_text_range record) (cf_address f) = true -> f ∈ elf_flow elf ->
  exists b', b' ∈ blocks record /\ in_block b' (cf_target f) /\
    (b' = b \/ edge (edges record) (b_id b) (b_id b')).
Proof using Hrec Hfwd Hflow.
  intros Hb Hin Htext Hf. pose proof Hflow as Hv. unfold validate_control_flow in Hv.
  destruct (fold_result _ _ (List.filter _ (edges record))) as [[]|]; [|done].
  apply fold_unit_ok in Hv. rewrite Forall_forall in Hv. specialize (Hv f).
  rewrite list_elem_of_In, filter_In, <- list_elem_of_In in Hv. specialize (Hv (conj Hf Htext)).
  unfold check_flow_edge in Hv.
  destruct (find_block record (cf_address f)) as [from|] eqn:E1; [|done].
  apply find_block_in in E1 as [Hfrom Hfin].
  rewrite (block_of_pc from b (cf_address f)) in Hv by done.
  destruct (find_block record (cf_target f)) as [to|] eqn:E2; [|done].
  apply find_block_in in E2 as [Hto Htin]. exists to. split_and!; [done..|].
  destruct (str_eqb (b_id b) (b_id to)) eqn:Es; simpl in Hv.
  - left. apply str_eqb_eq in Es.
    pose proof (collect_by_elem b_id _ b (ok_block_ids _ _ Hrec) Hb) as L1.
    pose proof (collect_by_elem b_id _ to (ok_block_ids _ _ Hrec) Hto) as L2. congruence.
  - right. destruct (existsb _ _) eqn:Ee; [|done].
    apply existsb_exists in Ee as (ed & Hed%list_elem_of_In & Hc).
    apply andb_true_iff in Hc as [[H1%str_eqb_eq H2%str_eqb_eq]%andb_true_iff _]. by exists ed.
Qed.
End ControlFlow.

(** * Panics *)

Lemma panics_message {A} (r : CheckResult A) :
  (forall e, r = Err e -> ck_message e <> CPanic) -> panics r = false.
Proof. destruct r as [|[k []]]; simpl; try done. intros H. by destruct (H _ eq_refl). Qed.

Lemma startup_panics record elf : panics (validate_startup record elf) = false.
Proof.
  unfold validate_startup, entry_start. cbn zeta. no_panic.
Qed.

Lemma require_words_panics elf site tests message :
  panics (require_words elf site tests message) = false.
Proof. unfold require_words, site_word, header_dep_machine_error. cbn zeta. no_panic. Qed.

Lemma require_panics site b message : panics (require site b message) = false.
Proof. unfold require, header_dep_machine_error. no_panic. Qed.

(** A contract without a field selector has a result offset. *)
Lemma full_read_offset owner expected :
  header_dep_syscall_contract owner = Some expected -> hc_field_id expected = None ->
  hc_result_stack_offset expected <> None.
Proof.
  unfold header_dep_syscall_contract. intros (c & Hc & ->)%fmap_Some Hf.
  apply find_elem in Hc as [Hin _]. unfold header_dep_contracts in Hin.
  repeat (apply elem_of_cons in Hin as [-> |Hin]; [done|]). by apply elem_of_nil in Hin.
Qed.

Lemma header_dep_panics record elf site b :
  panics (validate_header_dep_syscall_site record elf site b) = false.
Proof.
  unfold validate_header_dep_syscall_site.
  destruct (header_dep_syscall_contract (owner_entry b)) as [expected|] eqn:Ec;
    [|unfold header_dep_machine_error; no_panic].
  pose proof (full_read_offset _ _ Ec) as Hfull. cbn zeta.
  unfold check_field_read, check_full_read, header_dep_machine_error.
  repeat first
    [ apply require_words_panics | apply require_panics | done
    | apply bind_panics; [|intros ? ?]
    | match goal with |- panics (if ?b then _ else _) = false => destruct b end ].
  destruct (hc_field_id expected) as [f|].
  - repeat first [apply require_words_panics|apply require_panics|apply bind_panics; [|intros ? ?]].
  - destruct (hc_result_stack_offset expected) as [o|]; [|by destruct Hfull].
    repeat first [apply require_words_panics|apply require_panics|apply bind_panics; [|intros ? ?]].
Qed.

Lemma block_digests_panics hash artifact record elf :
  panics (validate_block_digests hash artifact record elf) = false.
Proof.
  unfold validate_block_digests. apply fold_unit_panics. intros b _. unfold check_block_digest.
  destruct (bytes_for_range _ _ _); simpl; [|done]. no_panic.
Qed.

(** C24.  The structural passes never panic on a validated record, whatever the ELF file, the
    artifact bytes and the digest function: every block a declared edge names is found, and
    every HeaderDep contract without a field selector has its result offset. *)
Theorem structural_passes_never_panic record budgets hash artifact elf :
  validate_record_graph record budgets = Ok tt ->
  panics (validate_elf_binding artifact record elf) = false /\
  panics (validate_block_digests hash artifact record elf) = false /\
  panics (validate_control_flow record elf) = false /\
  panics (validate_machine_terminators record elf) = false /\
  panics (validate_syscalls record elf) = false /\
  panics (validate_ra_frame_slots record elf) = false.
Proof.
  intros Hok%validate_record_graph_inv. split_and!.
  - unfold validate_elf_binding. no_panic. apply startup_panics.
  - apply block_digests_panics.
  - unfold validate_control_flow. no_panic; [|unfold check_flow_edge; cbn zeta; no_panic].
    match goal with H : ?x ∈ List.filter _ _ |- _ =>
      rewrite list_elem_of_In, filter_In, <- list_elem_of_In in H; destruct H as [Hed _];
      destruct (ok_edge_blocks _ _ Hok x (ed_from x) Hed) as (bf & Hf & Hfid); [set_solver|];
      destruct (ok_edge_blocks _ _ Hok x (ed_to x) Hed) as (bt & Ht & Htid); [set_solver|];
      unfold check_fallthrough; rewrite <- Hfid, <- Htid
    end.
    rewrite !collect_by_elem by (apply Hok || done). no_panic.
  - unfold validate_machine_terminators, check_terminator. no_panic.
  - unfold validate_syscalls. cbn zeta. no_panic. unfold check_site. cbn zeta. no_panic.
    apply header_dep_panics.
  - unfold validate_ra_frame_slots. no_panic.
    match goal with |- panics (check_entry_slots _ ?e _) = false =>
      pose proof (check_entry_slots_spec record elf e) as Hs end.
    apply panics_message. intros err Herr. rewrite Herr in Hs. apply Hs.
Qed.
