(* ===== verification/Execution.v ===== *)
(** Execution of an accepted artifact: the words of its text run on the RV64 semantics of
    Rv64Sem, and stay within the lowering graph of its record.

    A run is a sequence of states: a machine and the return addresses of the calls made so
    far.  Words outside the semantics (memory, arithmetic, system calls) may change registers
    in any way and go on to the next word; the exit system call does not return.  A return is
    part of a run when it goes to a return address of a call of the run.  The text is mapped
    read-only, so the words do not change. *)

From Stdlib Require Import ZArith Lia String.
From stdpp Require Import base numbers list option tactics gmap relations.
From S2P Require Import Prelude RustStr ElfWriter ElfChecker Isa Rv64Sem ScanFacts ParseFacts Record RecordGraph.
From S2P Require Import RecordFacts ElfStructure StructureFacts.

Open Scope Z_scope.

(** * Runs *)

(** The words of the loaded text. *)
Definition loaded (elf : ParsedElf) : list Z := di_word <$> elf_instructions elf.

Definition word_at (elf : ParsedElf) (a : Z) : option Z :=
  fetch (s_address (pe_text elf)) (loaded elf) {| pc := a; regs := fun _ => 0 |}.

(** The word writes a return address. *)
Definition links (w : Z) : bool := one_of (opcode w) [0x67; 0x6f] && negb (bits w 7 0x1f =? 0).

(** The exit system call: [ecall] with its number in [a7]. *)
Definition exits (w : Z) (m : machine) : Prop :=
  w = 0x00000073 /\ rget (regs m) 17 = EXIT_SYSCALL_NUMBER.

Inductive runs (elf : ParsedElf) : machine * list Z -> machine * list Z -> Prop :=
| runs_known w m m' calls :
    word_at elf (pc m) = Some w -> w <> ret -> rv_step w m = Some m' ->
    runs elf (m, calls) (m', if links w then pc m + 4 :: calls else calls)
| runs_other w m m' calls :
    word_at elf (pc m) = Some w -> rv_step w m = None -> ~ exits w m -> pc m' = pc m + 4 ->
    runs elf (m, calls) (m', calls)
| runs_return m m' calls :
    word_at elf (pc m) = Some ret -> rv_step ret m = Some m' -> pc m' ∈ calls ->
    runs elf (m, calls) (m', calls).

(** At the second word of a call pair, [ra] holds what the first one left there. *)
Definition paired (elf : ParsedElf) (m : machine) : Prop :=
  forall w prev, word_at elf (pc m) = Some w -> jalr_ra w ->
    word_at elf (pc m - 4) = Some prev -> auipc_ra prev ->
    rget (regs m) 1 = as_u64 (pc m - 4 + upper_imm prev).

(** * Words and transfers *)

Section Words.
Context (bytes : list Z) (max : Z) (elf : ParsedElf).
Hypothesis Helf : accepted_image bytes max elf.
Local Abbreviation base := (s_address (pe_text elf)).

Lemma accepted_text : text_ok bytes (s_offset (pe_text elf)) base (s_size (pe_text elf)) (pe_decoded elf).
Proof using Helf. apply Helf. Qed.

Lemma word_at_index a w :
  word_at elf a = Some w <-> exists k, a = base + Z.of_nat k * 4 /\ loaded elf !! k = Some w.
Proof using.
  unfold word_at, fetch. cbn [pc]. split.
  - destruct ((base <=? a) && _) eqn:E; [|done]. intros H.
    apply andb_true_iff in E as [?%Z.leb_le ?%Z.eqb_eq]. eexists. split; [|exact H].
    rewrite Z2Nat.id by zdivmod. zdivmod.
  - intros (k & -> & Hk). rewrite (proj2 (Z.leb_le _ _)) by lia.
    replace (base + Z.of_nat k * 4 - base) with (Z.of_nat k * 4) by lia.
    rewrite Z.mod_mul, Z.div_mul, Nat2Z.id by lia. done.
Qed.

Lemma word_instruction a w :
  word_at elf a = Some w -> {| di_address := a; di_word := w |} ∈ elf_instructions elf.
Proof using Helf.
  intros (k & -> & Hk)%word_at_index. unfold loaded in Hk.
  apply list_lookup_fmap_Some in Hk as (i & -> & Hi). apply list_elem_of_lookup. exists k.
  destruct (to_word _ _ _ _ _ accepted_text _ _ Hi) as [Ha _]. destruct i as [a w]. simpl in *. congruence.
Qed.

Lemma instruction_fetched i : i ∈ elf_instructions elf -> word_at elf (di_address i) = Some (di_word i).
Proof using Helf.
  intros [k Hk]%list_elem_of_lookup. destruct (to_word _ _ _ _ _ accepted_text _ _ Hk) as [Ha _].
  apply word_at_index. exists k. split; [done|]. unfold loaded. by rewrite list_lookup_fmap, Hk.
Qed.

(** The word before the second half of a call is the first half. *)
Lemma call_half_prev a w :
  word_at elf a = Some w -> jalr_ra w -> exists prev, word_at elf (a - 4) = Some prev /\ auipc_ra prev.
Proof using Helf.
  intros (k & -> & Hk)%word_at_index Hj.
  destruct (to_jalr _ _ _ _ _ accepted_text k w Hk) as [-> |(j & prev & _ & -> & Hp & Hau)]; [apply Hj|by destruct Hj as (_ & [] & _)|].
  exists prev. split; [|done]. apply word_at_index. exists j. split; [lia|done].
Qed.

(** Where a word that transfers control goes, as the checker recorded it; exact when the
    target is an address inside the text above zero. *)
Lemma flow_of_branch a w :
  word_at elf a = Some w -> opcode w = 0x63 ->
  exists f, f ∈ elf_flow elf /\ cf_address f = a /\ cf_target f = clamp (a + branch_offset w).
Proof using Helf.
  intros (k & -> & Hk)%word_at_index Ho. pose proof (transfer_branch base _ k w Hk Ho) as Ht.
  eexists. split; [apply (to_flow _ _ _ _ _ accepted_text); exists k; exact Ht|]. split; reflexivity.
Qed.

Lemma flow_of_jump a w :
  word_at elf a = Some w -> opcode w = 0x6f ->
  exists f, f ∈ elf_flow elf /\ cf_address f = a /\ cf_target f = clamp (a + jump_offset w).
Proof using Helf.
  intros (k & -> & Hk)%word_at_index Ho. pose proof (transfer_jump base _ k w Hk Ho) as Ht.
  eexists. split; [apply (to_flow _ _ _ _ _ accepted_text); exists k; exact Ht|]. split; reflexivity.
Qed.

Lemma flow_of_call a w prev :
  word_at elf a = Some w -> jalr_ra w -> word_at elf (a - 4) = Some prev -> auipc_ra prev ->
  exists f, f ∈ elf_flow elf /\ cf_address f = a /\
    cf_target f = Z.land (clamp (a - 4 + (upper_imm prev + low_imm w))) (Z.lnot 1).
Proof using Helf.
  intros (k & -> & Hk)%word_at_index Hj (j & Ea & Hp)%word_at_index Hau.
  pose proof (transfer_call base _ k j w prev Hk Hj ltac:(lia) Hp Hau) as Ht.
  eexists. split; [apply (to_flow _ _ _ _ _ accepted_text); exists k; exact Ht|]. split; reflexivity.
Qed.

(** An address has one transfer. *)
Lemma flow_unique f g :
  f ∈ elf_flow elf -> g ∈ elf_flow elf -> cf_address f = cf_address g -> f = g.
Proof using Helf.
  intros [k Hk]%(to_flow _ _ _ _ _ accepted_text) [k' Hk']%(to_flow _ _ _ _ _ accepted_text) E.
  assert (k = k') as <-.
  { assert (cf_address f = address_of base k) by (by destruct Hk).
    assert (cf_address g = address_of base k') by (by destruct Hk'). unfold address_of in *. lia. }
  destruct Hk as [w Hw Ho|w Hw Ho|j w prev Hw [Ho _] Hj Hp _], Hk' as [w' Hw' Ho'|w' Hw' Ho'|j' w' prev' Hw' [Ho' _] Hj' Hp' _];
    rewrite Hw in Hw'; injection Hw' as <-; try lia; try done.
  assert (j = j') as <- by lia. rewrite Hp in Hp'. by injection Hp' as <-.
Qed.

(** Recorded targets are aligned addresses of the text that are not inside a call pair. *)
Lemma flow_target_word f :
  f ∈ elf_flow elf -> cf_target f mod 4 = 0 /\ cf_target f < U64_MAX /\
    exists w, word_at elf (cf_target f) = Some w /\ ~ jalr_ra w.
Proof using Helf.
  intros Hf. destruct (to_target _ _ _ _ _ accepted_text f Hf) as (j & Hj & Ej & Hn).
  destruct (accepted_addresses _ _ _ Helf j j Hj Hj) as [H4 _]. rewrite <- Ej.
  pose proof (instruction_fetched j Hj) as Hw. split; [done|]. split.
  - apply word_at_index in Hw as (k & -> & Hk%lookup_lt_Some). unfold loaded in Hk. rewrite length_fmap in Hk.
    pose proof (to_count _ _ _ _ _ accepted_text) as Hc.
    destruct Helf as (_ & _ & _ & _ & _ & _ & _ & _ & Hend & _). zdivmod.
  - exists (di_word j). split; [done|]. intros (H1 & H2 & _). by apply Hn.
Qed.
End Words.

Lemma clamp_exact z t : clamp z = t -> 0 < t -> t < U64_MAX -> z = t /\ as_u64 z = t.
Proof.
  unfold clamp. intros H H0 H1. assert (z = t) as -> by lia. split; [done|].
  apply as_u_small. unfold U64_MAX in H1. pow2_consts. lia.
Qed.

Lemma clamp_even z t :
  Z.land (clamp z) (Z.lnot 1) = t -> t mod 4 = 0 -> 0 < t -> t < U64_MAX -> Z.land (as_u64 z) (Z.lnot 1) = t.
Proof.
  intros H H4 H0 H1. assert (forall x, Z.land x (Z.lnot 1) = x / 2 * 2) as Hl.
  { intros x. change (Z.lnot 1) with (Z.lnot (Z.ones 1)). by rewrite land_lnot_ones by lia. }
  rewrite Hl in H. assert (0 <= z <= U64_MAX) as Hz.
  { destruct (Z.lt_ge_cases z 0) as [Hlt|Hge].
    - assert (clamp z = 0) as Ec by (unfold clamp, U64_MAX; lia). rewrite Ec in H.
      change (0 / 2 * 2) with 0 in H. lia.
    - destruct (Z.lt_ge_cases U64_MAX z) as [Hgt|]; [|lia].
      assert (clamp z = U64_MAX) as Ec by (unfold clamp, U64_MAX in *; lia). rewrite Ec in H.
      change (U64_MAX / 2 * 2) with 0xfffffffffffffffe in H. subst t. discriminate H4. }
  assert (clamp z = z) as Ec by (unfold clamp; lia). rewrite Ec in H.
  rewrite as_u_small by (unfold U64_MAX in Hz; pow2_consts; lia). by rewrite Hl.
Qed.

(** * One step *)

Lemma rv_step_some w m m' :
  rv_step w m = Some m' ->
  (opcode w = 0x63 /\ (pc m' = as_u64 (pc m + branch_offset w) \/ pc m' = pc m + 4)) \/
  (opcode w = 0x6f /\ pc m' = as_u64 (pc m + jump_offset w)) \/
  (opcode w = 0x67 /\ pc m' = Z.land (as_u64 (rget (regs m) (bits w 15 0x1f) + low_imm w)) (Z.lnot 1)) \/
  (opcode w <> 0x63 /\ opcode w <> 0x6f /\ opcode w <> 0x67 /\ w <> 0x00000073 /\ pc m' = pc m + 4).
Proof.
  unfold rv_step. fold (opcode w). fold (low_imm w). intros H.
  assert (opcode w <> 0x73 -> w <> 0x00000073) as H73 by (intros Hn ->; done).
  destruct (Z.eqb_spec (opcode w) 0x37) as [E|E1]; [injection H as <-; do 3 right; split_and!; try done; try lia; apply H73; lia|].
  destruct (Z.eqb_spec (opcode w) 0x17) as [E|E2]; [injection H as <-; do 3 right; split_and!; try done; try lia; apply H73; lia|].
  destruct (Z.eqb_spec (opcode w) 0x13) as [E|E3]; cbn [andb] in H.
  { assert (pc m' = pc m + 4) as Hp.
    { destruct (_ =? 0); [by injection H as <-|]. destruct (_ && _); [by injection H as <-|].
      destruct (_ && _); [by injection H as <-|]. rewrite E in H. simpl in H. done. }
    do 3 right. split_and!; try lia; apply H73; lia. }
  destruct (Z.eqb_spec (opcode w) 0x6f) as [E|E4]; [injection H as <-; right; left; done|].
  destruct (Z.eqb_spec (opcode w) 0x67) as [E|E5]; cbn [andb] in H.
  { destruct (_ =? 0); [injection H as <-; right; right; left; done|]. rewrite E in H. simpl in H. done. }
  destruct (Z.eqb_spec (opcode w) 0x63) as [E|E6]; [|done]. left. split; [done|].
  destruct (branch_condition _ _ _) as [[]|]; simpl in H; [| |done]; injection H as <-; auto.
Qed.

Lemma rv_step_none w m :
  rv_step w m = None -> opcode w <> 0x6f /\ (opcode w = 0x67 -> bits w 12 0x7 <> 0) /\ opcode w <> 0x17.
Proof.
  unfold rv_step. fold (opcode w). intros H. split_and!; [intros E|intros E E0|intros E];
    rewrite E in H; simpl in H; try done. rewrite E0 in H. done.
Qed.

(** What a step does, in terms of what the checker recorded about the word. *)
Inductive step_view (elf : ParsedElf) (m m' : machine) (calls : list Z) : list Z -> Prop :=
| view_next w :
    word_at elf (pc m) = Some w -> w <> ret -> is_jal_zero w = false -> opcode w <> 0x6f -> opcode w <> 0x67 ->
    pc m' = pc m + 4 -> (forall m1, rv_step w m = Some m1 -> m' = m1) -> ~ exits w m ->
    (rv_step w m = None -> opcode w <> 0x17) -> step_view elf m m' calls calls
| view_flow w f :
    word_at elf (pc m) = Some w -> f ∈ elf_flow elf -> cf_address f = pc m ->
    (0 < cf_target f -> pc m' = cf_target f) -> step_view elf m m' calls calls
| view_link w f :
    word_at elf (pc m) = Some w -> f ∈ elf_flow elf -> cf_address f = pc m ->
    (0 < cf_target f -> pc m' = cf_target f) -> w <> ret -> is_jal_zero w = false -> opcode w <> 0x17 ->
    step_view elf m m' calls (pc m + 4 :: calls)
| view_return :
    word_at elf (pc m) = Some ret -> pc m' ∈ calls -> step_view elf m m' calls calls.

Lemma links_jal w : links w = true -> is_jal_zero w = false /\ opcode w <> 0x17.
Proof.
  unfold links, is_jal_zero, one_of. fold (opcode w). intros [H1 H2%negb_true_iff]%andb_true_iff. rewrite H2, andb_false_r.
  split; [done|]. intros E. rewrite E in H1. done.
Qed.

Section Step.
Context (bytes : list Z) (max : Z) (elf : ParsedElf).
Hypothesis Helf : accepted_image bytes max elf.

Lemma step_viewed m calls m' calls' :
  paired elf m -> runs elf (m, calls) (m', calls') -> step_view elf m m' calls calls'.
Proof using Helf.
  intros Hpair Hrun. inversion Hrun as [w ? ? ? Hw Hret Hs|w ? ? ? Hw Hs Hex Hpc|? ? ? Hw Hs Hin]; subst.
  3:{ by apply view_return. }
  2:{ destruct (rv_step_none _ _ Hs) as (H6f & H67 & H17).
      assert (opcode w <> 0x67) as Hn67.
      { intros E. specialize (H67 E). apply word_at_index in Hw as (k & _ & Hk).
        destruct (to_jalr _ _ _ _ _ (accepted_text _ _ _ Helf) k w Hk E) as [-> |(j & prev & Hj & _)]; [done|].
        destruct Hj as (_ & _ & _ & Hj & _). done. }
      eapply view_next; [exact Hw|intros ->; done| |done|done|done|congruence|done|done].
      unfold is_jal_zero. fold (opcode w). by rewrite (proj2 (Z.eqb_neq _ _) H6f). }
  assert (forall f, f ∈ elf_flow elf -> cf_address f = pc m -> (0 < cf_target f -> pc m' = cf_target f) ->
    step_view elf m m' calls (if links w then pc m + 4 :: calls else calls)) as Hflow.
  { intros f Hf Ha Ht. destruct (links w) eqn:El; [|by eapply view_flow].
    destruct (links_jal w El). by eapply view_link. }
  destruct (rv_step_some w m m' Hs) as [[Ho [Hpc|Hpc]]|[[Ho Hpc]|[[Ho Hpc]|(H63 & H6f & H67 & H73 & Hpc)]]].
  - destruct (flow_of_branch _ _ _ Helf _ _ Hw Ho) as (f & Hf & Ha & Ht). apply (Hflow f Hf Ha). intros H0.
    destruct (flow_target_word _ _ _ Helf f Hf) as (_ & Hlt & _).
    rewrite Hpc. symmetry in Ht. by apply clamp_exact in Ht as [_ ->].
  - assert (links w = false) as -> by (unfold links, one_of; by rewrite Ho).
    eapply view_next; [exact Hw|done| |lia|lia|done|congruence| |lia].
    + unfold is_jal_zero. fold (opcode w). by rewrite Ho.
    + intros [-> _]. done.
  - destruct (flow_of_jump _ _ _ Helf _ _ Hw Ho) as (f & Hf & Ha & Ht). apply (Hflow f Hf Ha). intros H0.
    destruct (flow_target_word _ _ _ Helf f Hf) as (_ & Hlt & _).
    rewrite Hpc. symmetry in Ht. by apply clamp_exact in Ht as [_ ->].
  - assert (jalr_ra w) as Hj.
    { pose proof Hw as (k & _ & Hk)%word_at_index.
      destruct (to_jalr _ _ _ _ _ (accepted_text _ _ _ Helf) k w Hk Ho) as [-> |(j & prev & Hj & _)]; done. }
    destruct (call_half_prev _ _ _ Helf _ _ Hw Hj) as (prev & Hp & Hau).
    destruct (flow_of_call _ _ _ Helf _ _ _ Hw Hj Hp Hau) as (f & Hf & Ha & Ht). apply (Hflow f Hf Ha). intros H0.
    destruct (flow_target_word _ _ _ Helf f Hf) as (H4 & Hlt & _). rewrite Hpc.
    pose proof Hj as (_ & _ & _ & _ & ->). rewrite (Hpair w prev Hw Hj Hp Hau).
    replace (as_u64 (as_u64 (pc m - 4 + upper_imm prev) + low_imm w))
      with (as_u64 (pc m - 4 + (upper_imm prev + low_imm w))).
    + apply clamp_even; [by rewrite Ht|done..].
    + rewrite Z.add_assoc. unfold as_u. by rewrite Z.add_mod_idemp_l by done.
  - assert (links w = false) as ->.
    { unfold links, one_of. cbn [existsb]. by rewrite (proj2 (Z.eqb_neq _ _) H67), (proj2 (Z.eqb_neq _ _) H6f). }
    eapply view_next; [exact Hw|done| |done|done|done|congruence| |congruence].
    + unfold is_jal_zero. fold (opcode w). by rewrite (proj2 (Z.eqb_neq _ _) H6f).
    + by intros [-> _].
Qed.
End Step.

(** * The start-up code *)

(** The five words before the first block: load an exit code or call the entry, then exit. *)
Record startup_code (record : VerifiedLoweringRecord) (elf : ParsedElf) (w0 w1 : Z) : Prop := {
  su_entry_base : pe_entry elf = s_address (pe_text elf);
  su_blocks : r_start (vr_text_range record) = pe_entry elf + 20;
  su_end : r_end (vr_text_range record) = r_end (section_range (pe_text elf));
  su_w0 : word_at elf (pe_entry elf) = Some w0;
  su_w1 : word_at elf (pe_entry elf + 4) = Some w1;
  su_w2 : word_at elf (pe_entry elf + 8) = Some 0x000008b7;
  su_w3 : word_at elf (pe_entry elf + 12) = Some 0x05d88893;
  su_w4 : word_at elf (pe_entry elf + 16) = Some 0x00000073;
  su_form : (w0 = 0x00000537 /\ w1 = 0x01950513) \/
    (auipc_ra w0 /\ jalr_ra w1 /\
     forall e, selected_entry record = Some e -> exists b f, b ∈ blocks record /\ b_id b = entry_block e /\
       f ∈ elf_flow elf /\ cf_address f = pe_entry elf + 4 /\ cf_target f = r_start (b_range b))
}.

Lemma is_auipc_ra w : is_auipc w 1 = true -> auipc_ra w.
Proof. unfold is_auipc, auipc_ra, opcode. by rewrite andb_true_iff, !Z.eqb_eq. Qed.

Lemma is_jalr_call_ra w : is_jalr_call w = true -> jalr_ra w.
Proof.
  unfold is_jalr_call, jalr_ra, opcode. rewrite !andb_true_iff, !Z.eqb_eq. intros [[[H1 H2] H3] H4].
  split_and!; try done. intros ->. discriminate H2.
Qed.

Lemma entry_start_inv record id a :
  entry_start record id = Ok a -> NoDup (e_id <$> entries record) ->
  forall e, e ∈ entries record -> e_id e = id ->
  exists b, b ∈ blocks record /\ b_id b = entry_block e /\ a = r_start (b_range b).
Proof.
  unfold entry_start. intros H Hnd e He Hid. unfold find_entry_id in H.
  destruct (List.find _ (entries record)) as [e'|] eqn:E; [|done].
  apply find_elem in E as [He' Hid'%str_eqb_eq].
  assert (e' = e) as ->.
  { pose proof (collect_by_elem e_id _ e Hnd He) as L1. pose proof (collect_by_elem e_id _ e' Hnd He') as L2. congruence. }
  unfold find_block_id in H. destruct (List.find _ (blocks record)) as [b|] eqn:Eb; [|done].
  apply find_elem in Eb as [Hb Hbid%str_eqb_eq]. injection H as <-. by exists b.
Qed.

Lemma selected_entry_in record e : selected_entry record = Some e -> e ∈ entries record.
Proof.
  unfold selected_entry, or_else, find_entry_id. destruct (List.find _ (entries record)) as [x|] eqn:E.
  - intros [= <-]. by apply find_elem in E as [? _].
  - intros H. by apply find_elem in H as [? _].
Qed.

Lemma startup_inv bytes max artifact record elf :
  accepted_image bytes max elf -> NoDup (e_id <$> entries record) ->
  validate_elf_binding artifact record elf = Ok tt -> exists w0 w1, startup_code record elf w0 w1.
Proof.
  intros Helf Hnd H. unfold validate_elf_binding in H.
  destruct (negb (contains_range _ _)); [done|]. destruct (_ || _) in H; [done|].
  unfold validate_startup in H. destruct (Z.eqb_spec (pe_entry elf) (s_address (pe_text elf))) as [Hbase|]; [|done].
  cbn [negb] in H. destruct (checked_add_u64 (pe_entry elf) 20) as [body|] eqn:Eb; [|done].
  assert (body = pe_entry elf + 20) as ->.
  { unfold checked_add_u64 in Eb. destruct (_ <=? _); [|done]. by injection Eb. }
  destruct (negb _ || negb _) eqn:Er in H; [done|]. rewrite orb_false_iff, !negb_false_iff, !Z.eqb_eq in Er.
  destruct Er as [Hs He].
  destruct (elf_instructions elf) as [|i0 [|i1 [|i2 [|i3 [|i4 rest]]]]] eqn:Ei; try done.
  assert (forall k i, [i0; i1; i2; i3; i4] !! k = Some i ->
            word_at elf (pe_entry elf + Z.of_nat k * 4) = Some (di_word i)) as Hw.
  { intros k i Hk. apply word_at_index. exists k. split; [by rewrite Hbase|].
    unfold loaded. rewrite list_lookup_fmap, Ei.
    assert ((i0 :: i1 :: i2 :: i3 :: i4 :: rest) !! k = Some i) as ->; [|done].
    change (i0 :: i1 :: i2 :: i3 :: i4 :: rest) with ([i0; i1; i2; i3; i4] ++ rest). by apply lookup_app_l_Some. }
  pose proof (Hw 0%nat _ eq_refl) as H0. pose proof (Hw 1%nat _ eq_refl) as H1.
  pose proof (Hw 2%nat _ eq_refl) as H2. pose proof (Hw 3%nat _ eq_refl) as H3. pose proof (Hw 4%nat _ eq_refl) as H4.
  simpl Z.mul in *. rewrite Z.add_0_r in H0.
  destruct (negb _ || negb _ || negb _) eqn:Ew in H; [done|].
  rewrite !orb_false_iff, !negb_false_iff, !Z.eqb_eq in Ew. destruct Ew as [[E2 E3] E4].
  rewrite E2 in H2. rewrite E3 in H3. rewrite E4 in H4.
  exists (di_word i0), (di_word i1). constructor; try done.
  destruct ((di_word i0 =? 0x00000537) && (di_word i1 =? 0x01950513)) eqn:Ex in H.
  { left. by rewrite andb_true_iff, !Z.eqb_eq in Ex. }
  right. destruct (negb (is_auipc _ _) || negb (is_jalr_call _)) eqn:Ec in H; [done|].
  rewrite orb_false_iff, !negb_false_iff in Ec. destruct Ec as [Ha%is_auipc_ra Hj%is_jalr_call_ra].
  split; [done|]. split; [done|]. intros e Hsel. rewrite Hsel in H.
  destruct (entry_start record (e_id e)) as [target|] eqn:Et; [|done].
  destruct (flow_targets elf (pe_entry elf + 4) target) eqn:Ef; [|done].
  destruct (entry_start_inv _ _ _ Et Hnd e (selected_entry_in _ _ Hsel) eq_refl) as (b & Hb & Hid & ->).
  unfold flow_targets in Ef. apply existsb_exists in Ef as (f & Hf%list_elem_of_In & Hc).
  rewrite andb_true_iff, !Z.eqb_eq in Hc. destruct Hc. by exists b, f.
Qed.

(** * Simulation *)

Section Simulation.
Context (bytes : list Z) (max : Z) (artifact : list Z) (record : VerifiedLoweringRecord)
  (budgets : CheckerBudgets) (elf : ParsedElf) (w0 w1 : Z).
Hypothesis Hrec : record_ok record budgets.
Hypothesis Hfwd : Forall forward (blocks record).
Hypothesis Helf : accepted_image bytes max elf.
Hypothesis Hstart : startup_code record elf w0 w1.
Hypothesis Hflow : validate_control_flow record elf = Ok tt.
Hypothesis Hterm : validate_machine_terminators record elf = Ok tt.

(** Blocks lie in the record's text, above the start-up code. *)
Lemma block_in_text b a :
  b ∈ blocks record -> in_block b a ->
  range_contains (vr_text_range record) a = true /\ pe_entry elf + 20 <= a /\ 0 < a.
Proof using Hrec Hfwd Helf Hstart.
  intros Hb Ha. unfold in_block, range_contains in *.
  destruct (coverage_inside _ _ _ _ _ _ _ (ok_coverage _ _ Hrec) Hfwd Hb) as [H1 H2].
  pose proof (su_blocks _ _ _ _ Hstart) as Hs. pose proof (su_entry_base _ _ _ _ Hstart) as He.
  destruct Helf as (_ & _ & _ & _ & _ & _ & _ & H0 & _). lia.
Qed.

(** From a block: the next state of the machine is in the same block or in the target of a
    declared edge. *)
Lemma view_simulated b m m' calls calls' :
  b ∈ blocks record -> in_block b (pc m) -> step_view elf m m' calls calls' ->
  word_at elf (pc m) <> Some ret ->
  exists b', b' ∈ blocks record /\ in_block b' (pc m') /\
    (b' = b \/ edge (edges record) (b_id b) (b_id b')).
Proof using Hrec Hfwd Helf Hstart Hflow Hterm.
  intros Hb Hin Hview Hnret.
  assert (forall f, f ∈ elf_flow elf -> cf_address f = pc m -> (0 < cf_target f -> pc m' = cf_target f) ->
    exists b', b' ∈ blocks record /\ in_block b' (pc m') /\
      (b' = b \/ edge (edges record) (b_id b) (b_id b'))) as Hf.
  { intros f Hf Ha Ht. destruct (block_in_text b (pc m) Hb Hin) as [Htext _]. rewrite <- Ha in Hin, Htext.
    destruct (transfer_simulated record budgets elf Hrec Hfwd Hflow b f Hb Hin Htext Hf) as (b' & Hb' & Hin' & Hor).
    exists b'. rewrite Ht; [done|]. by eapply block_in_text. }
  destruct Hview as [w Hw Hr Hj _ _ Hpc _ _ _|w f Hw Hfl Ha Ht|w f Hw Hfl Ha Ht _ _ _|Hw _]; [|by eapply Hf..|done].
  rewrite Hpc. pose proof (word_instruction _ _ _ Helf _ _ Hw) as Hi.
  exact (sequence_simulated record budgets elf bytes max Hrec Hfwd Helf Hflow Hterm b
    {| di_address := pc m; di_word := w |} Hb Hin Hi Hr Hj).
Qed.

(** The address after a call, which a return goes to. *)
Lemma link_simulated b w a :
  b ∈ blocks record -> in_block b a -> word_at elf a = Some w -> w <> ret -> is_jal_zero w = false ->
  exists b', b' ∈ blocks record /\ in_block b' (a + 4) /\
    (b' = b \/ edge (edges record) (b_id b) (b_id b')).
Proof using Hrec Hfwd Helf Hflow Hterm.
  intros Hb Hin Hw Hr Hj. pose proof (word_instruction _ _ _ Helf _ _ Hw) as Hi.
  exact (sequence_simulated record budgets elf bytes max Hrec Hfwd Helf Hflow Hterm b
    {| di_address := a; di_word := w |} Hb Hin Hi Hr Hj).
Qed.

(** * Whole runs *)

Context (e : LoweringEntry).
Hypothesis Hsel : selected_entry record = Some e.

Definition in_reachable (a : Z) : Prop :=
  exists b, b ∈ blocks record /\ in_block b a /\ reachable b = true.

(** Not the second half of a call. *)
Definition landing (a : Z) : Prop := forall w, word_at elf a = Some w -> ~ jalr_ra w.

(** In the start-up code, on the way to the exit system call. *)
Definition startup_at (m : machine) : Prop :=
  let entry := pe_entry elf in
  pc m = entry \/ pc m = entry + 4 \/ pc m = entry + 8 \/
  (pc m = entry + 12 /\ rget (regs m) 17 = 0) \/
  (pc m = entry + 16 /\ rget (regs m) 17 = EXIT_SYSCALL_NUMBER).

Record run_inv (s : machine * list Z) : Prop := {
  ri_paired : paired elf (fst s);
  ri_place : startup_at (fst s) \/ in_reachable (pc (fst s));
  ri_calls : forall a, a ∈ snd s -> landing a /\ (a = pe_entry elf + 8 \/ in_reachable a)
}.

Lemma reachable_edge b b' :
  b ∈ blocks record -> b' ∈ blocks record -> reachable b = true ->
  b' = b \/ edge (edges record) (b_id b) (b_id b') -> reachable b' = true.
Proof using Hrec.
  clear - Hrec. intros Hb Hb' Hr [-> |Hed]; [done|].
  pose proof (proj1 (validate_reachability_ok record) (ok_reachability _ _ Hrec)) as Hreach.
  apply Hreach in Hr as (r & Hin & Hp); [|done]. apply Hreach; [done|]. exists r. split; [done|]. by eapply rtc_r.
Qed.

Lemma paired_landing m : landing (pc m) -> paired elf m.
Proof using. clear. intros H w prev Hw Hj. by destruct (H w Hw). Qed.

(** After a word that goes on to the next one, the pair is complete: only an [auipc ra] can
    stand before the second half of a call. *)
Lemma paired_next m m' w :
  word_at elf (pc m) = Some w -> pc m' = pc m + 4 -> (forall m1, rv_step w m = Some m1 -> m' = m1) ->
  (rv_step w m = None -> opcode w <> 0x17) -> paired elf m'.
Proof using Helf.
  clear - Helf. intros Hw Hpc Hst Hnone x prev Hx Hj Hp [Ho Hrd].
  rewrite Hpc in Hp |- *. replace (pc m + 4 - 4) with (pc m) in * by lia. rewrite Hw in Hp. injection Hp as <-.
  destruct (rv_step w m) as [m1|] eqn:Es; [|by destruct (Hnone eq_refl)].
  rewrite (Hst m1 eq_refl). unfold opcode in Ho. unfold rv_step in Es. rewrite Ho, Hrd in Es.
  injection Es as <-. cbn [regs]. by rewrite rget_rset.
Qed.

(** The word after a call is not the second half of one. *)
Lemma landing_link a w : word_at elf a = Some w -> opcode w <> 0x17 -> landing (a + 4).
Proof using Helf.
  clear - Helf. intros Hw Ho x Hx Hj. destruct (call_half_prev _ _ _ Helf _ _ Hx Hj) as (prev & Hp & [Hp17 _]).
  replace (a + 4 - 4) with a in Hp by lia. congruence.
Qed.

Lemma flow_word f a w :
  f ∈ elf_flow elf -> cf_address f = a -> word_at elf a = Some w ->
  opcode w = 0x63 \/ opcode w = 0x6f \/ jalr_ra w.
Proof using Helf.
  clear - Helf. intros [k Hk]%(to_flow _ _ _ _ _ (accepted_text _ _ _ Helf)) Ha (j & -> & Hj)%word_at_index.
  unfold loaded in Hj. assert (k = j) as ->.
  { assert (cf_address f = address_of (s_address (pe_text elf)) k) as E by (by destruct Hk).
    unfold address_of in E. lia. }
  destruct Hk as [x Hx Ho|x Hx Ho|i x prev Hx Hc]; rewrite Hj in Hx; injection Hx as <-; auto.
Qed.

(** The only transfer of the start-up code is its call. *)
Lemma startup_flow f m w :
  startup_at m -> f ∈ elf_flow elf -> cf_address f = pc m -> word_at elf (pc m) = Some w ->
  pc m = pe_entry elf + 4 /\ jalr_ra w1.
Proof using Helf Hstart.
  intros Hst Hf Ha Hw. pose proof (flow_word f (pc m) w Hf Ha Hw) as Ho.
  assert (opcode w = 0x63 \/ opcode w = 0x6f \/ opcode w = 0x67) as Hop.
  { destruct Ho as [?|[?|[? _]]]; auto. }
  unfold startup_at in Hst. cbn zeta in Hst. destruct Hstart as [_ _ _ K0 K1 K2 K3 K4 Kf].
  destruct Hst as [E|[E|[E|[[E _]|[E _]]]]]; rewrite E in Hw; [| |exfalso..].
  - exfalso. rewrite K0 in Hw. injection Hw as <-.
    destruct Kf as [[-> _]|([Kau _] & _)]; [by destruct Hop as [?|[?|?]]|lia].
  - split; [done|]. rewrite K1 in Hw. injection Hw as <-.
    destruct Kf as [[_ ->]|(_ & Kj & _)]; [by destruct Hop as [?|[?|?]]|done].
  - rewrite K2 in Hw. injection Hw as <-. by destruct Hop as [?|[?|?]].
  - rewrite K3 in Hw. injection Hw as <-. by destruct Hop as [?|[?|?]].
  - rewrite K4 in Hw. injection Hw as <-. by destruct Hop as [?|[?|?]].
Qed.

(** The call of the start-up code enters the selected entry. *)
Lemma startup_call f :
  f ∈ elf_flow elf -> cf_address f = pe_entry elf + 4 -> jalr_ra w1 ->
  0 < cf_target f /\ in_reachable (cf_target f).
Proof using Hrec Hfwd Helf Hstart Hsel.
  intros Hf Ha Hj. destruct (su_form _ _ _ _ Hstart) as [[_ E]|(_ & _ & Hentry)].
  { destruct Hj as [Ho _]. rewrite E in Ho. discriminate Ho. }
  destruct (Hentry e Hsel) as (b & g & Hb & Hid & Hg & Hga & Hgt).
  assert (f = g) as -> by (eapply flow_unique; [exact Helf|done|done|congruence]).
  assert (in_block b (r_start (b_range b))) as Hin.
  { unfold in_block, range_contains. destruct (block_bounds record budgets Hrec Hfwd b Hb). lia. }
  rewrite Hgt. split; [by eapply block_in_text|]. exists b. split_and!; [done..|].
  apply (proj1 (validate_reachability_ok record) (ok_reachability _ _ Hrec) b Hb).
  exists (b_id b). split; [|done]. rewrite Hid. apply list_elem_of_fmap_2. by apply selected_entry_in.
Qed.

(** The start-up code runs to the call, or to the exit. *)
Lemma startup_next m m' w :
  startup_at m -> word_at elf (pc m) = Some w -> opcode w <> 0x67 -> pc m' = pc m + 4 ->
  (forall m1, rv_step w m = Some m1 -> m' = m1) -> ~ exits w m -> startup_at m'.
Proof using Hstart.
  clear - Hstart. intros Hst Hw Ho Hpc Hm Hex. unfold startup_at in *. cbn zeta in *. destruct Hstart as [_ _ _ _ _ H2 H3 H4 _].
  destruct Hst as [E|[E|[E|[[E Ea]|[E Ea]]]]]; rewrite E in Hw, Hpc.
  - right. left. lia.
  - right. right. left. lia.
  - right. right. right. left. rewrite H2 in Hw. injection Hw as <-. split; [lia|].
    by rewrite (Hm _ eq_refl).
  - right. right. right. right. rewrite H3 in Hw. injection Hw as <-. split; [lia|].
    assert (rv_step 0x05d88893 m = Some {| pc := pc m + 4; regs := rset (regs m) 17 (as_u64 (rget (regs m) 17 + 93)) |})
      as Hs by reflexivity.
    rewrite (Hm _ Hs). cbn [regs]. by rewrite Ea, rget_rset.
  - exfalso. apply Hex. rewrite H4 in Hw. injection Hw as <-. by split.
Qed.

(** A recorded transfer keeps the machine in reachable blocks. *)
Lemma flow_place m m' w f :
  startup_at m \/ in_reachable (pc m) -> word_at elf (pc m) = Some w ->
  f ∈ elf_flow elf -> cf_address f = pc m -> (0 < cf_target f -> pc m' = cf_target f) ->
  in_reachable (pc m') /\ landing (pc m').
Proof using Hrec Hfwd Helf Hstart Hflow Hterm Hsel.
  intros Hpl Hw Hf Ha Ht.
  assert (0 < cf_target f /\ in_reachable (cf_target f)) as [H0 Hr].
  { destruct Hpl as [Hst|(b & Hb & Hin & Hr)].
    - destruct (startup_flow f m w Hst Hf Ha Hw) as [E Hj].
      rewrite E in Ha. by apply startup_call.
    - destruct (block_in_text b (pc m) Hb Hin) as [Htext _]. rewrite <- Ha in Hin, Htext.
      destruct (transfer_simulated record budgets elf Hrec Hfwd Hflow b f Hb Hin Htext Hf) as (b' & Hb' & Hin' & Hor).
      split; [by eapply block_in_text|]. exists b'. split; [done|]. split; [done|]. by eapply (reachable_edge b b'). }
  rewrite (Ht H0). split; [done|]. destruct (flow_target_word _ _ _ Helf f Hf) as (_ & _ & x & Hx & Hn).
  intros y Hy. rewrite Hx in Hy. by injection Hy as <-.
Qed.

Lemma run_inv_step s s' : run_inv s -> runs elf s s' -> run_inv s'.
Proof using Hrec Hfwd Helf Hstart Hflow Hterm Hsel.
  destruct s as [m calls], s' as [m' calls']. intros [Hpair Hplace Hcalls] Hrun. cbn [fst snd] in *.
  pose proof (step_viewed _ _ _ Helf _ _ _ _ Hpair Hrun) as Hview.
  destruct Hview as [w Hw Hr Hj H6f H67 Hpc Hm Hex Hnone|w f Hw Hf Ha Ht|w f Hw Hf Ha Ht Hr Hj H17|Hw Hin].
  - constructor; cbn [fst snd]; [by eapply paired_next| |done].
    destruct Hplace as [Hst|(b & Hb & Hin & Hrb)]; [left; by eapply startup_next|right].
    rewrite Hpc. destruct (link_simulated b w (pc m) Hb Hin Hw Hr Hj) as (b' & Hb' & Hin' & Hor).
    exists b'. split; [done|]. split; [done|]. by eapply (reachable_edge b b').
  - destruct (flow_place m m' w f Hplace Hw Hf Ha Ht) as [Hp Hl].
    constructor; cbn [fst snd]; [by apply paired_landing|by right|done].
  - destruct (flow_place m m' w f Hplace Hw Hf Ha Ht) as [Hp Hl].
    constructor; cbn [fst snd]; [by apply paired_landing|by right|].
    intros a [-> |Hin]%elem_of_cons; [|by apply Hcalls]. split; [by eapply landing_link|].
    destruct Hplace as [Hst|(b & Hb & Hin & Hrb)].
    + left. destruct (startup_flow f m w Hst Hf Ha Hw) as [-> _]. lia.
    + right. destruct (link_simulated b w (pc m) Hb Hin Hw Hr Hj) as (b' & Hb' & Hin' & Hor).
      exists b'. split; [done|]. split; [done|]. by eapply (reachable_edge b b').
  - destruct (Hcalls _ Hin) as [Hl Hp]. constructor; cbn [fst snd]; [by apply paired_landing| |done].
    destruct Hp as [E|Hp]; [|by right]. left. unfold startup_at. cbn zeta. auto.
Qed.

Lemma run_inv_start m : pc m = pe_entry elf -> run_inv (m, []).
Proof using Hstart.
  clear - Hstart. intros E. constructor; cbn [fst snd]; [|left; by left|intros a []%not_elem_of_nil].
  apply paired_landing. rewrite E. intros w Hw [Ho _]. destruct Hstart as [_ _ _ K0 _ _ _ _ Kf].
  rewrite K0 in Hw. injection Hw as <-. destruct Kf as [[-> _]|([Kau _] & _)]; [done|lia].
Qed.

Lemma run_inv_runs s s' : rtc (runs elf) s s' -> run_inv s -> run_inv s'.
Proof using Hrec Hfwd Helf Hstart Hflow Hterm Hsel.
  induction 1 as [|s1 s2 s3 H12 _ IH]; intros Hinv; [done|]. by eapply IH, run_inv_step.
Qed.
End Simulation.

(** Acceptance gives the hypotheses of the simulation. *)
Lemma accepted_startup bytes max record budgets elf :
  bytes_ok bytes -> parse_elf bytes max = Ok elf -> validate_record_graph record budgets = Ok tt ->
  validate_elf_binding bytes record elf = Ok tt ->
  accepted_image bytes max elf /\ record_ok record budgets /\ exists w0 w1, startup_code record elf w0 w1.
Proof.
  intros Hb Hp Hr Hbind. pose proof (parse_elf_inv _ _ _ Hb Hp) as Helf.
  pose proof (validate_record_graph_inv _ _ Hr) as Hrec. split; [done|]. split; [done|].
  eapply startup_inv; [exact Helf| |exact Hbind]. by apply (ok_entry_ids record budgets).
Qed.

(** C3.  The lowering graph simulates the machine.  Take an artifact that the checker parses,
    whose record passes the record graph, the start-up binding, the control-flow and the
    terminator pass, and a record whose block ranges do not run backwards (the validators do
    not exclude this, see C31).  Let the program counter be inside a block; in the middle of a
    call pair, let [ra] hold what the [auipc] before it computes.  One step of the RV64
    semantics on the word there, other than a [ret], leaves the program counter in the same
    block or in a block that a declared edge leads to.  When the step is a call, the return
    address it writes also lies in the same block or behind a declared edge.  Returns are the
    subject of C12. *)
Theorem cfg_simulates_machine bytes max record budgets elf b m m' calls calls' :
  bytes_ok bytes -> parse_elf bytes max = Ok elf ->
  validate_record_graph record budgets = Ok tt -> Forall forward (blocks record) ->
  validate_elf_binding bytes record elf = Ok tt ->
  validate_control_flow record elf = Ok tt -> validate_machine_terminators record elf = Ok tt ->
  b ∈ blocks record -> in_block b (pc m) -> paired elf m ->
  runs elf (m, calls) (m', calls') -> word_at elf (pc m) <> Some ret ->
  (exists b', b' ∈ blocks record /\ in_block b' (pc m') /\
     (b' = b \/ edge (edges record) (b_id b) (b_id b'))) /\
  (calls' = calls \/
   calls' = pc m + 4 :: calls /\
   exists b', b' ∈ blocks record /\ in_block b' (pc m + 4) /\
     (b' = b \/ edge (edges record) (b_id b) (b_id b'))).
Proof.
  intros Hbs Hp Hr Hfwd Hbind Hflow Hterm Hb Hin Hpair Hrun Hnret.
  destruct (accepted_startup _ _ _ _ _ Hbs Hp Hr Hbind) as (Helf & Hrec & w0 & w1 & Hstart).
  pose proof (step_viewed _ _ _ Helf _ _ _ _ Hpair Hrun) as Hview. split; [by eapply view_simulated|].
  destruct Hview as [| |w f Hw _ _ _ Hr0 Hj _|]; [by left|by left|right|by left].
  split; [done|]. by eapply link_simulated.
Qed.

(** C12.  Execution stays in reachable code.  Under the hypotheses of C3 and for a record that
    names the entry the start-up code calls, start the machine at the entry point of the file
    with any registers and run it: every word is executed by the
    RV64 semantics (words outside it change registers in any way and go on), a [ret] may go to
    the return address of any call executed before, and the exit system call ends the run.
    Then the program counter is always in the twenty bytes of the start-up code or inside a
    block the record marks reachable.  A [ret] to any other address is not part of a run: that
    saved return addresses survive in their slots is C6, and C30 shows a return address the
    word checks fail to exclude. *)
Theorem machine_stays_reachable bytes max record budgets elf e m0 m calls :
  bytes_ok bytes -> parse_elf bytes max = Ok elf ->
  validate_record_graph record budgets = Ok tt -> Forall forward (blocks record) ->
  validate_elf_binding bytes record elf = Ok tt ->
  validate_control_flow record elf = Ok tt -> validate_machine_terminators record elf = Ok tt ->
  selected_entry record = Some e -> pc m0 = pe_entry elf ->
  rtc (runs elf) (m0, []) (m, calls) ->
  pe_entry elf <= pc m < pe_entry elf + 20 \/
  exists b, b ∈ blocks record /\ in_block b (pc m) /\ reachable b = true.
Proof.
  intros Hbs Hp Hr Hfwd Hbind Hflow Hterm Hsel H0 Hrun.
  destruct (accepted_startup _ _ _ _ _ Hbs Hp Hr Hbind) as (Helf & Hrec & w0 & w1 & Hstart).
  pose proof (run_inv_start record elf w0 w1 Hstart m0 H0) as Hinv.
  eapply run_inv_runs in Hinv as [_ Hpl _]; [|done..]. destruct Hpl as [Hst|Hpl]; [left|by right].
  cbn [fst] in Hst. unfold startup_at in Hst. cbn zeta in Hst. lia.
Qed.
