(* ===== verification/ArtifactSample.v ===== *)
(** The artifact of the sample program, as the assembler emits it and the checker reads it,
    and the structural theorems at this artifact and its record. *)

From Stdlib Require Import ZArith Lia String.
From stdpp Require Import base numbers list option tactics gmap sorting relations.
From S2P Require Import Prelude RustStr Sample ElfWriter ElfChecker ParseFacts Isa Record RecordGraph.
From S2P Require Import RecordFacts ElfStructure StructureFacts Rv64Sem Execution.

Open Scope Z_scope.

Definition bytes_okb (l : list Z) : bool := forallb (fun b => (0 <=? b) && (b <? 256)) l.

Lemma bytes_okb_ok l : bytes_okb l = true -> bytes_ok l.
Proof.
  unfold bytes_okb, bytes_ok, byte_ok. rewrite forallb_forall, Forall_forall.
  intros H b Hb%list_elem_of_In. specialize (H b Hb). lia.
Qed.

(** The bytes of the executable. *)
Definition sample_elf : list Z := Eval vm_compute in
  match assemble_generated_elf sample_lines with Ok elf => elf | Err _ => [] end.

Example sample_elf_assembled : assemble_generated_elf sample_lines = Ok sample_elf.
Proof. vm_compute. reflexivity. Qed.

Lemma sample_bytes_ok : bytes_ok sample_elf.
Proof. apply bytes_okb_ok. vm_compute. reflexivity. Qed.

(** Every structural pass accepts the artifact with its record. *)
Definition structural_passes (record : VerifiedLoweringRecord) (elf : ParsedElf) : bool :=
  is_ok (validate_elf_binding sample_elf record elf)
  && is_ok (validate_control_flow record elf) && is_ok (validate_machine_terminators record elf)
  && is_ok (validate_stack_discipline record elf None) && is_ok (validate_syscalls record elf)
  && is_ok (validate_ra_frame_slots record elf).

Example sample_passes :
  match parse_elf sample_elf 15 with Ok elf => structural_passes sample_record elf | Err _ => false end
  = true.
Proof. vm_compute. reflexivity. Qed.

Lemma sample_parsed :
  exists elf, parse_elf sample_elf 15 = Ok elf /\ validate_elf_binding sample_elf sample_record elf = Ok tt /\
    validate_control_flow sample_record elf = Ok tt /\
    validate_machine_terminators sample_record elf = Ok tt /\
    validate_stack_discipline sample_record elf None = Ok tt /\
    pe_entry elf = 65536 /\
    word_at elf 65536 = Some 0x00000097 /\ word_at elf 65540 = Some 0x014080e7 /\
    word_at elf 65556 = Some 0x00050e63.
Proof.
  eexists. split; [vm_compute; reflexivity|]. do 7 (split; [vm_compute; reflexivity|]).
  vm_compute. reflexivity.
Qed.

Lemma sample_forward : Forall forward (blocks sample_record).
Proof. repeat constructor; vm_compute; discriminate. Qed.

Lemma sample_frames : Forall frame_u32 (blocks sample_record).
Proof. repeat constructor; vm_compute; discriminate. Qed.

Lemma parse_elf_sound_witness :
  exists elf, parse_elf sample_elf 15 = Ok elf /\ 0 < s_size (pe_text elf) /\
    s_size (pe_text elf) / 4 <= 15.
Proof.
  destruct sample_parsed as (elf & Hp & _). exists elf.
  destruct (parse_elf_sound sample_elf 15 elf sample_bytes_ok Hp) as (_ & _ & _ & _ & H0 & H15 & _).
  split; [exact Hp|]. split; [exact H0|exact H15].
Defined.

Lemma stack_discipline_exact_witness :
  exists elf, parse_elf sample_elf 15 = Ok elf /\ stack_sound sample_record elf None.
Proof.
  destruct sample_parsed as (elf & Hp & _ & _ & _ & Hs & _). exists elf. split; [exact Hp|].
  apply (stack_discipline_exact sample_record default_budgets elf None sample_accepted sample_frames).
  exact Hs.
Defined.

(** A machine at an address, with all registers zero. *)
Definition at_pc (a : Z) : machine := {| pc := a; regs := fun _ => 0 |}.

Lemma runs_word elf w m m' calls calls' :
  word_at elf (pc m) = Some w -> w <> ret -> rv_step w m = Some m' ->
  (if links w then pc m + 4 :: calls else calls) = calls' -> runs elf (m, calls) (m', calls').
Proof. intros Hw Hr Hs <-. by apply runs_known. Qed.

(** The taken branch of [b0], on the register state of the start. *)
Lemma cfg_simulates_machine_witness :
  exists elf m b', parse_elf sample_elf 15 = Ok elf /\ runs elf (at_pc 65556, []) (m, []) /\
    b' ∈ blocks sample_record /\ in_block b' (pc m) /\ pc m = 65584.
Proof.
  destruct sample_parsed as (elf & Hp & Hbind & Hc & Ht & _ & _ & _ & _ & Hw).
  assert (exists m, rv_step 0x00050e63 (at_pc 65556) = Some m /\ pc m = 65584) as (m & Hs & Hpc)
    by (eexists; split; vm_compute; reflexivity).
  assert (runs elf (at_pc 65556, []) (m, [])) as Hrun
    by (apply (runs_word elf _ _ _ [] [] Hw); [discriminate|exact Hs|reflexivity]).
  destruct (cfg_simulates_machine sample_elf 15 sample_record default_budgets elf
    (sample_block "b0" "action:main" true ConditionalBranch 65556 65560 16
       [sample_slot "local" 0; sample_slot "ra" 8]) (at_pc 65556) m [] []
    sample_bytes_ok Hp sample_accepted sample_forward Hbind Hc Ht) as [(b' & Hb & Hin & _) _].
  - apply list_elem_of_here.
  - reflexivity.
  - intros w prev Hw' [Ho _]. change (pc (at_pc 65556)) with 65556 in Hw'. rewrite Hw in Hw'.
    injection Hw' as <-. discriminate Ho.
  - exact Hrun.
  - change (pc (at_pc 65556)) with 65556. rewrite Hw. discriminate.
  - exists elf, m, b'. split_and!; [exact Hp|exact Hrun|exact Hb|exact Hin|exact Hpc].
Defined.

(** The start-up call and the taken branch of the entry. *)
Lemma machine_stays_reachable_witness :
  exists elf m, parse_elf sample_elf 15 = Ok elf /\ rtc (runs elf) (at_pc 65536, []) (m, [65544]) /\
    pc m = 65584 /\ exists b, b ∈ blocks sample_record /\ in_block b (pc m) /\ reachable b = true.
Proof.
  destruct sample_parsed as (elf & Hp & Hbind & Hc & Ht & _ & He & Hw0 & Hw1 & Hw2).
  assert (exists m, rtc (runs elf) (at_pc 65536, []) (m, [65544]) /\ pc m = 65584) as (m & Hrun & Hpc).
  { eexists. split.
    - eapply rtc_l; [eapply (runs_word _ _ _ _ [] []); [exact Hw0|discriminate|vm_compute; reflexivity|reflexivity]|].
      eapply rtc_l; [eapply (runs_word _ _ _ _ [] [65544]); [exact Hw1|discriminate|vm_compute; reflexivity|reflexivity]|].
      apply rtc_once. eapply (runs_word _ _ _ _ [65544] [65544]); [exact Hw2|discriminate|vm_compute; reflexivity|reflexivity].
    - reflexivity. }
  exists elf, m. split; [exact Hp|]. split; [exact Hrun|]. split; [exact Hpc|].
  destruct (machine_stays_reachable sample_elf 15 sample_record default_budgets elf
    (sample_entry "action:main" "main" "b0" Action 16) (at_pc 65536) m [65544]
    sample_bytes_ok Hp sample_accepted sample_forward Hbind Hc Ht) as [H|H].
  - vm_compute. reflexivity.
  - rewrite He. reflexivity.
  - exact Hrun.
  - lia.
  - exact H.
Defined.

Lemma structural_passes_never_panic_witness :
  exists elf, parse_elf sample_elf 15 = Ok elf /\
    panics (validate_control_flow sample_record elf) = false /\
    panics (validate_block_digests (fun bytes => take 32 bytes) sample_elf sample_record elf) = false.
Proof.
  destruct sample_parsed as (elf & Hp & _). exists elf. split; [exact Hp|].
  destruct (structural_passes_never_panic sample_record default_budgets (fun bytes => take 32 bytes)
    sample_elf elf sample_accepted) as (_ & Hd & Hc & _). split; [exact Hc|exact Hd].
Defined.
